(* ===== verification/_CoqProject ===== *)
-Q . S2P
Prelude.v
Utf8.v
Json.v
Protocol.v
Texts.v
Attachment.v
PacketJson.v
Codec.v
RateLimiter.v
LimiterThreads.v
Validation.v
ServerTypes.v
ServerRuntime.v
ServerSystem.v
ServerThreads.v
ServerFlow.v
ServerDrain.v
ClientTypes.v
ClientRuntime.v
ClientSystem.v
ClientThreads.v
ClientConnect.v
Demo.v
System.v
Session.v
Lifetime.v
