(* ===== verification/Prelude.v ===== *)
(** * WSCALL: a verification development

    WSCALL is a remote-call framework over WebSockets: a binary frame codec
    shared by both sides, a server runtime and a client runtime.  This library
    models the crates under src/crates/ as executable definitions and
    proves what makes them correct.

    ** The program and the files that model it

    - [Prelude] (this file): [result] with [Ok], [Err] and [Panic] (a Rust
      function that indexes, slices or unwraps can only return [Panic] there);
      indexing and slicing; machine integers with explicit [wrap]; the state
      monad [M] of the runtimes ([catch_unwind] turns a panic into a value);
      the closure lemmas of [preserves]; hint databases and tactics.
    - [Utf8], [Json]: UTF-8 validity, the JSON value tree, and the interface
      [SerdeJson] of the text printer and parser.
    - [Protocol], [Attachment], [PacketJson], [Codec]:
      wscall-protocol/src/lib.rs.  Packet types and key agreement; the binary
      attachment sections ([write_wire], [read_wire]); the hand-written
      [Serialize] and [Deserialize] implementations; [FrameCodec::encode] (both
      the in-place plaintext path and the encrypted path) and [decode].
    - [Texts]: the texts of errors ([Display] of [ProtocolError], [Debug] of an
      error payload, [{:?}] of a string); those of the two runtimes are in
      [ServerTypes] and [ClientTypes].
    - [RateLimiter]: wscall-server/src/rate_limiter.rs.  Windows, bans, the
      check of one frame, cleanup.
    - [LimiterThreads]: the same limiter one map access at a time ([access],
      [lim_step]): the readers of all connections, the accepting tasks and the
      cleanup interleave.
    - [Validation]: wscall-server/src/validation.rs.  Validators, what the
      validator macros generate, the JSON form of validation errors.
    - [ServerTypes], [ServerRuntime]: server_types.rs and server_runtime.rs.
      The state that the server's tasks share is one record, [World]; each
      method is a computation on it.  [connect] is [serve_connection] up to the
      reader loop, [reader_step] one iteration of that loop, [writer_step] and
      [heartbeat] one of the writer task, [process_packet] a handler task,
      [begin_teardown] and [end_teardown] the end.
    - [ServerSystem]: these operations in any order ([server_step]); one
      connection with its in-flight semaphore ([conn_step]); the accept loop of
      [listen] with its connection semaphore ([listen_op]).
    - [ServerThreads]: the same server one access at a time ([served_step]):
      [queue_for] ([Queueing], [queue_access]), the pushes of [ServerHandle]
      ([Push], [push_access]), the reader of a connection to the end of its
      teardown ([Reader], [reader_access], [receive]), the writer task ([Writer],
      [writer_take], [writer_socket]) and the handler tasks ([Task],
      [task_access]) of any number of connections.  [ServerFlow]: what holds of
      its executions; [ServerDrain]: its handler tasks can always end.
    - [ClientTypes], [ClientRuntime]: client_types.rs and client_runtime.rs.
      [Client] is the mutable state of a [WscallClient]: the tables of calls in
      flight, the outcome delivered to each, the channel of each connection
      generation.  [call_begin] and [call_poll] are [call] before and at its
      wait; [reader_task], [writer_task], [heartbeat_task] one iteration of the
      tasks of a connection; [begin_attempt], [establish_connection] and
      [after_attempt] the supervisor.
    - [ClientSystem]: the client's operations in any order ([step], [trace]).
    - [ClientThreads]: the same client one atomic access at a time
      ([fine_step]): threads inside [call] and [send_event] ([Pc], [advance]),
      responses, [handle_disconnect] ([Disc], [disc_step]), [close] and the
      supervisor ([Sup], [sup_step]) interleave between any two accesses.
    - [ClientConnect]: [connect], its deprecated variants and the whole
      supervisor loop over a script of attempts ([supervise]).
    - [Demo]: examples/demo_server.rs as a server of [ServerRuntime] whose
      application state is the chat history; the requests of
      examples/demo_client.rs; the server of examples/quick_start.rs.
    - [System]: client and server joined through what they write.
    - [Session]: one connection with its client, its server and both directions
      of the socket under any schedule ([joint_step]).
    - [Lifetime]: all the connections of a client with a server: attempts,
      connections established and lost, and the tasks of old and new ones in any
      order ([life_step]), one [Link] of state per connection.

    ** What the theorems show

    - Codec: round trip in every wire mode; [decode] accepts exactly a stated
      grammar and is total; both encode paths equal one specification; frames
      stay within the limit; JSON round trip, typing and well-formedness.  The
      one-byte attachment count wraps at 256.
    - Rate limiter: over any history the frames allowed in one period cost at
      most twice the limit, per connection and per address (with a limit on bytes,
      when no single frame exceeds it); a ban is enforced until it expires; verdicts
      of distinct keys are independent; cleanup cannot be observed.  Access by access the rate of a connection is bounded
      and its ban enforced all the same, while a ban on an address can be lost and
      the first frames of an address are not limited.
    - Server: every request and event is answered, whatever its handler does
      (when the filters and the exception handler do not panic); filters and the
      limiter come before handlers; malformed frames are answered with a rejection
      and have no further effect; authentication gates the session; pushes
      reach the queues they should and no other; a connection that ends writes its
      queue in order up to the first failure.  (Answering means that the handler
      task hands the answer to [queue_for]; with a shared key an answer that does
      not fit into a frame is dropped there.)  In
      every reachable state each client entry belongs to a channel that was
      created and no input makes a reader panic; in-flight handlers and
      connections stay within their caps, and no accepted packet is lost or handled twice.  Access
      by access: queues keep their capacity and permits add up; what a connection's
      queue accepts is written once and in order; a broadcast is never held up, and
      a full or closed queue costs its own connection the message and nobody else;
      handler tasks end and give their permits back, and while the socket accepts
      writes a connection can always handle what it accepted; teardowns keep
      their grace period; the operations of [ServerRuntime] are uninterrupted runs
      of their accesses.  Two ways in which a connection stops working: a peer that
      does not read holds it for ever, and a packet that does not fit into a frame
      ends its writer.
    - Client: in every reachable state the call tables are consistent; an
      outcome is delivered once and no call is lost, across disconnections,
      stale tasks and reconnections; failover order; bounded backoff that starts
      over with each success.  Access by access: a call whose connection is gone
      is never stranded, outcomes are final, every call returns under a fair
      schedule that does not hold up its send, in at most seven steps of its own, a
      teardown ends and wakes the supervisor, and the operations of [ClientRuntime]
      are uninterrupted runs of their accesses.
    - Demo: the chat history is exactly the chat; registration accepts exactly
      valid users.
    - Together: both sides of the key agreement end with the same codec, and a
      call returns to its caller the outcome of running it on the server.  Under
      any schedule and any failure of the sockets a request is executed at most
      once, as its caller made it, and no call gets another's answer, on one
      connection ([Session]) and across reconnections ([Lifetime]).  A
      [Lifetime] starts from two sides configured alike; that each connection has
      a generation of its own ([gens_ok]) and that its ends agree on the codec
      ([established_agree], from the keys that crossed) is proved there.
      [session_sound] and [life_sound] state what the application's handlers must
      keep (the operations of [ServerHandle] and of [WscallClient] but [call] do).

    ** Code that is not part of the repository

    The JSON text printer and parser, X25519, SHA-256 and the two AEAD ciphers
    are parameters: classes ([SerdeJson], [X25519], [Sha256], [Crypto]) with
    classes of laws that state their documented behaviour.  Each class has an
    instance that satisfies its laws ([bit_json], [xor_x25519],
    [prefix_sha256], [tagged_crypto]); the witnesses evaluate with it.  So are
    Unicode tables and the regular-expression engine in [Validation], and what the
    error texts take from elsewhere ([ErrorTexts]: serde_json's messages, [Debug]
    of a JSON value, the tables of [char::escape_debug]; no theorem needs a law of
    it).
    [getrandom], the clock, what a socket delivers and whether a write succeeds
    are arguments of the operations (or a function in the state).  Concurrent
    maps are finite maps, a [tokio::sync::mpsc] channel is the queue of the
    messages sent and not yet received with a flag for the receiver, a
    semaphore is its number of permits, a one-shot channel is an entry of the
    table of outcomes.

    ** Bounds, fuel and atomicity

    Recursion is structural throughout: [read_attachments] recurses on the
    count byte, [try_urls] on the number of URLs, and the loops of the runtimes
    are steps of transition systems, so nothing runs out of fuel.  Counters and
    ids keep their width ([wrap 64]); theorems on the client's ids ask for fewer
    than [2^64] steps.  Instants and durations are unbounded nanosecond counts.
    In all files but [LimiterThreads], [ServerThreads] with [ServerFlow] and
    [ServerDrain], and [ClientThreads] an operation is one atomic step.  In
    [ClientThreads] the steps are single accesses to shared state, except that
    the generation check of [handle_disconnect] and its swap of the connected
    flag are one (a new generation starts only after the backoff), that the keys of
    a table are collected in one step ([DKeys]; a call that must be found is in the
    table before), and that
    reaching a server, key agreement and authentication are one (they touch no
    state the other threads use).  In [ServerThreads] the setup of a connection is
    one step for the same reason, and so is a run of an application handler, which
    acts on the shared state through [ServerHandle] only ([handlers_push]).  Which
    entries the iteration of a broadcast yields belongs to the library of the map
    and is left to the environment; the
    guard that [send_event_to] holds from its lookup to its [try_send] is not
    modelled, so there the entry may also be removed in between; connection ids
    (UUIDs) are not used twice.  [send().await] on a full channel is modelled as
    queueing behind the capacity, since the channel serves waiting senders in
    order; in [ServerThreads], [ServerFlow], [ServerDrain] and [ClientThreads] the sender
    waits.  Lifecycle and event
    handlers run one after the other and return; a handler that blocks for ever is
    not modelled.  In [Lifetime] a connection is established in
    one step, under a connection id that no channel has yet, between the beginning
    of its attempt ([begin_attempt]) and the next; in a key agreement each side
    receives what the other wrote ([keys_exchanged]).  What the server does for an
    attempt that the client sees fail is a step of the rest of the server.

    ** Not modelled

    Logging, accessors that return a field as it is, the WebSocket upgrade and
    tungstenite's own limits, socket binding, timers, the facade crate and the
    integration tests.  Generated
    code ([derive(Deserialize)], [derive(Validate)]) is a parameter.  Open work:
    sessions access by access. *)

From Stdlib Require Export ZArith Lia.
From Stdlib Require Export Strings.Byte.
From Stdlib Require Import Strings.String.
From stdpp Require Export base tactics option list strings gmap fin_maps countable.

#[local] Open Scope Z_scope.
#[global] Set Default Goal Selector "!".

(** ** Results, errors and panics

    A Rust function that returns [Result<A, E>] and that may index, slice or
    [expect] becomes a function into [result E A]: [Ok] and [Err] are the two
    constructors of [Result], [Panic] is an unwinding panic.  The [?] operator
    is the monadic bind. *)
Inductive result (E A : Type) : Type :=
| Ok (a : A)
| Err (e : E)
| Panic.
Arguments Ok {E A} a.
Arguments Err {E A} e.
Arguments Panic {E A}.

#[export] Instance result_ret {E} : MRet (result E) := fun A a => Ok a.
#[export] Instance result_bind {E} : MBind (result E) :=
  fun A B f m => match m with Ok a => f a | Err e => Err e | Panic => Panic end.
#[export] Instance result_fmap {E} : FMap (result E) :=
  fun A B f m => match m with Ok a => Ok (f a) | Err e => Err e | Panic => Panic end.

(** [Result::map_err]. *)
Definition map_err {E F A : Type} (f : E -> F) (m : result E A) : result F A :=
  match m with Ok a => Ok a | Err e => Err (f e) | Panic => Panic end.

(** [Option::ok_or]. *)
Definition ok_or {E A : Type} (e : E) (o : option A) : result E A :=
  match o with Some a => Ok a | None => Err e end.

(** [Option::expect]. *)
Definition expect {E A : Type} (o : option A) : result E A :=
  match o with Some a => Ok a | None => Panic end.

(** [Result::is_ok]; a panic is not a value and is not [Ok]. *)
Definition is_ok {E A : Type} (m : result E A) : bool :=
  match m with Ok _ => true | _ => false end.

(** The computation does not panic, and its errors satisfy [P]. *)
Definition errs_in {E A : Type} (P : E -> Prop) (m : result E A) : Prop :=
  match m with Ok _ => True | Err e => P e | Panic => False end.

(** The computation returns (with a value or an error): it does not panic. *)
Definition returns {E A : Type} (m : result E A) : Prop := errs_in (fun _ => True) m.

(** *** Computations on shared state

    An operation that also reads and writes shared state of type [W] takes the
    state and returns it beside its outcome; the state written before an error
    or a panic is kept. *)
Definition M (W E A : Type) : Type := W -> result E A * W.

#[export] Instance M_ret {W E} : MRet (M W E) := fun A a w => (Ok a, w).
#[export] Instance M_bind {W E} : MBind (M W E) :=
  fun A B f m w =>
    match m w with
    | (Ok a, w) => f a w
    | (Err e, w) => (Err e, w)
    | (Panic, w) => (Panic, w)
    end.

(** An outcome that does not touch the state. *)
Definition lift {W E A : Type} (r : result E A) : M W E A := fun w => (r, w).
Definition get {W E : Type} : M W E W := fun w => (Ok w, w).
Definition modify {W E : Type} (f : W -> W) : M W E unit := fun w => (Ok tt, f w).
Definition m_map_err {W E F A : Type} (f : E -> F) (m : M W E A) : M W F A :=
  fun w => let '(r, w) := m w in (map_err f r, w).

(** [AssertUnwindSafe(fut).catch_unwind().await]: the outcome as a value, a
    panic included. *)
Definition catch_unwind {W E F A : Type} (m : M W E A) : M W F (result E A) :=
  fun w => let '(r, w) := m w in (Ok r, w).

(** [match fut.await { Ok(a) => .., Err(e) => .. }]: the outcome as a value; a
    panic still unwinds. *)
Definition m_try {W E F A : Type} (m : M W E A) : M W F (E + A) :=
  fun w => match m w with
           | (Ok a, w) => (Ok (inr a), w)
           | (Err e, w) => (Ok (inl e), w)
           | (Panic, w) => (Panic, w)
           end.

(** A computation that has no error to return. *)
Definition infallible {W E A : Type} (m : M W Empty_set A) : M W E A :=
  m_map_err (fun e : Empty_set => match e with end) m.

(** [let _ = fut.await]: errors are dropped, panics are not. *)
Definition ignore {W E F A : Type} (m : M W E A) : M W F unit :=
  fun w => let '(r, w) := m w in
           (match r with Panic => Panic | _ => Ok tt end, w).

(** ** Machine integers

    Integers are [Z]; a value of type [uN] is kept in range by [wrap N], which
    is the wrap-around of the release profile and of [as uN] casts. *)
Definition wrap (w z : Z) : Z := z mod 2 ^ w.
Definition in_u (w z : Z) : Prop := 0 <= z < 2 ^ w.

Abbreviation cast_u8 := (wrap 8) (only parsing).
Abbreviation cast_u16 := (wrap 16) (only parsing).
Abbreviation cast_u32 := (wrap 32) (only parsing).
Abbreviation cast_u64 := (wrap 64) (only parsing).

(** [usize::saturating_sub] / [u64::saturating_sub]. *)
Definition saturating_sub (a b : Z) : Z := Z.max 0 (a - b).

(** ** Time: nanosecond counts *)
Definition secs (n : Z) : Z := n * 1000000000.

(** ** Bytes *)
Abbreviation bytes := (list byte).

#[export] Instance byte_eq_dec : EqDecision byte := Byte.byte_eq_dec.

Definition Z_of_byte (b : byte) : Z := Z.of_N (Byte.to_N b).

(** [z as u8]. *)
Definition byte_of_Z (z : Z) : byte :=
  match Byte.of_N (Z.to_N (z mod 2 ^ 8)) with Some b => b | None => x00 end.

Definition blen {A : Type} (l : list A) : Z := Z.of_nat (length l).

(** [u32::to_be_bytes] and [u32::from_be_bytes]. *)
Definition to_be_bytes (n : Z) : bytes :=
  [ byte_of_Z (Z.shiftr n 24); byte_of_Z (Z.shiftr n 16);
    byte_of_Z (Z.shiftr n 8); byte_of_Z n ].

Definition from_be_bytes (a b c d : byte) : Z :=
  Z.shiftl (Z_of_byte a) 24 + Z.shiftl (Z_of_byte b) 16
  + Z.shiftl (Z_of_byte c) 8 + Z_of_byte d.

(** [v[i]]: panics when out of range. *)
Definition index {E A : Type} (l : list A) (i : Z) : result E A :=
  if bool_decide (0 <= i) then expect (l !! Z.to_nat i) else Panic.

(** [v[a..b]] and [Bytes::slice(a..b)]: panic when [a > b] or [b > len]. *)
Definition slice {E A : Type} (l : list A) (a b : Z) : result E (list A) :=
  if bool_decide (0 <= a /\ a <= b /\ b <= blen l)
  then Ok (take (Z.to_nat (b - a)) (drop (Z.to_nat a) l))
  else Panic.

(** [v[a..]] and [Bytes::slice(a..)]. *)
Definition slice_from {E A : Type} (l : list A) (a : Z) : result E (list A) :=
  slice l a (blen l).

(** [v[a..a + src.len()].copy_from_slice(src)]. *)
Definition copy_into {E A : Type} (l : list A) (a : Z) (src : list A) : result E (list A) :=
  if bool_decide (0 <= a /\ a + blen src <= blen l)
  then Ok (take (Z.to_nat a) l ++ src ++ drop (Z.to_nat (a + blen src)) l)
  else Panic.

(** ** Strings: a Rust [String] is the Rocq [string] of its UTF-8 bytes. *)
Definition str_bytes (s : string) : bytes := list_byte_of_string s.
Definition bytes_str (bs : bytes) : string := string_of_list_byte bs.

(** [String::len]: the length in bytes. *)
Definition str_len (s : string) : Z := blen (str_bytes s).

(** ** Automation *)
Create HintDb wscall discriminated.
Create Rewrite HintDb blen.

(** Case split on the scrutinee of the first [match] or [if] found. *)
Ltac break_match :=
  match goal with
  | |- context [match ?x with _ => _ end] => destruct x eqn:?
  end.
Ltac break_match_in H :=
  match type of H with
  | context [match ?x with _ => _ end] => destruct x eqn:?
  end.

(** Compute the monadic operations on a known result. *)
Ltac msimpl :=
  cbn [mbind result_bind mret result_ret fmap result_fmap map_err ok_or expect].

(** Run a stateful computation on a known state. *)
Ltac run_M :=
  cbv beta iota delta [mbind M_bind mret M_ret lift get modify m_map_err catch_unwind ignore m_try infallible
       map_err ok_or expect fst snd].
Tactic Notation "run_M" "in" hyp(H) :=
  cbv beta iota delta [mbind M_bind mret M_ret lift get modify m_map_err catch_unwind ignore m_try infallible
       map_err ok_or expect fst snd] in H.
Tactic Notation "msimpl" "in" hyp(H) :=
  cbn [mbind result_bind mret result_ret fmap result_fmap map_err ok_or expect] in H.

(** Follow the [Ok] branch of a monadic computation in a hypothesis. *)
Ltac inv_ok H :=
  repeat (cbn [mbind result_bind mret result_ret fmap result_fmap] in H;
          first
            [ discriminate H
            | match type of H with
              | context [match ?x with Ok _ => _ | Err _ => _ | Panic => _ end] =>
                  let Hx := fresh "Hx" in destruct x eqn:Hx
              end
            | progress simplify_eq H
            | case_bool_decide_in_hyp H ])
with case_bool_decide_in_hyp H :=
  match type of H with
  | context [bool_decide ?P] =>
      let HP := fresh "HP" in destruct (bool_decide P) eqn:HP;
      [ apply bool_decide_eq_true_1 in HP | apply bool_decide_eq_false_1 in HP ]
  end.

(** Linear arithmetic on lengths: push [blen] to the leaves first. *)
Ltac len_lia := autorewrite with blen in *; lia.

(** ** Lemmas on results *)
Lemma bind_Ok_inv {E A B} (m : result E A) (f : A -> result E B) b :
  m ≫= f = Ok b -> exists a, m = Ok a /\ f a = Ok b.
Proof. destruct m; naive_solver. Qed.

Lemma errs_in_bind {E A B} P (m : result E A) (f : A -> result E B) :
  errs_in P m -> (forall a, m = Ok a -> errs_in P (f a)) -> errs_in P (m ≫= f).
Proof. destruct m; naive_solver. Qed.

Lemma errs_in_returns {E A} P (m : result E A) : errs_in P m -> returns m.
Proof. by destruct m. Qed.

Lemma returns_not_Panic {E A} (m : result E A) : returns m <-> m <> Panic.
Proof. destruct m; unfold returns; naive_solver. Qed.

Lemma errs_in_ok_or {E A} (P : E -> Prop) e (o : option A) : P e -> errs_in P (ok_or e o).
Proof. by destruct o. Qed.

Lemma errs_in_map_err {E F A} (P : F -> Prop) (f : E -> F) (m : result E A) :
  returns m -> (forall e, P (f e)) -> errs_in P (map_err f m).
Proof. destruct m; cbn; naive_solver. Qed.

Lemma errs_in_cases {E A} P (m : result E A) :
  errs_in P m -> (exists a, m = Ok a) \/ (exists e, m = Err e /\ P e).
Proof. destruct m; cbn; naive_solver. Qed.

(** ** Lemmas on machine integers *)
Lemma wrap_small w z : 0 <= z < 2 ^ w -> wrap w z = z.
Proof. apply Z.mod_small. Qed.

Lemma wrap_range w z : 0 <= w -> in_u w (wrap w z).
Proof. intros Hw. apply Z.mod_pos_bound. lia. Qed.

(** ** Lemmas on bytes *)
Lemma Z_of_byte_range b : 0 <= Z_of_byte b < 256.
Proof. unfold Z_of_byte. pose proof (Byte.to_N_bounded b). lia. Qed.

Lemma Z_of_byte_of_Z z : Z_of_byte (byte_of_Z z) = z mod 256.
Proof.
  unfold Z_of_byte, byte_of_Z. change (2 ^ 8) with 256.
  pose proof (Z.mod_pos_bound z 256 ltac:(lia)) as Hr.
  destruct (Byte.of_N (Z.to_N (z mod 256))) as [b|] eqn:Hb.
  - apply Byte.to_of_N in Hb. rewrite Hb. lia.
  - apply Byte.of_N_None_iff in Hb. lia.
Qed.

Lemma byte_of_Z_of_byte b : byte_of_Z (Z_of_byte b) = b.
Proof.
  unfold Z_of_byte, byte_of_Z. change (2 ^ 8) with 256.
  pose proof (Byte.to_N_bounded b).
  rewrite Z.mod_small by lia. rewrite N2Z.id, Byte.of_to_N. done.
Qed.

Lemma Z_of_byte_inj a b : Z_of_byte a = Z_of_byte b -> a = b.
Proof. intros H. by rewrite <- (byte_of_Z_of_byte a), H, byte_of_Z_of_byte. Qed.

Lemma Z_of_byte_small z : 0 <= z < 256 -> Z_of_byte (byte_of_Z z) = z.
Proof. intros H. rewrite Z_of_byte_of_Z. by apply Z.mod_small. Qed.

Lemma byte_of_Z_mod z : byte_of_Z (z mod 256) = byte_of_Z z.
Proof. apply Z_of_byte_inj. rewrite !Z_of_byte_of_Z. by rewrite Z.mod_mod by lia. Qed.

Lemma from_to_be_bytes n a b c d :
  to_be_bytes n = [a; b; c; d] -> from_be_bytes a b c d = n mod 2 ^ 32.
Proof.
  unfold to_be_bytes, from_be_bytes. intros [= <- <- <- <-].
  rewrite !Z_of_byte_of_Z, !Z.shiftl_mul_pow2, !Z.shiftr_div_pow2 by lia.
  change (2 ^ 32) with 4294967296. change (2 ^ 24) with 16777216.
  change (2 ^ 16) with 65536. change (2 ^ 8) with 256.
  Z.to_euclidean_division_equations. lia.
Qed.

Lemma to_from_be_bytes a b c d : to_be_bytes (from_be_bytes a b c d) = [a; b; c; d].
Proof.
  unfold to_be_bytes, from_be_bytes.
  pose proof (Z_of_byte_range a). pose proof (Z_of_byte_range b).
  pose proof (Z_of_byte_range c). pose proof (Z_of_byte_range d).
  rewrite !Z.shiftl_mul_pow2, !Z.shiftr_div_pow2 by lia.
  change (2 ^ 24) with 16777216. change (2 ^ 16) with 65536. change (2 ^ 8) with 256.
  repeat f_equal; apply Z_of_byte_inj; rewrite Z_of_byte_of_Z;
    Z.to_euclidean_division_equations; lia.
Qed.

Lemma from_be_bytes_range a b c d : 0 <= from_be_bytes a b c d < 2 ^ 32.
Proof.
  unfold from_be_bytes.
  pose proof (Z_of_byte_range a). pose proof (Z_of_byte_range b).
  pose proof (Z_of_byte_range c). pose proof (Z_of_byte_range d).
  rewrite !Z.shiftl_mul_pow2 by lia. lia.
Qed.

Lemma length_to_be_bytes n : length (to_be_bytes n) = 4%nat.
Proof. reflexivity. Qed.

(** ** Lemmas on lengths *)
Section blen.
Context {A : Type}.
Implicit Types (l k : list A).

Lemma blen_nil : blen (@nil A) = 0.
Proof. reflexivity. Qed.
Lemma blen_cons x l : blen (x :: l) = 1 + blen l.
Proof. unfold blen. cbn [length]. lia. Qed.
Lemma blen_app l k : blen (l ++ k) = blen l + blen k.
Proof. unfold blen. rewrite length_app. lia. Qed.
Lemma blen_nonneg l : 0 <= blen l.
Proof. unfold blen. lia. Qed.
Lemma blen_replicate n (x : A) : blen (replicate n x) = Z.of_nat n.
Proof. unfold blen. by rewrite length_replicate. Qed.
Lemma blen_take n l : blen (take n l) = Z.min (Z.of_nat n) (blen l).
Proof. unfold blen. rewrite length_take. lia. Qed.
Lemma blen_drop n l : blen (drop n l) = Z.max 0 (blen l - Z.of_nat n).
Proof. unfold blen. rewrite length_drop. lia. Qed.
End blen.

Lemma blen_to_be_bytes n : blen (to_be_bytes n) = 4.
Proof. reflexivity. Qed.

#[export] Hint Rewrite @blen_nil @blen_cons @blen_app @blen_replicate blen_to_be_bytes : blen.
#[export] Hint Resolve blen_nonneg : wscall.

(** ** Lemmas on indexing and slicing *)
Section slices.
Context {E A : Type}.
Implicit Types (l k r : list A).

Lemma index_Ok l i x : 0 <= i -> l !! Z.to_nat i = Some x -> index (E:=E) l i = Ok x.
Proof. intros Hi Hx. unfold index. rewrite bool_decide_true by done. by rewrite Hx. Qed.

Lemma index_some l i : 0 <= i < blen l -> exists x, index (E:=E) l i = Ok x.
Proof.
  unfold blen. intros Hi.
  destruct (lookup_lt_is_Some_2 l (Z.to_nat i)) as [x Hx]; [lia|].
  exists x. apply index_Ok; [lia|done].
Qed.

Lemma errs_in_index P l i : 0 <= i < blen l -> errs_in P (index (E:=E) l i).
Proof.
  intros Hi. by destruct (index_some l i Hi) as [x ->].
Qed.

Lemma index_app_r l k i : blen l <= i -> index (E:=E) (l ++ k) i = index k (i - blen l).
Proof.
  unfold index, blen. intros Hi. rewrite !bool_decide_true by lia.
  rewrite lookup_app_r by lia. do 2 f_equal. lia.
Qed.

Lemma index_cons_0 x l : index (E:=E) (x :: l) 0 = Ok x.
Proof. reflexivity. Qed.

Lemma index_cons_S x l i : 0 < i -> index (E:=E) (x :: l) i = index l (i - 1).
Proof. intros Hi. by rewrite (index_app_r [x] l) by (unfold blen; cbn; lia). Qed.

Lemma slice_Ok_inv l a b r :
  slice (E:=E) l a b = Ok r ->
  0 <= a <= b /\ b <= blen l /\ blen r = b - a
  /\ l = take (Z.to_nat a) l ++ r ++ drop (Z.to_nat b) l.
Proof.
  unfold slice. case_bool_decide as Hb; [|done]. intros [= <-].
  split_and!; [lia..| |].
  - rewrite blen_take, blen_drop. lia.
  - replace (drop (Z.to_nat b) l)
      with (drop (Z.to_nat (b - a)) (drop (Z.to_nat a) l))
      by (rewrite drop_drop; f_equal; lia).
    by rewrite take_drop, take_drop.
Qed.

Lemma errs_in_slice P l a b : 0 <= a <= b -> b <= blen l -> errs_in P (slice (E:=E) l a b).
Proof. intros ??. unfold slice. by rewrite bool_decide_true by lia. Qed.

Lemma errs_in_slice_from P l a : 0 <= a <= blen l -> errs_in P (slice_from (E:=E) l a).
Proof. intros ?. apply errs_in_slice; lia. Qed.

(** The slice between a known prefix and a known suffix. *)
Lemma slice_mid l k r a b :
  a = blen l -> b = blen l + blen k -> slice (E:=E) (l ++ k ++ r) a b = Ok k.
Proof.
  intros -> ->. unfold slice.
  rewrite bool_decide_true
    by (rewrite !blen_app; pose proof (blen_nonneg l); pose proof (blen_nonneg k);
        pose proof (blen_nonneg r); lia).
  unfold blen. rewrite Nat2Z.id, drop_app_length.
  by rewrite take_app_length' by lia.
Qed.

Lemma slice_from_app l k a : a = blen l -> slice_from (E:=E) (l ++ k) a = Ok k.
Proof.
  intros ->. unfold slice_from. rewrite <- (app_nil_r k) at 1.
  apply slice_mid; [done|]. by rewrite !blen_app.
Qed.

Lemma copy_into_mid l k r s a :
  a = blen l -> blen s = blen k -> copy_into (E:=E) (l ++ k ++ r) a s = Ok (l ++ s ++ r).
Proof.
  intros -> Hs. unfold copy_into. rewrite Hs.
  rewrite bool_decide_true
    by (rewrite !blen_app; pose proof (blen_nonneg l); pose proof (blen_nonneg r); lia).
  unfold blen in *. rewrite Nat2Z.id, take_app_length.
  rewrite (app_assoc l k r), drop_app_length' by (rewrite length_app; lia). done.
Qed.
End slices.

#[export] Hint Resolve errs_in_slice errs_in_slice_from errs_in_index : wscall.

(** ** Lemmas on strings *)
Lemma bytes_str_bytes s : bytes_str (str_bytes s) = s.
Proof. apply string_of_list_byte_of_string. Qed.
Lemma str_bytes_str bs : str_bytes (bytes_str bs) = bs.
Proof. apply list_byte_of_string_of_list_byte. Qed.
Lemma str_len_nonneg s : 0 <= str_len s.
Proof. apply blen_nonneg. Qed.

#[export] Hint Resolve str_len_nonneg : wscall.

(** ** Consuming a list through an index *)
Section consuming.
Context {E A : Type}.
Implicit Types (l r : list A).

Lemma index_drop l i x :
  index (E:=E) l i = Ok x -> drop (Z.to_nat i) l = x :: drop (Z.to_nat (i + 1)) l /\ 0 <= i < blen l.
Proof.
  unfold index. case_bool_decide as Hi; [|done].
  destruct (l !! Z.to_nat i) as [y|] eqn:Hy; [|done]. intros [= <-].
  split; [|apply lookup_lt_Some in Hy; unfold blen; lia].
  rewrite (drop_S _ _ _ Hy). do 2 f_equal. lia.
Qed.

Lemma slice_drop l a b r :
  slice (E:=E) l a b = Ok r ->
  drop (Z.to_nat a) l = r ++ drop (Z.to_nat b) l /\ 0 <= a <= b /\ b <= blen l /\ blen r = b - a.
Proof.
  intros Hs. pose proof (slice_Ok_inv _ _ _ _ Hs) as (? & ? & ? & Hl).
  split; [|lia]. rewrite Hl at 1.
  rewrite drop_app_length'; [done|]. rewrite length_take. unfold blen in *. lia.
Qed.

Lemma slice_from_drop l a r :
  slice_from (E:=E) l a = Ok r -> drop (Z.to_nat a) l = r /\ 0 <= a <= blen l.
Proof.
  intros (Hd & ? & ? & ?)%slice_drop. split; [|lia].
  rewrite Hd. rewrite drop_ge by (unfold blen; lia). apply app_nil_r.
Qed.
End consuming.

(** ** Computations that keep an invariant of their state *)
Definition preserves {W E A : Type} (P : W -> Prop) (m : M W E A) : Prop :=
  forall w, P w -> P (m w).2.

Section preserves.
Context {W : Type} (P : W -> Prop).

Lemma preserves_ret {E A} (a : A) : preserves P (mret (M:=M W E) a).
Proof. intros w Hw. exact Hw. Qed.
Lemma preserves_lift {E A} (r : result E A) : preserves P (lift r).
Proof. intros w Hw. exact Hw. Qed.
Lemma preserves_get {E} : preserves P (get (E:=E)).
Proof. intros w Hw. exact Hw. Qed.
Lemma preserves_modify {E} (f : W -> W) : (forall w, P w -> P (f w)) -> preserves P (modify (E:=E) f).
Proof. intros Hf w. apply Hf. Qed.
Lemma preserves_bind {E A B} (m : M W E A) (f : A -> M W E B) :
  preserves P m -> (forall a, preserves P (f a)) -> preserves P (m ≫= f).
Proof.
  intros Hm Hf w Hw. specialize (Hm w Hw). unfold mbind, M_bind.
  destruct (m w) as [[a|e|] w']; [by apply Hf|done|done].
Qed.
(** The continuation may rely on where its argument comes from. *)
Lemma preserves_bind_with {E A B} (m : M W E A) (f : A -> M W E B) :
  preserves P m -> (forall a, (exists w, P w /\ (m w).1 = Ok a) -> preserves P (f a)) -> preserves P (m ≫= f).
Proof.
  intros Hm Hf w Hw. pose proof (Hm w Hw) as Hw1. unfold mbind, M_bind.
  destruct (m w) as [[a|e|] w'] eqn:E1; [|done|done]. apply Hf; [|done]. exists w. by rewrite E1.
Qed.
Lemma M_bind_ok {E A B} (m : M W E A) (f : A -> M W E B) w w' b :
  (m ≫= f) w = (Ok b, w') -> exists a w1, m w = (Ok a, w1) /\ f a w1 = (Ok b, w').
Proof. unfold mbind, M_bind. destruct (m w) as [[a|e|] w1]; [eauto|done|done]. Qed.
Lemma preserves_map_err {E F A} (f : E -> F) (m : M W E A) :
  preserves P m -> preserves P (m_map_err f m).
Proof. intros Hm w Hw. specialize (Hm w Hw). unfold m_map_err. by destruct (m w). Qed.
Lemma preserves_infallible {E A} (m : M W Empty_set A) :
  preserves P m -> preserves P (infallible (E:=E) m).
Proof. apply preserves_map_err. Qed.
Lemma preserves_try {E F A} (m : M W E A) : preserves P m -> preserves P (m_try (F:=F) m).
Proof. intros Hm w Hw. specialize (Hm w Hw). unfold m_try. by destruct (m w) as [[]]. Qed.
Lemma preserves_ignore {E F A} (m : M W E A) : preserves P m -> preserves P (ignore (F:=F) m).
Proof. intros Hm w Hw. specialize (Hm w Hw). unfold ignore. by destruct (m w). Qed.
Lemma preserves_catch {E F A} (m : M W E A) : preserves P m -> preserves P (catch_unwind (F:=F) m).
Proof. intros Hm w Hw. specialize (Hm w Hw). unfold catch_unwind. by destruct (m w). Qed.
End preserves.

Create HintDb preserves.
#[export] Hint Resolve preserves_ret preserves_lift preserves_get preserves_map_err
  preserves_infallible preserves_try preserves_ignore preserves_catch : preserves.

(** Walks through a computation; what is left are its primitive effects. *)
Ltac preserve :=
  repeat first
    [ solve [auto with preserves]
    | apply preserves_bind; [|intros ?]
    | case_match ].
