(* ===== verification/Utf8.v ===== *)
(** * UTF-8 as Rust's standard library treats it

    [String::from_utf8_lossy] is what [FileAttachment::read_wire] applies to the
    id, name and content-type bytes of an attachment section, and [str::chars]
    is what the validators of [validation.rs] iterate.  The scanner below
    follows the standard library's lossy decoder: a maximal ill-formed prefix
    becomes one U+FFFD.  A Rust [String] is always well-formed UTF-8; that type
    invariant is [str_wf]. *)

From stdpp Require Import pretty.
From S2P Require Import Prelude.
#[local] Open Scope Z_scope.

(** ** Definitions *)

(** One decoding step yields a scalar value's bytes or an ill-formed sequence. *)
Inductive token : Type :=
| Chr (c : bytes)
| Bad (c : bytes).

Definition token_bytes (t : token) : bytes :=
  match t with Chr c => c | Bad c => c end.

Definition is_chr (t : token) : bool :=
  match t with Chr _ => true | Bad _ => false end.

Definition in_range (lo hi : Z) (b : byte) : bool :=
  (lo <=? Z_of_byte b) && (Z_of_byte b <=? hi).

(** [b & 0xC0 == 0x80]. *)
Definition is_cont (b : byte) : bool := in_range 128 191 b.

(** Width announced by a leading byte that is not ASCII; 0 when it cannot lead. *)
Definition char_width (b : byte) : Z :=
  if in_range 194 223 b then 2
  else if in_range 224 239 b then 3
  else if in_range 240 244 b then 4
  else 0.

(** The second bytes admitted after a three-byte and a four-byte leader: no
    overlong encodings, no surrogates, nothing above U+10FFFF. *)
Definition second_of_3 (b0 b1 : byte) : bool :=
  if Z_of_byte b0 =? 224 then in_range 160 191 b1
  else if Z_of_byte b0 =? 237 then in_range 128 159 b1
  else in_range 128 191 b1.

Definition second_of_4 (b0 b1 : byte) : bool :=
  if Z_of_byte b0 =? 240 then in_range 144 191 b1
  else if Z_of_byte b0 =? 244 then in_range 128 143 b1
  else in_range 128 191 b1.

Definition scan (b0 : byte) (rest : bytes) : token :=
  if Z_of_byte b0 <? 128 then Chr [b0]
  else if char_width b0 =? 2 then
    match rest with
    | b1 :: _ => if is_cont b1 then Chr [b0; b1] else Bad [b0]
    | [] => Bad [b0]
    end
  else if char_width b0 =? 3 then
    match rest with
    | b1 :: r1 =>
        if second_of_3 b0 b1 then
          match r1 with
          | b2 :: _ => if is_cont b2 then Chr [b0; b1; b2] else Bad [b0; b1]
          | [] => Bad [b0; b1]
          end
        else Bad [b0]
    | [] => Bad [b0]
    end
  else if char_width b0 =? 4 then
    match rest with
    | b1 :: r1 =>
        if second_of_4 b0 b1 then
          match r1 with
          | b2 :: r2 =>
              if is_cont b2 then
                match r2 with
                | b3 :: _ => if is_cont b3 then Chr [b0; b1; b2; b3] else Bad [b0; b1; b2]
                | [] => Bad [b0; b1; b2]
                end
              else Bad [b0; b1]
          | [] => Bad [b0; b1]
          end
        else Bad [b0]
    | [] => Bad [b0]
    end
  else Bad [b0].

Fixpoint tokens_fuel (n : nat) (bs : bytes) : list token :=
  match n, bs with
  | S n, b0 :: rest =>
      let t := scan b0 rest in
      t :: tokens_fuel n (drop (length (token_bytes t)) bs)
  | _, _ => []
  end.

(** Every step consumes a byte, so the length is enough fuel ([tokens_cons]). *)
Definition tokens (bs : bytes) : list token := tokens_fuel (length bs) bs.

(** [str::from_utf8(bs).is_ok()]. *)
Definition utf8_valid (bs : bytes) : bool := forallb is_chr (tokens bs).

(** U+FFFD in UTF-8. *)
Definition replacement : bytes := [xef; xbf; xbd].

Definition lossy_token (t : token) : bytes :=
  match t with Chr c => c | Bad _ => replacement end.

Definition lossy_bytes (bs : bytes) : bytes := concat (map lossy_token (tokens bs)).

(** [String::from_utf8_lossy(bs).into_owned()]. *)
Definition from_utf8_lossy (bs : bytes) : string := bytes_str (lossy_bytes bs).

(** The invariant of the Rust type [String]. *)
Definition str_wf (s : string) : Prop := utf8_valid (str_bytes s) = true.

(** The scalar value of a well-formed sequence, and [str::chars]. *)
Definition scalar (c : bytes) : Z :=
  match c with
  | [b0] => Z_of_byte b0
  | [b0; b1] =>
      Z.lor (Z.shiftl (Z.land (Z_of_byte b0) 31) 6) (Z.land (Z_of_byte b1) 63)
  | [b0; b1; b2] =>
      Z.lor (Z.shiftl (Z.land (Z_of_byte b0) 15) 12)
        (Z.lor (Z.shiftl (Z.land (Z_of_byte b1) 63) 6) (Z.land (Z_of_byte b2) 63))
  | [b0; b1; b2; b3] =>
      Z.lor (Z.shiftl (Z.land (Z_of_byte b0) 7) 18)
        (Z.lor (Z.shiftl (Z.land (Z_of_byte b1) 63) 12)
           (Z.lor (Z.shiftl (Z.land (Z_of_byte b2) 63) 6) (Z.land (Z_of_byte b3) 63)))
  | _ => 65533
  end.

Definition chars (s : string) : list Z :=
  map (fun t => scalar (token_bytes t)) (tokens (str_bytes s)).

(** ** Lemmas *)

(** What a scan returns is a non-empty prefix of its input. *)
Lemma scan_prefix b0 rest :
  exists c k, token_bytes (scan b0 rest) = b0 :: c /\ rest = c ++ k.
Proof.
  unfold scan.
  destruct rest as [|b1 [|b2 [|b3 r]]];
    repeat match goal with |- context [if ?b then _ else _] => destruct b end;
    cbn [token_bytes];
    first [ exists []; eexists; split; reflexivity
          | exists [b1]; eexists; split; reflexivity
          | exists [b1; b2]; eexists; split; reflexivity
          | exists [b1; b2; b3]; eexists; split; reflexivity ].
Qed.

(** A well-formed sequence is recognised whatever follows it. *)
Lemma scan_Chr_stable b0 rest c :
  scan b0 rest = Chr (b0 :: c) -> forall k, scan b0 (c ++ k) = Chr (b0 :: c).
Proof.
  unfold scan. intros H k.
  repeat match type of H with
         | (if ?b then _ else _) = _ => destruct b eqn:?
         | match ?l with [] => _ | _ :: _ => _ end = _ => destruct l
         end; simplify_eq; cbn [app]; by repeat match goal with
         | Hb : ?b = true |- context [if ?b then _ else _] => rewrite Hb
         end.
Qed.

Lemma tokens_fuel_irrel bs : forall n m,
  (length bs <= n)%nat -> (length bs <= m)%nat -> tokens_fuel n bs = tokens_fuel m bs.
Proof.
  induction bs as [[|b0 rest] IH] using (induction_ltof1 _ (@length byte)); intros n m Hn Hm.
  { by destruct n, m. }
  destruct n as [|n], m as [|m]; cbn [length] in *; [lia..|].
  cbn [tokens_fuel]. f_equal.
  destruct (scan_prefix b0 rest) as (c & k & -> & ->).
  cbn [length drop]. rewrite drop_app_length.
  rewrite length_app in *. apply IH; unfold ltof; cbn [length]; rewrite ?length_app; lia.
Qed.

(** The defining equation of the token stream. *)
Lemma tokens_cons b0 rest :
  tokens (b0 :: rest) =
  scan b0 rest :: tokens (drop (length (token_bytes (scan b0 rest))) (b0 :: rest)).
Proof.
  unfold tokens at 1. cbn [length tokens_fuel]. f_equal.
  destruct (scan_prefix b0 rest) as (c & k & -> & ->).
  cbn [length drop]. rewrite drop_app_length, length_app.
  apply tokens_fuel_irrel; lia.
Qed.

Lemma tokens_Chr b0 c k :
  scan b0 (c ++ k) = Chr (b0 :: c) -> tokens ((b0 :: c) ++ k) = Chr (b0 :: c) :: tokens k.
Proof.
  intros Hs. cbn [app]. rewrite tokens_cons, Hs. cbn [token_bytes length drop].
  by rewrite drop_app_length.
Qed.

Lemma scan_replacement k : scan xef ([xbf; xbd] ++ k) = Chr replacement.
Proof. reflexivity. Qed.

(** Induction along the token stream. *)
Lemma tokens_ind (P : bytes -> Prop) :
  P [] ->
  (forall b0 c k, (exists t, scan b0 (c ++ k) = t /\ token_bytes t = b0 :: c) ->
     P k -> P (b0 :: c ++ k)) ->
  forall bs, P bs.
Proof.
  intros Hnil Hstep bs.
  induction bs as [[|b0 rest] IH] using (induction_ltof1 _ (@length byte)); [done|].
  destruct (scan_prefix b0 rest) as (c & k & Hc & ->).
  apply Hstep; [by eauto|]. apply IH. unfold ltof. cbn [length]. rewrite length_app. lia.
Qed.

Lemma tokens_step b0 c k t :
  scan b0 (c ++ k) = t -> token_bytes t = b0 :: c -> tokens (b0 :: c ++ k) = t :: tokens k.
Proof.
  intros Ht Hb. rewrite tokens_cons, Ht, Hb. cbn [length drop]. by rewrite drop_app_length.
Qed.

(** The tokens partition the input. *)
Lemma concat_tokens bs : concat (map token_bytes (tokens bs)) = bs.
Proof.
  induction bs as [|b0 c k (t & Ht & Hb) IH] using tokens_ind; [done|].
  rewrite (tokens_step _ _ _ _ Ht Hb). cbn [map concat]. by rewrite Hb, IH.
Qed.

(** Lossy decoding is the identity on well-formed input. *)
Lemma lossy_bytes_valid bs : utf8_valid bs = true -> lossy_bytes bs = bs.
Proof.
  unfold utf8_valid, lossy_bytes. intros Hv. rewrite <- (concat_tokens bs) at 2.
  f_equal. apply map_ext_in. intros t Ht.
  rewrite forallb_forall in Hv. specialize (Hv t Ht). by destruct t.
Qed.

(** Lossy decoding always produces well-formed UTF-8. *)
Lemma utf8_valid_lossy bs : utf8_valid (lossy_bytes bs) = true.
Proof.
  unfold lossy_bytes.
  induction bs as [|b0 c k (t & Ht & Hb) IH] using tokens_ind; [done|].
  rewrite (tokens_step _ _ _ _ Ht Hb). cbn [map concat]. unfold utf8_valid in *.
  destruct t as [c'|c']; cbn [token_bytes lossy_token] in *; subst.
  - rewrite tokens_Chr by (by apply (scan_Chr_stable _ (c ++ k))). done.
  - rewrite (tokens_Chr xef [xbf; xbd]) by apply scan_replacement. done.
Qed.

Lemma from_utf8_lossy_str s : str_wf s -> from_utf8_lossy (str_bytes s) = s.
Proof.
  intros Hs. unfold from_utf8_lossy. rewrite lossy_bytes_valid by done. apply bytes_str_bytes.
Qed.

Lemma from_utf8_lossy_wf bs : str_wf (from_utf8_lossy bs).
Proof. unfold str_wf, from_utf8_lossy. rewrite str_bytes_str. apply utf8_valid_lossy. Qed.

(** ASCII text is well formed. *)
Definition ascii_str (s : string) : Prop := Forall (fun b => Z_of_byte b < 128) (str_bytes s).

Lemma ascii_valid bs : Forall (fun b => Z_of_byte b < 128) bs -> utf8_valid bs = true.
Proof.
  unfold utf8_valid. induction 1 as [|b bs Hb _ IH]; [done|].
  change (b :: bs) with (b :: [] ++ bs). rewrite (tokens_step b [] bs (Chr [b])); [done| |done].
  unfold scan. by rewrite (proj2 (Z.ltb_lt _ _) Hb).
Qed.
Lemma ascii_app s1 s2 : ascii_str s1 -> ascii_str s2 -> ascii_str (s1 +:+ s2).
Proof.
  unfold ascii_str, str_bytes. intros H1 H2. induction s1 as [|a s1 IH]; [done|].
  cbn in *. inversion_clear H1. constructor; auto.
Qed.
Lemma ascii_pretty_go n : forall s, ascii_str s -> ascii_str (pretty_N_go n s).
Proof.
  induction (N.lt_wf_0 n) as [n _ IH]; intros s Hs. destruct (decide (0 < n)%N) as [Hn|Hn].
  - rewrite pretty_N_go_step by done. apply IH; [by apply N.div_lt|].
    constructor; [|exact Hs]. unfold pretty_N_char. by repeat case_match.
  - by assert (n = 0%N) as -> by lia.
Qed.
Lemma ascii_pretty (z : Z) : ascii_str (pretty z).
Proof.
  assert (HN : forall n : N, ascii_str (pretty n)).
  { intros n. unfold pretty, pretty_N. case_decide; [by repeat constructor|]. apply ascii_pretty_go. constructor. }
  destruct z as [|p|p]; [by repeat constructor|apply HN|]. apply ascii_app; [by repeat constructor|apply HN].
Qed.

#[export] Hint Resolve from_utf8_lossy_wf : wscall.
