(* ===== verification/Json.v ===== *)
(** * JSON values and the [serde_json] interface

    [serde_json] is not part of the repository.  Its [Value] tree and its
    documented accessors are the data the protocol crate computes with, so they
    are modelled as data here; its text printer and parser are parameters, the
    class [SerdeJson], with the documented round trip as the law
    [SerdeJsonLaws].  [serde_json::Map] is a [BTreeMap] (the [preserve_order]
    feature is off), hence a finite map. *)

From S2P Require Import Prelude Utf8.
#[local] Open Scope Z_scope.

(** ** Values *)

(** [serde_json::Number]: an unsigned, a negative, or a floating-point number
    (kept as its 64 bits). *)
Inductive Number : Type :=
| PosInt (n : Z)
| NegInt (z : Z)
| Float (bits : Z).

Inductive Value : Type :=
| Null
| Bool (b : bool)
| Num (n : Number)
| Str (s : string)
| Array (vs : list Value)
| Object (m : gmap string Value).

#[global] Instance Value_inhabited : Inhabited Value := populate Null.

(** [json!({})]. *)
Definition empty_object : Value := Object ∅.

(** [Value::as_u64], [as_bool], [as_object]. *)
Definition as_u64 (v : Value) : option Z :=
  match v with Num (PosInt n) => Some n | _ => None end.
Definition as_bool (v : Value) : option bool :=
  match v with Bool b => Some b | _ => None end.
Definition as_object (v : Value) : option (gmap string Value) :=
  match v with Object m => Some m | _ => None end.

(** Nesting depth: a scalar has depth 0. *)
Fixpoint depth (v : Value) : nat :=
  match v with
  | Array vs => S (foldr (fun x d => depth x `max` d)%nat 0%nat vs)
  | Object m => S (map_fold (fun _ x d => depth x `max` d)%nat 0%nat m)
  | _ => 0
  end.

(** Values whose text the parser reads back exactly: numbers in the range of
    their Rust type, strings well formed, no floating-point leaf (the
    [float_roundtrip] feature is off). *)
Fixpoint json_exact (v : Value) : bool :=
  match v with
  | Null | Bool _ => true
  | Num (PosInt n) => (0 <=? n) && (n <? 2 ^ 64)
  | Num (NegInt z) => (- 2 ^ 63 <=? z) && (z <? 0)
  | Num (Float _) => false
  | Str s => utf8_valid (str_bytes s)
  | Array vs => forallb json_exact vs
  | Object m => map_fold (fun k x r => utf8_valid (str_bytes k) && json_exact x && r) true m
  end.

(** ** What a [Serialize] implementation hands to its serializer

    A nest of [serialize_map(Some(len))] calls, each with an ordered sequence of
    [serialize_entry] calls, and with values at the leaves. *)
Inductive Ser : Type :=
| SerVal (v : Value)
| SerMap (len : Z) (entries : list (string * Ser)).

Definition entries_value (f : Ser -> Value) : list (string * Ser) -> gmap string Value :=
  fix go es := match es with [] => ∅ | (k, s) :: es => <[k := f s]> (go es) end.

(** The value tree the emitted text denotes. *)
Fixpoint ser_value (s : Ser) : Value :=
  match s with
  | SerVal v => v
  | SerMap _ es => Object (entries_value ser_value es)
  end.

(** No map of the nest repeats a key, and the announced lengths are right. *)
Fixpoint ser_distinct (s : Ser) : bool :=
  match s with
  | SerVal _ => true
  | SerMap len es =>
      (len =? blen es) && bool_decide (NoDup (map fst es))
      && forallb (fun e => ser_distinct (snd e)) es
  end.

(** [serde_json]'s parser refuses documents nested deeper than this. *)
Definition json_max_depth : nat := 127.

Definition ser_exact (s : Ser) : bool :=
  ser_distinct s && json_exact (ser_value s) && (depth (ser_value s) <=? json_max_depth)%nat.

(** ** The interface *)

(** The error classes of [serde::de::Error] and the parser's own errors. *)
Inductive JsonError : Type :=
| Syntax (msg : string)
| Custom (msg : string)
| MissingField (field : string)
| UnknownField (field : string)
| InvalidLength (len : Z)
| InvalidType
| InvalidValue.

Class SerdeJson : Type := {
  (** [serde_json::to_writer(&mut buf, x)]: the bytes appended to the buffer. *)
  to_writer : Ser -> result JsonError bytes;
  (** [serde_json::from_slice::<Value>(bytes)]. *)
  from_slice : bytes -> result JsonError Value;
}.

Class SerdeJsonLaws (J : SerdeJson) : Prop := {
  (** Text printed from a representable document parses back to it. *)
  from_slice_to_writer s :
    ser_exact s = true ->
    exists bs, to_writer s = Ok bs /\ from_slice bs = Ok (ser_value s);
  (** Neither entry point panics. *)
  returns_to_writer s : returns (to_writer s);
  returns_from_slice bs : returns (from_slice bs);
}.

(** ** Induction on values *)
Lemma depth_Array_elem vs v : v ∈ vs -> (depth v < depth (Array vs))%nat.
Proof. intros Hv. induction Hv; cbn in *; lia. Qed.

Lemma depth_Object_lookup m k v : m !! k = Some v -> (depth v < depth (Object m))%nat.
Proof.
  cbn [depth]. rewrite map_fold_foldr, <- elem_of_map_to_list.
  induction (map_to_list m) as [|[k' x] l IH]; cbn [foldr uncurry].
  { by intros ?%not_elem_of_nil. }
  intros [|Hv]%elem_of_cons; [simplify_eq; lia|]. specialize (IH Hv). lia.
Qed.

Lemma Value_ind' (P : Value -> Prop) :
  P Null -> (forall b, P (Bool b)) -> (forall n, P (Num n)) -> (forall s, P (Str s)) ->
  (forall vs, Forall P vs -> P (Array vs)) ->
  (forall m, map_Forall (fun _ => P) m -> P (Object m)) ->
  forall v, P v.
Proof.
  intros HN HB HM HS HA HO v.
  induction v as [v IH] using (induction_ltof1 _ depth). unfold ltof in IH.
  destruct v; [done..| |].
  - apply HA, Forall_forall. intros x Hx. apply IH. by apply depth_Array_elem, list_elem_of_In.
  - apply HO. intros k x Hx. apply IH. by eapply depth_Object_lookup.
Qed.

(** ** Values are countable: equality is decidable, and a byte code exists *)
Definition leaf : Type := bool + Number + string.

#[global] Instance Number_eq_dec : EqDecision Number.
Proof. solve_decision. Defined.

#[global] Instance Number_countable : Countable Number.
Proof.
  apply (inj_countable'
    (fun n => match n with PosInt z => inl (inl z) | NegInt z => inl (inr z) | Float z => inr z end)
    (fun x => match x with
              | inl (inl z) => PosInt z | inl (inr z) => NegInt z | inr z => Float z
              end)).
  by intros [].
Defined.

Fixpoint to_tree (v : Value) : gen_tree leaf :=
  match v with
  | Null => GenNode 0 []
  | Bool b => GenLeaf (inl (inl b))
  | Num n => GenLeaf (inl (inr n))
  | Str s => GenLeaf (inr s)
  | Array vs => GenNode 1 (map to_tree vs)
  | Object m => GenNode 2 (map_fold (fun k x r => GenLeaf (inr k) :: to_tree x :: r) [] m)
  end.

Fixpoint of_tree (t : gen_tree leaf) : Value :=
  match t with
  | GenLeaf (inl (inl b)) => Bool b
  | GenLeaf (inl (inr n)) => Num n
  | GenLeaf (inr s) => Str s
  | GenNode 1 ts => Array (map of_tree ts)
  | GenNode 2 ts =>
      Object ((fix go ts := match ts with
                            | GenLeaf (inr k) :: t :: ts => <[k := of_tree t]> (go ts)
                            | _ => ∅
                            end) ts)
  | GenNode _ _ => Null
  end.

Lemma of_to_tree v : of_tree (to_tree v) = v.
Proof.
  induction v as [| | | |vs IH|m IH] using Value_ind'; cbn [to_tree of_tree]; [done..| |].
  - f_equal. induction IH; cbn; congruence.
  - f_equal. induction m as [|k x m Hk Hfirst IHm] using map_first_key_ind; [done|].
    rewrite map_fold_insert_first_key by done.
    apply map_Forall_insert in IH as [Hx Hm]; [|done]. by rewrite Hx, IHm.
Qed.

#[global] Instance Value_eq_dec : EqDecision Value.
Proof.
  intros v w. destruct (decide (to_tree v = to_tree w)) as [H|H].
  - left. by rewrite <- (of_to_tree v), H, of_to_tree.
  - right. congruence.
Defined.

#[global] Instance Value_countable : Countable Value :=
  inj_countable' to_tree of_tree of_to_tree.

(** ** An instance of the interface

    A concrete printer and parser pair, so that every theorem stated against
    the interface has an instance: the bits of the countability code, one per
    byte. *)
Fixpoint bits_of_pos (p : positive) : bytes :=
  match p with
  | xH => []
  | xO p => x30 :: bits_of_pos p
  | xI p => x31 :: bits_of_pos p
  end.

Fixpoint pos_of_bits (bs : bytes) : positive :=
  match bs with
  | [] => xH
  | x31 :: bs => xI (pos_of_bits bs)
  | _ :: bs => xO (pos_of_bits bs)
  end.

Lemma pos_of_bits_of_pos p : pos_of_bits (bits_of_pos p) = p.
Proof. induction p; cbn; congruence. Qed.

Definition bit_json : SerdeJson := {|
  to_writer := fun s => Ok (bits_of_pos (encode (ser_value s)));
  from_slice := fun bs => ok_or (Syntax "expected value") (decode (pos_of_bits bs));
|}.

Lemma bit_json_laws : SerdeJsonLaws bit_json.
Proof.
  split; cbn.
  - intros s _. eexists. split; [done|]. by rewrite pos_of_bits_of_pos, decode_encode.
  - done.
  - intros bs. by apply errs_in_ok_or.
Qed.

(** ** Exactness lemmas *)
Lemma json_exact_Object m :
  json_exact (Object m) = true <->
  map_Forall (fun k x => utf8_valid (str_bytes k) = true /\ json_exact x = true) m.
Proof.
  cbn [json_exact]. induction m as [|k x m Hk Hfirst IH] using map_first_key_ind.
  { split; [|done]. intros _. apply map_Forall_empty. }
  rewrite map_fold_insert_first_key by done.
  rewrite !andb_true_iff, IH, map_Forall_insert by done. tauto.
Qed.

Lemma json_exact_insert k x m :
  json_exact (Object m) = true -> utf8_valid (str_bytes k) = true -> json_exact x = true ->
  json_exact (Object (<[k := x]> m)) = true.
Proof. rewrite !json_exact_Object. intros. by apply map_Forall_insert_2. Qed.
