(* ===== verification/Protocol.v ===== *)
(** * Protocol types (crates/wscall-protocol/src/lib.rs)

    The message envelope: message and encryption kinds, attachments, error
    payloads, packet bodies and the error type; and the X25519 key agreement.
    X25519 and SHA-256 are third-party code: the classes [X25519] and [Sha256]. *)

From S2P Require Import Prelude Utf8 Json.
#[local] Open Scope Z_scope.

(** ** Constants *)
Definition ECDH_DOMAIN_TAG : bytes := str_bytes "wscall-ecdh-v1".
Definition ECDH_KEY_LEN : Z := 32.
Definition AES256_NONCE_LEN : Z := 12.
Definition CHACHA20_NONCE_LEN : Z := 12.
Definition DEFAULT_MAX_FRAME_BYTES : Z := 100 * 1024 * 1024.

(** ** Errors *)
Inductive ProtocolError : Type :=
| FrameTooShort
| FrameLengthMismatch (declared actual : Z)
| PayloadTooLarge (actual max : Z)
| FrameTooLarge (actual max : Z)
| UnknownMessageType (value : byte)
| UnknownEncryption (value : byte)
| UnsupportedEncryption (value : byte)
| MissingEncryptionKey (algorithm : string)
| InvalidEncryptionKey (algorithm : string)
| Random (source : string)
| EncryptedPayloadTooShort (algorithm : string) (expected_min actual : Z)
| EncryptionFailed (algorithm : string)
| DecryptionFailed (algorithm : string)
| InvalidEcdhPublicKey (expected actual : Z)
| EcdhHandshake (reason : string)
| MessageTypeMismatch
| InvalidAttachmentEncoding (reason : string)
| Json (source : JsonError).

(** ** Kinds *)
Inductive MessageType : Type := Api | Event | Auth.
Inductive EncryptionKind : Type := NoEncryption | ChaCha20 | Aes256.

#[global] Instance MessageType_eq_dec : EqDecision MessageType.
Proof. solve_decision. Defined.
#[global] Instance EncryptionKind_eq_dec : EqDecision EncryptionKind.
Proof. solve_decision. Defined.

(** [message_type as u8]. *)
Definition message_type_u8 (t : MessageType) : byte :=
  match t with Api => x00 | Event => x01 | Auth => x02 end.

(** [MessageType::try_from]. *)
Definition message_type_try_from (value : byte) : result ProtocolError MessageType :=
  match value with
  | x00 => Ok Api
  | x01 => Ok Event
  | x02 => Ok Auth
  | _ => Err (UnknownMessageType value)
  end.

Definition encryption_kind_u8 (k : EncryptionKind) : byte :=
  match k with NoEncryption => x00 | ChaCha20 => x01 | Aes256 => x02 end.

(** [EncryptionKind::try_from]. *)
Definition encryption_kind_try_from (value : byte) : result ProtocolError EncryptionKind :=
  match value with
  | x00 => Ok NoEncryption
  | x01 => Ok ChaCha20
  | x02 => Ok Aes256
  | _ => Err (UnknownEncryption value)
  end.

(** ** Attachments *)
Record FileAttachment : Type := mkFileAttachment {
  att_id : string;
  att_name : string;
  att_content_type : string;
  att_data : bytes;
}.

(** [FileAttachment::inline_bytes] and [inline_text]. *)
Definition inline_bytes (id name content_type : string) (data : bytes) : FileAttachment :=
  {| att_id := id; att_name := name; att_content_type := content_type; att_data := data |}.

Definition inline_text (id name content_type text : string) : FileAttachment :=
  inline_bytes id name content_type (str_bytes text).

(** [FileAttachment::size]. *)
Definition att_size (a : FileAttachment) : Z := blen (att_data a).

(** [FileAttachment::param_ref]: [{ "$file": id }]. *)
Definition param_ref (id : string) : Value := Object {["$file" := Str id]}.

(** ** Packets *)
Record ErrorPayload : Type := mkErrorPayload {
  err_code : string;
  err_message : string;
  err_status : Z;
  err_details : option Value;
}.

Inductive PacketBody : Type :=
| ApiRequest (request_id : Z) (route : string) (params : Value)
    (attachments : list FileAttachment) (metadata : Value)
| ApiResponse (request_id : Z) (ok : bool) (status : Z) (data : Value)
    (error : option ErrorPayload) (metadata : Value)
| EventEmit (event_id : Z) (name : string) (data : gmap string Value)
    (attachments : list FileAttachment) (metadata : Value) (expect_ack : bool)
| EventAck (event_id : Z) (ok : bool) (receipt : Value) (error : option ErrorPayload)
| AuthRequest (credential : string)
| AuthResponse (ok : bool) (session_timeout_secs : option Z) (error : option ErrorPayload).

(** [PacketBody::message_type]. *)
Definition message_type (b : PacketBody) : MessageType :=
  match b with
  | ApiRequest _ _ _ _ _ | ApiResponse _ _ _ _ _ _ => Api
  | EventEmit _ _ _ _ _ _ | EventAck _ _ _ _ => Event
  | AuthRequest _ | AuthResponse _ _ _ => Auth
  end.

(** [PacketBody::attachments]. *)
Definition attachments (b : PacketBody) : list FileAttachment :=
  match b with
  | ApiRequest _ _ _ a _ => a
  | EventEmit _ _ _ a _ _ => a
  | _ => []
  end.

(** [PacketBody::set_attachments]. *)
Definition set_attachments (a : list FileAttachment) (b : PacketBody) : PacketBody :=
  match b with
  | ApiRequest i r p _ m => ApiRequest i r p a m
  | EventEmit i n d _ m e => EventEmit i n d a m e
  | b => b
  end.

Record PacketEnvelope : Type := mkPacketEnvelope {
  env_message_type : MessageType;
  env_encryption : EncryptionKind;
  env_body : PacketBody;
}.

(** [PacketEnvelope::new]. *)
Definition envelope_new (body : PacketBody) : PacketEnvelope :=
  {| env_message_type := message_type body; env_encryption := NoEncryption; env_body := body |}.

(** [PacketEnvelope::with_encryption]. *)
Definition with_encryption (body : PacketBody) (encryption : EncryptionKind) : PacketEnvelope :=
  {| env_message_type := message_type body; env_encryption := encryption; env_body := body |}.

(** ** Key agreement *)

(** [x25519_dalek]: [StaticSecret], [PublicKey] and Diffie-Hellman. *)
Class X25519 : Type := {
  Secret : Type;
  Public : Type;
  secret_from : bytes -> Secret;
  public_of : Secret -> Public;
  public_from_bytes : bytes -> Public;
  public_to_bytes : Public -> bytes;
  diffie_hellman : Secret -> Public -> bytes;
}.

Class X25519Laws (X : X25519) : Prop := {
  (** The two sides of an exchange compute the same shared secret. *)
  dh_comm a b : diffie_hellman a (public_of b) = diffie_hellman b (public_of a);
  (** A public key survives its 32-byte encoding. *)
  public_from_to_bytes p : public_from_bytes (public_to_bytes p) = p;
  length_public_to_bytes bs :
    blen bs = ECDH_KEY_LEN -> blen (public_to_bytes (public_of (secret_from bs))) = ECDH_KEY_LEN;
}.

(** [sha2::Sha256]: the digest of the concatenated updates. *)
Class Sha256 : Type := { sha256 : bytes -> bytes }.
Class Sha256Laws (S : Sha256) : Prop := { length_sha256 bs : blen (sha256 bs) = 32 }.

Section Ecdh.
Context {X : X25519} {H : Sha256}.

Record EcdhKeypair : Type := mkEcdhKeypair {
  secret : Secret;
  public : Public;
}.

(** [EcdhKeypair::generate]; [entropy] is the outcome of filling the 32-byte
    secret with [getrandom]. *)
Definition generate (entropy : result string bytes) : result ProtocolError EcdhKeypair :=
  secret_bytes ← map_err Random entropy;
  let s := secret_from secret_bytes in
  Ok {| secret := s; public := public_of s |}.

(** [EcdhKeypair::public_bytes]. *)
Definition public_bytes (k : EcdhKeypair) : bytes := public_to_bytes (public k).

(** The free function [derive_session_key]. *)
Definition derive_session_key_of (shared_secret : bytes) : bytes :=
  sha256 (ECDH_DOMAIN_TAG ++ shared_secret).

(** [EcdhKeypair::derive_session_key]. *)
Definition derive_session_key (k : EcdhKeypair) (peer_public : bytes) : bytes :=
  let peer := public_from_bytes peer_public in
  let shared := diffie_hellman (secret k) peer in
  derive_session_key_of shared.
End Ecdh.

(** [parse_peer_public]. *)
Definition parse_peer_public (bs : bytes) : result ProtocolError bytes :=
  if bool_decide (blen bs <> ECDH_KEY_LEN)
  then Err (InvalidEcdhPublicKey ECDH_KEY_LEN (blen bs))
  else Ok bs.

(** ** Lemmas *)
Lemma message_type_try_from_u8 t : message_type_try_from (message_type_u8 t) = Ok t.
Proof. by destruct t. Qed.

Lemma message_type_try_from_inv v t :
  message_type_try_from v = Ok t -> v = message_type_u8 t.
Proof. by destruct v; cbn; intros [= <-]. Qed.

Lemma returns_message_type_try_from v : returns (message_type_try_from v).
Proof. by destruct v. Qed.

Lemma encryption_kind_try_from_u8 k : encryption_kind_try_from (encryption_kind_u8 k) = Ok k.
Proof. by destruct k. Qed.

Lemma set_attachments_id b : set_attachments (attachments b) b = b.
Proof. by destruct b. Qed.

Lemma message_type_set_attachments a b : message_type (set_attachments a b) = message_type b.
Proof. by destruct b. Qed.

#[export] Hint Resolve returns_message_type_try_from : wscall.

(** *** An instance of the key-agreement interface

    Secrets and public keys are byte strings and the exchange is their
    pointwise exclusive or: commutative, so the laws hold. *)
Definition byte_xor (a b : byte) : byte := byte_of_Z (Z.lxor (Z_of_byte a) (Z_of_byte b)).

Definition xor_x25519 : X25519 := {|
  Secret := bytes; Public := bytes;
  secret_from := fun bs => bs; public_of := fun s => s;
  public_from_bytes := fun bs => bs; public_to_bytes := fun p => p;
  diffie_hellman := zip_with byte_xor;
|}.

Definition prefix_sha256 : Sha256 := {| sha256 bs := take 32 (bs ++ replicate 32 x00) |}.
Lemma prefix_sha256_laws : Sha256Laws prefix_sha256.
Proof.
  split. intros bs. change (blen (take 32 (bs ++ replicate 32 x00)) = 32).
  rewrite blen_take, blen_app, blen_replicate. pose proof (blen_nonneg bs). lia.
Qed.

Lemma xor_x25519_laws : X25519Laws xor_x25519.
Proof.
  split; cbn; [|done..]. intros a b.
  revert b. induction a as [|x a IH]; intros [|y b]; cbn; [done..|].
  unfold byte_xor at 1 2. by rewrite Z.lxor_comm, IH.
Qed.

(** X25519 key agreement.  Whenever both sides generate a key pair from
    32 bytes of entropy, each accepts the public key the other sends and both
    derive the same session key, which never depends on anything but the two
    key pairs. *)
Lemma ecdh_agreement {X : X25519} {H : Sha256} {L : X25519Laws X}
    ea eb (ka kb : EcdhKeypair) :
  blen ea = ECDH_KEY_LEN -> blen eb = ECDH_KEY_LEN ->
  generate (Ok ea) = Ok ka -> generate (Ok eb) = Ok kb ->
  exists pa pb,
    parse_peer_public (public_bytes ka) = Ok pa /\
    parse_peer_public (public_bytes kb) = Ok pb /\
    derive_session_key ka pb = derive_session_key kb pa.
Proof.
  intros Ha Hb [= <-] [= <-]. unfold parse_peer_public, public_bytes. cbn [public].
  rewrite !bool_decide_false by (rewrite length_public_to_bytes by done; lia).
  do 2 eexists. split_and!; [done..|].
  unfold derive_session_key. cbn [secret]. by rewrite !public_from_to_bytes, dh_comm.
Qed.
