(* ===== verification/Texts.v ===== *)
(** * The texts of errors (the [#[error(...)]] attributes)

    What [Display] prints for a [ProtocolError] and [Debug] for an error payload:
    the formats that [thiserror] and [derive(Debug)] apply, with the standard
    library's decimal, hexadecimal and quoted forms.  The texts of [serde_json]
    (its errors, and [Debug] of a JSON value) and the Unicode tables of
    [str::fmt] are the class [ErrorTexts]. *)

From stdpp Require Import pretty.
From S2P Require Import Prelude Utf8 Json Protocol.
#[local] Open Scope Z_scope.

Class ErrorTexts : Type := {
  (** [Display] of [serde_json::Error], [Debug] of [serde_json::Value]. *)
  json_error_text : JsonError -> string;
  value_debug : Value -> string;
  (** The tables behind [char::escape_debug]. *)
  is_grapheme_extended : Z -> bool;
  is_printable : Z -> bool;
}.

(** ** Numbers *)
Definition hex_digit (d : Z) : string :=
  match String.get (Z.to_nat d) "0123456789abcdef" with Some a => String a "" | None => "" end.

(** Lower-case hexadecimal without leading zeros; [fuel] bounds the digits. *)
Fixpoint hex_digits (fuel : nat) (n : Z) (tail : string) : string :=
  match fuel with
  | O => tail
  | S fuel =>
      let tail := hex_digit (n mod 16) +:+ tail in
      if n <? 16 then tail else hex_digits fuel (n / 16) tail
  end.

(** [{:#x}] of a [u8]. *)
Definition hex_u8 (b : byte) : string := "0x" +:+ hex_digits 2 (Z_of_byte b) "".

(** ** [Debug] of strings *)
Definition quote : string := String (Ascii.ascii_of_nat 34) "".
Definition backslash : string := String (Ascii.ascii_of_nat 92) "".

Section Debug.
Context {T : ErrorTexts}.

(** [char::escape_debug_ext] as [Debug] of [str] calls it: single quotes stay. *)
Definition escape_char (c : bytes) : string :=
  let n := scalar c in
  if n =? 0 then backslash +:+ "0"
  else if n =? 9 then backslash +:+ "t"
  else if n =? 13 then backslash +:+ "r"
  else if n =? 10 then backslash +:+ "n"
  else if n =? 92 then backslash +:+ backslash
  else if n =? 34 then backslash +:+ quote
  else if is_grapheme_extended n || negb (is_printable n)
  then backslash +:+ "u{" +:+ hex_digits 6 n "" +:+ "}"
  else bytes_str c.

Definition str_debug (s : string) : string :=
  quote +:+ String.concat "" (map (fun t => escape_char (token_bytes t)) (tokens (str_bytes s))) +:+ quote.

Definition option_debug {A} (f : A -> string) (o : option A) : string :=
  match o with None => "None" | Some a => "Some(" +:+ f a +:+ ")" end.

(** [derive(Debug)] of the structs with a code, a message, a status and details. *)
Definition error_struct_debug (name code message : string) (status : Z) (details : option Value) : string :=
  name +:+ " { code: " +:+ str_debug code +:+ ", message: " +:+ str_debug message
  +:+ ", status: " +:+ pretty status +:+ ", details: " +:+ option_debug value_debug details +:+ " }".
Definition error_payload_debug (e : ErrorPayload) : string :=
  error_struct_debug "ErrorPayload" (err_code e) (err_message e) (err_status e) (err_details e).

(** ** [Display] of protocol errors *)
Definition protocol_error_text (e : ProtocolError) : string :=
  match e with
  | FrameTooShort => "frame too short"
  | FrameLengthMismatch declared actual =>
      "frame length mismatch: declared=" +:+ pretty declared +:+ ", actual=" +:+ pretty actual
  | PayloadTooLarge actual max => "payload too large: actual=" +:+ pretty actual +:+ ", max=" +:+ pretty max
  | FrameTooLarge actual max => "frame too large: actual=" +:+ pretty actual +:+ ", max=" +:+ pretty max
  | UnknownMessageType value => "unknown message type: " +:+ hex_u8 value
  | UnknownEncryption value => "unknown encryption kind: " +:+ hex_u8 value
  | UnsupportedEncryption value => "unsupported encryption kind: " +:+ hex_u8 value
  | MissingEncryptionKey algorithm => "missing encryption key for " +:+ algorithm
  | InvalidEncryptionKey algorithm => "invalid encryption key for " +:+ algorithm
  | Random source => "secure random generation failed: " +:+ source
  | EncryptedPayloadTooShort algorithm expected_min actual =>
      "encrypted payload too short for " +:+ algorithm +:+ ": expected at least " +:+ pretty expected_min
      +:+ ", actual=" +:+ pretty actual
  | EncryptionFailed algorithm => "encryption failed for " +:+ algorithm
  | DecryptionFailed algorithm => "decryption failed for " +:+ algorithm
  | InvalidEcdhPublicKey expected actual =>
      "invalid ECDH public key: expected " +:+ pretty expected +:+ " bytes, got " +:+ pretty actual
  | EcdhHandshake reason => "ECDH handshake failed: " +:+ reason
  | MessageTypeMismatch => "message type does not match packet body"
  | InvalidAttachmentEncoding reason => "invalid attachment encoding: " +:+ reason
  | Protocol.Json source => "json error: " +:+ json_error_text source
  end.
End Debug.

(** ** An instance *)
Definition plain_texts : ErrorTexts := {|
  json_error_text e :=
    match e with
    | Syntax msg | Custom msg => msg
    | MissingField field => "missing field `" +:+ field +:+ "`"
    | UnknownField field => "unknown field `" +:+ field +:+ "`"
    | InvalidLength len => "invalid length " +:+ pretty len
    | InvalidType => "invalid type"
    | InvalidValue => "invalid value"
    end;
  value_debug _ := "..";
  is_grapheme_extended c := (768 <=? c) && (c <=? 879);
  is_printable c := (32 <=? c) && (c <=? 126);
|}.

Example hex_texts : map hex_u8 [x00; x07; x1f; xff] = ["0x0"; "0x7"; "0x1f"; "0xff"].
Proof. reflexivity. Qed.
Example debug_text : error_payload_debug (T:=plain_texts)
    (mkErrorPayload "busy" (bytes_str [x61; x0a; x22; xcc; x80]) 503 None)
  = "ErrorPayload { code: " +:+ quote +:+ "busy" +:+ quote +:+ ", message: " +:+ quote +:+ "a" +:+ backslash +:+ "n"
    +:+ backslash +:+ quote +:+ backslash +:+ "u{300}" +:+ quote +:+ ", status: 503, details: None }".
Proof. vm_compute. reflexivity. Qed.
