(* ===== verification/Attachment.v ===== *)
(** * Binary attachment sections (FileAttachment::{wire_size, write_wire, read_wire})

    Layout of a section:
    [id_len:u8 | id | name_len:u8 | name | ct_len:u8 | ct | data_len:u32 | data]. *)

From S2P Require Import Prelude Utf8 Json Protocol.
#[local] Open Scope Z_scope.

(** ** Definitions *)

(** [FileAttachment::wire_size]. *)
Definition wire_size (a : FileAttachment) : Z :=
  1 + str_len (att_id a) + 1 + str_len (att_name a) + 1 + str_len (att_content_type a)
  + 4 + blen (att_data a).

(** [FileAttachment::write_wire]: the buffer after the appends. *)
Definition write_wire (a : FileAttachment) (buf : bytes) : bytes :=
  let buf := buf ++ [byte_of_Z (str_len (att_id a))] in
  let buf := buf ++ str_bytes (att_id a) in
  let buf := buf ++ [byte_of_Z (str_len (att_name a))] in
  let buf := buf ++ str_bytes (att_name a) in
  let buf := buf ++ [byte_of_Z (str_len (att_content_type a))] in
  let buf := buf ++ str_bytes (att_content_type a) in
  let buf := buf ++ to_be_bytes (cast_u32 (blen (att_data a))) in
  buf ++ att_data a.

(** One length-prefixed string of [read_wire]: the checks, the index and the
    slice, with the field's two error messages. *)
Definition read_field (len_msg field_msg : string) (data : bytes) (pos : Z) :
    result ProtocolError (string * Z) :=
  if bool_decide (blen data <= pos) then Err (InvalidAttachmentEncoding len_msg)
  else
    b ← index data pos;
    let len := Z_of_byte b in
    let pos := pos + 1 in
    if bool_decide (blen data < pos + len) then Err (InvalidAttachmentEncoding field_msg)
    else
      field ← slice data pos (pos + len);
      Ok (from_utf8_lossy field, pos + len).

(** [FileAttachment::read_wire]. *)
Definition read_wire (data : bytes) : result ProtocolError (FileAttachment * bytes) :=
  '(id, pos) ← read_field "truncated id_len" "truncated id" data 0;
  '(name, pos) ← read_field "truncated name_len" "truncated name" data pos;
  '(content_type, pos) ← read_field "truncated ct_len" "truncated content_type" data pos;
  if bool_decide (blen data < pos + 4)
  then Err (InvalidAttachmentEncoding "truncated data_len")
  else
    b0 ← index data pos;
    b1 ← index data (pos + 1);
    b2 ← index data (pos + 2);
    b3 ← index data (pos + 3);
    let data_len := from_be_bytes b0 b1 b2 b3 in
    let pos := pos + 4 in
    if bool_decide (blen data < pos + data_len)
    then Err (InvalidAttachmentEncoding "truncated data")
    else
      payload ← slice data pos (pos + data_len);
      let pos := pos + data_len in
      rest ← slice_from data pos;
      Ok ({| att_id := id; att_name := name; att_content_type := content_type;
             att_data := payload |}, rest).

(** Attachments a section can represent: the Rust types' own invariants, the
    one-byte bounds on the three names and the four-byte bound on the data. *)
Definition att_wf (a : FileAttachment) : Prop :=
  str_wf (att_id a) /\ str_wf (att_name a) /\ str_wf (att_content_type a)
  /\ str_len (att_id a) < 256 /\ str_len (att_name a) < 256
  /\ str_len (att_content_type a) < 256 /\ blen (att_data a) < 2 ^ 32.

(** The section layout over raw field bytes: the grammar of the wire format. *)
Definition field_wire (f : bytes) : bytes := byte_of_Z (blen f) :: f.
Definition section_wire (i n c d : bytes) : bytes :=
  field_wire i ++ field_wire n ++ field_wire c ++ to_be_bytes (blen d) ++ d.

(** ** Lemmas *)
Lemma to_be_bytes_cast n : to_be_bytes (cast_u32 n) = to_be_bytes n.
Proof.
  unfold wrap. rewrite <- (from_to_be_bytes n _ _ _ _ eq_refl). apply to_from_be_bytes.
Qed.

Lemma write_wire_section a buf :
  write_wire a buf =
  buf ++ section_wire (str_bytes (att_id a)) (str_bytes (att_name a))
           (str_bytes (att_content_type a)) (att_data a).
Proof.
  unfold write_wire, section_wire, field_wire. rewrite to_be_bytes_cast.
  rewrite <- !app_assoc. done.
Qed.

Lemma blen_section i n c d :
  blen (section_wire i n c d) = 1 + blen i + 1 + blen n + 1 + blen c + 4 + blen d.
Proof. unfold section_wire, field_wire. len_lia. Qed.

Lemma blen_write_wire a buf : blen (write_wire a buf) = blen buf + wire_size a.
Proof. rewrite write_wire_section, blen_app, blen_section. unfold wire_size, str_len. lia. Qed.

(** Reading a field that sits between a prefix and a suffix. *)
Lemma read_field_mid m1 m2 pre f suf data pos :
  data = pre ++ field_wire f ++ suf -> pos = blen pre -> blen f < 256 ->
  read_field m1 m2 data pos = Ok (from_utf8_lossy f, pos + blen (field_wire f)).
Proof.
  intros -> -> Hf. unfold read_field, field_wire.
  pose proof (blen_nonneg f). pose proof (blen_nonneg suf). pose proof (blen_nonneg pre).
  rewrite bool_decide_false by len_lia.
  rewrite index_app_r, Z.sub_diag by lia. cbn [app]. rewrite index_cons_0.
  msimpl. rewrite Z_of_byte_small by lia.
  rewrite bool_decide_false by len_lia.
  replace (pre ++ byte_of_Z (blen f) :: f ++ suf)
    with ((pre ++ [byte_of_Z (blen f)]) ++ f ++ suf) by (by rewrite <- app_assoc).
  rewrite slice_mid by len_lia. msimpl. do 2 f_equal. len_lia.
Qed.

(** The four bytes of an integer that sits between a prefix and a suffix. *)
Lemma index_be_mid {E} pre n suf data pos :
  data = pre ++ to_be_bytes n ++ suf -> pos = blen pre ->
  index (E:=E) data pos = Ok (byte_of_Z (Z.shiftr n 24))
  /\ index (E:=E) data (pos + 1) = Ok (byte_of_Z (Z.shiftr n 16))
  /\ index (E:=E) data (pos + 2) = Ok (byte_of_Z (Z.shiftr n 8))
  /\ index (E:=E) data (pos + 3) = Ok (byte_of_Z n).
Proof.
  intros -> ->.
  assert (Hi : forall i, 0 <= i ->
    index (E:=E) (pre ++ to_be_bytes n ++ suf) (blen pre + i) = index (to_be_bytes n ++ suf) i).
  { intros i Hi. rewrite index_app_r by lia. f_equal. lia. }
  rewrite <- (Z.add_0_r (blen pre)) at 1. rewrite !Hi by lia. split_and!; reflexivity.
Qed.

Lemma index_be_head {E} n suf :
  index (E:=E) (to_be_bytes n ++ suf) 0 = Ok (byte_of_Z (Z.shiftr n 24))
  /\ index (E:=E) (to_be_bytes n ++ suf) 1 = Ok (byte_of_Z (Z.shiftr n 16))
  /\ index (E:=E) (to_be_bytes n ++ suf) 2 = Ok (byte_of_Z (Z.shiftr n 8))
  /\ index (E:=E) (to_be_bytes n ++ suf) 3 = Ok (byte_of_Z n).
Proof. split_and!; reflexivity. Qed.

(** Reading back any section whose fields fit their length prefixes. *)
Lemma read_section i n c d rest :
  blen i < 256 -> blen n < 256 -> blen c < 256 -> blen d < 2 ^ 32 ->
  read_wire (section_wire i n c d ++ rest) =
  Ok ({| att_id := from_utf8_lossy i; att_name := from_utf8_lossy n;
         att_content_type := from_utf8_lossy c; att_data := d |}, rest).
Proof.
  intros Hi Hn Hc Hd. unfold section_wire. set (data := (_ ++ _) ++ rest).
  pose proof (blen_nonneg d). pose proof (blen_nonneg rest).
  assert (Hdata : data = field_wire i ++ field_wire n ++ field_wire c
                           ++ to_be_bytes (blen d) ++ d ++ rest)
    by (subst data; by rewrite <- !app_assoc).
  unfold read_wire.
  rewrite (read_field_mid _ _ [] i (field_wire n ++ field_wire c ++ to_be_bytes (blen d) ++ d ++ rest)) by done.
  msimpl.
  rewrite (read_field_mid _ _ (field_wire i) n (field_wire c ++ to_be_bytes (blen d) ++ d ++ rest)) by done.
  msimpl.
  set (pre := field_wire i ++ field_wire n).
  rewrite (read_field_mid _ _ pre c (to_be_bytes (blen d) ++ d ++ rest))
    by (subst pre; rewrite <- ?app_assoc; done || len_lia).
  msimpl.
  set (pre' := pre ++ field_wire c).
  assert (Hdata' : data = pre' ++ to_be_bytes (blen d) ++ d ++ rest)
    by (subst pre' pre; rewrite <- !app_assoc; done).
  set (pos := _ + blen (field_wire c)).
  assert (Hpos : pos = blen pre') by (subst pos pre' pre; len_lia).
  assert (Hlen : blen data = pos + 4 + blen d + blen rest) by (rewrite Hdata', Hpos; len_lia).
  rewrite bool_decide_false by lia.
  destruct (index_be_mid (E:=ProtocolError) pre' _ _ data pos Hdata' Hpos) as (-> & -> & -> & ->).
  msimpl.
  rewrite (from_to_be_bytes (blen d)), Z.mod_small by (done || lia).
  rewrite bool_decide_false by lia.
  assert (Hdata'' : data = (pre' ++ to_be_bytes (blen d)) ++ d ++ rest)
    by (by rewrite <- app_assoc).
  rewrite Hdata'', slice_mid by len_lia. msimpl.
  rewrite app_assoc, slice_from_app by len_lia. done.
Qed.

(** A field that was read is a field that is there. *)
Lemma read_field_inv m1 m2 data pos s pos' :
  0 <= pos -> read_field m1 m2 data pos = Ok (s, pos') ->
  exists f, blen f < 256 /\ s = from_utf8_lossy f /\ 0 <= pos' <= blen data
    /\ drop (Z.to_nat pos) data = field_wire f ++ drop (Z.to_nat pos') data.
Proof.
  unfold read_field. intros Hpos. case_bool_decide; [done|]. intros Hr.
  apply bind_Ok_inv in Hr as (b & [Hb Hlt]%index_drop & Hr).
  case_bool_decide; [done|].
  apply bind_Ok_inv in Hr as (f & (Hf & ? & ? & Hlen)%slice_drop & [= <- <-]).
  pose proof (Z_of_byte_range b).
  exists f. split_and!; [lia|done|lia|lia|].
  rewrite Hb, Hf. unfold field_wire. cbn [app]. f_equal.
  apply Z_of_byte_inj. rewrite Z_of_byte_small; lia.
Qed.

(** The data length and the data, once the three fields are read. *)
Lemma read_tail_inv data pos b0 b1 b2 b3 d rest :
  index (E:=ProtocolError) data pos = Ok b0 -> index (E:=ProtocolError) data (pos + 1) = Ok b1 ->
  index (E:=ProtocolError) data (pos + 2) = Ok b2 ->
  index (E:=ProtocolError) data (pos + 3) = Ok b3 ->
  slice (E:=ProtocolError) data (pos + 4) (pos + 4 + from_be_bytes b0 b1 b2 b3) = Ok d ->
  slice_from (E:=ProtocolError) data (pos + 4 + from_be_bytes b0 b1 b2 b3) = Ok rest ->
  blen d < 2 ^ 32 /\ drop (Z.to_nat pos) data = to_be_bytes (blen d) ++ d ++ rest.
Proof.
  intros [H0 ?]%index_drop [H1 _]%index_drop [H2 _]%index_drop [H3 _]%index_drop
    (Hd & ? & ? & Hlen)%slice_drop [Hr _]%slice_from_drop.
  pose proof (from_be_bytes_range b0 b1 b2 b3).
  split; [lia|]. replace (blen d) with (from_be_bytes b0 b1 b2 b3) by lia.
  rewrite to_from_be_bytes, H0, H1. cbn [app].
  replace (pos + 1 + 1) with (pos + 2) by lia. rewrite H2.
  replace (pos + 2 + 1) with (pos + 3) by lia. rewrite H3.
  replace (pos + 3 + 1) with (pos + 4) by lia. by rewrite Hd, Hr.
Qed.

(** The only error of the section reader. *)
Definition attachment_error (e : ProtocolError) : Prop :=
  exists msg, e = InvalidAttachmentEncoding msg.

Lemma errs_in_read_field m1 m2 data pos :
  0 <= pos -> errs_in attachment_error (read_field m1 m2 data pos).
Proof.
  intros Hpos. unfold read_field. case_bool_decide; [by eexists|].
  apply errs_in_bind; [apply errs_in_index; lia|]. intros b _.
  case_bool_decide; [by eexists|]. pose proof (Z_of_byte_range b).
  apply errs_in_bind; [apply errs_in_slice; lia|done].
Qed.

Lemma errs_in_read_wire data : errs_in attachment_error (read_wire data).
Proof.
  unfold read_wire.
  apply errs_in_bind; [by apply errs_in_read_field|].
  intros [id p1] (? & _ & _ & ? & _)%read_field_inv; [|lia].
  apply errs_in_bind; [apply errs_in_read_field; lia|].
  intros [nm p2] (? & _ & _ & ? & _)%read_field_inv; [|lia].
  apply errs_in_bind; [apply errs_in_read_field; lia|].
  intros [ct p3] (? & _ & _ & ? & _)%read_field_inv; [|lia].
  case_bool_decide; [by eexists|].
  do 4 (apply errs_in_bind; [apply errs_in_index; lia|]; intros ? _).
  case_bool_decide; [by eexists|].
  match goal with |- context [from_be_bytes ?a ?b ?c ?d] =>
    pose proof (from_be_bytes_range a b c d) end.
  apply errs_in_bind; [apply errs_in_slice; lia|]. intros ? _.
  apply errs_in_bind; [apply errs_in_slice_from; lia|done].
Qed.

(** [read_wire] accepts exactly the byte strings that start with a section: it
    returns an attachment and a remainder if and only if the input is a length-
    prefixed id, name and content type (each under 256 bytes), a four-byte data
    length and the data, followed by that remainder; the three texts are the lossy
    UTF-8 decodings of the field bytes. *)
Lemma read_wire_iff data a rest :
  read_wire data = Ok (a, rest) <->
  exists i n c d,
    data = section_wire i n c d ++ rest
    /\ blen i < 256 /\ blen n < 256 /\ blen c < 256 /\ blen d < 2 ^ 32
    /\ a = {| att_id := from_utf8_lossy i; att_name := from_utf8_lossy n;
              att_content_type := from_utf8_lossy c; att_data := d |}.
Proof.
  split.
  - intros Hr. unfold read_wire in Hr.
    apply bind_Ok_inv in Hr as ([id p1] & (i & ? & -> & ? & Hi)%read_field_inv & Hr); [|lia].
    apply bind_Ok_inv in Hr as ([nm p2] & (n & ? & -> & ? & Hn)%read_field_inv & Hr); [|lia].
    apply bind_Ok_inv in Hr as ([ct p3] & (c & ? & -> & ? & Hc)%read_field_inv & Hr); [|lia].
    case_bool_decide; [done|].
    apply bind_Ok_inv in Hr as (b0 & Hb0 & Hr). apply bind_Ok_inv in Hr as (b1 & Hb1 & Hr).
    apply bind_Ok_inv in Hr as (b2 & Hb2 & Hr). apply bind_Ok_inv in Hr as (b3 & Hb3 & Hr).
    case_bool_decide; [done|].
    apply bind_Ok_inv in Hr as (d & Hd & Hr). apply bind_Ok_inv in Hr as (r & Hrest & [= <- <-]).
    destruct (read_tail_inv _ _ _ _ _ _ _ _ Hb0 Hb1 Hb2 Hb3 Hd Hrest) as [? Htail].
    exists i, n, c, d. split_and!; [|done..].
    change data with (drop (Z.to_nat 0) data). rewrite Hi, Hn, Hc, Htail.
    unfold section_wire. by rewrite <- !app_assoc.
  - intros (i & n & c & d & -> & ? & ? & ? & ? & ->). by apply read_section.
Qed.

Lemma attachment_read a rest :
  att_wf a -> read_wire (write_wire a [] ++ rest) = Ok (a, rest).
Proof.
  intros (Hi & Hn & Hc & ? & ? & ? & ?). rewrite write_wire_section. cbn [app].
  rewrite read_section by done. rewrite !from_utf8_lossy_str by done. by destruct a.
Qed.

(** ** Properties *)
Definition sample_attachment : FileAttachment :=
  inline_bytes "f1" "test.bin" "application/octet-stream" [x01; x02; x03; x04; x05].

Lemma sample_attachment_wf : att_wf sample_attachment.
Proof. unfold att_wf, str_wf. vm_compute. split_and!; done. Qed.

(** [read_wire] is memory safe: on every input it returns an attachment or
    an [InvalidAttachmentEncoding] error; no index or slice is out of bounds. *)
Lemma read_wire_safe data :
  (exists a rest, read_wire data = Ok (a, rest))
  \/ (exists msg, read_wire data = Err (InvalidAttachmentEncoding msg)).
Proof.
  destruct (errs_in_cases _ _ (errs_in_read_wire data)) as [[[a rest] ?]|(e & ? & [msg ->])].
  - left. eauto.
  - right. eauto.
Qed.
