(* ===== verification/PacketJson.v ===== *)
(** * The JSON form of packets (Serialize / Deserialize of the protocol types)

    [serialize] is the sequence of serializer calls of [PacketBody::serialize];
    [deserialize] is [PacketBody::deserialize] once the text is a value tree.
    The [take_*] helpers move fields out of the object map, which they thread. *)

From S2P Require Import Prelude Utf8 Json Protocol.
From stdpp Require Import pretty.
#[local] Open Scope Z_scope.

(** ** Tags *)
Definition K_API_REQUEST : Z := 0.
Definition K_EVENT_EMIT : Z := 1.
Definition K_API_RESPONSE : Z := 2.
Definition K_EVENT_ACK : Z := 3.
Definition K_AUTH_REQUEST : Z := 4.
Definition K_AUTH_RESPONSE : Z := 5.

(** ** Serialization *)
Definition ser_u (n : Z) : Ser := SerVal (Num (PosInt n)).
Definition ser_bool (b : bool) : Ser := SerVal (Bool b).
Definition ser_str (s : string) : Ser := SerVal (Str s).

(** [usize::from(bool)]. *)
Definition usize_from (b : bool) : Z := if b then 1 else 0.

Definition is_some {A : Type} (o : option A) : bool :=
  match o with Some _ => true | None => false end.

Definition metadata_is_empty (v : Value) : bool :=
  match v with
  | Null => true
  | _ => match as_object v with Some m => bool_decide (m = ∅) | None => false end
  end.

(** [#[derive(Serialize)] struct ErrorPayload] with [skip_serializing_if] on
    [details]. *)
Definition serialize_error (e : ErrorPayload) : Ser :=
  SerMap (3 + usize_from (is_some (err_details e)))
    ([("code", ser_str (err_code e)); ("message", ser_str (err_message e));
      ("status", ser_u (err_status e))]
     ++ match err_details e with Some d => [("details", SerVal d)] | None => [] end).

Definition error_entry (error : option ErrorPayload) : list (string * Ser) :=
  match error with Some err => [("er", serialize_error err)] | None => [] end.

Definition serialize (b : PacketBody) : Ser :=
  match b with
  | ApiRequest request_id route params _ metadata =>
      let include_meta := negb (metadata_is_empty metadata) in
      SerMap (4 + usize_from include_meta)
        ([("k", ser_u K_API_REQUEST); ("i", ser_u request_id); ("r", ser_str route);
          ("p", SerVal params)]
         ++ if include_meta then [("m", SerVal metadata)] else [])
  | ApiResponse request_id ok status data error metadata =>
      let include_meta := negb (metadata_is_empty metadata) in
      SerMap (5 + usize_from (is_some error) + usize_from include_meta)
        ([("k", ser_u K_API_RESPONSE); ("i", ser_u request_id); ("o", ser_bool ok);
          ("s", ser_u status); ("d", SerVal data)]
         ++ error_entry error
         ++ if include_meta then [("m", SerVal metadata)] else [])
  | EventEmit event_id name data _ metadata expect_ack =>
      let include_meta := negb (metadata_is_empty metadata) in
      SerMap (5 + usize_from include_meta)
        ([("k", ser_u K_EVENT_EMIT); ("i", ser_u event_id); ("n", ser_str name);
          ("d", SerVal (Object data))]
         ++ (if include_meta then [("m", SerVal metadata)] else [])
         ++ [("e", ser_bool expect_ack)])
  | EventAck event_id ok receipt error =>
      SerMap (3 + usize_from (is_some error) + 1)
        ([("k", ser_u K_EVENT_ACK); ("i", ser_u event_id); ("o", ser_bool ok);
          ("rc", SerVal receipt)]
         ++ error_entry error)
  | AuthRequest credential =>
      SerMap 2 [("k", ser_u K_AUTH_REQUEST); ("c", ser_str credential)]
  | AuthResponse ok session_timeout_secs error =>
      SerMap (2 + usize_from (is_some session_timeout_secs) + usize_from (is_some error))
        ([("k", ser_u K_AUTH_RESPONSE); ("o", ser_bool ok)]
         ++ match session_timeout_secs with Some st => [("st", ser_u st)] | None => [] end
         ++ error_entry error)
  end.

(** [impl Serialize for FileAttachment]. *)
Definition serialize_attachment (a : FileAttachment) : Ser :=
  SerMap 4
    [("id", ser_str (att_id a)); ("name", ser_str (att_name a));
     ("content_type", ser_str (att_content_type a));
     ("data", SerVal (Array (map (fun b => Num (PosInt (Z_of_byte b))) (att_data a))))].

(** ** Deserialization of the leaves *)
Definition de_string (v : Value) : result JsonError string :=
  match v with Str s => Ok s | _ => Err InvalidType end.

Definition de_uint (max : Z) (v : Value) : result JsonError Z :=
  match v with
  | Num (PosInt n) => if n <=? max then Ok n else Err InvalidValue
  | Num (NegInt _) => Err InvalidValue
  | _ => Err InvalidType
  end.

Definition de_vec {A : Type} (f : Value -> result JsonError A) (v : Value) :
    result JsonError (list A) :=
  match v with Array vs => mapM f vs | _ => Err InvalidType end.

Definition de_option_value (v : Value) : result JsonError (option Value) :=
  match v with Null => Ok None | v => Ok (Some v) end.

(** [Vec<u8>]. *)
Definition de_bytes (v : Value) : result JsonError bytes :=
  zs ← de_vec (de_uint 255) v; Ok (map byte_of_Z zs).

(** A [BTreeMap] iterates in ascending key order. *)
Fixpoint insert_entry {A : Type} (e : string * A) (l : list (string * A)) : list (string * A) :=
  match l with
  | [] => [e]
  | f :: l => if String.leb (fst e) (fst f) then e :: f :: l else f :: insert_entry e l
  end.

Definition sorted_entries {A : Type} (m : gmap string A) : list (string * A) :=
  foldr insert_entry [] (map_to_list m).

(** [SeqAccess::next_element()?.ok_or_else(|| invalid_length(i, &self))?]. *)
Definition seq_next {A : Type} (f : Value -> result JsonError A) (i : Z) (vs : list Value) :
    result JsonError (A * list Value) :=
  match vs with
  | [] => Err (InvalidLength i)
  | v :: vs => a ← f v; Ok (a, vs)
  end.

(** The deserializer checks that a visitor consumed the whole sequence. *)
Definition seq_end {A : Type} (n : Z) (a : A) (vs : list Value) : result JsonError A :=
  match vs with [] => Ok a | _ => Err (InvalidLength n) end.

(** ** FileAttachment *)

(** The visitor's four [Option] locals. *)
Record AttSlots : Type := mkAttSlots {
  slot_id : option string;
  slot_name : option string;
  slot_content_type : option string;
  slot_data : option bytes;
}.

Definition visit_entry (st : AttSlots) (e : string * Value) : result JsonError AttSlots :=
  let '(key, v) := e in
  if String.eqb key "id" then
    s ← de_string v;
    Ok (mkAttSlots (Some s) (slot_name st) (slot_content_type st) (slot_data st))
  else if String.eqb key "name" then
    s ← de_string v;
    Ok (mkAttSlots (slot_id st) (Some s) (slot_content_type st) (slot_data st))
  else if String.eqb key "content_type" then
    s ← de_string v;
    Ok (mkAttSlots (slot_id st) (slot_name st) (Some s) (slot_data st))
  else if String.eqb key "data" then
    bs ← de_bytes v;
    Ok (mkAttSlots (slot_id st) (slot_name st) (slot_content_type st) (Some bs))
  else Err (UnknownField key).

Definition foldM {E A B : Type} (f : B -> A -> result E B) : B -> list A -> result E B :=
  fix go b l := match l with [] => Ok b | a :: l => b ← f b a; go b l end.

(** [FileAttachmentVisitor::visit_map]. *)
Definition att_visit_map (m : gmap string Value) : result JsonError FileAttachment :=
  st ← foldM visit_entry (mkAttSlots None None None None) (sorted_entries m);
  id ← ok_or (MissingField "id") (slot_id st);
  name ← ok_or (MissingField "name") (slot_name st);
  content_type ← ok_or (MissingField "content_type") (slot_content_type st);
  data ← ok_or (MissingField "data") (slot_data st);
  Ok {| att_id := id; att_name := name; att_content_type := content_type; att_data := data |}.

(** [FileAttachmentVisitor::visit_seq]. *)
Definition att_visit_seq (vs : list Value) : result JsonError FileAttachment :=
  '(id, vs) ← seq_next de_string 0 vs;
  '(name, vs) ← seq_next de_string 1 vs;
  '(content_type, vs) ← seq_next de_string 2 vs;
  '(data, vs) ← seq_next de_bytes 3 vs;
  seq_end 4 {| att_id := id; att_name := name; att_content_type := content_type;
               att_data := data |} vs.

(** [FileAttachment::deserialize] on a value. *)
Definition deserialize_attachment (v : Value) : result JsonError FileAttachment :=
  match v with
  | Object m => att_visit_map m
  | Array vs => att_visit_seq vs
  | _ => Err InvalidType
  end.

(** ** ErrorPayload: the derived [Deserialize] *)
Record ErrSlots : Type := mkErrSlots {
  slot_code : option string;
  slot_message : option string;
  slot_status : option Z;
  slot_details : option (option Value);
}.

Definition visit_error_entry (st : ErrSlots) (e : string * Value) : result JsonError ErrSlots :=
  let '(key, v) := e in
  if String.eqb key "code" then
    s ← de_string v;
    Ok (mkErrSlots (Some s) (slot_message st) (slot_status st) (slot_details st))
  else if String.eqb key "message" then
    s ← de_string v;
    Ok (mkErrSlots (slot_code st) (Some s) (slot_status st) (slot_details st))
  else if String.eqb key "status" then
    n ← de_uint 65535 v;
    Ok (mkErrSlots (slot_code st) (slot_message st) (Some n) (slot_details st))
  else if String.eqb key "details" then
    d ← de_option_value v;
    Ok (mkErrSlots (slot_code st) (slot_message st) (slot_status st) (Some d))
  else Ok st.

Definition deserialize_error (v : Value) : result JsonError ErrorPayload :=
  match v with
  | Object m =>
      st ← foldM visit_error_entry (mkErrSlots None None None None) (sorted_entries m);
      code ← ok_or (MissingField "code") (slot_code st);
      message ← ok_or (MissingField "message") (slot_message st);
      status ← ok_or (MissingField "status") (slot_status st);
      Ok {| err_code := code; err_message := message; err_status := status;
            err_details := default None (slot_details st) |}
  | Array vs =>
      '(code, vs) ← seq_next de_string 0 vs;
      '(message, vs) ← seq_next de_string 1 vs;
      '(status, vs) ← seq_next (de_uint 65535) 2 vs;
      '(details, vs) ← seq_next de_option_value 3 vs;
      seq_end 4 {| err_code := code; err_message := message; err_status := status;
                   err_details := details |} vs
  | _ => Err InvalidType
  end.

(** ** Moving fields out of the body map *)
Abbreviation object_map := (gmap string Value).

Definition map_remove (key : string) (map : object_map) : option Value * object_map :=
  (map !! key, delete key map).

Definition take_u64 (map : object_map) (key : string) : result JsonError (Z * object_map) :=
  let '(v, map) := map_remove key map in
  n ← ok_or (Custom ("missing or non-numeric '" ++ key ++ "' field in packet body"))
        (v ≫= as_u64);
  Ok (n, map).

Definition take_string (map : object_map) (key : string) : result JsonError (string * object_map) :=
  match map_remove key map with
  | (Some (Str s), map) => Ok (s, map)
  | _ => Err (Custom ("missing or non-string '" ++ key ++ "' field in packet body"))
  end.

Definition take_object (map : object_map) (key : string) :
    result JsonError (gmap string Value * object_map) :=
  match map_remove key map with
  | (None, map) => Ok (∅, map)
  | (Some (Object o), map) => Ok (o, map)
  | (Some _, _) => Err (Custom ("'" ++ key ++ "' field must be a JSON object"))
  end.

Definition take_bool (map : object_map) (key : string) : bool * object_map :=
  let '(v, map) := map_remove key map in (default false (v ≫= as_bool), map).

Definition take_u16 (map : object_map) (key : string) : Z * object_map :=
  let '(v, map) := map_remove key map in (cast_u16 (default 0 (v ≫= as_u64)), map).

(** [map.remove(key).unwrap_or(Value::Null)]. *)
Definition take_value (map : object_map) (key : string) : Value * object_map :=
  let '(v, map) := map_remove key map in (default Null v, map).

Definition take_attachments (map : object_map) :
    result JsonError (list FileAttachment * object_map) :=
  match map_remove "a" map with
  | (None, map) => Ok ([], map)
  | (Some value, map) => a ← de_vec deserialize_attachment value; Ok (a, map)
  end.

Definition take_error (map : object_map) :
    result JsonError (option ErrorPayload * object_map) :=
  match map_remove "er" map with
  | (None, map) => Ok (None, map)
  | (Some value, map) => e ← deserialize_error value; Ok (Some e, map)
  end.

(** ** PacketBody::deserialize: one definition per arm of the match on [k] *)
Definition deserialize_api_request (map : object_map) : result JsonError PacketBody :=
  '(request_id, map) ← take_u64 map "i";
  '(route, map) ← take_string map "r";
  let '(params, map) := take_value map "p" in
  '(attachments, map) ← take_attachments map;
  let '(metadata, map) := take_value map "m" in
  Ok (ApiRequest request_id route params attachments metadata).

Definition deserialize_event_emit (map : object_map) : result JsonError PacketBody :=
  '(event_id, map) ← take_u64 map "i";
  '(name, map) ← take_string map "n";
  '(data, map) ← take_object map "d";
  '(attachments, map) ← take_attachments map;
  let '(metadata, map) := take_value map "m" in
  let '(expect_ack, map) := take_bool map "e" in
  Ok (EventEmit event_id name data attachments metadata expect_ack).

Definition deserialize_api_response (map : object_map) : result JsonError PacketBody :=
  '(request_id, map) ← take_u64 map "i";
  let '(ok, map) := take_bool map "o" in
  let '(status, map) := take_u16 map "s" in
  let '(data, map) := take_value map "d" in
  '(error, map) ← take_error map;
  let '(metadata, map) := take_value map "m" in
  Ok (ApiResponse request_id ok status data error metadata).

Definition deserialize_event_ack (map : object_map) : result JsonError PacketBody :=
  '(event_id, map) ← take_u64 map "i";
  let '(ok, map) := take_bool map "o" in
  let '(receipt, map) := take_value map "rc" in
  '(error, map) ← take_error map;
  Ok (EventAck event_id ok receipt error).

Definition deserialize_auth_request (map : object_map) : result JsonError PacketBody :=
  '(credential, map) ← take_string map "c";
  Ok (AuthRequest credential).

Definition deserialize_auth_response (map : object_map) : result JsonError PacketBody :=
  let '(ok, map) := take_bool map "o" in
  let '(st, map) := map_remove "st" map in
  '(error, map) ← take_error map;
  Ok (AuthResponse ok (st ≫= as_u64) error).

Definition deserialize (v : Value) : result JsonError PacketBody :=
  match v with
  | Object map =>
      k ← ok_or (Custom "missing or non-numeric 'k' field in packet body")
            (map !! "k" ≫= as_u64);
      if 255 <? k
      then Err (Custom ("'k' value " ++ pretty k ++ " is outside the valid range"))
      else if k =? K_API_REQUEST then deserialize_api_request map
      else if k =? K_EVENT_EMIT then deserialize_event_emit map
      else if k =? K_API_RESPONSE then deserialize_api_response map
      else if k =? K_EVENT_ACK then deserialize_event_ack map
      else if k =? K_AUTH_REQUEST then deserialize_auth_request map
      else if k =? K_AUTH_RESPONSE then deserialize_auth_response map
      else Err (Custom ("unknown 'k' value: " ++ pretty k))
  | _ => Err (Custom "packet body must be a JSON object")
  end.

(** ** What survives the wire

    Attachments do not travel in the JSON; empty metadata is omitted and reads
    back as [null]; [details: null] reads back as no details. *)
Definition norm_metadata (v : Value) : Value := if metadata_is_empty v then Null else v.

Definition norm_error (e : ErrorPayload) : ErrorPayload :=
  {| err_code := err_code e; err_message := err_message e; err_status := err_status e;
     err_details := match err_details e with Some Null => None | d => d end |}.

Definition norm_body (b : PacketBody) : PacketBody :=
  match b with
  | ApiRequest i r p a m => ApiRequest i r p a (norm_metadata m)
  | ApiResponse i o s d e m => ApiResponse i o s d (norm_error <$> e) (norm_metadata m)
  | EventEmit i n d a m x => EventEmit i n d a (norm_metadata m) x
  | EventAck i o rc e => EventAck i o rc (norm_error <$> e)
  | AuthRequest c => AuthRequest c
  | AuthResponse o st e => AuthResponse o st (norm_error <$> e)
  end.

(** The ranges of the Rust field types that the JSON form depends on. *)
Definition error_typed (e : ErrorPayload) : Prop := in_u 16 (err_status e).

Definition body_typed (b : PacketBody) : Prop :=
  match b with
  | ApiRequest i _ _ _ _ => in_u 64 i
  | ApiResponse i _ s _ e _ => in_u 64 i /\ in_u 16 s /\ option_Forall error_typed e
  | EventEmit i _ _ _ _ _ => in_u 64 i
  | EventAck i _ _ e => in_u 64 i /\ option_Forall error_typed e
  | AuthRequest _ => True
  | AuthResponse _ st e => option_Forall (in_u 64) st /\ option_Forall error_typed e
  end.

(** The tag each variant is written with. *)
Definition kind_tag (b : PacketBody) : Z :=
  match b with
  | ApiRequest _ _ _ _ _ => K_API_REQUEST
  | ApiResponse _ _ _ _ _ _ => K_API_RESPONSE
  | EventEmit _ _ _ _ _ _ => K_EVENT_EMIT
  | EventAck _ _ _ _ => K_EVENT_ACK
  | AuthRequest _ => K_AUTH_REQUEST
  | AuthResponse _ _ _ => K_AUTH_RESPONSE
  end.

(** ** Lemmas *)

(** Lookups in maps built from literal keys. *)
Ltac lookups :=
  repeat first
    [ rewrite lookup_insert_eq
    | rewrite lookup_insert_ne by done
    | rewrite lookup_delete_ne by done
    | rewrite lookup_empty ].

Lemma deserialize_serialize_error e :
  error_typed e -> deserialize_error (ser_value (serialize_error e)) = Ok (norm_error e).
Proof.
  destruct e as [c m s d]. unfold error_typed, in_u, serialize_error. cbn [err_status].
  intros Hs. destruct d as [d|]; cbn [err_details err_code err_message err_status];
    cbn [is_some usize_from app ser_value entries_value ser_str ser_u deserialize_error].
  - replace (sorted_entries _) with
      [("code", Str c); ("details", d); ("message", Str m); ("status", Num (PosInt s))]
      by (vm_compute; reflexivity).
    cbn. rewrite (proj2 (Z.leb_le s 65535)) by lia. by destruct d.
  - replace (sorted_entries _) with
      [("code", Str c); ("message", Str m); ("status", Num (PosInt s))]
      by (vm_compute; reflexivity).
    cbn. by rewrite (proj2 (Z.leb_le s 65535)) by lia.
Qed.

(** [take_error] on a body map whose "er" entry is [error_entry]. *)
Lemma take_error_entry (map : object_map) error :
  option_Forall error_typed error ->
  map !! "er" = (fun e => ser_value (serialize_error e)) <$> error ->
  take_error map = Ok (norm_error <$> error, delete "er" map).
Proof.
  intros Ht Hm. unfold take_error, map_remove. rewrite Hm.
  destruct error as [e|]; cbn [fmap option_fmap option_map]; [|done].
  inversion Ht. by rewrite deserialize_serialize_error.
Qed.

(** The dispatch on a map that carries its tag. *)
Lemma deserialize_tagged (map : object_map) b :
  map !! "k" = Some (Num (PosInt (kind_tag b))) ->
  deserialize (Object map) =
  match b with
  | ApiRequest _ _ _ _ _ => deserialize_api_request map
  | ApiResponse _ _ _ _ _ _ => deserialize_api_response map
  | EventEmit _ _ _ _ _ _ => deserialize_event_emit map
  | EventAck _ _ _ _ => deserialize_event_ack map
  | AuthRequest _ => deserialize_auth_request map
  | AuthResponse _ _ _ => deserialize_auth_response map
  end.
Proof. intros Hk. unfold deserialize. rewrite Hk. by destruct b. Qed.

(** Moves of fields whose entries are known. *)
Section takes.
Context (map : object_map) (key : string).

Lemma take_u64_Some n :
  map !! key = Some (Num (PosInt n)) -> take_u64 map key = Ok (n, delete key map).
Proof. intros Hm. unfold take_u64, map_remove. by rewrite Hm. Qed.
Lemma take_string_Some s :
  map !! key = Some (Str s) -> take_string map key = Ok (s, delete key map).
Proof. intros Hm. unfold take_string, map_remove. by rewrite Hm. Qed.
Lemma take_object_Some o :
  map !! key = Some (Object o) -> take_object map key = Ok (o, delete key map).
Proof. intros Hm. unfold take_object, map_remove. by rewrite Hm. Qed.
Lemma take_bool_Some b : map !! key = Some (Bool b) -> take_bool map key = (b, delete key map).
Proof. intros Hm. unfold take_bool, map_remove. by rewrite Hm. Qed.
Lemma take_u16_Some n :
  in_u 16 n -> map !! key = Some (Num (PosInt n)) -> take_u16 map key = (n, delete key map).
Proof. intros Hn Hm. unfold take_u16, map_remove. rewrite Hm. cbn. by rewrite wrap_small. Qed.
Lemma take_value_opt v : map !! key = v -> take_value map key = (default Null v, delete key map).
Proof. intros Hm. unfold take_value, map_remove. by rewrite Hm. Qed.
End takes.

Lemma take_attachments_None map :
  map !! "a" = None -> take_attachments map = Ok ([], delete "a" map).
Proof. intros Hm. unfold take_attachments, map_remove. by rewrite Hm. Qed.

(** Rewrite one move after the other; the lookups are in literal maps. *)
Ltac take_step :=
  first
    [ erewrite take_u64_Some by (lookups; reflexivity)
    | erewrite take_string_Some by (lookups; reflexivity)
    | erewrite take_object_Some by (lookups; reflexivity)
    | erewrite take_bool_Some by (lookups; reflexivity)
    | erewrite take_u16_Some by (lookups; first [eassumption | reflexivity])
    | rewrite take_attachments_None by (lookups; reflexivity)
    | match goal with
      | Ht : option_Forall error_typed ?e |- context [take_error ?m] =>
          rewrite (take_error_entry m e Ht) by (lookups; reflexivity)
      end
    | erewrite take_value_opt by (lookups; reflexivity) ];
  msimpl; cbv beta iota.

Lemma deserialize_serialize b :
  body_typed b ->
  deserialize (ser_value (serialize b)) = Ok (set_attachments [] (norm_body b)).
Proof.
  intros Ht. destruct (serialize b) as [v|len es] eqn:Hs; [by destruct b|].
  cbn [ser_value]. rewrite (deserialize_tagged _ b).
  2: { destruct b; cbn [serialize] in Hs; injection Hs as _ <-; cbn [app entries_value];
       apply lookup_insert_eq. }
  destruct b as [i r p a m|i o s d e m|i n d a m x|i o rc e|c|o st e];
    cbn [body_typed] in Ht; destruct_and?; injection Hs as _ <-;
    cbn [norm_body set_attachments]; unfold norm_metadata.
  - unfold deserialize_api_request. destruct (metadata_is_empty m);
      cbn [negb app entries_value ser_value ser_u ser_str]; by repeat take_step.
  - unfold deserialize_api_response. destruct (metadata_is_empty m), e;
      cbn [negb app error_entry entries_value ser_value ser_u ser_bool];
      by repeat take_step.
  - unfold deserialize_event_emit. destruct (metadata_is_empty m);
      cbn [negb app entries_value ser_value ser_u ser_str ser_bool]; by repeat take_step.
  - unfold deserialize_event_ack. destruct e;
      cbn [app error_entry entries_value ser_value ser_u ser_bool]; by repeat take_step.
  - unfold deserialize_auth_request. cbn [entries_value ser_value ser_str]. by repeat take_step.
  - unfold deserialize_auth_response. destruct st, e; unfold map_remove;
      cbn [app error_entry entries_value ser_value ser_u ser_bool]; take_step; lookups;
      by repeat take_step.
Qed.

Lemma mapM_de_bytes bs :
  mapM (M:=result JsonError) (de_uint 255) (map (fun b => Num (PosInt (Z_of_byte b))) bs)
  = Ok (map Z_of_byte bs).
Proof.
  induction bs as [|b bs IH]; [done|]. cbn [map mapM]. unfold mapM in IH |- *. cbn [map].
  cbn [de_uint]. pose proof (Z_of_byte_range b).
  rewrite (proj2 (Z.leb_le _ 255)) by lia. msimpl. by rewrite IH.
Qed.

Lemma map_byte_of_Z_of_byte bs : map byte_of_Z (map Z_of_byte bs) = bs.
Proof. induction bs as [|b bs IH]; cbn; [done|]. by rewrite byte_of_Z_of_byte, IH. Qed.

Lemma insert_entry_perm {A} (e : string * A) l : insert_entry e l ≡ₚ e :: l.
Proof.
  induction l as [|f l IH]; [done|]. cbn. destruct (String.leb _ _); [done|].
  rewrite IH. constructor.
Qed.

Lemma sorted_entries_perm {A} (m : gmap string A) : sorted_entries m ≡ₚ map_to_list m.
Proof.
  unfold sorted_entries. induction (map_to_list m) as [|e l IH]; [done|].
  cbn [foldr]. by rewrite insert_entry_perm, IH.
Qed.

Lemma elem_of_sorted_entries {A} (m : gmap string A) k v :
  (k, v) ∈ sorted_entries m <-> m !! k = Some v.
Proof. by rewrite sorted_entries_perm, elem_of_map_to_list. Qed.

Lemma foldM_inv {E A B} (P : B -> Prop) (f : B -> A -> result E B) l : forall b b',
  P b -> (forall b a b', a ∈ l -> P b -> f b a = Ok b' -> P b') ->
  foldM f b l = Ok b' -> P b'.
Proof.
  induction l as [|a l IH]; intros b b' Hb Hf; [by intros [= <-]|].
  cbn [foldM]. intros (b1 & H1 & H2)%bind_Ok_inv.
  eapply IH; [|..|exact H2]; [|naive_solver set_solver].
  eapply Hf; [|exact Hb|exact H1]. set_solver.
Qed.

(** Inversion of the moves. *)
Definition exact_map (map : object_map) : Prop := json_exact (Object map) = true.

Lemma exact_map_delete key map : exact_map map -> exact_map (delete key map).
Proof. unfold exact_map. rewrite !json_exact_Object. apply map_Forall_delete. Qed.

Lemma exact_map_lookup key map v : exact_map map -> map !! key = Some v -> json_exact v = true.
Proof. unfold exact_map. rewrite json_exact_Object. intros Hm Hv. by apply (Hm key). Qed.

Lemma take_u64_inv map key n map' :
  take_u64 map key = Ok (n, map') -> map !! key = Some (Num (PosInt n)) /\ map' = delete key map.
Proof.
  unfold take_u64, map_remove. destruct (map !! key) as [[| |[]| | |]|]; cbn; naive_solver.
Qed.
Lemma take_string_inv map key s map' :
  take_string map key = Ok (s, map') -> map !! key = Some (Str s) /\ map' = delete key map.
Proof.
  unfold take_string, map_remove. destruct (map !! key) as [[]|]; naive_solver.
Qed.
Lemma take_object_rest map key o map' :
  take_object map key = Ok (o, map') -> map' = delete key map.
Proof. unfold take_object, map_remove. destruct (map !! key) as [[]|]; naive_solver. Qed.
Lemma take_attachments_rest map a map' :
  take_attachments map = Ok (a, map') -> map' = delete "a" map.
Proof.
  unfold take_attachments, map_remove. destruct (map !! "a"); [|naive_solver].
  by intros (? & _ & [= _ <-])%bind_Ok_inv.
Qed.

Lemma exact_uint n : json_exact (Num (PosInt n)) = true -> in_u 64 n.
Proof. cbn. unfold in_u. rewrite andb_true_iff, Z.leb_le, Z.ltb_lt. done. Qed.

Lemma take_u64_typed map key n map' :
  exact_map map -> take_u64 map key = Ok (n, map') -> in_u 64 n /\ exact_map map'.
Proof.
  intros Hm [Hk ->]%take_u64_inv. split; [|by apply exact_map_delete].
  by apply exact_uint, (exact_map_lookup key map).
Qed.

Lemma de_uint_typed w v n :
  0 <= w -> json_exact v = true -> de_uint (2 ^ w - 1) v = Ok n -> in_u w n.
Proof.
  intros Hw Hv. destruct v as [| |[]| | |]; try done. cbn [de_uint].
  apply exact_uint in Hv as [? _]. destruct (Z.leb_spec n0 (2 ^ w - 1)); [|done].
  intros [= <-]. unfold in_u. lia.
Qed.

Lemma visit_error_entry_typed (m : object_map) st e st' :
  exact_map m -> e ∈ sorted_entries m -> option_Forall (in_u 16) (slot_status st) ->
  visit_error_entry st e = Ok st' -> option_Forall (in_u 16) (slot_status st').
Proof.
  intros Hm He Hst. destruct e as [key v]. unfold visit_error_entry.
  apply elem_of_sorted_entries, (exact_map_lookup _ _ _ Hm) in He.
  repeat case_match; try (intros (? & _ & [= <-])%bind_Ok_inv; done); [|naive_solver].
  intros (n & Hn & [= <-])%bind_Ok_inv. constructor. by apply (de_uint_typed 16) in Hn.
Qed.

Lemma seq_next_inv {A} (f : Value -> result JsonError A) i vs a vs' :
  seq_next f i vs = Ok (a, vs') -> exists v, vs = v :: vs' /\ f v = Ok a.
Proof. destruct vs; [done|]. cbn. intros (? & ? & [= <- <-])%bind_Ok_inv. eauto. Qed.

Lemma deserialize_error_typed v e :
  json_exact v = true -> deserialize_error v = Ok e -> error_typed e.
Proof.
  intros Hv. destruct v as [| | | |vs|m]; try done; cbn [deserialize_error].
  - intros ([c vs1] & (v1 & -> & _)%seq_next_inv & H1)%bind_Ok_inv.
    apply bind_Ok_inv in H1 as ([msg vs2] & (v2 & -> & _)%seq_next_inv & H2).
    apply bind_Ok_inv in H2 as ([st vs3] & (v3 & -> & Hst)%seq_next_inv & H3).
    apply bind_Ok_inv in H3 as ([d vs4] & (v4 & -> & _)%seq_next_inv & H4).
    destruct vs4; [|done]. injection H4 as <-. unfold error_typed; cbn [err_status].
    cbn [json_exact forallb] in Hv. rewrite !andb_true_iff in Hv. destruct_and!.
    by apply (de_uint_typed 16) in Hst.
  - intros (st & Hst & H1)%bind_Ok_inv.
    apply (foldM_inv (fun st => option_Forall (in_u 16) (slot_status st))) in Hst;
      [|constructor|intros; by eapply visit_error_entry_typed].
    apply bind_Ok_inv in H1 as (c & _ & H1). apply bind_Ok_inv in H1 as (msg & _ & H1).
    apply bind_Ok_inv in H1 as (s & Hs & [= <-]). unfold error_typed; cbn [err_status].
    destruct (slot_status st); [|done]. injection Hs as <-. by inversion Hst.
Qed.

Lemma take_error_typed map e map' :
  exact_map map -> take_error map = Ok (e, map') ->
  option_Forall error_typed e /\ exact_map map'.
Proof.
  intros Hm. unfold take_error, map_remove. destruct (map !! "er") as [v|] eqn:Hv.
  - intros (x & Hx & [= <- <-])%bind_Ok_inv. split; [|by apply exact_map_delete].
    constructor. eapply deserialize_error_typed, Hx. by apply (exact_map_lookup "er" map).
  - intros [= <- <-]. split; [constructor|by apply exact_map_delete].
Qed.

(** Successful deserialization, by variant. *)
Lemma deserialize_inv v b :
  deserialize v = Ok b ->
  exists map, v = Object map /\ map !! "k" = Some (Num (PosInt (kind_tag b))).
Proof.
  destruct v as [| | | | |map]; try done. cbn [deserialize].
  intros (k & Hk & Hd)%bind_Ok_inv. exists map. split; [done|].
  destruct (map !! "k") as [[| |[k'| |]| | |]|]; try done. injection Hk as ->. do 3 f_equal.
  destruct (255 <? k); [done|].
  repeat match type of Hd with
         | (if Z.eqb ?k ?t then _ else _) = _ => destruct (Z.eqb_spec k t)
         end; [..|done];
    unfold deserialize_api_request, deserialize_event_emit, deserialize_api_response,
      deserialize_event_ack, deserialize_auth_request, deserialize_auth_response in Hd;
    repeat match type of Hd with
           | _ ≫= _ = Ok _ => apply bind_Ok_inv in Hd as ([? ?] & _ & Hd)
           | context [take_value ?m ?k] => destruct (take_value m k)
           | context [take_bool ?m ?k] => destruct (take_bool m k)
           | context [take_u16 ?m ?k] => destruct (take_u16 m k)
           | context [map_remove ?m ?k] => destruct (map_remove m k)
           end; by injection Hd as <-.
Qed.

Lemma returns_mapM {A B} (f : A -> result JsonError B) l :
  (forall a, returns (f a)) -> returns (mapM f l).
Proof.
  intros Hf. induction l as [|a l IH]; [done|]. cbn [mapM].
  apply errs_in_bind; [apply Hf|]. intros b _. apply errs_in_bind; [exact IH|done].
Qed.

Lemma returns_foldM {A B} (f : B -> A -> result JsonError B) l :
  (forall b a, returns (f b a)) -> forall b, returns (foldM f b l).
Proof.
  intros Hf. induction l as [|a l IH]; intros b; [done|]. cbn [foldM].
  apply errs_in_bind; [apply Hf|]. intros b' _. apply IH.
Qed.

Ltac solve_returns known :=
  repeat first
    [ done
    | known
    | apply errs_in_ok_or
    | apply returns_mapM; intros
    | apply returns_foldM; intros
    | apply errs_in_bind; [|intros ? _]
    | match goal with
      | |- errs_in _ (let '(_, _) := ?x in _) => destruct x
      | |- returns (let '(_, _) := ?x in _) => destruct x
      | |- errs_in _ match ?x with _ => _ end => destruct x
      | |- returns match ?x with _ => _ end => destruct x
      end ].

Lemma returns_de_bytes v : returns (de_bytes v).
Proof. unfold de_bytes, de_vec, de_uint. solve_returns fail. Qed.

Lemma returns_deserialize_attachment v : returns (deserialize_attachment v).
Proof.
  unfold deserialize_attachment, att_visit_map, att_visit_seq, visit_entry, seq_next, seq_end,
    de_string. solve_returns ltac:(apply returns_de_bytes).
Qed.

Lemma returns_deserialize_error v : returns (deserialize_error v).
Proof.
  unfold deserialize_error, visit_error_entry, seq_next, seq_end, de_string, de_uint,
    de_option_value. solve_returns fail.
Qed.

Lemma returns_deserialize v : returns (deserialize v).
Proof.
  unfold deserialize, deserialize_api_request, deserialize_event_emit, deserialize_api_response,
    deserialize_event_ack, deserialize_auth_request, deserialize_auth_response, take_u64,
    take_string, take_object, take_attachments, take_error, de_vec.
  solve_returns ltac:(apply returns_deserialize_attachment || apply returns_deserialize_error).
Qed.

#[export] Hint Resolve returns_deserialize : wscall.

(** ** Properties *)

(** C29: JSON round trip of packet bodies.  The document [PacketBody::serialize]
    emits for a body whose ids, statuses and JSON payloads are in range is
    printed, and what is parsed back deserializes to the same body up to the
    documented losses: attachments are not in the JSON, empty metadata and null
    error details become absent. *)
Theorem packet_json_roundtrip {J : SerdeJson} {L : SerdeJsonLaws J} b :
  body_typed b -> ser_exact (serialize b) = true ->
  exists text,
    to_writer (serialize b) = Ok text
    /\ (from_slice text ≫= deserialize) = Ok (set_attachments [] (norm_body b)).
Proof.
  intros Ht Hx. destruct (from_slice_to_writer _ Hx) as (text & Hw & Hr).
  exists text. split; [done|]. rewrite Hr. msimpl. by apply deserialize_serialize.
Qed.

Definition sample_response : PacketBody :=
  ApiResponse 7 false 404 (Object {["blob" := Str "aa"]})
    (Some (mkErrorPayload "not_found" "route not found" 404 None)) empty_object.

Lemma sample_response_ok :
  body_typed sample_response /\ ser_exact (serialize sample_response) = true.
Proof. split; [|vm_compute; reflexivity]. cbn. unfold in_u, error_typed. cbn.
  split_and!; try lia. constructor. unfold in_u; cbn; lia. Qed.

Lemma packet_json_roundtrip_witness :
  body_typed sample_response /\ ser_exact (serialize sample_response) = true /\
  exists text,
    to_writer (SerdeJson:=bit_json) (serialize sample_response) = Ok text
    /\ (from_slice (SerdeJson:=bit_json) text ≫= deserialize)
       = Ok (set_attachments [] (norm_body sample_response)).
Proof.
  split_and!; [apply sample_response_ok..|].
  apply (packet_json_roundtrip (J:=bit_json) (L:=bit_json_laws)); apply sample_response_ok.
Defined.

(** C34: what [PacketBody::deserialize] accepts is well typed and tagged.  A value
    it accepts is an object whose [k] entry is the tag of the variant it
    returns, and every id, status and timeout of the result is in the range of
    its Rust type ([status] is truncated to 16 bits, never refused). *)
Theorem deserialize_sound v b :
  json_exact v = true -> deserialize v = Ok b ->
  body_typed b
  /\ exists map, v = Object map /\ map !! "k" = Some (Num (PosInt (kind_tag b))).
Proof.
  intros Hv Hd. pose proof (deserialize_inv v b Hd) as (map & -> & Hk).
  split; [|by eauto]. rewrite (deserialize_tagged _ _ Hk) in Hd. change (exact_map map) in Hv.
  destruct b; cbn [body_typed];
    unfold deserialize_api_request, deserialize_event_emit, deserialize_api_response,
      deserialize_event_ack, deserialize_auth_response, take_bool, take_u16, take_value,
      map_remove in Hd; [..|done|]; cbv beta iota zeta in Hd.
  - apply bind_Ok_inv in Hd as ([i m1] & [Hi _]%take_u64_typed & Hd); [|done].
    repeat (apply bind_Ok_inv in Hd as ([? ?] & _ & Hd)). by simplify_eq.
  - apply bind_Ok_inv in Hd as ([i m1] & [Hi H1]%take_u64_typed & Hd); [|done].
    apply bind_Ok_inv in Hd as ([e m2] & [He _]%take_error_typed & Hd);
      [|by repeat apply exact_map_delete].
    simplify_eq. split_and!; [done|by apply wrap_range|done].
  - apply bind_Ok_inv in Hd as ([i m1] & [Hi _]%take_u64_typed & Hd); [|done].
    repeat (apply bind_Ok_inv in Hd as ([? ?] & _ & Hd)). by simplify_eq.
  - apply bind_Ok_inv in Hd as ([i m1] & [Hi H1]%take_u64_typed & Hd); [|done].
    apply bind_Ok_inv in Hd as ([e m2] & [He _]%take_error_typed & Hd);
      [|by repeat apply exact_map_delete].
    by simplify_eq.
  - apply bind_Ok_inv in Hd as ([e m2] & [He _]%take_error_typed & Hd);
      [|by repeat apply exact_map_delete].
    simplify_eq. split; [|done].
    destruct (delete "o" map !! "st") as [v|] eqn:Hst; [|constructor].
    apply exact_map_lookup in Hst; [|by apply exact_map_delete].
    destruct v as [| |[n| |]| | |]; cbn; try constructor. by apply exact_uint.
Qed.

Lemma deserialize_sound_witness :
  deserialize (ser_value (serialize (AuthResponse true (Some 30) None)))
    = Ok (AuthResponse true (Some 30) None)
  /\ body_typed (AuthResponse true (Some 30) None).
Proof.
  split; [vm_compute; reflexivity|].
  apply (deserialize_sound (ser_value (serialize (AuthResponse true (Some 30) None))));
    vm_compute; reflexivity.
Defined.

(** Every document [PacketBody::serialize] emits is well formed: the field
    count announced to [serialize_map] is the number of entries written, no key
    is written twice, in the body and in its error payload. *)
Theorem serialize_well_formed b : ser_distinct (serialize b) = true.
Proof.
  destruct b as [i r p a m|i o s d e m|i n d a m x|i o rc e|c|o st e]; cbn [serialize];
    try destruct (metadata_is_empty m); try destruct e as [[c' m' s' [d'|]]|];
    try destruct st; vm_compute; reflexivity.
Qed.

(** JSON round trip of attachments: [FileAttachment::deserialize] reads back
    what [FileAttachment::serialize] writes, whatever the data bytes are. *)
Lemma attachment_json_roundtrip a :
  deserialize_attachment (ser_value (serialize_attachment a)) = Ok a.
Proof.
  destruct a as [i n c d]. cbn [serialize_attachment ser_value entries_value ser_str
    att_id att_name att_content_type att_data deserialize_attachment].
  unfold att_visit_map. set (dv := Array _).
  replace (sorted_entries _) with
    [("content_type", Str c); ("data", dv); ("id", Str i); ("name", Str n)]
    by (clearbody dv; vm_compute; reflexivity).
  assert (Hd : de_bytes dv = Ok d).
  { unfold de_bytes, de_vec, dv. rewrite mapM_de_bytes. msimpl.
    by rewrite map_byte_of_Z_of_byte. }
  clearbody dv. unfold foldM, visit_entry. cbn. by rewrite Hd.
Qed.
