(* ===== verification/Codec.v ===== *)
(** * The frame codec (FrameCodec)

    Frame: [frame_len:u32 | message_type:u8 | payload]; payload, before
    encryption: [meta_len:u32 | JSON | att_count:u8 | attachment sections].
    ChaCha20-Poly1305 and AES-256-GCM are third-party code: the class [Crypto]
    carries the two algorithms and [CryptoLaws] what the codec relies on.
    [getrandom] is an argument of the operations that call it. *)

From S2P Require Import Prelude Utf8 Json Protocol Attachment PacketJson.
#[local] Open Scope Z_scope.

(** ** Authenticated encryption *)
Record AeadAlg : Type := mkAeadAlg {
  Cipher : Type;
  new_from_slice : bytes -> option Cipher;
  aead_encrypt : Cipher -> bytes -> bytes -> option bytes;
  aead_decrypt : Cipher -> bytes -> bytes -> option bytes;
}.

Record AeadLaws (A : AeadAlg) : Prop := mkAeadLaws {
  (** A 32-byte key is always valid. *)
  aead_new key : blen key = 32 -> is_Some (new_from_slice A key);
  (** Decryption with the same key and nonce inverts encryption. *)
  aead_decrypt_encrypt c nonce p ct :
    aead_encrypt A c nonce p = Some ct -> aead_decrypt A c nonce ct = Some p;
  (** Encryption under a 96-bit nonce succeeds on payloads below 4 GiB (both
      algorithms' limits are larger) and appends a 16-byte tag. *)
  aead_encrypt_total c nonce p :
    blen nonce = 12 -> blen p < 2 ^ 32 ->
    exists ct, aead_encrypt A c nonce p = Some ct /\ blen ct = blen p + 16;
}.

Class Crypto : Type := {
  chacha20poly1305 : AeadAlg;
  aes256gcm : AeadAlg;
}.

Class CryptoLaws (C : Crypto) : Prop := {
  chacha_laws : AeadLaws chacha20poly1305;
  aes_laws : AeadLaws aes256gcm;
}.

Section Codec.
Context {J : SerdeJson} {C : Crypto}.

Record FrameCodec : Type := mkFrameCodec {
  aes256_cipher : option (Cipher aes256gcm);
  chacha20_cipher : option (Cipher chacha20poly1305);
  wire_encryption : EncryptionKind;
  max_frame_bytes : Z;
}.

(** [FrameCodec::default] and [FrameCodec::plaintext]. *)
Definition plaintext : FrameCodec :=
  {| aes256_cipher := None; chacha20_cipher := None; wire_encryption := NoEncryption;
     max_frame_bytes := DEFAULT_MAX_FRAME_BYTES |}.

Definition with_chacha20_key (codec : FrameCodec) (key : bytes) : result ProtocolError FrameCodec :=
  cipher ← expect (new_from_slice chacha20poly1305 key);
  Ok {| aes256_cipher := aes256_cipher codec; chacha20_cipher := Some cipher;
        wire_encryption := ChaCha20; max_frame_bytes := max_frame_bytes codec |}.

Definition with_aes256_key (codec : FrameCodec) (key : bytes) : result ProtocolError FrameCodec :=
  cipher ← expect (new_from_slice aes256gcm key);
  Ok {| aes256_cipher := Some cipher; chacha20_cipher := chacha20_cipher codec;
        wire_encryption := Aes256; max_frame_bytes := max_frame_bytes codec |}.

Definition with_max_frame_bytes (codec : FrameCodec) (max : Z) : FrameCodec :=
  {| aes256_cipher := aes256_cipher codec; chacha20_cipher := chacha20_cipher codec;
     wire_encryption := wire_encryption codec; max_frame_bytes := max |}.

(** ** Encryption of the payload *)
Definition encrypt_chacha20 (codec : FrameCodec) (entropy : result string bytes)
    (payload : bytes) : result ProtocolError bytes :=
  cipher ← ok_or (MissingEncryptionKey "chacha20") (chacha20_cipher codec);
  nonce_bytes ← map_err Random entropy;
  ciphertext ← ok_or (EncryptionFailed "chacha20")
                 (aead_encrypt chacha20poly1305 cipher nonce_bytes payload);
  Ok (nonce_bytes ++ ciphertext).

Definition decrypt_chacha20 (codec : FrameCodec) (payload : bytes) :
    result ProtocolError bytes :=
  if bool_decide (blen payload < CHACHA20_NONCE_LEN)
  then Err (EncryptedPayloadTooShort "chacha20" CHACHA20_NONCE_LEN (blen payload))
  else
    cipher ← ok_or (MissingEncryptionKey "chacha20") (chacha20_cipher codec);
    nonce_bytes ← slice payload 0 CHACHA20_NONCE_LEN;
    ciphertext ← slice_from payload CHACHA20_NONCE_LEN;
    ok_or (DecryptionFailed "chacha20") (aead_decrypt chacha20poly1305 cipher nonce_bytes ciphertext).

Definition encrypt_aes256 (codec : FrameCodec) (entropy : result string bytes)
    (payload : bytes) : result ProtocolError bytes :=
  cipher ← ok_or (MissingEncryptionKey "aes256") (aes256_cipher codec);
  nonce_bytes ← map_err Random entropy;
  ciphertext ← ok_or (EncryptionFailed "aes256")
                 (aead_encrypt aes256gcm cipher nonce_bytes payload);
  Ok (nonce_bytes ++ ciphertext).

Definition decrypt_aes256 (codec : FrameCodec) (payload : bytes) :
    result ProtocolError bytes :=
  if bool_decide (blen payload < AES256_NONCE_LEN)
  then Err (EncryptedPayloadTooShort "aes256" AES256_NONCE_LEN (blen payload))
  else
    cipher ← ok_or (MissingEncryptionKey "aes256") (aes256_cipher codec);
    nonce_bytes ← slice payload 0 AES256_NONCE_LEN;
    ciphertext ← slice_from payload AES256_NONCE_LEN;
    ok_or (DecryptionFailed "aes256") (aead_decrypt aes256gcm cipher nonce_bytes ciphertext).

(** ** Encoding *)

(** [for att in attachments { att.write_wire(&mut buf) }]. *)
Definition write_attachments (atts : list FileAttachment) (buf : bytes) : bytes :=
  fold_left (fun buf att => write_wire att buf) atts buf.

(** The plaintext fast path: one buffer, the two length prefixes patched in
    place once known. *)
Definition encode_plain (codec : FrameCodec) (packet : PacketEnvelope) :
    result ProtocolError bytes :=
  let max_payload := saturating_sub (max_frame_bytes codec) 5 in
  let atts := attachments (env_body packet) in
  let frame := [] ++ replicate 4 x00 in
  let frame := frame ++ [message_type_u8 (env_message_type packet)] in
  let frame := frame ++ replicate 4 x00 in
  json ← map_err Json (to_writer (serialize (env_body packet)));
  let frame := frame ++ json in
  let json_len := blen frame - 9 in
  let frame := frame ++ [byte_of_Z (blen atts)] in
  let frame := write_attachments atts frame in
  let payload_len := blen frame - 5 in
  if bool_decide (max_payload < payload_len) then Err (PayloadTooLarge payload_len max_payload)
  else
    let frame_len := cast_u32 (blen frame - 4) in
    frame ← copy_into frame 0 (to_be_bytes frame_len);
    copy_into frame 5 (to_be_bytes (cast_u32 json_len)).

(** The encrypted path. *)
Definition encode_encrypted (codec : FrameCodec) (entropy : result string bytes)
    (packet : PacketEnvelope) : result ProtocolError bytes :=
  let max_payload := saturating_sub (max_frame_bytes codec) 5 in
  let atts := attachments (env_body packet) in
  let composite := [] ++ replicate 4 x00 in
  json ← map_err Json (to_writer (serialize (env_body packet)));
  let composite := composite ++ json in
  let json_len := blen composite - 4 in
  composite ← copy_into composite 0 (to_be_bytes (cast_u32 json_len));
  let composite := composite ++ [byte_of_Z (blen atts)] in
  let composite := write_attachments atts composite in
  if bool_decide (max_payload < blen composite)
  then Err (PayloadTooLarge (blen composite) max_payload)
  else
    payload ← match wire_encryption codec with
              | ChaCha20 => encrypt_chacha20 codec entropy composite
              | Aes256 => encrypt_aes256 codec entropy composite
              | NoEncryption => Panic
              end;
    if bool_decide (max_payload < blen payload)
    then Err (PayloadTooLarge (blen payload) max_payload)
    else
      let frame_len := 1 + blen payload in
      Ok (to_be_bytes (cast_u32 frame_len)
          ++ [message_type_u8 (env_message_type packet)] ++ payload).

(** [FrameCodec::encode]. *)
Definition encode (codec : FrameCodec) (entropy : result string bytes)
    (packet : PacketEnvelope) : result ProtocolError bytes :=
  if bool_decide (wire_encryption codec = NoEncryption)
  then encode_plain codec packet
  else encode_encrypted codec entropy packet.

(** ** Decoding *)

(** [for _ in 0..att_count { ... }]: the attachments and the unread bytes. *)
Fixpoint read_attachments (count : nat) (att_data : bytes) :
    result ProtocolError (list FileAttachment * bytes) :=
  match count with
  | O => Ok ([], att_data)
  | S count =>
      '(att, rest) ← read_wire att_data;
      '(atts, rest) ← read_attachments count rest;
      Ok (att :: atts, rest)
  end.

(** The composite payload: metadata, attachment sections, JSON body. *)
Definition decode_composite (composite : bytes) : result ProtocolError PacketBody :=
  if bool_decide (blen composite < 5) then Err FrameTooShort
  else
    b0 ← index composite 0;
    b1 ← index composite 1;
    b2 ← index composite 2;
    b3 ← index composite 3;
    let meta_len := from_be_bytes b0 b1 b2 b3 in
    if bool_decide (blen composite < 4 + meta_len + 1) then Err FrameTooShort
    else
      json_slice ← slice composite 4 (4 + meta_len);
      count ← index composite (4 + meta_len);
      att_data ← slice_from composite (4 + meta_len + 1);
      '(atts, _) ← read_attachments (Z.to_nat (Z_of_byte count)) att_data;
      body ← map_err Json (from_slice json_slice ≫= deserialize);
      Ok (set_attachments atts body).

(** [FrameCodec::decode]. *)
Definition decode (codec : FrameCodec) (frame : bytes) : result ProtocolError PacketEnvelope :=
  if bool_decide (blen frame < 5) then Err FrameTooShort
  else
    f0 ← index frame 0;
    f1 ← index frame 1;
    f2 ← index frame 2;
    f3 ← index frame 3;
    let declared := from_be_bytes f0 f1 f2 f3 in
    let actual := blen frame - 4 in
    if bool_decide (declared <> actual) then Err (FrameLengthMismatch declared actual)
    else if bool_decide (max_frame_bytes codec < blen frame)
    then Err (FrameTooLarge (blen frame) (max_frame_bytes codec))
    else
      t ← index frame 4;
      mt ← message_type_try_from t;
      payload ← slice_from frame 5;
      composite ← match wire_encryption codec with
                  | NoEncryption => Ok payload
                  | ChaCha20 => decrypt_chacha20 codec payload
                  | Aes256 => decrypt_aes256 codec payload
                  end;
      body ← decode_composite composite;
      if bool_decide (message_type body <> mt) then Err MessageTypeMismatch
      else Ok {| env_message_type := mt; env_encryption := wire_encryption codec;
                 env_body := body |}.

(** [encode_frame] and [decode_frame]. *)
Definition encode_frame (packet : PacketEnvelope) : result ProtocolError bytes :=
  encode plaintext (Err "no entropy is drawn") packet.
Definition decode_frame (frame : bytes) : result ProtocolError PacketEnvelope :=
  decode plaintext frame.

(** ** The reference layout *)

(** Sections in order. *)
Definition sections (atts : list FileAttachment) : bytes :=
  concat (map (fun a => write_wire a []) atts).

Definition composite_layout (text : bytes) (atts : list FileAttachment) : bytes :=
  to_be_bytes (blen text) ++ text ++ byte_of_Z (blen atts) :: sections atts.

Definition frame_layout (mt : MessageType) (payload : bytes) : bytes :=
  to_be_bytes (1 + blen payload) ++ message_type_u8 mt :: payload.

(** The payload of a composite, sealed as the wire mode asks. *)
Definition seal (codec : FrameCodec) (entropy : result string bytes) (comp : bytes) :
    result ProtocolError bytes :=
  match wire_encryption codec with
  | NoEncryption => Ok comp
  | ChaCha20 => encrypt_chacha20 codec entropy comp
  | Aes256 => encrypt_aes256 codec entropy comp
  end.

(** What [encode] means: lay the composite out, seal it, frame it, refuse what
    does not fit. *)
Definition encode_spec (codec : FrameCodec) (entropy : result string bytes)
    (packet : PacketEnvelope) : result ProtocolError bytes :=
  let limit := saturating_sub (max_frame_bytes codec) 5 in
  text ← map_err Json (to_writer (serialize (env_body packet)));
  let comp := composite_layout text (attachments (env_body packet)) in
  if bool_decide (limit < blen comp) then Err (PayloadTooLarge (blen comp) limit)
  else
    payload ← seal codec entropy comp;
    if bool_decide (limit < blen payload) then Err (PayloadTooLarge (blen payload) limit)
    else Ok (frame_layout (env_message_type packet) payload).

(** Bytes that sealing adds: the nonce and the authentication tag. *)
Definition overhead (k : EncryptionKind) : Z :=
  match k with NoEncryption => 0 | _ => 28 end.

(** Bodies the JSON part and the attachment sections represent. *)
Definition body_carried (b : PacketBody) : Prop :=
  body_typed b /\ ser_exact (serialize b) = true /\ Forall att_wf (attachments b).

(** Bodies a frame can carry without loss. *)
Definition body_ok (b : PacketBody) : Prop :=
  body_carried b /\ blen (attachments b) < 256.

(** A codec that has the key its wire mode needs. *)
Definition codec_keyed (codec : FrameCodec) : Prop :=
  match wire_encryption codec with
  | NoEncryption => True
  | ChaCha20 => is_Some (chacha20_cipher codec)
  | Aes256 => is_Some (aes256_cipher codec)
  end.

(** ** Lemmas *)
Lemma write_attachments_sections atts : forall buf,
  write_attachments atts buf = buf ++ sections atts.
Proof.
  unfold sections. induction atts as [|a atts IH]; intros buf;
    unfold write_attachments; cbn [fold_left map concat]; [by rewrite app_nil_r|].
  fold (write_attachments atts (write_wire a buf)). rewrite IH.
  by rewrite (write_wire_section a buf), (write_wire_section a []), <- app_assoc.
Qed.

Lemma blen_composite_layout text atts : 5 <= blen (composite_layout text atts).
Proof.
  unfold composite_layout. pose proof (blen_nonneg text). pose proof (blen_nonneg (sections atts)).
  len_lia.
Qed.

Lemma blen_frame_layout mt payload : blen (frame_layout mt payload) = 5 + blen payload.
Proof. unfold frame_layout. len_lia. Qed.

(** The fast path, with its placeholders and patches, writes the layout. *)
Lemma encode_plain_layout codec packet text :
  to_writer (serialize (env_body packet)) = Ok text ->
  encode_plain codec packet =
  let comp := composite_layout text (attachments (env_body packet)) in
  let max_payload := saturating_sub (max_frame_bytes codec) 5 in
  if bool_decide (max_payload < blen comp) then Err (PayloadTooLarge (blen comp) max_payload)
  else Ok (frame_layout (env_message_type packet) comp).
Proof.
  intros Hw. unfold encode_plain. rewrite Hw. msimpl. cbv zeta.
  set (atts := attachments (env_body packet)). set (mt := message_type_u8 _).
  rewrite write_attachments_sections.
  set (tail := text ++ byte_of_Z (blen atts) :: sections atts).
  match goal with |- context [copy_into ?f 0 _] => set (frame := f) end.
  assert (Hf : frame = [] ++ replicate 4 x00 ++ [mt] ++ replicate 4 x00 ++ tail).
  { unfold frame, tail. cbn [app replicate]. rewrite <- !app_assoc. done. }
  assert (Hl : blen frame = 9 + blen tail) by (rewrite Hf; len_lia).
  assert (Hc : blen (composite_layout text atts) = 4 + blen tail)
    by (unfold composite_layout, tail; len_lia).
  replace (blen frame - 5) with (blen (composite_layout text atts)) by lia.
  case_bool_decide; [done|].
  assert (Hp : forall s, blen s = 4 -> copy_into (E:=ProtocolError) frame 0 s
                = Ok (s ++ mt :: replicate 4 x00 ++ tail)).
  { intros s Hs. rewrite Hf. by apply (copy_into_mid [] (replicate 4 x00)). }
  rewrite Hp by done. msimpl.
  rewrite !to_be_bytes_cast. cbn [app].
  replace (to_be_bytes (blen frame - 4) ++ mt :: replicate 4 x00 ++ tail)
    with ((to_be_bytes (blen frame - 4) ++ [mt]) ++ replicate 4 x00 ++ tail)
    by (by rewrite <- app_assoc).
  rewrite copy_into_mid by (done || len_lia). f_equal.
  unfold frame_layout, composite_layout. fold atts tail mt.
  replace (1 + _) with (blen frame - 4) by len_lia.
  replace (blen _ - 9) with (blen text) by len_lia.
  by rewrite <- app_assoc.
Qed.

Lemma encode_encrypted_layout codec entropy packet text :
  to_writer (serialize (env_body packet)) = Ok text ->
  encode_encrypted codec entropy packet =
  let comp := composite_layout text (attachments (env_body packet)) in
  let max_payload := saturating_sub (max_frame_bytes codec) 5 in
  if bool_decide (max_payload < blen comp) then Err (PayloadTooLarge (blen comp) max_payload)
  else
    payload ← match wire_encryption codec with
              | ChaCha20 => encrypt_chacha20 codec entropy comp
              | Aes256 => encrypt_aes256 codec entropy comp
              | NoEncryption => Panic
              end;
    if bool_decide (max_payload < blen payload)
    then Err (PayloadTooLarge (blen payload) max_payload)
    else Ok (frame_layout (env_message_type packet) payload).
Proof.
  intros Hw. unfold encode_encrypted. rewrite Hw. msimpl. cbv zeta.
  set (atts := attachments (env_body packet)).
  rewrite (copy_into_mid [] (replicate 4 x00) text) by done. msimpl.
  rewrite write_attachments_sections, to_be_bytes_cast.
  match goal with |- context [blen ?c - 4] =>
    replace (blen c - 4) with (blen text) by len_lia end.
  replace (_ ++ sections atts) with (composite_layout text atts).
  2: { unfold composite_layout. cbn [app]. by rewrite <- !app_assoc. }
  case_bool_decide; [done|]. unfold frame_layout.
  destruct (match wire_encryption codec with NoEncryption => _ | _ => _ end); [|done..].
  msimpl. by rewrite to_be_bytes_cast.
Qed.

(** Both paths of [encode] meet the specification. *)
Lemma encode_eq_spec codec entropy packet :
  encode codec entropy packet = encode_spec codec entropy packet.
Proof.
  unfold encode, encode_spec, seal.
  destruct (to_writer (serialize (env_body packet))) as [text|e|] eqn:Hw.
  2,3: unfold encode_plain, encode_encrypted; rewrite Hw; by case_bool_decide.
  msimpl. case_bool_decide as Henc.
  - rewrite (encode_plain_layout _ _ _ Hw), Henc. cbv zeta. msimpl. by case_bool_decide.
  - rewrite (encode_encrypted_layout _ _ _ _ Hw). cbv zeta.
    by destruct (wire_encryption codec).
Qed.

Lemma read_attachments_sections atts : forall n rest,
  Forall att_wf atts -> (n <= length atts)%nat ->
  read_attachments n (sections atts ++ rest) = Ok (take n atts, sections (drop n atts) ++ rest).
Proof.
  induction atts as [|a atts IH]; intros [|n] rest Hwf Hn; cbn [length] in *; [done|lia|done|].
  inversion Hwf as [|? ? Ha Hatts]; subst. cbn [read_attachments].
  unfold sections at 1. cbn [map concat]. rewrite <- app_assoc.
  rewrite attachment_read by done. msimpl. fold (sections atts).
  by rewrite IH by (done || lia).
Qed.

(** Reading back a composite payload whose sections are read. *)
Lemma decode_composite_wire text count data atts rest body :
  blen text < 2 ^ 32 ->
  read_attachments (Z.to_nat (Z_of_byte count)) data = Ok (atts, rest) ->
  (from_slice text ≫= deserialize) = Ok body ->
  decode_composite (to_be_bytes (blen text) ++ text ++ count :: data) =
  Ok (set_attachments atts body).
Proof.
  intros Ht Ha Hb. unfold decode_composite.
  set (comp := _ ++ text ++ count :: data).
  pose proof (blen_nonneg text). pose proof (blen_nonneg data).
  assert (Hlen : blen comp = 4 + blen text + 1 + blen data) by (unfold comp; len_lia).
  rewrite bool_decide_false by lia.
  destruct (index_be_head (E:=ProtocolError) (blen text) (text ++ count :: data))
    as (Hi0 & Hi1 & Hi2 & Hi3).
  fold comp in Hi0, Hi1, Hi2, Hi3. rewrite Hi0, Hi1, Hi2, Hi3.
  msimpl. rewrite (from_to_be_bytes (blen text)), Z.mod_small by (done || lia).
  rewrite bool_decide_false by lia. unfold comp.
  rewrite slice_mid by len_lia. msimpl.
  rewrite app_assoc, index_app_r by len_lia.
  replace (4 + blen text - _) with 0 by len_lia. rewrite index_cons_0. msimpl.
  change (count :: data) with ([count] ++ data).
  rewrite app_assoc, slice_from_app by len_lia. msimpl.
  rewrite Ha. msimpl. by rewrite Hb.
Qed.

(** The count byte holds the number of attachments modulo 256. *)
Lemma decode_composite_layout text atts body :
  Forall att_wf atts -> blen text < 2 ^ 32 ->
  (from_slice text ≫= deserialize) = Ok body ->
  decode_composite (composite_layout text atts) =
  Ok (set_attachments (take (Z.to_nat (blen atts mod 256)) atts) body).
Proof.
  intros Hwf Ht Hb. unfold composite_layout. eapply decode_composite_wire; [done| |done].
  rewrite Z_of_byte_of_Z, <- (app_nil_r (sections atts)).
  apply read_attachments_sections; [done|].
  unfold blen. pose proof (Z.mod_le (Z.of_nat (length atts)) 256). lia.
Qed.

(** The payload a frame carries, decrypted. *)
Definition open_payload (codec : FrameCodec) (payload : bytes) : result ProtocolError bytes :=
  match wire_encryption codec with
  | NoEncryption => Ok payload
  | ChaCha20 => decrypt_chacha20 codec payload
  | Aes256 => decrypt_aes256 codec payload
  end.

(** Decoding a frame that has the layout and fits the limits. *)
Lemma decode_frame_layout codec mt payload :
  blen payload + 1 < 2 ^ 32 -> blen payload + 5 <= max_frame_bytes codec ->
  decode codec (frame_layout mt payload) =
  (composite ← open_payload codec payload;
   body ← decode_composite composite;
   if bool_decide (message_type body <> mt) then Err MessageTypeMismatch
   else Ok {| env_message_type := mt; env_encryption := wire_encryption codec;
              env_body := body |}).
Proof.
  intros Hp Hm. unfold decode. pose proof (blen_nonneg payload).
  rewrite blen_frame_layout. rewrite bool_decide_false by lia.
  destruct (index_be_head (E:=ProtocolError) (1 + blen payload)
    (message_type_u8 mt :: payload)) as (Hi0 & Hi1 & Hi2 & Hi3).
  fold (frame_layout mt payload) in Hi0, Hi1, Hi2, Hi3. rewrite Hi0, Hi1, Hi2, Hi3. msimpl.
  rewrite (from_to_be_bytes (1 + blen payload)), Z.mod_small by (done || lia).
  rewrite bool_decide_false by lia. rewrite bool_decide_false by lia.
  unfold frame_layout. rewrite index_app_r by done. change (4 - blen _) with 0.
  rewrite index_cons_0. msimpl. rewrite message_type_try_from_u8. msimpl.
  change (to_be_bytes (1 + blen payload) ++ message_type_u8 mt :: payload)
    with ((to_be_bytes (1 + blen payload) ++ [message_type_u8 mt]) ++ payload).
  by rewrite slice_from_app by done.
Qed.

(** A frame that decodes has the layout. *)
Lemma decode_inv codec frame env :
  decode codec frame = Ok env ->
  exists payload composite,
    frame = frame_layout (env_message_type env) payload
    /\ blen frame <= max_frame_bytes codec
    /\ blen payload + 1 < 2 ^ 32
    /\ open_payload codec payload = Ok composite
    /\ decode_composite composite = Ok (env_body env)
    /\ message_type (env_body env) = env_message_type env
    /\ env_encryption env = wire_encryption codec.
Proof.
  unfold decode. case_bool_decide as Hs; [done|]. intros Hd.
  apply bind_Ok_inv in Hd as (f0 & [H0 _]%index_drop & Hd).
  apply bind_Ok_inv in Hd as (f1 & [H1 _]%index_drop & Hd).
  apply bind_Ok_inv in Hd as (f2 & [H2 _]%index_drop & Hd).
  apply bind_Ok_inv in Hd as (f3 & [H3 _]%index_drop & Hd).
  case_bool_decide as Hlen; [done|]. case_bool_decide as Hmax; [done|].
  apply bind_Ok_inv in Hd as (t & [H4 _]%index_drop & Hd).
  apply bind_Ok_inv in Hd as (mt & ->%message_type_try_from_inv & Hd).
  apply bind_Ok_inv in Hd as (payload & [H5 _]%slice_from_drop & Hd).
  apply bind_Ok_inv in Hd as (composite & Hc & Hd).
  apply bind_Ok_inv in Hd as (body & Hb & Hd).
  case_bool_decide as Hmt; [done|]. injection Hd as <-. cbn [env_message_type env_body env_encryption].
  exists payload, composite.
  assert (Hframe : frame = [f0; f1; f2; f3] ++ message_type_u8 mt :: payload).
  { change (0 + 1) with 1 in H0. change (1 + 1) with 2 in H1. change (2 + 1) with 3 in H2.
    change (3 + 1) with 4 in H3. change (4 + 1) with 5 in H4.
    transitivity (drop (Z.to_nat 0) frame); [done|].
    rewrite H0, H1, H2, H3, H4, H5. done. }
  rewrite <- to_from_be_bytes in Hframe. pose proof (from_be_bytes_range f0 f1 f2 f3).
  assert (Hl : blen frame = 5 + blen payload)
    by (rewrite Hframe, blen_app, blen_cons, blen_to_be_bytes; lia).
  split_and!; [|lia|lia|done|done|by destruct (decide (message_type body = mt))|done].
  unfold frame_layout. rewrite Hframe at 1. do 2 f_equal. lia.
Qed.

(** ** The grammar of frames *)

(** The fields of an attachment section before UTF-8 decoding. *)
Record RawSection : Type := mkRawSection {
  raw_id : bytes; raw_name : bytes; raw_content_type : bytes; raw_data : bytes;
}.
Definition raw_ok (r : RawSection) : Prop :=
  blen (raw_id r) < 256 /\ blen (raw_name r) < 256 /\ blen (raw_content_type r) < 256
  /\ blen (raw_data r) < 2 ^ 32.
Definition raw_wire (r : RawSection) : bytes :=
  section_wire (raw_id r) (raw_name r) (raw_content_type r) (raw_data r).
Definition raw_attachment (r : RawSection) : FileAttachment :=
  {| att_id := from_utf8_lossy (raw_id r); att_name := from_utf8_lossy (raw_name r);
     att_content_type := from_utf8_lossy (raw_content_type r); att_data := raw_data r |}.

(** A composite payload: [extra] is what follows the announced sections. *)
Definition composite_wire (text : bytes) (secs : list RawSection) (extra : bytes) : bytes :=
  to_be_bytes (blen text) ++ text ++ byte_of_Z (blen secs)
  :: concat (map raw_wire secs) ++ extra.

Lemma read_attachments_iff n : forall data atts rest,
  read_attachments n data = Ok (atts, rest) <->
  exists secs, length secs = n /\ Forall raw_ok secs
    /\ data = concat (map raw_wire secs) ++ rest /\ atts = map raw_attachment secs.
Proof.
  induction n as [|n IH]; intros data atts rest; cbn [read_attachments].
  - split; [intros [= <- <-]; by exists []|].
    intros ([|] & Hl & _ & -> & ->); [done|by cbn in Hl].
  - split.
    + intros ([a rest'] & Ha & H)%bind_Ok_inv. apply bind_Ok_inv in H as ([atts' ?] & Hr & [= <- <-]).
      apply read_wire_iff in Ha as (i & nm & c & d & -> & ? & ? & ? & ? & ->).
      apply IH in Hr as (secs & <- & ? & -> & ->).
      exists (mkRawSection i nm c d :: secs). cbn [length map concat].
      rewrite <- app_assoc. split_and!; [done| |done|done]. by constructor.
    + intros ([|r secs] & Hl & Hok & -> & ->); [done|]. injection Hl as Hl.
      inversion Hok as [|? ? Hr Hs]; subst. cbn [map concat]. rewrite <- app_assoc.
      assert (read_wire (raw_wire r ++ concat (map raw_wire secs) ++ rest)
              = Ok (raw_attachment r, concat (map raw_wire secs) ++ rest)) as ->.
      { apply read_wire_iff. destruct r, Hr as (? & ? & ? & ?). by do 4 eexists. }
      msimpl. assert (read_attachments (length secs) (concat (map raw_wire secs) ++ rest)
                      = Ok (map raw_attachment secs, rest)) as ->; [|done].
      apply IH. by exists secs.
Qed.

(** [decode_composite] accepts exactly the composites. *)
Lemma decode_composite_iff comp body :
  decode_composite comp = Ok body <->
  exists text secs extra body0,
    comp = composite_wire text secs extra
    /\ blen text < 2 ^ 32 /\ blen secs < 256 /\ Forall raw_ok secs
    /\ (from_slice text ≫= deserialize) = Ok body0
    /\ body = set_attachments (map raw_attachment secs) body0.
Proof.
  split.
  - unfold decode_composite. case_bool_decide as Hs; [done|]. intros Hd.
    apply bind_Ok_inv in Hd as (b0 & [H0 _]%index_drop & Hd).
    apply bind_Ok_inv in Hd as (b1 & [H1 _]%index_drop & Hd).
    apply bind_Ok_inv in Hd as (b2 & [H2 _]%index_drop & Hd).
    apply bind_Ok_inv in Hd as (b3 & [H3 _]%index_drop & Hd).
    pose proof (from_be_bytes_range b0 b1 b2 b3). cbv zeta in Hd. case_bool_decide; [done|].
    apply bind_Ok_inv in Hd as (text & (Ht4 & _ & _ & Hl)%slice_drop & Hd).
    apply bind_Ok_inv in Hd as (count & [H5 _]%index_drop & Hd).
    apply bind_Ok_inv in Hd as (data & [H6 _]%slice_from_drop & Hd).
    apply bind_Ok_inv in Hd as ([atts extra] & Ha & Hd).
    apply bind_Ok_inv in Hd as (body0 & Hb & [= <-]).
    apply read_attachments_iff in Ha as (secs & Hn & Hok & -> & ->).
    pose proof (Z_of_byte_range count).
    exists text, secs, extra, body0. split_and!; [|lia|unfold blen; lia|done| |done].
    + unfold composite_wire.
      replace (blen text) with (from_be_bytes b0 b1 b2 b3) by lia.
      replace (blen secs) with (Z_of_byte count) by (unfold blen; lia).
      rewrite to_from_be_bytes, byte_of_Z_of_byte.
      change (0 + 1) with 1 in H0. change (1 + 1) with 2 in H1. change (2 + 1) with 3 in H2.
      change (3 + 1) with 4 in H3. transitivity (drop (Z.to_nat 0) comp); [done|].
      by rewrite H0, H1, H2, H3, Ht4, H5, H6.
    + destruct (from_slice text ≫= deserialize); [by injection Hb as ->|done..].
  - intros (text & secs & extra & body0 & -> & Ht & Hn & Hok & Hb & ->).
    eapply decode_composite_wire; [done| |done]. apply read_attachments_iff. exists secs.
    split_and!; [unfold blen in *; rewrite Z_of_byte_small by lia; lia|done|done|done].
Qed.

Section Laws.
Context {JL : SerdeJsonLaws J} {CL : CryptoLaws C}.

(** Splitting a nonce off a payload. *)
Lemma split_nonce {E} (nonce ct : bytes) :
  blen nonce = 12 ->
  slice (E:=E) (nonce ++ ct) 0 12 = Ok nonce /\ slice_from (E:=E) (nonce ++ ct) 12 = Ok ct.
Proof.
  intros Hn. split; [|by apply slice_from_app].
  by apply (slice_mid []).
Qed.

Lemma decrypt_encrypt_chacha20 codec nonce p payload :
  blen nonce = 12 -> encrypt_chacha20 codec (Ok nonce) p = Ok payload ->
  decrypt_chacha20 codec payload = Ok p.
Proof.
  intros Hn. unfold encrypt_chacha20, decrypt_chacha20.
  intros (c & Hc & H)%bind_Ok_inv. msimpl in H. apply bind_Ok_inv in H as (ct & Hct & [= <-]).
  rewrite bool_decide_false
    by (pose proof (blen_nonneg ct); unfold CHACHA20_NONCE_LEN; len_lia).
  rewrite Hc. msimpl. unfold CHACHA20_NONCE_LEN.
  destruct (split_nonce (E:=ProtocolError) nonce ct Hn) as [-> ->]. msimpl.
  destruct (aead_encrypt _ _ _ _) eqn:He; [|done]. injection Hct as ->.
  by rewrite (aead_decrypt_encrypt _ chacha_laws _ _ _ _ He).
Qed.

Lemma decrypt_encrypt_aes256 codec nonce p payload :
  blen nonce = 12 -> encrypt_aes256 codec (Ok nonce) p = Ok payload ->
  decrypt_aes256 codec payload = Ok p.
Proof.
  intros Hn. unfold encrypt_aes256, decrypt_aes256.
  intros (c & Hc & H)%bind_Ok_inv. msimpl in H. apply bind_Ok_inv in H as (ct & Hct & [= <-]).
  rewrite bool_decide_false
    by (pose proof (blen_nonneg ct); unfold AES256_NONCE_LEN; len_lia).
  rewrite Hc. msimpl. unfold AES256_NONCE_LEN.
  destruct (split_nonce (E:=ProtocolError) nonce ct Hn) as [-> ->]. msimpl.
  destruct (aead_encrypt _ _ _ _) eqn:He; [|done]. injection Hct as ->.
  by rewrite (aead_decrypt_encrypt _ aes_laws _ _ _ _ He).
Qed.

(** Encryption that succeeded drew its nonce. *)
Lemma encrypt_entropy codec entropy p payload :
  encrypt_chacha20 codec entropy p = Ok payload \/ encrypt_aes256 codec entropy p = Ok payload ->
  exists nonce, entropy = Ok nonce.
Proof.
  unfold encrypt_chacha20, encrypt_aes256. intros [H|H];
    apply bind_Ok_inv in H as (c & _ & H); destruct entropy; eauto; done.
Qed.

(** What [encode] returns is a layout of a payload that opens to the composite. *)
Lemma encode_inv codec entropy packet frame :
  (forall nonce, entropy = Ok nonce -> blen nonce = 12) ->
  0 <= max_frame_bytes codec ->
  encode codec entropy packet = Ok frame ->
  exists text payload,
    to_writer (serialize (env_body packet)) = Ok text
    /\ frame = frame_layout (env_message_type packet) payload
    /\ blen payload + 5 <= max_frame_bytes codec
    /\ blen (composite_layout text (attachments (env_body packet))) + 5 <= max_frame_bytes codec
    /\ open_payload codec payload = Ok (composite_layout text (attachments (env_body packet))).
Proof.
  intros Hn Hmax. unfold encode, open_payload.
  destruct (to_writer (serialize (env_body packet))) as [text|e|] eqn:Hw.
  2,3: unfold encode_plain, encode_encrypted; rewrite Hw; by case_bool_decide.
  pose proof (blen_composite_layout text (attachments (env_body packet))).
  case_bool_decide as Henc.
  - rewrite (encode_plain_layout _ _ _ Hw), Henc. cbv zeta. case_bool_decide as Hs; [done|].
    unfold saturating_sub in Hs. intros [= <-]. do 2 eexists. split_and!; [done..|lia|lia|done].
  - rewrite (encode_encrypted_layout _ _ _ _ Hw). cbv zeta. case_bool_decide as Hs; [done|].
    unfold saturating_sub in Hs. intros (payload & Hp & Hf)%bind_Ok_inv.
    case_bool_decide as Hs'; [done|]. unfold saturating_sub in Hs'. injection Hf as <-.
    do 2 eexists. split_and!; [done..|lia|lia|].
    destruct (wire_encryption codec); [done|..].
    + destruct (encrypt_entropy _ _ _ _ (or_introl Hp)) as [nonce ->].
      eapply decrypt_encrypt_chacha20, Hp. by apply Hn.
    + destruct (encrypt_entropy _ _ _ _ (or_intror Hp)) as [nonce ->].
      eapply decrypt_encrypt_aes256, Hp. by apply Hn.
Qed.

(** With its key, entropy and a payload under 4 GiB, sealing succeeds and costs
    the nonce and the tag. *)
Lemma seal_total codec nonce comp :
  codec_keyed codec -> blen nonce = 12 -> blen comp < 2 ^ 32 ->
  exists payload,
    seal codec (Ok nonce) comp = Ok payload
    /\ blen payload = blen comp + overhead (wire_encryption codec).
Proof.
  unfold codec_keyed, seal, overhead, encrypt_chacha20, encrypt_aes256. intros Hk Hn Hc.
  destruct (wire_encryption codec).
  - exists comp. split; [done|lia].
  - destruct Hk as [c ->]. msimpl.
    destruct (aead_encrypt_total _ chacha_laws c _ _ Hn Hc) as (ct & -> & Hl).
    msimpl. eexists. split; [done|]. len_lia.
  - destruct Hk as [c ->]. msimpl.
    destruct (aead_encrypt_total _ aes_laws c _ _ Hn Hc) as (ct & -> & Hl).
    msimpl. eexists. split; [done|]. len_lia.
Qed.

(** Encoding then decoding, with any number of attachments. *)
Lemma decode_encode codec entropy packet frame :
  (forall nonce, entropy = Ok nonce -> blen nonce = 12) ->
  0 <= max_frame_bytes codec <= 2 ^ 32 ->
  body_carried (env_body packet) ->
  env_message_type packet = message_type (env_body packet) ->
  encode codec entropy packet = Ok frame ->
  let atts := attachments (env_body packet) in
  decode codec frame =
  Ok {| env_message_type := env_message_type packet;
        env_encryption := wire_encryption codec;
        env_body := set_attachments (take (Z.to_nat (blen atts mod 256)) atts)
                      (norm_body (env_body packet)) |}.
Proof.
  intros Hn Hmax (Ht & Hx & Hwf) Hmt (text & payload & Hw & -> & Hp & Hc & Ho)%encode_inv;
    [|done|lia].
  pose proof (blen_nonneg payload). rewrite decode_frame_layout by lia. rewrite Ho. msimpl.
  destruct (from_slice_to_writer _ Hx) as (text' & Hw' & Hr).
  assert (text' = text) as -> by congruence.
  pose proof (blen_nonneg (sections (attachments (env_body packet)))).
  rewrite (decode_composite_layout text _ (set_attachments [] (norm_body (env_body packet)))).
  - msimpl. rewrite message_type_set_attachments. rewrite bool_decide_false.
    2: { rewrite Hmt. intros Hne. by destruct (env_body packet). }
    do 2 f_equal. by destruct (env_body packet).
  - done.
  - unfold composite_layout in Hc. rewrite !blen_app, blen_cons, blen_to_be_bytes in Hc. lia.
  - rewrite Hr. msimpl. by apply deserialize_serialize.
Qed.
End Laws.

(** Opening a payload never indexes out of bounds. *)
Lemma returns_open_payload codec payload : returns (open_payload codec payload).
Proof.
  unfold open_payload, decrypt_chacha20, decrypt_aes256, CHACHA20_NONCE_LEN, AES256_NONCE_LEN.
  pose proof (blen_nonneg payload).
  destruct (wire_encryption codec); [done|..]; case_bool_decide; try done.
  all: apply errs_in_bind; [by apply errs_in_ok_or|intros c _].
  all: apply errs_in_bind; [apply errs_in_slice; lia|intros n _].
  all: apply errs_in_bind; [apply errs_in_slice_from; lia|intros ct _].
  all: by apply errs_in_ok_or.
Qed.

(** Encoding never panics: the patched prefixes are inside the buffer. *)
Lemma returns_encode {JL : SerdeJsonLaws J} codec entropy packet :
  returns entropy -> returns (encode codec entropy packet).
Proof.
  intros He. rewrite encode_eq_spec. unfold encode_spec.
  apply errs_in_bind; [apply errs_in_map_err; [apply returns_to_writer|done]|intros text _].
  cbv zeta. case_bool_decide; [done|]. apply errs_in_bind; [|intros payload _; by case_bool_decide].
  unfold seal, encrypt_chacha20, encrypt_aes256. destruct (wire_encryption codec); [done|..].
  all: apply errs_in_bind; [by apply errs_in_ok_or|intros c _].
  all: apply errs_in_bind; [by apply errs_in_map_err|intros nonce _].
  all: apply errs_in_bind; [by apply errs_in_ok_or|done].
Qed.

Lemma returns_read_attachments n : forall data, returns (read_attachments n data).
Proof.
  induction n as [|n IH]; intros data; [done|]. cbn [read_attachments].
  apply errs_in_bind; [eapply errs_in_returns, errs_in_read_wire|intros [a rest] _].
  apply errs_in_bind; [apply IH|by intros [] _].
Qed.

Lemma returns_decode_composite {JL : SerdeJsonLaws J} comp : returns (decode_composite comp).
Proof.
  unfold decode_composite. case_bool_decide; [done|].
  do 4 (apply errs_in_bind; [apply errs_in_index; lia|intros ? _]).
  match goal with |- context [from_be_bytes ?a ?b ?c ?d] =>
    pose proof (from_be_bytes_range a b c d); set (len := from_be_bytes a b c d) in * end.
  cbv zeta. case_bool_decide; [done|].
  apply errs_in_bind; [apply errs_in_slice; lia|intros json _].
  apply errs_in_bind; [apply errs_in_index; lia|intros n _].
  apply errs_in_bind; [apply errs_in_slice_from; lia|intros data _].
  apply errs_in_bind; [apply returns_read_attachments|intros [] _].
  apply errs_in_bind; [|done]. apply errs_in_map_err; [|done].
  apply errs_in_bind; [apply returns_from_slice|]. intros v _. apply returns_deserialize.
Qed.

Lemma returns_decode {JL : SerdeJsonLaws J} codec frame : returns (decode codec frame).
Proof.
  unfold decode. case_bool_decide; [done|].
  do 4 (apply errs_in_bind; [apply errs_in_index; lia|intros ? _]).
  cbv zeta. case_bool_decide; [done|]. case_bool_decide; [done|].
  apply errs_in_bind; [apply errs_in_index; lia|intros t _].
  apply errs_in_bind; [apply returns_message_type_try_from|intros mt _].
  apply errs_in_bind; [apply errs_in_slice_from; lia|intros payload _].
  apply errs_in_bind; [apply returns_open_payload|intros comp _].
  apply errs_in_bind; [apply returns_decode_composite|intros body _].
  by case_bool_decide.
Qed.
End Codec.

(** ** A transparent algorithm

    A tagged identity cipher: the laws of [AeadLaws] are consistent, and the
    witnesses below evaluate. *)
Definition tag_of (key : bytes) : bytes := take 16 (key ++ replicate 16 x00).
Definition tagged_aead : AeadAlg := {|
  Cipher := bytes;
  new_from_slice key := if bool_decide (blen key = 32) then Some key else None;
  aead_encrypt key nonce p := Some (tag_of key ++ p);
  aead_decrypt key nonce ct :=
    if bool_decide (take 16 ct = tag_of key) then Some (drop 16 ct) else None;
|}.
#[export] Instance tagged_crypto : Crypto :=
  {| chacha20poly1305 := tagged_aead; aes256gcm := tagged_aead |}.

Lemma length_tag_of key : length (tag_of key) = 16%nat.
Proof. unfold tag_of. rewrite length_take, length_app, length_replicate. lia. Qed.

Lemma tagged_aead_laws : AeadLaws tagged_aead.
Proof.
  constructor; cbn.
  - intros key Hk. rewrite bool_decide_true by done. eauto.
  - intros key nonce p ct [= <-]. pose proof (length_tag_of key).
    rewrite take_app_length', drop_app_length' by lia. by rewrite bool_decide_true.
  - intros key nonce p _ _. eexists. split; [done|].
    unfold blen. rewrite length_app, length_tag_of. lia.
Qed.

#[export] Instance tagged_crypto_laws : CryptoLaws tagged_crypto.
Proof. constructor; apply tagged_aead_laws. Qed.

(** ** Properties *)
Section Properties.
Context {J : SerdeJson} {C : Crypto}.

(** C1: frame round trip.  For every wire mode, a codec that has its key encodes
    any body whose fields, names and attachment count are in range and whose
    frame fits [max_frame_bytes], and decoding the frame with the same codec
    returns that body (up to the JSON normalisation of empty metadata and null
    error details), its message type and the codec's encryption mode; the frame
    is exactly header, composite and encryption overhead long. *)
Theorem frame_roundtrip {JL : SerdeJsonLaws J} {CL : CryptoLaws C} codec nonce body enc text :
  codec_keyed codec -> blen nonce = 12 -> max_frame_bytes codec <= 2 ^ 32 ->
  body_ok body -> to_writer (serialize body) = Ok text ->
  5 + blen (composite_layout text (attachments body)) + overhead (wire_encryption codec)
    <= max_frame_bytes codec ->
  exists frame,
    encode codec (Ok nonce) (with_encryption body enc) = Ok frame
    /\ blen frame = 5 + blen (composite_layout text (attachments body))
                   + overhead (wire_encryption codec)
    /\ decode codec frame =
       Ok {| env_message_type := message_type body;
             env_encryption := wire_encryption codec; env_body := norm_body body |}.
Proof.
  intros Hk Hn Hm [Hb Hcount] Hw Hfit.
  set (comp := composite_layout text (attachments body)) in *.
  pose proof (blen_composite_layout text (attachments body)) as Hc. fold comp in Hc.
  assert (0 <= overhead (wire_encryption codec)) by (by destruct (wire_encryption codec)).
  destruct (seal_total codec nonce comp) as (payload & Hs & Hl); [done|done|lia|].
  exists (frame_layout (message_type body) payload).
  assert (He : encode codec (Ok nonce) (with_encryption body enc)
               = Ok (frame_layout (message_type body) payload)).
  { rewrite encode_eq_spec. unfold encode_spec. cbn [env_body env_message_type with_encryption].
    rewrite Hw. msimpl. fold comp. unfold saturating_sub. rewrite bool_decide_false by lia.
    rewrite Hs. msimpl. by rewrite bool_decide_false by lia. }
  split_and!; [done|rewrite blen_frame_layout; lia|].
  rewrite (decode_encode codec (Ok nonce) (with_encryption body enc));
    cbn [env_body env_message_type with_encryption]; [|naive_solver|lia|done|done|done].
  do 2 f_equal. pose proof (blen_nonneg (attachments body)).
  rewrite Z.mod_small, take_ge by (unfold blen in *; lia). by destruct body.
Qed.

(** C24: the encoder refines its specification.  In every mode, and whatever the
    packet, [encode] (the single-buffer plaintext path with placeholders patched
    in place, and the encrypted path) returns exactly what laying out, sealing
    and framing the composite returns, errors included. *)
Theorem encode_refines_spec codec entropy packet :
  encode codec entropy packet = encode_spec codec entropy packet.
Proof. apply encode_eq_spec. Qed.

(** Size bound.  Whatever the packet and the mode, a frame that [encode]
    returns is never longer than the configured maximum, and its first four
    bytes are the big-endian length of the rest. *)
Theorem encode_bounded codec entropy packet frame :
  in_u 32 (max_frame_bytes codec) -> encode codec entropy packet = Ok frame ->
  blen frame <= max_frame_bytes codec
  /\ exists rest, frame = to_be_bytes (blen rest) ++ rest /\ blen rest < 2 ^ 32.
Proof.
  intros [Hm Hm']. rewrite encode_eq_spec. unfold encode_spec, saturating_sub.
  intros (text & _ & H)%bind_Ok_inv. cbv zeta in H.
  pose proof (blen_composite_layout text (attachments (env_body packet))).
  case_bool_decide; [done|].
  apply bind_Ok_inv in H as (payload & _ & H). case_bool_decide; [done|]. injection H as <-.
  pose proof (blen_nonneg payload). rewrite blen_frame_layout. split; [lia|].
  eexists (message_type_u8 _ :: payload). rewrite blen_cons. split; [done|lia].
Qed.

(** C12: the decoder accepts exactly the frames of the grammar.  [decode] returns
    an envelope if and only if the frame is a correct length prefix, the type
    byte of the envelope and a payload within the limit that opens to a
    composite: length-prefixed JSON text that deserializes to a body of that
    type, a count byte and that many attachment sections (bytes after the last
    section are ignored); the attachments of the result are those sections. *)
Theorem decode_accepts codec frame env :
  decode codec frame = Ok env <->
  exists payload text secs extra body,
    frame = frame_layout (message_type body) payload
    /\ blen frame <= max_frame_bytes codec /\ blen payload + 1 < 2 ^ 32
    /\ open_payload codec payload = Ok (composite_wire text secs extra)
    /\ blen text < 2 ^ 32 /\ blen secs < 256 /\ Forall raw_ok secs
    /\ (from_slice text ≫= deserialize) = Ok body
    /\ env = {| env_message_type := message_type body;
                env_encryption := wire_encryption codec;
                env_body := set_attachments (map raw_attachment secs) body |}.
Proof.
  split.
  - intros (payload & comp & -> & Hm & Hp & Ho & Hb & Hmt & He)%decode_inv.
    apply decode_composite_iff in Hb as (text & secs & extra & body & -> & ? & ? & ? & Hj & Hb).
    assert (env_message_type env = message_type body) as Hmt'.
    { by rewrite <- Hmt, Hb, message_type_set_attachments. }
    exists payload, text, secs, extra, body. rewrite Hmt' in *.
    split_and!; try done. destruct env; cbn in *. by subst.
  - intros (payload & text & secs & extra & body & -> & Hm & Hp & Ho & ? & ? & ? & Hj & ->).
    rewrite blen_frame_layout in Hm. rewrite decode_frame_layout by lia. rewrite Ho. msimpl.
    assert (decode_composite (composite_wire text secs extra)
            = Ok (set_attachments (map raw_attachment secs) body)) as ->.
    { apply decode_composite_iff. by exists text, secs, extra, body. }
    msimpl. rewrite message_type_set_attachments. by rewrite bool_decide_false by naive_solver.
Qed.

(** C27: decoding is total.  On every byte string, [decode] returns an envelope
    or an error: no index, slice or [unwrap] on the way can panic. *)
Theorem decode_total {JL : SerdeJsonLaws J} codec frame :
  (exists env, decode codec frame = Ok env) \/ (exists e, decode codec frame = Err e).
Proof.
  pose proof (returns_decode codec frame) as Hr.
  destruct (decode codec frame); [left|right|done]; eauto.
Qed.

(** The attachment count is one byte.  A body with 256 well-formed
    attachments is encoded without an error, and the receiver, in every mode,
    decodes the frame to the same body with no attachments at all. *)
Theorem attachment_count_wraps {JL : SerdeJsonLaws J} {CL : CryptoLaws C} codec nonce body enc frame :
  blen nonce = 12 -> in_u 32 (max_frame_bytes codec) ->
  body_carried body -> blen (attachments body) = 256 ->
  encode codec (Ok nonce) (with_encryption body enc) = Ok frame ->
  decode codec frame =
  Ok {| env_message_type := message_type body; env_encryption := wire_encryption codec;
        env_body := set_attachments [] (norm_body body) |}.
Proof.
  intros Hn [? ?] Hb H256 He.
  rewrite (decode_encode codec (Ok nonce) (with_encryption body enc));
    cbn [env_body env_message_type with_encryption]; [|naive_solver|lia|done|done|done].
  by rewrite H256.
Qed.
End Properties.

(** ** Instances *)
Definition sample_request : PacketBody :=
  ApiRequest 1 "files.upload" (Object {["file" := param_ref "f1"]})
    [sample_attachment] empty_object.
Definition sample_codec : FrameCodec :=
  {| aes256_cipher := Some (replicate 32 x07); chacha20_cipher := None;
     wire_encryption := Aes256; max_frame_bytes := 4096 |}.
Definition sample_nonce : bytes := replicate 12 x09.

Lemma sample_request_ok : body_ok sample_request.
Proof.
  split; [split_and!|done].
  - cbn. unfold in_u. lia.
  - vm_compute. reflexivity.
  - constructor; [exact sample_attachment_wf|constructor].
Qed.

Definition sample_text : bytes :=
  match to_writer (SerdeJson:=bit_json) (serialize sample_request) with
  | Ok text => text | _ => [] end.
Definition sample_frame : bytes :=
  match encode (J:=bit_json) sample_codec (Ok sample_nonce)
          (with_encryption sample_request NoEncryption) with
  | Ok frame => frame | _ => [] end.

Lemma frame_roundtrip_witness :
  exists frame,
    encode (J:=bit_json) sample_codec (Ok sample_nonce)
      (with_encryption sample_request NoEncryption) = Ok frame
    /\ decode (J:=bit_json) sample_codec frame =
       Ok {| env_message_type := Api; env_encryption := Aes256;
             env_body := norm_body sample_request |}.
Proof.
  destruct (frame_roundtrip (J:=bit_json) (JL:=bit_json_laws) sample_codec sample_nonce
    sample_request NoEncryption sample_text) as (frame & He & _ & Hd).
  - exists (replicate 32 x07). reflexivity.
  - reflexivity.
  - cbn. lia.
  - exact sample_request_ok.
  - vm_compute. reflexivity.
  - vm_compute. discriminate.
  - exists frame. split; [exact He|exact Hd].
Defined.

Lemma encode_bounded_witness :
  encode (J:=bit_json) sample_codec (Ok sample_nonce)
    (with_encryption sample_request NoEncryption) = Ok sample_frame
  /\ blen sample_frame <= 4096.
Proof.
  assert (He : encode (J:=bit_json) sample_codec (Ok sample_nonce)
    (with_encryption sample_request NoEncryption) = Ok sample_frame)
    by (vm_compute; reflexivity).
  split; [exact He|].
  refine (proj1 (encode_bounded (J:=bit_json) sample_codec _ _ _ _ He)).
  unfold in_u. cbn. lia.
Defined.

(** 256 empty attachments. *)
Definition many_attachments : PacketBody :=
  ApiRequest 2 "files.upload" empty_object (replicate 256 (inline_bytes "" "" "" []))
    empty_object.
Definition many_frame : bytes :=
  match encode (J:=bit_json) sample_codec (Ok sample_nonce)
          (with_encryption many_attachments NoEncryption) with
  | Ok frame => frame | _ => [] end.

Lemma many_attachments_carried : body_carried many_attachments.
Proof.
  split_and!.
  - cbn. unfold in_u. lia.
  - vm_compute. reflexivity.
  - apply Forall_replicate. unfold att_wf, str_wf. vm_compute. split_and!; done.
Qed.

Lemma attachment_count_wraps_witness :
  decode (J:=bit_json) sample_codec many_frame =
  Ok {| env_message_type := Api; env_encryption := Aes256;
        env_body := set_attachments [] (norm_body many_attachments) |}.
Proof.
  apply (attachment_count_wraps (J:=bit_json) (JL:=bit_json_laws) sample_codec sample_nonce
    many_attachments NoEncryption many_frame).
  - reflexivity.
  - unfold in_u. cbn. lia.
  - exact many_attachments_carried.
  - reflexivity.
  - vm_compute. reflexivity.
Defined.

Lemma decode_total_witness :
  (exists env, decode (J:=bit_json) sample_codec [x00; x00; x00; x02; x07; x01] = Ok env)
  \/ (exists e, decode (J:=bit_json) sample_codec [x00; x00; x00; x02; x07; x01] = Err e).
Proof. apply (decode_total (J:=bit_json) (JL:=bit_json_laws) sample_codec). Defined.
