(* ===== verification/RateLimiter.v ===== *)
(** * Rate limiting (crates/wscall-server/src/rate_limiter.rs)

    Configuration, per-connection and per-IP fixed-window counters, bans, the
    check made for every inbound frame and the periodic cleanup.  A [DashMap] is
    a [gmap]; every operation takes the instant it reads from the clock as
    [now], and is one atomic step on the state.  Instants and durations are
    nanosecond counts (unbounded); the [u64] counters wrap. *)

From S2P Require Import Prelude.
#[local] Open Scope Z_scope.

(** ** Configuration *)

(** [std::net::IpAddr]. *)
Inductive IpAddr : Type := V4 (a : N) | V6 (a : N).
#[global] Instance IpAddr_eq_dec : EqDecision IpAddr.
Proof. solve_decision. Defined.
#[global] Instance IpAddr_countable : Countable IpAddr.
Proof.
  refine (inj_countable' (fun i => match i with V4 a => inl a | V6 a => inr a end)
    (fun s => match s with inl a => V4 a | inr a => V6 a end) _).
  by intros [].
Defined.

Record RateLimitConfig : Type := mkRateLimitConfig {
  period : Z;
  max_messages : option Z;
  max_bytes : option Z;
}.

Definition config_new (period : Z) : RateLimitConfig :=
  {| period := period; max_messages := None; max_bytes := None |}.
Definition config_max_messages (c : RateLimitConfig) (max : Z) : RateLimitConfig :=
  {| period := period c; max_messages := Some max; max_bytes := max_bytes c |}.
Definition config_max_bytes (c : RateLimitConfig) (max : Z) : RateLimitConfig :=
  {| period := period c; max_messages := max_messages c; max_bytes := Some max |}.

Record RateLimiter : Type := mkRateLimiter {
  connection : option RateLimitConfig;
  ip_limit : option RateLimitConfig;
  ban_duration : option Z;
}.

Definition limiter_new : RateLimiter :=
  {| connection := None; ip_limit := None; ban_duration := None |}.
Definition limiter_connection (l : RateLimiter) (c : RateLimitConfig) : RateLimiter :=
  {| connection := Some c; ip_limit := ip_limit l; ban_duration := ban_duration l |}.
Definition limiter_ip (l : RateLimiter) (c : RateLimitConfig) : RateLimiter :=
  {| connection := connection l; ip_limit := Some c; ban_duration := ban_duration l |}.
Definition limiter_ban_duration (l : RateLimiter) (d : Z) : RateLimiter :=
  {| connection := connection l; ip_limit := ip_limit l; ban_duration := Some d |}.

(** ** State *)
Inductive Verdict : Type := Allowed | Limited | Banned.
#[global] Instance Verdict_eq_dec : EqDecision Verdict.
Proof. solve_decision. Defined.

Record WindowCounter : Type := mkWindowCounter {
  window_start : Z;
  message_count : Z;
  byte_count : Z;
}.

Record RateLimiterState : Type := mkRateLimiterState {
  config : RateLimiter;
  conn_counters : gmap string WindowCounter;
  ip_counters : gmap IpAddr WindowCounter;
  conn_bans : gmap string Z;
  ip_bans : gmap IpAddr Z;
}.

(** [RateLimiter::build]. *)
Definition limiter_build (l : RateLimiter) : RateLimiterState :=
  {| config := l; conn_counters := ∅; ip_counters := ∅; conn_bans := ∅; ip_bans := ∅ |}.

(** [Instant::duration_since]: zero when the argument is later. *)
Definition duration_since (now earlier : Z) : Z := Z.max 0 (now - earlier).

(** ** Operations *)

(** [WindowCounter::maybe_reset]. *)
Definition maybe_reset (c : WindowCounter) (now period : Z) : WindowCounter :=
  if period <=? duration_since now (window_start c)
  then {| window_start := now; message_count := 0; byte_count := 0 |}
  else c.

(** [RateLimiterState::exceeds]. *)
Definition exceeds (c : WindowCounter) (cfg : RateLimitConfig) : bool :=
  match max_messages cfg with
  | Some max_msgs =>
      if max_msgs <? message_count c then true
      else match max_bytes cfg with Some max_bs => max_bs <? byte_count c | None => false end
  | None => match max_bytes cfg with Some max_bs => max_bs <? byte_count c | None => false end
  end.

(** The counter after one more frame. *)
Definition count_frame (c : WindowCounter) (frame_len : Z) : WindowCounter :=
  {| window_start := window_start c;
     message_count := wrap 64 (message_count c + 1);
     byte_count := wrap 64 (byte_count c + frame_len) |}.

(** The ban lookup of [is_ip_banned] and of [check_and_record]: whether a ban is
    in force, and the map without the expired entry. *)
Definition check_ban {K} `{Countable K} (bans : gmap K Z) (key : K) (now : Z) :
    bool * gmap K Z :=
  match bans !! key with
  | Some expiry => if now <? expiry then (true, bans) else (false, delete key bans)
  | None => (false, bans)
  end.

(** [if let Some(ban_dur) = ban_duration { bans.insert(key, now + ban_dur) }]. *)
Definition impose_ban {K} `{Countable K} (ban : option Z) (bans : gmap K Z) (key : K) (now : Z) :
    gmap K Z :=
  match ban with Some ban_dur => <[key := now + ban_dur]> bans | None => bans end.

(** The check of one dimension (steps 2 and 3 of [check_and_record]): the new
    counters and bans, and whether the frame is limited. *)
Definition check_dimension {K} `{Countable K} (cfg : option RateLimitConfig) (ban : option Z)
    (counters : gmap K WindowCounter) (bans : gmap K Z) (key : K) (now frame_len : Z) :
    gmap K WindowCounter * gmap K Z * bool :=
  match cfg with
  | None => (counters, bans, false)
  | Some cfg =>
      match counters !! key with
      | Some counter =>
          let counter := count_frame (maybe_reset counter now (period cfg)) frame_len in
          let counters := <[key := counter]> counters in
          if exceeds counter cfg then (counters, impose_ban ban bans key now, true)
          else (counters, bans, false)
      | None =>
          let counters := <[key := {| window_start := now; message_count := 1;
                                      byte_count := frame_len |}]> counters in
          if bool_decide (max_messages cfg = Some 0) || bool_decide (max_bytes cfg = Some 0)
          then (counters, impose_ban ban bans key now, true)
          else (counters, bans, false)
      end
  end.

(** [RateLimiterState::is_ip_banned]. *)
Definition is_ip_banned (s : RateLimiterState) (ip : IpAddr) (now : Z) : bool * RateLimiterState :=
  let '(banned, bans) := check_ban (ip_bans s) ip now in
  (banned, {| config := config s; conn_counters := conn_counters s; ip_counters := ip_counters s;
              conn_bans := conn_bans s; ip_bans := bans |}).

(** [RateLimiterState::check_and_record]. *)
Definition check_and_record (s : RateLimiterState) (connection_id : string) (ip : IpAddr)
    (frame_len now : Z) : Verdict * RateLimiterState :=
  let '(conn_banned, cbans) := check_ban (conn_bans s) connection_id now in
  if conn_banned then (Banned, s)
  else
    let '(ip_banned, ibans) := check_ban (ip_bans s) ip now in
    if ip_banned
    then (Banned, {| config := config s; conn_counters := conn_counters s;
                     ip_counters := ip_counters s; conn_bans := cbans; ip_bans := ip_bans s |})
    else
      let '(ccounters, cbans, conn_limited) :=
        check_dimension (connection (config s)) (ban_duration (config s))
          (conn_counters s) cbans connection_id now frame_len in
      let '(icounters, ibans, ip_limited) :=
        check_dimension (ip_limit (config s)) (ban_duration (config s))
          (ip_counters s) ibans ip now frame_len in
      (if conn_limited || ip_limited then Limited else Allowed,
       {| config := config s; conn_counters := ccounters; ip_counters := icounters;
          conn_bans := cbans; ip_bans := ibans |}).

(** The configured periods: connection, then IP. *)
Definition periods (l : RateLimiter) : list Z :=
  match connection l with Some c => [period c] | None => [] end
  ++ match ip_limit l with Some c => [period c] | None => [] end.

(** [Iterator::max] and [Iterator::min]. *)
Definition iter_max (l : list Z) : option Z :=
  match l with [] => None | x :: l => Some (fold_left Z.max l x) end.
Definition iter_min (l : list Z) : option Z :=
  match l with [] => None | x :: l => Some (fold_left Z.min l x) end.

(** [RateLimiterState::cleanup]. *)
Definition cleanup (s : RateLimiterState) (now : Z) : RateLimiterState :=
  let max_period := default (secs 60) (iter_max (periods (config s))) in
  let stale_threshold := max_period * 2 in
  {| config := config s;
     conn_counters :=
       filter (fun kv => duration_since now (window_start kv.2) < stale_threshold) (conn_counters s);
     ip_counters :=
       filter (fun kv => duration_since now (window_start kv.2) < stale_threshold) (ip_counters s);
     conn_bans := filter (fun kv => now < kv.2) (conn_bans s);
     ip_bans := filter (fun kv => now < kv.2) (ip_bans s) |}.

(** [RateLimiterState::cleanup_interval]. *)
Definition cleanup_interval (s : RateLimiterState) : Z :=
  Z.max (default (secs 5) (iter_min (periods (config s)))) (secs 1).

(** ** Histories *)

(** The calls the server makes, each at an instant. *)
Inductive Event : Type :=
| Frame (now : Z) (conn : string) (ip : IpAddr) (len : Z)
| AcceptIp (now : Z) (ip : IpAddr)
| Cleanup (now : Z).

Definition event_time (e : Event) : Z :=
  match e with Frame now _ _ _ | AcceptIp now _ | Cleanup now => now end.

(** An accepted frame: its instant and its cost. *)
Record Entry : Type := mkEntry { ent_time : Z; ent_conn : string; ent_ip : IpAddr; ent_len : Z }.

(** One event: the state and the frames allowed so far, newest first. *)
Definition apply_event (st : RateLimiterState * list Entry) (e : Event) :
    RateLimiterState * list Entry :=
  let '(s, log) := st in
  match e with
  | Frame now conn ip len =>
      let '(v, s) := check_and_record s conn ip len now in
      (s, if bool_decide (v = Allowed) then mkEntry now conn ip len :: log else log)
  | AcceptIp now ip => ((is_ip_banned s ip now).2, log)
  | Cleanup now => (cleanup s now, log)
  end.

Definition run (s : RateLimiterState) (es : list Event) : RateLimiterState * list Entry :=
  fold_left apply_event es (s, []).
Definition run_state (s : RateLimiterState) (es : list Event) : RateLimiterState := (run s es).1.

(** Instants are read from a monotonic clock. *)
Fixpoint monotone (t : Z) (es : list Event) : Prop :=
  match es with [] => True | e :: es => t <= event_time e /\ monotone (event_time e) es end.

(** ** What a window meters *)
Inductive Meter : Type := Messages | Bytes.
Definition meter_limit (m : Meter) (cfg : RateLimitConfig) : option Z :=
  match m with Messages => max_messages cfg | Bytes => max_bytes cfg end.
Definition meter_count (m : Meter) (c : WindowCounter) : Z :=
  match m with Messages => message_count c | Bytes => byte_count c end.
Definition meter_weight (m : Meter) (len : Z) : Z :=
  match m with Messages => 1 | Bytes => len end.

(** The cost of the accepted frames whose instant satisfies [p]. *)
Definition spent (m : Meter) (p : Z -> bool) (log : list (Z * Z)) : Z :=
  foldr (fun e n => (if p e.1 then meter_weight m e.2 else 0) + n) 0 log.

(** The half-open interval of instants [[x, y)]. *)
Definition within (x y t : Z) : bool := (x <=? t) && (t <? y).

(** The total cost of a history for a key's dimension. *)
Definition event_weight (m : Meter) (e : Event) : Z :=
  match e with Frame _ _ _ len => meter_weight m len | _ => 0 end.
Definition total_weight (m : Meter) (es : list Event) : Z :=
  foldr (fun e n => event_weight m e + n) 0 es.

(** The accepted frames of a connection and of an address. *)
Definition conn_log (conn : string) (log : list Entry) : list (Z * Z) :=
  map (fun e => (ent_time e, ent_len e)) (filter (fun e => ent_conn e = conn) log).
Definition ip_log (ip : IpAddr) (log : list Entry) : list (Z * Z) :=
  map (fun e => (ent_time e, ent_len e)) (filter (fun e => ent_ip e = ip) log).

(** Frames the window can meter: a byte limit is a limit on every frame. *)
Definition frames_metered (m : Meter) (L : Z) (es : list Event) : Prop :=
  Forall (fun e => match e with
                   | Frame _ _ _ len => 0 <= len /\ (m = Bytes -> len <= L)
                   | _ => True end) es.

(** ** Lemmas on spending *)
Section Spent.
Context (m : Meter).
Implicit Types (log : list (Z * Z)) (p q r : Z -> bool).

Definition log_ok log : Prop := Forall (fun e => 0 <= e.2) log.

Lemma meter_weight_nonneg len : 0 <= len -> 0 <= meter_weight m len.
Proof. destruct m; cbn; lia. Qed.

Lemma spent_cons p t l log :
  spent m p ((t, l) :: log) = (if p t then meter_weight m l else 0) + spent m p log.
Proof. reflexivity. Qed.

Lemma spent_nonneg p log : log_ok log -> 0 <= spent m p log.
Proof.
  induction 1 as [|[t l] log Hl _ IH]; [done|]; rewrite ?spent_cons; cbn [snd] in *.
  pose proof (meter_weight_nonneg l Hl). destruct (p t); lia.
Qed.

Lemma spent_union p q r log :
  log_ok log -> (forall t, p t = true -> q t = true \/ r t = true) ->
  spent m p log <= spent m q log + spent m r log.
Proof.
  intros Hlog Hp. induction Hlog as [|[t l] log Hl _ IH]; [done|]; rewrite ?spent_cons; cbn [snd] in *.
  pose proof (meter_weight_nonneg l Hl). specialize (Hp t).
  destruct (p t), (q t), (r t); lia || by destruct Hp.
Qed.

Lemma spent_mono p q log :
  log_ok log -> (forall t, p t = true -> q t = true) -> spent m p log <= spent m q log.
Proof.
  intros Hlog Hp. induction Hlog as [|[t l] log Hl _ IH]; [done|]; rewrite ?spent_cons; cbn [snd] in *.
  pose proof (meter_weight_nonneg l Hl). specialize (Hp t).
  destruct (p t), (q t); lia || by specialize (Hp eq_refl).
Qed.

Lemma spent_none p log :
  Forall (fun e => p e.1 = false) log -> spent m p log = 0.
Proof. induction 1 as [|[t l] log Ht _ IH]; [done|]. rewrite spent_cons. cbn in Ht. by rewrite Ht, IH. Qed.
End Spent.

(** ** The window invariant

    For one key of one dimension: its counter, the instant of the last event
    [T], and the cost [n] of all frames so far. *)
Section Window.
Context (m : Meter) (P L : Z) (HP : 0 < P).
Implicit Types (log : list (Z * Z)).

Definition window_inv (T n : Z) (c : option WindowCounter) log : Prop :=
  log_ok log
  /\ (forall x, spent m (within x (x + P)) log <= 2 * L)
  /\ match c with
     | Some c =>
         window_start c <= T
         /\ Forall (fun e => e.1 < window_start c + P) log
         /\ 0 <= meter_count m c <= n
         /\ spent m (fun t => window_start c <=? t) log <= Z.min (meter_count m c) L
         /\ (forall x, window_start c - P <= x -> spent m (within x (window_start c)) log <= L)
     | None =>
         Forall (fun e => e.1 < T) log
         /\ (forall x, T - P <= x -> spent m (within x T) log <= L)
     end.

Lemma window_inv_later T T' n n' c log :
  T <= T' -> n <= n' -> window_inv T n c log -> window_inv T' n' c log.
Proof.
  intros HT Hn (Hok & H3 & Hc). split_and!; [done..|]. destruct c as [c|].
  - destruct Hc as (? & ? & ? & ? & ?). split_and!; try done; lia.
  - destruct Hc as [Hlt Hx]. split; [eapply Forall_impl; [|exact Hlt]; cbn; lia|].
    intros x Hx'. assert (Hnone : spent m (fun t => T <=? t) log = 0)
      by (apply spent_none; eapply Forall_impl; [|exact Hlt]; cbn; lia).
    assert (spent m (within x T') log <= spent m (within x T) log + 0)
      by (rewrite <- Hnone; apply spent_union; [done|]; unfold within; lia).
    specialize (Hx x ltac:(lia)). lia.
Qed.

Lemma window_inv_init T n : 0 <= L -> window_inv T n None [].
Proof. intros. split_and!; [constructor|cbn; lia|constructor|cbn; lia]. Qed.

(** Dropping the counter of a window that closed at [T] or before. *)
Lemma window_inv_drop T n c log : window_inv T n (Some c) log ->
  forall T', window_start c + P <= T' -> window_inv T' n None log.
Proof.
  intros (Hok & H3 & HwT & Hlt & Hn & H1 & H2) T' HT'. split_and!; [done|done| |].
  - eapply Forall_impl; [|exact Hlt]. cbn. lia.
  - intros x Hx. etransitivity; [apply (spent_mono m _ (fun t => window_start c <=? t))|lia]; [done|].
    unfold within. lia.
Qed.
(** Forgetting an accepted frame. *)
Lemma window_inv_forget T n c e log : window_inv T n c (e :: log) -> window_inv T n c log.
Proof.
  destruct e as [t l]. intros (Hok & H3 & Hc). inversion_clear Hok as [|? ? Hl Hok']. cbn [snd] in Hl.
  pose proof (meter_weight_nonneg m l Hl) as Hw.
  assert (Hs : forall p, spent m p log <= spent m p ((t, l) :: log)) by (intros p; rewrite spent_cons; destruct (p t); lia).
  split_and!; [done|intros x; specialize (H3 x); specialize (Hs (within x (x + P))); lia|].
  destruct c as [c|].
  - destruct Hc as (? & Hlt & ? & H1 & H2). inversion_clear Hlt. split_and!; try done; try lia.
    + specialize (Hs (fun t => window_start c <=? t)). lia.
    + intros x Hx. specialize (H2 x Hx). specialize (Hs (within x (window_start c))). lia.
  - destruct Hc as [Hlt Hx]. inversion_clear Hlt. split; [done|]. intros x Hx'. specialize (Hx x Hx').
    specialize (Hs (within x T)). lia.
Qed.

(** A frame opens a window at [now]: every accepted frame is older than a period. *)
Lemma window_inv_open T n c log now len acc :
  T <= now -> 0 <= len -> 0 <= meter_weight m len <= n ->
  Forall (fun e => e.1 < now) log ->
  (forall x, now - P <= x -> spent m (within x now) log <= L) ->
  log_ok log -> (forall x, spent m (within x (x + P)) log <= 2 * L) ->
  window_start c = now -> meter_count m c = meter_weight m len ->
  (acc = true -> meter_weight m len <= L) -> 0 <= L ->
  window_inv now n (Some c) (if acc then (now, len) :: log else log).
Proof.
  intros HT Hlen Hw Hlt H2 Hok H3 Hs Hc Hacc HL.
  assert (Hnone : spent m (fun t => now <=? t) log = 0).
  { apply spent_none. eapply Forall_impl; [|exact Hlt]. cbn. lia. }
  assert (Hlog : log_ok (if acc then (now, len) :: log else log))
    by (destruct acc; [by constructor|done]).
  split; [done|split].
  - intros x. destruct acc; [|done]. rewrite spent_cons. destruct (within x (x + P) now) eqn:Hx; [|by rewrite H3].
    unfold within in Hx.
    assert (spent m (within x (x + P)) log <= spent m (within x now) log + 0).
    { rewrite <- Hnone. apply spent_union; [done|]. unfold within. lia. }
    specialize (H2 x ltac:(lia)). specialize (Hacc eq_refl). lia.
  - rewrite Hs, Hc. split_and!; [lia| |lia|lia| |].
    + assert (Forall (fun e => e.1 < now + P) log)
        by (eapply Forall_impl; [|exact Hlt]; cbn; lia).
      destruct acc; [|done]. constructor; [cbn; lia|done].
    + destruct acc; rewrite ?spent_cons, ?Hnone; [|lia]. rewrite Z.leb_refl. specialize (Hacc eq_refl). lia.
    + intros x Hx. destruct acc; [|by apply H2]. rewrite spent_cons.
      replace (within x now now) with false by (unfold within; lia). by apply H2.
Qed.

(** A frame falls into the current window. *)
Lemma window_inv_same T n c c' log now len acc :
  T <= now -> now < window_start c + P -> 0 <= len ->
  window_inv T n (Some c) log ->
  window_start c' = window_start c ->
  meter_count m c' = meter_count m c + meter_weight m len ->
  (acc = true -> meter_count m c' <= L) ->
  window_inv now (n + meter_weight m len) (Some c') (if acc then (now, len) :: log else log).
Proof.
  intros HT Hnow Hlen (Hok & H3 & HwT & Hlt & Hn & H1 & H2) Hs Hc Hacc.
  pose proof (meter_weight_nonneg m len Hlen) as Hw.
  set (w := window_start c) in *.
  assert (Hlog : log_ok (if acc then (now, len) :: log else log))
    by (destruct acc; [by constructor|done]).
  assert (H1' : spent m (fun t => w <=? t) (if acc then (now, len) :: log else log)
                <= Z.min (meter_count m c') L).
  { destruct acc; rewrite ?spent_cons; [|lia]. specialize (Hacc eq_refl).
    replace (w <=? now) with true by lia. lia. }
  assert (H2' : forall x, w - P <= x ->
    spent m (within x w) (if acc then (now, len) :: log else log) <= L).
  { intros x Hx. destruct acc; [|by apply H2]. rewrite spent_cons.
    replace (within x w now) with false by (unfold within; lia). by apply H2. }
  split; [done|split].
  - intros x. destruct acc; [|done]. rewrite spent_cons. destruct (within x (x + P) now) eqn:Hx; [|by rewrite H3].
    unfold within in Hx. specialize (H2' x ltac:(lia)).
    assert (Hu : spent m (within x (x + P)) ((now, len) :: log)
      <= spent m (fun t => w <=? t) ((now, len) :: log) + spent m (within x w) ((now, len) :: log)).
    { apply spent_union; [done|]. unfold within. lia. }
    rewrite spent_cons in Hu. replace (within x (x + P) now) with true in Hu by (unfold within; lia).
    lia.
  - rewrite Hs. fold w. split_and!; [lia| |lia|lia|done|done].
    destruct acc; [|done]. constructor; [cbn; lia|done].
Qed.
End Window.

(** ** Steps of one dimension *)
Section Dimension.
Context {K : Type} `{Countable K}.
Implicit Types (counters : gmap K WindowCounter) (bans : gmap K Z) (key : K).

Lemma check_dimension_other cfg ban counters bans key now len key' :
  key' <> key ->
  let '(counters', bans', _) := check_dimension cfg ban counters bans key now len in
  counters' !! key' = counters !! key' /\ bans' !! key' = bans !! key'.
Proof.
  intros Hne. unfold check_dimension, impose_ban.
  destruct cfg as [cfg|]; [|done]. destruct (counters !! key), ban;
    repeat case_match; simplify_eq; split; by rewrite ?lookup_insert_ne by done.
Qed.

Lemma meter_exceeds m cfg c L :
  meter_limit m cfg = Some L -> exceeds c cfg = false -> meter_count m c <= L.
Proof.
  unfold exceeds. destruct m; cbn; intros ->; [case_match; lia|].
  repeat case_match; lia.
Qed.

Lemma check_dimension_inv m cfg ban counters bans key now len T n L log acc :
  meter_limit m cfg = Some L -> 0 <= L -> 0 < period cfg ->
  T <= now -> 0 <= len -> (m = Bytes -> len <= L) -> 0 <= n -> n + meter_weight m len < 2 ^ 64 ->
  window_inv m (period cfg) L T n (counters !! key) log ->
  let '(counters', _, limited) := check_dimension (Some cfg) ban counters bans key now len in
  (acc = true -> limited = false) ->
  window_inv m (period cfg) L now (n + meter_weight m len) (counters' !! key)
    (if acc then (now, len) :: log else log).
Proof.
  intros HL HL0 HP HT Hlen Hfirst Hn0 Hn Hinv.
  pose proof (meter_weight_nonneg m len Hlen) as Hw.
  unfold check_dimension. destruct (counters !! key) as [c|] eqn:Hc.
  - set (c' := count_frame (maybe_reset c now (period cfg)) len).
    assert (Hgoal : (acc = true -> exceeds c' cfg = false) ->
      window_inv m (period cfg) L now (n + meter_weight m len) (Some c')
        (if acc then (now, len) :: log else log)).
    2: { destruct (exceeds c' cfg); rewrite lookup_insert_eq; exact Hgoal. }
    intros Hacc. pose proof Hinv as (Hok & H3 & HwT & Hlt & Hmc & H1 & H2).
    assert (HaccL : acc = true -> meter_count m c' <= L)
      by (intros ?; by apply (meter_exceeds m cfg), Hacc).
    unfold c', maybe_reset, duration_since in *. destruct (Z.leb_spec (period cfg) (Z.max 0 (now - window_start c))).
    + assert (Hcount : meter_count m (count_frame (mkWindowCounter now 0 0) len) = meter_weight m len).
      { destruct m; cbn; [done|]. apply wrap_small. cbn in Hn. lia. }
      rewrite Hcount in HaccL.
      apply (window_inv_open m (period cfg) L HP T); try done; [lia| |].
      * eapply Forall_impl; [|exact Hlt]. cbn. lia.
      * intros x Hx. etransitivity; [apply (spent_mono m _ (fun t => window_start c <=? t))|lia]; [done|].
        unfold within. lia.
    + apply (window_inv_same m (period cfg) L T n c); try done; [lia|].
      destruct m; cbn in *; apply wrap_small; lia.
  - set (c' := mkWindowCounter now 1 len).
    assert (Hgoal : (acc = true -> max_messages cfg <> Some 0 /\ max_bytes cfg <> Some 0) ->
      window_inv m (period cfg) L now (n + meter_weight m len) (Some c')
        (if acc then (now, len) :: log else log)).
    { intros Hacc. apply (window_inv_later m (period cfg) L T now n n) in Hinv as (Hok & H3 & Hlt & Hx); [|done..].
      apply (window_inv_open m (period cfg) L HP T); try done; [lia|].
      - intros Ha. specialize (Hacc Ha). destruct m; cbn in *; [|by apply Hfirst].
        destruct Hacc as [Hm _]. rewrite HL in Hm. assert (L <> 0) by congruence. lia. }
    repeat case_bool_decide; cbn [orb]; rewrite lookup_insert_eq; intros Hacc;
      apply Hgoal; intros Ha; by specialize (Hacc Ha).
Qed.

Definition in_force bans key (now : Z) : bool :=
  match bans !! key with Some expiry => now <? expiry | None => false end.

Lemma check_ban_verdict bans key now : (check_ban bans key now).1 = in_force bans key now.
Proof. unfold check_ban, in_force. by repeat case_match. Qed.

(** Checking a ban keeps every ban that is still in force. *)
Lemma check_ban_keeps bans key now key' e :
  now < e -> (check_ban bans key now).2 !! key' = Some e <-> bans !! key' = Some e.
Proof.
  intros He. unfold check_ban. destruct (bans !! key) as [e'|] eqn:Hb; [|done].
  destruct (Z.ltb_spec now e'); [done|]. cbn [snd]. destruct (decide (key' = key)) as [->|].
  - rewrite lookup_delete_eq, Hb. split; [done|]. intros [= <-]. lia.
  - by rewrite lookup_delete_ne.
Qed.
End Dimension.

(** ** Steps of the whole state *)

(** What [check_and_record] does, by verdict: a ban in force stops everything;
    otherwise the two dimensions are checked on the states without the expired
    bans. *)
Lemma check_and_record_eq s conn ip len now :
  check_and_record s conn ip len now =
  if in_force (conn_bans s) conn now then (Banned, s)
  else
    if in_force (ip_bans s) ip now
    then (Banned, mkRateLimiterState (config s) (conn_counters s) (ip_counters s)
                    (check_ban (conn_bans s) conn now).2 (ip_bans s))
    else
      let '(cc, cb, cl) := check_dimension (connection (config s)) (ban_duration (config s))
                             (conn_counters s) (check_ban (conn_bans s) conn now).2 conn now len in
      let '(ic, ib, il) := check_dimension (ip_limit (config s)) (ban_duration (config s))
                             (ip_counters s) (check_ban (ip_bans s) ip now).2 ip now len in
      (if cl || il then Limited else Allowed,
       mkRateLimiterState (config s) cc ic cb ib).
Proof.
  unfold check_and_record. rewrite <- !check_ban_verdict.
  destruct (check_ban (conn_bans s) conn now) as [b1 m1]. cbn [fst snd].
  destruct b1; [done|]. by destruct (check_ban (ip_bans s) ip now) as [[] m2].
Qed.

Lemma config_apply_event st e : config (apply_event st e).1 = config st.1.
Proof.
  destruct st as [s log], e as [now conn ip len|now ip|now]; cbn [apply_event].
  - rewrite check_and_record_eq. destruct (in_force _ conn now); [done|].
    destruct (in_force _ ip now); [done|].
    destruct (check_dimension _ _ (conn_counters s) _ _ _ _) as [[cc cb] cl].
    by destruct (check_dimension _ _ (ip_counters s) _ _ _ _) as [[ic ib] il].
  - unfold is_ip_banned. by destruct (check_ban _ _ _).
  - done.
Qed.

Lemma period_le_max cfg l :
  connection l = Some cfg \/ ip_limit l = Some cfg ->
  period cfg <= default (secs 60) (iter_max (periods l)).
Proof.
  unfold periods. intros [-> | ->]; [destruct (ip_limit l)|destruct (connection l)]; cbn; lia.
Qed.

(** Cleanup drops only counters whose window closed a period ago. *)
Lemma window_inv_cleanup {K} `{Countable K} m P L T n now threshold
    (counters : gmap K WindowCounter) key log :
  0 < P -> 2 * P <= threshold -> T <= now ->
  window_inv m P L T n (counters !! key) log ->
  window_inv m P L now n
    (filter (fun kv : K * WindowCounter => duration_since now (window_start kv.2) < threshold)
       counters !! key) log.
Proof.
  intros HP Hth HT Hinv. rewrite map_lookup_filter.
  destruct (counters !! key) as [c|]; cbn [mbind option_bind]; [|by eapply window_inv_later].
  case_guard as Hd; cbn [mbind option_bind]; [by eapply window_inv_later|].
  eapply (window_inv_drop m P L); [exact Hinv|]. cbn in Hd. unfold duration_since in Hd. lia.
Qed.

Lemma conn_log_cons conn log now conn' ip len :
  conn_log conn (mkEntry now conn' ip len :: log) =
  if bool_decide (conn' = conn) then (now, len) :: conn_log conn log else conn_log conn log.
Proof.
  unfold conn_log. case_bool_decide.
  - rewrite filter_cons_True by done. done.
  - rewrite filter_cons_False by done. done.
Qed.

Lemma ip_log_cons ip log now conn ip' len :
  ip_log ip (mkEntry now conn ip' len :: log) =
  if bool_decide (ip' = ip) then (now, len) :: ip_log ip log else ip_log ip log.
Proof.
  unfold ip_log. case_bool_decide.
  - rewrite filter_cons_True by done. done.
  - rewrite filter_cons_False by done. done.
Qed.

Section Steps.
Context (m : Meter) (cfg : RateLimitConfig) (L : Z).
Context (HL : meter_limit m cfg = Some L) (HL0 : 0 <= L) (HP : 0 < period cfg).

Definition event_ok (T n : Z) (e : Event) : Prop :=
  T <= event_time e /\ 0 <= n /\ n + event_weight m e < 2 ^ 64
  /\ match e with Frame _ _ _ len => 0 <= len /\ (m = Bytes -> len <= L) | _ => True end.

Lemma event_weight_nonneg T n e : event_ok T n e -> 0 <= event_weight m e.
Proof.
  intros (_ & _ & _ & He). destruct e; cbn; [|done..]. apply meter_weight_nonneg, He.
Qed.

Lemma conn_step conn st e T n :
  connection (config st.1) = Some cfg -> event_ok T n e ->
  window_inv m (period cfg) L T n (conn_counters st.1 !! conn) (conn_log conn st.2) ->
  window_inv m (period cfg) L (event_time e) (n + event_weight m e)
    (conn_counters (apply_event st e).1 !! conn) (conn_log conn (apply_event st e).2).
Proof.
  intros Hcfg Hok Hinv. pose proof (event_weight_nonneg _ _ _ Hok) as Hw.
  destruct Hok as (HT & Hn0 & Hn & He). destruct st as [s log]. cbn [fst snd] in *.
  assert (Hlater : window_inv m (period cfg) L (event_time e) (n + event_weight m e)
    (conn_counters s !! conn) (conn_log conn log)) by (eapply window_inv_later; [..|done]; lia).
  destruct e as [now conn' ip len|now ip|now]; cbn [apply_event event_time event_weight] in *.
  - rewrite check_and_record_eq.
    destruct (in_force _ conn' now); [done|]. destruct (in_force _ ip now); [done|]. rewrite Hcfg.
    set (cbans := (check_ban (conn_bans s) conn' now).2).
    pose proof (check_dimension_other (Some cfg) (ban_duration (config s)) (conn_counters s)
      cbans conn' now len conn) as Hother.
    pose proof (fun acc => check_dimension_inv m cfg (ban_duration (config s)) (conn_counters s)
      cbans conn now len T n L (conn_log conn log) acc HL HL0 HP HT (proj1 He) (proj2 He) Hn0 Hn Hinv)
      as Hstep.
    destruct (decide (conn' = conn)) as [->|Hne].
    + destruct (check_dimension (Some cfg) _ _ _ _ _ _) as [[cc cb] cl].
      destruct (check_dimension _ _ (ip_counters s) _ _ _ _) as [[ic ib] il]. cbn [fst snd].
      case_bool_decide as Hv; cbn [conn_counters]; [|by apply (Hstep false)].
      rewrite conn_log_cons, bool_decide_true by done. apply (Hstep true). by destruct cl.
    + destruct (check_dimension (Some cfg) _ _ _ _ _ _) as [[cc cb] cl].
      destruct (check_dimension _ _ (ip_counters s) _ _ _ _) as [[ic ib] il]. cbn [fst snd].
      cbn [conn_counters]. destruct Hother as [-> _]; [done|].
      case_bool_decide; [|done]. by rewrite conn_log_cons, bool_decide_false.
  - unfold is_ip_banned. by destruct (check_ban _ _ _).
  - cbn [cleanup conn_counters]. rewrite Z.add_0_r in *.
    apply (window_inv_cleanup m _ _ T); try done.
    pose proof (period_le_max cfg (config s) (or_introl Hcfg)). lia.
Qed.
Lemma ip_step ip st e T n :
  ip_limit (config st.1) = Some cfg -> event_ok T n e ->
  window_inv m (period cfg) L T n (ip_counters st.1 !! ip) (ip_log ip st.2) ->
  window_inv m (period cfg) L (event_time e) (n + event_weight m e)
    (ip_counters (apply_event st e).1 !! ip) (ip_log ip (apply_event st e).2).
Proof.
  intros Hcfg Hok Hinv. pose proof (event_weight_nonneg _ _ _ Hok) as Hw.
  destruct Hok as (HT & Hn0 & Hn & He). destruct st as [s log]. cbn [fst snd] in *.
  assert (Hlater : window_inv m (period cfg) L (event_time e) (n + event_weight m e)
    (ip_counters s !! ip) (ip_log ip log)) by (eapply window_inv_later; [..|done]; lia).
  destruct e as [now conn ip' len|now ip'|now]; cbn [apply_event event_time event_weight] in *.
  - rewrite check_and_record_eq.
    destruct (in_force _ conn now); [done|]. destruct (in_force _ ip' now); [done|]. rewrite Hcfg.
    set (ibans := (check_ban (ip_bans s) ip' now).2).
    pose proof (check_dimension_other (Some cfg) (ban_duration (config s)) (ip_counters s)
      ibans ip' now len ip) as Hother.
    pose proof (fun acc => check_dimension_inv m cfg (ban_duration (config s)) (ip_counters s)
      ibans ip now len T n L (ip_log ip log) acc HL HL0 HP HT (proj1 He) (proj2 He) Hn0 Hn Hinv)
      as Hstep.
    destruct (check_dimension _ _ (conn_counters s) _ _ _ _) as [[cc cb] cl].
    destruct (decide (ip' = ip)) as [->|Hne].
    + destruct (check_dimension (Some cfg) _ _ _ _ _ _) as [[ic ib] il]. cbn [fst snd].
      case_bool_decide as Hv; cbn [ip_counters]; [|by apply (Hstep false)].
      rewrite ip_log_cons, bool_decide_true by done. apply (Hstep true). by destruct cl, il.
    + destruct (check_dimension (Some cfg) _ _ _ _ _ _) as [[ic ib] il]. cbn [fst snd].
      cbn [ip_counters]. destruct Hother as [-> _]; [done|].
      case_bool_decide; [|done]. by rewrite ip_log_cons, bool_decide_false.
  - unfold is_ip_banned. by destruct (check_ban _ _ _).
  - cbn [cleanup ip_counters]. rewrite Z.add_0_r in *.
    apply (window_inv_cleanup m _ _ T); try done.
    pose proof (period_le_max cfg (config s) (or_intror Hcfg)). lia.
Qed.

(** Histories: a step that preserves an invariant preserves it along a run. *)
Lemma run_induction (I : Z -> Z -> RateLimiterState * list Entry -> Prop) es : forall T n st,
  (forall T n st e, event_ok T n e -> I T n st ->
     I (event_time e) (n + event_weight m e) (apply_event st e)) ->
  monotone T es -> frames_metered m L es -> 0 <= n -> n + total_weight m es < 2 ^ 64 ->
  I T n st -> exists T' n', I T' n' (fold_left apply_event es st).
Proof.
  induction es as [|e es IH]; intros T n st Hstep Hmono Hmet Hn0 Hn HI; [by exists T, n|].
  destruct Hmono as [HT Hmono]. inversion Hmet as [|? ? He Hes]; subst.
  assert (Hw : 0 <= event_weight m e)
    by (destruct e; cbn; [apply meter_weight_nonneg, He|done..]).
  assert (Htot : 0 <= total_weight m es).
  { clear -Hes HL. unfold total_weight. induction Hes as [|e es He _ IHes]; cbn [foldr]; [done|].
    assert (0 <= event_weight m e) by (destruct e; cbn; [apply meter_weight_nonneg, He|done..]). lia. }
  assert (Hn' : n + (event_weight m e + total_weight m es) < 2 ^ 64) by exact Hn.
  apply (IH (event_time e) (n + event_weight m e)); try done; [lia..|].
  apply (Hstep T); [|done]. split_and!; try done; lia.
Qed.
End Steps.

(** ** Bans along a history *)

(** A ban on the connection or on its address, in force until [until] at least. *)
Definition banned_until (s : RateLimiterState) (conn : string) (ip : IpAddr) (until : Z) : Prop :=
  (exists e, conn_bans s !! conn = Some e /\ until <= e)
  \/ (exists e, ip_bans s !! ip = Some e /\ until <= e).

Lemma check_dimension_ban {K} `{Countable K} cfg d (counters : gmap K WindowCounter) bans key now len :
  let '(_, bans', limited) := check_dimension cfg (Some d) counters bans key now len in
  limited = true -> bans' !! key = Some (now + d).
Proof.
  unfold check_dimension, impose_ban. destruct cfg as [cfg|]; [|done].
  destruct (counters !! key); [destruct (exceeds _ _)|destruct (_ || _)]; try done;
    intros _; apply lookup_insert_eq.
Qed.

(** A check keeps a ban, or moves its expiry to [now + d]. *)
Lemma check_dimension_keeps {K} `{Countable K} cfg d (counters : gmap K WindowCounter) bans key now
    len key' until :
  (exists e, bans !! key' = Some e /\ until <= e) -> until <= now + d ->
  let '(_, bans', _) := check_dimension cfg (Some d) counters bans key now len in
  exists e, bans' !! key' = Some e /\ until <= e.
Proof.
  intros Hb He. unfold check_dimension, impose_ban. destruct cfg as [cfg|]; [|done].
  assert (Hins : exists e, <[key := now + d]> bans !! key' = Some e /\ until <= e).
  { destruct (decide (key' = key)) as [->|]; [rewrite lookup_insert_eq; eauto|].
    by rewrite lookup_insert_ne by done. }
  by destruct (counters !! key); [destruct (exceeds _ _)|destruct (_ || _)].
Qed.

Lemma check_ban_keeps_until {K} `{Countable K} (bans : gmap K Z) key now key' until :
  now < until -> (exists e, bans !! key' = Some e /\ until <= e) ->
  exists e, (check_ban bans key now).2 !! key' = Some e /\ until <= e.
Proof.
  intros Hn (e & He & Hle). exists e. split; [|done]. apply check_ban_keeps; [lia|done].
Qed.

(** An event before the expiry keeps the ban. *)
Lemma banned_until_step s log e conn ip until d :
  ban_duration (config s) = Some d -> until <= event_time e + d -> event_time e < until ->
  banned_until s conn ip until -> banned_until (apply_event (s, log) e).1 conn ip until.
Proof.
  intros Hd Hu Ht Hb. destruct e as [now conn' ip' len|now ip'|now]; cbn [apply_event event_time] in *.
  - rewrite check_and_record_eq. destruct (in_force _ conn' now); [done|].
    destruct (in_force _ ip' now).
    { destruct Hb; [left|by right]. by apply check_ban_keeps_until. }
    rewrite Hd.
    pose proof (check_dimension_keeps (connection (config s)) d (conn_counters s)
      (check_ban (conn_bans s) conn' now).2 conn' now len conn until) as Hc.
    pose proof (check_dimension_keeps (ip_limit (config s)) d (ip_counters s)
      (check_ban (ip_bans s) ip' now).2 ip' now len ip until) as Hi.
    destruct (check_dimension _ _ (conn_counters s) _ _ _ _) as [[cc cb] cl].
    destruct (check_dimension _ _ (ip_counters s) _ _ _ _) as [[ic ib] il].
    destruct Hb; [left; apply Hc|right; apply Hi]; try done; by apply check_ban_keeps_until.
  - unfold is_ip_banned. destruct (check_ban (ip_bans s) ip' now) as [b bans] eqn:Hcb.
    destruct Hb; [by left|right]. replace bans with (check_ban (ip_bans s) ip' now).2 by (by rewrite Hcb).
    by apply check_ban_keeps_until.
  - destruct Hb as [(e & He & ?)|(e & He & ?)]; [left|right]; exists e;
      (split; [|done]); apply map_lookup_filter_Some; (split; [done|cbn; lia]).
Qed.

Lemma banned_until_run es conn ip until d : forall s t log,
  ban_duration (config s) = Some d -> until <= t + d -> monotone t es ->
  Forall (fun e => event_time e < until) es ->
  banned_until s conn ip until ->
  banned_until (fold_left apply_event es (s, log)).1 conn ip until.
Proof.
  induction es as [|e es IH]; intros s t log Hd Hu Hm Hlt Hb; [done|].
  destruct Hm as [Ht Hm]. inversion Hlt; subst. cbn [fold_left].
  pose proof (banned_until_step s log e conn ip until d Hd ltac:(lia) ltac:(done) Hb) as Hb'.
  pose proof (config_apply_event (s, log) e) as Hc.
  destruct (apply_event (s, log) e) as [s' log']. cbn [fst] in *.
  apply (IH s' (event_time e)); try done; [by rewrite Hc|lia].
Qed.

Lemma banned_until_verdict s conn ip until len now :
  banned_until s conn ip until -> now < until -> (check_and_record s conn ip len now).1 = Banned.
Proof.
  intros Hb Hn. rewrite check_and_record_eq. unfold in_force.
  destruct Hb as [(e & -> & ?)|(e & Hi & ?)].
  - by replace (now <? e) with true by lia.
  - rewrite Hi. replace (now <? e) with true by lia. 
    by destruct (conn_bans s !! conn) as [z|]; [destruct (now <? z)|].
Qed.

Lemma limited_banned s conn ip len now d s' :
  ban_duration (config s) = Some d -> check_and_record s conn ip len now = (Limited, s') ->
  banned_until s' conn ip (now + d) /\ config s' = config s.
Proof.
  intros Hd. rewrite check_and_record_eq. destruct (in_force _ conn now); [done|].
  destruct (in_force _ ip now); [done|]. rewrite Hd.
  pose proof (check_dimension_ban (connection (config s)) d (conn_counters s)
      (check_ban (conn_bans s) conn now).2 conn now len) as Hc.
  pose proof (check_dimension_ban (ip_limit (config s)) d (ip_counters s)
      (check_ban (ip_bans s) ip now).2 ip now len) as Hi.
  destruct (check_dimension _ _ (conn_counters s) _ _ _ _) as [[cc cb] cl].
  destruct (check_dimension _ _ (ip_counters s) _ _ _ _) as [[ic ib] il].
  intros [= Hv <-]. split; [|done].
  destruct cl; [left; exists (now + d); split; [by apply Hc|done]|].
  destruct il; [right; exists (now + d); split; [by apply Hi|done]|done].
Qed.

(** ** Locality of a verdict *)
Lemma check_ban_other {K} `{Countable K} (bans : gmap K Z) key now key' :
  key <> key' -> (check_ban bans key now).2 !! key' = bans !! key'.
Proof. intros Hne. unfold check_ban. repeat case_match; [done| |done]. by apply lookup_delete_ne. Qed.

Lemma check_ban_expired {K} `{Countable K} (bans : gmap K Z) key now :
  in_force bans key now = false -> (check_ban bans key now).2 !! key = None.
Proof.
  unfold in_force, check_ban. destruct (bans !! key) as [e|] eqn:Hb; [|done].
  intros ->. apply lookup_delete_eq.
Qed.

Lemma check_dimension_allowed {K} `{Countable K} cfg ban (counters : gmap K WindowCounter) bans key now len :
  let '(_, bans', limited) := check_dimension cfg ban counters bans key now len in
  limited = false -> bans' = bans.
Proof.
  unfold check_dimension. destruct cfg as [cfg|]; [|done].
  by destruct (counters !! key); [destruct (exceeds _ _)|destruct (_ || _)].
Qed.

(** The verdict of a dimension depends on the counter of the key only. *)
Definition dimension_limited (cfg : option RateLimitConfig) (c : option WindowCounter)
    (now len : Z) : bool :=
  match cfg with
  | None => false
  | Some cfg =>
      match c with
      | Some c => exceeds (count_frame (maybe_reset c now (period cfg)) len) cfg
      | None => bool_decide (max_messages cfg = Some 0) || bool_decide (max_bytes cfg = Some 0)
      end
  end.

Lemma check_dimension_limited {K} `{Countable K} cfg ban (counters : gmap K WindowCounter) bans key now len :
  (check_dimension cfg ban counters bans key now len).2
  = dimension_limited cfg (counters !! key) now len.
Proof.
  unfold check_dimension, dimension_limited. destruct cfg as [cfg|]; [|done].
  by destruct (counters !! key); [destruct (exceeds _ _)|destruct (_ || _)].
Qed.

Lemma verdict_eq s conn ip len now :
  (check_and_record s conn ip len now).1 =
  if in_force (conn_bans s) conn now || in_force (ip_bans s) ip now then Banned
  else if dimension_limited (connection (config s)) (conn_counters s !! conn) now len
          || dimension_limited (ip_limit (config s)) (ip_counters s !! ip) now len
       then Limited else Allowed.
Proof.
  rewrite check_and_record_eq. destruct (in_force _ conn now); [done|].
  destruct (in_force _ ip now); [done|]. cbn [orb].
  rewrite <- (check_dimension_limited (connection (config s)) (ban_duration (config s)) (conn_counters s)
    (check_ban (conn_bans s) conn now).2).
  rewrite <- (check_dimension_limited (ip_limit (config s)) (ban_duration (config s)) (ip_counters s)
    (check_ban (ip_bans s) ip now).2).
  destruct (check_dimension _ _ (conn_counters s) _ _ _ _) as [[cc cb] cl].
  by destruct (check_dimension _ _ (ip_counters s) _ _ _ _) as [[ic ib] il].
Qed.

Lemma verdict_local s s' conn ip len now :
  config s' = config s
  /\ conn_counters s' !! conn = conn_counters s !! conn
  /\ ip_counters s' !! ip = ip_counters s !! ip
  /\ conn_bans s' !! conn = conn_bans s !! conn
  /\ ip_bans s' !! ip = ip_bans s !! ip ->
  (check_and_record s' conn ip len now).1 = (check_and_record s conn ip len now).1.
Proof. intros (Hc & H1 & H2 & H3 & H4). rewrite !verdict_eq. unfold in_force. by rewrite Hc, H1, H2, H3, H4. Qed.

(** ** Cleanup is invisible

    Two states have the same future from [T] on when they differ only in bans
    that have expired and in counters whose window has closed. *)
Definition answer (s : RateLimiterState) (e : Event) : list Verdict :=
  match e with
  | Frame now conn ip len => [(check_and_record s conn ip len now).1]
  | AcceptIp now ip => [if (is_ip_banned s ip now).1 then Banned else Allowed]
  | Cleanup _ => []
  end.
Fixpoint answers (s : RateLimiterState) (es : list Event) : list Verdict :=
  match es with
  | [] => []
  | e :: es => answer s e ++ answers (apply_event (s, []) e).1 es
  end.

Definition expired (T : Z) (o : option Z) : Prop := forall e, o = Some e -> e <= T.
Definition ban_sim (T : Z) (o1 o2 : option Z) : Prop := o1 = o2 \/ expired T o1 /\ expired T o2.

Definition stale (P T : Z) (o : option WindowCounter) : Prop :=
  forall c, o = Some c -> P <= T - window_start c.
Definition ctr_sim (cfg : option RateLimitConfig) (T : Z) (o1 o2 : option WindowCounter) : Prop :=
  match cfg with
  | None => True
  | Some cfg => o1 = o2 \/ stale (period cfg) T o1 /\ stale (period cfg) T o2
  end.

Definition lim_sim (T : Z) (s1 s2 : RateLimiterState) : Prop :=
  config s1 = config s2
  /\ (forall k, ctr_sim (connection (config s1)) T (conn_counters s1 !! k) (conn_counters s2 !! k))
  /\ (forall k, ctr_sim (ip_limit (config s1)) T (ip_counters s1 !! k) (ip_counters s2 !! k))
  /\ (forall k, ban_sim T (conn_bans s1 !! k) (conn_bans s2 !! k))
  /\ (forall k, ban_sim T (ip_bans s1 !! k) (ip_bans s2 !! k)).

(** Frames for which the first-frame test agrees with the counter test. *)
Definition len_ok (cfg : option RateLimitConfig) (len : Z) : Prop :=
  0 < len < 2 ^ 64
  /\ forall c, cfg = Some c ->
       0 < period c
       /\ (forall n, max_messages c = Some n -> 0 <= n)
       /\ (forall b, max_bytes c = Some b -> len <= b).
Definition frames_ok (l : RateLimiter) (es : list Event) : Prop :=
  Forall (fun e => match e with
                   | Frame _ _ _ len => len_ok (connection l) len /\ len_ok (ip_limit l) len
                   | _ => True end) es.

Lemma ban_sim_later T T' o1 o2 : T <= T' -> ban_sim T o1 o2 -> ban_sim T' o1 o2.
Proof.
  intros HT [->|[H1 H2]]; [by left|right]. split; intros e He; [specialize (H1 e He)|specialize (H2 e He)]; lia.
Qed.

Lemma ctr_sim_later cfg T T' o1 o2 : T <= T' -> ctr_sim cfg T o1 o2 -> ctr_sim cfg T' o1 o2.
Proof.
  intros HT. destruct cfg as [cfg|]; [|done]. intros [->|[H1 H2]]; [by left|right].
  split; intros c Hc; [specialize (H1 c Hc)|specialize (H2 c Hc)]; lia.
Qed.

Lemma in_force_sim {K} `{Countable K} T (b1 b2 : gmap K Z) key now :
  T <= now -> ban_sim T (b1 !! key) (b2 !! key) -> in_force b1 key now = in_force b2 key now.
Proof.
  unfold in_force. intros HT [->|[H1 H2]]; [done|].
  destruct (b1 !! key) as [e1|], (b2 !! key) as [e2|]; [|..|done].
  - specialize (H1 _ eq_refl). specialize (H2 _ eq_refl). lia.
  - specialize (H1 _ eq_refl). lia.
  - specialize (H2 _ eq_refl). lia.
Qed.

Lemma check_ban_sim {K} `{Countable K} T (b1 b2 : gmap K Z) key now :
  T <= now -> (forall k, ban_sim T (b1 !! k) (b2 !! k)) ->
  forall k, ban_sim now ((check_ban b1 key now).2 !! k) ((check_ban b2 key now).2 !! k).
Proof.
  intros HT Hs k. pose proof (in_force_sim T b1 b2 key now HT (Hs key)) as Hf.
  destruct (decide (key = k)) as [<-|Hne].
  - destruct (in_force b1 key now) eqn:Hb.
    + unfold in_force, check_ban in *. destruct (b1 !! key) eqn:E1; [|done].
      destruct (b2 !! key) eqn:E2; [|done]. rewrite Hb, <- Hf. cbn.
      eapply ban_sim_later; [exact HT|]. apply Hs.
    + left. by rewrite !check_ban_expired.
  - rewrite !check_ban_other by done. eapply ban_sim_later; [exact HT|]. apply Hs.
Qed.

Lemma limit_zero x : bool_decide (Some x = Some 0) = (x =? 0).
Proof. case_bool_decide; simplify_eq; [done|]. symmetry. apply Z.eqb_neq. congruence. Qed.

(** A stale counter and an absent one answer alike and restart alike. *)
Lemma dimension_sim_none cfg len now o :
  len_ok (Some cfg) len -> stale (period cfg) now o ->
  dimension_limited (Some cfg) o now len = dimension_limited (Some cfg) None now len
  /\ match o with
     | Some c => count_frame (maybe_reset c now (period cfg)) len = mkWindowCounter now 1 len
     | None => True end.
Proof.
  intros (Hlen & Hc) Hst. specialize (Hc cfg eq_refl) as (HP & Hm & Hb).
  destruct o as [c|]; [|done]. specialize (Hst c eq_refl).
  assert (Hr : count_frame (maybe_reset c now (period cfg)) len = mkWindowCounter now 1 len).
  { unfold maybe_reset, duration_since. replace (period cfg <=? _) with true by lia.
    unfold count_frame. cbn [window_start message_count byte_count].
    rewrite !wrap_small by lia. done. }
  split; [|done]. cbn [dimension_limited]. rewrite Hr. unfold exceeds. cbn.
  destruct (max_messages cfg) as [mm|]; [specialize (Hm _ eq_refl)|clear Hm];
    destruct (max_bytes cfg) as [mb|]; [specialize (Hb _ eq_refl)|clear Hb|specialize (Hb _ eq_refl)|clear Hb].
  all: rewrite ?limit_zero, ?(bool_decide_false (None = Some 0)) by done;
    try destruct (Z.ltb_spec mm 1); lia.
Qed.

Definition next_counter (cfg : RateLimitConfig) (o : option WindowCounter) (now len : Z) :
    WindowCounter :=
  match o with
  | Some c => count_frame (maybe_reset c now (period cfg)) len
  | None => mkWindowCounter now 1 len
  end.

Lemma check_dimension_eq {K} `{Countable K} cfg ban (counters : gmap K WindowCounter) bans key now len :
  check_dimension (Some cfg) ban counters bans key now len =
  let limited := dimension_limited (Some cfg) (counters !! key) now len in
  (<[key := next_counter cfg (counters !! key) now len]> counters,
   if limited then impose_ban ban bans key now else bans, limited).
Proof.
  unfold check_dimension, dimension_limited, next_counter.
  by destruct (counters !! key); [destruct (exceeds _ _)|destruct (_ || _)].
Qed.

Lemma dimension_sim cfg len now T o1 o2 :
  len_ok (Some cfg) len -> T <= now -> ctr_sim (Some cfg) T o1 o2 ->
  dimension_limited (Some cfg) o1 now len = dimension_limited (Some cfg) o2 now len
  /\ next_counter cfg o1 now len = next_counter cfg o2 now len.
Proof.
  intros Hlen HT Hs. apply (ctr_sim_later _ _ now) in Hs; [|done].
  destruct Hs as [->|[H1 H2]]; [done|].
  destruct (dimension_sim_none cfg len now o1 Hlen H1) as [-> Hn1].
  destruct (dimension_sim_none cfg len now o2 Hlen H2) as [-> Hn2].
  split; [done|]. unfold next_counter. by destruct o1, o2; rewrite ?Hn1, ?Hn2.
Qed.

Lemma check_dimension_sim {K} `{Countable K} cfg ban (c1 c2 : gmap K WindowCounter) b1 b2 key now len T :
  len_ok cfg len -> T <= now ->
  (forall k, ctr_sim cfg T (c1 !! k) (c2 !! k)) ->
  (forall k, ban_sim now (b1 !! k) (b2 !! k)) ->
  let '(c1', b1', l1) := check_dimension cfg ban c1 b1 key now len in
  let '(c2', b2', l2) := check_dimension cfg ban c2 b2 key now len in
  l1 = l2 /\ (forall k, ctr_sim cfg now (c1' !! k) (c2' !! k))
  /\ (forall k, ban_sim now (b1' !! k) (b2' !! k)).
Proof.
  intros Hlen HT Hc Hb. destruct cfg as [cfg|]; [|done].
  rewrite !check_dimension_eq. cbv zeta.
  destruct (dimension_sim cfg len now T _ _ Hlen HT (Hc key)) as [-> ->].
  split_and!; [done| |].
  - intros k. destruct (decide (key = k)) as [<-|Hne].
    + rewrite !lookup_insert_eq. by left.
    + rewrite !lookup_insert_ne by done. by eapply ctr_sim_later.
  - intros k. destruct (dimension_limited _ _ _ _); [|done]. unfold impose_ban.
    destruct ban as [d|]; [|done]. destruct (decide (key = k)) as [<-|Hne].
    + rewrite !lookup_insert_eq. by left.
    + by rewrite !lookup_insert_ne.
Qed.

Lemma lim_sim_later T T' s1 s2 : T <= T' -> lim_sim T s1 s2 -> lim_sim T' s1 s2.
Proof.
  intros HT (Hc & H1 & H2 & H3 & H4).
  split_and!; [done|..]; intros k;
    (eapply ctr_sim_later || eapply ban_sim_later); eauto.
Qed.

(** A frame is answered alike by related states and keeps them related. *)
Lemma check_and_record_sim T s1 s2 conn ip len now :
  T <= now -> len_ok (connection (config s1)) len -> len_ok (ip_limit (config s1)) len ->
  lim_sim T s1 s2 ->
  (check_and_record s1 conn ip len now).1 = (check_and_record s2 conn ip len now).1
  /\ lim_sim now (check_and_record s1 conn ip len now).2 (check_and_record s2 conn ip len now).2.
Proof.
  intros HT Hlc Hli Hsim. pose proof (lim_sim_later _ _ _ _ HT Hsim) as Hnow.
  destruct Hsim as (Hc & H1 & H2 & H3 & H4). rewrite !check_and_record_eq, <- Hc.
  rewrite <- (in_force_sim T (conn_bans s1) (conn_bans s2) conn now HT (H3 conn)).
  destruct (in_force _ conn now); [done|].
  pose proof (check_ban_sim T _ _ conn now HT H3) as Hcb.
  rewrite <- (in_force_sim T (ip_bans s1) (ip_bans s2) ip now HT (H4 ip)).
  destruct (in_force _ ip now).
  { split; [done|]. destruct Hnow as (? & ? & ? & ? & ?). by split_and!. }
  pose proof (check_ban_sim T _ _ ip now HT H4) as Hib.
  pose proof (check_dimension_sim _ (ban_duration (config s1)) _ _ _ _ conn now len T Hlc HT H1 Hcb) as Hcd.
  pose proof (check_dimension_sim _ (ban_duration (config s1)) _ _ _ _ ip now len T Hli HT H2 Hib) as Hid.
  repeat match goal with
  | |- context [check_dimension ?a ?b ?c ?d ?e ?f ?g] =>
      destruct (check_dimension a b c d e f g) as [[? ?] ?]
  end.
  destruct Hcd as (-> & ? & ?), Hid as (-> & ? & ?). split; [done|]. by split_and!.
Qed.

Lemma filter_ban_sim {K} `{Countable K} T now (b1 b2 : gmap K Z) :
  T <= now -> (forall k, ban_sim T (b1 !! k) (b2 !! k)) ->
  forall k, ban_sim now (b1 !! k) (filter (fun kv : K * Z => now < kv.2) b2 !! k).
Proof.
  intros HT Hb k. rewrite map_lookup_filter.
  specialize (Hb k). apply (ban_sim_later _ now) in Hb; [|done].
  destruct (b2 !! k) as [e|]; cbn [mbind option_bind]; [|done].
  case_guard as Hg; cbn [mbind option_bind]; [done|]. right. cbn in Hg.
  assert (Hexp : expired now (Some e)) by (intros ? [= <-]; lia).
  split; [|done]. by destruct Hb as [->|[? ?]].
Qed.

Lemma filter_ctr_sim {K} `{Countable K} cfg threshold T now (c1 c2 : gmap K WindowCounter) :
  (forall c, cfg = Some c -> 0 < period c <= threshold) -> T <= now ->
  (forall k, ctr_sim cfg T (c1 !! k) (c2 !! k)) ->
  forall k, ctr_sim cfg now (c1 !! k)
    (filter (fun kv : K * WindowCounter => duration_since now (window_start kv.2) < threshold) c2 !! k).
Proof.
  intros Hth HT Hc k. destruct cfg as [cfg|]; [|done]. rewrite map_lookup_filter.
  specialize (Hc k). apply (ctr_sim_later _ _ now) in Hc; [|done].
  destruct (c2 !! k) as [c|]; cbn [mbind option_bind]; [|done].
  case_guard as Hg; cbn [mbind option_bind]; [done|]. right. cbn in Hg. unfold duration_since in Hg.
  specialize (Hth cfg eq_refl).
  assert (Hst : stale (period cfg) now (Some c)) by (intros ? [= <-]; lia).
  split; [|done]. by destruct Hc as [->|[? ?]].
Qed.

Definition periods_pos (l : RateLimiter) : Prop :=
  forall c, connection l = Some c \/ ip_limit l = Some c -> 0 < period c.

Lemma lim_sim_cleanup T s1 s2 now :
  periods_pos (config s1) -> T <= now -> lim_sim T s1 s2 -> lim_sim now s1 (cleanup s2 now).
Proof.
  intros HP HT (Hc & H1 & H2 & H3 & H4). unfold cleanup. rewrite <- Hc.
  split_and!; cbn [config conn_counters ip_counters conn_bans ip_bans]; [done|..].
  - apply (filter_ctr_sim _ _ T); [|done..]. intros c Hcfg.
    pose proof (HP c (or_introl Hcfg)). pose proof (period_le_max c _ (or_introl Hcfg)). lia.
  - apply (filter_ctr_sim _ _ T); [|done..]. intros c Hcfg.
    pose proof (HP c (or_intror Hcfg)). pose proof (period_le_max c _ (or_intror Hcfg)). lia.
  - by apply (filter_ban_sim T).
  - by apply (filter_ban_sim T).
Qed.

Lemma ctr_sim_sym cfg T o1 o2 : ctr_sim cfg T o1 o2 -> ctr_sim cfg T o2 o1.
Proof. destruct cfg; [|done]. intros [->|[? ?]]; [by left|by right]. Qed.
Lemma ban_sim_sym T o1 o2 : ban_sim T o1 o2 -> ban_sim T o2 o1.
Proof. intros [->|[? ?]]; [by left|by right]. Qed.

Lemma lim_sim_sym T s1 s2 : lim_sim T s1 s2 -> lim_sim T s2 s1.
Proof.
  intros (Hc & H1 & H2 & H3 & H4). unfold lim_sim. rewrite <- Hc.
  split_and!; [done|..]; intros k; by (apply ctr_sim_sym || apply ban_sim_sym).
Qed.

Lemma lim_sim_refl T s : lim_sim T s s.
Proof.
  split_and!; [done| | |by left|by left]; intros k.
  - destruct (connection (config s)); [by left|done].
  - destruct (ip_limit (config s)); [by left|done].
Qed.

Lemma event_sim T s1 s2 e :
  periods_pos (config s1) -> T <= event_time e -> frames_ok (config s1) [e] -> lim_sim T s1 s2 ->
  answer s1 e = answer s2 e
  /\ lim_sim (event_time e) (apply_event (s1, []) e).1 (apply_event (s2, []) e).1.
Proof.
  intros HP HT Hok Hsim. pose proof Hsim as (Hc & H1 & H2 & H3 & H4).
  destruct e as [now conn ip len|now ip|now]; cbn [event_time answer apply_event] in *.
  - pose proof (Forall_inv Hok) as [Hlc Hli].
    pose proof (check_and_record_sim T s1 s2 conn ip len now HT Hlc Hli Hsim) as [Hv Hs].
    destruct (check_and_record s1 conn ip len now), (check_and_record s2 conn ip len now).
    cbn in Hv, Hs. by rewrite Hv.
  - unfold is_ip_banned. pose proof (check_ban_sim T _ _ ip now HT H4) as Hib.
    pose proof (check_ban_verdict (ip_bans s1) ip now) as V1.
    pose proof (check_ban_verdict (ip_bans s2) ip now) as V2.
    rewrite (in_force_sim T (ip_bans s1) (ip_bans s2) ip now HT (H4 ip)) in V1.
    destruct (check_ban (ip_bans s1) ip now), (check_ban (ip_bans s2) ip now).
    cbn [fst snd] in *. subst. split; [done|].
    destruct (lim_sim_later _ _ _ _ HT Hsim) as (? & ? & ? & ? & ?). by split_and!.
  - split; [done|]. cbn [fst]. apply lim_sim_sym.
    apply (lim_sim_cleanup now); [|lia|apply lim_sim_sym; by apply (lim_sim_cleanup T)].
    by cbn; rewrite <- Hc.
Qed.

Lemma answers_sim es : forall T s1 s2,
  periods_pos (config s1) -> monotone T es -> frames_ok (config s1) es -> lim_sim T s1 s2 ->
  answers s1 es = answers s2 es.
Proof.
  induction es as [|e es IH]; intros T s1 s2 HP Hm Hok Hsim; [done|].
  destruct Hm as [HT Hm]. inversion Hok as [|? ? He Hes]; subst. cbn [answers].
  destruct (event_sim T s1 s2 e HP HT ltac:(by constructor) Hsim) as [-> Hs]. f_equal.
  apply (IH (event_time e)); try done; by rewrite config_apply_event.
Qed.

(** ** Properties *)

(** The rate a connection can sustain.  From a fresh limiter, along every
    history of frames (of any connections and addresses), connection attempts
    and cleanups at non-decreasing instants, the frames of one connection that
    are allowed within any interval one period long cost at most twice the
    configured limit, in messages and, when no single frame is larger than the
    byte limit, in bytes. *)
Theorem connection_rate_bounded m limiter cfg L conn t0 es x :
  connection limiter = Some cfg -> meter_limit m cfg = Some L -> 0 <= L -> 0 < period cfg ->
  monotone t0 es -> frames_metered m L es -> total_weight m es < 2 ^ 64 ->
  let log := conn_log conn (run (limiter_build limiter) es).2 in
  spent m (within x (x + period cfg)) log <= 2 * L.
Proof.
  intros Hcfg HL HL0 HP Hmono Hmet Htot. cbv zeta. unfold run.
  destruct (run_induction m L
    (fun T n st => connection (config st.1) = Some cfg
       /\ window_inv m (period cfg) L T n (conn_counters st.1 !! conn) (conn_log conn st.2))
    es t0 0 (limiter_build limiter, [])) as (T' & n' & _ & _ & H3 & _); try done.
  - intros T n st e He [Hc Hinv]. rewrite config_apply_event. split; [done|]. by eapply conn_step.
  - split; [done|]. cbn. rewrite lookup_empty. by apply window_inv_init.
Qed.

(** The rate an address can sustain, over all of its connections: the same
    bound for the per-IP limit. *)
Theorem ip_rate_bounded m limiter cfg L ip t0 es x :
  ip_limit limiter = Some cfg -> meter_limit m cfg = Some L -> 0 <= L -> 0 < period cfg ->
  monotone t0 es -> frames_metered m L es -> total_weight m es < 2 ^ 64 ->
  let log := ip_log ip (run (limiter_build limiter) es).2 in
  spent m (within x (x + period cfg)) log <= 2 * L.
Proof.
  intros Hcfg HL HL0 HP Hmono Hmet Htot. cbv zeta. unfold run.
  destruct (run_induction m L
    (fun T n st => ip_limit (config st.1) = Some cfg
       /\ window_inv m (period cfg) L T n (ip_counters st.1 !! ip) (ip_log ip st.2))
    es t0 0 (limiter_build limiter, [])) as (T' & n' & _ & _ & H3 & _); try done.
  - intros T n st e He [Hc Hinv]. rewrite config_apply_event. split; [done|]. by eapply ip_step.
  - split; [done|]. cbn. rewrite lookup_empty. by apply window_inv_init.
Qed.

(** Bans are enforced.  When a frame is refused as [Limited] at [now] by a
    limiter with a ban duration [d], every frame of the same connection from the
    same address before [now + d] is answered [Banned], whatever frames of any
    connections, connection attempts and cleanups happen in between. *)
Theorem ban_enforced s conn ip len now d s' es now' len' :
  ban_duration (config s) = Some d ->
  check_and_record s conn ip len now = (Limited, s') ->
  monotone now es -> Forall (fun e => event_time e < now + d) es -> now' < now + d ->
  (check_and_record (run_state s' es) conn ip len' now').1 = Banned.
Proof.
  intros Hd Hl Hm Hes Hnow. destruct (limited_banned _ _ _ _ _ _ _ Hd Hl) as [Hb Hc].
  apply (banned_until_verdict _ _ _ (now + d)); [|done].
  apply (banned_until_run es conn ip (now + d) d s' now); try done. by rewrite Hc.
Qed.

(** A frame is answered [Banned] exactly when a ban of its connection or of
    its address is in force; otherwise the answer is [Limited] or [Allowed], and
    no expired ban of the two keys is left in the state. *)
Theorem banned_exactly s conn ip len now :
  let '(v, s') := check_and_record s conn ip len now in
  (v = Banned <-> in_force (conn_bans s) conn now = true \/ in_force (ip_bans s) ip now = true)
  /\ (v = Allowed -> conn_bans s' !! conn = None /\ ip_bans s' !! ip = None).
Proof.
  rewrite check_and_record_eq. destruct (in_force _ conn now) eqn:Hc; [naive_solver|].
  destruct (in_force _ ip now) eqn:Hi; [naive_solver|].
  pose proof (check_dimension_allowed (connection (config s)) (ban_duration (config s))
    (conn_counters s) (check_ban (conn_bans s) conn now).2 conn now len) as Hcd.
  pose proof (check_dimension_allowed (ip_limit (config s)) (ban_duration (config s))
    (ip_counters s) (check_ban (ip_bans s) ip now).2 ip now len) as Hid.
  destruct (check_dimension _ _ (conn_counters s) _ _ _ _) as [[cc cb] cl].
  destruct (check_dimension _ _ (ip_counters s) _ _ _ _) as [[ic ib] il].
  split; [destruct cl, il; naive_solver|]. destruct cl, il; try done. intros _.
  cbn [conn_bans ip_bans]. rewrite Hcd, Hid by done. by rewrite !check_ban_expired.
Qed.

(** Isolation.  A frame of one connection from one address changes nothing
    for a frame of another connection from another address: the verdict on the
    latter is the same before and after. *)
Theorem limiter_isolation s conn ip len now conn' ip' len' now' :
  conn <> conn' -> ip <> ip' ->
  (check_and_record (check_and_record s conn ip len now).2 conn' ip' len' now').1
  = (check_and_record s conn' ip' len' now').1.
Proof.
  intros Hc Hi. apply verdict_local.
  rewrite check_and_record_eq. destruct (in_force _ conn now); [by split_and!|].
  destruct (in_force _ ip now).
  { cbn. split_and!; try done. by rewrite check_ban_other. }
  pose proof (check_dimension_other (connection (config s)) (ban_duration (config s))
    (conn_counters s) (check_ban (conn_bans s) conn now).2 conn now len conn') as Hcd.
  pose proof (check_dimension_other (ip_limit (config s)) (ban_duration (config s))
    (ip_counters s) (check_ban (ip_bans s) ip now).2 ip now len ip') as Hid.
  destruct (check_dimension _ _ (conn_counters s) _ _ _ _) as [[cc cb] cl].
  destruct (check_dimension _ _ (ip_counters s) _ _ _ _) as [[ic ib] il]. cbn.
  destruct Hcd as [-> ->]; [done|]. destruct Hid as [-> ->]; [done|].
  split_and!; try done; by rewrite check_ban_other.
Qed.

(** C28: cleanup is invisible.  When no frame exceeds a byte limit on its own,
    running [cleanup] changes no later answer: along every history, the
    verdicts on frames and on connection attempts are the ones given without
    the cleanup. *)
Theorem cleanup_invisible s now es :
  periods_pos (config s) -> monotone now es -> frames_ok (config s) es ->
  answers (cleanup s now) es = answers s es.
Proof.
  intros HP Hm Hok. symmetry. apply (answers_sim es now); try done.
  apply (lim_sim_cleanup now); [done|done|apply lim_sim_refl].
Qed.

(** The first frame is not measured.  With a byte limit [b > 0] and no other
    limit, the first frame of a connection is [Allowed] however long it is, and
    only the frame after it is refused. *)
Theorem first_frame_unmeasured cfg b conn ip len now :
  0 < period cfg -> max_messages cfg = None -> max_bytes cfg = Some b -> 0 < b -> b < len < 2 ^ 63 ->
  let s := limiter_build (limiter_connection limiter_new cfg) in
  let '(v, s') := check_and_record s conn ip len now in
  v = Allowed /\ (check_and_record s' conn ip 1 now).1 = Limited.
Proof.
  intros HP Hm Hb Hb0 Hlen. cbv zeta. rewrite check_and_record_eq. cbn -[check_dimension].
  unfold in_force. rewrite !lookup_empty. rewrite check_dimension_eq. cbn.
  rewrite lookup_empty. cbn. rewrite Hm, Hb, limit_zero. replace (b =? 0) with false by lia.
  rewrite bool_decide_false by done. split; [done|].
  rewrite verdict_eq. cbn. unfold in_force, check_ban. cbn. rewrite !lookup_empty. cbn.
  rewrite lookup_insert_eq. unfold exceeds, maybe_reset, duration_since, count_frame. cbn.
  rewrite Z.sub_diag, Hm, Hb. replace (period cfg <=? Z.max 0 0) with false by lia. cbn.
  rewrite (wrap_small 64 (len + 1)) by lia. by replace (b <? len + 1) with true by lia.
Qed.

(** ** Instances *)
Definition lim_cfg : RateLimitConfig :=
  config_max_bytes (config_max_messages (config_new (secs 1)) 2) 1000.
Definition lim : RateLimiter :=
  limiter_ban_duration (limiter_ip (limiter_connection limiter_new lim_cfg) lim_cfg) (secs 60).
Definition lim_history : list Event :=
  [Frame 10 "c1" (V4 1) 100; Frame 20 "c2" (V4 2) 50; Cleanup 30; AcceptIp 40 (V4 1);
   Frame 50 "c1" (V4 1) 100; Frame (secs 2) "c1" (V4 1) 700].

Lemma lim_history_monotone : monotone 0 lim_history.
Proof. vm_compute. repeat split; discriminate. Qed.
Lemma lim_history_metered m L : 1000 <= L -> frames_metered m L lim_history.
Proof. intros. repeat constructor; lia. Qed.

Lemma connection_rate_bounded_witness :
  spent Messages (within 10 (10 + secs 1)) (conn_log "c1" (run (limiter_build lim) lim_history).2)
    <= 2 * 2
  /\ spent Messages (within 10 (10 + secs 1)) (conn_log "c1" (run (limiter_build lim) lim_history).2)
     = 2.
Proof.
  split; [|vm_compute; reflexivity].
  apply (connection_rate_bounded Messages lim lim_cfg 2 "c1" 0 lim_history 10);
    [reflexivity|reflexivity|lia|cbn; unfold secs; lia|exact lim_history_monotone| |vm_compute; reflexivity].
  repeat constructor; discriminate.
Defined.

Lemma ip_rate_bounded_witness :
  spent Bytes (within 10 (10 + secs 1)) (ip_log (V4 1) (run (limiter_build lim) lim_history).2)
    <= 2 * 1000.
Proof.
  apply (ip_rate_bounded Bytes lim lim_cfg 1000 (V4 1) 0 lim_history 10);
    [reflexivity|reflexivity|lia|cbn; unfold secs; lia|exact lim_history_monotone| |vm_compute; reflexivity].
  apply lim_history_metered. lia.
Defined.

(** A limit of two per second lets three frames through in 0.2 s, across a
    window boundary: the window is fixed, not sliding. *)
Example double_burst :
  spent Messages (within 800000000 (800000000 + secs 1))
    (conn_log "c" (run (limiter_build (limiter_connection limiter_new lim_cfg))
      [Frame 0 "c" (V4 1) 1; Frame 900000000 "c" (V4 1) 1;
       Frame (secs 1) "c" (V4 1) 1; Frame (secs 1 + 1) "c" (V4 1) 1]).2) = 3.
Proof. vm_compute. reflexivity. Qed.

Definition lim_over : RateLimiterState :=
  run_state (limiter_build lim) [Frame 10 "c1" (V4 1) 100; Frame 20 "c1" (V4 1) 100].

Lemma ban_enforced_witness :
  (check_and_record
     (run_state (check_and_record lim_over "c1" (V4 1) 5 30).2
        [Cleanup 40; Frame 50 "c2" (V4 2) 9; AcceptIp 60 (V4 1)]) "c1" (V4 1) 7 (secs 60)).1
  = Banned.
Proof.
  apply (ban_enforced lim_over "c1" (V4 1) 5 30 (secs 60));
    [reflexivity|vm_compute; reflexivity|vm_compute; repeat split; discriminate| |reflexivity].
  repeat constructor; vm_compute; reflexivity.
Defined.

Lemma limiter_isolation_witness :
  (check_and_record (check_and_record lim_over "c1" (V4 1) 5 30).2 "c2" (V4 2) 5 31).1
  = (check_and_record lim_over "c2" (V4 2) 5 31).1.
Proof. apply (limiter_isolation lim_over "c1" (V4 1) 5 30 "c2" (V4 2) 5 31); discriminate. Defined.

Lemma cleanup_invisible_witness :
  answers (cleanup lim_over (secs 1)) [Frame (secs 2) "c1" (V4 1) 100; AcceptIp (secs 3) (V4 1)]
  = answers lim_over [Frame (secs 2) "c1" (V4 1) 100; AcceptIp (secs 3) (V4 1)].
Proof.
  apply (cleanup_invisible lim_over (secs 1)).
  - intros c [[= <-]|[= <-]]; reflexivity.
  - vm_compute. repeat split; discriminate.
  - constructor; [|repeat constructor].
    split; (split; [lia|]); intros c [= <-];
      (split_and!; [reflexivity|intros n Hn; vm_compute in Hn; injection Hn as <-; lia
                 |intros b Hb; vm_compute in Hb; injection Hb as <-; lia]).
Defined.

Lemma first_frame_unmeasured_witness :
  let s := limiter_build (limiter_connection limiter_new (config_max_bytes (config_new (secs 1)) 10)) in
  let '(v, s') := check_and_record s "c" (V4 1) 1000000 5 in
  v = Allowed /\ (check_and_record s' "c" (V4 1) 1 5).1 = Limited.
Proof.
  apply (first_frame_unmeasured (config_max_bytes (config_new (secs 1)) 10) 10); cbn;
    first [reflexivity|unfold secs; lia].
Defined.
