(* ===== verification/LimiterThreads.v ===== *)
(** * The rate limiter at the granularity of its map accesses

    [RateLimiter] takes [check_and_record], [is_ip_banned] and [cleanup] as one
    step each.  The code makes them from separate accesses to four concurrent
    maps, and the reader of every connection, the tasks that accept connections
    and the cleanup task run them at the same time.  Here each access is a step:

    - [Stage] says where a call stands; between [get] and [remove] or [insert] no
      lock is held;
    - every call reads the clock once, when it starts ([is_ip_banned] reads it
      under the guard of its lookup; an earlier reading is allowed here too);
    - a ban is imposed under the guard of the counter it follows from; here other
      calls may come in between as well;
    - [retain] locks one shard after the other, so [cleanup] drops stale entries
      one at a time;
    - a connection has one reader, so at most one of its frames is checked at a
      time.

    What holds of the connection dimension when calls are atomic still holds; of
    the address dimension, which many readers share, it does not. *)

From stdpp Require Import pretty.
From S2P Require Import Prelude RateLimiter.
#[local] Open Scope Z_scope.

(** ** One call *)

(** Where a call stands: the accesses of [check_and_record] to the bans, then to
    the counters ([CInsert] and [IInsert] after [get_mut] found nothing; the flag
    is [limited]), those of [is_ip_banned], and [cleanup]. *)
Inductive Stage : Type :=
| CBan | CUnban | IBan | IUnban
| CCount | CInsert | CImpose
| ICount (limited : bool) | IInsert (limited : bool) | IImpose
| CDone (v : Verdict)
| ABan | AUnban | ADone (banned : bool)
| Sweep.

Definition start (e : Event) : Stage :=
  match e with Frame _ _ _ _ => CBan | AcceptIp _ _ => ABan | Cleanup _ => Sweep end.
(** Nothing is left that the call has to do. *)
Definition final (pc : Stage) : bool :=
  match pc with CDone _ | ADone _ | Sweep => true | _ => false end.

Definition set_conn (s : RateLimiterState) (c : gmap string WindowCounter) (b : gmap string Z) : RateLimiterState :=
  mkRateLimiterState (config s) c (ip_counters s) b (ip_bans s).
Definition set_ip (s : RateLimiterState) (c : gmap IpAddr WindowCounter) (b : gmap IpAddr Z) : RateLimiterState :=
  mkRateLimiterState (config s) (conn_counters s) c (conn_bans s) b.

Section Dimension.
Context {K : Type} `{Countable K}.
Implicit Types (counters : gmap K WindowCounter) (bans : gmap K Z).

(** [get]: no ban, a ban in force ([Some true]) or an expired one. *)
Definition get_ban bans (key : K) (now : Z) : option bool := (fun e => now <? e) <$> bans !! key.

(** [get_mut], and the count under its guard; [None] when there is no entry. *)
Definition count_entry (cfg : RateLimitConfig) counters (key : K) (now len : Z) :
    option (gmap K WindowCounter * bool) :=
  (fun c => let c := count_frame (maybe_reset c now (period cfg)) len in
            (<[key := c]> counters, exceeds c cfg)) <$> counters !! key.

(** [insert] of a new window. *)
Definition insert_entry (cfg : RateLimitConfig) counters (key : K) (now len : Z) :
    gmap K WindowCounter * bool :=
  (<[key := {| window_start := now; message_count := 1; byte_count := len |}]> counters,
   bool_decide (max_messages cfg = Some 0) || bool_decide (max_bytes cfg = Some 0)).
End Dimension.

Definition verdict_of (limited : bool) : Verdict := if limited then Limited else Allowed.

(** The next access of a call. *)
Definition access (e : Event) (pc : Stage) (s : RateLimiterState) : option (Stage * RateLimiterState) :=
  match e with
  | Frame now conn ip len =>
      match pc with
      | CBan => Some (match get_ban (conn_bans s) conn now with
                      | Some true => CDone Banned | Some false => CUnban | None => IBan end, s)
      | CUnban => Some (IBan, set_conn s (conn_counters s) (delete conn (conn_bans s)))
      | IBan => Some (match get_ban (ip_bans s) ip now with
                      | Some true => CDone Banned | Some false => IUnban | None => CCount end, s)
      | IUnban => Some (CCount, set_ip s (ip_counters s) (delete ip (ip_bans s)))
      | CCount =>
          match connection (config s) with
          | None => Some (ICount false, s)
          | Some cfg =>
              match count_entry cfg (conn_counters s) conn now len with
              | Some (counters, limited) =>
                  Some (if limited then CImpose else ICount false, set_conn s counters (conn_bans s))
              | None => Some (CInsert, s)
              end
          end
      | CInsert =>
          match connection (config s) with
          | None => None
          | Some cfg =>
              let '(counters, limited) := insert_entry cfg (conn_counters s) conn now len in
              Some (if limited then CImpose else ICount false, set_conn s counters (conn_bans s))
          end
      | CImpose =>
          Some (ICount true, set_conn s (conn_counters s) (impose_ban (ban_duration (config s)) (conn_bans s) conn now))
      | ICount limited =>
          match ip_limit (config s) with
          | None => Some (CDone (verdict_of limited), s)
          | Some cfg =>
              match count_entry cfg (ip_counters s) ip now len with
              | Some (counters, over) =>
                  Some (if over then IImpose else CDone (verdict_of limited), set_ip s counters (ip_bans s))
              | None => Some (IInsert limited, s)
              end
          end
      | IInsert limited =>
          match ip_limit (config s) with
          | None => None
          | Some cfg =>
              let '(counters, over) := insert_entry cfg (ip_counters s) ip now len in
              Some (if over then IImpose else CDone (verdict_of limited), set_ip s counters (ip_bans s))
          end
      | IImpose =>
          Some (CDone Limited, set_ip s (ip_counters s) (impose_ban (ban_duration (config s)) (ip_bans s) ip now))
      | _ => None
      end
  | AcceptIp now ip =>
      match pc with
      | ABan => Some (match get_ban (ip_bans s) ip now with
                      | Some true => ADone true | Some false => AUnban | None => ADone false end, s)
      | AUnban => Some (ADone false, set_ip s (ip_counters s) (delete ip (ip_bans s)))
      | _ => None
      end
  | Cleanup _ => None
  end.

(** [retain] drops one entry. *)
Definition stale_threshold (s : RateLimiterState) : Z := default (secs 60) (iter_max (periods (config s))) * 2.
Definition stale (s : RateLimiterState) (now : Z) (c : WindowCounter) : Prop :=
  stale_threshold s <= duration_since now (window_start c).
Inductive sweep_one (now : Z) (s : RateLimiterState) : RateLimiterState -> Prop :=
| SweepConn key c :
    conn_counters s !! key = Some c -> stale s now c ->
    sweep_one now s (set_conn s (delete key (conn_counters s)) (conn_bans s))
| SweepIp key c :
    ip_counters s !! key = Some c -> stale s now c ->
    sweep_one now s (set_ip s (delete key (ip_counters s)) (ip_bans s))
| SweepConnBan key e :
    conn_bans s !! key = Some e -> e <= now ->
    sweep_one now s (set_conn s (conn_counters s) (delete key (conn_bans s)))
| SweepIpBan key e :
    ip_bans s !! key = Some e -> e <= now ->
    sweep_one now s (set_ip s (ip_counters s) (delete key (ip_bans s))).

(** ** The interleaving *)

(** The clock, the maps, the calls in progress, the frames offered and the frames
    allowed. *)
Record Lim : Type := mkLim {
  clock : Z;
  shared : RateLimiterState;
  checks : gmap nat (Event * Stage);
  seen : list Entry;
  log : list Entry;
}.

Definition offered (e : Event) : list Entry :=
  match e with Frame now conn ip len => [mkEntry now conn ip len] | _ => [] end.
Definition passed (e : Event) (pc : Stage) : list Entry :=
  match pc with CDone Allowed => offered e | _ => [] end.

(** A frame of the connection is being checked. *)
Definition checking (conn : string) (cs : gmap nat (Event * Stage)) (t : nat) (now : Z) (ip : IpAddr) (len : Z) (pc : Stage) : Prop :=
  cs !! t = Some (Frame now conn ip len, pc) /\ final pc = false.

(** A frame is checked within [patience] of reading the clock. *)
Inductive lim_step (patience : Z) : Lim -> Lim -> Prop :=
| LTick c' c s cs sn lg :
    c <= c' -> (forall conn t now ip len pc, checking conn cs t now ip len pc -> c' <= now + patience) ->
    lim_step patience (mkLim c s cs sn lg) (mkLim c' s cs sn lg)
| LStart t e s cs sn lg :
    cs !! t = None ->
    match e with
    | Frame _ conn _ _ => forall t now ip len pc, ~ checking conn cs t now ip len pc
    | _ => True
    end ->
    lim_step patience (mkLim (event_time e) s cs sn lg)
      (mkLim (event_time e) s (<[t := (e, start e)]> cs) (offered e ++ sn) lg)
| LAdvance t e pc pc' c s s' cs sn lg :
    cs !! t = Some (e, pc) -> access e pc s = Some (pc', s') ->
    lim_step patience (mkLim c s cs sn lg) (mkLim c s' (<[t := (e, pc')]> cs) sn (passed e pc' ++ lg))
| LSweep t now c s s' cs sn lg :
    cs !! t = Some (Cleanup now, Sweep) -> sweep_one now s s' ->
    lim_step patience (mkLim c s cs sn lg) (mkLim c s' cs sn lg)
| LEnd t e pc c s cs sn lg :
    cs !! t = Some (e, pc) -> final pc = true ->
    lim_step patience (mkLim c s cs sn lg) (mkLim c s (delete t cs) sn lg).

Definition lim_init (l : RateLimiter) (t0 : Z) : Lim := mkLim t0 (limiter_build l) ∅ [] [].

(** ** Accesses *)

(** One dimension of [check_and_record], from its accesses. *)
Lemma check_dimension_accesses {K} `{Countable K} cfg ban (counters : gmap K WindowCounter) bans key now len :
  check_dimension (Some cfg) ban counters bans key now len =
  let '(counters', limited) := default (insert_entry cfg counters key now len) (count_entry cfg counters key now len) in
  (counters', if limited then impose_ban ban bans key now else bans, limited).
Proof.
  unfold check_dimension, count_entry, insert_entry. destruct (counters !! key); cbn; by destruct (_ : bool).
Qed.

(** The ban lookup, likewise. *)
Lemma check_ban_accesses {K} `{Countable K} (bans : gmap K Z) key now :
  check_ban bans key now =
  match get_ban bans key now with Some true => (true, bans) | Some false => (false, delete key bans) | None => (false, bans) end.
Proof. unfold check_ban, get_ban. destruct (bans !! key); cbn; by try destruct (_ <? _). Qed.

Lemma count_entry_other {K} `{Countable K} cfg (counters counters' : gmap K WindowCounter) key now len l key' :
  count_entry cfg counters key now len = Some (counters', l) -> key' <> key -> counters' !! key' = counters !! key'.
Proof. unfold count_entry. destruct (counters !! key); [|done]. intros [= <- _] ?. by rewrite lookup_insert_ne. Qed.
Lemma insert_entry_other {K} `{Countable K} cfg (counters : gmap K WindowCounter) key now len key' :
  key' <> key -> (insert_entry cfg counters key now len).1 !! key' = counters !! key'.
Proof. intros ?. cbn. by rewrite lookup_insert_ne. Qed.

Ltac access_cases Hadv :=
  unfold access in Hadv;
  repeat match type of Hadv with
  | context [match ?x with _ => _ end] =>
      lazymatch x with
      | insert_entry _ _ _ _ _ => let l := fresh "l" in destruct x as [? l] eqn:?
      | _ => destruct x eqn:?
      end; try discriminate Hadv
  end;
  simplify_eq Hadv; clear Hadv; intros; subst.

Lemma access_config e pc s pc' s' : access e pc s = Some (pc', s') -> config s' = config s.
Proof. intros Hadv. by access_cases Hadv. Qed.

(** The calls for other connections leave this one's entries alone. *)
Lemma access_other conn e pc s pc' s' :
  (forall now ip len, e <> Frame now conn ip len) -> access e pc s = Some (pc', s') ->
  conn_counters s' !! conn = conn_counters s !! conn /\ conn_bans s' !! conn = conn_bans s !! conn
  /\ forall lg, conn_log conn (passed e pc' ++ lg) = conn_log conn lg.
Proof.
  intros Hne Hadv. assert (Hlog : forall lg, conn_log conn (passed e pc' ++ lg) = conn_log conn lg).
  { intros lg. destruct pc' as [| | | | | | | | | |[]| | | |]; try done. destruct e as [now c ip len| |]; try done.
    cbn [passed offered app].
    rewrite conn_log_cons, bool_decide_false; [done|]. intros ->. by eapply Hne. }
  destruct e as [now c ip len|now ip|now]; [|by access_cases Hadv..].
  assert (conn <> c) by (intros ->; by eapply Hne).
  revert Hadv. destruct pc; cbn [access]; try done.
  all: intros Hadv; access_cases Hadv; cbn [conn_counters conn_bans set_conn set_ip]; rewrite ?lookup_delete_ne by done; try done.
  all: try (unfold impose_ban; case_match; rewrite ?lookup_insert_ne by done; done).
  all: split_and!; try done.
  - by eapply count_entry_other.
  - by eapply count_entry_other.
  - rewrite <- (insert_entry_other r (conn_counters s) c now len conn) by done. by rewrite Heqp.
  - rewrite <- (insert_entry_other r (conn_counters s) c now len conn) by done. by rewrite Heqp.
Qed.

(** ** One reader per connection *)
Section Readers.
Context (conn : string).

(** A call that is not a frame of this connection. *)
Lemma checking_insert_other cs t e pc t' now ip len pc' :
  (forall now ip len, e <> Frame now conn ip len) \/ final pc = true ->
  checking conn (<[t := (e, pc)]> cs) t' now ip len pc' -> t' <> t /\ checking conn cs t' now ip len pc'.
Proof.
  intros He [[[<- [= -> ->]]|[Hne Hl]]%lookup_insert_Some Hf]; [|done].
  destruct He as [He|He]; [by destruct (He now ip len)|congruence].
Qed.
Lemma checking_insert cs t now ip len pc t' now' ip' len' pc' :
  checking conn (<[t := (Frame now conn ip len, pc)]> cs) t' now' ip' len' pc' ->
  (t' = t /\ (now', ip', len', pc') = (now, ip, len, pc)) \/ (t' <> t /\ checking conn cs t' now' ip' len' pc').
Proof. intros [[[<- [= -> -> -> ->]]|[Hne Hl]]%lookup_insert_Some Hf]; [by left|by right]. Qed.
Lemma checking_delete cs t t' now ip len pc :
  checking conn (delete t cs) t' now ip len pc -> t' <> t /\ checking conn cs t' now ip len pc.
Proof. intros [[Hne Hl]%lookup_delete_Some Hf]. by split. Qed.

Lemma of_conn_spec e :
  (exists now ip len, e = Frame now conn ip len) \/ (forall now ip len, e <> Frame now conn ip len).
Proof.
  destruct e as [now c ip len| |]; [|by right..]. destruct (decide (c = conn)) as [->|Hne]; [left; eauto|right].
  by intros ? ? ? [= ? ? ?].
Qed.

Lemma access_live e pc s r : access e pc s = Some r -> final pc = false.
Proof. by destruct e, pc. Qed.

(** A frame of the connection moves on: it is the only one. *)
Lemma checking_mine cs t now ip len pc pc' :
  (forall t1 t2 n1 n2 i1 i2 l1 l2 p1 p2,
     checking conn cs t1 n1 i1 l1 p1 -> checking conn cs t2 n2 i2 l2 p2 -> t1 = t2) ->
  checking conn cs t now ip len pc ->
  forall t' now' ip' len' pc'', checking conn (<[t := (Frame now conn ip len, pc')]> cs) t' now' ip' len' pc'' ->
    t' = t /\ (now', ip', len', pc'') = (now, ip, len, pc').
Proof.
  intros Hone Hck t' now' ip' len' pc'' [?|[Hne H1]]%checking_insert; [done|]. by destruct Hne; eapply Hone.
Qed.

(** Calls read the clock before, and one frame of the connection is checked at a
    time. *)
Record readers_inv (x : Lim) : Prop := {
  ri_times t e pc : checks x !! t = Some (e, pc) -> event_time e <= clock x;
  ri_one t1 t2 n1 n2 i1 i2 l1 l2 p1 p2 :
    checking conn (checks x) t1 n1 i1 l1 p1 -> checking conn (checks x) t2 n2 i2 l2 p2 -> t1 = t2;
}.

Lemma readers_inv_init l t0 : readers_inv (lim_init l t0).
Proof. split; [done|]. by intros ?????????? []. Qed.

Lemma readers_inv_step patience x x' : lim_step patience x x' -> readers_inv x -> readers_inv x'.
Proof.
  intros Hs [Htimes Hone]. destruct Hs as [c' c s cs sn lg Hc Hp|t e s cs sn lg Ht Hfree|t e pc pc' c s s' cs sn lg Ht Hadv
    |t now c s s' cs sn lg Ht Hsw|t e pc c s cs sn lg Ht Hf]; cbn [clock shared checks seen log] in *; split;
      cbn [clock shared checks seen log]; try done.
  - intros t e pc Ht. specialize (Htimes _ _ _ Ht). lia.
  - intros t' e' pc' [[<- [= <- <-]]|[_ Hl']]%lookup_insert_Some; [done|]. by eapply Htimes.
  - destruct (of_conn_spec e) as [(now & ip & len & ->)|Hne].
    + intros t1 t2 n1 n2 i1 i2 l1 l2 p1 p2 [[-> _]|[_ H1]]%checking_insert [[-> _]|[_ H2]]%checking_insert; try done;
        exfalso; by eapply Hfree.
    + intros t1 t2 n1 n2 i1 i2 l1 l2 p1 p2 [_ H1]%checking_insert_other [_ H2]%checking_insert_other; [|by left..]. by eapply Hone.
  - intros t' e' pc'' [[<- [= <- <-]]|[_ Hl']]%lookup_insert_Some; by eapply Htimes.
  - pose proof (access_live _ _ _ _ Hadv) as Hlive. destruct (of_conn_spec e) as [(now & ip & len & ->)|Hne].
    + pose proof (checking_mine cs t now ip len pc pc' Hone (conj Ht Hlive)) as Hmine.
      by intros t1 t2 n1 n2 i1 i2 l1 l2 p1 p2 [-> _]%Hmine [-> _]%Hmine.
    + intros t1 t2 n1 n2 i1 i2 l1 l2 p1 p2 [_ H1]%checking_insert_other [_ H2]%checking_insert_other; [|by left..]. by eapply Hone.
  - intros t' e' pc' [_ Hl]%lookup_delete_Some. by eapply Htimes.
  - intros t1 t2 n1 n2 i1 i2 l1 l2 p1 p2 [_ H1]%checking_delete [_ H2]%checking_delete. by eapply Hone.
Qed.
Lemma readers_inv_run patience x x' : rtc (lim_step patience) x x' -> readers_inv x -> readers_inv x'.
Proof. induction 1 as [|x y x' Hs _ IH]; [done|]. intros Hx. eapply IH, readers_inv_step; [exact Hs|done]. Qed.

Lemma clock_mono patience x x' : rtc (lim_step patience) x x' -> clock x <= clock x'.
Proof. induction 1 as [|x y x' Hs _ IH]; [done|]. etransitivity; [|exact IH]. destruct Hs; cbn; lia. Qed.
End Readers.

(** ** The connection dimension *)
Section Connection.
Context (m : Meter) (cfg : RateLimitConfig) (L patience : Z) (conn : string).
Context (HL : meter_limit m cfg = Some L) (HL0 : 0 <= L) (HP : 0 < period cfg).
Context (Hpat : 0 <= patience <= period cfg).
Abbreviation winv := (window_inv m (period cfg) L).
Implicit Types (x : Lim) (lg : list (Z * Z)).

(** The window of the connection while a frame of it is checked: not counted yet,
    counted and still to be allowed, or counted. *)
Definition stage_inv (N : Z) (c : option WindowCounter) lg (now len : Z) (pc : Stage) : Prop :=
  match pc with
  | CBan | CUnban | IBan | IUnban | CCount => winv now (N - meter_weight m len) c lg
  | CInsert => c = None /\ winv now (N - meter_weight m len) None lg
  | ICount false | IInsert false => winv now N c ((now, len) :: lg)
  | _ => winv now N c lg
  end.

Lemma stage_advance N s lg now ip len pc pc' s' :
  connection (config s) = Some cfg ->
  0 <= len -> (m = Bytes -> len <= L) -> meter_weight m len <= N < 2 ^ 64 ->
  access (Frame now conn ip len) pc s = Some (pc', s') ->
  stage_inv N (conn_counters s !! conn) lg now len pc ->
  stage_inv N (conn_counters s' !! conn)
    (match pc' with CDone Allowed => [(now, len)] | _ => [] end ++ lg) now len pc'.
Proof.
  intros Hcfg Hlen Hfirst HN Hadv Hst. pose proof (meter_weight_nonneg m len Hlen) as Hw.
  assert (Hl : forall c, winv now (N - meter_weight m len) c lg -> winv now N c lg)
    by (intros c Hc; eapply window_inv_later; [..|exact Hc]; lia).
  pose proof (fun acc Hc => check_dimension_inv m cfg None (conn_counters s) (conn_bans s) conn now len now
    (N - meter_weight m len) L lg acc HL HL0 HP ltac:(lia) Hlen Hfirst ltac:(lia) ltac:(lia) Hc) as Hcount.
  rewrite check_dimension_accesses in Hcount.
  replace (N - meter_weight m len + meter_weight m len) with N in Hcount by lia.
  destruct pc; cbn [access] in Hadv; try discriminate Hadv; cbn [stage_inv] in Hst.
  - injection Hadv as <- <-. destruct (get_ban _ _ _) as [[]|]; cbn; auto.
  - by injection Hadv as <- <-.
  - injection Hadv as <- <-. destruct (get_ban _ _ _) as [[]|]; cbn; auto.
  - by injection Hadv as <- <-.
  - rewrite Hcfg in Hadv. destruct (count_entry _ _ _ _ _) as [[cs l]|] eqn:Hc; injection Hadv as <- <-.
    + cbn [default] in Hcount. destruct l; [by apply (Hcount false)|by apply (Hcount true)].
    + unfold count_entry in Hc. destruct (conn_counters s !! conn); [done|]. by split.
  - destruct Hst as [Hnone Hst]. rewrite Hcfg in Hadv. rewrite Hnone in Hcount.
    replace (count_entry cfg (conn_counters s) conn now len) with (@None (gmap string WindowCounter * bool)) in Hcount
      by (unfold count_entry; by rewrite Hnone).
    cbn [default] in Hcount. destruct (insert_entry _ _ _ _ _) as [cs l]. injection Hadv as <- <-.
    destruct l; [by apply (Hcount false)|by apply (Hcount true)].
  - by injection Hadv as <- <-.
  - assert (Hdrop : winv now N (conn_counters s !! conn) lg) by (destruct limited; [done|by eapply window_inv_forget]).
    destruct (ip_limit (config s)) as [icfg|]; [|injection Hadv as <- <-; by destruct limited].
    destruct (count_entry _ _ _ _ _) as [[cs l]|]; injection Hadv as <- <-; [|by destruct limited].
    destruct l; [done|]. by destruct limited.
  - assert (Hdrop : winv now N (conn_counters s !! conn) lg) by (destruct limited; [done|by eapply window_inv_forget]).
    destruct (ip_limit (config s)) as [icfg|]; [|done].
    destruct (insert_entry _ _ _ _ _) as [cs l]. injection Hadv as <- <-. destruct l; [done|]. by destruct limited.
  - by injection Hadv as <- <-.
Qed.

(** The sweep of a window that closed before the frame. *)
Lemma stage_sweep N c lg now len pc :
  stage_inv N (Some c) lg now len pc -> window_start c + period cfg <= now -> stage_inv N None lg now len pc.
Proof.
  intros Hst Hc. destruct pc as [| | | | | | |[]|[]| | | | | |]; cbn [stage_inv] in *; try (by eapply window_inv_drop).
  by destruct Hst.
Qed.

Lemma stage_final N c lg now len pc : final pc = true -> stage_inv N c lg now len pc -> winv now N c lg.
Proof. by destruct pc. Qed.

(** *** The invariant *)
Definition cost (frames : list Entry) : Z := spent m (fun _ => true) (conn_log conn frames).
Definition frames_ok x : Prop := Forall (fun e => 0 <= ent_len e /\ (m = Bytes -> ent_len e <= L)) (seen x).

Record conn_inv x : Prop := {
  li_config : connection (config (shared x)) = Some cfg;
  li_now t now ip len pc : checking conn (checks x) t now ip len pc ->
    clock x <= now + patience /\ 0 <= len /\ (m = Bytes -> len <= L) /\ meter_weight m len <= cost (seen x);
  li_stage t now ip len pc : checking conn (checks x) t now ip len pc ->
    stage_inv (cost (seen x)) (conn_counters (shared x) !! conn) (conn_log conn (log x)) now len pc;
  li_idle : (forall t now ip len pc, ~ checking conn (checks x) t now ip len pc) ->
    winv (clock x) (cost (seen x)) (conn_counters (shared x) !! conn) (conn_log conn (log x));
}.

Lemma conn_inv_init l t0 : connection l = Some cfg -> conn_inv (lim_init l t0).
Proof. intros Hl. split; [done|by intros ????? []..|]. intros _. by apply window_inv_init. Qed.

Lemma conn_log_ok (l : list Entry) : Forall (fun e => 0 <= ent_len e) l -> log_ok (conn_log conn l).
Proof.
  induction 1 as [|[t c ip len] l Hl _ IH]; [constructor|]. rewrite conn_log_cons.
  case_bool_decide; [by constructor|done].
Qed.

Lemma conn_inv_start t e c s cs sn (lg : list Entry) :
  (match e with Frame _ cn _ _ => forall t now ip len pc, ~ checking cn cs t now ip len pc | _ => True end) ->
  event_time e = c -> cs !! t = None ->
  frames_ok (mkLim c s (<[t := (e, start e)]> cs) (offered e ++ sn) lg) ->
  conn_inv (mkLim c s cs sn lg) -> conn_inv (mkLim c s (<[t := (e, start e)]> cs) (offered e ++ sn) lg).
Proof.
  intros Hfree He Ht Hok [Hcfg Hnow Hstage Hidle]. cbn [clock shared checks seen log] in *.
  destruct (of_conn_spec conn e) as [(now & ip & len & ->)|Hne].
  - inversion Hok as [|? ? [Hl HlL] Hsn]; subst. cbn [event_time] in *.
    pose proof (meter_weight_nonneg m len Hl) as Hw.
    assert (Hcost : cost (offered (Frame now conn ip len) ++ sn) = meter_weight m len + cost sn).
    { unfold cost. cbn [offered app]. by rewrite conn_log_cons, bool_decide_true. }
    assert (Hc0 : 0 <= cost sn).
    { apply spent_nonneg, conn_log_ok. eapply list.Forall_impl; [exact Hsn|]. by intros ? []. }
    split; cbn [clock shared checks seen log]; try rewrite Hcost; try done.
    + intros t' now' ip' len' pc' [[-> [= -> -> -> ->]]|[_ H1]]%checking_insert; [|exfalso; by eapply Hfree].
      split_and!; try done; lia.
    + intros t' now' ip' len' pc' [[-> [= -> -> -> ->]]|[_ H1]]%checking_insert; [|exfalso; by eapply Hfree].
      cbn [start stage_inv]. replace (_ + _ - _) with (cost sn) by lia. by apply Hidle.
    + intros Hno. exfalso. apply (Hno t now ip len CBan). split; [apply lookup_insert_eq|done].
  - assert (Hcost : cost (offered e ++ sn) = cost sn).
    { unfold cost. destruct e as [now cn ip len| |]; try done. cbn [offered app].
      rewrite conn_log_cons, bool_decide_false; [done|]. intros ->. by eapply Hne. }
    split; cbn [clock shared checks seen log]; try rewrite Hcost; try done.
    + intros t' now' ip' len' pc' [_ H1]%checking_insert_other; [|by left]. by eapply Hnow.
    + intros t' now' ip' len' pc' [_ H1]%checking_insert_other; [|by left]. by eapply Hstage.
    + intros Hno. apply Hidle. intros t' now' ip' len' pc' [Hl Hf]. apply (Hno t' now' ip' len' pc'). split; [|done].
      apply lookup_insert_Some. right. split; [|done]. intros ->. congruence.
Qed.

Lemma conn_inv_advance t e pc pc' c s s' cs sn (lg : list Entry) :
  cs !! t = Some (e, pc) -> access e pc s = Some (pc', s') -> cost sn < 2 ^ 64 ->
  readers_inv conn (mkLim c s cs sn lg) -> conn_inv (mkLim c s cs sn lg) ->
    conn_inv (mkLim c s' (<[t := (e, pc')]> cs) sn (passed e pc' ++ lg)).
Proof.
  intros Ht Hadv Hmax [Htimes Hone] [Hcfg Hnow Hstage Hidle]. cbn [clock shared checks seen log] in *.
  pose proof (access_live _ _ _ _ Hadv) as Hlive. pose proof (access_config _ _ _ _ _ Hadv) as Hcfg'.
  destruct (of_conn_spec conn e) as [(now & ip & len & ->)|Hne].
  - assert (Hck : checking conn cs t now ip len pc) by done.
    pose proof (checking_mine conn cs t now ip len pc pc' Hone Hck) as Hmine.
    destruct (Hnow _ _ _ _ _ Hck) as (Hc & Hl & HlL & Hw).
    assert (Hlog : conn_log conn (passed (Frame now conn ip len) pc' ++ lg)
      = match pc' with CDone Allowed => [(now, len)] | _ => [] end ++ conn_log conn lg).
    { destruct pc' as [| | | | | | | | | |[]| | | |]; try done. cbn [passed offered app].
      by rewrite conn_log_cons, bool_decide_true. }
    pose proof (stage_advance (cost sn) s (conn_log conn lg) now ip len pc pc' s' Hcfg Hl HlL ltac:(lia) Hadv
      (Hstage _ _ _ _ _ Hck)) as Hst.
    split; cbn [clock shared checks seen log]; try done; [congruence|..].
    + intros t' now' ip' len' pc'' [-> [= -> -> -> ->]]%Hmine. done.
    + intros t' now' ip' len' pc'' [-> [= -> -> -> ->]]%Hmine. by rewrite Hlog.
    + intros Hno. assert (Hf : final pc' = true).
      { destruct (final pc') eqn:Hf; [done|]. exfalso. apply (Hno t now ip len pc'). split; [apply lookup_insert_eq|done]. }
      apply stage_final in Hst; [|done]. rewrite Hlog. eapply window_inv_later; [..|exact Hst]; [|lia].
      exact (Htimes _ _ _ Ht).
  - destruct (access_other conn e pc s pc' s' Hne Hadv) as (Hctr & _ & Hlog).
    split; cbn [clock shared checks seen log]; rewrite ?Hctr, ?Hlog; try done; [congruence|..].
    + intros t' now' ip' len' pc'' [_ H1]%checking_insert_other; [|by left]. by eapply Hnow.
    + intros t' now' ip' len' pc'' [_ H1]%checking_insert_other; [|by left]. by eapply Hstage.
    + intros Hno. apply Hidle. intros t' now' ip' len' pc'' [Hl Hf]. apply (Hno t' now' ip' len' pc''). split; [|done].
      apply lookup_insert_Some. right. split; [|done]. intros ->. rewrite Ht in Hl. injection Hl as -> ->. by eapply Hne.
Qed.

(** The sweeper read the clock before, so what it drops closed before. *)
Lemma conn_inv_sweep t now c s s' cs sn (lg : list Entry) :
  cs !! t = Some (Cleanup now, Sweep) -> sweep_one now s s' ->
  readers_inv conn (mkLim c s cs sn lg) -> conn_inv (mkLim c s cs sn lg) -> conn_inv (mkLim c s' cs sn lg).
Proof.
  intros Ht Hsw [Htimes _] [Hcfg Hnow Hstage Hidle]. cbn [clock shared checks seen log] in *.
  pose proof (Htimes _ _ _ Ht) as Hc. cbn [event_time] in Hc.
  destruct Hsw as [key cn Hk Hst|key cn Hk Hst|key e Hk He|key e Hk He];
    try (by split).
  destruct (decide (key = conn)) as [->|Hne].
  - assert (Hold : window_start cn + 2 * period cfg <= now).
    { unfold stale, stale_threshold, duration_since in Hst. pose proof (period_le_max cfg (config s) (or_introl Hcfg)). lia. }
    split; cbn [clock shared checks seen log set_conn conn_counters]; try done; rewrite lookup_delete_eq.
    + intros t' now' ip' len' pc' Hck. destruct (Hnow _ _ _ _ _ Hck) as (? & _). specialize (Hstage _ _ _ _ _ Hck).
      rewrite Hk in Hstage. eapply stage_sweep; [exact Hstage|lia].
    + intros Hno. specialize (Hidle Hno). rewrite Hk in Hidle. eapply window_inv_drop; [exact Hidle|lia].
  - split; cbn [clock shared checks seen log set_conn conn_counters]; try done; by rewrite lookup_delete_ne.
Qed.

Lemma conn_inv_step x x' : lim_step patience x x' -> frames_ok x' -> cost (seen x) < 2 ^ 64 ->
  readers_inv conn x -> conn_inv x -> conn_inv x'.
Proof.
  intros Hs Hok Hmax Hri Hinv. destruct Hs as [c' c s cs sn lg Hc Hp|t e s cs sn lg Ht Hfree|t e pc pc' c s s' cs sn lg Ht Hadv
    |t now c s s' cs sn lg Ht Hsw|t e pc c s cs sn lg Ht Hf].
  - destruct Hinv as [Hcfg Hnow Hstage Hidle]. cbn [clock shared checks seen log] in *.
    split; cbn [clock shared checks seen log]; try done.
    + intros t now ip len pc Hck. pose proof (Hp _ _ _ _ _ _ Hck). by destruct (Hnow _ _ _ _ _ Hck) as (_ & ?).
    + intros Hno. eapply window_inv_later; [exact Hc|done|by apply Hidle].
  - by apply conn_inv_start.
  - by eapply conn_inv_advance.
  - by eapply conn_inv_sweep.
  - destruct Hinv as [Hcfg Hnow Hstage Hidle]. cbn [clock shared checks seen log] in *.
    split; cbn [clock shared checks seen log]; try done.
    + intros t' now ip len pc' [_ H1]%checking_delete. by eapply Hnow.
    + intros t' now ip len pc' [_ H1]%checking_delete. by eapply Hstage.
    + intros Hno. apply Hidle. intros t' now ip len pc' [Hl Hf']. apply (Hno t' now ip len pc'). split; [|done].
      apply lookup_delete_Some. split; [|done]. intros ->. rewrite Ht in Hl. congruence.
Qed.

(** What is offered only grows. *)
Lemma step_seen x x' : lim_step patience x x' -> exists l, seen x' = l ++ seen x.
Proof. intros []; cbn [seen]; eauto; by exists []. Qed.

Lemma run_seen x x' : rtc (lim_step patience) x x' -> exists l, seen x' = l ++ seen x.
Proof.
  induction 1 as [x|x y x' Hs _ [l IH]]; [by exists []|]. destruct (step_seen _ _ Hs) as [l' Hl].
  exists (l ++ l'). by rewrite IH, Hl, app_assoc.
Qed.
Lemma seen_less x x' l : seen x' = l ++ seen x -> frames_ok x' -> frames_ok x /\ cost (seen x) <= cost (seen x').
Proof.
  unfold frames_ok. intros ->. induction l as [|[t cn ip len] l IH]; cbn [app]; intros Hok; [done|].
  inversion_clear Hok as [|? ? [Hl _] Hok']. destruct (IH Hok') as [? Hc]. split; [done|].
  unfold cost in *. rewrite conn_log_cons. case_bool_decide; [|done]. rewrite spent_cons.
  pose proof (meter_weight_nonneg m len Hl). lia.
Qed.

(** Whether a frame is being checked or not, the bound holds. *)
Lemma window_bound T n c lg y : winv T n c lg -> spent m (within y (y + period cfg)) lg <= 2 * L.
Proof. by intros (_ & Hb & _). Qed.
Lemma stage_bound N c lg now len pc y :
  stage_inv N c lg now len pc -> spent m (within y (y + period cfg)) lg <= 2 * L.
Proof.
  destruct pc as [| | | | | | |[]|[]| | | | | |]; cbn [stage_inv]; try apply window_bound.
  - intros [_ Hw]. by eapply window_bound.
  - intros Hw%window_inv_forget. by eapply window_bound.
  - intros Hw%window_inv_forget. by eapply window_bound.
Qed.
Lemma checked_or_idle cs :
  (exists t now ip len pc, checking conn cs t now ip len pc) \/ (forall t now ip len pc, ~ checking conn cs t now ip len pc).
Proof.
  pose (Q (t : nat) (ep : Event * Stage) := match ep with (Frame _ cn _ _, pc) => cn = conn /\ final pc = false | _ => False end).
  assert (forall t ep, Decision (Q t ep)) by (intros t [[] pc]; unfold Q; apply _).
  destruct (decide (map_Exists Q cs)) as [(t & [[now cn ip len| |] pc] & Hl & Hq)|Hn]; [|done..|].
  - destruct Hq as [-> Hf]. left. by exists t, now, ip, len, pc.
  - right. intros t now ip len pc [Hl Hf]. apply Hn. by exists t, (Frame now conn ip len, pc).
Qed.
Lemma conn_inv_bound x y : conn_inv x -> spent m (within y (y + period cfg)) (conn_log conn (log x)) <= 2 * L.
Proof.
  intros []. destruct (checked_or_idle (checks x)) as [(t & now & ip & len & pc & Hck)|Hno].
  - by eapply stage_bound, li_stage0.
  - by eapply window_bound, li_idle0.
Qed.

Lemma conn_inv_run x x' : rtc (lim_step patience) x x' -> frames_ok x' -> cost (seen x') < 2 ^ 64 ->
  readers_inv conn x -> conn_inv x -> conn_inv x'.
Proof.
  intros Hr Hok Hmax. induction Hr as [x|x y x' Hs Hr IH]; intros Hri Hinv; [done|].
  destruct (run_seen _ _ Hr) as [l1 Hl1]. destruct (step_seen _ _ Hs) as [l2 Hl2].
  destruct (seen_less y x' l1 Hl1 Hok) as [Hoky Hcy]. destruct (seen_less x y l2 Hl2 Hoky) as [_ Hcx].
  apply IH; [done..|by eapply readers_inv_step|]. apply (conn_inv_step x); [done|done|lia|done..].
Qed.
End Connection.

(** C9: the rate of a connection is bounded when readers, accepting tasks and the
    cleanup run at the same time.  Under every interleaving of the accesses of
    the calls, the frames of a connection allowed within one period cost at most
    twice the limit, whether the limit is on messages or on bytes, provided no
    call is suspended for longer than a period between its accesses, no single
    frame exceeds a limit on bytes, and the counters do not wrap (what was seen of
    the connection costs less than [2^64]). *)
Theorem connection_rate_concurrent m limiter cfg L conn patience t0 x y :
  connection limiter = Some cfg -> meter_limit m cfg = Some L -> 0 <= L -> 0 < period cfg ->
  0 <= patience <= period cfg ->
  rtc (lim_step patience) (lim_init limiter t0) x ->
  frames_ok m L x -> cost m conn (seen x) < 2 ^ 64 ->
  spent m (within y (y + period cfg)) (conn_log conn (log x)) <= 2 * L.
Proof.
  intros Hcfg HL HL0 HP Hpat Hr Hok Hmax.
  pose proof (conn_inv_run m cfg L patience conn HL HL0 HP Hpat _ _ Hr Hok Hmax
    (readers_inv_init conn limiter t0) (conn_inv_init m cfg L patience conn HL0 limiter t0 Hcfg)) as Hinv.
  by eapply conn_inv_bound.
Qed.

(** ** Bans of a connection *)
Section Ban.
Context (patience : Z) (conn : string) (d until : Z) (lg0 : list (Z * Z)).

Definition banned (s : RateLimiterState) : Prop := exists e, conn_bans s !! conn = Some e /\ until <= e.

(** The ban is in the map, or about to be inserted by the call that counted the
    frame; a call that has passed the bans will not allow its frame. *)
Record ban_inv (x : Lim) : Prop := {
  bi_config : ban_duration (config (shared x)) = Some d;
  bi_log : conn_log conn (log x) = lg0;
  bi_stage t now ip len pc : checking conn (checks x) t now ip len pc ->
    match pc with
    | CBan | ICount true | IInsert true | IImpose => banned (shared x)
    | CImpose => until <= now + d
    | _ => False
    end;
  bi_idle : (forall t now ip len pc, ~ checking conn (checks x) t now ip len pc) -> banned (shared x);
}.

Lemma ban_advance e pc c s pc' s' cs sn (lg : list Entry) t :
  c < until -> cs !! t = Some (e, pc) -> access e pc s = Some (pc', s') ->
  readers_inv conn (mkLim c s cs sn lg) -> ban_inv (mkLim c s cs sn lg) ->
  ban_inv (mkLim c s' (<[t := (e, pc')]> cs) sn (passed e pc' ++ lg)).
Proof.
  intros Hc Ht Hadv [Htimes Hone] [Hcfg Hlog Hstage Hidle]. cbn [clock shared checks seen log] in *.
  pose proof (access_live _ _ _ _ Hadv) as Hlive. pose proof (access_config _ _ _ _ _ Hadv) as Hcfg'.
  destruct (of_conn_spec conn e) as [(now & ip & len & ->)|Hne].
  - assert (Hck : checking conn cs t now ip len pc) by done.
    pose proof (checking_mine conn cs t now ip len pc pc' Hone Hck) as Hmine.
    specialize (Htimes _ _ _ Ht). cbn [event_time] in Htimes. specialize (Hstage _ _ _ _ _ Hck).
    assert (Hnext : conn_log conn (passed (Frame now conn ip len) pc' ++ lg) = lg0 /\ banned s'
      /\ match pc' with ICount true | IInsert true | IImpose | CDone _ => True | _ => False end).
    { destruct pc as [| | | | | | |[]|[]| | | | | |]; try done; cbn [access] in Hadv.
      - destruct Hstage as (ex & Hex & Hle). unfold get_ban in Hadv. rewrite Hex in Hadv. cbn in Hadv.
        replace (now <? ex) with true in Hadv by lia. injection Hadv as <- <-. split_and!; [done| |done]. by exists ex.
      - injection Hadv as <- <-. split_and!; [done| |done]. rewrite Hcfg. exists (now + d). cbn. by rewrite lookup_insert_eq.
      - destruct (ip_limit (config s)) as [icfg|]; [|by injection Hadv as <- <-].
        destruct (count_entry _ _ _ _ _) as [[ics []]|]; by injection Hadv as <- <-.
      - destruct (ip_limit (config s)) as [icfg|]; [|done].
        destruct (insert_entry _ _ _ _ _) as [ics []]; by injection Hadv as <- <-.
      - by injection Hadv as <- <-. }
    destruct Hnext as (Hl & Hb & Hp). split; cbn [clock shared checks seen log]; [congruence|done| |done].
    intros t' now' ip' len' pc'' Hck'. pose proof (proj2 Hck') as Hf. apply Hmine in Hck' as [-> [= -> -> -> ->]].
    by destruct pc' as [| | | | | | |[]|[]| | | | | |].
  - destruct (access_other conn e pc s pc' s' Hne Hadv) as (_ & Hb & Hl).
    assert (Hbb : banned s -> banned s') by (unfold banned; by rewrite Hb).
    split; cbn [clock shared checks seen log]; [congruence|by rewrite Hl| |].
    + intros t' now' ip' len' pc'' [_ H1]%checking_insert_other; [|by left]. specialize (Hstage _ _ _ _ _ H1).
      destruct pc'' as [| | | | | | |[]|[]| | | | | |]; auto.
    + intros Hno. apply Hbb, Hidle. intros t' now' ip' len' pc'' [Hl' Hf]. apply (Hno t' now' ip' len' pc''). split; [|done].
      apply lookup_insert_Some. right. split; [|done]. intros ->. rewrite Ht in Hl'. injection Hl' as -> ->. by eapply Hne.
Qed.

Lemma ban_sweep now s s' : now < until -> sweep_one now s s' -> banned s -> banned s'.
Proof.
  intros Hn Hsw (ex & Hex & Hle). exists ex. split; [|done].
  destruct Hsw as [key cn Hk Hst|key cn Hk Hst|key e Hk He|key e Hk He]; try done.
  cbn [set_conn conn_bans]. rewrite lookup_delete_ne; [done|]. intros ->. rewrite Hex in Hk. simplify_eq. lia.
Qed.

Lemma ban_inv_step x x' : lim_step patience x x' -> clock x' < until -> readers_inv conn x -> ban_inv x -> ban_inv x'.
Proof.
  intros Hs Hc Hri Hinv. destruct Hs as [c' c s cs sn lg Hcc Hp|t e s cs sn lg Ht Hfree|t e pc pc' c s s' cs sn lg Ht Hadv
    |t now c s s' cs sn lg Ht Hsw|t e pc c s cs sn lg Ht Hf].
  - by destruct Hinv.
  - destruct Hinv as [Hcfg Hlog Hstage Hidle]. cbn [clock shared checks seen log] in *. split; cbn [clock shared checks seen log]; try done.
    + destruct (of_conn_spec conn e) as [(now & ip & len & ->)|Hne].
      * intros t' now' ip' len' pc' [[-> [= -> -> -> ->]]|[_ H1]]%checking_insert; [by apply Hidle|by eapply Hstage].
      * intros t' now' ip' len' pc' [_ H1]%checking_insert_other; [|by left]. by eapply Hstage.
    + intros Hno. apply Hidle. intros t' now' ip' len' pc' [Hl Hf]. apply (Hno t' now' ip' len' pc'). split; [|done].
      apply lookup_insert_Some. right. split; [|done]. intros ->. congruence.
  - by eapply ban_advance.
  - pose proof (ri_times _ _ Hri _ _ _ Ht) as Hn. cbn [clock event_time] in *.
    destruct Hinv as [Hcfg Hlog Hstage Hidle]. cbn [clock shared checks seen log] in *.
    pose proof (ban_sweep now s s' ltac:(lia) Hsw) as Hb.
    split; cbn [clock shared checks seen log]; [by destruct Hsw|done| |auto].
    intros t' now' ip' len' pc' Hck. specialize (Hstage _ _ _ _ _ Hck).
    destruct pc' as [| | | | | | |[]|[]| | | | | |]; auto.
  - destruct Hinv as [Hcfg Hlog Hstage Hidle]. cbn [clock shared checks seen log] in *. split; cbn [clock shared checks seen log]; try done.
    + intros t' now ip len pc' [_ H1]%checking_delete. by eapply Hstage.
    + intros Hno. apply Hidle. intros t' now ip len pc' [Hl Hf']. apply (Hno t' now ip len pc'). split; [|done].
      apply lookup_delete_Some. split; [|done]. intros ->. rewrite Ht in Hl. congruence.
Qed.

Lemma ban_inv_run x x' : rtc (lim_step patience) x x' -> clock x' < until -> readers_inv conn x -> ban_inv x -> ban_inv x'.
Proof.
  induction 1 as [x|x y x' Hs Hr IH]; intros Hc Hri Hinv; [done|]. pose proof (clock_mono _ _ _ Hr) as Hm.
  apply IH; [done|by eapply readers_inv_step|]. by eapply ban_inv_step; [|lia|..].
Qed.
End Ban.

(** The configuration does not change. *)
Lemma lim_config patience x x' : rtc (lim_step patience) x x' -> config (shared x') = config (shared x).
Proof.
  induction 1 as [|x y x' Hs _ IH]; [done|]. rewrite IH. destruct Hs; cbn [shared]; try done.
  - by eapply access_config.
  - by destruct H0.
Qed.

(** C16: a banned connection stays banned when calls interleave.  From the moment a
    call has found a frame of a connection over the connection's limit, whatever
    the other readers, the accepting tasks and the cleanup do, no frame of the
    connection is allowed before the ban expires. *)
Theorem connection_ban_concurrent patience limiter t0 x x' conn t now ip len d :
  ban_duration limiter = Some d ->
  rtc (lim_step patience) (lim_init limiter t0) x ->
  checking conn (checks x) t now ip len CImpose ->
  rtc (lim_step patience) x x' -> clock x' < now + d ->
  conn_log conn (log x') = conn_log conn (log x).
Proof.
  intros Hd Hr Hck Hr' Hc.
  pose proof (readers_inv_run conn _ _ _ Hr (readers_inv_init conn limiter t0)) as Hri.
  apply (bi_log conn d (now + d)). apply (ban_inv_run patience conn d (now + d) _ x); [done..|].
  split; [by rewrite (lim_config _ _ _ Hr)|done| |].
  - intros t' now' ip' len' pc' Hck'. pose proof (ri_one _ _ Hri _ _ _ _ _ _ _ _ _ _ Hck Hck') as <-.
    destruct Hck as [H1 _], Hck' as [H2 _]. rewrite H1 in H2. by injection H2 as -> -> -> <-.
  - intros Hno. exfalso. by eapply Hno.
Qed.

(** ** The calls of [RateLimiter] are uninterrupted runs of their accesses *)
Definition alone (e : Event) (a b : Stage * RateLimiterState) : Prop := access e a.1 a.2 = Some b.

Lemma alone_step e pc s b c : access e pc s = Some b -> rtc (alone e) b c -> rtc (alone e) (pc, s) c.
Proof. intros Ha. by apply rtc_l. Qed.

Section Alone.
Context (now : Z) (conn : string) (ip : IpAddr) (len : Z).
Abbreviation e := (Frame now conn ip len).

Lemma alone_bans s :
  rtc (alone e) (CBan, s)
    (let '(cb, cbans) := check_ban (conn_bans s) conn now in
     if cb then (CDone Banned, s)
     else let '(ib, ibans) := check_ban (ip_bans s) ip now in
          if ib then (CDone Banned, set_conn s (conn_counters s) cbans)
          else (CCount, set_ip (set_conn s (conn_counters s) cbans) (ip_counters s) ibans)).
Proof.
  destruct s as [cf cc ic cb ib]. cbn [conn_bans ip_bans conn_counters ip_counters set_conn config]. rewrite !check_ban_accesses.
  assert (Hip : forall cb', rtc (alone e) (IBan, mkRateLimiterState cf cc ic cb' ib)
    (let '(ib', ibans) := match get_ban ib ip now with Some true => (true, ib) | Some false => (false, delete ip ib) |
      None => (false, ib) end in
     if ib' then (CDone Banned, mkRateLimiterState cf cc ic cb' ib) else (CCount, mkRateLimiterState cf cc ic cb' ibans))).
  { intros cb'. eapply alone_step; [reflexivity|]. cbn [ip_bans]. destruct (get_ban ib ip now) as [[]|]; [done| |done].
    eapply alone_step; [reflexivity|done]. }
  eapply alone_step; [reflexivity|]. cbn [conn_bans].
  destruct (get_ban cb conn now) as [[]|]; [done| |apply Hip].
  eapply alone_step; [reflexivity|apply Hip].
Qed.

Lemma alone_conn s :
  rtc (alone e) (CCount, s)
    (let '(cc, cb, l) := check_dimension (connection (config s)) (ban_duration (config s))
                           (conn_counters s) (conn_bans s) conn now len in
     (ICount l, set_conn s cc cb)).
Proof.
  destruct (connection (config s)) as [cfg|] eqn:Hcfg.
  2: { eapply alone_step; [cbn [access]; by rewrite Hcfg|]. cbn. by destruct s. }
  rewrite check_dimension_accesses. destruct (count_entry cfg (conn_counters s) conn now len) as [[cc l]|] eqn:Hc; cbn [default].
  - eapply alone_step; [cbn [access]; by rewrite Hcfg, Hc|]. destruct l; [|done].
    eapply alone_step; [reflexivity|done].
  - eapply alone_step; [cbn [access]; by rewrite Hcfg, Hc|].
    destruct (insert_entry cfg (conn_counters s) conn now len) as [cc l] eqn:Hi.
    eapply alone_step; [cbn [access]; by rewrite Hcfg, Hi|]. destruct l; [|done].
    eapply alone_step; [reflexivity|done].
Qed.

Lemma alone_ip l s :
  rtc (alone e) (ICount l, s)
    (let '(ic, ib, l') := check_dimension (ip_limit (config s)) (ban_duration (config s))
                            (ip_counters s) (ip_bans s) ip now len in
     (CDone (verdict_of (l || l')), set_ip s ic ib)).
Proof.
  destruct (ip_limit (config s)) as [cfg|] eqn:Hcfg.
  2: { eapply alone_step; [cbn [access]; by rewrite Hcfg|]. cbn. rewrite orb_false_r. by destruct s. }
  rewrite check_dimension_accesses. destruct (count_entry cfg (ip_counters s) ip now len) as [[ic l']|] eqn:Hc; cbn [default].
  - eapply alone_step; [cbn [access]; by rewrite Hcfg, Hc|]. destruct l'; [|by destruct l].
    eapply alone_step; [reflexivity|]. by destruct l.
  - eapply alone_step; [cbn [access]; by rewrite Hcfg, Hc|].
    destruct (insert_entry cfg (ip_counters s) ip now len) as [ic l'] eqn:Hi.
    eapply alone_step; [cbn [access]; by rewrite Hcfg, Hi|]. destruct l'; [|by destruct l].
    eapply alone_step; [reflexivity|]. by destruct l.
Qed.
End Alone.

(** Dropping the entries that do not satisfy [Q], one at a time. *)
Lemma sweep_map {K V} `{Countable K} (Q : K * V -> Prop) `{!forall kv, Decision (Q kv)} (m : gmap K V) :
  rtc (fun m m' => exists k v, m !! k = Some v /\ ~ Q (k, v) /\ m' = delete k m) m (filter Q m).
Proof.
  induction (map_wf m) as [m _ IH].
  destruct (decide (map_Exists (fun k v => ~ Q (k, v)) m)) as [(k & v & Hk & Hq)|Hn].
  - eapply rtc_l; [by exists k, v|].
    replace (filter Q m) with (filter Q (delete k m)); [apply IH, delete_subset; eauto|].
    apply map_filter_delete_not. intros v' Hv'. by simplify_eq.
  - rewrite map_filter_id; [done|]. intros k v Hk. destruct (decide (Q (k, v))); [done|]. exfalso. apply Hn. by exists k, v.
Qed.

Lemma sweep_cleanup s now : rtc (sweep_one now) s (cleanup s now).
Proof.
  destruct s as [cf cc ic cb ib]. unfold cleanup. cbn [config conn_counters ip_counters conn_bans ip_bans].
  set (th := default (secs 60) (iter_max (periods cf)) * 2).
  etransitivity; [|etransitivity; [|etransitivity]].
  - refine (rtc_congruence (fun m => mkRateLimiterState cf m ic cb ib) _ _ _ _ (sweep_map (fun kv => duration_since now
    (window_start kv.2) < th) cc)).
    intros m m' (k & v & Hk & Hv & ->). apply (SweepConn now (mkRateLimiterState cf m ic cb ib) k v Hk).
    unfold stale, stale_threshold. cbn in Hv |- *. fold th. lia.
  - refine (rtc_congruence (fun m => mkRateLimiterState cf _ m cb ib) _ _ _ _ (sweep_map (fun kv => duration_since now
    (window_start kv.2) < th) ic)).
    intros m m' (k & v & Hk & Hv & ->). apply (SweepIp now (mkRateLimiterState cf _ m cb ib) k v Hk).
    unfold stale, stale_threshold. cbn in Hv |- *. fold th. lia.
  - refine (rtc_congruence (fun m => mkRateLimiterState cf _ _ m ib) _ _ _ _ (sweep_map (fun kv => now < kv.2) cb)).
    intros m m' (k & v & Hk & Hv & ->). apply (SweepConnBan now (mkRateLimiterState cf _ _ m ib) k v Hk).
    cbn in Hv. lia.
  - refine (rtc_congruence (fun m => mkRateLimiterState cf _ _ _ m) _ _ _ _
      (sweep_map (fun kv => now < kv.2) ib)).
    intros m m' (k & v & Hk & Hv & ->). apply (SweepIpBan now (mkRateLimiterState cf _ _ _ m) k v Hk).
    cbn in Hv. lia.
Qed.

(** The calls of the rate limiter are runs of their accesses.  From any state,
    the accesses of [check_and_record] and of [is_ip_banned], made without
    interruption, end with the verdict and the state that the operation of
    [RateLimiter] gives, and [cleanup] drops its stale entries one by one. *)
Theorem limiter_calls_refine s now conn ip len :
  (let '(v, s') := check_and_record s conn ip len now in
   rtc (alone (Frame now conn ip len)) (CBan, s) (CDone v, s'))
  /\ (let '(b, s') := is_ip_banned s ip now in
      rtc (alone (AcceptIp now ip)) (ABan, s) (ADone b, s'))
  /\ rtc (sweep_one now) s (cleanup s now).
Proof.
  split_and!; [| |apply sweep_cleanup].
  - generalize (alone_bans now conn ip len s). unfold check_and_record.
    destruct (check_ban (conn_bans s) conn now) as [[] cb]; [done|].
    destruct (check_ban (ip_bans s) ip now) as [[] ib]; [done|]. set (s1 := set_ip _ _ _).
    generalize (alone_conn now conn ip len s1).
    change (check_dimension (connection (config s1)) _ _ _ conn now len)
      with (check_dimension (connection (config s)) (ban_duration (config s)) (conn_counters s) cb conn now len).
    destruct (check_dimension (connection (config s)) _ _ _ conn now len) as [[cc cb'] l]. set (s2 := set_conn _ _ _).
    generalize (alone_ip now conn ip len l s2).
    change (check_dimension (ip_limit (config s2)) _ _ _ ip now len)
      with (check_dimension (ip_limit (config s)) (ban_duration (config s)) (ip_counters s) ib ip now len).
    destruct (check_dimension (ip_limit (config s)) _ _ _ ip now len) as [[ic ib'] l'].
    intros Hi Hc Hb. etransitivity; [exact Hb|]. etransitivity; [exact Hc|exact Hi].
  - unfold is_ip_banned. rewrite check_ban_accesses. destruct s as [cf cc ic cb ib]. cbn [ip_bans].
    destruct (get_ban ib ip now) as [[]|] eqn:Hg; (eapply alone_step; [cbn [access ip_bans]; by rewrite Hg|]); try done.
    eapply alone_step; [reflexivity|done].
Qed.

(** ** What the address dimension loses *)

(** *** Schedules: executions by the moves of their calls *)
Inductive Move : Type :=
| Tick (c' : Z)
| Begin (t : nat) (e : Event)
| Go (t : nat)
| Finish (t : nat).

Definition busy (conn : string) (ep : Event * Stage) : bool :=
  match ep with (Frame _ c _ _, pc) => bool_decide (c = conn) && negb (final pc) | _ => false end.
Definition late (limit : Z) (ep : Event * Stage) : bool :=
  match ep with (Frame now _ _ _, pc) => negb (final pc) && (now <? limit) | _ => false end.
Definition none (p : Event * Stage -> bool) (cs : gmap nat (Event * Stage)) : bool :=
  forallb (fun tep => negb (p tep.2)) (map_to_list cs).

Definition move (patience : Z) (mv : Move) (x : Lim) : option Lim :=
  let '(mkLim c s cs sn lg) := x in
  match mv with
  | Tick c' => if (c <=? c') && none (late (c' - patience)) cs then Some (mkLim c' s cs sn lg) else None
  | Begin t e =>
      if bool_decide (cs !! t = None) && (event_time e =? c)
         && match e with Frame _ conn _ _ => none (busy conn) cs | _ => true end
      then Some (mkLim c s (<[t := (e, start e)]> cs) (offered e ++ sn) lg) else None
  | Go t =>
      '(e, pc) ← cs !! t;
      '(pc', s') ← access e pc s;
      Some (mkLim c s' (<[t := (e, pc')]> cs) sn (passed e pc' ++ lg))
  | Finish t =>
      '(e, pc) ← cs !! t;
      if final pc then Some (mkLim c s (delete t cs) sn lg) else None
  end.
Definition moves (patience : Z) (mvs : list Move) (x : Lim) : option Lim :=
  foldl (fun o mv => o ≫= move patience mv) (Some x) mvs.

Lemma none_spec p cs t ep : none p cs = true -> cs !! t = Some ep -> p ep = false.
Proof.
  intros Hn Ht%elem_of_map_to_list. unfold none in Hn. rewrite forallb_forall in Hn.
  specialize (Hn (t, ep)). rewrite <- list_elem_of_In in Hn. specialize (Hn Ht). cbn in Hn. by destruct (p ep).
Qed.

Lemma move_sound patience mv x x' : move patience mv x = Some x' -> lim_step patience x x'.
Proof.
  destruct x as [c s cs sn lg], mv as [c'|t e|t|t]; cbn [move].
  - destruct (_ && _) eqn:Hb; [|done]. intros [= <-]. apply andb_prop in Hb as [Hc Hn].
    apply LTick; [lia|]. intros conn t now ip len pc [Ht Hf]. pose proof (none_spec _ _ _ _ Hn Ht) as Hl.
    cbn in Hl. rewrite Hf in Hl. cbn in Hl. lia.
  - destruct (_ && _) eqn:Hb; [|done]. intros [= <-]. rewrite !andb_true_iff in Hb. destruct Hb as [[Ht Hc] Hn].
    apply bool_decide_eq_true_1 in Ht. assert (c = event_time e) as -> by lia. apply LStart; [done|].
    destruct e as [now conn ip len| |]; [|done..]. intros t' now' ip' len' pc' [Ht' Hf].
    pose proof (none_spec _ _ _ _ Hn Ht') as Hl. cbn in Hl. by rewrite bool_decide_true, Hf in Hl.
  - destruct (cs !! t) as [[e pc]|] eqn:Ht; [|done]. cbn. destruct (access e pc s) as [[pc' s']|] eqn:Ha; [|done].
    cbn. intros [= <-]. by eapply LAdvance.
  - destruct (cs !! t) as [[e pc]|] eqn:Ht; [|done]. cbn. destruct (final pc) eqn:Hf; [|done].
    intros [= <-]. by eapply LEnd.
Qed.
Lemma moves_sound patience mvs x x' : moves patience mvs x = Some x' -> rtc (lim_step patience) x x'.
Proof.
  unfold moves. revert x. induction mvs as [|mv mvs IH]; intros x; cbn [foldl mbind option_bind]; [by intros [= ->]|].
  destruct (move patience mv x) as [y|] eqn:Hy.
  - intros Hm. eapply rtc_l; [by eapply move_sound|by apply IH].
  - assert (Hnone : foldl (fun o mv => o ≫= move patience mv) (@None Lim) mvs = None)
      by (clear; induction mvs as [|mv mvs IH]; [done|exact IH]). by rewrite Hnone.
Qed.

(** *** A lost ban *)
Definition strict_limiter : RateLimiter :=
  limiter_ban_duration (limiter_ip limiter_new (config_max_messages (config_new (secs 1)) 1)) (secs 60).
Definition offender : IpAddr := V4 167772161.
(** A frame of [offender] on a connection, alone. *)
Definition whole_frame (t : nat) (now : Z) (k : nat) : list Move :=
  Begin t (Frame now "c1" offender 10) :: replicate k (Go t) ++ [Finish t].
(** The first ban has expired; an accepting task has seen that and has not yet
    removed it when a reader removes it, counts two frames and bans the address
    again. *)
Definition ban_moves : list Move :=
  whole_frame 0 0 5 ++ whole_frame 0 0 5 ++ [Tick (secs 60); Begin 1 (AcceptIp (secs 60) offender); Go 1]
  ++ whole_frame 0 (secs 60) 5 ++ whole_frame 0 (secs 60) 5.
(** C37: a ban on an address can be lost.  [is_ip_banned] and [check_and_record]
    look a ban up, release the entry and then remove it.  When another reader
    imposes a new ban in between, the removal deletes the new ban: a reachable
    step, with every check of a frame instantaneous, takes a ban that is in force
    out of the map.  Before the step the address is banned, and at a time before
    the ban ends its next frame would be turned down; after the step no call is
    under way, the address is not banned, and that frame is allowed. *)
Theorem ip_ban_lost : exists limiter x1 x2 ip until later conn len,
  rtc (lim_step 0) (lim_init limiter 0) x1
  /\ ip_bans (shared x1) !! ip = Some until /\ clock x1 <= later < until
  /\ lim_step 0 x1 x2 /\ clock x2 = clock x1 /\ shared x2 = set_ip (shared x1) (ip_counters (shared x1)) (delete ip (ip_bans (shared x1)))
  /\ (forall t e pc, checks x2 !! t = Some (e, pc) -> final pc = true)
  /\ (is_ip_banned (shared x1) ip (clock x1)).1 = true /\ (is_ip_banned (shared x2) ip (clock x2)).1 = false
  /\ (check_and_record (shared x1) conn ip len later).1 = Banned
  /\ (check_and_record (shared x2) conn ip len later).1 = Allowed.
Proof.
  destruct (moves 0 ban_moves (lim_init strict_limiter 0)) as [x1|] eqn:H1; [|by vm_compute in H1].
  destruct (move 0 (Go 1) x1) as [x2|] eqn:H2; [|vm_compute in H1; injection H1 as <-; by vm_compute in H2].
  exists strict_limiter, x1, x2, offender, (secs 120), (secs 61), "c1", 10.
  pose proof (moves_sound _ _ _ _ H1) as R1. pose proof (move_sound _ _ _ _ H2) as R2.
  vm_compute in H1. injection H1 as <-. vm_compute in H2. injection H2 as <-.
  split_and!; try done. intros t e pc Ht%(none_spec (fun ep => negb (final ep.2))); [|done].
  by destruct (final pc) eqn:Hf; [|cbn in Ht; rewrite Hf in Ht].
Qed.

(** *** First frames that are not counted *)
Section Crowd.
Context (P len : Z) (ip : IpAddr).
(** One message per period and address. *)
Definition crowd_limiter : RateLimiter := limiter_ip limiter_new (config_max_messages (config_new P) 1).
Definition first_frame (i : nat) : Event := Frame 0 ("c" +:+ pretty i) ip len.

(** [n] readers have looked the address up and found no counter. *)
Lemma crowd_arrive n : exists x,
  rtc (lim_step 0) (lim_init crowd_limiter 0) x /\ clock x = 0 /\ shared x = limiter_build crowd_limiter /\ log x = []
  /\ forall i, checks x !! i = if bool_decide (i < n)%nat then Some (first_frame i, IInsert false) else None.
Proof.
  induction n as [|n (x & Hr & Hc & Hs & Hl & Hcs)]; [by exists (lim_init crowd_limiter 0)|].
  destruct x as [c s cs sn lg]. cbn [clock shared checks log] in *. subst.
  assert (Hn : cs !! n = None) by (rewrite Hcs, bool_decide_false by lia; done).
  eexists. split; [etransitivity; [exact Hr|]|].
  - eapply rtc_l; [apply (LStart 0 n (first_frame n)); [exact Hn|]|].
    { cbn. intros t now ip' len' pc [Hl Hf]. rewrite Hcs in Hl. case_bool_decide; [|done].
      injection Hl as _ He _ _ _. apply (inj (pretty (A:=nat)) t n) in He. lia. }
    do 4 (eapply rtc_l; [eapply (LAdvance 0 n); [apply lookup_insert_eq|reflexivity]|]; rewrite insert_insert_eq).
    apply rtc_refl.
  - cbn [clock shared checks log]. split_and!; [done|done|done|]. intros i. destruct (decide (i = n)) as [->|Hne].
    + by rewrite lookup_insert_eq, bool_decide_true by lia.
    + rewrite lookup_insert_ne, Hcs by done. by do 2 case_bool_decide; try lia.
Qed.

(** They insert a counter one after the other, each over the one before. *)
Lemma crowd_pass n k : (k <= n)%nat -> exists x,
  rtc (lim_step 0) (lim_init crowd_limiter 0) x /\ clock x = 0 /\ config (shared x) = crowd_limiter
  /\ length (ip_log ip (log x)) = k
  /\ forall i, (k <= i < n)%nat -> checks x !! i = Some (first_frame i, IInsert false).
Proof.
  induction k as [|k IH]; intros Hk.
  - destruct (crowd_arrive n) as (x & Hr & Hc & Hs & Hl & Hcs). exists x. rewrite Hs, Hl. split_and!; try done.
    intros i Hi. by rewrite Hcs, bool_decide_true by lia.
  - destruct IH as (x & Hr & Hc & Hs & Hl & Hcs); [lia|]. destruct x as [c s cs sn lg]. cbn [clock shared checks log] in *.
    eexists. split; [eapply rtc_r; [exact Hr|]|].
    { eapply (LAdvance 0 k); [apply Hcs; lia|]. cbn [access first_frame]. rewrite Hs. reflexivity. }
    cbn [clock shared checks log set_ip config]. split_and!; [done|done| |].
    + change (length (ip_log ip (mkEntry 0 ("c" +:+ pretty k) ip len :: lg)) = S k).
      rewrite ip_log_cons, bool_decide_true by done. cbn [length]. by rewrite Hl.
    + intros i Hi. rewrite lookup_insert_ne by lia. apply Hcs. lia.
Qed.
End Crowd.

(** C36: the limit of an address does not hold for first frames.  The counter of an
    address is looked up and, when there is none, inserted in two accesses, and
    the insertion replaces a counter that another reader has inserted meanwhile:
    with a limit of one message per period, any number of connections of one
    address can have a frame allowed at the same instant. *)
Theorem ip_limit_bypassed P ip n : exists x,
  rtc (lim_step 0) (lim_init (crowd_limiter P) 0) x /\ clock x = 0 /\ length (ip_log ip (log x)) = n.
Proof.
  destruct (crowd_pass P 0 ip n n) as (x & Hr & Hc & _ & Hl & _); [done|]. by exists x.
Qed.

(** ** Instances *)

(** Connection "c1" sends three frames at once while an address is looked up and
    the cleanup runs; the third is over the limit, which its reader has just
    found. *)
Definition sample_limiter : RateLimiter :=
  limiter_ban_duration (limiter_connection limiter_new (config_max_messages (config_new (secs 1)) 2)) (secs 60).
Definition sample_moves : list Move :=
  [Begin 1 (AcceptIp 0 offender); Begin 2 (Cleanup 0)] ++ whole_frame 0 0 5 ++ [Go 1] ++ whole_frame 0 0 4
  ++ [Tick 7; Begin 0 (Frame 7 "c1" offender 10); Go 0; Go 0; Go 0].
(** The ban is imposed, the connection's next frames are turned down and a frame
    of another connection passes. *)
Definition sample_after : list Move :=
  [Go 0; Go 0; Finish 0] ++ whole_frame 0 7 1
  ++ [Begin 3 (Frame 7 "c2" offender 10); Go 3; Go 3; Go 3; Go 3; Go 3; Tick (secs 1)] ++ whole_frame 0 (secs 1) 1.

Definition sample_state (mvs : list Move) : Lim := default (lim_init sample_limiter 0) (moves (secs 1) mvs (lim_init sample_limiter 0)).

Example sample_log :
  conn_log "c1" (log (sample_state (sample_moves ++ sample_after))) = [(0, 10); (0, 10)]
  /\ conn_log "c2" (log (sample_state (sample_moves ++ sample_after))) = [(7, 10)]
  /\ conn_log "c1" (seen (sample_state (sample_moves ++ sample_after))) = [(secs 1, 10); (7, 10); (7, 10); (0, 10); (0, 10)].
Proof. vm_compute. done. Qed.

Lemma connection_rate_concurrent_witness :
  spent Messages (within 0 (secs 1)) (conn_log "c1" (log (sample_state (sample_moves ++ sample_after)))) <= 2 * 2.
Proof.
  apply (connection_rate_concurrent Messages sample_limiter (config_max_messages (config_new (secs 1)) 2) 2 "c1" (secs 1) 0 _ 0).
  1-5: by vm_compute.
  - apply (moves_sound _ (sample_moves ++ sample_after)). by vm_compute.
  - vm_compute. repeat (constructor; [by split|]). constructor.
  - by vm_compute.
Defined.

Lemma connection_ban_concurrent_witness :
  conn_log "c1" (log (sample_state (sample_moves ++ sample_after))) = conn_log "c1" (log (sample_state sample_moves)).
Proof.
  apply (connection_ban_concurrent (secs 1) sample_limiter 0 (sample_state sample_moves) _ "c1" 0%nat 7 offender 10 (secs 60)).
  - done.
  - apply (moves_sound _ sample_moves). by vm_compute.
  - split; by vm_compute.
  - apply (moves_sound _ sample_after). by vm_compute.
  - by vm_compute.
Defined.
