(* ===== verification/Validation.v ===== *)
(** * Parameter validation (crates/wscall-server/src/validation.rs)

    The built-in validators, the validators the macros generate (one function
    per macro, the literals of the invocation as arguments) and the conversion
    of validation errors to JSON details.  The [validator] crate's error types
    are data; [regex] and the Unicode tables of [char] are parameters. *)

From Stdlib Require Import Floats.SpecFloat.
From stdpp Require Import pretty.
From S2P Require Import Prelude Utf8 Json.
#[local] Open Scope Z_scope.

(** ** Errors of the [validator] crate *)
Record ValidationError : Type := mkValidationError {
  ve_code : string;
  ve_message : option string;
  ve_params : gmap string Value;
}.

Inductive ValidationErrors : Type :=
| VErrors (errors : list (string * ValidationErrorsKind))
with ValidationErrorsKind : Type :=
| VStruct (nested : ValidationErrors)
| VList (items : list (Z * ValidationErrors))
| VField (errors : list ValidationError).

(** [ValidationError::new]. *)
Definition validation_error_new (code : string) : ValidationError :=
  {| ve_code := code; ve_message := None; ve_params := ∅ |}.

Definition with_message (e : ValidationError) (msg : string) : ValidationError :=
  {| ve_code := ve_code e; ve_message := Some msg; ve_params := ve_params e |}.

(** [ValidationError::add_param]. *)
Definition add_param (e : ValidationError) (key : string) (v : Value) : ValidationError :=
  {| ve_code := ve_code e; ve_message := ve_message e; ve_params := <[key := v]> (ve_params e) |}.

Definition simple_error (code message : string) : ValidationError :=
  with_message (validation_error_new code) message.

(** A check that fails with a given error. *)
Abbreviation check := (result ValidationError unit).

(** ** Character classes *)

(** [char::is_whitespace]: the Unicode White_Space property. *)
Definition is_whitespace (c : Z) : bool :=
  (9 <=? c) && (c <=? 13) || (c =? 32) || (c =? 133) || (c =? 160) || (c =? 5760)
  || (8192 <=? c) && (c <=? 8202) || (c =? 8232) || (c =? 8233) || (c =? 8239)
  || (c =? 8287) || (c =? 12288).

Definition is_ascii_digit (c : Z) : bool := (48 <=? c) && (c <=? 57).
Definition is_ascii_alphabetic (c : Z) : bool :=
  (65 <=? c) && (c <=? 90) || (97 <=? c) && (c <=? 122).
Definition is_ascii_alphanumeric (c : Z) : bool := is_ascii_alphabetic c || is_ascii_digit c.

(** The Unicode tables behind [char::is_alphabetic] and its companions. *)
Class CharTables : Type := {
  is_alphabetic : Z -> bool;
  is_numeric : Z -> bool;
  is_lowercase : Z -> bool;
  is_uppercase : Z -> bool;
}.
Definition is_alphanumeric {T : CharTables} (c : Z) : bool := is_alphabetic c || is_numeric c.

(** [str::trim]: drop the leading and trailing whitespace. *)
Fixpoint drop_ws (cs : list Z) : list Z :=
  match cs with
  | [] => []
  | c :: cs' => if is_whitespace c then drop_ws cs' else cs
  end.
Definition trim (cs : list Z) : list Z := rev (drop_ws (rev (drop_ws cs))).

(** ** Built-in validators *)
Section Builtin.
Context {T : CharTables}.

Definition required {A} (value : option A) : check :=
  match value with
  | None => Err (simple_error "required" "value is required")
  | Some _ => Ok tt
  end.

Definition assert_true (value : bool) : check :=
  if negb value then Err (simple_error "assert_true" "value must be true") else Ok tt.

Definition assert_false (value : bool) : check :=
  if value then Err (simple_error "assert_false" "value must be false") else Ok tt.

Definition not_empty (value : string) : check :=
  if bool_decide (str_len value = 0)
  then Err (simple_error "not_empty" "value cannot be empty") else Ok tt.

Definition not_blank (value : string) : check :=
  if bool_decide (trim (chars value) = [])
  then Err (simple_error "not_blank" "value cannot be blank") else Ok tt.

Definition no_whitespace (value : string) : check :=
  if existsb is_whitespace (chars value)
  then Err (simple_error "no_whitespace" "value cannot contain whitespace") else Ok tt.

Definition alphabetic (value : string) : check :=
  if negb (forallb is_alphabetic (chars value))
  then Err (simple_error "alphabetic" "value must contain only letters") else Ok tt.

Definition alphanumeric (value : string) : check :=
  if negb (forallb is_alphanumeric (chars value))
  then Err (simple_error "alphanumeric" "value must contain only letters or digits") else Ok tt.

Definition ascii_alphanumeric (value : string) : check :=
  if negb (forallb is_ascii_alphanumeric (chars value))
  then Err (simple_error "ascii_alphanumeric" "value must contain only ASCII letters or digits")
  else Ok tt.

Definition numeric_text (value : string) : check :=
  if negb (forallb is_ascii_digit (chars value))
  then Err (simple_error "numeric_text" "value must contain only digits") else Ok tt.

Definition lowercase (value : string) : check :=
  if existsb (fun ch => is_alphabetic ch && negb (is_lowercase ch)) (chars value)
  then Err (simple_error "lowercase" "value must be lowercase") else Ok tt.

Definition uppercase (value : string) : check :=
  if existsb (fun ch => is_alphabetic ch && negb (is_uppercase ch)) (chars value)
  then Err (simple_error "uppercase" "value must be uppercase") else Ok tt.

Definition non_empty_vec {A} (value : list A) : check :=
  match value with [] => Err (simple_error "not_empty" "collection cannot be empty") | _ => Ok tt end.

Definition non_empty_map {K A} `{Countable K} (value : gmap K A) : check :=
  if bool_decide (size value = 0%nat)
  then Err (simple_error "not_empty" "map cannot be empty") else Ok tt.

(** [positive_i32], [positive_i64], [non_negative_i32], [non_negative_i64]: the
    comparisons do not depend on the width. *)
Definition positive_int (value : Z) : check :=
  if value <=? 0 then Err (simple_error "positive" "value must be greater than 0") else Ok tt.

Definition non_negative_int (value : Z) : check :=
  if value <? 0
  then Err (simple_error "non_negative" "value must be greater than or equal to 0") else Ok tt.

(** [f64] comparisons are those of IEEE 754: every comparison with a NaN is false. *)
Definition f64_0 : spec_float := S754_zero false.
Definition f64_100 : spec_float := S754_finite false 7036874417766400 (-46).

Definition positive_f64 (value : spec_float) : check :=
  if SFleb value f64_0 then Err (simple_error "positive" "value must be greater than 0") else Ok tt.

Definition non_negative_f64 (value : spec_float) : check :=
  if SFltb value f64_0
  then Err (simple_error "non_negative" "value must be greater than or equal to 0") else Ok tt.

Definition percentage (value : spec_float) : check :=
  if negb (SFleb f64_0 value && SFleb value f64_100)
  then Err (simple_error "percentage" "value must be between 0 and 100") else Ok tt.
End Builtin.

(** ** Validators generated by the macros *)

(** [str::contains]: some position starts with the needle. *)
Fixpoint is_prefix_of (p l : bytes) : bool :=
  match p, l with
  | [], _ => true
  | a :: p, b :: l => bool_decide (a = b) && is_prefix_of p l
  | _ :: _, [] => false
  end.
Fixpoint contains (l needle : bytes) : bool :=
  is_prefix_of needle l || match l with [] => false | _ :: l => contains l needle end.

Definition char_count (value : string) : Z := blen (chars value).
Definition num (z : Z) : Value := Num (if z <? 0 then NegInt z else PosInt z).
Definition fmt (z : Z) : string := pretty z.

(** [wscall_regex_validator!($name, $pattern, $code)]. *)
Definition regex_validator (is_match : string -> bool) (pattern code value : string) : check :=
  if is_match value then Ok tt
  else Err (with_message (validation_error_new code) ("value does not match pattern " +:+ pattern)).

Definition min_length_validator (min : Z) (value : string) : check :=
  let len := char_count value in
  if len <? min then
    let error := validation_error_new "min_length" in
    let error := with_message error ("length must be at least " +:+ fmt min) in
    let error := add_param error "min" (num min) in
    Err (add_param error "actual" (num len))
  else Ok tt.

Definition max_length_validator (max : Z) (value : string) : check :=
  let len := char_count value in
  if max <? len then
    let error := validation_error_new "max_length" in
    let error := with_message error ("length must be at most " +:+ fmt max) in
    let error := add_param error "max" (num max) in
    Err (add_param error "actual" (num len))
  else Ok tt.

Definition length_range_validator (min max : Z) (value : string) : check :=
  let len := char_count value in
  if negb ((min <=? len) && (len <=? max)) then
    let error := validation_error_new "length_range" in
    let error := with_message error
      ("length must be between " +:+ fmt min +:+ " and " +:+ fmt max) in
    let error := add_param error "min" (num min) in
    let error := add_param error "max" (num max) in
    Err (add_param error "actual" (num len))
  else Ok tt.

Definition contains_validator (needle code value : string) : check :=
  if contains (str_bytes value) (str_bytes needle) then Ok tt
  else Err (with_message (validation_error_new code) ("value must contain " +:+ needle)).

Definition not_contains_validator (needle code value : string) : check :=
  if contains (str_bytes value) (str_bytes needle)
  then Err (with_message (validation_error_new code) ("value cannot contain " +:+ needle))
  else Ok tt.

(** [debug] renders the list of allowed values ([{:?}]). *)
Definition one_of_validator (debug : list string -> string) (allowed : list string)
    (code value : string) : check :=
  if bool_decide (value ∈ allowed) then Ok tt
  else Err (with_message (validation_error_new code) ("value must be one of " +:+ debug allowed)).

(** The numeric macros at an integer type. *)
Definition numeric_min_validator (min value : Z) : check :=
  if value <? min then
    let error := validation_error_new "min" in
    let error := with_message error ("value must be greater than or equal to " +:+ fmt min) in
    Err (add_param error "min" (num min))
  else Ok tt.

Definition numeric_max_validator (max value : Z) : check :=
  if max <? value then
    let error := validation_error_new "max" in
    let error := with_message error ("value must be less than or equal to " +:+ fmt max) in
    Err (add_param error "max" (num max))
  else Ok tt.

Definition numeric_range_validator (min max value : Z) : check :=
  if negb ((min <=? value) && (value <=? max)) then
    let error := validation_error_new "range" in
    let error := with_message error
      ("value must be between " +:+ fmt min +:+ " and " +:+ fmt max) in
    let error := add_param error "min" (num min) in
    Err (add_param error "max" (num max))
  else Ok tt.

(** ** Errors as JSON *)

(** One error of a field. *)
Definition error_value (e : ValidationError) : Value :=
  Object (<["code" := Str (ve_code e)]>
         (<["message" := match ve_message e with Some m => Str m | None => Null end]>
         {["params" := Object (ve_params e)]})).

Fixpoint errors_to_details (errors : ValidationErrors) : Value :=
  match errors with
  | VErrors fields =>
      Object ((fix go (fs : list (string * ValidationErrorsKind)) (acc : gmap string Value) :=
                 match fs with
                 | [] => acc
                 | (field, kind) :: fs => go fs (<[field := error_kind_to_value kind]> acc)
                 end) fields ∅)
  end
with error_kind_to_value (kind : ValidationErrorsKind) : Value :=
  match kind with
  | VField errors => Array (map error_value errors)
  | VList items =>
      Object ((fix go (its : list (Z * ValidationErrors)) (acc : gmap string Value) :=
                 match its with
                 | [] => acc
                 | (index, nested) :: its => go its (<[fmt index := errors_to_details nested]> acc)
                 end) items ∅)
  | VStruct nested => errors_to_details nested
  end.

(** ** Reading details back

    The errors found at a path: a field name, then an index or a field of a
    nested structure, and so on. *)
Fixpoint errors_at (errors : ValidationErrors) (path : list string) : option (list ValidationError) :=
  match errors, path with
  | VErrors fields, field :: path =>
      (fix go (fs : list (string * ValidationErrorsKind)) :=
         match fs with
         | [] => None
         | (f, kind) :: fs => if bool_decide (f = field) then kind_at kind path else go fs
         end) fields
  | _, [] => None
  end
with kind_at (kind : ValidationErrorsKind) (path : list string) : option (list ValidationError) :=
  match kind with
  | VField errors => match path with [] => Some errors | _ => None end
  | VStruct nested => errors_at nested path
  | VList items =>
      match path with
      | [] => None
      | index :: path =>
          (fix go (its : list (Z * ValidationErrors)) :=
             match its with
             | [] => None
             | (i, nested) :: its => if bool_decide (fmt i = index) then errors_at nested path else go its
             end) items
      end
  end.

Fixpoint value_at (v : Value) (path : list string) : option Value :=
  match path with
  | [] => match v with Array _ => Some v | _ => None end
  | key :: path => match v with Object m => m !! key ≫= fun v => value_at v path | _ => None end
  end.

(** No map repeats a key (they are maps in the [validator] crate). *)
Fixpoint errors_distinct (errors : ValidationErrors) : Prop :=
  match errors with
  | VErrors fields =>
      NoDup (map fst fields)
      /\ (fix go (fs : list (string * ValidationErrorsKind)) :=
            match fs with [] => True | (_, kind) :: fs => kind_distinct kind /\ go fs end) fields
  end
with kind_distinct (kind : ValidationErrorsKind) : Prop :=
  match kind with
  | VField _ => True
  | VStruct nested => errors_distinct nested
  | VList items =>
      NoDup (map fst items)
      /\ (fix go (its : list (Z * ValidationErrors)) :=
            match its with [] => True | (_, nested) :: its => errors_distinct nested /\ go its end) items
  end.

(** ** Lemmas *)
Section Induction.
Context (P : ValidationErrors -> Prop) (Q : ValidationErrorsKind -> Prop).
Context (HE : forall fs, Forall (fun f => Q f.2) fs -> P (VErrors fs)).
Context (HF : forall es, Q (VField es)) (HS : forall e, P e -> Q (VStruct e)).
Context (HL : forall its, Forall (fun i => P i.2) its -> Q (VList its)).

Fixpoint errors_induct (e : ValidationErrors) : P e :=
  match e with
  | VErrors fs =>
      HE fs ((fix go (fs : list (string * ValidationErrorsKind)) : Forall (fun f => Q f.2) fs :=
                match fs with
                | [] => Forall_nil _
                | f :: fs => @List.Forall_cons _ _ f fs (kind_induct f.2) (go fs)
                end) fs)
  end
with kind_induct (k : ValidationErrorsKind) : Q k :=
  match k with
  | VField es => HF es
  | VStruct e => HS e (errors_induct e)
  | VList its =>
      HL its ((fix go (its : list (Z * ValidationErrors)) : Forall (fun i => P i.2) its :=
                match its with
                | [] => Forall_nil _
                | i :: its => @List.Forall_cons _ _ i its (errors_induct i.2) (go its)
                end) its)
  end.
End Induction.

(** Successive insertions, and the first entry of a key. *)
Fixpoint insert_all (l : list (string * Value)) (acc : gmap string Value) : gmap string Value :=
  match l with [] => acc | (k, v) :: l => insert_all l (<[k := v]> acc) end.
Fixpoint assoc {A} (key : string) (l : list (string * A)) : option A :=
  match l with [] => None | (k, a) :: l => if bool_decide (k = key) then Some a else assoc key l end.

Lemma assoc_None {A} key (l : list (string * A)) : key ∉ map fst l -> assoc key l = None.
Proof.
  induction l as [|[k a] l IH]; cbn; [done|]. intros [Hne Hn]%not_elem_of_cons.
  rewrite bool_decide_false by done. by apply IH.
Qed.

Lemma insert_all_lookup l : forall acc key,
  NoDup (map fst l) ->
  insert_all l acc !! key = match assoc key l with Some v => Some v | None => acc !! key end.
Proof.
  induction l as [|[k v] l IH]; intros acc key Hnd; cbn [insert_all assoc]; [done|].
  cbn in Hnd. pose proof (NoDup_cons_1_1 _ _ Hnd) as Hk. apply NoDup_cons_1_2 in Hnd. rewrite IH by done.
  case_bool_decide as Hkey; [subst|].
  - rewrite assoc_None by done. by rewrite lookup_insert_eq.
  - by rewrite lookup_insert_ne by done.
Qed.

Lemma assoc_map {A B} (f : A -> B) key (l : list (string * A)) :
  assoc key (map (fun e => (e.1, f e.2)) l) = f <$> assoc key l.
Proof. induction l as [|[k a] l IH]; cbn; [done|]. by case_bool_decide. Qed.

Lemma errors_to_details_eq fs :
  errors_to_details (VErrors fs)
  = Object (insert_all (map (fun f => (f.1, error_kind_to_value f.2)) fs) ∅).
Proof.
  cbn [errors_to_details]. f_equal. generalize (∅ : gmap string Value).
  induction fs as [|[f k] fs IH]; intros acc; cbn; [done|]. apply IH.
Qed.

Lemma list_to_value_eq its :
  error_kind_to_value (VList its)
  = Object (insert_all (map (fun i => (fmt i.1, errors_to_details i.2)) its) ∅).
Proof.
  cbn [error_kind_to_value]. f_equal. generalize (∅ : gmap string Value).
  induction its as [|[f k] its IH]; intros acc; cbn; [done|]. apply IH.
Qed.

Lemma errors_at_eq fs field path :
  errors_at (VErrors fs) (field :: path) = assoc field fs ≫= fun k => kind_at k path.
Proof. cbn. induction fs as [|[f k] fs IH]; cbn; [done|]. by case_bool_decide. Qed.

Lemma kind_at_list_eq its index path :
  kind_at (VList its) (index :: path)
  = assoc index (map (fun i => (fmt i.1, i.2)) its) ≫= fun e => errors_at e path.
Proof. cbn. induction its as [|[i e] its IH]; cbn; [done|]. by case_bool_decide. Qed.

Lemma errors_distinct_eq fs :
  errors_distinct (VErrors fs) <-> NoDup (map fst fs) /\ Forall (fun f => kind_distinct f.2) fs.
Proof.
  cbn. apply and_iff_compat_l. induction fs as [|[f k] fs IH]; cbn.
  - by split; [constructor|].
  - rewrite IH. split; [by intros [? ?]; constructor|]. by inversion 1.
Qed.

Lemma list_distinct_eq its :
  kind_distinct (VList its) <-> NoDup (map fst its) /\ Forall (fun i => errors_distinct i.2) its.
Proof.
  cbn. apply and_iff_compat_l. induction its as [|[f k] its IH]; cbn.
  - by split; [constructor|].
  - rewrite IH. split; [by intros [? ?]; constructor|]. by inversion 1.
Qed.

Lemma assoc_elem {A} key (l : list (string * A)) a : assoc key l = Some a -> (key, a) ∈ l.
Proof.
  induction l as [|[k b] l IH]; cbn; [done|]. case_bool_decide as Hk.
  - intros [= ->]. subst. apply elem_of_cons. by left.
  - intros Ha. apply elem_of_cons. right. by apply IH.
Qed.

Definition errors_array (es : list ValidationError) : Value := Array (map error_value es).

Lemma drop_ws_nil cs : drop_ws cs = [] <-> Forall (fun c => is_whitespace c = true) cs.
Proof.
  induction cs as [|c cs IH]; cbn [drop_ws]; [by split; [constructor|]|].
  destruct (is_whitespace c) eqn:Hc.
  - rewrite IH. split; [by constructor|]. by inversion 1.
  - split; [done|]. inversion 1. congruence.
Qed.

Lemma drop_ws_nonws cs c l : drop_ws cs = c :: l -> is_whitespace c = false.
Proof.
  induction cs as [|d cs IH]; cbn [drop_ws]; [done|]. destruct (is_whitespace d) eqn:Hd; [done|].
  by intros [= -> ->].
Qed.

Lemma trim_nil cs : trim cs = [] <-> Forall (fun c => is_whitespace c = true) cs.
Proof.
  unfold trim. split.
  - intros Ht. apply (f_equal (@rev Z)) in Ht. rewrite rev_involutive in Ht.
    apply drop_ws_nil in Ht. apply drop_ws_nil. destruct (drop_ws cs) as [|c l] eqn:Hd; [done|].
    apply Forall_rev in Ht. rewrite rev_involutive in Ht. inversion Ht; subst.
    apply drop_ws_nonws in Hd. congruence.
  - intros Hc. apply drop_ws_nil in Hc. by rewrite Hc.
Qed.

(** ** Properties *)

(** Error details are complete and faithful.  Whatever the nesting of
    structures and lists, the JSON object [errors_to_details] builds holds, at
    every path, exactly the array of the errors recorded at that path, and
    nothing at any other path. *)
Theorem details_faithful errors path :
  errors_distinct errors ->
  value_at (errors_to_details errors) path = errors_array <$> errors_at errors path.
Proof.
  revert path.
  revert errors.
  refine (errors_induct _ (fun kind => forall path, kind_distinct kind ->
    value_at (error_kind_to_value kind) path = errors_array <$> kind_at kind path) _ _ _ _).
  - intros fs IH [|field path] Hd; [done|]. apply errors_distinct_eq in Hd as [Hnd Hk].
    rewrite errors_to_details_eq, errors_at_eq. cbn [value_at].
    rewrite insert_all_lookup by (by rewrite map_map). rewrite assoc_map, lookup_empty.
    destruct (assoc field fs) as [kind|] eqn:Ha; cbn; [|done].
    apply assoc_elem, list_elem_of_In in Ha.
    rewrite List.Forall_forall in IH, Hk. exact (IH _ Ha path (Hk _ Ha)).
  - by intros es [|].
  - intros e IH path Hd. by apply IH.
  - intros its IH [|index path] Hd; [done|]. apply list_distinct_eq in Hd as [Hnd Hk].
    rewrite list_to_value_eq, kind_at_list_eq. cbn [value_at].
    assert (Hmm : map (fun i => (fmt i.1, errors_to_details i.2)) its
      = map (fun e => (e.1, errors_to_details e.2)) (map (fun i => (fmt i.1, i.2)) its))
      by (by rewrite map_map).
    rewrite Hmm, insert_all_lookup.
    2: { rewrite !map_map. cbn. rewrite <- (map_map fst fmt).
         apply (NoDup_fmap_2 fmt). exact Hnd. }
    rewrite assoc_map, lookup_empty.
    destruct (assoc index _) as [e|] eqn:Ha; cbn; [|done].
    apply assoc_elem, list_elem_of_In, in_map_iff in Ha as ([i e'] & [= <- <-] & Ha).
    rewrite List.Forall_forall in IH, Hk. exact (IH _ Ha path (Hk _ Ha)).
Qed.

(** The text validators say what their names say.  [not_blank] accepts
    exactly the texts with a character that is not white space, [no_whitespace]
    exactly those without one that is, and a text that passes both is not
    empty. *)
Lemma blank_validators v :
  (not_blank v = Ok tt <-> exists c, c ∈ chars v /\ is_whitespace c = false)
  /\ (no_whitespace v = Ok tt <-> forall c, c ∈ chars v -> is_whitespace c = false)
  /\ (not_blank v = Ok tt -> not_empty v = Ok tt).
Proof.
  assert (Hnb : not_blank v = Ok tt <-> exists c, c ∈ chars v /\ is_whitespace c = false).
  { unfold not_blank. case_bool_decide as Ht.
    - apply trim_nil in Ht. split; [done|]. intros (c & Hc & Hw).
      rewrite List.Forall_forall in Ht. rewrite Ht in Hw; [done|]. by apply list_elem_of_In.
    - split; [intros _|done]. destruct (existsb (fun c => negb (is_whitespace c)) (chars v)) eqn:He.
      + apply existsb_exists in He as (c & Hc & Hw). exists c. split; [by apply list_elem_of_In|].
        by destruct (is_whitespace c).
      + exfalso. apply Ht, trim_nil, List.Forall_forall. intros c Hc.
        destruct (is_whitespace c) eqn:Hw; [done|].
        assert (existsb (fun c => negb (is_whitespace c)) (chars v) = true); [|congruence].
        apply existsb_exists. exists c. by rewrite Hw. }
  split_and!; [exact Hnb| |].
  - unfold no_whitespace. destruct (existsb is_whitespace (chars v)) eqn:He.
    + apply existsb_exists in He as (c & Hc & Hw). split; [done|]. intros Hall.
      rewrite Hall in Hw; [done|]. by apply list_elem_of_In.
    + split; [intros _|done]. intros c Hc%list_elem_of_In. destruct (is_whitespace c) eqn:Hw; [|done].
      assert (existsb is_whitespace (chars v) = true); [|congruence]. apply existsb_exists. by exists c.
  - rewrite Hnb. intros (c & Hc & _). unfold not_empty. case_bool_decide as He; [|done].
    unfold str_len, blen in He. destruct (str_bytes v) eqn:Hv; [|cbn in He; lia].
    unfold chars in Hc. rewrite Hv in Hc. by apply elem_of_nil in Hc.
Qed.

(** Not-a-number is positive.  [positive_f64] and [non_negative_f64] accept
    NaN, because they test for the refused side of a comparison that NaN always
    fails; [percentage], which tests for the accepted range, refuses it. *)
Lemma nan_is_positive :
  positive_f64 S754_nan = Ok tt /\ non_negative_f64 S754_nan = Ok tt
  /\ percentage S754_nan = Err (simple_error "percentage" "value must be between 0 and 100").
Proof. split_and!; reflexivity. Qed.

(** ** Instances *)
Definition nested_errors : ValidationErrors :=
  VErrors
    [("name", VField [simple_error "not_blank" "value cannot be blank"]);
     ("items", VList [(0, VErrors [("sku", VField [simple_error "required" "value is required"])]);
                      (12, VErrors [])])].

Lemma details_faithful_witness :
  value_at (errors_to_details nested_errors) ["items"; "0"; "sku"]
  = Some (errors_array [simple_error "required" "value is required"]).
Proof.
  rewrite (details_faithful nested_errors); [vm_compute; reflexivity|].
  apply errors_distinct_eq. split.
  - apply (bool_decide_unpack _). vm_compute. exact I.
  - constructor; [exact I|]. constructor; [|constructor]. apply list_distinct_eq. split.
    + apply (bool_decide_unpack _). vm_compute. exact I.
    + constructor; [apply errors_distinct_eq; split|constructor; [apply errors_distinct_eq; split|constructor]].
      * apply (bool_decide_unpack _). vm_compute. exact I.
      * constructor; [exact I|constructor].
      * constructor.
      * constructor.
Defined.

(** The unit tests of [validation.rs]. *)
Example built_in_string_validators_work :
  is_ok (not_blank "hello") = true /\ is_ok (not_blank "   ") = false
  /\ is_ok (ascii_alphanumeric "abc123") = true /\ is_ok (ascii_alphanumeric "abc-123") = false
  /\ is_ok (numeric_text "123456") = true /\ is_ok (numeric_text "12a456") = false
  /\ is_ok (min_length_validator 3 "abc") = true /\ is_ok (min_length_validator 3 "ab") = false
  /\ is_ok (length_range_validator 2 4 "a") = false
  /\ is_ok (numeric_range_validator 1 150 151) = false
  /\ is_ok (percentage f64_100) = true.
Proof. split_and!; vm_compute; reflexivity. Qed.
