(* ===== verification/ServerTypes.v ===== *)
(** * Server-side types (crates/wscall-server/src/server_types.rs) and the
    push operations of [ServerHandle] (server_runtime.rs)

    The shared state the server's tasks touch is one record, [World]: the client
    table, the outbound channel of every connection, the rate limiter, the
    entropy source, the messages written to each socket (oldest first) and the
    application's own state of type [App].  An
    [Arc<ServerState>] held by a handle is this record; handles and contexts
    carry the rest.  Every operation below is one step on the world. *)

From stdpp Require Import pretty.
From S2P Require Import Prelude Utf8 Json Protocol Texts Attachment PacketJson Codec RateLimiter.
From S2P Require Import Validation.
#[local] Open Scope Z_scope.

(** ** Errors *)
Record ApiError : Type := mkApiError {
  api_code : string;
  api_message : string;
  api_status : Z;
  api_details : option Value;
}.

Definition api_error_new (code message : string) (status : Z) : ApiError :=
  {| api_code := code; api_message := message; api_status := status; api_details := None |}.
Definition bad_request (message : string) : ApiError := api_error_new "bad_request" message 400.
Definition not_found (message : string) : ApiError := api_error_new "not_found" message 404.
Definition internal (message : string) : ApiError := api_error_new "internal_error" message 500.
Definition unauthorized (message : string) : ApiError := api_error_new "unauthorized" message 401.
Definition with_details (e : ApiError) (details : Value) : ApiError :=
  {| api_code := api_code e; api_message := api_message e; api_status := api_status e;
     api_details := Some details |}.
Definition into_payload (e : ApiError) : ErrorPayload :=
  mkErrorPayload (api_code e) (api_message e) (api_status e) (api_details e).

Inductive ServerError : Type :=
| SIo (e : string)
| SWebSocket (e : string)
| SProtocol (e : ProtocolError)
| SApi (e : ApiError)
| SIdleTimeout (connection_id : string)
| SOutboundQueueFull (connection_id : string)
| SAuthFailed (e : string).

(** [Display] and [Debug] of [ApiError], [Display] of [ServerError]. *)
Definition api_error_text (e : ApiError) : string := api_code e +:+ ": " +:+ api_message e.
Definition api_error_debug {TX : ErrorTexts} (e : ApiError) : string :=
  error_struct_debug "ApiError" (api_code e) (api_message e) (api_status e) (api_details e).
Definition server_error_text {TX : ErrorTexts} (e : ServerError) : string :=
  match e with
  | SIo e => "io error: " +:+ e
  | SWebSocket e => "websocket error: " +:+ e
  | SProtocol e => "protocol error: " +:+ protocol_error_text e
  | SApi e => "api error: " +:+ api_error_debug e
  | SIdleTimeout connection_id => "connection idle timeout: " +:+ connection_id
  | SOutboundQueueFull connection_id => "outbound queue is full for connection " +:+ connection_id
  | SAuthFailed e => "authentication failed: " +:+ e
  end.

(** ** Connections *)
Inductive ServerOutbound : Type :=
| PreEncoded (frame : bytes)
| Packet (packet : PacketEnvelope)
| Pong (payload : bytes)
| Close.

(** [tungstenite::Message]. *)
Inductive Message : Type :=
| MBinary (payload : bytes)
| MText (text : string)
| MPing (payload : bytes)
| MPong (payload : bytes)
| MClose
| MFrame.

Definition SERVER_OUTBOUND_QUEUE_CAPACITY : Z := 256.

(** A bounded [tokio::sync::mpsc] channel: the messages sent and not yet
    received, and whether the receiver is alive. *)
Record Channel : Type := mkChannel {
  queue : list ServerOutbound;
  receiver : bool;
}.

Abbreviation object_map := (gmap string Value).
Definition SocketAddr : Type := IpAddr * Z.

(** [Display] of [IpAddr].  An IPv6 address shortens its first longest run of at
    least two zero segments. *)
Definition ipv4_text (a : N) : string :=
  String.concat "." (map (fun k => pretty (N.land (N.shiftr a k) 255)) [24; 16; 8; 0]%N).
Definition ipv6_segments (a : N) : list Z :=
  map (fun k => Z.of_N (N.land (N.shiftr a k) 65535)) [112; 96; 80; 64; 48; 32; 16; 0]%N.
Definition segments_text (ss : list Z) : string := String.concat ":" (map (fun s => hex_digits 4 s "") ss).
Fixpoint zero_prefix (ss : list Z) : nat :=
  match ss with s :: ss => if s =? 0 then S (zero_prefix ss) else O | [] => O end.
(** The first longest run of zeros in [ss], whose first segment has index [i]. *)
Fixpoint longest_zeros (i : nat) (ss : list Z) : nat * nat :=
  match ss with
  | [] => (i, O)
  | _ :: ss' =>
      let here := zero_prefix ss in
      let '(start, len) := longest_zeros (S i) ss' in
      if (len <=? here)%nat then (i, here) else (start, len)
  end.
Definition ipv6_text (a : N) : string :=
  let ss := ipv6_segments a in
  if bool_decide (take 6 ss = [0; 0; 0; 0; 0; 65535]) then "::ffff:" +:+ ipv4_text (N.land a 4294967295)
  else
    let '(start, len) := longest_zeros 0 ss in
    if (1 <? len)%nat
    then segments_text (take start ss) +:+ "::" +:+ segments_text (drop (start + len) ss)
    else segments_text ss.
Definition ip_text (ip : IpAddr) : string :=
  match ip with V4 a => ipv4_text a | V6 a => ipv6_text a end.

(** [peer_ip], which the contexts share. *)
Definition peer_ip (peer_addr : option SocketAddr) : option string := ip_text ∘ fst <$> peer_addr.

(** The sender of an entry is the name of its channel. *)
Record ClientEntry : Type := mkClientEntry {
  sender : string;
  idle_timeout : option Z;
  auth_context : option object_map;
}.

Record ServerState : Type := mkServerState {
  clients : gmap string ClientEntry;
  next_event_id : Z;
}.

Definition state_new : ServerState := {| clients := ∅; next_event_id := 0 |}.

Section Server.
Context {J : SerdeJson} {C : Crypto} {App : Type}.

Record World : Type := mkWorld {
  state : ServerState;
  channels : gmap string Channel;
  limiter : option RateLimiterState;
  entropy : nat -> Z -> result string bytes;
  drawn : nat;
  wire : list (string * Message);
  app : App;
}.

Definition set_state (w : World) (s : ServerState) : World :=
  mkWorld s (channels w) (limiter w) (entropy w) (drawn w) (wire w) (app w).
Definition set_channels (w : World) (c : gmap string Channel) : World :=
  mkWorld (state w) c (limiter w) (entropy w) (drawn w) (wire w) (app w).
Definition set_limiter (w : World) (l : option RateLimiterState) : World :=
  mkWorld (state w) (channels w) l (entropy w) (drawn w) (wire w) (app w).
Definition set_drawn (w : World) (n : nat) : World :=
  mkWorld (state w) (channels w) (limiter w) (entropy w) n (wire w) (app w).
Definition set_app (w : World) (a : App) : World :=
  mkWorld (state w) (channels w) (limiter w) (entropy w) (drawn w) (wire w) a.
Definition set_wire (w : World) (l : list (string * Message)) : World :=
  mkWorld (state w) (channels w) (limiter w) (entropy w) (drawn w) l (app w).

(** [codec.encode(&packet)], which fills its 12-byte nonce with [getrandom]: the
    outcome of the [n]-th call for [len] bytes is [entropy w n len]. *)
Definition codec_encode (codec : FrameCodec) (packet : PacketEnvelope) :
    M World ProtocolError bytes :=
  fun w => (encode codec (entropy w (drawn w) CHACHA20_NONCE_LEN) packet, set_drawn w (S (drawn w))).

(** ** Channels *)

(** [Sender::try_send]: fails when the queue is full or the receiver is gone. *)
Definition chan_try_send (c : Channel) (m : ServerOutbound) : option Channel :=
  if receiver c && bool_decide (blen (queue c) < SERVER_OUTBOUND_QUEUE_CAPACITY)
  then Some (mkChannel (queue c ++ [m]) true) else None.

Definition try_send (key : string) (m : ServerOutbound) : M World unit unit :=
  fun w =>
    match channels w !! key ≫= fun c => chan_try_send c m with
    | Some c => (Ok tt, set_channels w (<[key := c]> (channels w)))
    | None => (Err tt, w)
    end.

(** [Sender::send(..).await]: fails when the receiver is gone.  A sender that
    finds the queue full waits its turn (the permits of the channel are handed
    out in order), so its message takes its place behind the capacity. *)
Definition send (key : string) (m : ServerOutbound) : M World unit unit :=
  fun w =>
    match channels w !! key with
    | Some c =>
        if receiver c
        then (Ok tt, set_channels w (<[key := mkChannel (queue c ++ [m]) true]> (channels w)))
        else (Err tt, w)
    | None => (Err tt, w)
    end.

(** ** Handles *)
Record ServerHandle : Type := mkServerHandle {
  handle_codec : FrameCodec;
  handle_default_encryption : EncryptionKind;
  handle_is_ecdh : bool;
}.

(** [next_event_id.fetch_add(1) + 1]. *)
Definition fresh_event_id : M World ApiError Z :=
  fun w =>
    let id := next_event_id (state w) in
    (Ok (wrap 64 (id + 1)), set_state w (mkServerState (clients (state w)) (wrap 64 (id + 1)))).

Definition push_packet (h : ServerHandle) (event_id : Z) (name : string) (data : object_map)
    (atts : list FileAttachment) : PacketEnvelope :=
  with_encryption
    (EventEmit event_id name data atts (Object {["source" := Str "server"]}) true)
    (handle_default_encryption h).

(** [for entry in clients.iter() { let _ = entry.sender.try_send(message) }]. *)
Fixpoint send_to_all (entries : list (string * ClientEntry)) (m : ServerOutbound) : M World ApiError unit :=
  match entries with
  | [] => mret tt
  | (_, entry) :: entries => ignore (try_send (sender entry) m) ;; send_to_all entries m
  end.

(** [ServerHandle::broadcast_event]. *)
Definition broadcast_event (h : ServerHandle) (name : string) (data : object_map)
    (atts : list FileAttachment) : M World ApiError unit :=
  event_id ← fresh_event_id;
  let packet := push_packet h event_id name data atts in
  if handle_is_ecdh h then
    w ← get;
    send_to_all (map_to_list (clients (state w))) (Packet packet)
  else
    encoded ← m_map_err (fun _ => internal "failed to encode broadcast event")
                (codec_encode (handle_codec h) packet);
    w ← get;
    send_to_all (map_to_list (clients (state w))) (PreEncoded encoded).

(** [ServerHandle::send_event_to]. *)
Definition send_event_to (h : ServerHandle) (connection_id name : string) (data : object_map)
    (atts : list FileAttachment) : M World ApiError unit :=
  event_id ← fresh_event_id;
  let packet := push_packet h event_id name data atts in
  w ← get;
  entry ← lift (ok_or (not_found "target connection not found") (clients (state w) !! connection_id));
  if handle_is_ecdh h then
    m_map_err (fun _ => internal "failed to queue direct event")
      (try_send (sender entry) (Packet packet))
  else
    encoded ← m_map_err (fun _ => internal "failed to encode direct event")
                (codec_encode (handle_codec h) packet);
    m_map_err (fun _ => internal "failed to queue direct event")
      (try_send (sender entry) (PreEncoded encoded)).

(** [ServerHandle::connection_count]. *)
Definition connection_count (w : World) : Z := Z.of_nat (size (clients (state w))).

(** ** Contexts *)
Record ServerConnectionContext : Type := mkServerConnectionContext {
  sc_connection_id : string;
  sc_peer_addr : option SocketAddr;
  sc_server : ServerHandle;
  sc_authenticated : bool;
  sc_auth_context : option object_map;
}.

Record ServerDisconnectContext : Type := mkServerDisconnectContext {
  sd_connection_id : string;
  sd_peer_addr : option SocketAddr;
  sd_reason : string;
  sd_server : ServerHandle;
}.

Record ApiContext : Type := mkApiContext {
  ac_connection_id : string;
  ac_peer_addr : option SocketAddr;
  ac_request_id : Z;
  ac_route : string;
  ac_params : Value;
  ac_attachments : list FileAttachment;
  ac_metadata : Value;
  ac_server : ServerHandle;
  ac_auth_context : option object_map;
}.

Record EventContext : Type := mkEventContext {
  ec_connection_id : string;
  ec_peer_addr : option SocketAddr;
  ec_event_id : Z;
  ec_name : string;
  ec_data : object_map;
  ec_attachments : list FileAttachment;
  ec_metadata : Value;
  ec_server : ServerHandle;
  ec_auth_context : option object_map;
}.

Record ExceptionContext : Type := mkExceptionContext {
  xc_connection_id : string;
  xc_request_id : option Z;
  xc_target : string;
  xc_message_kind : string;
  xc_error : ApiError;
}.

Record AuthContext : Type := mkAuthContext {
  au_credential : string;
  au_peer_addr : option SocketAddr;
  au_connection_id : string;
}.

Record AuthOutput : Type := mkAuthOutput {
  session_timeout : option Z;
  context : object_map;
}.
Definition auth_output_new : AuthOutput := {| session_timeout := None; context := ∅ |}.
Definition with_session_timeout (o : AuthOutput) (timeout : Z) : AuthOutput :=
  {| session_timeout := Some timeout; context := context o |}.
Definition with_context (o : AuthOutput) (c : object_map) : AuthOutput :=
  {| session_timeout := session_timeout o; context := c |}.

(** ** Parameters of a request *)

(** [serde_json::from_value::<T>], its error as displayed text. *)
Class DeserializeOwned (T : Type) : Type := from_value : Value -> result string T.
(** The [ValidateParams] trait. *)
Class ValidateParams (T : Type) : Type := validate_params : T -> result ApiError unit.
(** [validator::Validate]. *)
Class Validate (T : Type) : Type := validate : T -> result ValidationErrors unit.

Definition param (ctx : ApiContext) (key : string) : option Value :=
  as_object (ac_params ctx) ≫= fun o => o !! key.

Definition require_param (ctx : ApiContext) (key : string) : result ApiError Value :=
  ok_or (bad_request ("missing required param: " +:+ key)) (param ctx key).

Definition bind_value {T} `{DeserializeOwned T} (v : Value) : result ApiError T :=
  map_err (fun source => bad_request ("invalid params: " +:+ source)) (from_value v).

(** [ApiContext::bind]. *)
Definition bind {T} `{DeserializeOwned T} (ctx : ApiContext) : result ApiError T :=
  bind_value (ac_params ctx).

(** [ApiContext::bind_take]: the value, and the context without its params. *)
Definition bind_take {T} `{DeserializeOwned T} (ctx : ApiContext) : result ApiError T * ApiContext :=
  (bind_value (ac_params ctx),
   mkApiContext (ac_connection_id ctx) (ac_peer_addr ctx) (ac_request_id ctx) (ac_route ctx) Null
     (ac_attachments ctx) (ac_metadata ctx) (ac_server ctx) (ac_auth_context ctx)).

Definition bind_and_validate {T} `{DeserializeOwned T, ValidateParams T} (ctx : ApiContext) :
    result ApiError T :=
  params ← bind ctx;
  validate_params params ;;
  Ok params.

(** The error of a failed [Validate]. *)
Definition validation_failed (source : ValidationErrors) : ApiError :=
  with_details (bad_request "params validation failed")
    (Object {["validation_errors" := errors_to_details source]}).

Definition bind_validated {T} `{DeserializeOwned T, Validate T} (ctx : ApiContext) :
    result ApiError T :=
  params ← bind ctx;
  map_err validation_failed (validate params) ;;
  Ok params.

(** [ApiContext::attachment_summaries]. *)
Definition attachment_summary (a : FileAttachment) : Value :=
  Object (<["id" := Str (att_id a)]> (<["name" := Str (att_name a)]>
         (<["content_type" := Str (att_content_type a)]>
         {["size" := Num (PosInt (att_size a))]}))).
Definition attachment_summaries (ctx : ApiContext) : list Value :=
  map attachment_summary (ac_attachments ctx).
End Server.

Arguments World App : clear implicits.

(** ** Lemmas on delivery *)
Section Delivery.
Context {J : SerdeJson} {C : Crypto} {App : Type}.
Implicit Types (w : World App) (m : ServerOutbound).

(** A channel after an attempt to send: unchanged when it refuses. *)
Definition attempt (m : ServerOutbound) (c : Channel) : Channel := default c (chan_try_send c m).

(** Every entry of the table is registered under the name of its channel. *)
Definition clients_wf w : Prop :=
  forall id e, clients (state w) !! id = Some e -> sender e = id.

Lemma ignore_try_send key m w :
  ignore (E:=unit) (F:=ApiError) (try_send key m) w
  = (Ok tt, set_channels w (alter (attempt m) key (channels w))).
Proof.
  unfold ignore, try_send, attempt. destruct (channels w !! key) as [c|] eqn:Hc; cbn [mbind option_bind].
  - destruct (chan_try_send c m) as [c'|] eqn:Hs; repeat f_equal.
    + apply map_eq. intros k. destruct (decide (key = k)) as [<-|].
      * by rewrite lookup_insert_eq, lookup_alter_eq, Hc; cbn; rewrite Hs.
      * by rewrite lookup_insert_ne, lookup_alter_ne.
    + destruct w as [st ch li en dr wi ap]. cbn in *. unfold set_channels. cbn. f_equal.
      apply map_eq. intros k. destruct (decide (key = k)) as [<-|].
      * by rewrite lookup_alter_eq, Hc; cbn; rewrite Hs.
      * by rewrite lookup_alter_ne.
  - destruct w as [st ch li en dr wi ap]. cbn in *. unfold set_channels. cbn. do 2 f_equal.
    apply map_eq. intros k. destruct (decide (key = k)) as [<-|].
    + by rewrite lookup_alter_eq, Hc.
    + by rewrite lookup_alter_ne.
Qed.

(** One attempt on the channel of every entry. *)
Lemma send_to_all_spec (entries : list (string * ClientEntry)) m : forall w,
  (forall id e, (id, e) ∈ entries -> sender e = id) -> NoDup (map fst entries) ->
  exists ch,
    send_to_all entries m w = (Ok tt, set_channels w ch)
    /\ forall k, ch !! k = if bool_decide (k ∈ map fst entries)
                           then attempt m <$> channels w !! k else channels w !! k.
Proof.
  induction entries as [|[id e] entries IH]; intros w Hs Hnd; cbn [send_to_all].
  - exists (channels w). split; [by destruct w|]. intros k. by rewrite bool_decide_false by set_solver.
  - pose proof (NoDup_cons_1_1 _ _ Hnd) as Hid. apply NoDup_cons_1_2 in Hnd. cbn [map fst] in Hid.
    rewrite (Hs id e) by set_solver. unfold mbind, M_bind. rewrite ignore_try_send.
    edestruct (IH (set_channels w (alter (attempt m) id (channels w)))) as (ch & Hch & Hk);
      [set_solver|done|].
    exists ch. split; [exact Hch|]. intros k. rewrite Hk. cbn [channels set_channels map fst].
    destruct (decide (k = id)) as [->|Hne].
    + rewrite bool_decide_false by done. rewrite bool_decide_true by set_solver.
      by rewrite lookup_alter_eq.
    + rewrite lookup_alter_ne by done. by do 2 case_bool_decide; set_solver.
Qed.

(** One attempt on one channel, as [send_event_to] makes it. *)
Lemma try_send_spec key m w0 (e : ClientEntry) (f : unit -> ApiError) :
  let '(r, w') := m_map_err f (try_send key m) w0 in
  state w' = state w0
  /\ (r = Ok tt <->
        exists e' m' c, Some e = Some e' /\ Ok (E:=ProtocolError) m = Ok m'
          /\ channels w0 !! key = Some c /\ receiver c = true
          /\ blen (queue c) < SERVER_OUTBOUND_QUEUE_CAPACITY)
  /\ (r = Ok tt -> exists m' c, Ok (E:=ProtocolError) m = Ok m' /\ channels w0 !! key = Some c
        /\ channels w' = <[key := mkChannel (queue c ++ [m']) true]> (channels w0))
  /\ (r <> Ok tt -> channels w' = channels w0).
Proof.
  unfold m_map_err, try_send. destruct (channels w0 !! key) as [c|] eqn:Hc; cbn [mbind option_bind].
  2: { split_and!; [done| |done|done]. split; [done|]. by intros (? & ? & ? & ? & ? & ? & _). }
  unfold chan_try_send. destruct (receiver c) eqn:Hr; cbn [andb].
  2: { split_and!; [done| |done|done]. split; [done|].
       intros (? & ? & c' & _ & _ & [= <-] & Hr' & _). congruence. }
  case_bool_decide as Hq.
  - split_and!; [done| |by eauto 10|done]. split; [by eauto 10|done].
  - split_and!; [done| |done|done]. split; [done|].
    intros (? & ? & c' & _ & _ & [= <-] & _ & Hq'). done.
Qed.

Lemma clients_entries w : clients_wf w ->
  (forall id e, (id, e) ∈ map_to_list (clients (state w)) -> sender e = id)
  /\ NoDup (map fst (map_to_list (clients (state w))))
  /\ forall k, k ∈ map fst (map_to_list (clients (state w))) <-> is_Some (clients (state w) !! k).
Proof.
  intros Hwf. split_and!.
  - intros id e Hin%elem_of_map_to_list. by apply Hwf.
  - apply NoDup_fst_map_to_list.
  - intros k. rewrite list_elem_of_In, in_map_iff. split.
    + intros ([id e] & <- & Hin%list_elem_of_In%elem_of_map_to_list). by exists e.
    + intros [e He]. exists (k, e). split; [done|]. by apply list_elem_of_In, elem_of_map_to_list.
Qed.

(** *** Properties of server push *)

(** Broadcast.  A broadcast draws the next event id, builds one server event
    and, whatever the order in which the client table is visited, appends it to
    the queue of every live connection whose queue accepts it, leaves every
    other channel as it was, and succeeds.  With a shared key the event is
    encoded once; if that fails nothing is queued and the caller gets an
    internal error.  In key-agreement mode the packet itself is queued. *)
Theorem broadcast_delivers h name data atts w :
  clients_wf w ->
  let id := wrap 64 (next_event_id (state w) + 1) in
  let packet := push_packet h id name data atts in
  let '(r, w') := broadcast_event h name data atts w in
  let outcome :=
    if handle_is_ecdh h then Ok (Packet packet)
    else PreEncoded <$> encode (handle_codec h) (entropy w (drawn w) CHACHA20_NONCE_LEN) packet in
  state w' = mkServerState (clients (state w)) id
  /\ match outcome with
     | Ok m =>
         r = Ok tt
         /\ forall k, channels w' !! k = match clients (state w) !! k with
                                         | Some _ => attempt m <$> channels w !! k
                                         | None => channels w !! k
                                         end
     | Err _ => r = Err (internal "failed to encode broadcast event") /\ channels w' = channels w
     | Panic => r = Panic /\ channels w' = channels w
     end.
Proof.
  intros Hwf. cbv zeta. unfold broadcast_event, fresh_event_id. run_M.
  set (id := wrap 64 _). set (w1 := set_state w _).
  assert (Hwf1 : clients_wf w1) by exact Hwf.
  destruct (clients_entries w1 Hwf1) as (He & Hnd & Hk).
  assert (Hlook : forall m (k : string),
    (if bool_decide (k ∈ map fst (map_to_list (clients (state w1))))
     then attempt m <$> channels w !! k else channels w !! k)
    = match clients (state w) !! k with
      | Some _ => attempt m <$> channels w !! k | None => channels w !! k end).
  { intros m k. case_bool_decide as Hb; rewrite Hk in Hb.
    - destruct Hb as [e Hb]. change (clients (state w1)) with (clients (state w)) in Hb. by rewrite Hb.
    - change (clients (state w1)) with (clients (state w)) in Hb.
      destruct (clients (state w) !! k); [|done]. by destruct Hb. }
  destruct (handle_is_ecdh h).
  - run_M. destruct (send_to_all_spec _ (Packet (push_packet h id name data atts)) w1 He Hnd)
      as (ch & Hs & Hch). rewrite Hs. split; [done|]. split; [done|]. intros k.
    cbn [channels set_channels]. rewrite Hch. apply Hlook.
  - run_M. unfold codec_encode. change (entropy w1 (drawn w1)) with (entropy w (drawn w)).
    destruct (encode _ _ _) as [frame|e|]; run_M; [|done..].
    set (w2 := set_drawn w1 _).
    destruct (send_to_all_spec (map_to_list (clients (state w1))) (PreEncoded frame) w2 He Hnd)
      as (ch & Hs & Hch). change (clients (state w2)) with (clients (state w1)). rewrite Hs.
    split; [done|]. split; [done|]. intros k. cbn [channels set_channels]. rewrite Hch. apply Hlook.
Qed.

(** A directed event reaches its target only.  [send_event_to] changes no
    channel but the target's; it succeeds exactly when the target is connected,
    the event could be encoded and the target's queue accepted it, and then the
    event, with a fresh id, is the last message of that queue.  Otherwise no
    channel changes and the error tells the three failures apart. *)
Theorem send_event_to_target h conn name data atts w :
  clients_wf w ->
  let id := wrap 64 (next_event_id (state w) + 1) in
  let packet := push_packet h id name data atts in
  let outcome :=
    if handle_is_ecdh h then Ok (Packet packet)
    else PreEncoded <$> encode (handle_codec h) (entropy w (drawn w) CHACHA20_NONCE_LEN) packet in
  let '(r, w') := send_event_to h conn name data atts w in
  state w' = mkServerState (clients (state w)) id
  /\ (r = Ok tt <->
        exists e m c, clients (state w) !! conn = Some e /\ outcome = Ok m
          /\ channels w !! conn = Some c /\ receiver c = true
          /\ blen (queue c) < SERVER_OUTBOUND_QUEUE_CAPACITY)
  /\ (r = Ok tt -> exists m c, outcome = Ok m /\ channels w !! conn = Some c
        /\ channels w' = <[conn := mkChannel (queue c ++ [m]) true]> (channels w))
  /\ (r <> Ok tt -> channels w' = channels w).
Proof.
  intros Hwf. cbv zeta. unfold send_event_to, fresh_event_id. run_M.
  set (id := wrap 64 _). set (w1 := set_state w _). set (packet := push_packet _ _ _ _ _).
  change (clients (state w1)) with (clients (state w)).
  destruct (clients (state w) !! conn) as [e|] eqn:He; run_M.
  2: { split_and!; [done| |done|done]. split; [done|]. by intros (? & ? & ? & ? & _). }
  rewrite (Hwf _ _ He).
  destruct (handle_is_ecdh h); [|unfold codec_encode; change (entropy w1 (drawn w1)) with (entropy w (drawn w));
    destruct (encode _ _ _) as [frame|err|] eqn:Hf; run_M].
  - by apply (try_send_spec conn (Packet packet) w1 _ (fun _ => internal "failed to queue direct event")).
  - by apply (try_send_spec conn (PreEncoded frame) (set_drawn w1 (S (drawn w1))) _
      (fun _ => internal "failed to queue direct event")).
  - split_and!; [done| |done|done]. split; [done|]. by intros (? & ? & ? & ? & ? & _).
  - split_and!; [done| |done|done]. split; [done|]. by intros (? & ? & ? & ? & ? & _).
Qed.
End Delivery.

(** ** Instances *)
Definition sample_entropy (_ : nat) (len : Z) : result string bytes :=
  Ok (replicate (Z.to_nat len) x09).
(** One connection, ["c1"], with an empty queue. *)
Definition sample_world : World unit :=
  mkWorld (mkServerState {["c1" := mkClientEntry "c1" None None]} 0)
    {["c1" := mkChannel [] true]} None sample_entropy 0 [] tt.
Definition sample_handle : ServerHandle := mkServerHandle plaintext ChaCha20 true.

Lemma sample_world_wf : clients_wf sample_world.
Proof. intros id e Hl. cbn in Hl. apply lookup_singleton_Some in Hl as [<- <-]. reflexivity. Qed.

Lemma broadcast_delivers_witness :
  clients_wf sample_world
  /\ let '(r, w) := broadcast_event (J:=bit_json) sample_handle "news" ∅ [] sample_world in
     r = Ok tt /\ channels w !! "c1"
       = Some (mkChannel [Packet (push_packet sample_handle 1 "news" ∅ [])] true).
Proof.
  split; [exact sample_world_wf|].
  pose proof (broadcast_delivers (J:=bit_json) sample_handle "news" ∅ [] sample_world
    sample_world_wf) as Hb. revert Hb.
  destruct (broadcast_event _ _ _ _ _) as [r w]. intros (_ & Hr & Hk).
  split; [exact Hr|]. rewrite Hk. reflexivity.
Defined.

Lemma send_event_to_target_witness :
  clients_wf sample_world
  /\ let '(r, w) := send_event_to (J:=bit_json) sample_handle "c1" "news" ∅ [] sample_world in
     r = Ok tt /\ exists m c, Ok (E:=ProtocolError) (Packet (push_packet sample_handle 1 "news" ∅ [])) = Ok m
       /\ channels sample_world !! "c1" = Some c
       /\ channels w = <["c1" := mkChannel (queue c ++ [m]) true]> (channels sample_world).
Proof.
  split; [exact sample_world_wf|].
  pose proof (send_event_to_target (J:=bit_json) sample_handle "c1" "news" ∅ [] sample_world
    sample_world_wf) as Hb. revert Hb.
  destruct (send_event_to _ _ _ _ _ _) as [r w]. intros (_ & Hiff & Hok & _).
  assert (Hr : r = Ok tt).
  { apply Hiff. exists (mkClientEntry "c1" None None). do 2 eexists. split_and!; reflexivity. }
  split; [exact Hr|]. exact (Hok Hr).
Defined.

Example ip_texts : map ip_text [V4 3232235777; V6 1; V6 0; V6 281473902969345;
    V6 42540766411282592856903984951653826561; V6 42540488161975842778997100499009798145]%N
  = ["192.168.1.1"; "::1"; "::"; "::ffff:192.0.2.1"; "2001:db8::1"; "2001:0:0:1::1"].
Proof. vm_compute. reflexivity. Qed.
