(* ===== verification/ServerRuntime.v ===== *)
(** * The server runtime (crates/wscall-server/src/server_runtime.rs)

    Configuration, request and event execution, queueing, the handshake and
    authentication phases, one iteration of the reader loop and of the writer
    task, and teardown, each as one operation on the [World].  Handlers are
    arbitrary computations on the world; a handler that panics returns [Panic].
    What the sockets deliver, the outcome of socket writes and the instant read
    from the clock are arguments. *)

From stdpp Require Import pretty.
From S2P Require Import Prelude Utf8 Json Protocol Texts Attachment PacketJson Codec RateLimiter.
From S2P Require Import Validation ServerTypes.
#[local] Open Scope Z_scope.

(** ** Constants: durations in nanoseconds *)
Definition SERVER_IDLE_TIMEOUT : Z := secs 45.
Definition SERVER_DEFAULT_MAX_IN_FLIGHT : Z := 64.

(** ** Input of the reader *)

(** What [timeout(d, stream.next()).await] yields. *)
Inductive Next : Type :=
| TimedOut
| EndOfStream
| StreamError (e : string)
| Received (m : Message).

(** What one iteration of the reader loop does next. *)
Inductive Flow : Type :=
| Continue
| Stop
| SpawnHandler (packet : PacketEnvelope).

Record ApiRequestInput : Type := mkApiRequestInput {
  in_request_id : Z;
  in_route : string;
  in_params : Value;
  in_attachments : list FileAttachment;
  in_metadata : Value;
}.

Record EventEmitInput : Type := mkEventEmitInput {
  in_event_id : Z;
  in_name : string;
  in_data : object_map;
  in_event_attachments : list FileAttachment;
  in_event_metadata : Value;
}.

Section Runtime.
Context {J : SerdeJson} {C : Crypto} {X : X25519} {H : Sha256} {TX : ErrorTexts} {App : Type}.
Abbreviation W := (World App).

Definition ApiHandler : Type := ApiContext -> M W ApiError Value.
Definition Filter : Type := ApiContext -> M W ApiError ApiContext.
Definition EventHandler : Type := EventContext -> M W ApiError Value.
Definition ConnectionHandler : Type := ServerConnectionContext -> M W Empty_set unit.
Definition DisconnectHandler : Type := ServerDisconnectContext -> M W Empty_set unit.
Definition ExceptionHandler : Type := ExceptionContext -> M W Empty_set ErrorPayload.
Definition AuthHandler : Type := AuthContext -> M W ApiError AuthOutput.

(** ** Configuration *)
Record WscallServer : Type := mkWscallServer {
  routes : gmap string ApiHandler;
  filters : list Filter;
  event_handlers : gmap string EventHandler;
  connection_handlers : list ConnectionHandler;
  disconnect_handlers : list DisconnectHandler;
  exception_handler : option ExceptionHandler;
  codec : FrameCodec;
  default_encryption : EncryptionKind;
  is_ecdh : bool;
  max_connections : option Z;
  max_in_flight : Z;
  server_max_frame_bytes : Z;
  rate_limiter : option RateLimiterState;
  auth_handler : option AuthHandler;
}.

(** [WscallServer::new]. *)
Definition server_new : WscallServer :=
  {| routes := ∅; filters := []; event_handlers := ∅; connection_handlers := [];
     disconnect_handlers := []; exception_handler := None; codec := plaintext;
     default_encryption := NoEncryption; is_ecdh := false; max_connections := None;
     max_in_flight := SERVER_DEFAULT_MAX_IN_FLIGHT;
     server_max_frame_bytes := DEFAULT_MAX_FRAME_BYTES; rate_limiter := None;
     auth_handler := None |}.

Definition with_ecdh (s : WscallServer) : WscallServer :=
  mkWscallServer (routes s) (filters s) (event_handlers s) (connection_handlers s)
    (disconnect_handlers s) (exception_handler s) (codec s) ChaCha20 true (max_connections s)
    (max_in_flight s) (server_max_frame_bytes s) (rate_limiter s) (auth_handler s).

(** The codec and the default encryption replaced (the two key setters). *)
Definition with_codec (s : WscallServer) (c : FrameCodec) (e : EncryptionKind) : WscallServer :=
  mkWscallServer (routes s) (filters s) (event_handlers s) (connection_handlers s)
    (disconnect_handlers s) (exception_handler s) c e (is_ecdh s) (max_connections s)
    (max_in_flight s) (server_max_frame_bytes s) (rate_limiter s) (auth_handler s).

Definition server_with_chacha20_key (s : WscallServer) (key : bytes) :
    result ProtocolError WscallServer :=
  c ← with_chacha20_key (codec s) key; Ok (with_codec s c ChaCha20).
Definition server_with_aes256_key (s : WscallServer) (key : bytes) :
    result ProtocolError WscallServer :=
  c ← with_aes256_key (codec s) key; Ok (with_codec s c Aes256).

(** The limits replaced. *)
Definition with_limits (s : WscallServer) (mc : option Z) (mif mfb : Z)
    (rl : option RateLimiterState) : WscallServer :=
  mkWscallServer (routes s) (filters s) (event_handlers s) (connection_handlers s)
    (disconnect_handlers s) (exception_handler s) (codec s) (default_encryption s) (is_ecdh s)
    mc mif mfb rl (auth_handler s).

Definition with_max_connections (s : WscallServer) (max : Z) : WscallServer :=
  with_limits s (Some max) (max_in_flight s) (server_max_frame_bytes s) (rate_limiter s).
Definition with_max_in_flight (s : WscallServer) (max : Z) : WscallServer :=
  with_limits s (max_connections s) max (server_max_frame_bytes s) (rate_limiter s).
Definition server_with_max_frame_bytes (s : WscallServer) (max : Z) : WscallServer :=
  with_limits s (max_connections s) (max_in_flight s) max (rate_limiter s).
Definition with_rate_limiter (s : WscallServer) (l : RateLimiter) : WscallServer :=
  with_limits s (max_connections s) (max_in_flight s) (server_max_frame_bytes s)
    (Some (limiter_build l)).

(** The handlers replaced. *)
Definition with_handlers (s : WscallServer) (r : gmap string ApiHandler) (f : list Filter)
    (e : gmap string EventHandler) (c : list ConnectionHandler) (d : list DisconnectHandler)
    (x : option ExceptionHandler) (a : option AuthHandler) : WscallServer :=
  mkWscallServer r f e c d x (codec s) (default_encryption s) (is_ecdh s) (max_connections s)
    (max_in_flight s) (server_max_frame_bytes s) (rate_limiter s) a.

Definition set_auth_handler (s : WscallServer) (h : AuthHandler) : WscallServer :=
  with_handlers s (routes s) (filters s) (event_handlers s) (connection_handlers s)
    (disconnect_handlers s) (exception_handler s) (Some h).
Definition route (s : WscallServer) (name : string) (h : ApiHandler) : WscallServer :=
  with_handlers s (<[name := h]> (routes s)) (filters s) (event_handlers s)
    (connection_handlers s) (disconnect_handlers s) (exception_handler s) (auth_handler s).
Definition filter (s : WscallServer) (f : Filter) : WscallServer :=
  with_handlers s (routes s) (filters s ++ [f]) (event_handlers s) (connection_handlers s)
    (disconnect_handlers s) (exception_handler s) (auth_handler s).
Definition event_handler (s : WscallServer) (name : string) (h : EventHandler) : WscallServer :=
  with_handlers s (routes s) (filters s) (<[name := h]> (event_handlers s))
    (connection_handlers s) (disconnect_handlers s) (exception_handler s) (auth_handler s).
Definition on_connected (s : WscallServer) (h : ConnectionHandler) : WscallServer :=
  with_handlers s (routes s) (filters s) (event_handlers s) (connection_handlers s ++ [h])
    (disconnect_handlers s) (exception_handler s) (auth_handler s).
Definition on_disconnected (s : WscallServer) (h : DisconnectHandler) : WscallServer :=
  with_handlers s (routes s) (filters s) (event_handlers s) (connection_handlers s)
    (disconnect_handlers s ++ [h]) (exception_handler s) (auth_handler s).
Definition set_exception_handler (s : WscallServer) (h : ExceptionHandler) : WscallServer :=
  with_handlers s (routes s) (filters s) (event_handlers s) (connection_handlers s)
    (disconnect_handlers s) (Some h) (auth_handler s).

(** [WscallServer::typed_route]. *)
Definition typed_route {T} `{DeserializeOwned T} (s : WscallServer) (name : string)
    (h : ApiContext -> T -> M W ApiError Value) : WscallServer :=
  route s name (fun ctx =>
    let '(params, ctx) := bind_take ctx in
    params ← lift params;
    h ctx params).

(** [WscallServer::validated_route]. *)
Definition validated_route {T} `{DeserializeOwned T, Validate T} (s : WscallServer) (name : string)
    (h : ApiContext -> T -> M W ApiError Value) : WscallServer :=
  route s name (fun ctx =>
    let '(params, ctx) := bind_take (T:=T) ctx in
    let params := params ≫= fun params =>
                    map_err validation_failed (validate params) ≫= fun _ => Ok params in
    params ← lift params;
    h ctx params).

(** [WscallServer::handle]. *)
Definition handle (s : WscallServer) : ServerHandle :=
  mkServerHandle (codec s) (default_encryption s) (is_ecdh s).

(** ** Packets the runtime builds *)
Definition frame_error_packet (request_id : Z) (code message : string) (e : EncryptionKind) :
    PacketEnvelope :=
  with_encryption
    (ApiResponse request_id false 413 empty_object (Some (mkErrorPayload code message 413 None))
       empty_object) e.

Definition service_busy_packet (request_id : Z) (e : EncryptionKind) : PacketEnvelope :=
  with_encryption
    (ApiResponse request_id false 503 empty_object
       (Some (mkErrorPayload "service_busy" "rate limit exceeded" 503 None)) empty_object) e.

Definition silent_ack_packet (event_id : Z) (e : EncryptionKind) : PacketEnvelope :=
  with_encryption (EventAck event_id true empty_object None) e.

(** ** Running handlers *)
Section Server.
Context (self : WscallServer).

(** [lookup_auth_context]. *)
Definition lookup_auth_context (connection_id : string) (w : W) : option object_map :=
  clients (state w) !! connection_id ≫= auth_context.

Definition map_exception {E} (ctx : ExceptionContext) : M W E ErrorPayload :=
  match exception_handler self with
  | Some handler => infallible (handler ctx)
  | None => mret (into_payload (xc_error ctx))
  end.

Definition api_error_packet {E} (connection_id : string) (request_id : option Z) (route : string)
    (error : ApiError) : M W E PacketEnvelope :=
  let request_id := default 0 request_id in
  let status := api_status error in
  payload ← map_exception (mkExceptionContext connection_id (Some request_id) route "api" error);
  mret (with_encryption
    (ApiResponse request_id false status empty_object (Some payload) empty_object)
    (default_encryption self)).

(** [for filter in &self.filters { ... }]. *)
Fixpoint run_filters (fs : list Filter) (ctx : ApiContext) : M W ApiError ApiContext :=
  match fs with
  | [] => mret ctx
  | f :: fs => ctx ← f ctx; run_filters fs ctx
  end.

Definition run_api_request {E} (connection_id : string) (peer_addr : option SocketAddr)
    (request : ApiRequestInput) : M W E PacketEnvelope :=
  let request_id := in_request_id request in
  let route := in_route request in
  w ← get;
  let ctx := mkApiContext connection_id peer_addr request_id route (in_params request)
               (in_attachments request) (in_metadata request) (handle self)
               (lookup_auth_context connection_id w) in
  filtered ← m_try (run_filters (filters self) ctx);
  match filtered with
  | inl error => api_error_packet connection_id (Some request_id) route error
  | inr ctx =>
      match routes self !! ac_route ctx with
      | None => api_error_packet connection_id (Some request_id) route (not_found "route not found")
      | Some handler =>
          outcome ← catch_unwind (handler ctx);
          match outcome with
          | Ok data =>
              mret (with_encryption (ApiResponse request_id true 200 data None empty_object)
                      (default_encryption self))
          | Err error => api_error_packet connection_id (Some request_id) route error
          | Panic =>
              api_error_packet connection_id (Some request_id) route (internal "handler panicked")
          end
      end
  end.

Definition run_event {E} (connection_id : string) (peer_addr : option SocketAddr)
    (event : EventEmitInput) : M W E PacketEnvelope :=
  let event_id := in_event_id event in
  let name := in_name event in
  w ← get;
  let ctx := mkEventContext connection_id peer_addr event_id name (in_data event)
               (in_event_attachments event) (in_event_metadata event) (handle self)
               (lookup_auth_context connection_id w) in
  match event_handlers self !! name with
  | None =>
      mret (with_encryption
        (EventAck event_id false empty_object
           (Some (into_payload (not_found "event handler not found"))))
        (default_encryption self))
  | Some handler =>
      outcome ← catch_unwind (handler ctx);
      match outcome with
      | Ok receipt =>
          mret (with_encryption (EventAck event_id true receipt None) (default_encryption self))
      | Err error =>
          payload ← map_exception
                      (mkExceptionContext connection_id (Some event_id) name "event" error);
          mret (with_encryption (EventAck event_id false empty_object (Some payload))
                  (default_encryption self))
      | Panic =>
          payload ← map_exception
                      (mkExceptionContext connection_id (Some event_id) name "event"
                         (internal "event handler panicked"));
          mret (with_encryption (EventAck event_id false empty_object (Some payload))
                  (default_encryption self))
      end
  end.

(** ** Queueing *)
Definition queue_for (connection_id : string) (packet : PacketEnvelope) : M W ServerError unit :=
  w ← get;
  sender ← match clients (state w) !! connection_id with
           | Some entry => mret (sender entry)
           | None => lift (Err (SApi (not_found "connection is closed")))
           end;
  if is_ecdh self then
    m_map_err (fun _ => SApi (internal "failed to queue outbound packet"))
      (send sender (Packet packet))
  else
    encoded ← m_map_err SProtocol (codec_encode (codec self) packet);
    m_map_err (fun _ => SApi (internal "failed to queue outbound packet"))
      (send sender (PreEncoded encoded)).

Definition process_packet (connection_id : string) (peer_addr : option SocketAddr)
    (packet : PacketEnvelope) : M W ServerError unit :=
  match env_body packet with
  | ApiRequest request_id route params attachments metadata =>
      response ← run_api_request connection_id peer_addr
                   (mkApiRequestInput request_id route params attachments metadata);
      queue_for connection_id response
  | EventEmit event_id name data attachments metadata _ =>
      ack ← run_event connection_id peer_addr
              (mkEventEmitInput event_id name data attachments metadata);
      queue_for connection_id ack
  | EventAck _ _ _ _ => mret tt
  | ApiResponse _ _ _ _ _ _ => mret tt
  | AuthRequest _ | AuthResponse _ _ _ => mret tt
  end.

(** ** One iteration of the reader loop *)
Definition is_data_message (b : PacketBody) : bool :=
  match b with ApiRequest _ _ _ _ _ | EventEmit _ _ _ _ _ _ => true | _ => false end.

(** The rate-limit check; [None] when no limiter is configured. *)
Definition check_limiter {E} (connection_id : string) (ip : IpAddr) (frame_len now : Z) :
    M W E (option Verdict) :=
  fun w => match limiter w with
           | Some rl =>
               let '(v, rl) := check_and_record rl connection_id ip frame_len now in
               (Ok (Some v), set_limiter w (Some rl))
           | None => (Ok None, w)
           end.

(** The answer to a refused packet. *)
Definition refuse (connection_id : string) (b : PacketBody) : M W ServerError unit :=
  match b with
  | ApiRequest request_id _ _ _ _ =>
      ignore (queue_for connection_id (service_busy_packet request_id (default_encryption self)))
  | EventEmit event_id _ _ _ _ _ =>
      ignore (queue_for connection_id (silent_ack_packet event_id (default_encryption self)))
  | _ => mret tt
  end.

(** [queue_for] an error packet for a malformed frame, ignoring the outcome. *)
Definition reject_frame (connection_id code message : string) : M W ServerError Flow :=
  ignore (queue_for connection_id (frame_error_packet 0 code message (default_encryption self))) ;;
  mret Continue.

Definition on_binary (connection_id : string) (peer : SocketAddr) (reader_codec : FrameCodec)
    (now : Z) (bs : bytes) : M W ServerError Flow :=
  if bool_decide (blen bs < 5) then
    reject_frame connection_id "frame_too_short" "frame must be at least 5 bytes"
  else
    b0 ← lift (index bs 0);
    b1 ← lift (index bs 1);
    b2 ← lift (index bs 2);
    b3 ← lift (index bs 3);
    let declared := from_be_bytes b0 b1 b2 b3 in
    if bool_decide (server_max_frame_bytes self < declared \/ declared <> blen bs - 4) then
      reject_frame connection_id "frame_too_large"
        ("declared frame_len " +:+ pretty declared +:+ " is invalid (actual payload "
         +:+ pretty (blen bs - 4) +:+ ", limit " +:+ pretty (server_max_frame_bytes self) +:+ ")")
    else if bool_decide (server_max_frame_bytes self < blen bs) then
      reject_frame connection_id "frame_too_large"
        ("frame size " +:+ pretty (blen bs) +:+ " exceeds limit "
         +:+ pretty (server_max_frame_bytes self))
    else
      let frame_len := blen bs in
      packet ← lift (map_err SProtocol (decode reader_codec bs));
      let data := is_data_message (env_body packet) in
      verdict ← (if data then check_limiter connection_id (fst peer) frame_len now else mret None);
      match verdict with
      | Some Limited | Some Banned => refuse connection_id (env_body packet) ;; mret Continue
      | Some Allowed | None =>
          if data then mret (SpawnHandler packet)
          else process_packet connection_id (Some peer) packet ;; mret Continue
      end.

(** The whole iteration: the [Err] outcome ends the loop with that error,
    [Stop] ends it without one. *)
Definition reader_step (connection_id : string) (peer : SocketAddr) (reader_codec : FrameCodec)
    (now : Z) (next : Next) : M W ServerError Flow :=
  match next with
  | TimedOut => lift (Err (SIdleTimeout connection_id))
  | EndOfStream => mret Stop
  | StreamError e => lift (Err (SWebSocket e))
  | Received m =>
      match m with
      | MBinary bs => on_binary connection_id peer reader_codec now bs
      | MClose => mret Stop
      | MPing payload =>
          sent ← m_try (send connection_id (Pong payload));
          mret (match sent with inl _ => Stop | inr _ => Continue end)
      | MPong _ | MText _ | MFrame => mret Continue
      end
  end.

(** ** Sockets *)

(** [websocket.send(message).await]: what was written, or the socket's error. *)
Definition ws_send (connection_id : string) (m : Message) (failure : option string) :
    M W ServerError unit :=
  fun w => match failure with
           | None => (Ok tt, set_wire w (wire w ++ [(connection_id, m)]))
           | Some e => (Err (SWebSocket e), w)
           end.

(** ** Connection setup *)

(** [perform_ecdh_handshake]: the session codec. *)
Definition perform_ecdh_handshake (connection_id : string) (next : Next) (failure : option string) :
    M W ServerError FrameCodec :=
  keypair ← (fun w => (map_err SProtocol (generate (entropy w (drawn w) ECDH_KEY_LEN)), set_drawn w (S (drawn w))));
  client_public ← match next with
                  | Received (MBinary bs) =>
                      lift (map_err (fun _ => SProtocol
                        (EcdhHandshake "client sent invalid public key length")) (parse_peer_public bs))
                  | _ => lift (Err (SProtocol
                           (EcdhHandshake "client did not send a valid public key")))
                  end;
  ws_send connection_id (MBinary (public_bytes keypair)) failure ;;
  let session_key := derive_session_key keypair client_public in
  lift (map_err SProtocol (with_chacha20_key plaintext session_key)).

(** The session codec of a connection. *)
Definition session_codec (connection_id : string) (next : Next) (failure : option string) :
    M W ServerError FrameCodec :=
  if is_ecdh self then
    c ← perform_ecdh_handshake connection_id next failure;
    mret (with_max_frame_bytes c (server_max_frame_bytes self))
  else mret (with_max_frame_bytes (codec self) (server_max_frame_bytes self)).

(** [Duration::as_secs]. *)
Definition as_secs (d : Z) : Z := d / secs 1.

(** The authentication phase: the idle timeout and the identity context of the
    connection. *)
Definition auth_phase (connection_id : string) (peer : SocketAddr) (c : FrameCodec) (next : Next)
    (failure : option string) : M W ServerError (option Z * option object_map) :=
  match auth_handler self with
  | None => mret (None, None)
  | Some handler =>
      auth_frame ← match next with
                   | Received (MBinary bs) => mret bs
                   | _ => lift (Err (SAuthFailed "client did not send auth frame within timeout"))
                   end;
      envelope ← lift (map_err SProtocol (decode c auth_frame));
      credential ← match env_body envelope with
                   | AuthRequest credential => mret credential
                   | _ => lift (Err (SAuthFailed "expected AuthRequest frame during handshake"))
                   end;
      outcome ← catch_unwind (handler (mkAuthContext credential (Some peer) connection_id));
      match outcome with
      | Ok output =>
          let auth := if bool_decide (context output = ∅) then None else Some (context output) in
          encoded ← m_map_err SProtocol (codec_encode c (with_encryption
                      (AuthResponse true (as_secs <$> session_timeout output) None)
                      (wire_encryption c)));
          ws_send connection_id (MBinary encoded) failure ;;
          mret (session_timeout output, auth)
      | Err api_error =>
          encoded ← m_map_err SProtocol (codec_encode c (with_encryption
                      (AuthResponse false None (Some (into_payload api_error)))
                      (wire_encryption c)));
          ignore (ws_send connection_id (MBinary encoded) failure) ;;
          lift (Err (SAuthFailed "authentication rejected"))
      | Panic => lift (Err (SAuthFailed "auth handler panicked"))
      end
  end.

(** Lifecycle handlers: all of them run, a panic in one stops none. *)
Fixpoint notify_all {Ctx} (handlers : list (Ctx -> M W Empty_set unit)) (ctx : Ctx) :
    M W ServerError unit :=
  match handlers with
  | [] => mret tt
  | h :: handlers => catch_unwind (h ctx) ;; notify_all handlers ctx
  end.

Definition notify_connected (connection_id : string) (peer_addr : option SocketAddr)
    (auth : option object_map) : M W ServerError unit :=
  notify_all (connection_handlers self)
    (mkServerConnectionContext connection_id peer_addr (handle self) (is_some auth) auth).

Definition notify_disconnected (connection_id : string) (peer_addr : option SocketAddr)
    (reason : string) : M W ServerError unit :=
  notify_all (disconnect_handlers self)
    (mkServerDisconnectContext connection_id peer_addr reason (handle self)).

(** Registration: the outbound channel and the client entry. *)
Definition register (connection_id : string) (timeout : option Z) (auth : option object_map) :
    M W ServerError unit :=
  modify (fun w =>
    set_state (set_channels w (<[connection_id := mkChannel [] true]> (channels w)))
      (mkServerState
         (<[connection_id := mkClientEntry connection_id timeout auth]> (clients (state w)))
         (next_event_id (state w)))).

(** What a connected peer is and how long it may stay idle. *)
Record Session : Type := mkSession {
  ses_codec : FrameCodec;
  ses_idle : Z;
}.

(** The first phase of [serve_connection]; [None] when the address is banned. *)
Definition refuse_banned (peer : SocketAddr) (now : Z) : M W ServerError bool :=
  fun w => match limiter w with
           | Some rl =>
               let '(banned, rl) := is_ip_banned rl (fst peer) now in
               (Ok banned, set_limiter w (Some rl))
           | None => (Ok false, w)
           end.

(** [serve_connection] up to the reader loop. *)
Definition connect (connection_id : string) (peer : SocketAddr) (now : Z)
    (hello auth : Next) (hello_failure auth_failure : option string) :
    M W ServerError (option Session) :=
  banned ← refuse_banned peer now;
  if (banned : bool) then mret None
  else
    c ← session_codec connection_id hello hello_failure;
    '(timeout, ctx) ← auth_phase connection_id peer c auth auth_failure;
    register connection_id timeout ctx ;;
    notify_connected connection_id (Some peer) ctx ;;
    mret (Some (mkSession c (default SERVER_IDLE_TIMEOUT timeout))).

(** The notice sent before the first read. *)
Definition send_notice (connection_id : string) : M W ServerError unit :=
  m_map_err SApi (send_event_to (handle self) connection_id "system.notice"
    (<["message" := Str "connected"]> {["connection_id" := Str connection_id]}) []).

(** ** The writer task *)

(** One iteration on a message taken from the queue; [true] when the task ends. *)
Definition write_outbound (connection_id : string) (c : FrameCodec) (m : ServerOutbound)
    (failure : option string) : M W ServerError bool :=
  match m with
  | PreEncoded frame => ws_send connection_id (MBinary frame) failure ;; mret false
  | Packet packet =>
      encoded ← m_map_err SProtocol (codec_encode c packet);
      ws_send connection_id (MBinary encoded) failure ;; mret false
  | Pong payload => ws_send connection_id (MPong payload) failure ;; mret false
  | Close => ignore (ws_send connection_id MClose failure) ;; mret true
  end.

(** The receiver is dropped when the task ends, with an error or without. *)
Definition drop_receiver (connection_id : string) (w : W) : W :=
  set_channels w (alter (fun c => mkChannel (queue c) false) connection_id (channels w)).

Definition writer_step (connection_id : string) (c : FrameCodec) (failure : option string) (w : W) : W :=
  match channels w !! connection_id with
  | Some (mkChannel (m :: rest) true) =>
      let w := set_channels w (<[connection_id := mkChannel rest true]> (channels w)) in
      match write_outbound connection_id c m failure w with
      | (Ok false, w) => w
      | (_, w) => drop_receiver connection_id w
      end
  | _ => w
  end.

(** The heartbeat branch, while the task runs. *)
Definition heartbeat (connection_id : string) (failure : option string) (w : W) : W :=
  match channels w !! connection_id with
  | Some (mkChannel _ true) =>
      match ws_send connection_id (MPing []) failure w with
      | (Ok _, w) => w
      | (_, w) => drop_receiver connection_id w
      end
  | _ => w
  end.

(** ** Teardown *)

(** [disconnect_reason]. *)
Definition disconnect_reason (r : result ServerError unit) : string :=
  match r with
  | Ok _ => "connection closed"
  | Err (SIdleTimeout _) => "idle timeout"
  | Err error => server_error_text error
  | Panic => ""
  end.

(** The entry is removed and a close frame is offered to the writer, which then
    has [SERVER_CLOSE_GRACE] to flush its queue. *)
Definition begin_teardown (connection_id : string) : M W ServerError unit :=
  modify (fun w => set_state w
    (mkServerState (delete connection_id (clients (state w))) (next_event_id (state w)))) ;;
  ignore (try_send connection_id Close).

(** The writer is aborted and the disconnect handlers run. *)
Definition end_teardown (connection_id : string)
    (peer : SocketAddr) (r : result ServerError unit) : M W ServerError unit :=
  modify (drop_receiver connection_id) ;;
  notify_disconnected connection_id (Some peer) (disconnect_reason r).
End Server.
End Runtime.

(** ** Lemmas on handler execution *)
Section Handlers.
Context {J : SerdeJson} {C : Crypto} {X : X25519} {H : Sha256} {TX : ErrorTexts} {App : Type}.
Abbreviation W := (World App).
Implicit Types (w : W).

(** A computation that never unwinds. *)
Definition no_panic {E A} (m : M W E A) : Prop := forall w, (m w).1 <> Panic.

Lemma no_panic_ret {E A} (a : A) : no_panic (mret (M:=M W E) a).
Proof. by intros w. Qed.
Lemma no_panic_map_err {E F A} (f : E -> F) (m : M W E A) : no_panic m -> no_panic (m_map_err f m).
Proof. intros Hm w. specialize (Hm w). unfold m_map_err. by destruct (m w) as [[]]. Qed.
Lemma no_panic_ignore {E F A} (m : M W E A) : no_panic m -> no_panic (ignore (F:=F) m).
Proof. intros Hm w. specialize (Hm w). unfold ignore. by destruct (m w) as [[]]. Qed.
Lemma no_panic_try {E F A} (m : M W E A) : no_panic m -> no_panic (m_try (F:=F) m).
Proof. intros Hm w. specialize (Hm w). unfold m_try. by destruct (m w) as [[]]. Qed.
Lemma no_panic_catch {E F A} (m : M W E A) : no_panic (catch_unwind (F:=F) m).
Proof. intros w. unfold catch_unwind. by destruct (m w). Qed.
Lemma no_panic_lift {E A} (r : result E A) : returns r -> no_panic (lift r).
Proof. intros Hr w. cbn. by apply returns_not_Panic. Qed.
Lemma no_panic_get {E} : no_panic (get (W:=W) (E:=E)).
Proof. by intros w. Qed.
Lemma no_panic_modify {E} (f : W -> W) : no_panic (modify (E:=E) f).
Proof. by intros w. Qed.
Lemma no_panic_send key m : no_panic (send (App:=App) key m).
Proof. intros w. unfold send. by repeat case_match. Qed.
Lemma no_panic_try_send key m : no_panic (try_send (App:=App) key m).
Proof. intros w. unfold try_send. by case_match. Qed.

(** [getrandom] fills the buffer or fails; it does not unwind. *)
Definition entropy_ok w : Prop :=
  forall n len, 0 <= len -> match entropy w n len with Ok bs => blen bs = len | Err _ => True | Panic => False end.

Lemma codec_encode_no_panic {JL : SerdeJsonLaws J} c p w :
  entropy_ok w -> (codec_encode c p w).1 <> Panic.
Proof.
  intros He. cbn. apply returns_not_Panic, returns_encode.
  specialize (He (drawn w) CHACHA20_NONCE_LEN ltac:(done)). by destruct (entropy w _ _).
Qed.

(** The filters and the exception handler of a server do not unwind. *)
Definition hooks_ok (s : WscallServer (App:=App)) : Prop :=
  Forall (fun f => forall ctx, no_panic (f ctx)) (filters s)
  /\ match exception_handler s with Some h => forall ctx, no_panic (h ctx) | None => True end.


Lemma no_panic_exception {E} s ctx : hooks_ok s -> no_panic (map_exception (E:=E) s ctx).
Proof.
  intros [_ Hx]. unfold map_exception. destruct (exception_handler s); [|apply no_panic_ret].
  apply no_panic_map_err, Hx.
Qed.

Lemma map_exception_returns {E} s ctx w : hooks_ok s ->
  exists payload w', map_exception (E:=E) s ctx w = (Ok payload, w').
Proof.
  intros Hs. pose proof (no_panic_exception (E:=E) s ctx Hs w) as Hp.
  destruct (map_exception s ctx w) as [[p|e|] w'] eqn:Hm; [eauto| |done].
  exfalso. clear -Hm. unfold map_exception in Hm. destruct (exception_handler s); [|done].
  unfold infallible, m_map_err in Hm. destruct (e0 _ w) as [[|[]|]]; by simplify_eq.
Qed.


(** *** Properties of request and event execution *)


(** Filters guard the routes.  When a filter of the chain refuses the
    request, the answer is the failure for that error and the world is the one
    the filters left: no route handler has run, whatever the routes are. *)
Theorem filters_guard_routes {E} s conn peer req w :
  let ctx := mkApiContext conn peer (in_request_id req) (in_route req) (in_params req)
               (in_attachments req) (in_metadata req) (handle s) (lookup_auth_context conn w) in
  forall err w1, run_filters (filters s) ctx w = (Err err, w1) ->
  forall rs,
  run_api_request (E:=E) (with_handlers s rs (filters s) (event_handlers s) (connection_handlers s)
    (disconnect_handlers s) (exception_handler s) (auth_handler s)) conn peer req w
  = api_error_packet s conn (Some (in_request_id req)) (in_route req) err w1.
Proof.
  cbv zeta. intros err w1 Hf rs. unfold run_api_request. unfold mbind, M_bind, get at 1, m_try.
  change (handle (with_handlers s rs _ _ _ _ _ _)) with (handle s). cbn [filters with_handlers].
  by rewrite Hf.
Qed.

(** Every event is acknowledged.  When the exception handler does not panic,
    [run_event] returns an acknowledgement with the event's id: positive with
    the handler's receipt exactly when the event has a handler and it succeeds,
    negative with an error payload otherwise, also when the handler panics. *)
Theorem event_acknowledged {E} s conn peer ev w :
  hooks_ok s ->
  exists ok receipt error w',
    run_event (E:=E) s conn peer ev w =
    (Ok (with_encryption (EventAck (in_event_id ev) ok receipt error) (default_encryption s)), w')
    /\ (ok = true <-> error = None)
    /\ (ok = true <->
          exists h, event_handlers s !! in_name ev = Some h
            /\ (h (mkEventContext conn peer (in_event_id ev) (in_name ev) (in_data ev)
                     (in_event_attachments ev) (in_event_metadata ev) (handle s)
                     (lookup_auth_context conn w)) w).1 = Ok receipt).
Proof.
  intros Hs. unfold run_event. unfold mbind, M_bind, get at 1.
  destruct (event_handlers s !! in_name ev) as [h|].
  2: { do 4 eexists. split_and!; [done|done|]. split; [done|]. by intros (? & ? & _). }
  unfold catch_unwind. destruct (h _ w) as [[r|err|] w1] eqn:Hh.
  - do 4 eexists. split_and!; [done|done|]. split; [|done]. intros _. exists h. by rewrite Hh.
  - destruct (map_exception_returns (E:=E) s (mkExceptionContext conn (Some (in_event_id ev))
      (in_name ev) "event" err) w1 Hs) as (payload & w2 & ->).
    do 4 eexists. split_and!; [done|done|]. split; [done|]. intros (h' & [= <-] & Hr). by rewrite Hh in Hr.
  - destruct (map_exception_returns (E:=E) s (mkExceptionContext conn (Some (in_event_id ev))
      (in_name ev) "event" (internal "event handler panicked")) w1 Hs) as (payload & w2 & ->).
    do 4 eexists. split_and!; [done|done|]. split; [done|]. intros (h' & [= <-] & Hr). by rewrite Hh in Hr.
Qed.
End Handlers.

(** ** Lemmas on the reader *)
Section Reader.
Context {J : SerdeJson} {C : Crypto} {X : X25519} {H : Sha256} {TX : ErrorTexts} {App : Type}.
Abbreviation W := (World App).
Implicit Types (w : W) (s : WscallServer (App:=App)).

(** Worlds that differ in the queue of one connection and the entropy drawn. *)
Definition queued_only (conn : string) w w' : Prop :=
  state w' = state w /\ limiter w' = limiter w /\ wire w' = wire w /\ app w' = app w
  /\ entropy w' = entropy w
  /\ (forall k, k <> conn -> channels w' !! k = channels w !! k)
  /\ (channels w' = channels w
      \/ exists c m, channels w !! conn = Some c /\ receiver c = true
           /\ channels w' !! conn = Some (mkChannel (queue c ++ [m]) true)).

Lemma send_queued key m w : queued_only key w (send key m w).2 /\ (send key m w).1 <> Panic.
Proof.
  unfold send. destruct (channels w !! key) as [c|] eqn:Hc; [|split; [|done]; by split_and!; try left].
  destruct (receiver c) eqn:Hr; [|split; [|done]; by split_and!; try left].
  split; [|done]. split_and!; try done.
  - intros k Hk. cbn. by rewrite lookup_insert_ne.
  - right. exists c, m. split_and!; [done|done|]. apply lookup_insert_eq.
Qed.

Lemma queue_for_queued {JL : SerdeJsonLaws J} s conn p w :
  clients_wf w -> entropy_ok w ->
  queued_only conn w (queue_for s conn p w).2 /\ (queue_for s conn p w).1 <> Panic.
Proof.
  intros Hwf He. unfold queue_for. unfold mbind, M_bind, get.
  assert (Hself : queued_only conn w w) by (split_and!; by try left).
  destruct (clients (state w) !! conn) as [e|] eqn:Hc; [|done]. unfold mret, M_ret.
  rewrite (Hwf _ _ Hc). destruct (is_ecdh s).
  - unfold m_map_err. pose proof (send_queued conn (Packet p) w) as [Hq Hp].
    destruct (send conn (Packet p) w) as [[]]; by split.
  - unfold m_map_err, codec_encode.
    pose proof (codec_encode_no_panic (codec s) p w He) as Hnp. cbn in Hnp.
    destruct (encode _ _ _) as [frame|err|]; cbn [map_err]; [| |done].
    + pose proof (send_queued conn (PreEncoded frame) (set_drawn w (S (drawn w)))) as [Hq Hp].
      destruct (send conn _ _) as [[]]; by split.
    + split; [|done]. by split_and!; try left.
Qed.

Lemma reject_frame_queued {JL : SerdeJsonLaws J} s conn code msg w :
  clients_wf w -> entropy_ok w ->
  reject_frame s conn code msg w
  = (Ok Continue, (queue_for s conn (frame_error_packet 0 code msg (default_encryption s)) w).2).
Proof.
  intros Hwf He. unfold reject_frame. unfold mbind, M_bind, ignore.
  pose proof (queue_for_queued s conn (frame_error_packet 0 code msg (default_encryption s)) w Hwf He)
    as [Hq Hp].
  by destruct (queue_for s conn _ w) as [[]].
Qed.

(** What [queue_for] puts into the open channel of a registered connection. *)
Lemma queue_for_open s conn p w entry q :
  clients_wf w -> clients (state w) !! conn = Some entry -> channels w !! conn = Some (mkChannel q true) ->
  (is_ecdh s = true -> channels (queue_for s conn p w).2 !! conn = Some (mkChannel (q ++ [Packet p]) true))
  /\ (is_ecdh s = false -> forall frame, encode (codec s) (entropy w (drawn w) CHACHA20_NONCE_LEN) p = Ok frame ->
       channels (queue_for s conn p w).2 !! conn = Some (mkChannel (q ++ [PreEncoded frame]) true)).
Proof.
  intros Hwf Hc Hq. unfold queue_for. unfold mbind, M_bind, get. rewrite Hc. unfold mret, M_ret.
  rewrite (Hwf _ _ Hc). split.
  - intros ->. unfold m_map_err, send. rewrite Hq. cbn. apply lookup_insert_eq.
  - intros -> frame Hf. unfold m_map_err, codec_encode. rewrite Hf. cbn [map_err]. unfold send. cbn [channels set_drawn].
    rewrite Hq. cbn. apply lookup_insert_eq.
Qed.

Lemma refuse_queued {JL : SerdeJsonLaws J} s conn b w :
  clients_wf w -> entropy_ok w ->
  (refuse s conn b w).1 = Ok tt /\ queued_only conn w (refuse s conn b w).2.
Proof.
  intros Hwf He. assert (Hself : queued_only conn w w) by (split_and!; by try left).
  unfold refuse. destruct b; try by split.
  - unfold ignore. pose proof (queue_for_queued s conn (service_busy_packet request_id
      (default_encryption s)) w Hwf He) as [Hq Hp]. by destruct (queue_for s conn _ w) as [[]].
  - unfold ignore. pose proof (queue_for_queued s conn (silent_ack_packet event_id
      (default_encryption s)) w Hwf He) as [Hq Hp]. by destruct (queue_for s conn _ w) as [[]].
Qed.

(** The header of a frame is right and within the limit. *)
Definition header_ok (max : Z) (bs : bytes) : Prop :=
  exists rest, bs = to_be_bytes (blen rest) ++ rest /\ 1 <= blen rest /\ 4 + blen rest <= max
    /\ blen rest < 2 ^ 32.

Lemma decide_header max bs : header_ok max bs \/ ~ header_ok max bs.
Proof.
  destruct bs as [|b0 [|b1 [|b2 [|b3 rest]]]];
    try by (right; intros (r & Hr & ?); unfold to_be_bytes in Hr; cbn in Hr; simplify_eq).
  destruct (decide (from_be_bytes b0 b1 b2 b3 = blen rest /\ 1 <= blen rest /\ 4 + blen rest <= max))
    as [(Hl & H1 & Hm)|Hn].
  - left. exists rest. pose proof (from_be_bytes_range b0 b1 b2 b3).
    rewrite <- Hl, to_from_be_bytes. split_and!; [done|lia..].
  - right. intros (r & Hr & H1 & Hm & H32). destruct Hn. unfold to_be_bytes in Hr. cbn [app] in Hr.
    injection Hr as H0 H1' H2 H3 ->. split_and!; [|done..].
    rewrite (from_to_be_bytes (blen r)); [apply Z.mod_small; lia|]. unfold to_be_bytes. by subst.
Qed.

Lemma on_binary_header s conn peer rc now bs w :
  (header_ok (server_max_frame_bytes s) bs ->
     on_binary s conn peer rc now bs w
     = (packet ← lift (map_err SProtocol (decode rc bs));
        let data := is_data_message (env_body packet) in
        verdict ← (if data then check_limiter conn (fst peer) (blen bs) now else mret None);
        match verdict with
        | Some Limited | Some Banned => refuse s conn (env_body packet) ;; mret Continue
        | Some Allowed | None =>
            if data then mret (SpawnHandler packet)
            else process_packet s conn (Some peer) packet ;; mret Continue
        end) w)
  /\ (~ header_ok (server_max_frame_bytes s) bs ->
        exists msg, on_binary s conn peer rc now bs w
          = reject_frame s conn (if bool_decide (blen bs < 5) then "frame_too_short" else "frame_too_large") msg w).
Proof.
  unfold on_binary. split.
  - intros (rest & -> & H1 & Hm & H32). rewrite bool_decide_false by len_lia.
    destruct (index_be_head (E:=ServerError) (blen rest) rest) as (Hi0 & Hi1 & Hi2 & Hi3).
    unfold mbind at 1 2 3 4, M_bind at 1 2 3 4, lift at 1 2 3 4. rewrite Hi0, Hi1, Hi2, Hi3.
    rewrite (from_to_be_bytes (blen rest)), Z.mod_small by (done || lia).
    rewrite bool_decide_false by len_lia. by rewrite bool_decide_false by len_lia.
  - intros Hh. case_bool_decide as Hs; [eauto|].
    destruct bs as [|b0 [|b1 [|b2 [|b3 rest]]]]; [exfalso; apply Hs; reflexivity..|].
    unfold mbind at 1 2 3 4, M_bind at 1 2 3 4, lift at 1 2 3 4.
    change (index (E:=ServerError) (b0 :: b1 :: b2 :: b3 :: rest) 0) with (Ok (E:=ServerError) b0).
    change (index (E:=ServerError) (b0 :: b1 :: b2 :: b3 :: rest) 1) with (Ok (E:=ServerError) b1).
    change (index (E:=ServerError) (b0 :: b1 :: b2 :: b3 :: rest) 2) with (Ok (E:=ServerError) b2).
    change (index (E:=ServerError) (b0 :: b1 :: b2 :: b3 :: rest) 3) with (Ok (E:=ServerError) b3).
    cbv beta iota zeta. case_bool_decide as Hd; [eauto|]. case_bool_decide as Hm; [eauto|].
    destruct Hh. exists rest. rewrite !blen_cons in *.
    assert (Heq : from_be_bytes b0 b1 b2 b3 = blen rest) by lia.
    pose proof (from_be_bytes_range b0 b1 b2 b3).
    rewrite <- Heq, to_from_be_bytes. split_and!; [done|lia|lia|lia].
Qed.

(** Errors of the header are not errors of the rest of the frame. *)
Definition not_header_error (e : ProtocolError) : Prop :=
  match e with FrameLengthMismatch _ _ | FrameTooLarge _ _ => False | _ => True end.

Lemma errs_in_open_payload c payload : errs_in not_header_error (open_payload c payload).
Proof.
  unfold open_payload, decrypt_chacha20, decrypt_aes256, CHACHA20_NONCE_LEN, AES256_NONCE_LEN.
  pose proof (blen_nonneg payload).
  destruct (wire_encryption c); [done|..]; case_bool_decide; try done.
  all: apply errs_in_bind; [by apply errs_in_ok_or|intros ci _].
  all: apply errs_in_bind; [apply errs_in_slice; lia|intros n _].
  all: apply errs_in_bind; [apply errs_in_slice_from; lia|intros ct _].
  all: by apply errs_in_ok_or.
Qed.

Lemma errs_in_read_attachments n : forall data, errs_in not_header_error (read_attachments n data).
Proof.
  induction n as [|n IH]; intros data; [done|]. cbn [read_attachments].
  apply errs_in_bind; [|intros [a rest] _; apply errs_in_bind; [apply IH|by intros [] _]].
  destruct (errs_in_cases _ _ (errs_in_read_wire data)) as [[a ->]|(e & -> & [msg ->])]; done.
Qed.

Lemma errs_in_decode_composite {JL : SerdeJsonLaws J} comp :
  errs_in not_header_error (decode_composite comp).
Proof.
  unfold decode_composite. case_bool_decide; [done|].
  do 4 (apply errs_in_bind; [apply errs_in_index; lia|intros ? _]).
  match goal with |- context [from_be_bytes ?a ?b ?c ?d] =>
    pose proof (from_be_bytes_range a b c d); set (len := from_be_bytes a b c d) in * end.
  cbv zeta. case_bool_decide; [done|].
  apply errs_in_bind; [apply errs_in_slice; lia|intros json _].
  apply errs_in_bind; [apply errs_in_index; lia|intros n _].
  apply errs_in_bind; [apply errs_in_slice_from; lia|intros data _].
  apply errs_in_bind; [apply errs_in_read_attachments|intros [] _].
  apply errs_in_bind; [|done]. apply errs_in_map_err; [|done].
  apply errs_in_bind; [apply returns_from_slice|]. intros v _. apply returns_deserialize.
Qed.

Lemma decode_header_ok {JL : SerdeJsonLaws J} rc bs :
  header_ok (max_frame_bytes rc) bs -> errs_in not_header_error (decode rc bs).
Proof.
  intros (rest & -> & H1 & Hm & H32). unfold decode. rewrite bool_decide_false by len_lia.
  destruct (index_be_head (E:=ProtocolError) (blen rest) rest) as (-> & -> & -> & ->). msimpl.
  rewrite (from_to_be_bytes (blen rest)), Z.mod_small by (done || lia).
  rewrite bool_decide_false by len_lia. rewrite bool_decide_false by len_lia.
  apply errs_in_bind; [apply errs_in_index; len_lia|intros t _].
  apply errs_in_bind; [by destruct t|intros mt _].
  apply errs_in_bind; [apply errs_in_slice_from; len_lia|intros payload _].
  apply errs_in_bind; [apply errs_in_open_payload|intros comp _].
  apply errs_in_bind; [apply errs_in_decode_composite|intros body _].
  by case_bool_decide.
Qed.

Lemma check_limiter_frame {E} conn ip len now w :
  exists v l', check_limiter (E:=E) conn ip len now w = (Ok v, set_limiter w l').
Proof.
  unfold check_limiter. destruct (limiter w) as [rl|] eqn:Hl.
  - destruct (check_and_record rl conn ip len now). eauto.
  - exists None, None. destruct w; cbn in *. by subst.
Qed.

(** The packet a refused message is answered with. *)
Definition refusal (e : EncryptionKind) (b : PacketBody) : option PacketEnvelope :=
  match b with
  | ApiRequest id _ _ _ _ => Some (service_busy_packet id e)
  | EventEmit id _ _ _ _ _ => Some (silent_ack_packet id e)
  | _ => None
  end.

(** *** Properties of the reader *)

(** No message can bring the reader down.  Whatever a socket delivers, one
    iteration of the reader loop returns: it goes on, stops, hands a packet to a
    handler task or ends with an error value; it never panics (handlers run in
    tasks of their own). *)
Lemma reader_never_panics {JL : SerdeJsonLaws J} s conn peer rc now next w :
  clients_wf w -> entropy_ok w -> (reader_step s conn peer rc now next w).1 <> Panic.
Proof.
  intros Hwf He. destruct next as [| |e|[bs|t|p|p| |]]; try done; cbn [reader_step].
  - destruct (on_binary_header s conn peer rc now bs w) as [Hok Hbad].
    destruct (decide_header (server_max_frame_bytes s) bs) as [Hh|Hh].
    2: { destruct (Hbad Hh) as (msg & ->).
         by rewrite (reject_frame_queued s conn _ msg w Hwf He). }
    rewrite (Hok Hh). unfold mbind at 1, M_bind at 1, lift at 1.
    pose proof (returns_decode rc bs) as Hd. destruct (decode rc bs) as [packet|e|]; [|done|done].
    cbn [map_err]. cbv zeta. destruct (is_data_message (env_body packet)) eqn:Hdata.
    + destruct (check_limiter_frame (E:=ServerError) conn (fst peer) (blen bs) now w) as (v & l' & Hv).
      unfold mbind at 1, M_bind at 1. rewrite Hv.
      assert (Hrefuse : (mbind (fun _ => mret Continue) (refuse s conn (env_body packet))
                          (set_limiter w l')).1 <> Panic).
      { unfold mbind, M_bind. pose proof (refuse_queued s conn (env_body packet) (set_limiter w l')
          Hwf He) as [Hr _]. by destruct (refuse s conn _ _) as [[]]. }
      by destruct v as [[]|].
    + unfold mbind, M_bind, mret, M_ret. by destruct packet as [? ? []].
  - unfold mbind, M_bind, m_try. pose proof (no_panic_send conn (Pong p) w) as Hp.
    by destruct (send conn (Pong p) w) as [[]].
Qed.

(** C33: fast rejection.  For a binary message whose length prefix is wrong, that is
    too short or over the configured limit, one iteration of the reader goes on
    and its only effect is that of [queue_for] with one packet: the failure with
    status 413, id 0 and the code "frame_too_short" or "frame_too_large".  The
    open channel of a registered connection gains exactly this packet, in the
    clear with key agreement, else as its frame.  The message is not decoded, the
    limiter is not consulted, no handler is started and the connection stays open.
    For every other message the codec's own length and size checks cannot fail any
    more. *)
Theorem fast_reject {JL : SerdeJsonLaws J} s conn peer rc now bs w :
  clients_wf w -> entropy_ok w -> max_frame_bytes rc = server_max_frame_bytes s ->
  (~ header_ok (server_max_frame_bytes s) bs -> exists message,
     let code := if bool_decide (blen bs < 5) then "frame_too_short" else "frame_too_large" in
     let packet := with_encryption (ApiResponse 0 false 413 empty_object (Some (mkErrorPayload code message 413 None))
                     empty_object) (default_encryption s) in
     let w' := (on_binary s conn peer rc now bs w).2 in
     on_binary s conn peer rc now bs w = (Ok Continue, (queue_for s conn packet w).2)
     /\ queued_only conn w w'
     /\ forall entry q, clients (state w) !! conn = Some entry -> channels w !! conn = Some (mkChannel q true) ->
          (is_ecdh s = true -> channels w' !! conn = Some (mkChannel (q ++ [Packet packet]) true))
          /\ (is_ecdh s = false -> forall frame,
               encode (codec s) (entropy w (drawn w) CHACHA20_NONCE_LEN) packet = Ok frame ->
               channels w' !! conn = Some (mkChannel (q ++ [PreEncoded frame]) true)))
  /\ (header_ok (server_max_frame_bytes s) bs -> errs_in not_header_error (decode rc bs)).
Proof.
  intros Hwf He Hmax. destruct (on_binary_header s conn peer rc now bs w) as [_ Hbad].
  split.
  - intros Hh. destruct (Hbad Hh) as (msg & Hb). exists msg. cbv zeta. rewrite Hb, reject_frame_queued by done.
    split_and!; [done|by apply queue_for_queued|]. intros entry q Hc Hq. by eapply queue_for_open.
  - intros Hh. apply decode_header_ok. by rewrite Hmax.
Qed.

(** C26: rate limiting comes before the handlers.  A well-framed request or event
    is handed to a handler task exactly when the limiter allows it; otherwise no
    handler runs, the reader goes on, and the only effect besides the limiter's
    record is that the matching refusal (503 for a request, an empty
    acknowledgement for an event, with its own id) is offered to the
    connection's queue. *)
Theorem limited_not_handled {JL : SerdeJsonLaws J} s conn peer rc now bs packet rl w :
  clients_wf w -> entropy_ok w ->
  header_ok (server_max_frame_bytes s) bs -> decode rc bs = Ok packet ->
  is_data_message (env_body packet) = true -> limiter w = Some rl ->
  let '(v, rl') := check_and_record rl conn (fst peer) (blen bs) now in
  let w1 := set_limiter w (Some rl') in
  (v = Allowed -> on_binary s conn peer rc now bs w = (Ok (SpawnHandler packet), w1))
  /\ (v <> Allowed ->
       exists p, refusal (default_encryption s) (env_body packet) = Some p
         /\ on_binary s conn peer rc now bs w = (Ok Continue, (queue_for s conn p w1).2)
         /\ queued_only conn w1 (queue_for s conn p w1).2).
Proof.
  intros Hwf He Hh Hd Hdata Hl. destruct (on_binary_header s conn peer rc now bs w) as [Hok _].
  rewrite (Hok Hh). unfold mbind, M_bind, lift. rewrite Hd. cbn [map_err]. cbv zeta.
  rewrite Hdata. unfold check_limiter. rewrite Hl.
  destruct (check_and_record rl conn (fst peer) (blen bs) now) as [v rl'].
  split; [by intros ->|]. intros Hv.
  assert (Hex : exists p, refusal (default_encryption s) (env_body packet) = Some p
    /\ refuse s conn (env_body packet) = ignore (queue_for s conn p)).
  { destruct (env_body packet); try done; eauto. }
  destruct Hex as (p & Hp & Hr). exists p. split; [done|].
  destruct (queue_for_queued s conn p (set_limiter w (Some rl')) Hwf He) as [Hq Hnp].
  split; [|done]. rewrite Hr. unfold ignore.
  destruct v; [by destruct Hv|..];
    by destruct (queue_for s conn p (set_limiter w (Some rl'))) as [[]].
Qed.

(** *** The writer *)

(** Iterations of the writer task, with what the socket does at each. *)
Fixpoint writer_run (conn : string) (c : FrameCodec) (failures : list (option string)) (w : W) : W :=
  match failures with [] => w | f :: fs => writer_run conn c fs (writer_step conn c f w) end.

(** What a queued message is on the wire. *)
Inductive rendered (c : FrameCodec) : ServerOutbound -> Message -> Prop :=
| RenderFrame frame : rendered c (PreEncoded frame) (MBinary frame)
| RenderPacket packet ent encoded : encode c ent packet = Ok encoded -> rendered c (Packet packet) (MBinary encoded)
| RenderPong payload : rendered c (Pong payload) (MPong payload)
| RenderClose : rendered c Close MClose.

(** The socket fails, or the packet cannot be encoded with the nonce drawn. *)
Definition write_fails (ent : nat -> Z -> result string bytes) (c : FrameCodec) (m : ServerOutbound)
    (failure : option string) : Prop :=
  is_Some failure
  \/ exists packet i, m = Packet packet /\ forall encoded, encode c (ent i CHACHA20_NONCE_LEN) packet <> Ok encoded.

(** The first writes, all that succeed, in order; then either nothing is left of
    the queue, or the next write is the one that failed and nothing more leaves the
    channel.  [open] tells whether the channel is still open in the first case. *)
Definition flushed (conn : string) (c : FrameCodec) (q : list ServerOutbound) (failures : list (option string))
    (open : bool) w w' : Prop :=
  exists n msgs, Forall (eq None) (take n failures) /\ Forall2 (rendered c) (take n q) msgs
  /\ wire w' = wire w ++ map (pair conn) msgs
  /\ ((length q <= n)%nat /\ channels w' !! conn = Some (mkChannel [] open)
      \/ exists m f, q !! n = Some m /\ failures !! n = Some f /\ write_fails (entropy w) c m f
          /\ channels w' !! conn = Some (mkChannel (drop (S n) q) false)).

Lemma writer_step_cases conn c m rest f w : channels w !! conn = Some (mkChannel (m :: rest) true) ->
  entropy (writer_step conn c f w) = entropy w /\
  ((exists msg, f = None /\ rendered c m msg /\ wire (writer_step conn c f w) = wire w ++ [(conn, msg)]
     /\ channels (writer_step conn c f w) !! conn = Some (mkChannel rest (match m with Close => false | _ => true end)))
  \/ (write_fails (entropy w) c m f /\ wire (writer_step conn c f w) = wire w
      /\ channels (writer_step conn c f w) !! conn = Some (mkChannel rest false))).
Proof.
  intros Hc. unfold writer_step. rewrite Hc.
  destruct m as [frame|packet|payload|]; unfold write_outbound, mbind, M_bind, m_map_err, codec_encode, ignore, ws_send.
  - destruct f as [e|]; (split; [done|]); [right|left]; cbn.
    + split_and!; [left; eauto|done|by rewrite lookup_alter_eq, lookup_insert_eq].
    + eexists. split_and!; [done|constructor|done|apply lookup_insert_eq].
  - cbn. destruct (encode c _ packet) as [encoded|e|] eqn:He; cbn;
      [destruct f as [e|]; cbn; (split; [done|]); [right|left]|split; [done|right]..].
    + split_and!; [left; eauto|done|by rewrite lookup_alter_eq, lookup_insert_eq].
    + eexists. split_and!; [done|by eapply RenderPacket|done|apply lookup_insert_eq].
    + split_and!; [right; eexists _, _; split; [done|by rewrite He]|done|by rewrite lookup_alter_eq, lookup_insert_eq].
    + split_and!; [right; eexists _, _; split; [done|by rewrite He]|done|by rewrite lookup_alter_eq, lookup_insert_eq].
  - destruct f as [e|]; (split; [done|]); [right|left]; cbn.
    + split_and!; [left; eauto|done|by rewrite lookup_alter_eq, lookup_insert_eq].
    + eexists. split_and!; [done|constructor|done|apply lookup_insert_eq].
  - destruct f as [e|]; (split; [done|]); [right|left]; cbn.
    + split_and!; [left; eauto|done|by rewrite lookup_alter_eq, lookup_insert_eq].
    + eexists. split_and!; [done|constructor|done|by rewrite lookup_alter_eq, lookup_insert_eq].
Qed.

(** Nothing happens any more. *)
Lemma writer_run_idle conn c fs q w : channels w !! conn = Some (mkChannel q false) \/ channels w !! conn = Some (mkChannel [] true) ->
  writer_run conn c fs w = w.
Proof.
  intros Hc. assert (Hs : forall f, writer_step conn c f w = w).
  { intros f. unfold writer_step. destruct Hc as [->| ->]; [by destruct q|done]. }
  induction fs as [|f fs IH]; [done|]. cbn. by rewrite Hs.
Qed.

Lemma writer_run_flush conn c tail : tail = [] \/ tail = [Close] -> forall ms fs w,
  Forall (fun m => m <> Close) ms -> (length (ms ++ tail) <= length fs)%nat ->
  channels w !! conn = Some (mkChannel (ms ++ tail) true) ->
  flushed conn c (ms ++ tail) fs (match tail with [] => true | _ => false end) w (writer_run conn c fs w).
Proof.
  intros Htail. induction ms as [|m ms IH]; intros fs w Hms Hlen Hc.
  - destruct Htail as [-> | ->]; cbn [app length] in *.
    + rewrite (writer_run_idle _ _ _ []) by auto. exists 0%nat, []. cbn [map]. rewrite !app_nil_r, !firstn_O.
      split_and!; [apply List.Forall_nil|apply List.Forall2_nil|done|left; split; [cbn; lia|exact Hc]].
    + destruct fs as [|f fs]; [cbn in Hlen; lia|]. cbn [writer_run].
      destruct (writer_step_cases conn c Close [] f w Hc) as [Hent [(msg & -> & Hr & Hw & Hc1)|(Hf & Hw & Hc1)]];
        rewrite (writer_run_idle _ _ _ []) by auto.
      * exists 1%nat, [msg]. split_and!; [by repeat constructor..|done|by left].
      * exists 0%nat, []. cbn [map]. rewrite !app_nil_r, !firstn_O.
        split_and!; [apply List.Forall_nil|apply List.Forall2_nil|done|right; by exists Close, f].
  - cbn [app length] in *. inversion Hms as [|? ? Hm Hms']; subst. destruct fs as [|f fs]; [cbn in Hlen; lia|]. cbn [writer_run].
    destruct (writer_step_cases conn c m (ms ++ tail) f w Hc) as [Hent [(msg & -> & Hr & Hw & Hc1)|(Hf & Hw & Hc1)]].
    + destruct (IH fs (writer_step conn c None w) Hms') as (n & msgs & Hnone & Hren & Hwire & Hend); [cbn in Hlen; lia|by destruct m|].
      exists (S n), (msg :: msgs). cbn [take]. split_and!; [by constructor|by constructor| |].
      * rewrite Hwire, Hw. cbn. by rewrite <- app_assoc.
      * destruct Hend as [[Hn Hch]|(m' & f' & Hq & Hfs & Hwf & Hch)]; [left; cbn; split; [lia|done]|right].
        rewrite Hent in Hwf. by exists m', f'.
    + rewrite (writer_run_idle _ _ _ (ms ++ tail)) by auto. exists 0%nat, []. cbn [map]. rewrite !app_nil_r, !firstn_O.
      split_and!; [apply List.Forall_nil|apply List.Forall2_nil|done|right; by exists m, f].
Qed.

(** C30: a connection that ends flushes what it was told, as far as its socket
    goes.  The teardown removes the client from the table, so nothing further is
    addressed to it.  When the outbound queue has room, the close message is put
    behind what is queued; when it is full the close message is dropped.  Then, as
    the writer goes on, whatever the queue holds (frames, packets it encodes
    itself, pongs) and whatever the socket does at each write: the messages are
    written in order up to the first write that fails or the first packet that
    cannot be encoded, which ends the writer with the rest unwritten; if there is
    none, everything is written, and the writer ends with the close message or,
    without it, goes on waiting for the abort after the grace period. *)
Theorem teardown_flushes conn c w ms failures :
  channels w !! conn = Some (mkChannel ms true) -> Forall (fun m => m <> Close) ms -> (length ms < length failures)%nat ->
  let w1 := (begin_teardown conn w).2 in
  clients (state w1) !! conn = None
  /\ (blen ms < SERVER_OUTBOUND_QUEUE_CAPACITY ->
       flushed conn c (ms ++ [Close]) failures false w (writer_run conn c failures w1))
  /\ (SERVER_OUTBOUND_QUEUE_CAPACITY <= blen ms -> flushed conn c ms failures true w (writer_run conn c failures w1)).
Proof.
  intros Hc Hms Hlen. cbv zeta. unfold begin_teardown, mbind, M_bind, modify, ignore, try_send. cbn [channels set_state].
  rewrite Hc. cbn [option_bind mbind]. unfold chan_try_send. cbn [receiver queue andb].
  case_bool_decide as Hroom; cbn [snd].
  - set (w1 := set_channels _ _). split_and!; [cbn; apply lookup_delete_eq| |lia]. intros _.
    apply (writer_run_flush conn c [Close] (or_intror eq_refl) ms failures w1); [done|rewrite length_app; cbn; lia|].
    apply lookup_insert_eq.
  - set (w1 := set_state _ _). split_and!; [cbn; apply lookup_delete_eq|lia|]. intros _.
    pose proof (writer_run_flush conn c [] (or_introl eq_refl) ms failures w1) as Hf. rewrite app_nil_r in Hf.
    apply Hf; [done|lia|done].
Qed.

(** *** The handshake phases *)
Lemma m_bind_Ok {E A B} (m : M W E A) (f : A -> M W E B) w b w' :
  (m ≫= f) w = (Ok b, w') -> exists a w1, m w = (Ok a, w1) /\ f a w1 = (Ok b, w').
Proof. unfold mbind, M_bind. destruct (m w) as [[a|e|] w1]; [eauto|done..]. Qed.

(** C14: authentication gates the session.  When an auth handler is configured, a
    connection gets past the setup phase only if the client's first message is a
    frame that decodes, under the session codec, to an [AuthRequest] whose
    credential the handler accepted; the idle timeout of the session is the one
    the handler granted. *)
Theorem auth_gates_session s conn peer now hello auth f1 f2 w ses w' h :
  auth_handler s = Some h ->
  connect s conn peer now hello auth f1 f2 w = (Ok (Some ses), w') ->
  exists bs env credential output w1 w2,
    auth = Received (MBinary bs) /\ decode (ses_codec ses) bs = Ok env
    /\ env_body env = AuthRequest credential
    /\ h (mkAuthContext credential (Some peer) conn) w1 = (Ok output, w2)
    /\ ses_idle ses = default SERVER_IDLE_TIMEOUT (session_timeout output).
Proof.
  intros Hh Hc. unfold connect in Hc.
  apply m_bind_Ok in Hc as (banned & w1 & _ & Hc). destruct banned; [done|].
  apply m_bind_Ok in Hc as (c & w2 & _ & Hc).
  apply m_bind_Ok in Hc as ([timeout ctx] & w3 & Ha & Hc).
  apply m_bind_Ok in Hc as ([] & w4 & _ & Hc). apply m_bind_Ok in Hc as ([] & w5 & _ & [= <- <-]).
  cbn [ses_codec ses_idle]. unfold auth_phase in Ha. rewrite Hh in Ha.
  apply m_bind_Ok in Ha as (bs & w6 & Hbs & Ha).
  destruct auth as [| |e|[b|t|p|p| |]]; try done. injection Hbs as -> ->.
  apply m_bind_Ok in Ha as (env & w7 & He & Ha). unfold lift in He.
  destruct (decode c bs) as [env'|e|] eqn:Hd; [|done..]. injection He as -> ->.
  apply m_bind_Ok in Ha as (cred & w8 & Hcred & Ha).
  destruct (env_body env) eqn:Hb; try done. injection Hcred as -> ->.
  apply m_bind_Ok in Ha as (outcome & w9 & Ho & Ha). unfold catch_unwind in Ho.
  destruct (h (mkAuthContext cred (Some peer) conn) w8) as [r w10] eqn:Hr.
  injection Ho as -> ->. destruct outcome as [output|err|]; [| |done].
  - apply m_bind_Ok in Ha as (frame & w11 & _ & Ha). apply m_bind_Ok in Ha as ([] & w12 & _ & [= <- <- _]).
    exists bs, env, cred, output, w8, w9. by split_and!.
  - apply m_bind_Ok in Ha as (frame & w11 & _ & Ha). apply m_bind_Ok in Ha as ([] & w12 & _ & Ha). done.
Qed.

(** An accepted client can be reported as unauthenticated.  When the auth
    handler accepts a client with an empty identity context (the value
    [AuthOutput::new()] it starts from), the client is told that authentication
    succeeded, but the connection handlers see [authenticated = false]. *)
Theorem empty_identity_unauthenticated s conn peer c bs env credential w h out w1 :
  auth_handler s = Some h ->
  decode c bs = Ok env -> env_body env = AuthRequest credential ->
  h (mkAuthContext credential (Some peer) conn) w = (Ok out, w1) -> context out = ∅ ->
  forall frame,
  encode c (entropy w1 (drawn w1) CHACHA20_NONCE_LEN)
    (with_encryption (AuthResponse true (as_secs <$> session_timeout out) None) (wire_encryption c))
    = Ok frame ->
  auth_phase s conn peer c (Received (MBinary bs)) None w
    = (Ok (session_timeout out, None),
       set_wire (set_drawn w1 (S (drawn w1))) (wire w1 ++ [(conn, MBinary frame)]))
  /\ notify_connected s conn (Some peer) None
     = notify_all (connection_handlers s)
         (mkServerConnectionContext conn (Some peer) (handle s) false None).
Proof.
  intros Hh Hd Hb Hr Hctx frame Hf. split; [|done]. unfold auth_phase. rewrite Hh.
  unfold mbind, M_bind, mret, M_ret, lift. rewrite Hd. cbn [map_err]. rewrite Hb.
  unfold catch_unwind. rewrite Hr, bool_decide_true by done.
  unfold m_map_err, codec_encode. by rewrite Hf.
Qed.

(** The configured frame limit is not applied to what the server sends.
    With a shared key, the frames the server queues are the same whatever
    [with_max_frame_bytes] is set to, so a response longer than the configured
    limit is sent, and a peer that enforces that limit refuses it. *)
Theorem configured_limit_not_sent s max conn p w frame :
  is_ecdh s = false -> 0 <= max < blen frame ->
  encode (codec s) (entropy w (drawn w) CHACHA20_NONCE_LEN) p = Ok frame ->
  blen frame < 2 ^ 32 ->
  queue_for (server_with_max_frame_bytes s max) conn p w = queue_for s conn p w
  /\ decode (with_max_frame_bytes (codec s) max) frame = Err (FrameTooLarge (blen frame) max).
Proof.
  intros He Hmax Hf H32. split; [done|].
  rewrite encode_eq_spec in Hf. unfold encode_spec in Hf.
  apply bind_Ok_inv in Hf as (text & _ & Hf). cbv zeta in Hf. case_bool_decide; [done|].
  apply bind_Ok_inv in Hf as (payload & _ & Hf). case_bool_decide; [done|]. injection Hf as <-.
  rewrite blen_frame_layout in *. pose proof (blen_nonneg payload).
  unfold decode. rewrite blen_frame_layout. rewrite bool_decide_false by lia.
  unfold frame_layout.
  destruct (index_be_head (E:=ProtocolError) (1 + blen payload)
    (message_type_u8 (env_message_type p) :: payload)) as (-> & -> & -> & ->). msimpl.
  rewrite (from_to_be_bytes (1 + blen payload)), Z.mod_small by (done || lia).
  rewrite bool_decide_false by lia. by rewrite bool_decide_true by (cbn; lia).
Qed.
End Reader.

(** ** Instances *)
Section Sample.
#[local] Existing Instances bit_json xor_x25519 prefix_sha256 plain_texts.

Definition check_secret (ctx : AuthContext) : M (World unit) ApiError AuthOutput :=
  if bool_decide (au_credential ctx = "secret") then mret auth_output_new
  else lift (Err (unauthorized "bad credential")).
(** A plaintext server that echoes params, rejects credentials other than
    ["secret"] and answers the event ["ping"]. *)
Definition echo_server : WscallServer (App:=unit) :=
  set_auth_handler
    (event_handler (route server_new "echo" (fun ctx => mret (ac_params ctx)))
       "ping" (fun _ => mret (Str "pong")))
    check_secret.
Definition guarded_server : WscallServer (App:=unit) :=
  filter echo_server (fun _ => lift (Err (unauthorized "no"))).
Definition peer1 : SocketAddr := (V4 0, 4000).

Definition frame_of (body : PacketBody) : bytes :=
  match encode plaintext (Ok (replicate 12 x09)) (with_encryption body NoEncryption) with
  | Ok frame => frame | _ => [] end.
Definition echo_input : ApiRequestInput := mkApiRequestInput 1 "echo" (Str "hi") [] empty_object.
Definition echo_frame : bytes := frame_of (ApiRequest 1 "echo" (Str "hi") [] empty_object).
Definition auth_frame : bytes := frame_of (AuthRequest "secret").
Definition echo_envelope : PacketEnvelope :=
  mkPacketEnvelope Api NoEncryption (ApiRequest 1 "echo" (Str "hi") [] Null).

(** A limiter that allows no frame at all. *)
Definition closed_limiter : RateLimiterState :=
  limiter_build (limiter_connection limiter_new (config_max_messages (config_new (secs 1)) 0)).

Lemma echo_hooks : hooks_ok echo_server.
Proof. split; [constructor|exact I]. Qed.
Lemma sample_entropy_ok : entropy_ok sample_world.
Proof. intros n len Hlen. cbn. unfold blen. rewrite length_replicate. lia. Qed.
Lemma echo_frame_ok : header_ok (server_max_frame_bytes echo_server) echo_frame.
Proof.
  exists (drop 4 echo_frame). split_and!; [reflexivity|..]; vm_compute; done.
Qed.
Lemma echo_frame_decodes : decode plaintext echo_frame = Ok echo_envelope.
Proof. vm_compute. reflexivity. Qed.


Lemma filters_guard_routes_witness :
  run_api_request (E:=ServerError) (with_handlers guarded_server ∅ (filters guarded_server) ∅ [] []
    None (auth_handler guarded_server)) "c1" None echo_input sample_world
  = api_error_packet guarded_server "c1" (Some 1) "echo" (unauthorized "no") sample_world.
Proof.
  apply (filters_guard_routes (E:=ServerError) guarded_server "c1" None echo_input sample_world
    (unauthorized "no") sample_world). reflexivity.
Defined.

Lemma event_acknowledged_witness :
  exists ok receipt error w,
    run_event (E:=ServerError) echo_server "c1" None (mkEventEmitInput 5 "ping" ∅ [] empty_object)
      sample_world
    = (Ok (with_encryption (EventAck 5 ok receipt error) NoEncryption), w).
Proof.
  destruct (event_acknowledged (E:=ServerError) echo_server "c1" None
    (mkEventEmitInput 5 "ping" ∅ [] empty_object) sample_world echo_hooks)
    as (ok & receipt & error & w & He & _).
  exists ok, receipt, error, w. exact He.
Defined.

(** A message of three bytes, and a well-framed one. *)
Lemma fast_reject_witness :
  (exists message w frame,
     on_binary echo_server "c1" peer1 plaintext 0 [x01; x02; x03] sample_world = (Ok Continue, w)
     /\ encode plaintext (entropy sample_world 0 CHACHA20_NONCE_LEN)
          (frame_error_packet 0 "frame_too_short" message NoEncryption) = Ok frame
     /\ queue <$> channels w !! "c1" = Some [PreEncoded frame])
  /\ errs_in not_header_error (decode plaintext echo_frame).
Proof.
  split.
  - destruct (proj1 (fast_reject (JL:=bit_json_laws) echo_server "c1" peer1 plaintext 0 [x01; x02; x03]
      sample_world sample_world_wf sample_entropy_ok eq_refl)) as (message & Hb & _ & Hq).
    { intros (r & Hr & _). unfold to_be_bytes in Hr. discriminate Hr. }
    exists "frame must be at least 5 bytes". eexists. eexists. split; [reflexivity|]. split; vm_compute; reflexivity.
  - refine (proj2 (fast_reject (JL:=bit_json_laws) echo_server "c1" peer1 plaintext 0 echo_frame
      sample_world sample_world_wf sample_entropy_ok eq_refl) echo_frame_ok).
Defined.

Lemma limited_not_handled_witness :
  exists p w, refusal NoEncryption (env_body echo_envelope) = Some p
    /\ on_binary echo_server "c1" peer1 plaintext 0 echo_frame
         (set_limiter sample_world (Some closed_limiter)) = (Ok Continue, w).
Proof.
  pose proof (limited_not_handled (JL:=bit_json_laws) echo_server "c1" peer1 plaintext 0 echo_frame
    echo_envelope closed_limiter (set_limiter sample_world (Some closed_limiter))
    sample_world_wf sample_entropy_ok echo_frame_ok echo_frame_decodes eq_refl eq_refl) as Hl.
  revert Hl.
  destruct (check_and_record closed_limiter "c1" (fst peer1) (blen echo_frame) 0) as [v rl'] eqn:Hv.
  vm_compute in Hv. intros [_ Hr]. destruct Hr as (p & Hp & Ho & _).
  - injection Hv as <- _. discriminate.
  - exists p. eexists. split; [exact Hp|exact Ho].
Defined.

(** A frame, a packet and a pong are queued; the write of the pong fails. *)
Definition ending_queue : list ServerOutbound := [PreEncoded [x01]; Packet echo_envelope; Pong [x02]].
Definition ending_world : World unit := set_channels sample_world {["c1" := mkChannel ending_queue true]}.
Lemma teardown_flushes_witness :
  wire (writer_run "c1" plaintext [None; None; None; None] (begin_teardown "c1" ending_world).2)
    = [("c1", MBinary [x01]); ("c1", MBinary echo_frame); ("c1", MPong [x02]); ("c1", MClose)]
  /\ wire (writer_run "c1" plaintext [None; None; Some "reset"; None] (begin_teardown "c1" ending_world).2)
     = [("c1", MBinary [x01]); ("c1", MBinary echo_frame)]
  /\ flushed "c1" plaintext (ending_queue ++ [Close]) [None; None; Some "reset"; None] false ending_world
       (writer_run "c1" plaintext [None; None; Some "reset"; None] (begin_teardown "c1" ending_world).2).
Proof.
  split; [vm_compute; reflexivity|]. split; [vm_compute; reflexivity|].
  refine (proj1 (proj2 (teardown_flushes "c1" plaintext ending_world ending_queue [None; None; Some "reset"; None] _ _ _)) _).
  - reflexivity.
  - repeat constructor; discriminate.
  - cbn. lia.
  - reflexivity.
Defined.

(** The empty world a connection starts in. *)
Definition fresh_world : World unit := mkWorld state_new ∅ None sample_entropy 0 [] tt.

Lemma auth_gates_session_witness :
  exists ses w,
    connect echo_server "c1" peer1 0 EndOfStream (Received (MBinary auth_frame)) None None fresh_world
    = (Ok (Some ses), w)
    /\ exists bs env credential output w1 w2,
         Received (MBinary auth_frame) = Received (MBinary bs) /\ decode (ses_codec ses) bs = Ok env
         /\ env_body env = AuthRequest credential
         /\ check_secret (mkAuthContext credential (Some peer1) "c1") w1 = (Ok output, w2)
         /\ ses_idle ses = default SERVER_IDLE_TIMEOUT (session_timeout output).
Proof.
  destruct (connect echo_server "c1" peer1 0 EndOfStream (Received (MBinary auth_frame)) None None
    fresh_world) as [r w] eqn:Hc.
  assert (Hr : match r with Ok (Some _) => True | _ => False end).
  { change r with (fst (r, w)). rewrite <- Hc. vm_compute. exact I. }
  destruct r as [[ses|]|e|]; [|destruct Hr..]. exists ses, w. split; [reflexivity|].
  exact (auth_gates_session echo_server "c1" peer1 0 EndOfStream (Received (MBinary auth_frame)) None None
    fresh_world ses w _ eq_refl Hc).
Defined.

Definition welcome_frame : bytes := frame_of (AuthResponse true None None).

Lemma empty_identity_unauthenticated_witness :
  auth_phase echo_server "c1" peer1 plaintext (Received (MBinary auth_frame)) None fresh_world
  = (Ok (None, None),
     set_wire (set_drawn fresh_world 1) [("c1", MBinary welcome_frame)]).
Proof.
  refine (proj1 (empty_identity_unauthenticated echo_server "c1" peer1 plaintext auth_frame
    (mkPacketEnvelope Auth NoEncryption (AuthRequest "secret")) "secret" fresh_world _ auth_output_new
    fresh_world eq_refl _ _ _ _ welcome_frame _)).
  - vm_compute. reflexivity.
  - reflexivity.
  - reflexivity.
  - reflexivity.
  - vm_compute. reflexivity.
Defined.

Lemma configured_limit_not_sent_witness :
  decode (with_max_frame_bytes plaintext 16) echo_frame = Err (FrameTooLarge (blen echo_frame) 16).
Proof.
  refine (proj2 (configured_limit_not_sent echo_server 16 "c1"
    (with_encryption (env_body echo_envelope) NoEncryption) sample_world echo_frame eq_refl _ _ _)).
  - vm_compute. split; done.
  - vm_compute. reflexivity.
  - vm_compute. reflexivity.
Defined.
End Sample.
