(* ===== verification/ServerSystem.v ===== *)
(** * The server as a transition system

    First the whole server: connections that come and go, their readers, handler
    tasks, writers and heartbeats, pushes from the application and the limiter's
    cleanup, in any order, with the invariant of the shared state.  Then one
    connection with its in-flight semaphore, and the listener with its
    connection semaphore. *)

From S2P Require Import Prelude Utf8 Json Protocol Texts Attachment PacketJson Codec RateLimiter.
From S2P Require Import Validation ServerTypes ServerRuntime.
#[local] Open Scope Z_scope.

Section World.
Context {J : SerdeJson} {C : Crypto} {X : X25519} {H : Sha256} {TX : ErrorTexts} {App : Type}.
Abbreviation W := (World App).
Context (s : WscallServer (App:=App)).
Implicit Types (w : W).

(** The invariant of the shared state: the entry of a connection holds the sender
    of the channel of that connection, which has been created (nothing is said of
    its receiver), and the entropy source behaves. *)
Definition server_ok w : Prop :=
  clients_wf w /\ entropy_ok w
  /\ (forall id, is_Some (clients (state w) !! id) -> is_Some (channels w !! id)).

(** The state [listen] starts from. *)
Definition server_init (ent : nat -> Z -> result string bytes) (a : App) : W :=
  mkWorld state_new ∅ (rate_limiter s) ent 0 [] a.

(** The limiter's background task. *)
Definition cleanup_tick (now : Z) (w : W) : W :=
  set_limiter w ((fun rl => cleanup rl now) <$> limiter w).

Inductive server_step : W -> W -> Prop :=
| SConnect conn peer now hello auth f1 f2 w :
    server_step w (connect s conn peer now hello auth f1 f2 w).2
| SNotice conn w : server_step w (send_notice s conn w).2
| SRead conn peer rc now next w : server_step w (reader_step s conn peer rc now next w).2
| STask conn peer packet w : server_step w (process_packet s conn peer packet w).2
| SWrite conn rc failure w : server_step w (writer_step conn rc failure w)
| SBeat conn failure w : server_step w (heartbeat conn failure w)
| SBroadcast name data atts w : server_step w (broadcast_event (handle s) name data atts w).2
| SSendTo conn name data atts w : server_step w (send_event_to (handle s) conn name data atts w).2
| SClosing conn w : server_step w (begin_teardown conn w).2
| SClosed conn peer r w : server_step w (end_teardown s conn peer r w).2
| SCleanup now w : server_step w (cleanup_tick now w).

(** *** Application handlers that keep a property of the shared state *)
Definition keeps (P : W -> Prop) {Ctx E A} (h : Ctx -> M W E A) : Prop := forall ctx, preserves P (h ctx).
Definition handlers_keep (P : W -> Prop) : Prop :=
  Forall (keeps P) (filters s) /\ map_Forall (fun _ h => keeps P h) (routes s)
  /\ map_Forall (fun _ h => keeps P h) (event_handlers s)
  /\ Forall (keeps P) (connection_handlers s) /\ Forall (keeps P) (disconnect_handlers s)
  /\ match exception_handler s with Some h => keeps P h | None => True end
  /\ match auth_handler s with Some h => keeps P h | None => True end.

(** What the runtime does around them keeps it, too. *)
Section Keeps.
Context (P : W -> Prop) (Hk : handlers_keep P).

Lemma keeps_notify {Ctx} (hs : list (Ctx -> M W Empty_set unit)) ctx :
  Forall (keeps P) hs -> preserves P (notify_all hs ctx).
Proof.
  induction 1 as [|h hs Hh _ IH]; cbn [notify_all]; [preserve|].
  apply preserves_bind; [apply preserves_catch, Hh|done].
Qed.
Lemma keeps_filters (fs : list (Filter (App:=App))) : forall ctx,
  Forall (keeps P) fs -> preserves P (run_filters fs ctx).
Proof.
  induction fs as [|f fs IH]; intros ctx Hs; cbn [run_filters]; [preserve|].
  inversion_clear Hs. apply preserves_bind; [auto|]. intros c. by apply IH.
Qed.
Lemma keeps_map_exception {E} ctx : preserves P (map_exception (E:=E) s ctx).
Proof.
  destruct Hk as (_ & _ & _ & _ & _ & Hx & _). unfold map_exception.
  destruct (exception_handler s); [|preserve]. apply preserves_infallible, Hx.
Qed.
Lemma keeps_api_error_packet {E} conn rid route err : preserves P (api_error_packet (E:=E) s conn rid route err).
Proof. unfold api_error_packet. apply preserves_bind; [apply keeps_map_exception|preserve]. Qed.
Lemma keeps_run_api_request {E} conn peer req : preserves P (run_api_request (E:=E) s conn peer req).
Proof.
  destruct Hk as (Hf & Hr & _). pose proof (@keeps_api_error_packet E) as He. unfold run_api_request.
  apply preserves_bind; [preserve|intros w].
  apply preserves_bind; [by apply preserves_try, keeps_filters|intros [err|ctx]]; [by apply He|].
  destruct (routes s !! ac_route ctx) as [h|] eqn:Hl; [|by apply He].
  apply preserves_bind; [apply preserves_catch, (Hr _ _ Hl)|intros o]. destruct o; [preserve|by apply He..].
Qed.
Lemma keeps_run_event {E} conn peer ev : preserves P (run_event (E:=E) s conn peer ev).
Proof.
  destruct Hk as (_ & _ & Hr & _). unfold run_event.
  apply preserves_bind; [preserve|intros w].
  destruct (event_handlers s !! in_name ev) as [h|] eqn:Hl; [|preserve].
  apply preserves_bind; [apply preserves_catch, (Hr _ _ Hl)|intros o].
  destruct o; [preserve|apply preserves_bind; [apply keeps_map_exception|preserve]..].
Qed.
End Keeps.

(** The application's handlers keep the invariant (they reach the shared state only
    through the operations of [ServerHandle], which do). *)
Definition handlers_tame : Prop := handlers_keep server_ok.

(** ** The primitive effects *)
Lemma ok_channels w ch :
  (forall id, is_Some (channels w !! id) -> is_Some (ch !! id)) ->
  server_ok w -> server_ok (set_channels w ch).
Proof. intros Hch (Hwf & He & Hc). split_and!; [done|done|]. intros id Hid. by apply Hch, Hc. Qed.

Lemma ok_insert_channel w key c : server_ok w -> server_ok (set_channels w (<[key := c]> (channels w))).
Proof. apply ok_channels. intros id Hid. apply lookup_insert_is_Some'. auto. Qed.

Lemma ok_drop_receiver conn w : server_ok w -> server_ok (drop_receiver conn w).
Proof. apply ok_channels. intros id Hid. by apply lookup_alter_is_Some. Qed.

Lemma preserves_send key m : preserves server_ok (send (App:=App) key m).
Proof. intros w Hw. unfold send. repeat case_match; try done. by apply ok_insert_channel. Qed.
Lemma preserves_try_send key m : preserves server_ok (try_send (App:=App) key m).
Proof. intros w Hw. unfold try_send. case_match; [|done]. by apply ok_insert_channel. Qed.
Lemma preserves_codec_encode c p : preserves server_ok (codec_encode (App:=App) c p).
Proof. by intros w. Qed.
Lemma preserves_ws_send conn m f : preserves server_ok (ws_send (App:=App) conn m f).
Proof. intros w Hw. by destruct f. Qed.
Lemma preserves_fresh_event_id : preserves server_ok (fresh_event_id (App:=App)).
Proof. by intros w. Qed.
Lemma preserves_check_limiter {E} conn ip len now :
  preserves server_ok (check_limiter (App:=App) (E:=E) conn ip len now).
Proof. intros w Hw. unfold check_limiter. repeat case_match; done. Qed.
Lemma preserves_refuse_banned peer now : preserves server_ok (refuse_banned (App:=App) peer now).
Proof. intros w Hw. unfold refuse_banned. repeat case_match; done. Qed.

Lemma preserves_register conn t a : preserves server_ok (register (App:=App) conn t a).
Proof.
  intros w (Hwf & He & Hc). split_and!; cbn; [|done|].
  - intros id e Hl. cbn in Hl. apply lookup_insert_Some in Hl as [[<- <-]|[_ Hl]]; [done|]. by apply Hwf.
  - intros id [Heq|[Hne Hl]]%lookup_insert_is_Some; apply lookup_insert_is_Some'; auto.
Qed.

#[local] Hint Resolve preserves_send preserves_try_send preserves_codec_encode preserves_ws_send
  preserves_fresh_event_id preserves_check_limiter preserves_refuse_banned preserves_register
  : preserves.

(** ** The operations *)
Lemma preserves_send_to_all entries m : preserves server_ok (send_to_all (App:=App) entries m).
Proof. induction entries as [|[id e] entries IH]; cbn [send_to_all]; preserve. Qed.
#[local] Hint Resolve preserves_send_to_all : preserves.

Lemma preserves_broadcast h name data atts :
  preserves server_ok (broadcast_event (App:=App) h name data atts).
Proof. unfold broadcast_event. preserve. Qed.
Lemma preserves_send_event_to h conn name data atts :
  preserves server_ok (send_event_to (App:=App) h conn name data atts).
Proof. unfold send_event_to. preserve. Qed.
Lemma preserves_queue_for conn p : preserves server_ok (queue_for s conn p).
Proof. unfold queue_for. preserve. Qed.
#[local] Hint Resolve preserves_broadcast preserves_send_event_to preserves_queue_for : preserves.

Lemma preserves_run_api_request {E} conn peer req :
  handlers_tame -> preserves server_ok (run_api_request (E:=E) s conn peer req).
Proof. intros Ht. by apply keeps_run_api_request. Qed.
Lemma preserves_run_event {E} conn peer ev :
  handlers_tame -> preserves server_ok (run_event (E:=E) s conn peer ev).
Proof. intros Ht. by apply keeps_run_event. Qed.
#[local] Hint Resolve preserves_run_api_request preserves_run_event : preserves.
Lemma preserves_process_packet conn peer p :
  handlers_tame -> preserves server_ok (process_packet s conn peer p).
Proof. intros Ht. unfold process_packet. preserve. Qed.
#[local] Hint Resolve preserves_process_packet : preserves.

Lemma preserves_reader_step conn peer rc now next :
  handlers_tame -> preserves server_ok (reader_step s conn peer rc now next).
Proof. intros Ht. unfold reader_step, on_binary, reject_frame, refuse. preserve. Qed.

Lemma preserves_connect conn peer now hello auth f1 f2 :
  handlers_tame -> preserves server_ok (connect s conn peer now hello auth f1 f2).
Proof.
  intros (_ & _ & _ & Hc & _ & _ & Ha). unfold connect.
  assert (Hkey : preserves server_ok (session_codec s conn hello f1)).
  { unfold session_codec, perform_ecdh_handshake. preserve. }
  assert (Hauth : forall c, preserves server_ok (auth_phase s conn peer c auth f2)).
  { intros c. unfold auth_phase. destruct (auth_handler s) as [h|]; [|preserve].
    do 3 (apply preserves_bind; [preserve|intros ?]).
    apply preserves_bind; [apply preserves_catch, Ha|intros ?]. preserve. }
  assert (Hn : forall t, preserves server_ok (notify_connected s conn (Some peer) t))
    by (intros t; by apply keeps_notify).
  preserve.
Qed.

Lemma ok_writer_step conn rc f w : server_ok w -> server_ok (writer_step conn rc f w).
Proof.
  intros Hw. unfold writer_step. destruct (channels w !! conn) as [[[|m rest] []]|]; try done.
  assert (Hp : preserves server_ok (write_outbound conn rc m f)) by (unfold write_outbound; preserve).
  specialize (Hp _ (ok_insert_channel w conn (mkChannel rest true) Hw)).
  destruct (write_outbound _ _ _ _ _) as [[[]|e|] w']; by try apply ok_drop_receiver.
Qed.
Lemma ok_heartbeat conn f w : server_ok w -> server_ok (heartbeat conn f w).
Proof.
  intros Hw. unfold heartbeat. pose proof (preserves_ws_send conn (MPing []) f w Hw) as Hp.
  destruct (channels w !! conn) as [[q []]|]; [|exact Hw|exact Hw].
  destruct (ws_send _ _ _ _) as [[]]; by try apply ok_drop_receiver.
Qed.

Lemma preserves_begin_teardown conn : preserves server_ok (begin_teardown (App:=App) conn).
Proof.
  unfold begin_teardown. apply preserves_bind; [|intros _; preserve].
  intros w (Hwf & He & Hc). split_and!; cbn; [|done|].
  - intros id e Hl. cbn in Hl. apply lookup_delete_Some in Hl as [_ Hl]. by apply Hwf.
  - intros id [e [_ Hl]%lookup_delete_Some]. apply Hc. eauto.
Qed.
Lemma preserves_end_teardown conn peer r :
  handlers_tame -> preserves server_ok (end_teardown s conn peer r).
Proof.
  intros (_ & _ & _ & _ & Hd & _). unfold end_teardown. apply preserves_bind.
  - intros w. apply ok_drop_receiver.
  - intros _. by apply keeps_notify.
Qed.

Lemma server_step_ok w w' : handlers_tame -> server_step w w' -> server_ok w -> server_ok w'.
Proof.
  intros Ht [] Hw.
  - by apply preserves_connect.
  - unfold send_notice. by apply preserves_map_err; auto with preserves.
  - by apply preserves_reader_step.
  - by apply preserves_process_packet.
  - by apply ok_writer_step.
  - by apply ok_heartbeat.
  - by apply preserves_broadcast.
  - by apply preserves_send_event_to.
  - by apply preserves_begin_teardown.
  - by apply preserves_end_teardown.
  - done.
Qed.

(** C13: the server's state stays consistent and no input brings a reader down.
    In every state the server reaches, whatever the interleaving of connections,
    messages, handler tasks, writers, pushes and teardowns, each client entry
    holds the sender of its own connection's channel, and that channel has been
    created (its receiver may be gone: a writer can end before its connection,
    see [ServerFlow.oversized_packet_ends_writer]); and the next message of any
    connection, whatever it contains, makes its reader go on, stop, start a
    handler or end with an error value; it never panics. *)
Theorem server_reachable_ok {JL : SerdeJsonLaws J} ent a w :
  handlers_tame -> entropy_ok (server_init ent a) -> rtc server_step (server_init ent a) w ->
  clients_wf w
  /\ (forall id, is_Some (clients (state w) !! id) -> is_Some (channels w !! id))
  /\ (forall conn peer rc now next, (reader_step s conn peer rc now next w).1 <> Panic).
Proof.
  intros Ht He Hr.
  assert (Hok : server_ok w).
  { assert (H0 : server_ok (server_init ent a)).
    { split_and!; [by intros id e Hl|done|]. by intros id [e Hl]. }
    induction Hr as [|w1 w2 w3 Hs _ IH]; [done|]. apply IH; [|by eapply server_step_ok].
    by destruct (server_step_ok _ _ Ht Hs H0) as (_ & ? & _). }
  destruct Hok as (Hwf & Hent & Hc). split_and!; [done|done|].
  intros. by apply reader_never_panics.
Qed.
End World.

(** ** One connection: the in-flight semaphore *)

(** The reader reads, waits for a permit for the packet it has accepted, or has
    ended. *)
Inductive ReaderState : Type :=
| Reading
| Acquiring (packet : PacketEnvelope)
| Ended (r : result ServerError unit).

(** [in_flight]'s permits, the packets whose handler tasks run (oldest first),
    the reader. *)
Record Connection : Type := mkConnection {
  permits : Z;
  tasks : list PacketEnvelope;
  reader : ReaderState;
}.

(** What a step of a connection reveals. *)
Inductive Happening : Type :=
| Quiet
| Accepted (packet : PacketEnvelope)
| Finished (packet : PacketEnvelope).

Section Connection.
Context {J : SerdeJson} {C : Crypto} {X : X25519} {H : Sha256} {TX : ErrorTexts} {App : Type}.
Abbreviation W := (World App).
Context (s : WscallServer (App:=App)) (conn : string) (peer : SocketAddr) (rc : FrameCodec).
Implicit Types (w : W) (k : Connection).

Definition connection_new : Connection := mkConnection (max_in_flight s) [] Reading.

(** One turn of the reader loop. *)
Definition reader_after (r : result ServerError Flow) : ReaderState :=
  match r with
  | Ok Continue => Reading
  | Ok Stop => Ended (Ok tt)
  | Ok (SpawnHandler packet) => Acquiring packet
  | Err e => Ended (Err e)
  | Panic => Ended Panic
  end.
Definition conn_read (now : Z) (next : Next) (k : Connection) (w : W) : Connection * W :=
  match reader k with
  | Reading =>
      let '(r, w) := reader_step s conn peer rc now next w in
      (mkConnection (permits k) (tasks k) (reader_after r), w)
  | _ => (k, w)
  end.

(** [in_flight.acquire_owned().await] succeeds and the task is spawned. *)
Definition conn_acquire (k : Connection) : Connection :=
  match reader k with
  | Acquiring packet =>
      if bool_decide (0 < permits k)
      then mkConnection (permits k - 1) (tasks k ++ [packet]) Reading else k
  | _ => k
  end.

(** The [i]-th running task ends, with an error, a panic or neither; its permit
    is dropped.  As everywhere in this file, the [send().await] of its answer puts
    the message behind the queue, however long, instead of waiting; a task that
    waits for room is in [ServerThreads], and what follows for a connection is in
    [ServerFlow] and [ServerDrain]. *)
Definition conn_finish (i : nat) (k : Connection) (w : W) : Connection * W :=
  match tasks k !! i with
  | Some packet =>
      (mkConnection (permits k + 1) (delete i (tasks k)) (reader k),
       (process_packet s conn (Some peer) packet w).2)
  | None => (k, w)
  end.

Definition read_label (k k' : Connection) : Happening :=
  match reader k, reader k' with Reading, Acquiring packet => Accepted packet | _, _ => Quiet end.

(** Steps of the connection; the rest of the server may change the world in
    between. *)
Inductive conn_step : Happening -> Connection * W -> Connection * W -> Prop :=
| KRead now next k w :
    conn_step (read_label k (conn_read now next k w).1) (k, w) (conn_read now next k w)
| KAcquire k w : conn_step Quiet (k, w) (conn_acquire k, w)
| KFinish i packet k w :
    tasks k !! i = Some packet -> conn_step (Finished packet) (k, w) (conn_finish i k w)
| KOther k w w' : conn_step Quiet (k, w) (k, w').

Inductive conn_trace : list Happening -> Connection * W -> Connection * W -> Prop :=
| KNil kw : conn_trace [] kw kw
| KSnoc hs h kw1 kw2 kw3 :
    conn_trace hs kw1 kw2 -> conn_step h kw2 kw3 -> conn_trace (hs ++ [h]) kw1 kw3.

Definition accepted (hs : list Happening) : list PacketEnvelope :=
  omap (fun h => match h with Accepted p => Some p | _ => None end) hs.
Definition finished (hs : list Happening) : list PacketEnvelope :=
  omap (fun h => match h with Finished p => Some p | _ => None end) hs.
Definition acquiring (k : Connection) : list PacketEnvelope :=
  match reader k with Acquiring p => [p] | _ => [] end.

(** The invariant of the connection after the happenings [hs]. *)
Definition conn_ok (hs : list Happening) (k : Connection) : Prop :=
  0 <= permits k /\ permits k + Z.of_nat (length (tasks k)) = max_in_flight s
  /\ accepted hs ≡ₚ finished hs ++ tasks k ++ acquiring k.

Lemma accepted_snoc hs h : accepted (hs ++ [h]) = accepted hs ++ accepted [h].
Proof. apply omap_app. Qed.
Lemma finished_snoc hs h : finished (hs ++ [h]) = finished hs ++ finished [h].
Proof. apply omap_app. Qed.

Lemma conn_step_ok hs h kw kw' :
  conn_step h kw kw' -> conn_ok hs kw.1 -> conn_ok (hs ++ [h]) kw'.1.
Proof.
  intros Hs (Hp & Hsum & Hperm). unfold conn_ok. rewrite accepted_snoc, finished_snoc.
  destruct Hs as [now next k w|k w|i packet k w Hi|k w w'].
  - cbn [fst] in *. unfold conn_read, read_label. destruct (reader k) as [|p|r] eqn:Hr;
      try (rewrite !app_nil_r; by split_and!).
    destruct (reader_step s conn peer rc now next w) as [r w1]. cbn [fst reader permits tasks].
    split_and!; [done|done|]. unfold acquiring in *. rewrite Hr in Hperm. cbn [reader].
    rewrite Hperm. destruct r as [[| |p]|e|]; cbn; by rewrite ?app_nil_r, ?app_assoc.
  - cbn [fst] in *. rewrite !app_nil_r. unfold conn_acquire.
    destruct (reader k) as [|p|r] eqn:Hr; try by split_and!.
    case_bool_decide; [|by split_and!]. cbn [permits tasks reader acquiring].
    rewrite length_app. cbn [length]. split_and!; [lia|lia|]. rewrite Hperm.
    unfold acquiring. rewrite Hr. cbn. by rewrite app_nil_r.
  - cbn [fst] in *. unfold conn_finish. rewrite Hi. cbn [fst permits tasks].
    pose proof (length_delete (tasks k) i ltac:(eauto)) as Hl. apply lookup_lt_Some in Hi as Hlt.
    split_and!; [lia|lia|]. cbn. rewrite app_nil_r, Hperm.
    rewrite (delete_Permutation _ _ _ Hi) at 1. unfold acquiring. cbn [reader].
    rewrite <- !app_assoc. by cbn.
  - cbn [fst] in *. rewrite !app_nil_r. by split_and!.
Qed.

Lemma conn_trace_ok hs w kw : 0 <= max_in_flight s ->
  conn_trace hs (connection_new, w) kw -> conn_ok hs kw.1.
Proof.
  intros Hmax Ht. remember (connection_new, w) as kw0 eqn:H0. revert H0.
  induction Ht as [kw|hs h kw1 kw2 kw3 _ IH Hs]; intros ->.
  - by split_and!; cbn; [|lia|].
  - eapply conn_step_ok; [done|]. by apply IH.
Qed.


(** [with_max_in_flight(0)] deadlocks.  A connection of a server configured
    with no permits accepts one packet at most, never runs a handler, and once it
    has accepted one its reader waits for a permit in every later state. *)
Theorem zero_in_flight_deadlocks hs w k w' :
  max_in_flight s = 0 -> conn_trace hs (connection_new, w) (k, w') ->
  tasks k = [] /\ finished hs = [] /\ accepted hs = acquiring k
  /\ (acquiring k <> [] -> forall h kw', conn_step h (k, w') kw' -> kw'.1 = k).
Proof.
  intros Hmax Ht. assert (Hok : conn_ok hs k) by (apply (conn_trace_ok hs w (k, w')); [lia|done]).
  destruct Hok as (Hp & Hsum & Hperm). assert (Hts : tasks k = []) by (apply length_zero_iff_nil; lia).
  assert (Hfin : finished hs = []).
  { clear Hp Hsum Hperm Hts. remember (connection_new, w) as kw0 eqn:E0.
    induction Ht as [kw|hs h kw1 kw2 kw3 Ht IH Hs]; [done|]. subst kw1.
    destruct (conn_trace_ok _ _ _ ltac:(lia) Ht) as (Hp & Hsum & _).
    unfold finished in *. rewrite omap_app, IH by done. destruct Hs as [now next k1 w1|k1 w1|i packet k1 w1 Hi|]; try done.
    - unfold read_label. by repeat case_match.
    - cbn [fst] in *. apply lookup_lt_Some in Hi. lia. }
  split_and!; [done|done| |].
  - rewrite Hfin, Hts in Hperm. cbn in Hperm. unfold acquiring in *. destruct (reader k);
      [by apply Permutation_nil_r|by apply Permutation_singleton_r|by apply Permutation_nil_r].
  - intros Hne h kw' Hs. unfold acquiring in Hne. inversion Hs; subst; cbn.
    + unfold conn_read. by destruct (reader k).
    + unfold conn_acquire. destruct (reader k); try done. by rewrite bool_decide_false by lia.
    + rewrite Hts in *. done.
    + done.
Qed.
End Connection.

(** ** The listener: the connection semaphore *)

(** [conn_sem]'s permits ([None]: no cap), whether [listen] holds a permit for
    the connection it is about to accept, and the connections being served. *)
Record Listener : Type := mkListener {
  slots : option Z;
  offered : bool;
  live : list string;
}.

Section Listen.
Context {C : Crypto} {App : Type}.
Implicit Types (l : Listener) (s : WscallServer (App:=App)).

Definition listener_new (s : WscallServer (App:=App)) : Listener := mkListener (max_connections s) false [].

(** The head of the accept loop: a permit is acquired first, when capped. *)
Definition listen_acquire (l : Listener) : Listener :=
  if offered l then l
  else match slots l with
       | None => mkListener None true (live l)
       | Some n => if bool_decide (0 < n) then mkListener (Some (n - 1)) true (live l) else l
       end.

(** [accept] yields a stream; the permit moves into its task. *)
Definition listen_accept (id : string) (l : Listener) : Listener :=
  if offered l then mkListener (slots l) false (live l ++ [id]) else l.

(** The task of the [i]-th connection ends and drops its permit. *)
Definition listen_done (i : nat) (l : Listener) : Listener :=
  match live l !! i with
  | Some _ => mkListener ((fun n => n + 1) <$> slots l) (offered l) (delete i (live l))
  | None => l
  end.

Inductive ListenOp : Type := OpAcquire | OpAccept (id : string) | OpDone (i : nat).
Definition listen_op (op : ListenOp) (l : Listener) : Listener :=
  match op with
  | OpAcquire => listen_acquire l
  | OpAccept id => listen_accept id l
  | OpDone i => listen_done i l
  end.
Definition listen_run (ops : list ListenOp) (l : Listener) : Listener :=
  fold_left (fun l op => listen_op op l) ops l.

(** Every permit is free, offered or held by a connection. *)
Definition listener_ok (max : option Z) l : Prop :=
  match max, slots l with
  | Some m, Some n => 0 <= n /\ n + (if offered l then 1 else 0) + Z.of_nat (length (live l)) = m
  | None, None => True
  | _, _ => False
  end.

Lemma listen_op_ok max op l : listener_ok max l -> listener_ok max (listen_op op l).
Proof.
  unfold listener_ok. destruct max as [m|], l as [[n|] o lv]; cbn; try done.
  - destruct op as [|id|i]; cbn.
    + unfold listen_acquire. cbn. destruct o; cbn; [done|]. case_bool_decide; cbn; lia.
    + unfold listen_accept. destruct o; cbn; [|done]. rewrite length_app. cbn. lia.
    + unfold listen_done. cbn. destruct (lv !! i) as [x|] eqn:Hi; cbn; [|done].
      pose proof (length_delete lv i ltac:(eauto)). apply lookup_lt_Some in Hi. destruct o; lia.
  - destruct op; cbn; unfold listen_acquire, listen_accept, listen_done; cbn; by repeat case_match.
Qed.

(** The connection cap holds.  However connections arrive and end, a server
    with [with_max_connections(max)] never serves more than [max] at a time, and
    the permits are accounted for exactly, so a permit is free again once a
    connection has ended. *)
Theorem connections_capped s max ops :
  max_connections s = Some max -> 0 <= max ->
  let l := listen_run ops (listener_new s) in
  Z.of_nat (length (live l)) <= max
  /\ slots l = Some (max - (if offered l then 1 else 0) - Z.of_nat (length (live l))).
Proof.
  intros Hs Hm. cbv zeta.
  assert (Hok : listener_ok (Some max) (listen_run ops (listener_new s))).
  { assert (H0 : listener_ok (Some max) (listener_new s)) by (unfold listener_ok; cbn; rewrite Hs; lia).
    revert H0. generalize (listener_new s). induction ops as [|op ops IH]; intros l Hl; [done|].
    cbn. by apply IH, listen_op_ok. }
  unfold listener_ok in Hok. destruct (slots _) as [n|]; [|done].
  destruct (offered _); split; [lia|f_equal; lia|lia|f_equal; lia].
Qed.
End Listen.

(** ** Instances *)
Section Sample.
#[local] Existing Instances bit_json xor_x25519 prefix_sha256 plain_texts.

Lemma echo_tame : handlers_tame echo_server.
Proof.
  split; [constructor|]. split; [|split; [|split; [constructor|split; [constructor|split; [exact I|]]]]].
  - apply map_Forall_singleton. intros ctx w Hw. exact Hw.
  - apply map_Forall_singleton. intros ctx w Hw. exact Hw.
  - intros ctx w Hw. cbn. unfold check_secret. by case_bool_decide.
Qed.

Definition auth_world : World unit :=
  (connect echo_server "c1" peer1 0 EndOfStream (Received (MBinary auth_frame)) None None
     (server_init echo_server sample_entropy tt)).2.

Lemma server_reachable_ok_witness :
  rtc (server_step echo_server) (server_init echo_server sample_entropy tt) auth_world
  /\ (reader_step echo_server "c1" peer1 plaintext 0 (Received (MBinary echo_frame)) auth_world).1
     <> Panic.
Proof.
  assert (Hr : rtc (server_step echo_server) (server_init echo_server sample_entropy tt) auth_world).
  { apply rtc_once, (SConnect echo_server "c1" peer1 0 EndOfStream
      (Received (MBinary auth_frame)) None None). }
  split; [exact Hr|].
  apply (proj2 (proj2 (server_reachable_ok (JL:=bit_json_laws) echo_server sample_entropy tt
    auth_world echo_tame sample_entropy_ok Hr))).
Defined.




(** The same request on a server without permits. *)
Definition no_permits : WscallServer (App:=unit) := with_max_in_flight echo_server 0.
Definition stuck_1 := conn_read no_permits "c1" peer1 plaintext 0 (Received (MBinary echo_frame))
  (connection_new no_permits) sample_world.
Lemma zero_in_flight_deadlocks_witness :
  reader stuck_1.1 = Acquiring echo_envelope
  /\ forall h kw', conn_step no_permits "c1" peer1 plaintext h stuck_1 kw' -> kw'.1 = stuck_1.1.
Proof.
  assert (Hr : reader stuck_1.1 = Acquiring echo_envelope) by (vm_compute; reflexivity).
  assert (Ht : conn_trace no_permits "c1" peer1 plaintext [Accepted echo_envelope]
    (connection_new no_permits, sample_world) (stuck_1.1, stuck_1.2)).
  { apply (KSnoc _ _ _ _ [] (Accepted echo_envelope) _ (connection_new no_permits, sample_world)); [apply KNil|].
    assert (Hl : Accepted echo_envelope = read_label (connection_new no_permits) stuck_1.1)
      by (vm_compute; reflexivity).
    rewrite Hl, <- surjective_pairing. apply KRead. }
  split; [exact Hr|]. intros h kw' Hs.
  destruct (zero_in_flight_deadlocks no_permits "c1" peer1 plaintext _ _ _ _ eq_refl Ht) as (_ & _ & _ & Hst).
  apply (Hst ltac:(unfold acquiring; rewrite Hr; discriminate) h kw'). by rewrite <- surjective_pairing.
Defined.

Lemma connections_capped_witness :
  let l := listen_run [OpAcquire; OpAccept "a"; OpAcquire; OpAccept "b"]
             (listener_new (with_max_connections echo_server 1)) in
  live l = ["a"] /\ Z.of_nat (length (live l)) <= 1.
Proof.
  split; [reflexivity|].
  apply (connections_capped (with_max_connections echo_server 1) 1); [reflexivity|lia].
Defined.
End Sample.
