(* ===== verification/ServerThreads.v ===== *)
(** * The server at the granularity of its accesses to shared state

    In [ServerSystem] an operation of the server is one step.  The code's tasks
    interleave between any two accesses to the client table, the event counter
    and the outbound channels, and wait: for room in a full channel, for a permit,
    for a socket.  Here each of these is a step of its own ([served_step]):

    - [Queueing], [queue_access]: [queue_for], whose [send().await] waits while
      the channel is full;
    - [Push], [push_access]: [ServerHandle::broadcast_event] and [send_event_to].
      The iteration over the client table, which belongs to the library of the
      map, yields any entry that is in the table at that moment and may end at any
      time: which entries, how often and in which order is not assumed;
    - [Reader], [reader_access], [receive]: [serve_connection] from the
      notification of the handlers to the end of its teardown;
    - [Writer], [writer_take], [writer_socket]: the writer task, which holds one
      message while the socket accepts it;
    - [Task], [task_access]: a handler task, and a push by any task of the
      application.

    The setup of a connection up to its registration ([setup]) is one step, and so
    is the execution of a handler ([respond]) or of the lifecycle handlers: they
    act on the shared state through [ServerHandle] only ([handlers_push]). *)

From stdpp Require Import pretty.
From S2P Require Import Prelude Utf8 Json Protocol Texts Attachment PacketJson Codec RateLimiter.
From S2P Require Import Validation ServerTypes ServerRuntime ServerSystem.
#[local] Open Scope Z_scope.

(** [SERVER_CLOSE_GRACE]: 500 ms. *)
Definition SERVER_CLOSE_GRACE : Z := 500000000.

Section Data.
Context {C : Crypto}.

(** A task in [queue_for]: at the lookup, at the encoding, at [send().await]. *)
Inductive Queueing : Type :=
| QLookup (connection_id : string) (packet : PacketEnvelope)
| QEncode (key : string) (packet : PacketEnvelope)
| QSend (key : string) (m : ServerOutbound)
| QDone (r : result ServerError unit).

(** A task in [broadcast_event] (no target) or [send_event_to]. *)
Inductive Push : Type :=
| PFetch (h : ServerHandle) (target : option string) (name : string) (data : object_map)
    (atts : list FileAttachment)
| PLookup (h : ServerHandle) (target : string) (packet : PacketEnvelope)
| PEncode (h : ServerHandle) (key : option string) (packet : PacketEnvelope)
| PIter (m : ServerOutbound)
| PTry (key : string) (m : ServerOutbound)
| PDone (r : result ApiError unit).

(** [serve_connection] after its setup. *)
Inductive Reader : Type :=
| RConnected (auth : option object_map)
| RNotice (p : Push)
| RReading
| RReply (q : Queueing)
| RPong (payload : bytes)
| RAcquire (packet : PacketEnvelope)
| RClosing (r : result ServerError unit)
| ROffer (r : result ServerError unit)
| RGrace (r : result ServerError unit) (deadline : Z)
| RAbort (r : result ServerError unit)
| RNotify (r : result ServerError unit)
| RGone (r : result ServerError unit)
| RUnwound.

(** The writer task: not spawned yet, at its [select!], at a write, or over. *)
Inductive Writer : Type := WUnborn | WIdle | WWriting (m : Message) | WStopped.
Definition spawn_writer (wr : Writer) : Writer := match wr with WUnborn => WIdle | _ => wr end.

(** The tasks beside the connections. *)
Inductive Task : Type :=
| THandle (connection_id : string) (packet : PacketEnvelope)
| TReply (connection_id : string) (q : Queueing)
| TPush (p : Push).

End Data.

(** What an access reports: a message offered to a channel, and whether the
    channel took it. *)
Definition Report : Type := string * ServerOutbound * bool.

Section Threads.
Context {J : SerdeJson} {C : Crypto} {X : X25519} {H : Sha256} {TX : ErrorTexts} {App : Type}.
Abbreviation W := (World App).
Context (self : WscallServer (App:=App)).
Implicit Types (w : W).

(** ** Accesses *)

(** A live channel without room: [send().await] waits. *)
Definition no_room (key : string) w : bool :=
  match channels w !! key with
  | Some c => receiver c && bool_decide (SERVER_OUTBOUND_QUEUE_CAPACITY <= blen (queue c))
  | None => false
  end.

(** [queue_for], one access at a time. *)
Definition queue_access (q : Queueing) w : option (option Report * Queueing * W) :=
  match q with
  | QLookup connection_id packet =>
      Some (None,
            match clients (state w) !! connection_id with
            | None => QDone (Err (SApi (not_found "connection is closed")))
            | Some entry =>
                if is_ecdh self then QSend (sender entry) (Packet packet) else QEncode (sender entry) packet
            end, w)
  | QEncode key packet =>
      let '(r, w) := codec_encode (codec self) packet w in
      Some (None,
            match r with
            | Ok encoded => QSend key (PreEncoded encoded)
            | Err e => QDone (Err (SProtocol e))
            | Panic => QDone Panic
            end, w)
  | QSend key m =>
      if no_room key w then None
      else let '(r, w) := send key m w in
           Some (Some (key, m, is_ok r),
                 QDone (map_err (fun _ => SApi (internal "failed to queue outbound packet")) r), w)
  | QDone _ => None
  end.

(** [broadcast_event] and [send_event_to], one access at a time; [visit] is the
    entry that an iteration yields next, [None] at its end. *)
Definition push_access (p : Push) (visit : option string) w : option (option Report * Push * W) :=
  match p with
  | PFetch h target name data atts =>
      let '(r, w) := fresh_event_id w in
      Some (None,
            match r with
            | Ok event_id =>
                let packet := push_packet h event_id name data atts in
                match target with
                | Some connection_id => PLookup h connection_id packet
                | None => if handle_is_ecdh h then PIter (Packet packet) else PEncode h None packet
                end
            | Err e => PDone (Err e)
            | Panic => PDone Panic
            end, w)
  | PLookup h target packet =>
      Some (None,
            match clients (state w) !! target with
            | None => PDone (Err (not_found "target connection not found"))
            | Some entry =>
                if handle_is_ecdh h then PTry (sender entry) (Packet packet)
                else PEncode h (Some (sender entry)) packet
            end, w)
  | PEncode h key packet =>
      let '(r, w) := codec_encode (handle_codec h) packet w in
      Some (None,
            match r, key with
            | Ok encoded, None => PIter (PreEncoded encoded)
            | Ok encoded, Some key => PTry key (PreEncoded encoded)
            | Err _, None => PDone (Err (internal "failed to encode broadcast event"))
            | Err _, Some _ => PDone (Err (internal "failed to encode direct event"))
            | Panic, _ => PDone Panic
            end, w)
  | PIter m =>
      match visit with
      | Some k =>
          match clients (state w) !! k with
          | None => None
          | Some entry =>
              let '(r, w) := try_send (sender entry) m w in Some (Some (k, m, is_ok r), PIter m, w)
          end
      | None => Some (None, PDone (Ok tt), w)
      end
  | PTry key m =>
      let '(r, w) := try_send key m w in
      Some (Some (key, m, is_ok r), PDone (map_err (fun _ => internal "failed to queue direct event") r), w)
  | PDone _ => None
  end.

(** *** The reader *)

(** What the reader does with a binary message. *)
Inductive Decision : Type :=
| Refuse (answer : PacketEnvelope)
| Spawn (packet : PacketEnvelope)
| Skip.

Definition frame_error (code message : string) : Decision :=
  Refuse (frame_error_packet 0 code message (default_encryption self)).

Definition inspect (connection_id : string) (peer : SocketAddr) (reader_codec : FrameCodec)
    (now : Z) (bs : bytes) : M W ServerError Decision :=
  if bool_decide (blen bs < 5) then
    mret (frame_error "frame_too_short" "frame must be at least 5 bytes")
  else
    b0 ← lift (index bs 0);
    b1 ← lift (index bs 1);
    b2 ← lift (index bs 2);
    b3 ← lift (index bs 3);
    let declared := from_be_bytes b0 b1 b2 b3 in
    if bool_decide (server_max_frame_bytes self < declared \/ declared <> blen bs - 4) then
      mret (frame_error "frame_too_large"
        ("declared frame_len " +:+ pretty declared +:+ " is invalid (actual payload "
         +:+ pretty (blen bs - 4) +:+ ", limit " +:+ pretty (server_max_frame_bytes self) +:+ ")"))
    else if bool_decide (server_max_frame_bytes self < blen bs) then
      mret (frame_error "frame_too_large"
        ("frame size " +:+ pretty (blen bs) +:+ " exceeds limit " +:+ pretty (server_max_frame_bytes self)))
    else
      packet ← lift (map_err SProtocol (decode reader_codec bs));
      let data := is_data_message (env_body packet) in
      verdict ← (if data then check_limiter connection_id (fst peer) (blen bs) now else mret None);
      match verdict with
      | Some Limited | Some Banned =>
          mret (match refusal (default_encryption self) (env_body packet) with
                | Some answer => Refuse answer
                | None => Skip
                end)
      | Some Allowed | None => mret (if data then Spawn packet else Skip)
      end.

(** One message, or the end of the wait for it. *)
Definition receive (connection_id : string) (peer : SocketAddr) (reader_codec : FrameCodec)
    (now : Z) (next : Next) w : Reader * W :=
  match next with
  | TimedOut => (RClosing (Err (SIdleTimeout connection_id)), w)
  | EndOfStream => (RClosing (Ok tt), w)
  | StreamError e => (RClosing (Err (SWebSocket e)), w)
  | Received (MBinary bs) =>
      let '(r, w) := inspect connection_id peer reader_codec now bs w in
      (match r with
       | Ok (Refuse answer) => RReply (QLookup connection_id answer)
       | Ok (Spawn packet) => RAcquire packet
       | Ok Skip => RReading
       | Err e => RClosing (Err e)
       | Panic => RUnwound
       end, w)
  | Received MClose => (RClosing (Ok tt), w)
  | Received (MPing payload) => (RPong payload, w)
  | Received _ => (RReading, w)
  end.

Definition notice_push (connection_id : string) : Push :=
  PFetch (handle self) (Some connection_id) "system.notice"
    (<["message" := Str "connected"]> {["connection_id" := Str connection_id]}) [].

(** The reader's other accesses; it waits for input in [RReading], for a permit in
    [RAcquire]. *)
Definition reader_access (connection_id : string) (peer : SocketAddr) (clock : Z) (rd : Reader)
    (wr : Writer) w : option (Reader * Writer * W) :=
  match rd with
  | RConnected auth =>
      Some (RNotice (notice_push connection_id), spawn_writer wr,
            (notify_connected self connection_id (Some peer) auth w).2)
  | RNotice (PDone r) =>
      Some (match r with Ok _ => RReading | Err e => RClosing (Err (SApi e)) | Panic => RUnwound end, wr, w)
  | RNotice p =>
      '(_, p, w) ← push_access p None w;
      Some (RNotice p, wr, w)
  | RReply (QDone r) => Some (match r with Panic => RUnwound | _ => RReading end, wr, w)
  | RReply q =>
      '(_, q, w) ← queue_access q w;
      Some (RReply q, wr, w)
  | RPong payload =>
      if no_room connection_id w then None
      else let '(r, w) := send connection_id (Pong payload) w in
           Some (match r with Ok _ => RReading | _ => RClosing (Ok tt) end, wr, w)
  | RClosing r =>
      Some (ROffer r, wr,
            set_state w (mkServerState (delete connection_id (clients (state w))) (next_event_id (state w))))
  | ROffer r => Some (RGrace r (clock + SERVER_CLOSE_GRACE), wr, (ignore (F:=ServerError) (try_send connection_id Close) w).2)
  | RGrace r deadline =>
      match wr with
      | WStopped => Some (RAbort r, wr, w)
      | _ => if bool_decide (deadline <= clock) then Some (RAbort r, wr, w) else None
      end
  | RAbort r => Some (RNotify r, WStopped, drop_receiver connection_id w)
  | RNotify r =>
      Some (RGone r, wr, (notify_disconnected self connection_id (Some peer) (disconnect_reason r) w).2)
  | RReading | RAcquire _ | RGone _ | RUnwound => None
  end.

(** *** The writer task *)

(** [rx.recv()], and the encoding of a packet. *)
Definition writer_take (connection_id : string) (c : FrameCodec) w : option (ServerOutbound * Writer * W) :=
  match channels w !! connection_id with
  | Some (mkChannel (m :: rest) true) =>
      let w := set_channels w (<[connection_id := mkChannel rest true]> (channels w)) in
      Some (match m with
            | PreEncoded frame => (m, WWriting (MBinary frame), w)
            | Packet packet =>
                let '(r, w) := codec_encode c packet w in
                match r with
                | Ok encoded => (m, WWriting (MBinary encoded), w)
                | _ => (m, WStopped, drop_receiver connection_id w)
                end
            | Pong payload => (m, WWriting (MPong payload), w)
            | Close => (m, WWriting MClose, w)
            end)
  | _ => None
  end.

(** The end of a write. *)
Definition writer_socket (connection_id : string) (m : Message) (failure : option string) w : Writer * W :=
  match ws_send connection_id m failure w, m with
  | (Ok _, w), MClose => (WStopped, drop_receiver connection_id w)
  | (Ok _, w), _ => (WIdle, w)
  | (_, w), _ => (WStopped, drop_receiver connection_id w)
  end.

(** *** Handler tasks *)

(** [process_packet] without its [queue_for]. *)
Definition respond (connection_id : string) (peer : SocketAddr) (packet : PacketEnvelope) :
    M W ServerError (option PacketEnvelope) :=
  match env_body packet with
  | ApiRequest request_id route params attachments metadata =>
      response ← run_api_request self connection_id (Some peer)
                   (mkApiRequestInput request_id route params attachments metadata);
      mret (Some response)
  | EventEmit event_id name data attachments metadata _ =>
      ack ← run_event self connection_id (Some peer)
              (mkEventEmitInput event_id name data attachments metadata);
      mret (Some ack)
  | _ => mret None
  end.

Definition task_access (peer : SocketAddr) (visit : option string) (k : Task) w :
    option (option Report * Task * W) :=
  match k with
  | THandle connection_id packet =>
      let '(r, w) := respond connection_id peer packet w in
      Some (None, TReply connection_id (match r with
                                        | Ok (Some answer) => QLookup connection_id answer
                                        | Ok None => QDone (Ok tt)
                                        | Err e => QDone (Err e)
                                        | Panic => QDone Panic
                                        end), w)
  | TReply connection_id q =>
      '(rep, q, w) ← queue_access q w;
      Some (rep, TReply connection_id q, w)
  | TPush p =>
      '(rep, p, w) ← push_access p visit w;
      Some (rep, TPush p, w)
  end.
(** ** Setup *)

(** [serve_connection] up to the registration, and the identity it ends with. *)
Definition setup (connection_id : string) (peer : SocketAddr) (now : Z)
    (hello auth : Next) (hello_failure auth_failure : option string) :
    M W ServerError (option (Session * option object_map)) :=
  banned ← refuse_banned peer now;
  if (banned : bool) then mret None
  else
    c ← session_codec self connection_id hello hello_failure;
    '(timeout, ctx) ← auth_phase self connection_id peer c auth auth_failure;
    register connection_id timeout ctx ;;
    mret (Some (mkSession c (default SERVER_IDLE_TIMEOUT timeout), ctx)).

(** ** The interleaving *)

(** A connection: the free permits of its semaphore, its reader and its writer.
    [greeting] and [taken] record what its setup wrote and the messages that the
    writer has received. *)
Record Peer : Type := mkPeer {
  addr : SocketAddr;
  session : FrameCodec;
  slots : Z;
  at_reader : Reader;
  at_writer : Writer;
  greeting : list Message;
  taken : list ServerOutbound;
}.
Definition set_reader (k : Peer) (rd : Reader) : Peer :=
  mkPeer (addr k) (session k) (slots k) rd (at_writer k) (greeting k) (taken k).
Definition set_writer (k : Peer) (wr : Writer) : Peer :=
  mkPeer (addr k) (session k) (slots k) (at_reader k) wr (greeting k) (taken k).
Definition set_slots (k : Peer) (n : Z) : Peer :=
  mkPeer (addr k) (session k) n (at_reader k) (at_writer k) (greeting k) (taken k).
Definition take_message (k : Peer) (m : ServerOutbound) (wr : Writer) : Peer :=
  mkPeer (addr k) (session k) (slots k) (at_reader k) wr (greeting k) (taken k ++ [m]).

(** Messages on the wire of a connection. *)
Definition wire_of (connection_id : string) w : list Message :=
  omap (fun e => if bool_decide (e.1 = connection_id) then Some e.2 else None) (wire w).

Record Served : Type := mkServed {
  world : W;
  peers : gmap string Peer;
  jobs : gmap nat Task;
  spawned : nat;
  clock : Z;
}.

(** A step reports what a task offers to a channel. *)
Definition Label : Type := option (nat * Report).

(** Tasks are numbered as they are spawned. *)

(** Everything else: connections turned away in their setup, the cleanup of the
    limiter, the application's own state. *)
Definition aside (ps : gmap string Peer) w w' : Prop :=
  state w' = state w /\ channels w' = channels w
  /\ forall id, is_Some (ps !! id) -> wire_of id w' = wire_of id w.

Definition task_peer (k : Task) : option string :=
  match k with THandle id _ | TReply id _ => Some id | TPush _ => None end.

Inductive served_step : Label -> Served -> Served -> Prop :=
| VSetup id peer now hello auth f1 f2 ses ctx w w' ps js n c :
    ps !! id = None -> channels w !! id = None ->
    setup id peer now hello auth f1 f2 w = (Ok (Some (ses, ctx)), w') ->
    served_step None (mkServed w ps js n c)
      (mkServed w' (<[id := mkPeer peer (ses_codec ses) (max_in_flight self) (RConnected ctx) WUnborn
                              (wire_of id w') []]> ps) js n c)
| VReader id k rd wr w w' ps js n c :
    ps !! id = Some k ->
    reader_access id (addr k) c (at_reader k) (at_writer k) w = Some (rd, wr, w') ->
    served_step None (mkServed w ps js n c) (mkServed w' (<[id := set_writer (set_reader k rd) wr]> ps) js n c)
| VInput id k now next rd w w' ps js n c :
    ps !! id = Some k -> at_reader k = RReading ->
    receive id (addr k) (session k) now next w = (rd, w') ->
    served_step None (mkServed w ps js n c) (mkServed w' (<[id := set_reader k rd]> ps) js n c)
| VAcquire id k packet w ps js n c :
    ps !! id = Some k -> at_reader k = RAcquire packet -> 0 < slots k ->
    served_step None (mkServed w ps js n c)
      (mkServed w (<[id := set_slots (set_reader k RReading) (slots k - 1)]> ps) (<[n := THandle id packet]> js) (S n) c)
| VTake id k m wr w w' ps js n c :
    ps !! id = Some k -> at_writer k = WIdle -> writer_take id (session k) w = Some (m, wr, w') ->
    served_step None (mkServed w ps js n c) (mkServed w' (<[id := take_message k m wr]> ps) js n c)
| VBeat id k w ps js n c :
    ps !! id = Some k -> at_writer k = WIdle ->
    served_step None (mkServed w ps js n c) (mkServed w (<[id := set_writer k (WWriting (MPing []))]> ps) js n c)
| VSocket id k m failure wr w w' ps js n c :
    ps !! id = Some k -> at_writer k = WWriting m -> writer_socket id m failure w = (wr, w') ->
    served_step None (mkServed w ps js n c) (mkServed w' (<[id := set_writer k wr]> ps) js n c)
| VTask t a k k' rep visit w w' ps js n c :
    js !! t = Some k ->
    match task_peer k with Some id => addr <$> ps !! id = Some a | None => True end ->
    task_access a visit k w = Some (rep, k', w') ->
    served_step ((fun r => (t, r)) <$> rep) (mkServed w ps js n c) (mkServed w' ps (<[t := k']> js) n c)
| VReplied t id k r w ps js n c :
    js !! t = Some (TReply id (QDone r)) -> ps !! id = Some k ->
    served_step None (mkServed w ps js n c)
      (mkServed w (<[id := set_slots k (slots k + 1)]> ps) (delete t js) n c)
| VPushed t r w ps js n c :
    js !! t = Some (TPush (PDone r)) ->
    served_step None (mkServed w ps js n c) (mkServed w ps (delete t js) n c)
| VPush target name data atts w ps js n c :
    served_step None (mkServed w ps js n c)
      (mkServed w ps (<[n := TPush (PFetch (handle self) target name data atts)]> js) (S n) c)
| VTick c' w ps js n c : c <= c' -> served_step None (mkServed w ps js n c) (mkServed w ps js n c')
| VAside w w' ps js n c : aside ps w w' -> served_step None (mkServed w ps js n c) (mkServed w' ps js n c).

(** The state [listen] starts from. *)
Definition served_init (ent : nat -> Z -> result string bytes) (a : App) (t0 : Z) : Served :=
  mkServed (ServerSystem.server_init self ent a) ∅ ∅ 0 t0.

Definition any_step (f f' : Served) : Prop := exists l, served_step l f f'.
Inductive served_trace : list Label -> Served -> Served -> Prop :=
| VNil f : served_trace [] f f
| VSnoc ls l f1 f2 f3 : served_trace ls f1 f2 -> served_step l f2 f3 -> served_trace (ls ++ [l]) f1 f3.
End Threads.

(** ** What the accesses change *)
Section Effects.
Context {J : SerdeJson} {C : Crypto} {X : X25519} {H : Sha256} {TX : ErrorTexts} {App : Type}.
Abbreviation W := (World App).
Context (self : WscallServer (App:=App)).
Implicit Types (w : W).

(** A channel has at most accepted further messages, within its capacity. *)
Definition grown (c c' : Channel) : Prop :=
  exists ext, c' = mkChannel (queue c ++ ext) (receiver c) /\ (receiver c = false -> ext = [])
  /\ (blen (queue c) <= SERVER_OUTBOUND_QUEUE_CAPACITY -> blen (queue c ++ ext) <= SERVER_OUTBOUND_QUEUE_CAPACITY).

#[local] Instance grown_preorder : PreOrder grown.
Proof.
  split.
  - intros c. exists []. rewrite app_nil_r. by destruct c.
  - intros c1 c2 c3 (e1 & -> & Hd1 & Hc1) (e2 & -> & Hd2 & Hc2). cbn [queue receiver] in *. exists (e1 ++ e2).
    rewrite app_assoc. split_and!; [done| |auto]. intros Hr. by rewrite Hd1, Hd2.
Qed.

(** Messages are appended to channels; the table and the sockets stay as they
    are. *)
Definition grows w w' : Prop :=
  clients (state w') = clients (state w) /\ wire w' = wire w
  /\ forall key, option_Forall2 grown (channels w !! key) (channels w' !! key).

#[local] Instance grows_preorder : PreOrder grows.
Proof.
  split.
  - intros w. split_and!; [done..|]. intros key. destruct (channels w !! key); by constructor.
  - intros w1 w2 w3 (Hc1 & Hw1 & H1) (Hc2 & Hw2 & H2). split_and!; [congruence..|]. intros key.
    specialize (H1 key). specialize (H2 key). destruct H1 as [c1 c2 H1|]; inversion_clear H2; constructor. by etransitivity.
Qed.

Lemma grows_insert w key c c' : channels w !! key = Some c -> grown c c' ->
  grows w (set_channels w (<[key := c']> (channels w))).
Proof.
  intros Hc Hg. split_and!; [done..|]. intros k. cbn [channels set_channels]. destruct (decide (k = key)) as [->|Hne].
  - rewrite Hc, lookup_insert_eq. by constructor.
  - rewrite lookup_insert_ne by done. destruct (channels w !! k); by constructor.
Qed.
Lemma grows_channels w w' : clients (state w') = clients (state w) -> wire w' = wire w -> channels w' = channels w -> grows w w'.
Proof. intros ? ? Hc. split_and!; [done..|]. intros key. rewrite Hc. destruct (channels w !! key); by constructor. Qed.

Lemma blen_snoc {A} (l : list A) x : blen (l ++ [x]) = blen l + 1.
Proof. unfold blen. rewrite length_app. cbn. lia. Qed.

Lemma grows_try_send key m w : grows w (try_send key m w).2.
Proof.
  unfold try_send. destruct (channels w !! key) as [[q r]|] eqn:Hc; [|done]. cbn. unfold chan_try_send. cbn.
  destruct r; [|done]. case_bool_decide; [|done]. cbn. eapply grows_insert; [done|]. exists [m].
  split_and!; [done|done|]. intros _. cbn [queue]. rewrite blen_snoc. lia.
Qed.
Lemma grows_send key m w : no_room key w = false -> grows w (send key m w).2.
Proof.
  unfold no_room, send. destruct (channels w !! key) as [[q r]|] eqn:Hc; [|done]. cbn [receiver queue].
  destruct r; [|done]. cbn [andb]. intros Hs%bool_decide_eq_false_1. eapply grows_insert; [done|]. exists [m].
  split_and!; [done|done|]. intros _. cbn [queue]. rewrite blen_snoc. lia.
Qed.

Lemma preserves_grows {E A} (m : M W E A) w0 : (forall w, grows w (m w).2) -> preserves (grows w0) m.
Proof. intros Hm w Hw. by etransitivity. Qed.

Lemma grows_codec_encode c p w : grows w (codec_encode c p w).2.
Proof. by apply grows_channels. Qed.
Lemma grows_fresh w : grows w (fresh_event_id w).2.
Proof. by apply grows_channels. Qed.

(** The operations of [ServerHandle]. *)
Lemma grows_broadcast h name data atts w : grows w (broadcast_event h name data atts w).2.
Proof.
  assert (Hall : forall entries m, preserves (grows w) (send_to_all (App:=App) entries m)).
  { induction entries as [|[id e] entries IH]; intros m; cbn [send_to_all]; [preserve|].
    apply preserves_bind; [|intros _; apply IH]. apply preserves_ignore, preserves_grows. intros. apply grows_try_send. }
  enough (preserves (grows w) (broadcast_event (App:=App) h name data atts)) as Hb by by apply Hb.
  pose proof (fun c p => preserves_grows _ w (grows_codec_encode c p)).
  pose proof (preserves_grows _ w grows_fresh). unfold broadcast_event. preserve.
Qed.
Lemma grows_send_event_to h id name data atts w : grows w (send_event_to h id name data atts w).2.
Proof.
  enough (preserves (grows w) (send_event_to (App:=App) h id name data atts)) as Hb by by apply Hb.
  pose proof (fun c p => preserves_grows _ w (grows_codec_encode c p)).
  pose proof (fun key m => preserves_grows _ w (grows_try_send key m)).
  pose proof (preserves_grows _ w grows_fresh). unfold send_event_to. preserve.
Qed.

Lemma grows_queue_access q w rep q' w' : queue_access self q w = Some (rep, q', w') -> grows w w'.
Proof.
  destruct q as [id p|key p|key m|r]; cbn [queue_access]; [| | |done].
  - by intros [= <- <- <-].
  - intros [= <- <- <-]. by apply grows_channels.
  - destruct (no_room key w) eqn:Hs; [done|]. pose proof (grows_send key m w Hs) as Hg.
    destruct (send key m w) as [r w1]. by intros [= <- <- <-].
Qed.
Lemma grows_push_access p visit w rep p' w' : push_access p visit w = Some (rep, p', w') -> grows w w'.
Proof.
  destruct p as [h tgt name data atts|h tgt p|h key p|m|key m|r]; cbn [push_access].
  - intros [= <- <- <-]. by apply grows_channels.
  - by intros [= <- <- <-].
  - intros [= <- <- <-]. by apply grows_channels.
  - destruct visit as [k|]; [|by intros [= <- <- <-]].
    destruct (clients (state w) !! k) as [e|]; [|done]. pose proof (grows_try_send (sender e) m w) as Hg.
    destruct (try_send (sender e) m w) as [r w1]. by intros [= <- <- <-].
  - pose proof (grows_try_send key m w) as Hg. destruct (try_send key m w) as [r w1]. by intros [= <- <- <-].
  - done.
Qed.

(** Handlers act on the table and the channels through [ServerHandle] only. *)
Definition handlers_push : Prop := forall w, handlers_keep self (grows w).

Section Handlers.
Context (Hh : handlers_push).

Lemma grows_notify {Ctx} (hs : list (Ctx -> M W Empty_set unit)) ctx w :
  (forall w, Forall (keeps (grows w)) hs) -> grows w (notify_all hs ctx w).2.
Proof. intros Hk. by apply (keeps_notify (grows w)). Qed.
Lemma grows_connected id peer auth w : grows w (notify_connected self id peer auth w).2.
Proof. apply grows_notify. intros w0. by destruct (Hh w0) as (_ & _ & _ & ? & _). Qed.
Lemma grows_disconnected id peer reason w : grows w (notify_disconnected self id peer reason w).2.
Proof. apply grows_notify. intros w0. by destruct (Hh w0) as (_ & _ & _ & _ & ? & _). Qed.
Lemma grows_respond id peer p w : grows w (respond self id peer p w).2.
Proof.
  enough (preserves (grows w) (respond self id peer p)) as Hb by by apply Hb.
  pose proof (fun E conn peer req => keeps_run_api_request (E:=E) self (grows w) (Hh w) conn peer req) as Ha.
  pose proof (fun E conn peer ev => keeps_run_event (E:=E) self (grows w) (Hh w) conn peer ev) as He.
  unfold respond. destruct (env_body p); try preserve; (apply preserves_bind; [by auto|intros ?; preserve]).
Qed.
Lemma grows_task a visit k w rep k' w' : task_access self a visit k w = Some (rep, k', w') -> grows w w'.
Proof.
  destruct k as [id p|id q|p]; cbn [task_access].
  - pose proof (grows_respond id a p w) as Hg. destruct (respond self id a p w) as [r w1]. by intros [= <- <- <-].
  - destruct (queue_access self q w) as [[[rp q1] w1]|] eqn:Hq; [|done]. intros [= <- <- <-]. by eapply grows_queue_access.
  - destruct (push_access p visit w) as [[[rp p1] w1]|] eqn:Hq; [|done]. intros [= <- <- <-]. by eapply grows_push_access.
Qed.
End Handlers.

Lemma check_limiter_grows {E} id ip len now w : grows w (check_limiter (E:=E) id ip len now w).2.
Proof. unfold check_limiter. destruct (limiter w); [|done]. destruct (check_and_record _ _ _ _ _). by apply grows_channels. Qed.
Lemma grows_receive id peer rc now next w rd w' : receive self id peer rc now next w = (rd, w') -> grows w w'.
Proof.
  destruct next as [| | |m]; cbn [receive]; try (by intros [= <- <-]). destruct m as [bs| | | | |]; try (by intros [= <- <-]).
  enough (preserves (grows w) (inspect self id peer rc now bs)) as Hb.
  { specialize (Hb w ltac:(done)). destruct (inspect self id peer rc now bs w). by intros [= <- <-]. }
  pose proof (fun E ip len now => preserves_grows _ w (check_limiter_grows (E:=E) id ip len now)).
  unfold inspect. preserve.
Qed.
End Effects.
#[export] Existing Instances grown_preorder grows_preorder.

(** ** Setup *)
Section Setup.
Context {J : SerdeJson} {C : Crypto} {X : X25519} {H : Sha256} {TX : ErrorTexts} {App : Type}.
Abbreviation W := (World App).
Context (self : WscallServer (App:=App)).
Implicit Types (w : W).

(** As [grows], and the connection's socket is written to. *)
Definition greets (id : string) w w' : Prop :=
  clients (state w') = clients (state w) /\ (exists ms, wire w' = wire w ++ map (pair id) ms)
  /\ forall key, option_Forall2 grown (channels w !! key) (channels w' !! key).

Lemma greets_refl id w : greets id w w.
Proof.
  split_and!; [done|by exists []; rewrite app_nil_r|]. by destruct (ltac:(reflexivity) : grows w w) as (_ & _ & ?).
Qed.
Lemma greets_trans id w1 w2 w3 : greets id w1 w2 -> greets id w2 w3 -> greets id w1 w3.
Proof.
  intros (Hc1 & (m1 & Hw1) & H1) (Hc2 & (m2 & Hw2) & H2). split_and!; [congruence| |].
  - exists (m1 ++ m2). by rewrite Hw2, Hw1, map_app, app_assoc.
  - intros key. specialize (H1 key). specialize (H2 key). destruct H1; inversion_clear H2; constructor. by etransitivity.
Qed.
Lemma grows_greets id w w' : grows w w' -> greets id w w'.
Proof. intros (Hc & Hw & Hk). split_and!; [done|exists []; by rewrite app_nil_r|done]. Qed.

Lemma preserves_greets {E A} (m : M W E A) id w0 : (forall w, greets id w (m w).2) -> preserves (greets id w0) m.
Proof. intros Hm w Hw. by eapply greets_trans. Qed.

Lemma greets_ws_send id m f w : greets id w (ws_send id m f w).2.
Proof.
  destruct f; [apply greets_refl|]. cbn. split_and!; [done|by exists [m]|].
  by destruct (ltac:(reflexivity) : grows w w) as (_ & _ & ?).
Qed.

Definition registered (id : string) (timeout : option Z) (auth : option object_map) w : W :=
  (register (App:=App) id timeout auth w).2.

(** A connection that gets through its setup has been registered last. *)
Lemma setup_registers id peer now hello auth f1 f2 ses ctx w w' : handlers_push self ->
  setup self id peer now hello auth f1 f2 w = (Ok (Some (ses, ctx)), w') ->
  exists w1 timeout, greets id w w1 /\ w' = registered id timeout ctx w1.
Proof.
  intros Hh Hs. unfold setup in Hs.
  pose proof (fun m f => preserves_greets _ id w (greets_ws_send id m f)) as Hsend.
  pose proof (fun c p => preserves_greets _ id w (fun w => grows_greets id _ _ (grows_codec_encode (App:=App) c p w))).
  assert (Hban : forall w, grows w (refuse_banned (App:=App) peer now w).2).
  { intros w0. unfold refuse_banned. destruct (limiter w0); [|done]. destruct (is_ip_banned _ _ _). by apply grows_channels. }
  apply m_bind_Ok in Hs as (b & w1 & H1 & Hs). specialize (Hban w). rewrite H1 in Hban. destruct b; [done|].
  apply m_bind_Ok in Hs as (c & w2 & H2 & Hs).
  assert (Hg2 : greets id w w2).
  { assert (Hp : preserves (greets id w) (session_codec self id hello f1)).
    { unfold session_codec, perform_ecdh_handshake.
      assert (forall E (f : W -> result E EcdhKeypair), preserves (greets id w) (fun w => (f w, set_drawn w (S (drawn w))))).
      { intros E f w0 Hw0. eapply greets_trans; [exact Hw0|]. by apply grows_greets, grows_channels. }
      preserve. }
    specialize (Hp w1 (grows_greets id _ _ Hban)). by rewrite H2 in Hp. }
  apply m_bind_Ok in Hs as ([timeout ctx'] & w3 & H3 & Hs).
  assert (Hg3 : greets id w w3).
  { assert (Hp : preserves (greets id w) (auth_phase self id peer c auth f2)).
    { unfold auth_phase. destruct (auth_handler self) as [h|] eqn:Ha; [|preserve].
      do 3 (apply preserves_bind; [preserve|intros ?]).
      apply preserves_bind; [apply preserves_catch|intros ?; preserve].
      apply preserves_greets. intros w0. apply grows_greets.
      destruct (Hh w0) as (_ & _ & _ & _ & _ & _ & Hx). rewrite Ha in Hx. by apply Hx. }
    specialize (Hp w2 Hg2). by rewrite H3 in Hp. }
  exists w3, timeout. apply m_bind_Ok in Hs as ([] & w4 & H4 & Hs). split; [done|].
  injection Hs as <- <- <-. unfold registered. by rewrite H4.
Qed.
End Setup.

(** ** The invariant *)
Definition is_open {C : Crypto} (rd : Reader) : bool :=
  match rd with ROffer _ | RGrace _ _ | RAbort _ | RNotify _ | RGone _ => false | _ => true end.
Definition is_over {C : Crypto} (rd : Reader) : bool :=
  match rd with RNotify _ | RGone _ => true | _ => false end.
Definition is_stopped (wr : Writer) : bool := match wr with WStopped => true | _ => false end.

(** A reply of a connection goes to its own channel. *)
Definition addressed (id : string) (q : Queueing) : Prop :=
  match q with QLookup key _ | QEncode key _ | QSend key _ => key = id | QDone _ => True end.
Definition task_addressed {C : Crypto} (k : Task) : Prop :=
  match k with TReply id q => addressed id q | _ => True end.

(** The handler tasks of a connection. *)
Definition running {C : Crypto} (id : string) (js : gmap nat Task) : Z :=
  Z.of_nat (size (base.filter (fun tk : nat * Task => task_peer tk.2 = Some id) js)).

Section Running.
Context {C : Crypto}.
Implicit Types (js : gmap nat Task) (k : Task).

Lemma running_insert id js t k : js !! t = None ->
  running id (<[t := k]> js) = running id js + (if bool_decide (task_peer k = Some id) then 1 else 0).
Proof.
  intros Ht. unfold running. case_bool_decide as Hk.
  - rewrite map_filter_insert_True, map_size_insert_None by (done || by apply map_lookup_filter_None; left). lia.
  - rewrite map_filter_insert_False, delete_id by done. lia.
Qed.
Lemma running_delete id js t k : js !! t = Some k ->
  running id (delete t js) = running id js - (if bool_decide (task_peer k = Some id) then 1 else 0).
Proof.
  intros Ht. rewrite <- (insert_delete_id js t k Ht) at 2. rewrite running_insert by apply lookup_delete_eq. lia.
Qed.
Lemma running_replace id js t k k' : js !! t = Some k -> task_peer k' = task_peer k ->
  running id (<[t := k']> js) = running id js.
Proof.
  intros Ht Hp. rewrite <- insert_delete_eq, running_insert by apply lookup_delete_eq.
  rewrite (running_delete id js t k Ht), Hp. lia.
Qed.
Lemma running_nonneg id js : 0 <= running id js.
Proof. unfold running. lia. Qed.
End Running.

Section Invariant.
Context {J : SerdeJson} {C : Crypto} {X : X25519} {H : Sha256} {TX : ErrorTexts} {App : Type}.
Abbreviation W := (World App).
Context (self : WscallServer (App:=App)).
Implicit Types (w : W) (ps : gmap string Peer) (js : gmap nat Task) (k : Peer).

(** A connection is in the client table until its teardown removes it; a channel
    lives as long as its writer and never holds more than its capacity. *)
Record table_inv w ps : Prop := {
  ti_wf : clients_wf w;
  ti_open id : is_Some (clients (state w) !! id) <-> exists k, ps !! id = Some k /\ is_open (at_reader k) = true;
  ti_channel id : is_Some (channels w !! id) <-> is_Some (ps !! id);
  ti_live id k c : ps !! id = Some k -> channels w !! id = Some c -> receiver c = negb (is_stopped (at_writer k));
  ti_room id c : channels w !! id = Some c -> blen (queue c) <= SERVER_OUTBOUND_QUEUE_CAPACITY;
}.

(** Permits are accounted for, replies are addressed to their own connection, the
    writer has stopped when the teardown is over. *)
Record tasks_inv ps js : Prop := {
  ki_slots id k : ps !! id = Some k -> slots k + running id js = max_in_flight self;
  ki_free id k : ps !! id = Some k -> 0 <= slots k \/ max_in_flight self < 0;
  ki_peer t j id : js !! t = Some j -> task_peer j = Some id -> is_Some (ps !! id);
  ki_addressed t j : js !! t = Some j -> task_addressed j;
  ki_reply id k q : ps !! id = Some k -> at_reader k = RReply q -> addressed id q;
  ki_over id k : ps !! id = Some k -> is_over (at_reader k) = true -> at_writer k = WStopped;
}.

Lemma table_greets i0 w w' ps : greets i0 w w' -> table_inv w ps -> table_inv w' ps.
Proof.
  intros (Hc & _ & Hk) [Hwf Hopen Hch Hlive Hroom]. split.
  - intros id e Hl. rewrite Hc in Hl. by apply Hwf.
  - intros id. rewrite Hc. apply Hopen.
  - intros id. rewrite <- Hch. destruct (Hk id); split; by intros [? [=]]; eauto.
  - intros id k c Hp Hl. specialize (Hk id). rewrite Hl in Hk. inversion Hk as [c0 c1 (ext & -> & _) Heq|]; subst.
    by apply (Hlive id k c0).
  - intros id c Hl. specialize (Hk id). rewrite Hl in Hk. inversion Hk as [c0 c1 (ext & -> & _ & Hcap) Heq|]; subst.
    by apply Hcap, (Hroom id).
Qed.

Lemma table_grows w w' ps : grows w w' -> table_inv w ps -> table_inv w' ps.
Proof. intros Hg. by apply (table_greets "any"), grows_greets. Qed.

Lemma open_insert ps id k k' i : ps !! id = Some k -> is_open (at_reader k') = is_open (at_reader k) ->
  (exists k0, <[id := k']> ps !! i = Some k0 /\ is_open (at_reader k0) = true)
  <-> exists k0, ps !! i = Some k0 /\ is_open (at_reader k0) = true.
Proof.
  intros Hk Ho. destruct (decide (i = id)) as [->|Hne]; [|by rewrite lookup_insert_ne].
  rewrite lookup_insert_eq, Hk. split; intros (k0 & [= <-] & H0); [exists k|exists k']; by rewrite ?Ho in *.
Qed.

(** A connection whose place in the table and whose channel stay as they are. *)
Lemma table_peer w ps id k k' : ps !! id = Some k -> is_open (at_reader k') = is_open (at_reader k) ->
  is_stopped (at_writer k') = is_stopped (at_writer k) -> table_inv w ps -> table_inv w (<[id := k']> ps).
Proof.
  intros Hk Ho Hs [Hwf Hopen Hch Hlive Hroom]. split; try done.
  - intros i. by rewrite Hopen, (open_insert ps id k k').
  - intros i. rewrite Hch, lookup_insert_is_Some'. split; [by right|]. intros [->|?]; [by eauto|done].
  - intros i k0 c [[<- <-]|[_ H0]]%lookup_insert_Some Hc; [rewrite Hs; by eapply Hlive|by eapply Hlive].
Qed.

Lemma tasks_peer ps js id k k' : ps !! id = Some k -> slots k' = slots k ->
  (forall q, at_reader k' = RReply q -> addressed id q) -> (is_over (at_reader k') = true -> at_writer k' = WStopped) ->
  tasks_inv ps js -> tasks_inv (<[id := k']> ps) js.
Proof.
  intros Hk Hs Hq Ho [Hslots Hfree Hpeer Hadd Hrep Hover]. split; try done.
  - intros i k0 [[<- <-]|[_ H0]]%lookup_insert_Some; [rewrite Hs; by apply Hslots|by apply Hslots].
  - intros i k0 [[<- <-]|[_ H0]]%lookup_insert_Some; [rewrite Hs; by eapply Hfree|by eapply Hfree].
  - intros t j i Ht Hj. apply lookup_insert_is_Some'. right. by eapply Hpeer.
  - intros i k0 q [[<- <-]|[_ H0]]%lookup_insert_Some Hq0; [by apply Hq|by eapply Hrep].
  - intros i k0 [[<- <-]|[_ H0]]%lookup_insert_Some; [done|by eapply Hover].
Qed.

(** A task that moves on. *)
Lemma tasks_task ps js t j j' : js !! t = Some j -> task_peer j' = task_peer j -> task_addressed j' ->
  tasks_inv ps js -> tasks_inv ps (<[t := j']> js).
Proof.
  intros Ht Hp Ha [Hslots Hfree Hpeer Hadd Hrep Hover]. split; try done.
  - intros id k Hk. rewrite (running_replace id js t j j') by done. by apply Hslots.
  - intros t0 j0 id [[<- <-]|[_ H0]]%lookup_insert_Some; [rewrite Hp; by eapply Hpeer|by eapply Hpeer].
  - intros t0 j0 [[<- <-]|[_ H0]]%lookup_insert_Some; [done|by eapply Hadd].
Qed.

Lemma tasks_insert ps js id k : ps !! id = None -> slots k = max_in_flight self ->
  (forall q, at_reader k <> RReply q) -> is_over (at_reader k) = false ->
  tasks_inv ps js -> tasks_inv (<[id := k]> ps) js.
Proof.
  intros Hid Hs Hq Ho [Hslots Hfree Hpeer Hadd Hrep Hover].
  assert (Hzero : running id js = 0).
  { unfold running. rewrite (proj2 (map_empty_filter _ js)); [done|]. intros t j Ht Hj. cbn in Hj.
    destruct (Hpeer _ _ _ Ht Hj) as [? ?]. congruence. }
  split.
  - intros i k0 [[<- <-]|[_ H0]]%lookup_insert_Some; [lia|by apply Hslots].
  - intros i k0 [[<- <-]|[_ H0]]%lookup_insert_Some; [lia|by eapply Hfree].
  - intros t j i Ht Hj. apply lookup_insert_is_Some'. right. by eapply Hpeer.
  - done.
  - intros i k0 q [[<- <-]|[_ H0]]%lookup_insert_Some Hq0; [by destruct (Hq q)|by eapply Hrep].
  - intros i k0 [[<- <-]|[_ H0]]%lookup_insert_Some; [congruence|by eapply Hover].
Qed.

(** A permit is taken by a new task, and given back. *)
Lemma tasks_spawn ps js id k rd t packet : ps !! id = Some k -> 0 < slots k -> js !! t = None ->
  (forall q, rd <> RReply q) -> is_over rd = false -> tasks_inv ps js ->
  tasks_inv (<[id := set_slots (set_reader k rd) (slots k - 1)]> ps) (<[t := THandle id packet]> js).
Proof.
  intros Hk Hfree0 Ht Hq Ho [Hslots Hfree Hpeer Hadd Hrep Hover]. split.
  - intros i k0 Hl. rewrite running_insert by done. cbn [task_peer].
    apply lookup_insert_Some in Hl as [[<- <-]|[Hne H0]]; [rewrite bool_decide_true by done|rewrite bool_decide_false by congruence].
    + cbn [slots set_slots]. specialize (Hslots _ _ Hk). lia.
    + specialize (Hslots _ _ H0). lia.
  - intros i k0 [[<- <-]|[_ H0]]%lookup_insert_Some; [cbn; lia|by eapply Hfree].
  - intros t0 j i Hl Hj. apply lookup_insert_is_Some'. apply lookup_insert_Some in Hl as [[<- <-]|[_ H0]]; [|right; by eapply Hpeer].
    injection Hj as ->. by left.
  - intros t0 j [[<- <-]|[_ H0]]%lookup_insert_Some; [done|by eapply Hadd].
  - intros i k0 q [[<- <-]|[_ H0]]%lookup_insert_Some Hq0; [by destruct (Hq q)|by eapply Hrep].
  - intros i k0 [[<- <-]|[_ H0]]%lookup_insert_Some; [cbn; congruence|by eapply Hover].
Qed.
Lemma tasks_free ps js id k t r : js !! t = Some (TReply id (QDone r)) -> ps !! id = Some k -> tasks_inv ps js ->
  tasks_inv (<[id := set_slots k (slots k + 1)]> ps) (delete t js).
Proof.
  intros Ht Hk [Hslots Hfree Hpeer Hadd Hrep Hover]. split.
  - intros i k0 Hl. rewrite (running_delete i js t _ Ht). cbn [task_peer].
    apply lookup_insert_Some in Hl as [[<- <-]|[Hne H0]]; [rewrite bool_decide_true by done|rewrite bool_decide_false by congruence].
    + cbn [slots set_slots]. specialize (Hslots _ _ Hk). lia.
    + specialize (Hslots _ _ H0). lia.
  - intros i k0 [[<- <-]|[_ H0]]%lookup_insert_Some; [cbn; specialize (Hfree _ _ Hk); lia|by eapply Hfree].
  - intros t0 j i [_ Hl]%lookup_delete_Some Hj. apply lookup_insert_is_Some'. right. by eapply Hpeer.
  - intros t0 j [_ Hl]%lookup_delete_Some. by eapply Hadd.
  - intros i k0 q [[<- <-]|[_ H0]]%lookup_insert_Some Hq0; [by eapply (Hrep _ k)|by eapply Hrep].
  - intros i k0 [[<- <-]|[_ H0]]%lookup_insert_Some; [by eapply (Hover _ k)|by eapply Hover].
Qed.
(** A push begins or ends. *)
Lemma tasks_push ps js t p : js !! t = None -> tasks_inv ps js -> tasks_inv ps (<[t := TPush p]> js).
Proof.
  intros Ht [Hslots Hfree Hpeer Hadd Hrep Hover]. split; try done.
  - intros i k Hk. rewrite running_insert by done. cbn. rewrite Z.add_0_r. by apply Hslots.
  - intros t0 j i [[<- <-]|[_ H0]]%lookup_insert_Some; [done|by eapply Hpeer].
  - intros t0 j [[<- <-]|[_ H0]]%lookup_insert_Some; [done|by eapply Hadd].
Qed.
Lemma tasks_pushed ps js t p : js !! t = Some (TPush p) -> tasks_inv ps js -> tasks_inv ps (delete t js).
Proof.
  intros Ht [Hslots Hfree Hpeer Hadd Hrep Hover]. split; try done.
  - intros i k Hk. rewrite (running_delete i js t _ Ht). cbn. rewrite Z.sub_0_r. by apply Hslots.
  - intros t0 j i [_ H0]%lookup_delete_Some. by eapply Hpeer.
  - intros t0 j [_ H0]%lookup_delete_Some. by eapply Hadd.
Qed.

(** *** The transitions of the table *)
Lemma table_insert w ps id k auth timeout : ps !! id = None -> is_open (at_reader k) = true ->
  is_stopped (at_writer k) = false -> table_inv w ps -> table_inv (registered id timeout auth w) (<[id := k]> ps).
Proof.
  intros Hid Ho Hs [Hwf Hopen Hch Hlive Hroom]. unfold registered, register, modify. split; cbn.
  - intros i e Hl. cbn in Hl. apply lookup_insert_Some in Hl as [[<- <-]|[_ Hl]]; [done|by apply Hwf].
  - intros i. destruct (decide (i = id)) as [->|Hne].
    + rewrite !lookup_insert_eq. split; eauto.
    + rewrite !lookup_insert_ne by done. apply Hopen.
  - intros i. rewrite !lookup_insert_is_Some', Hch. done.
  - intros i k0 c [[<- <-]|[Hne Hk]]%lookup_insert_Some.
    + rewrite lookup_insert_eq. intros [= <-]. by rewrite Hs.
    + rewrite lookup_insert_ne by done. by apply Hlive.
  - intros i c [[<- <-]|[_ Hc]]%lookup_insert_Some; [done|by eapply Hroom].
Qed.

Lemma table_unlist w ps id k k' : ps !! id = Some k -> is_open (at_reader k') = false -> at_writer k' = at_writer k ->
  table_inv w ps ->
  table_inv (set_state w (mkServerState (delete id (clients (state w))) (next_event_id (state w)))) (<[id := k']> ps).
Proof.
  intros Hk Ho Hs [Hwf Hopen Hch Hlive Hroom]. split; try done.
  - intros i e Hl. cbn in Hl. apply lookup_delete_Some in Hl as [_ Hl]. by apply Hwf.
  - intros i. cbn. destruct (decide (i = id)) as [->|Hne].
    + rewrite lookup_delete_eq, lookup_insert_eq. split; [by intros [? ?]|]. intros (? & [= <-] & ?). congruence.
    + rewrite lookup_delete_ne, lookup_insert_ne by done. apply Hopen.
  - intros i. rewrite Hch, lookup_insert_is_Some'. split; [by right|]. intros [->|?]; [by eauto|done].
  - intros i k0 c [[<- <-]|[_ H0]]%lookup_insert_Some Hc; [rewrite Hs; by eapply Hlive|by eapply Hlive].
Qed.

Lemma table_drop w ps id k k' : ps !! id = Some k -> is_open (at_reader k') = is_open (at_reader k) ->
  is_stopped (at_writer k') = true -> table_inv w ps -> table_inv (drop_receiver id w) (<[id := k']> ps).
Proof.
  intros Hk Ho Hs [Hwf Hopen Hch Hlive Hroom]. unfold drop_receiver. split; cbn; try done.
  - intros i. by rewrite Hopen, (open_insert ps id k k').
  - intros i. rewrite lookup_alter_is_Some, Hch, lookup_insert_is_Some'. split; [by right|]. intros [->|?]; [by eauto|done].
  - intros i k0 c [[<- <-]|[Hne H0]]%lookup_insert_Some.
    + rewrite lookup_alter_eq. intros (c0 & _ & ->)%fmap_Some. by rewrite Hs.
    + rewrite lookup_alter_ne by done. by apply Hlive.
  - intros i c [(<- & c0 & Hc0 & ->)|[_ Hc]]%lookup_alter_Some; [|by eapply Hroom]. cbn [queue]. by apply (Hroom id).
Qed.

Lemma table_take w ps id k m rest k' : ps !! id = Some k -> channels w !! id = Some (mkChannel (m :: rest) true) ->
  is_open (at_reader k') = is_open (at_reader k) -> is_stopped (at_writer k') = false -> table_inv w ps ->
  table_inv (set_channels w (<[id := mkChannel rest true]> (channels w))) (<[id := k']> ps).
Proof.
  intros Hk Hc Ho Hs [Hwf Hopen Hch Hlive Hroom]. split; cbn; try done.
  - intros i. by rewrite Hopen, (open_insert ps id k k').
  - intros i. rewrite !lookup_insert_is_Some', Hch. done.
  - intros i k0 c [[<- <-]|[Hne H0]]%lookup_insert_Some.
    + rewrite lookup_insert_eq. intros [= <-]. by rewrite Hs.
    + rewrite lookup_insert_ne by done. by apply Hlive.
  - intros i c [[<- <-]|[_ Hl]]%lookup_insert_Some; [|by eapply Hroom]. specialize (Hroom id _ Hc).
    cbn [queue] in *. unfold blen in *. cbn [length] in Hroom. lia.
Qed.

(** *** Steps *)
Definition removed (id : string) w : W :=
  set_state w (mkServerState (delete id (clients (state w))) (next_event_id (state w))).

Lemma queue_addressed id q w rep q' w' : clients_wf w -> addressed id q ->
  queue_access self q w = Some (rep, q', w') -> addressed id q'.
Proof.
  intros Hwf Ha. destruct q as [i p|key p|key m|r]; cbn [queue_access addressed] in *; subst.
  - intros [= <- <- <-]. destruct (clients (state w) !! id) as [e|] eqn:He; [|done].
    apply Hwf in He. by destruct (is_ecdh self).
  - intros [= <- <- <-]. by destruct (encode _ _ _).
  - destruct (no_room id w); [done|]. destruct (send id m w). by intros [= <- <- <-].
  - done.
Qed.

(** The writer, or the writer that has just been spawned. *)
Definition kept_writer (wr wr' : Writer) : Prop := wr' = wr \/ wr' = spawn_writer wr.
Lemma kept_writer_refl wr : kept_writer wr wr.
Proof. by left. Qed.
Lemma kept_writer_stopped wr wr' : kept_writer wr wr' -> is_stopped wr' = is_stopped wr.
Proof. intros [->| ->]; by destruct wr. Qed.
#[local] Hint Resolve kept_writer_refl : core.

Lemma reader_access_cases id a c rd wr w rd' wr' w' : handlers_push self ->
  reader_access self id a c rd wr w = Some (rd', wr', w') ->
  (exists r, rd = RClosing r /\ rd' = ROffer r /\ wr' = wr /\ w' = removed id w)
  \/ (exists r, rd = RAbort r /\ rd' = RNotify r /\ wr' = WStopped /\ w' = drop_receiver id w)
  \/ (grows w w' /\ kept_writer wr wr' /\ is_open rd' = is_open rd /\ (is_over rd' = true -> is_over rd = true)
      /\ forall q, rd' = RReply q -> exists rep q0, rd = RReply q0 /\ queue_access self q0 w = Some (rep, q, w')).
Proof.
  intros Hh. destruct rd as [auth|p| |q|pl|pk|r|r|r d|r|r|r|]; cbn [reader_access]; try done.
  - intros [= <- <- <-]. right. right. split_and!; try done; [by apply grows_connected|by right].
  - destruct p as [h tgt name data atts|h tgt p|h key p|m|key m|r];
      try (by intros [= <- <- <-]; right; right; destruct r).
    all: destruct (push_access _ None w) as [[[rep p'] w1]|] eqn:Hp; [|done].
    all: apply grows_push_access in Hp; intros [= <- <- <-]; right; right; by split_and!.
  - destruct q as [i p|key p|key m|r]; try (by intros [= <- <- <-]; right; right; destruct r).
    all: destruct (queue_access self _ w) as [[[rep q'] w1]|] eqn:Hq; [|done].
    all: intros [= <- <- <-]; right; right; split_and!; [by eapply grows_queue_access|done..|].
    all: intros q [= ->]; eauto.
  - destruct (no_room id w) eqn:Hs; [done|]. pose proof (grows_send id (Pong pl) w Hs) as Hg.
    destruct (send id (Pong pl) w) as [r w1]. intros [= <- <- <-]. right. right. destruct r; by split_and!.
  - intros [= <- <- <-]. left. by exists r.
  - intros [= <- <- <-]. right. right. split_and!; try done.
    pose proof (grows_try_send id Close w) as Hg. unfold ignore. by destruct (try_send id Close w).
  - destruct wr; repeat case_bool_decide; try done; intros [= <- <- <-]; right; right; by split_and!.
  - intros [= <- <- <-]. right. left. by exists r.
  - intros [= <- <- <-]. right. right. split_and!; try done. by apply grows_disconnected.
Qed.

(** A message leaves the queue; the writer stops when it cannot encode it. *)
Lemma writer_take_cases id c w m wr w' : writer_take id c w = Some (m, wr, w') ->
  exists rest, channels w !! id = Some (mkChannel (m :: rest) true)
  /\ let w1 := set_channels w (<[id := mkChannel rest true]> (channels w)) in
     ((exists msg, wr = WWriting msg /\ rendered c m msg) /\ grows w1 w') \/ (wr = WStopped /\ exists w2, grows w1 w2 /\
       w' = drop_receiver id w2).
Proof.
  unfold writer_take. destruct (channels w !! id) as [[[|m0 rest] []]|] eqn:Hc; try done. intros Ht.
  assert (m0 = m) as ->. { destruct m0; [| |by injection Ht as ? _ _..].
    - by injection Ht as ? _ _.
    - cbn in Ht. by destruct (encode _ _ _); injection Ht as ? _ _. }
  exists rest. split; [done|]. cbv zeta. destruct m as [fr|p|pl|].
  - injection Ht as <- <-. left. split; [by eexists; split; [|constructor]|done].
  - pose proof (grows_codec_encode c p (set_channels w (<[id := mkChannel rest true]> (channels w)))) as Hg.
    unfold codec_encode in *. set (ent := entropy _ _ _) in *. cbn [snd] in Hg.
    destruct (encode c ent p) as [enc|e|] eqn:He; injection Ht as <- <-; [left|right|right]; split; eauto.
    eexists. split; [done|]. by eapply RenderPacket.
  - injection Ht as <- <-. left. split; [by eexists; split; [|constructor]|done].
  - injection Ht as <- <-. left. split; [by eexists; split; [|constructor]|done].
Qed.

Lemma writer_socket_cases id m f w wr w' : writer_socket id m f w = (wr, w') ->
  exists w1, greets id w w1 /\ ((wr = WIdle /\ w' = w1) \/ (wr = WStopped /\ w' = drop_receiver id w1)).
Proof.
  unfold writer_socket. pose proof (greets_ws_send id m f w) as Hg. destruct (ws_send id m f w) as [[[]|e|] w1]; cbn [snd] in Hg.
  - exists w1. destruct m; simplify_eq; auto.
  - exists w1. destruct m; simplify_eq; auto.
  - exists w1. destruct m; simplify_eq; auto.
Qed.

Lemma receive_open id peer rc now next w rd w' : receive self id peer rc now next w = (rd, w') ->
  is_open rd = true /\ is_over rd = false.
Proof.
  destruct next as [| | |m]; cbn [receive]; try (by intros [= <- <-]). destruct m as [bs| | | | |]; try (by intros [= <- <-]).
  destruct (inspect self id peer rc now bs w) as [[[]|e|] w1]; by intros [= <- <-].
Qed.
Lemma receive_addressed id peer rc now next w q w' : receive self id peer rc now next w = (RReply q, w') -> addressed id q.
Proof.
  destruct next as [| | |m]; cbn [receive]; try done. destruct m as [bs| | | | |]; try done.
  destruct (inspect self id peer rc now bs w) as [[[]|e|] w1]; try done. by intros [= <- <-].
Qed.

(** The numbers of tasks are not used again. *)
Definition numbered (f : Served (App:=App)) : Prop := forall t, is_Some (jobs f !! t) -> (t < spawned f)%nat.

Definition served_inv (f : Served (App:=App)) : Prop :=
  (table_inv (world f) (peers f) /\ tasks_inv (peers f) (jobs f)) /\ numbered f.

Lemma task_access_peer a visit j w rep j' w' : task_access self a visit j w = Some (rep, j', w') ->
  task_peer j' = task_peer j.
Proof.
  destruct j as [id p|id q|p]; cbn [task_access].
  - destruct (respond self id a p w). by intros [= <- <- <-].
  - destruct (queue_access self q w) as [[[]]|]; [|done]. by intros [= <- <- <-].
  - destruct (push_access p visit w) as [[[]]|]; [|done]. by intros [= <- <- <-].
Qed.
Lemma task_access_addressed a visit j w rep j' w' : clients_wf w -> task_addressed j ->
  task_access self a visit j w = Some (rep, j', w') -> task_addressed j'.
Proof.
  intros Hwf Ha. destruct j as [id p|id q|p]; cbn [task_access].
  - destruct (respond self id a p w) as [[[]|e|]]; by intros [= <- <- <-].
  - destruct (queue_access self q w) as [[[rp q1] w1]|] eqn:Hq; [|done]. intros [= <- <- <-]. by eapply queue_addressed.
  - destruct (push_access p visit w) as [[[]]|]; [|done]. by intros [= <- <- <-].
Qed.

Lemma numbered_step l f f' : served_step self l f f' -> numbered f -> numbered f'.
Proof.
  intros Hs Hn. destruct Hs as [| | |id k packet w ps js n c Hk Hrd Hfree| | | |t a k k' rep visit w w' ps js n c Htk
    |t id k r w ps js n c Htk Hk|t r w ps js n c Htk|tgt name data atts w ps js n c| |]; try done;
    intros t0; cbn [jobs spawned].
  - intros [->|Ht]%lookup_insert_is_Some'; [lia|]. specialize (Hn _ Ht). cbn in Hn. lia.
  - intros [->|Ht]%lookup_insert_is_Some'; [|by apply Hn]. apply (Hn t0). by eexists.
  - intros [_ Ht]%lookup_delete_is_Some. by apply Hn.
  - intros [_ Ht]%lookup_delete_is_Some. by apply Hn.
  - intros [->|Ht]%lookup_insert_is_Some'; [lia|]. specialize (Hn _ Ht). cbn in Hn. lia.
Qed.
Lemma numbered_fresh f : numbered f -> jobs f !! spawned f = None.
Proof. intros Hn. apply eq_None_not_Some. intros Ht%Hn. lia. Qed.

(** The table and the tasks, step by step. *)
Lemma served_step_table l f f' : handlers_push self -> served_step self l f f' ->
  table_inv (world f) (peers f) -> table_inv (world f') (peers f').
Proof.
  intros Hh Hs Ht. destruct Hs as [id peer now hello auth f1 f2 ses ctx w w' ps js n c Hid Hch Hset
    |id k rd wr w w' ps js n c Hk Hr|id k now next rd w w' ps js n c Hk Hrd Hr|id k packet w ps js n c Hk Hrd Hfree
    |id k m wr w w' ps js n c Hk Hwr Htk|id k w ps js n c Hk Hwr|id k m failure wr w w' ps js n c Hk Hwr Hso
    |t a k k' rep visit w w' ps js n c Htk Hp Hacc|t id k r w ps js n c Htk Hk|t r w ps js n c Htk
    |tgt name data atts w ps js n c|c' w ps js n c Hc|w w' ps js n c (Hst & Hch & _)]; cbn [world peers] in *.
  - apply setup_registers in Hset as (w1 & timeout & Hg & ->); [|done]. apply table_insert; [done..|]. by eapply table_greets.
  - apply reader_access_cases in Hr as [(r & Hrd & -> & -> & ->)|[(r & Hrd & -> & -> & ->)|(Hg & Hkw & Ho & Hov & Hq)]]; [..|done].
    + by eapply table_unlist.
    + eapply table_drop; [done|by rewrite Hrd|done|done].
    + eapply table_peer; [done|done|by apply kept_writer_stopped|]. by eapply table_grows.
  - eapply table_peer; [done|cbn|done|].
    + rewrite Hrd. by apply receive_open in Hr as [-> _].
    + eapply table_grows; [|done]. by eapply grows_receive.
  - by eapply table_peer; [done|cbn; rewrite Hrd|..].
  - apply writer_take_cases in Htk as (rest & Hc & [[(msg & -> & _) Hg]|[-> (w2 & Hg & ->)]]).
    + eapply table_grows; [done|]. by eapply table_take.
    + rewrite <- (insert_insert_eq ps id _ (take_message k m WIdle)).
      eapply table_drop; [apply lookup_insert_eq|done|done|]. eapply table_grows; [done|]. by eapply table_take.
  - eapply table_peer; [done|done| |done]. by rewrite Hwr.
  - apply writer_socket_cases in Hso as (w1 & Hg & [[-> ->]|[-> ->]]).
    + eapply table_peer; [done|done|by rewrite Hwr|]. by eapply (table_greets id).
    + eapply table_drop; [done..|]. by eapply (table_greets id).
  - eapply table_grows; [|done]. by eapply grows_task.
  - by eapply table_peer.
  - done.
  - done.
  - done.
  - destruct Ht. by split; unfold clients_wf in *; rewrite ?Hst, ?Hch.
Qed.

(** A step of a writer that has not stopped leaves its reader and tasks alone. *)
Lemma tasks_writer (ps : gmap string Peer) js id k k' : tasks_inv ps js -> ps !! id = Some k -> at_writer k <> WStopped ->
  at_reader k' = at_reader k -> slots k' = slots k -> tasks_inv (<[id := k']> ps) js.
Proof.
  intros Hj Hk Hw Hr Hp. eapply tasks_peer; [done|done| | |done]; rewrite Hr.
  - intros q. by apply (ki_reply _ _ Hj).
  - intros Hov. by destruct Hw, (ki_over _ _ Hj _ _ Hk Hov).
Qed.

Lemma served_step_tasks l f f' : handlers_push self -> served_step self l f f' -> numbered f ->
  table_inv (world f) (peers f) -> tasks_inv (peers f) (jobs f) -> tasks_inv (peers f') (jobs f').
Proof.
  intros Hh Hs Hfresh%numbered_fresh Ht Hj. destruct Hs as [id peer now hello auth f1 f2 ses ctx w w' ps js n c Hid Hch Hset
    |id k rd wr w w' ps js n c Hk Hr|id k now next rd w w' ps js n c Hk Hrd Hr|id k packet w ps js n c Hk Hrd Hfree
    |id k m wr w w' ps js n c Hk Hwr Htk|id k w ps js n c Hk Hwr|id k m failure wr w w' ps js n c Hk Hwr Hso
    |t a k k' rep visit w w' ps js n c Htk Hp Hacc|t id k r w ps js n c Htk Hk|t r w ps js n c Htk
    |tgt name data atts w ps js n c|c' w ps js n c Hc|w w' ps js n c _]; cbn [world peers jobs spawned] in *.
  - by apply tasks_insert.
  - apply reader_access_cases in Hr as [(r & Hrd & -> & -> & ->)|[(r & Hrd & -> & -> & ->)|(Hg & Hkw & Ho & Hov & Hq)]]; [..|done].
    + by eapply tasks_peer.
    + by eapply tasks_peer.
    + eapply tasks_peer; [done|done| | |done].
      * intros q Hrq. destruct (Hq q Hrq) as (rep & q0 & Hq0 & Hqa).
        eapply queue_addressed; [apply Ht| |done]. by eapply (ki_reply _ _ Hj).
      * intros Hover. cbn. pose proof (ki_over _ _ Hj _ _ Hk (Hov Hover)) as Hw. destruct Hkw as [->| ->]; by rewrite Hw.
  - eapply tasks_peer; [done|done| | |done]; cbn.
    + intros q ->. by eapply receive_addressed.
    + intros Hov. apply receive_open in Hr as [_ Hr]. congruence.
  - by apply tasks_spawn.
  - by eapply tasks_writer; [..|rewrite Hwr| |].
  - by eapply tasks_writer; [..|rewrite Hwr| |].
  - by eapply tasks_writer; [..|rewrite Hwr| |].
  - eapply tasks_task; [done| | |done]; [by eapply task_access_peer|].
    eapply task_access_addressed; [apply Ht| |done]. by eapply (ki_addressed _ _ Hj).
  - by eapply tasks_free.
  - by eapply tasks_pushed.
  - by eapply tasks_push.
  - done.
  - done.
Qed.

Lemma served_step_inv l f f' : handlers_push self -> served_step self l f f' -> served_inv f -> served_inv f'.
Proof.
  intros Hh Hs [[Ht Hj] Hn]. split; [split|].
  - by eapply served_step_table.
  - by eapply served_step_tasks.
  - by eapply numbered_step.
Qed.

Lemma served_init_inv ent a t0 : served_inv (served_init self ent a t0).
Proof.
  split; [split|]; [split|split|]; cbn.
  - intros id e Hl. cbn in Hl. by apply lookup_empty_Some in Hl.
  - intros id. rewrite !lookup_empty. split; [by intros [? ?]|by intros (? & ? & _)].
  - intros id. by rewrite !lookup_empty.
  - intros *. by rewrite lookup_empty.
  - intros *. by rewrite lookup_empty.
  - intros *. by rewrite lookup_empty.
  - intros *. by rewrite lookup_empty.
  - intros *. by rewrite lookup_empty.
  - intros *. by rewrite lookup_empty.
  - intros *. by rewrite lookup_empty.
  - intros *. by rewrite lookup_empty.
  - intros t [? Ht]. cbn in Ht. by rewrite lookup_empty in Ht.
Qed.

Lemma served_reach_inv f f' : handlers_push self -> rtc (any_step self) f f' -> served_inv f -> served_inv f'.
Proof. intros Hh. induction 1 as [|f1 f2 f3 [l Hs] _ IH]; [done|]. intros Hi. apply IH. by eapply served_step_inv. Qed.

(** *** The order of delivery *)

(** Every message of a connection's queue that the writer has not begun to write. *)
Definition accepted_by (f : Served (App:=App)) (id : string) : list ServerOutbound :=
  match peers f !! id with Some k => taken k | None => [] end
  ++ match channels (world f) !! id with Some c => queue c | None => [] end.

Definition not_ping (m : Message) : bool := match m with MPing _ => false | _ => true end.

(** What the writer has received and not yet written. *)
Definition in_hand (c : FrameCodec) (wr : Writer) (rest : list ServerOutbound) : Prop :=
  match wr with
  | WUnborn | WIdle => rest = []
  | WWriting m => if not_ping m then exists x, rest = [x] /\ rendered c x m else rest = []
  | WStopped => (length rest <= 1)%nat
  end.

Definition wire_ok (id : string) (k : Peer) (w : W) : Prop :=
  exists out done rest, wire_of id w = greeting k ++ out /\ taken k = done ++ rest
  /\ Forall2 (rendered (session k)) done (base.filter not_ping out) /\ in_hand (session k) (at_writer k) rest.
Definition wire_inv ps w : Prop := forall id k, ps !! id = Some k -> wire_ok id k w.

Lemma wire_of_same id w w' : wire w' = wire w -> wire_of id w' = wire_of id w.
Proof. unfold wire_of. by intros ->. Qed.
Lemma wire_of_greets id id' w w' : greets id w w' -> id' <> id -> wire_of id' w' = wire_of id' w.
Proof.
  intros (_ & (ms & Hw) & _) Hne. unfold wire_of. rewrite Hw, omap_app.
  replace (omap _ (map (pair id) ms)) with (@nil Message); [by rewrite app_nil_r|].
  clear Hw. induction ms as [|m ms IH]; [done|]. cbn. by rewrite bool_decide_false by congruence.
Qed.
Lemma rendered_not_ping c x m : rendered c x m -> not_ping m = true.
Proof. by intros []. Qed.

(** A connection whose reader or permits change. *)
Lemma wire_ok_reader id k k' w w' : wire w' = wire w -> greeting k' = greeting k -> taken k' = taken k ->
  session k' = session k -> kept_writer (at_writer k) (at_writer k') \/ at_writer k' = WStopped -> wire_ok id k w -> wire_ok id k' w'.
Proof.
  intros Hw Hg Ht Hs Hwr (out & dn & rest & Ho & Htk & Hf & Hr). exists out, dn, rest.
  rewrite (wire_of_same id w w' Hw), Hg, Ht, Hs. split_and!; [done..|]. destruct Hwr as [[->| ->]| ->]; [done|by destruct (at_writer k)|].
  cbn. destruct (at_writer k) as [| |m|]; cbn in Hr; [subst; cbn; lia..| |done].
  destruct (not_ping m); [destruct Hr as (x & -> & _)|subst]; cbn; lia.
Qed.
Lemma wire_inv_peer ps id k k' w w' : wire w' = wire w -> ps !! id = Some k -> greeting k' = greeting k ->
  taken k' = taken k -> session k' = session k -> kept_writer (at_writer k) (at_writer k') \/ at_writer k' = WStopped ->
  wire_inv ps w -> wire_inv (<[id := k']> ps) w'.
Proof.
  intros Hw Hk Hg Ht Hs Hwr Hi id0 k0. intros [[<- <-]|[_ H0]]%lookup_insert_Some.
  - eapply wire_ok_reader; [done..|]. by apply (Hi id k).
  - eapply wire_ok_reader; [done..|by left; left|]. by apply (Hi id0 k0).
Qed.
Lemma wire_inv_same ps w w' : wire w' = wire w -> wire_inv ps w -> wire_inv ps w'.
Proof. intros Hw Hi id k Hk. eapply wire_ok_reader; [done..|by left; left|]. by apply (Hi id k). Qed.

Lemma wire_take id k m wr w w' : at_writer k = WIdle -> writer_take id (session k) w = Some (m, wr, w') ->
  wire_ok id k w -> wire_ok id (take_message k m wr) w'.
Proof.
  intros Hwr Htk (out & dn & rest & Ho & Hdn & Hf & Hr). rewrite Hwr in Hr. cbn in Hr. subst rest. rewrite app_nil_r in Hdn.
  exists out, dn, [m]. cbn. rewrite Hdn. apply writer_take_cases in Htk as (q & Hc & Hcase). split_and!; [|done|done|].
  - rewrite <- Ho. apply wire_of_same. destruct Hcase as [[_ (_ & Hw & _)]|[_ (w2 & (_ & Hw & _) & ->)]]; by rewrite ?Hw.
  - destruct Hcase as [[(msg & -> & Hm) _]|[-> _]]; cbn; [|done]. rewrite (rendered_not_ping _ _ _ Hm). eauto.
Qed.

Lemma wire_socket id k m failure wr w w' : at_writer k = WWriting m -> writer_socket id m failure w = (wr, w') ->
  wire_ok id k w -> wire_ok id (set_writer k wr) w'.
Proof.
  intros Hwr Hso (out & dn & rest & Ho & Hdn & Hf & Hr). rewrite Hwr in Hr. cbn in Hr.
  assert (Hlen : (length rest <= 1)%nat) by (destruct (not_ping m); [destruct Hr as (x & -> & _)|subst]; cbn; lia).
  unfold writer_socket in Hso. destruct failure as [e|]; cbn in Hso.
  { injection Hso as <- <-. exists out, dn, rest. by split_and!. }
  set (w1 := set_wire w _) in Hso.
  assert (Hw1 : wire_of id w1 = greeting k ++ out ++ [m]).
  { unfold wire_of, w1. cbn. rewrite omap_app. fold (wire_of id w). rewrite Ho, <- app_assoc. cbn.
    by rewrite bool_decide_true by done. }
  assert (Hout : exists dn' rest', taken k = dn' ++ rest' /\ rest' = []
    /\ Forall2 (rendered (session k)) dn' (base.filter not_ping (out ++ [m]))).
  { rewrite list.filter_app. destruct (not_ping m) eqn:Hnp.
    - destruct Hr as (x & -> & Hx). exists (dn ++ [x]), []. rewrite app_nil_r. split_and!; [done..|].
      rewrite filter_cons_True by (by rewrite Hnp). apply Forall2_app; [done|]. by repeat constructor.
    - subst rest. exists dn, []. split_and!; [done..|]. rewrite filter_cons_False by (rewrite Hnp; by intros []). rewrite app_nil_r. done. }
  destruct Hout as (dn' & rest' & Ht & -> & Hf'). exists (out ++ [m]), dn', [].
  destruct m; injection Hso as <- <-; split_and!; try done; cbn; lia.
Qed.

Lemma wire_step l f f' : handlers_push self -> served_step self l f f' ->
  wire_inv (peers f) (world f) -> wire_inv (peers f') (world f').
Proof.
  intros Hh Hs Hi. destruct Hs as [id peer now hello auth f1 f2 ses ctx w w' ps js n c Hid Hch Hset
    |id k rd wr w w' ps js n c Hk Hr|id k now next rd w w' ps js n c Hk Hrd Hr|id k packet w ps js n c Hk Hrd Hfree
    |id k m wr w w' ps js n c Hk Hwr Htk|id k w ps js n c Hk Hwr|id k m failure wr w w' ps js n c Hk Hwr Hso
    |t a k k' rep visit w w' ps js n c Htk Hp Hacc|t id k r w ps js n c Htk Hk|t r w ps js n c Htk
    |tgt name data atts w ps js n c|c' w ps js n c Hc|w w' ps js n c (Hst & Hch & Haside)]; cbn [peers world] in *.
  - apply setup_registers in Hset as (w1 & timeout & Hg & ->); [|done].
    intros i k. intros [[<- <-]|[Hne H0]]%lookup_insert_Some.
    + exists [], [], []. by rewrite app_nil_r.
    + destruct (Hi i k H0) as (out & dn & rest & Ho & Hrest). exists out, dn, rest. split; [|done].
      rewrite <- Ho. rewrite <- (wire_of_greets id i w w1 Hg) by done. by apply wire_of_same.
  - apply reader_access_cases in Hr as [(r & Hrd & -> & -> & ->)|[(r & Hrd & -> & -> & ->)|(Hg & Hkw & _)]]; [..|done].
    + by eapply wire_inv_peer; [done|done|..|left; left|].
    + by eapply wire_inv_peer; [done|done|..|right|].
    + eapply wire_inv_peer; [by apply Hg|done..|by left|done].
  - apply grows_receive in Hr as (_ & Hw & _). by eapply wire_inv_peer; [done|done|..|left; left|].
  - by eapply wire_inv_peer; [done|done|..|left; left|].
  - intros i k0 [[<- <-]|[Hne H0]]%lookup_insert_Some.
    + eapply wire_take; [done..|]. by apply (Hi id k).
    + eapply wire_ok_reader; [|done..|by left; left|by apply (Hi i k0)]. cbn.
      apply writer_take_cases in Htk as (q & _ & [[_ (_ & Hw & _)]|[_ (w2 & (_ & Hw & _) & ->)]]); by rewrite ?Hw.
  - intros i k0 [[<- <-]|[Hne H0]]%lookup_insert_Some; [|by apply (Hi i k0)].
    destruct (Hi id k Hk) as (out & dn & rest & Ho & Hdn & Hf & Hr). exists out, dn, rest. split_and!; try done.
    cbn. by rewrite Hwr in Hr.
  - intros i k0 [[<- <-]|[Hne H0]]%lookup_insert_Some.
    + eapply wire_socket; [done..|]. by apply (Hi id k).
    + destruct (Hi i k0 H0) as (out & dn & rest & Ho & Hrest). exists out, dn, rest. split; [|done].
      rewrite <- Ho. apply writer_socket_cases in Hso as (w1 & Hg & [[_ ->]|[_ ->]]); by apply (wire_of_greets id i w w1).
  - eapply wire_inv_same; [|done]. apply grows_task in Hacc; [|done]. by apply Hacc.
  - by eapply wire_inv_peer; [done|done|..|left; left|].
  - by eapply wire_inv_same.
  - by eapply wire_inv_same.
  - by eapply wire_inv_same.
  - intros id k Hk. destruct (Hi id k Hk) as (out & dn & rest & Ho & Hrest). exists out, dn, rest. split; [|done].
    rewrite <- Ho. apply Haside. eauto.
Qed.

(** Messages are accepted in an order that does not change. *)
Definition waiting_in w (id : string) : list ServerOutbound :=
  match channels w !! id with Some c => queue c | None => [] end.

Lemma waiting_grown w w' id : (forall key, option_Forall2 grown (channels w !! key) (channels w' !! key)) ->
  waiting_in w id `prefix_of` waiting_in w' id.
Proof.
  intros Hk. unfold waiting_in. specialize (Hk id). destruct Hk as [c c' (ext & -> & _)|]; [|done]. by exists ext.
Qed.
Lemma waiting_drop w i id : waiting_in (drop_receiver i w) id = waiting_in w id.
Proof.
  unfold waiting_in, drop_receiver. cbn. destruct (decide (id = i)) as [->|Hne]; [|by rewrite lookup_alter_ne].
  rewrite lookup_alter_eq. by destruct (channels w !! i).
Qed.

(** The parts of a connection that stay, and its queue with what left it. *)
Definition later (ps ps' : gmap string Peer) w w' (id : string) : Prop :=
  forall k, ps !! id = Some k -> exists k', ps' !! id = Some k' /\ session k' = session k /\ greeting k' = greeting k
  /\ taken k ++ waiting_in w id `prefix_of` taken k' ++ waiting_in w' id.

Lemma later_peer ps w w' id0 k0 k0' id : ps !! id0 = Some k0 -> session k0' = session k0 -> greeting k0' = greeting k0 ->
  taken k0' = taken k0 -> waiting_in w id `prefix_of` waiting_in w' id -> later ps (<[id0 := k0']> ps) w w' id.
Proof.
  intros H0 Hs Hg Ht Hw k Hk. destruct (decide (id = id0)) as [->|Hne].
  - exists k0'. rewrite lookup_insert_eq. simplify_eq. rewrite Ht. split_and!; [done..|]. by apply prefix_app.
  - exists k. rewrite lookup_insert_ne by done. split_and!; [done..|]. by apply prefix_app.
Qed.
Lemma later_same ps w w' id : waiting_in w id `prefix_of` waiting_in w' id -> later ps ps w w' id.
Proof. intros Hw k Hk. exists k. split_and!; [done..|]. by apply prefix_app. Qed.

Lemma later_step l f f' id : handlers_push self -> served_step self l f f' -> later (peers f) (peers f') (world f) (world f') id.
Proof.
  intros Hh Hs. destruct Hs as [i peer now hello auth f1 f2 ses ctx w w' ps js n c Hid Hch Hset
    |i k rd wr w w' ps js n c Hk Hr|i k now next rd w w' ps js n c Hk Hrd Hr|i k packet w ps js n c Hk Hrd Hfree
    |i k m wr w w' ps js n c Hk Hwr Htk|i k w ps js n c Hk Hwr|i k m failure wr w w' ps js n c Hk Hwr Hso
    |t a k k' rep visit w w' ps js n c Htk Hp Hacc|t i k r w ps js n c Htk Hk|t r w ps js n c Htk
    |tgt name data atts w ps js n c|c' w ps js n c Hc|w w' ps js n c (Hst & Hch & Haside)]; cbn [peers world].
  - intros k Hk. apply setup_registers in Hset as (w1 & timeout & (_ & _ & Hg) & ->); [|done].
    exists k. assert (id <> i) by congruence. rewrite lookup_insert_ne by done. split_and!; [done..|].
    apply prefix_app. etransitivity; [by apply (waiting_grown w w1)|]. unfold waiting_in. cbn.
    by rewrite lookup_insert_ne.
  - apply reader_access_cases in Hr as [(r & Hrd & -> & -> & ->)|[(r & Hrd & -> & -> & ->)|((_ & _ & Hg) & _)]]; [..|done];
      (eapply later_peer; [done..|]).
    + done.
    + by rewrite waiting_drop.
    + by apply waiting_grown.
  - apply grows_receive in Hr as (_ & _ & Hg). eapply later_peer; [done..|]. by apply waiting_grown.
  - by eapply later_peer.
  - apply writer_take_cases in Htk as (rest & Hc & Hcase).
    assert (Hw : waiting_in (set_channels w (<[i := mkChannel rest true]> (channels w))) id `prefix_of` waiting_in w' id).
    { destruct Hcase as [[_ (_ & _ & Hg)]|[_ (w2 & (_ & _ & Hg) & ->)]]; rewrite ?waiting_drop; by apply waiting_grown. }
    intros k0 Hk0. destruct (decide (id = i)) as [->|Hne].
    + simplify_eq. exists (take_message k m wr). rewrite lookup_insert_eq. split_and!; [done..|]. cbn [taken take_message].
      rewrite <- app_assoc. apply prefix_app. revert Hw. unfold waiting_in. cbn. rewrite Hc, lookup_insert_eq. cbn. by apply prefix_cons.
    + exists k0. rewrite lookup_insert_ne by done. split_and!; [done..|]. apply prefix_app. revert Hw.
      unfold waiting_in. cbn. by rewrite lookup_insert_ne.
  - by eapply later_peer.
  - apply writer_socket_cases in Hso as (w1 & (_ & _ & Hg) & [[_ ->]|[_ ->]]); (eapply later_peer; [done..|]);
      rewrite ?waiting_drop; by apply waiting_grown.
  - apply later_same, waiting_grown. apply grows_task in Hacc; [|done]. by apply Hacc.
  - by eapply later_peer.
  - by apply later_same.
  - by apply later_same.
  - by apply later_same.
  - apply later_same. unfold waiting_in. by rewrite Hch.
Qed.

Lemma later_reach f f' id : handlers_push self -> rtc (any_step self) f f' -> later (peers f) (peers f') (world f) (world f') id.
Proof.
  intros Hh. induction 1 as [f|f1 f2 f3 [l Hs] _ IH]; intros k Hk; [by exists k|].
  destruct (later_step l f1 f2 id Hh Hs k Hk) as (k2 & Hk2 & Hs2 & Hg2 & Hp2).
  destruct (IH k2 Hk2) as (k3 & Hk3 & Hs3 & Hg3 & Hp3). exists k3. split_and!; [done|congruence..|by etransitivity].
Qed.
End Invariant.

(** ** What every reachable state and every execution satisfies *)
Section Properties.
Context {J : SerdeJson} {C : Crypto} {X : X25519} {H : Sha256} {TX : ErrorTexts} {App : Type}.
Abbreviation W := (World App).
Context (self : WscallServer (App:=App)).
Context (ent : nat -> Z -> result string bytes) (a0 : App) (t0 : Z).
Abbreviation step := (any_step self).
Abbreviation init := (served_init self ent a0 t0).

(** C10: what a server keeps in memory for a connection is bounded, whatever the
    tasks do.  In every state that the accesses of any number of connections,
    handler tasks, writers and pushes reach, a connection is in the client table
    until its own teardown removes it, its outbound channel lives as long as its
    writer and holds at most [SERVER_OUTBOUND_QUEUE_CAPACITY] messages, and its
    handler tasks and its free permits make up [max_in_flight]. *)
Theorem server_memory_bounded f : handlers_push self -> 0 <= max_in_flight self -> rtc step init f ->
  forall id,
    (is_Some (clients (state (world f)) !! id) <-> exists k, peers f !! id = Some k /\ is_open (at_reader k) = true)
    /\ forall k, peers f !! id = Some k ->
       0 <= slots k /\ slots k + running id (jobs f) = max_in_flight self
       /\ exists c, channels (world f) !! id = Some c /\ receiver c = negb (is_stopped (at_writer k))
          /\ blen (queue c) <= SERVER_OUTBOUND_QUEUE_CAPACITY.
Proof.
  intros Hh Hmax Hr id. destruct (served_reach_inv self _ _ Hh Hr (served_init_inv self ent a0 t0)) as [[Ht Hj] _].
  split; [by apply (ti_open _ _ Ht)|]. intros k Hk. split_and!.
  - destruct (ki_free _ _ _ Hj id k Hk); [done|lia].
  - by apply (ki_slots _ _ _ Hj).
  - destruct (proj2 (ti_channel _ _ Ht id) (ex_intro _ k Hk)) as [c Hc]. exists c. split_and!; [done| |].
    + by apply (ti_live _ _ Ht id).
    + by apply (ti_room _ _ Ht id).
Qed.

(** C5: what is queued for a connection is written once and in order.  Under every
    interleaving, the messages that the channel of a connection has accepted keep
    their order: what later states have accepted begins with what earlier states
    had.  The writer has received a beginning of them, and what it has written,
    after the greeting of the setup and apart from heartbeats, is exactly that,
    message by message, except for at most the one it is writing (or stopped
    at). *)
Theorem delivery_in_order f f' id k : handlers_push self -> rtc step init f -> rtc step f f' -> peers f !! id = Some k ->
  exists k' out written rest, peers f' !! id = Some k'
  /\ accepted_by f id `prefix_of` accepted_by f' id
  /\ taken k' `prefix_of` accepted_by f' id
  /\ wire_of id (world f') = greeting k ++ out
  /\ taken k' = written ++ rest /\ (length rest <= 1)%nat
  /\ Forall2 (rendered (session k)) written (base.filter not_ping out).
Proof.
  intros Hh Hr Hr' Hk. destruct (later_reach self f f' id Hh Hr' k Hk) as (k' & Hk' & Hs & Hg & Hp).
  assert (Hw : wire_inv (peers f') (world f')).
  { assert (Hall : rtc step init f') by (by etransitivity). clear -Hall Hh.
    assert (Hi : wire_inv (peers init) (world init)) by (intros i k; cbn; by rewrite lookup_empty).
    induction Hall as [|f1 f2 f3 [l Hs] _ IH]; [done|]. apply IH. by eapply wire_step. }
  destruct (Hw id k' Hk') as (out & dn & rest & Ho & Hdn & Hf & Hrest). exists k', out, dn, rest.
  rewrite <- Hg, <- Hs. split_and!; try done.
  - unfold accepted_by. by rewrite Hk, Hk'.
  - unfold accepted_by. rewrite Hk'. by eexists.
  - destruct (at_writer k') as [| |m|]; cbn in Hrest; [subst; cbn; lia..| |done].
    destruct (not_ping m); [destruct Hrest as (x & -> & _)|subst]; cbn; lia.
Qed.
End Properties.

(** ** The operations of [ServerRuntime] are uninterrupted runs of their accesses *)
Section Refinement.
Context {J : SerdeJson} {C : Crypto} {X : X25519} {H : Sha256} {TX : ErrorTexts} {App : Type}.
Abbreviation W := (World App).
Context (self : WscallServer (App:=App)).
Implicit Types (w : W).

Definition queue_run (a b : Queueing * W) : Prop := exists rep, queue_access self a.1 a.2 = Some (rep, b.1, b.2).
Definition push_run (a b : Push * W) : Prop := exists visit rep, push_access a.1 visit a.2 = Some (rep, b.1, b.2).

Lemma queue_once q w rep q' w' c : queue_access self q w = Some (rep, q', w') -> rtc queue_run (q', w') c -> rtc queue_run (q, w) c.
Proof. intros Ha. eapply rtc_l. by exists rep. Qed.
Lemma push_once p visit w rep p' w' c : push_access p visit w = Some (rep, p', w') -> rtc push_run (p', w') c -> rtc push_run (p, w) c.
Proof. intros Ha. eapply rtc_l. by exists visit, rep. Qed.

Lemma send_runs key m w : no_room key w = false ->
  rtc queue_run (QSend key m, w)
    (QDone (map_err (fun _ => SApi (internal "failed to queue outbound packet")) (send key m w).1), (send key m w).2).
Proof.
  intros Hs. destruct (send key m w) as [r w'] eqn:He. eapply queue_once; [|apply rtc_refl].
  cbn [queue_access]. by rewrite Hs, He.
Qed.

Lemma queue_for_runs id packet w : clients_wf w -> no_room id w = false ->
  rtc queue_run (QLookup id packet, w) (QDone (queue_for self id packet w).1, (queue_for self id packet w).2).
Proof.
  intros Hwf Hs. eapply queue_once; [reflexivity|]. unfold queue_for. run_M.
  destruct (clients (state w) !! id) as [e|] eqn:He; run_M; [|done]. apply Hwf in He as ->.
  destruct (is_ecdh self).
  - etransitivity; [by apply send_runs|]. by destruct (send id _ w) as [[]].
  - eapply queue_once; [reflexivity|]. unfold codec_encode. destruct (encode _ _ _) as [fr|e0|]; run_M; [|done..].
    set (w1 := set_drawn w _). etransitivity; [by apply (send_runs id _ w1)|]. by destruct (send id _ w1) as [[]].
Qed.

Lemma send_to_all_runs (entries : list (string * ClientEntry)) m : forall w,
  (forall k e, (k, e) ∈ entries -> clients (state w) !! k = Some e) ->
  rtc push_run (PIter m, w) (PDone (send_to_all entries m w).1, (send_to_all entries m w).2).
Proof.
  induction entries as [|[k e] entries IH]; intros w Hin; cbn [send_to_all].
  - by eapply (push_once _ None); [|apply rtc_refl].
  - unfold ignore. run_M. destruct (try_send (sender e) m w) as [r w1] eqn:Ht.
    assert (Hcl : clients (state w1) = clients (state w)).
    { pose proof (grows_try_send (sender e) m w) as (Hc & _). by rewrite Ht in Hc. }
    assert (Hr : r <> Panic) by (revert Ht; unfold try_send; case_match; by intros [= <- <-]).
    eapply (push_once _ (Some k)).
    + cbn [push_access]. rewrite (Hin k e) by by left. rewrite Ht. reflexivity.
    + destruct r as [[]|[]|]; [..|done]; apply IH; intros k' e' Hk'; rewrite Hcl; apply Hin; by right.
Qed.

Lemma broadcast_runs h name data atts w :
  rtc push_run (PFetch h None name data atts, w)
    (PDone (broadcast_event h name data atts w).1, (broadcast_event h name data atts w).2).
Proof.
  assert (Hiter : forall m w, rtc push_run (PIter m, w)
    (PDone (send_to_all (map_to_list (clients (state w))) m w).1, (send_to_all (map_to_list (clients (state w))) m w).2)).
  { intros m w0. apply send_to_all_runs. intros k e. apply elem_of_map_to_list. }
  eapply (push_once _ None); [reflexivity|]. unfold broadcast_event, fresh_event_id. run_M.
  set (w1 := set_state w _). destruct (handle_is_ecdh h); [apply Hiter|].
  eapply (push_once _ None); [reflexivity|]. unfold codec_encode.
  destruct (encode _ _ _) as [fr|e|]; run_M; [apply Hiter|done..].
Qed.

Lemma send_event_to_runs h id name data atts w :
  rtc push_run (PFetch h (Some id) name data atts, w)
    (PDone (send_event_to h id name data atts w).1, (send_event_to h id name data atts w).2).
Proof.
  assert (Htry : forall key m w, rtc push_run (PTry key m, w)
    (PDone (map_err (fun _ => internal "failed to queue direct event") (try_send key m w).1), (try_send key m w).2)).
  { intros key m w0. destruct (try_send key m w0) as [r w1] eqn:Ht. eapply (push_once _ None); [|apply rtc_refl].
    cbn [push_access]. by rewrite Ht. }
  eapply (push_once _ None); [reflexivity|]. unfold send_event_to, fresh_event_id. run_M. set (w1 := set_state w _).
  eapply (push_once _ None); [reflexivity|]. destruct (clients (state w1) !! id) as [e|]; run_M; [|done].
  destruct (handle_is_ecdh h).
  - etransitivity; [apply Htry|]. by destruct (try_send (sender e) _ w1) as [[]].
  - eapply (push_once _ None); [reflexivity|]. unfold codec_encode. destruct (encode _ _ _) as [fr|e0|]; run_M; [|done..].
    set (w2 := set_drawn w1 _). etransitivity; [apply Htry|]. by destruct (try_send (sender e) _ w2) as [[]].
Qed.

(** What the rest of a turn of the reader does. *)
Definition finish_turn (id : string) (rd : Reader) : M W ServerError Flow :=
  match rd with
  | RReading => mret Continue
  | RReply (QLookup key answer) => ignore (queue_for self key answer) ;; mret Continue
  | RPong payload =>
      sent ← m_try (send id (Pong payload));
      mret (match sent with inl _ => Stop | inr _ => Continue end)
  | RAcquire packet => mret (SpawnHandler packet)
  | RClosing (Ok _) => mret Stop
  | RClosing (Err e) => lift (Err e)
  | _ => lift Panic
  end.

Definition act (id : string) (d : Decision) : M W ServerError Flow :=
  match d with
  | Refuse answer => ignore (queue_for self id answer) ;; mret Continue
  | Spawn packet => mret (SpawnHandler packet)
  | Skip => mret Continue
  end.
Lemma bind_act {A} (m : M W ServerError A) f g id w : (forall a w, f a w = (g a ≫= act id) w) ->
  (m ≫= f) w = ((m ≫= g) ≫= act id) w.
Proof. intros He. unfold mbind, M_bind in *. destruct (m w) as [[a|e|] w1]; [apply He|done..]. Qed.

Lemma on_binary_turn id peer rc now bs w :
  on_binary self id peer rc now bs w = (inspect self id peer rc now bs ≫= act id) w.
Proof.
  unfold on_binary, inspect. case_bool_decide; [done|].
  do 4 (apply bind_act; intros ? ?). case_bool_decide; [done|]. case_bool_decide; [done|].
  apply bind_act; intros packet ?. apply bind_act; intros verdict ?. destruct packet as [mt en []], verdict as [[]|]; done.
Qed.

Lemma reader_step_turn id peer rc now next w :
  reader_step self id peer rc now next w =
  let '(rd, w') := receive self id peer rc now next w in finish_turn id rd w'.
Proof.
  destruct next as [| | |m]; try done. destruct m as [bs| | | | |]; try done. cbn [reader_step receive].
  rewrite on_binary_turn. unfold mbind, M_bind. by destruct (inspect self id peer rc now bs w) as [[[]|e|] w1].
Qed.

Lemma process_packet_turn id peer packet w :
  process_packet self id (Some peer) packet w =
  (answer ← respond self id peer packet;
   match answer with Some answer => queue_for self id answer | None => mret tt end) w.
Proof.
  unfold process_packet, respond. unfold mbind, M_bind, mret, M_ret.
  destruct (env_body packet); try done; by repeat case_match; simplify_eq.
Qed.

Lemma connect_turn id peer now hello auth f1 f2 w :
  connect self id peer now hello auth f1 f2 w =
  (s ← setup self id peer now hello auth f1 f2;
   match s with
   | Some (ses, ctx) => notify_connected self id (Some peer) ctx ;; mret (Some ses)
   | None => mret None
   end) w.
Proof.
  unfold connect, setup. unfold mbind, M_bind, mret, M_ret.
  destruct (refuse_banned peer now w) as [[[]|e|] w1]; [done| |done..].
  destruct (session_codec self id hello f1 w1) as [[c|e|] w2]; [|done..].
  destruct (auth_phase self id peer c auth f2 w2) as [[[timeout ctx]|e|] w3]; [|done..].
  by destruct (register id timeout ctx w3) as [[[]|e|] w4].
Qed.

(** [writer_step] is a receive and, unless the writer has stopped, a write. *)
Lemma writer_step_turn id c failure w :
  writer_step id c failure w =
  match writer_take id c w with
  | Some (_, WWriting m, w') => (writer_socket id m failure w').2
  | Some (_, _, w') => w'
  | None => w
  end.
Proof.
  unfold writer_step, writer_take. destruct (channels w !! id) as [[[|m rest] []]|]; try done.
  set (w1 := set_channels w _). destruct m as [fr|p|pl|]; unfold write_outbound, writer_socket.
  - unfold mbind, M_bind. by destruct failure.
  - unfold mbind, M_bind, m_map_err. destruct (codec_encode c p w1) as [[enc|e|] w2]; cbn; [by destruct failure|done..].
  - unfold mbind, M_bind. by destruct failure.
  - unfold mbind, M_bind, ignore. by destruct failure.
Qed.

(** *** As executions *)
Abbreviation Peers := (gmap string Peer).
Abbreviation Tasks := (gmap nat Task).
Implicit Types (ps : Peers) (js : Tasks).

Lemma reader_run id k rd wr w w' ps js n c : ps !! id = Some k ->
  reader_access self id (addr k) c (at_reader k) (at_writer k) w = Some (rd, wr, w') ->
  rtc (any_step self) (mkServed w ps js n c) (mkServed w' (<[id := set_writer (set_reader k rd) wr]> ps) js n c).
Proof. intros Hk Hr. apply rtc_once. eexists. by eapply VReader. Qed.

Lemma reader_run_on id k rd wr w w' ps js n c :
  reader_access self id (addr k) c (at_reader k) (at_writer k) w = Some (rd, wr, w') ->
  rtc (any_step self) (mkServed w (<[id := k]> ps) js n c)
    (mkServed w' (<[id := set_writer (set_reader k rd) wr]> ps) js n c).
Proof.
  intros Hr. rewrite <- (insert_insert_eq ps id (set_writer (set_reader k rd) wr) k).
  apply reader_run; [apply lookup_insert_eq|done].
Qed.

Lemma reply_run id k ps js n c a b : rtc queue_run a b ->
  rtc (any_step self) (mkServed a.2 (<[id := set_reader k (RReply a.1)]> ps) js n c)
    (mkServed b.2 (<[id := set_reader k (RReply b.1)]> ps) js n c).
Proof.
  induction 1 as [a|[q w] [q1 w1] b [rep Ha] _ IH]; [done|]. cbn [fst snd] in *.
  etransitivity; [|exact IH]. apply (reader_run_on id (set_reader k (RReply q)) (RReply q1) (at_writer k)).
  cbn [at_reader at_writer addr set_reader reader_access]. destruct q; [by rewrite Ha..|done].
Qed.
Lemma task_run id k t ps js n c a b : ps !! id = Some k -> rtc queue_run a b ->
  rtc (any_step self) (mkServed a.2 ps (<[t := TReply id a.1]> js) n c) (mkServed b.2 ps (<[t := TReply id b.1]> js) n c).
Proof.
  intros Hk. induction 1 as [a|[q w] [q1 w1] b [rep Ha] _ IH]; [done|]. cbn [fst snd] in *.
  eapply rtc_l; [|exact IH]. eexists. rewrite <- (insert_insert_eq js t (TReply id q1) (TReply id q)).
  eapply (VTask _ t (addr k) (TReply id q) _ _ None); [apply lookup_insert_eq|cbn; by rewrite Hk|].
  cbn [task_access]. by rewrite Ha.
Qed.

(** Where the reader is after a turn. *)
Definition turned (r : result ServerError Flow) : Reader :=
  match r with
  | Ok Continue => RReading
  | Ok (SpawnHandler packet) => RAcquire packet
  | Ok Stop => RClosing (Ok tt)
  | Err e => RClosing (Err e)
  | Panic => RUnwound
  end.

Lemma inspect_channels id peer rc now bs w : channels (inspect self id peer rc now bs w).2 = channels w.
Proof.
  assert (Hb : preserves (fun w' : W => channels w' = channels w) (inspect self id peer rc now bs)).
  { assert (Hl : forall E ip len, preserves (fun w' : W => channels w' = channels w) (check_limiter (E:=E) id ip len now)).
    { intros E ip len w' Hw. unfold check_limiter. destruct (limiter w'); [|done].
      by destruct (check_and_record _ _ _ _ _). }
    unfold inspect. preserve. }
  by apply Hb.
Qed.
Lemma receive_room id peer rc now next w : no_room id (receive self id peer rc now next w).2 = no_room id w.
Proof.
  unfold no_room. destruct next as [| | |m]; try done. destruct m as [bs| | | | |]; try done. cbn [receive].
  pose proof (inspect_channels id peer rc now bs w) as Hi. destruct (inspect _ _ _ _ _ _ w) as [r w1]. by rewrite <- Hi.
Qed.

Lemma reader_turn_runs id k now next w ps js n c : clients_wf w -> ps !! id = Some k -> at_reader k = RReading ->
  no_room id w = false ->
  rtc (any_step self) (mkServed w ps js n c)
    (mkServed (reader_step self id (addr k) (session k) now next w).2
       (<[id := set_reader k (turned (reader_step self id (addr k) (session k) now next w).1)]> ps) js n c).
Proof.
  intros Hwf Hk Hrd Hroom. rewrite reader_step_turn. rewrite <- (receive_room id (addr k) (session k) now next) in Hroom.
  destruct (receive self id (addr k) (session k) now next w) as [rd w1] eqn:Hr. cbn [snd] in Hroom.
  pose proof (grows_receive self id (addr k) (session k) now next w rd w1 Hr) as [Hcl _].
  assert (Hwf1 : clients_wf w1) by (unfold clients_wf; by rewrite Hcl).
  pose proof (receive_addressed self id (addr k) (session k) now next w) as Haddr. rewrite Hr in Haddr.
  eapply rtc_l; [eexists; by eapply VInput|].
  destruct next as [| |e|m]; [by injection Hr as <- <-..|].
  destruct m as [bs|txt|pl|pl| |]; cbn [receive] in Hr; try (by injection Hr as <- <-).
  - destruct (inspect self id (addr k) (session k) now bs w) as [[[answer|packet|]|e|] w2]; injection Hr as <- <-; try done.
    cbn [finish_turn]. etransitivity; [apply (reply_run id k ps js n c _ _ (queue_for_runs id answer w2 Hwf1 Hroom))|].
    cbn [fst snd]. unfold mbind, M_bind, ignore. destruct (queue_for self id answer w2) as [[[]|e|] w3]; cbn [fst snd map_err turned].
    all: by apply (reader_run_on id (set_reader k (RReply (QDone _))) _ (at_writer k)).
  - injection Hr as <- <-. cbn [finish_turn]. unfold mbind, M_bind, m_try.
    destruct (send id (Pong pl) w) as [r w3] eqn:Hs.
    assert (Hnp : r <> Panic) by (pose proof (send_queued id (Pong pl) w) as [_ H0]; by rewrite Hs in H0).
    destruct r as [[]|e|]; [..|done]; cbn [fst snd turned];
      apply (reader_run_on id (set_reader k (RPong pl)) _ (at_writer k));
      cbn [reader_access at_reader set_reader]; by rewrite Hroom, Hs.
Qed.

Lemma handler_runs t id k packet w ps js n c : let w1 := (respond self id (addr k) packet w).2 in
  clients_wf w1 -> no_room id w1 = false -> ps !! id = Some k -> js !! t = Some (THandle id packet) ->
  rtc (any_step self) (mkServed w ps js n c)
    (mkServed (process_packet self id (Some (addr k)) packet w).2 (<[id := set_slots k (slots k + 1)]> ps) (delete t js) n c).
Proof.
  cbv zeta. intros Hwf Hroom Hk Hj. rewrite process_packet_turn.
  destruct (respond self id (addr k) packet w) as [r w1] eqn:Hr. cbn [snd] in *.
  set (q := match r with Ok (Some answer) => QLookup id answer | Ok None => QDone (Ok tt)
                    | Err e => QDone (Err e) | Panic => QDone Panic end).
  eapply rtc_l; [eexists; eapply (VTask _ t (addr k) (THandle id packet) (TReply id q) None None); [done|cbn; by rewrite Hk|]|].
  { cbn [task_access]. rewrite Hr. done. }
  assert (Hend : exists e, rtc queue_run (q, w1) (QDone e, ((answer ← respond self id (addr k) packet;
        match answer with Some answer => queue_for self id answer | None => mret tt end) w).2)).
  { unfold mbind, M_bind. rewrite Hr. subst q. destruct r as [[answer|]|e|]; [eexists; by apply queue_for_runs|by eexists..]. }
  destruct Hend as [e He]. etransitivity; [apply (task_run id k t ps js n c _ _ Hk He)|]. cbn [fst snd].
  rewrite <- (delete_insert_eq js t (TReply id (QDone e))). apply rtc_once. eexists.
  eapply VReplied; [apply lookup_insert_eq|done].
Qed.

Lemma setup_runs id peer now hello auth f1 f2 ses w w' ps js n c : ps !! id = None -> channels w !! id = None ->
  connect self id peer now hello auth f1 f2 w = (Ok (Some ses), w') ->
  exists k, at_reader k = RNotice (notice_push self id) /\ at_writer k = WIdle /\ session k = ses_codec ses
    /\ slots k = max_in_flight self /\ addr k = peer
    /\ rtc (any_step self) (mkServed w ps js n c) (mkServed w' (<[id := k]> ps) js n c).
Proof.
  intros Hid Hch. rewrite connect_turn. unfold mbind, M_bind.
  destruct (setup self id peer now hello auth f1 f2 w) as [[[[ses0 ctx]|]|e|] w1] eqn:Hs; try done.
  destruct (notify_connected self id (Some peer) ctx w1) as [[[]|e|] w2] eqn:Hn; try done. intros [= -> <-].
  set (k0 := mkPeer peer (ses_codec ses) (max_in_flight self) (RConnected ctx) WUnborn (wire_of id w1) []).
  exists (set_writer (set_reader k0 (RNotice (notice_push self id))) WIdle). split_and!; try done.
  eapply rtc_l; [eexists; by eapply VSetup|]. apply (reader_run_on id k0). cbn. by rewrite Hn.
Qed.

Lemma writer_runs id k failure m rest w ps js n c : ps !! id = Some k -> at_writer k = WIdle ->
  channels w !! id = Some (mkChannel (m :: rest) true) ->
  exists wr, (wr = WIdle \/ wr = WStopped)
    /\ rtc (any_step self) (mkServed w ps js n c)
         (mkServed (writer_step id (session k) failure w) (<[id := take_message k m wr]> ps) js n c).
Proof.
  intros Hk Hwr Hc. rewrite writer_step_turn.
  destruct (writer_take id (session k) w) as [[[m0 wr] w1]|] eqn:Ht.
  2: { unfold writer_take in Ht. rewrite Hc in Ht. discriminate Ht. }
  pose proof (writer_take_cases id (session k) w m0 wr w1 Ht) as (rest' & Hc' & Hcase). assert (m0 = m) as -> by congruence.
  assert (Htake : any_step self (mkServed w ps js n c) (mkServed w1 (<[id := take_message k m wr]> ps) js n c)).
  { eexists. by eapply VTake. }
  destruct Hcase as [[(msg & -> & _) _]|[-> _]]; [|exists WStopped; split; [by right|by apply rtc_once]].
  destruct (writer_socket id msg failure w1) as [wr w2] eqn:Hs. exists wr. split.
  { apply writer_socket_cases in Hs as (w3 & _ & [[-> _]|[-> _]]); auto. }
  eapply rtc_l; [exact Htake|]. apply rtc_once. eexists.
  change (take_message k m wr) with (set_writer (take_message k m (WWriting msg)) wr).
  rewrite <- (insert_insert_eq ps id (set_writer (take_message k m (WWriting msg)) wr) (take_message k m (WWriting msg))).
  eapply (VSocket _ id (take_message k m (WWriting msg)) msg failure wr); [apply lookup_insert_eq|done|done].
Qed.

Lemma teardown_begins id k r w ps js n c : ps !! id = Some k -> at_reader k = RClosing r ->
  rtc (any_step self) (mkServed w ps js n c)
    (mkServed (begin_teardown id w).2 (<[id := set_reader k (RGrace r (c + SERVER_CLOSE_GRACE))]> ps) js n c).
Proof.
  intros Hk Hrd. etransitivity; [apply (reader_run id k (ROffer r) (at_writer k) w (removed id w)); [done|by rewrite Hrd]|].
  by apply (reader_run_on id (set_reader k (ROffer r)) _ (at_writer k)).
Qed.
Lemma teardown_ends id k r d w ps js n c : ps !! id = Some k -> at_reader k = RGrace r d -> at_writer k = WStopped \/ d <= c ->
  rtc (any_step self) (mkServed w ps js n c)
    (mkServed (end_teardown self id (addr k) r w).2 (<[id := set_writer (set_reader k (RGone r)) WStopped]> ps) js n c).
Proof.
  intros Hk Hrd Hd. etransitivity; [apply (reader_run id k (RAbort r) (at_writer k) w w); [done|]|].
  { rewrite Hrd. cbn. destruct Hd as [->|Hd]; [done|]. rewrite bool_decide_true by done. by destruct (at_writer k). }
  etransitivity; [by apply (reader_run_on id (set_reader k (RAbort r)) (RNotify r) WStopped)|].
  by apply (reader_run_on id (set_writer (set_reader k (RNotify r)) WStopped)).
Qed.

(** C23: the operations of [ServerRuntime] and of [ServerHandle] are uninterrupted
    runs of their accesses.  [queue_for], when its channel has room,
    [broadcast_event] and [send_event_to] are executions of their accesses that
    end with the result and the state of the operation.  Of the whole server, from
    every state: a turn of the reader ([reader_step]) and a handler task
    ([process_packet]), when what they queue has room, the setup of a connection
    ([connect]), a turn of the writer ([writer_step]) and both halves of a teardown
    ([begin_teardown], [end_teardown]) are executions of single steps of their
    task that end in the state of the operation, with the task where the
    operation's result puts it. *)
Theorem server_operations_refine id target h name data atts packet w ps js n c :
  clients_wf w ->
  (no_room id w = false ->
     rtc queue_run (QLookup id packet, w) (QDone (queue_for self id packet w).1, (queue_for self id packet w).2))
  /\ rtc push_run (PFetch h None name data atts, w)
       (PDone (broadcast_event h name data atts w).1, (broadcast_event h name data atts w).2)
  /\ rtc push_run (PFetch h (Some target) name data atts, w)
       (PDone (send_event_to h target name data atts w).1, (send_event_to h target name data atts w).2)
  /\ (forall k now next, ps !! id = Some k -> at_reader k = RReading -> no_room id w = false ->
       let '(r, w') := reader_step self id (addr k) (session k) now next w in
       rtc (any_step self) (mkServed w ps js n c) (mkServed w' (<[id := set_reader k (turned r)]> ps) js n c))
  /\ (forall k t, ps !! id = Some k -> js !! t = Some (THandle id packet) ->
       let w1 := (respond self id (addr k) packet w).2 in clients_wf w1 -> no_room id w1 = false ->
       rtc (any_step self) (mkServed w ps js n c)
         (mkServed (process_packet self id (Some (addr k)) packet w).2 (<[id := set_slots k (slots k + 1)]> ps)
            (delete t js) n c))
  /\ (forall peer now hello auth f1 f2 ses w', ps !! id = None -> channels w !! id = None ->
       connect self id peer now hello auth f1 f2 w = (Ok (Some ses), w') ->
       exists k, at_reader k = RNotice (notice_push self id) /\ at_writer k = WIdle /\ session k = ses_codec ses
         /\ slots k = max_in_flight self /\ addr k = peer
         /\ rtc (any_step self) (mkServed w ps js n c) (mkServed w' (<[id := k]> ps) js n c))
  /\ (forall k failure m rest, ps !! id = Some k -> at_writer k = WIdle ->
       channels w !! id = Some (mkChannel (m :: rest) true) ->
       exists wr, (wr = WIdle \/ wr = WStopped)
         /\ rtc (any_step self) (mkServed w ps js n c)
              (mkServed (writer_step id (session k) failure w) (<[id := take_message k m wr]> ps) js n c))
  /\ (forall k r, ps !! id = Some k -> at_reader k = RClosing r ->
       rtc (any_step self) (mkServed w ps js n c)
         (mkServed (begin_teardown id w).2 (<[id := set_reader k (RGrace r (c + SERVER_CLOSE_GRACE))]> ps) js n c))
  /\ (forall k r d, ps !! id = Some k -> at_reader k = RGrace r d -> at_writer k = WStopped \/ d <= c ->
       rtc (any_step self) (mkServed w ps js n c)
         (mkServed (end_teardown self id (addr k) r w).2 (<[id := set_writer (set_reader k (RGone r)) WStopped]> ps) js n c)).
Proof.
  intros Hwf. split_and!.
  - intros Hs. by apply queue_for_runs.
  - apply broadcast_runs.
  - apply send_event_to_runs.
  - intros k now next Hk Hrd Hs. pose proof (reader_turn_runs id k now next w ps js n c Hwf Hk Hrd Hs) as Hrun.
    by destruct (reader_step self id (addr k) (session k) now next w).
  - intros k t Hk Hj w1 Hwf1 Hs. by apply handler_runs.
  - intros *. apply setup_runs.
  - intros *. apply writer_runs.
  - intros *. apply teardown_begins.
  - intros *. apply teardown_ends.
Qed.
End Refinement.

(** ** Schedules: executions by the moves of their tasks *)
Section Schedules.
Context {J : SerdeJson} {C : Crypto} {X : X25519} {H : Sha256} {TX : ErrorTexts} {App : Type}.
Context (self : WscallServer (App:=App)).

Inductive Move : Type :=
| MSetup (id : string) (peer : SocketAddr) (now : Z) (hello auth : Next)
| MRead (id : string)
| MInput (id : string) (now : Z) (next : Next)
| MGrant (id : string)
| MTake (id : string)
| MSocket (id : string) (failure : option string)
| MTask (t : nat) (visit : option string)
| MReplied (t : nat)
| MPush (target : option string) (name : string) (data : object_map)
| MTime (c : Z).

Definition move (mv : Move) (f : Served (App:=App)) : option (Label * Served (App:=App)) :=
  let '(mkServed w ps js n c) := f in
  match mv with
  | MSetup id peer now hello auth =>
      if bool_decide (ps !! id = None) && bool_decide (channels w !! id = None) then
        match setup self id peer now hello auth None None w with
        | (Ok (Some (ses, ctx)), w') =>
            Some (None, mkServed w' (<[id := mkPeer peer (ses_codec ses) (max_in_flight self) (RConnected ctx) WUnborn
                                               (wire_of id w') []]> ps) js n c)
        | _ => None
        end
      else None
  | MRead id =>
      match ps !! id with None => None | Some k =>
      match reader_access self id (addr k) c (at_reader k) (at_writer k) w with
      | Some (rd, wr, w') => Some (None, mkServed w' (<[id := set_writer (set_reader k rd) wr]> ps) js n c)
      | None => None
      end end
  | MInput id now next =>
      match ps !! id with None => None | Some k =>
      match at_reader k with
      | RReading =>
          let '(rd, w') := receive self id (addr k) (session k) now next w in
          Some (None, mkServed w' (<[id := set_reader k rd]> ps) js n c)
      | _ => None
      end end
  | MGrant id =>
      match ps !! id with None => None | Some k =>
      match at_reader k with
      | RAcquire packet =>
          if 0 <? slots k
          then Some (None, mkServed w (<[id := set_slots (set_reader k RReading) (slots k - 1)]> ps)
                             (<[n := THandle id packet]> js) (S n) c)
          else None
      | _ => None
      end end
  | MTake id =>
      match ps !! id with None => None | Some k =>
      match at_writer k with
      | WIdle =>
          match writer_take id (session k) w with
          | Some (m, wr, w') => Some (None, mkServed w' (<[id := take_message k m wr]> ps) js n c)
          | None => None
          end
      | _ => None
      end end
  | MSocket id failure =>
      match ps !! id with None => None | Some k =>
      match at_writer k with
      | WWriting m =>
          let '(wr, w') := writer_socket id m failure w in
          Some (None, mkServed w' (<[id := set_writer k wr]> ps) js n c)
      | _ => None
      end end
  | MTask t visit =>
      match js !! t with None => None | Some k =>
      match match task_peer k with Some id => addr <$> ps !! id | None => Some (V4 0, 0) end with
      | None => None
      | Some a =>
          match task_access self a visit k w with
          | Some (rep, k', w') => Some ((fun r => (t, r)) <$> rep, mkServed w' ps (<[t := k']> js) n c)
          | None => None
          end
      end end
  | MReplied t =>
      match js !! t with
      | Some (TReply id (QDone _)) =>
          match ps !! id with None => None | Some k =>
          Some (None, mkServed w (<[id := set_slots k (slots k + 1)]> ps) (delete t js) n c) end
      | _ => None
      end
  | MPush target name data =>
      Some (None, mkServed w ps (<[n := TPush (PFetch (handle self) target name data [])]> js) (S n) c)
  | MTime c' => if c <=? c' then Some (None, mkServed w ps js n c') else None
  end.

Fixpoint moves (mvs : list Move) (f : Served (App:=App)) : option (list Label * Served (App:=App)) :=
  match mvs with
  | [] => Some ([], f)
  | mv :: mvs =>
      match move mv f with
      | None => None
      | Some (l, f') => match moves mvs f' with None => None | Some (ls, f'') => Some (l :: ls, f'') end
      end
  end.

Lemma served_move_sound mv f l f' : move mv f = Some (l, f') -> served_step self l f f'.
Proof.
  destruct f as [w ps js n c], mv as [id peer now hello auth|id|id now next|id|id|id failure|t visit|t|target name data|c']; cbn [move].
  - case_bool_decide; [|done]. case_bool_decide; [|done]. cbn.
    destruct (setup _ _ _ _ _ _ _ _ w) as [[[[ses ctx]|]|e|] w'] eqn:Hs; try done. intros [= <- <-]. by eapply VSetup.
  - destruct (ps !! id) as [k|] eqn:Hk; [|done].
    destruct (reader_access _ _ _ _ _ _ w) as [[[rd wr] w']|] eqn:Hr; [|done]. intros [= <- <-]. by eapply VReader.
  - destruct (ps !! id) as [k|] eqn:Hk; [|done]. destruct (at_reader k) eqn:Hrd; try done.
    destruct (receive _ _ _ _ _ _ w) as [rd w'] eqn:Hr. intros [= <- <-]. by eapply VInput.
  - destruct (ps !! id) as [k|] eqn:Hk; [|done]. destruct (at_reader k) eqn:Hrd; try done.
    destruct (0 <? slots k) eqn:Hs; [|done]. intros [= <- <-]. eapply VAcquire; [done..|lia].
  - destruct (ps !! id) as [k|] eqn:Hk; [|done]. destruct (at_writer k) eqn:Hwr; try done.
    destruct (writer_take _ _ w) as [[[m wr] w']|] eqn:Ht; [|done]. intros [= <- <-]. by eapply VTake.
  - destruct (ps !! id) as [k|] eqn:Hk; [|done]. destruct (at_writer k) eqn:Hwr; try done.
    destruct (writer_socket _ _ _ w) as [wr w'] eqn:Hs. intros [= <- <-]. by eapply VSocket.
  - destruct (js !! t) as [k|] eqn:Hk; [|done].
    destruct (match task_peer k with Some id => addr <$> ps !! id | None => Some (V4 0, 0) end) as [a|] eqn:Ha; [|done]. cbn.
    destruct (task_access _ _ _ _ w) as [[[rep k'] w']|] eqn:Ht; [|done]. intros [= <- <-].
    eapply VTask; [done| |done]. by destruct (task_peer k).
  - destruct (js !! t) as [[| id [| | |r]|]|] eqn:Hk; try done. destruct (ps !! id) as [k|] eqn:Hp; [|done]. cbn.
    intros [= <- <-]. by eapply VReplied.
  - intros [= <- <-]. apply VPush.
  - destruct (c <=? c') eqn:Hc; [|done]. intros [= <- <-]. apply VTick. lia.
Qed.

Lemma trace_cons l ls f1 f2 f3 : served_step self l f1 f2 -> served_trace self ls f2 f3 ->
  served_trace self (l :: ls) f1 f3.
Proof.
  intros Hs. induction 1 as [f|ls l' f2 f3 f4 _ IH Hs']; [by apply (VSnoc _ [] l f1 f1); [constructor|]|].
  apply (VSnoc _ (l :: ls) l' f1 f3); auto.
Qed.
Lemma served_moves_sound mvs : forall f ls f', moves mvs f = Some (ls, f') -> served_trace self ls f f'.
Proof.
  induction mvs as [|mv mvs IH]; intros f ls f'; cbn [moves]; [intros [= <- <-]; constructor|].
  destruct (move mv f) as [[l f1]|] eqn:Hm; [|done]. destruct (moves mvs f1) as [[ls1 f2]|] eqn:Hms; [|done].
  intros [= <- <-]. eapply trace_cons; [by eapply served_move_sound|by apply IH].
Qed.
Lemma trace_reach ls f g : served_trace self ls f g -> rtc (any_step self) f g.
Proof. induction 1 as [f|ls l f1 f2 f3 _ IH Hs]; [done|]. eapply rtc_r; [done|]. by exists l. Qed.

(** The state after a schedule. *)
Definition after (mvs : list Move) (f : Served (App:=App)) : Served (App:=App) :=
  match moves mvs f with Some (_, f') => f' | None => f end.
Lemma after_reach mvs f : rtc (any_step self) f (after mvs f).
Proof.
  unfold after. destruct (moves mvs f) as [[ls f']|] eqn:Hm; [|done]. eapply trace_reach. by eapply served_moves_sound.
Qed.
Lemma moves_app mvs mvs' f : moves (mvs ++ mvs') f =
  match moves mvs f with
  | None => None
  | Some (ls, f1) => match moves mvs' f1 with None => None | Some (ls', f2) => Some (ls ++ ls', f2) end
  end.
Proof.
  revert f. induction mvs as [|mv mvs IH]; intros f; simpl.
  { by destruct (moves mvs' f) as [[]|]. }
  destruct (move mv f) as [[l f1]|]; [|done]. rewrite IH. destruct (moves mvs f1) as [[ls f2]|]; [|done].
  by destruct (moves mvs' f2) as [[]|].
Qed.
(** The schedule can be carried out. *)
Definition feasible (mvs : list Move) (f : Served (App:=App)) : bool :=
  match moves mvs f with Some _ => true | None => false end.
Lemma after_app mvs mvs' f : feasible (mvs ++ mvs') f = true -> after (mvs ++ mvs') f = after mvs' (after mvs f).
Proof.
  unfold after, feasible. rewrite moves_app. destruct (moves mvs f) as [[ls f1]|]; [|done].
  by destruct (moves mvs' f1) as [[ls' f2]|].
Qed.
End Schedules.

(** ** Instances *)
#[local] Existing Instances bit_json xor_x25519 prefix_sha256 plain_texts.

(** A server without authentication that echoes parameters, one request of a
    connection at a time. *)
Definition small_server : WscallServer (App:=unit) :=
  with_max_in_flight (route server_new "echo" (fun ctx => mret (ac_params ctx))) 1.

Lemma small_push : handlers_push small_server.
Proof.
  intros w. split; [constructor|]. split; [|split; [|split; [constructor|split; [constructor|by split]]]].
  - apply map_Forall_singleton. intros ctx w' Hw. exact Hw.
  - apply map_Forall_empty.
Qed.

Definition small_start : Served (App:=unit) := served_init small_server sample_entropy tt 0.
Definition small_run (mvs : list Move) : Served (App:=unit) := after small_server mvs small_start.

(** A connection is set up and its notice queued. *)
Definition opening (id : string) : list Move := MSetup id peer1 0 EndOfStream EndOfStream :: replicate 6 (MRead id).
(** A request is read and its handler task [t] spawned. *)
Definition asking (id : string) : list Move := [MInput id 0 (Received (MBinary echo_frame)); MGrant id].
(** The handler task runs up to its [send]. *)
Definition answering (t : nat) : list Move := replicate 4 (MTask t None).
Definition writing (id : string) : list Move := [MTake id; MSocket id None].

Definition busy_moves : list Move :=
  opening "c1" ++ opening "c2" ++ asking "c1" ++ asking "c2" ++ answering 1 ++ answering 0 ++ [MTake "c1"].
Definition quiet_moves : list Move :=
  [MSocket "c1" None; MReplied 0; MReplied 1] ++ writing "c2" ++ writing "c1" ++ writing "c2".

Definition has_peer (id : string) (f : Served (App:=unit)) : bool :=
  match peers f !! id with Some _ => true | None => false end.
Lemma has_peer_Some id f : has_peer id f = true -> exists k, peers f !! id = Some k.
Proof. unfold has_peer. destruct (peers f !! id) as [k|]; [by exists k|done]. Qed.

Lemma server_memory_bounded_witness : exists k, peers (small_run busy_moves) !! "c1" = Some k
  /\ slots k + running "c1" (jobs (small_run busy_moves)) = 1.
Proof.
  destruct (has_peer_Some "c1" (small_run busy_moves)) as [k Hk]; [vm_compute; reflexivity|].
  exists k. split; [exact Hk|].
  apply (server_memory_bounded small_server sample_entropy tt 0 (small_run busy_moves) small_push
    ltac:(vm_compute; discriminate) (after_reach _ _ _) "c1"). exact Hk.
Defined.

(** Two frames are written to the first connection, as they were queued. *)
Lemma delivery_in_order_witness : exists k out written rest,
  wire_of "c1" (world (small_run (busy_moves ++ quiet_moves))) = greeting k ++ out
  /\ accepted_by (small_run (busy_moves ++ quiet_moves)) "c1" = written ++ rest
  /\ Forall2 (rendered (session k)) written (base.filter not_ping out).
Proof.
  destruct (has_peer_Some "c1" (small_run busy_moves)) as [k Hk]; [vm_compute; reflexivity|].
  assert (Hlater : rtc (any_step small_server) (small_run busy_moves) (small_run (busy_moves ++ quiet_moves))).
  { assert (Hf : feasible small_server (busy_moves ++ quiet_moves) small_start = true) by (vm_compute; reflexivity).
    unfold small_run. rewrite (after_app _ _ _ _ Hf). apply after_reach. }
  destruct (delivery_in_order small_server sample_entropy tt 0 _ _ "c1" k small_push (after_reach _ _ _)
    Hlater Hk) as (k' & out & wr & rest & Hk' & _ & [more Hmore] & Ho & Htk & _ & Hf).
  exists k, out, wr, (rest ++ more). split; [exact Ho|]. split; [|exact Hf].
  rewrite Hmore, Htk, <- app_assoc. reflexivity.
Defined.
(** They are the notice and the answer. *)
Example delivery_sample :
  length (wire_of "c1" (world (small_run (busy_moves ++ quiet_moves)))) = 2%nat
  /\ length (wire_of "c2" (world (small_run (busy_moves ++ quiet_moves)))) = 2%nat.
Proof. vm_compute. done. Qed.

(** Where "c1" has been set up; a request arrives, its handler task runs to its
    end and its answer is written. *)
Lemma server_operations_refine_witness :
  let f := small_run (opening "c1") in
  exists k k', peers f !! "c1" = Some k
  /\ rtc (any_step small_server) f
       (mkServed (world f) (<["c1" := set_reader k (RAcquire echo_envelope)]> (peers f)) (jobs f) (spawned f) (clock f))
  /\ rtc (any_step small_server) f
       (mkServed (writer_step "c1" (session k) None (world f)) (<["c1" := k']> (peers f)) (jobs f) (spawned f) (clock f)).
Proof.
  cbv zeta. remember (small_run (opening "c1")) as f eqn:Hrun.
  assert (Hwf : clients_wf (world f)).
  { rewrite Hrun. destruct (served_reach_inv small_server small_start (small_run (opening "c1")) small_push
      (after_reach small_server (opening "c1") small_start) (served_init_inv small_server sample_entropy tt 0)) as [[Ht _] _].
    exact (ti_wf _ _ Ht). }
  destruct (has_peer_Some "c1" f) as [k Hk]; [rewrite Hrun; vm_compute; reflexivity|].
  destruct (server_operations_refine small_server "c1" "c1" (handle small_server) "e" ∅ [] echo_envelope
    (world f) (peers f) (jobs f) (spawned f) (clock f) Hwf) as (_ & _ & _ & Hturn & _ & _ & Hwrite & _).
  assert (Hf : f = mkServed (world f) (peers f) (jobs f) (spawned f) (clock f)) by (destruct f; reflexivity).
  assert (Hst : match peers f !! "c1" with Some k => match at_reader k, at_writer k with RReading, WIdle => true | _, _ => false end
    | None => false end = true) by (rewrite Hrun; vm_compute; reflexivity).
  rewrite Hk in Hst. destruct (at_reader k) eqn:Hrd; try discriminate Hst. destruct (at_writer k) eqn:Hwr; try discriminate Hst.
  assert (Hturned : match peers f !! "c1" with Some k =>
      reader_step small_server "c1" (addr k) (session k) 0 (Received (MBinary echo_frame)) (world f)
    | None => (Panic, world f) end = (Ok (SpawnHandler echo_envelope), world f)) by (rewrite Hrun; vm_compute; reflexivity).
  rewrite Hk in Hturned.
  assert (Hq : match channels (world f) !! "c1" with Some (mkChannel (_ :: _) true) => true | _ => false end = true)
    by (rewrite Hrun; vm_compute; reflexivity).
  destruct (channels (world f) !! "c1") as [[[|m rest] []]|] eqn:Hc; try discriminate Hq.
  assert (Hroom : no_room "c1" (world f) = false) by (rewrite Hrun; vm_compute; reflexivity).
  destruct (Hwrite k None m rest Hk Hwr eq_refl) as (wr & _ & Hwrun).
  exists k, (take_message k m wr). split; [exact Hk|]. split.
  - specialize (Hturn k 0 (Received (MBinary echo_frame)) Hk Hrd Hroom). rewrite Hturned in Hturn.
    rewrite <- Hf in Hturn. exact Hturn.
  - rewrite <- Hf in Hwrun. exact Hwrun.
Defined.
