(* ===== verification/ServerFlow.v ===== *)
(** * What the server's tasks achieve together

    Executions of [ServerThreads]: how a broadcast goes on while connections come
    and go, that handler tasks and teardowns end, and two ways in which one peer or
    one packet keeps a connection from working. *)

From S2P Require Import Prelude Utf8 Json Protocol Texts Attachment PacketJson Codec RateLimiter.
From S2P Require Import Validation ServerTypes ServerRuntime ServerSystem ServerThreads.
#[local] Open Scope Z_scope.

Section Properties.
Context {J : SerdeJson} {C : Crypto} {X : X25519} {H : Sha256} {TX : ErrorTexts} {App : Type}.
Abbreviation W := (World App).
Context (self : WscallServer (App:=App)).
Context (ent : nat -> Z -> result string bytes) (a0 : App) (t0 : Z).
Implicit Types (w : W).
Abbreviation step := (any_step self).
Abbreviation init := (served_init self ent a0 t0).

(** *** The phases of a reader *)

(** The reader of a connection moves towards the end of its teardown. *)
Definition phase (rd : Reader) : nat :=
  match rd with
  | RClosing _ => 5 | ROffer _ => 4 | RGrace _ _ => 3 | RAbort _ => 2 | RNotify _ => 1 | RGone _ => 0 | _ => 6
  end.
Lemma phase_open rd : is_open rd = false <-> (phase rd <= 4)%nat.
Proof. destruct rd; cbn; split; try done; lia. Qed.
Lemma phase_over rd : is_over rd = true <-> (phase rd <= 1)%nat.
Proof. destruct rd; cbn; split; try done; lia. Qed.

Lemma reader_access_phase id a c rd wr w rd' wr' w' :
  reader_access self id a c rd wr w = Some (rd', wr', w') ->
  (phase rd' <= phase rd)%nat /\ ((phase rd < 6)%nat -> (phase rd' < phase rd)%nat).
Proof.
  destruct rd as [auth|p| |q|pl|pk|r|r|r d|r|r|r|]; cbn [reader_access]; try done.
  - intros [= <- _ _]. cbn. lia.
  - destruct p; try (intros [= <- _ _]; destruct r; cbn; lia).
    all: destruct (push_access _ None w) as [[[]]|]; [|done]; intros [= <- _ _]; cbn; lia.
  - destruct q; try (intros [= <- _ _]; destruct r; cbn; lia).
    all: destruct (queue_access self _ w) as [[[]]|]; [|done]; intros [= <- _ _]; cbn; lia.
  - destruct (no_room id w); [done|]. destruct (send id (Pong pl) w) as [[] ?]; intros [= <- _ _]; cbn; lia.
  - intros [= <- _ _]. cbn. lia.
  - intros [= <- _ _]. cbn. lia.
  - destruct wr; repeat case_bool_decide; try done; intros [= <- _ _]; cbn; lia.
  - intros [= <- _ _]. cbn. lia.
  - intros [= <- _ _]. cbn. lia.
Qed.

Lemma phase_step f f' id k : step f f' -> peers f !! id = Some k ->
  exists k', peers f' !! id = Some k' /\ (phase (at_reader k') <= phase (at_reader k))%nat
  /\ ((phase (at_reader k) < 6)%nat -> at_reader k' = at_reader k \/ (phase (at_reader k') < phase (at_reader k))%nat).
Proof.
  intros [l Hs] H0.
  assert (Hkeep : forall (ps : gmap string Peer) i k0 k1, ps !! i = Some k0 -> ps !! id = Some k ->
    (phase (at_reader k1) <= phase (at_reader k0))%nat ->
    ((phase (at_reader k0) < 6)%nat -> at_reader k1 = at_reader k0 \/ (phase (at_reader k1) < phase (at_reader k0))%nat) ->
    exists k', <[i := k1]> ps !! id = Some k' /\ (phase (at_reader k') <= phase (at_reader k))%nat
    /\ ((phase (at_reader k) < 6)%nat -> at_reader k' = at_reader k \/ (phase (at_reader k') < phase (at_reader k))%nat)).
  { intros ps i k0 k1 Hk0 Hk Hle Hlt. destruct (decide (id = i)) as [->|Hne].
    - exists k1. rewrite lookup_insert_eq. by simplify_eq.
    - exists k. rewrite lookup_insert_ne by done. auto. }
  destruct Hs as [i peer now hello auth f1 f2 ses ctx w w' ps js n c Hid Hch Hset
    |i k0 rd wr w w' ps js n c Hk Hr|i k0 now next rd w w' ps js n c Hk Hrd Hr|i k0 packet w ps js n c Hk Hrd Hfree
    |i k0 m wr w w' ps js n c Hk Hwr Htk|i k0 w ps js n c Hk Hwr|i k0 m failure wr w w' ps js n c Hk Hwr Hso
    |t a k0 k' rep visit w w' ps js n c Htk Hp Hacc|t i k0 r w ps js n c Htk Hk| | | |]; cbn [peers] in *;
    try (by exists k; auto).
  - exists k. rewrite lookup_insert_ne by congruence. auto.
  - apply reader_access_phase in Hr as [Hle Hlt]. eapply Hkeep; [done..|]. auto.
  - eapply Hkeep; [done..| |]; cbn; rewrite Hrd; cbn; [destruct rd; cbn; lia|lia].
  - eapply Hkeep; [done..| |]; cbn; rewrite Hrd; cbn; lia.
  - eapply Hkeep; cbn; eauto.
  - eapply Hkeep; cbn; eauto.
  - eapply Hkeep; cbn; eauto.
  - eapply Hkeep; cbn; eauto.
Qed.
Lemma phase_reach f f' id n : rtc step f f' -> (exists k, peers f !! id = Some k /\ (phase (at_reader k) <= n)%nat) ->
  exists k, peers f' !! id = Some k /\ (phase (at_reader k) <= n)%nat.
Proof.
  induction 1 as [|f1 f2 f3 Hs _ IH]; [done|]. intros (k & Hk & Hle). apply IH.
  destruct (phase_step _ _ _ _ Hs Hk) as (k' & Hk' & Hle' & _). exists k'. split; [done|lia].
Qed.
Definition is_client (f : Served (App:=App)) (id : string) : Prop := id ∈ dom (clients (state (world f))).

(** *** Broadcasts *)











(** *** Handler tasks end *)

(** What a handler task still has to do. *)
Definition task_rank (j : Task) : nat :=
  match j with
  | THandle _ _ => 5 | TReply _ (QLookup _ _) => 4 | TReply _ (QEncode _ _) => 3 | TReply _ (QSend _ _) => 2
  | TReply _ (QDone _) => 1 | TPush _ => 0
  end.

Lemma queue_access_rank id q w rep q' w' : queue_access self q w = Some (rep, q', w') ->
  (task_rank (TReply id q') < task_rank (TReply id q))%nat.
Proof.
  destruct q as [i p|key p|key m|r]; cbn [queue_access]; [| | |done].
  - intros [= <- <- <-]. destruct (clients (state w) !! i); [destruct (is_ecdh self)|]; cbn; lia.
  - intros [= <- <- <-]. destruct (encode _ _ _); cbn; lia.
  - destruct (no_room key w); [done|]. destruct (send key m w). intros [= <- <- <-]. cbn. lia.
Qed.
Lemma task_access_rank a visit j w rep j' w' id : task_peer j = Some id ->
  task_access self a visit j w = Some (rep, j', w') -> (task_rank j' < task_rank j)%nat.
Proof.
  intros Hp. destruct j as [i p|i q|p]; [| |done]; cbn [task_access].
  - destruct (respond self i a p w) as [[[]|e|]]; intros [= <- <- <-]; cbn; lia.
  - destruct (queue_access self q w) as [[[rp q1] w1]|] eqn:Hq; [|done]. intros [= <- <- <-]. by eapply queue_access_rank.
Qed.

(** Nobody but the task itself moves it. *)
Lemma task_step f f' t j id : numbered f -> step f f' -> jobs f !! t = Some j -> task_peer j = Some id ->
  jobs f' !! t = None \/ exists j', jobs f' !! t = Some j' /\ task_peer j' = Some id
    /\ (j' = j \/ (task_rank j' < task_rank j)%nat).
Proof.
  intros Hnum [l Hs] Hj Hp. destruct Hs as [| | |i k packet w ps js n c Hk Hrd Hfree| | | |t' a k k' rep visit w w' ps js n c Htk Hpp Hacc
    |t' i k r w ps js n c Htk Hk|t' r w ps js n c Htk|tgt name data atts w ps js n c| |]; cbn [jobs] in *;
    try (right; by eauto).
  - right. exists j. pose proof (Hnum t (ex_intro _ j Hj)) as Hlt. cbn in Hlt. rewrite lookup_insert_ne by lia. eauto.
  - right. destruct (decide (t' = t)) as [->|Hne]; [|exists j; rewrite lookup_insert_ne by done; eauto].
    simplify_eq. exists k'. rewrite lookup_insert_eq. split_and!; [done| |right; by eapply task_access_rank].
    by rewrite (task_access_peer _ _ _ _ _ _ _ _ Hacc).
  - destruct (decide (t' = t)) as [->|Hne]; [left; apply lookup_delete_eq|right; exists j; rewrite lookup_delete_ne by done; eauto].
  - destruct (decide (t' = t)) as [->|Hne]; [left; apply lookup_delete_eq|right; exists j; rewrite lookup_delete_ne by done; eauto].
  - right. exists j. pose proof (Hnum t (ex_intro _ j Hj)) as Hlt. cbn in Hlt. rewrite lookup_insert_ne by lia. eauto.
Qed.

(** It can move, unless it waits for room in its connection's channel. *)
Lemma task_enabled f t j id : served_inv self f -> jobs f !! t = Some j -> task_peer j = Some id ->
  no_room id (world f) = false -> exists f', step f f' /\ jobs f' !! t <> jobs f !! t.
Proof.
  intros [[Ht Hk] Hn] Hj Hp Hs. destruct (ki_peer _ _ _ Hk _ _ _ Hj Hp) as [k Hpeer].
  destruct f as [w ps js n c]. cbn [world peers jobs] in *.
  assert (Hmove : forall rep j' w', task_access self (addr k) None j w = Some (rep, j', w') ->
    exists f', step (mkServed w ps js n c) f' /\ jobs f' !! t <> js !! t).
  { intros rep j' w' Ha. exists (mkServed w' ps (<[t := j']> js) n c). split.
    - eexists. eapply (VTask _ t (addr k) j); [done| |done]. by rewrite Hp, Hpeer.
    - cbn [jobs]. rewrite lookup_insert_eq, Hj. intros [= ->]. pose proof (task_access_rank _ _ _ _ _ _ _ _ Hp Ha). lia. }
  destruct j as [i p|i q|p]; [| |done]; cbn in Hp; injection Hp as ->.
  - destruct (respond self id (addr k) p w) as [r w'] eqn:Hr. eapply Hmove. cbn [task_access]. by rewrite Hr.
  - pose proof (ki_addressed _ _ _ Hk _ _ Hj) as Ha. cbn in Ha.
    destruct q as [i p|key p|key m|r]; cbn in Ha; subst.
    + by eapply Hmove.
    + by eapply Hmove.
    + cbn [task_access queue_access] in Hmove. rewrite Hs in Hmove. destruct (send id m w) as [r w']. by eapply Hmove.
    + exists (mkServed w (<[id := set_slots k (slots k + 1)]> ps) (delete t js) n c). split.
      * eexists. by eapply VReplied.
      * cbn [jobs]. by rewrite lookup_delete_eq, Hj.
Qed.

(** An infinite execution that is fair to task [t]: when [t] can move again and
    again, it moves. *)
Definition fair_to (t : nat) (run : nat -> Served (App:=App)) : Prop :=
  forall i, (forall j, (i <= j)%nat -> exists l, (j <= l)%nat /\
      (jobs (run l) !! t = None \/ exists f', step (run l) f' /\ jobs f' !! t <> jobs (run l) !! t)) ->
  exists j, (i <= j)%nat /\ (jobs (run j) !! t = None \/ jobs (run (S j)) !! t <> jobs (run j) !! t).

Lemma over_has_room f id k : served_inv self f -> peers f !! id = Some k -> is_over (at_reader k) = true ->
  no_room id (world f) = false.
Proof.
  intros [[Ht Hk] _] Hp Ho. unfold no_room. destruct (channels (world f) !! id) as [c|] eqn:Hc; [|done].
  rewrite (ti_live _ _ Ht _ _ _ Hp Hc). by rewrite (ki_over _ _ _ Hk _ _ Hp Ho).
Qed.

Lemma run_reach (run : nat -> Served (App:=App)) i j : (forall i, step (run i) (run (S i))) -> (i <= j)%nat -> rtc step (run i) (run j).
Proof. intros Hrun. induction 1 as [|j _ IH]; [done|]. by eapply rtc_r. Qed.

Lemma spawned_step f f' : step f f' -> (spawned f <= spawned f')%nat.
Proof. intros [l []]; cbn; lia. Qed.
Lemma gone_step f f' t : step f f' -> (t < spawned f)%nat -> jobs f !! t = None ->
  (t < spawned f')%nat /\ jobs f' !! t = None.
Proof.
  intros [l Hs] Hlt Hn. destruct Hs as [| | | | | | |t' a k k' rep visit w w' ps js n c Htk| | | | |]; cbn [jobs spawned] in *;
    try done; rewrite ?lookup_insert_ne, ?lookup_delete_None by (congruence || lia); auto with lia.
Qed.

Lemma task_mono (run : nat -> Served (App:=App)) t i j jb id :
  (forall i, numbered (run i)) -> (forall i, step (run i) (run (S i))) -> (i <= j)%nat ->
  jobs (run i) !! t = Some jb -> task_peer jb = Some id ->
  ((t < spawned (run j))%nat /\ jobs (run j) !! t = None)
  \/ exists jb', jobs (run j) !! t = Some jb' /\ task_peer jb' = Some id /\ (task_rank jb' <= task_rank jb)%nat.
Proof.
  intros Hnum Hrun Hle Hj Hp. induction Hle as [|j Hle [[Hlt Hgone]|(j1 & H1 & Hp1 & Hr1)]]; [by eauto|left; by eapply gone_step|].
  destruct (task_step _ _ _ _ _ (Hnum j) (Hrun j) H1 Hp1) as [Hn|(j2 & H2 & Hp2 & [->|Hlt])]; [left|by eauto|].
  { split; [|done]. pose proof (Hnum j t (ex_intro _ j1 H1)). pose proof (spawned_step _ _ (Hrun j)). lia. }
  right. exists j2. split_and!; [done..|lia].
Qed.

(** The end of a handler task gives its permit back. *)
Lemma task_ends f f' t j id : step f f' -> jobs f !! t = Some j -> task_peer j = Some id -> jobs f' !! t = None ->
  exists k r, j = TReply id (QDone r) /\ peers f !! id = Some k
  /\ peers f' = <[id := set_slots k (slots k + 1)]> (peers f) /\ jobs f' = delete t (jobs f).
Proof.
  intros [l Hs] Hj Hp Hn. destruct Hs as [| | |i k packet w ps js n c Hk Hrd Hfree| | | |t' a k k' rep visit w w' ps js n c Htk Hpp Hacc
    |t' i k r w ps js n c Htk Hk|t' r w ps js n c Htk|tgt name data atts w ps js n c| |]; cbn [jobs peers] in *;
    try congruence.
  - apply lookup_insert_None in Hn as [Hn _]. congruence.
  - apply lookup_insert_None in Hn as [Hn _]. congruence.
  - destruct (decide (t' = t)) as [->|Hne]; [|rewrite lookup_delete_ne in Hn by done; congruence].
    simplify_eq. cbn in Hp. injection Hp as ->. by exists k, r.
  - destruct (decide (t' = t)) as [->|Hne]; [simplify_eq; done|rewrite lookup_delete_ne in Hn by done; congruence].
  - apply lookup_insert_None in Hn as [Hn _]. congruence.
Qed.
(** There is a last moment of a task that is gone. *)
Lemma last_moment (run : nat -> Served (App:=App)) t l j : jobs (run 0%nat) !! t = Some j -> jobs (run l) !! t = None ->
  exists i, (i < l)%nat /\ is_Some (jobs (run i) !! t) /\ jobs (run (S i)) !! t = None.
Proof.
  intros Hj. induction l as [|l IH]; intros Hn; [congruence|].
  destruct (jobs (run l) !! t) as [j'|] eqn:Hl; [exists l; split; [lia|by rewrite Hl]|].
  destruct (IH eq_refl) as (i & Hi & H1 & H2). exists i. split; [lia|done].
Qed.

Lemma tasks_come_to_end (run : nat -> Served (App:=App)) t j id : handlers_push self -> rtc step init (run 0%nat) ->
  (forall i, step (run i) (run (S i))) -> fair_to t run ->
  jobs (run 0%nat) !! t = Some j -> task_peer j = Some id ->
  (exists i k, peers (run i) !! id = Some k /\ is_over (at_reader k) = true)
  \/ (forall i, exists l, (i <= l)%nat /\ no_room id (world (run l)) = false) ->
  exists l, jobs (run l) !! t = None.
Proof.
  intros Hh Hr Hrun Hfair Hj Hp Hroom.
  assert (Hinv : forall i, served_inv self (run i)).
  { intros i. eapply served_reach_inv; [done| |apply (served_init_inv self ent a0 t0)].
    etransitivity; [done|]. apply run_reach; [done|lia]. }
  assert (Hfree : forall i, exists l, (i <= l)%nat /\ no_room id (world (run l)) = false).
  { destruct Hroom as [(i0 & k & Hk & Ho)|?]; [|done]. intros i. exists (i0 `max` i)%nat. split; [lia|].
    apply phase_over in Ho. destruct (phase_reach (run i0) (run (i0 `max` i)%nat) id 1) as (k' & Hk' & Ho').
    - apply run_reach; [done|lia].
    - by exists k.
    - eapply over_has_room; [done..|]. by apply phase_over. }
  enough (forall n i jb, (task_rank jb <= n)%nat -> jobs (run i) !! t = Some jb -> task_peer jb = Some id ->
    exists l, jobs (run l) !! t = None) as Hall by (by eapply (Hall _ 0%nat)).
  clear j Hj Hp Hroom. induction n as [|n IH]; intros i jb Hn Hj Hp.
  { destruct jb as [|? []|]; cbn in Hn, Hp; try lia; done. }
  destruct (Hfair i) as (l & Hil & Hmove).
  { intros l Hl. destruct (Hfree l) as (l' & Hl' & Hs). exists l'. split; [done|].
    destruct (task_mono run t i l' jb id (fun i => proj2 (Hinv i)) Hrun) as [[_ Hx]|(j1 & H1 & Hp1 & _)]; [lia|done..|by left|].
    right. by eapply task_enabled. }
  destruct (task_mono run t i l jb id (fun i => proj2 (Hinv i)) Hrun Hil Hj Hp) as [[_ Hx]|(j1 & H1 & Hp1 & Hr1)]; [by eauto|].
  destruct Hmove as [Hm|Hm]; [by eauto|].
  destruct (task_step _ _ _ _ _ (proj2 (Hinv l)) (Hrun l) H1 Hp1) as [Hg|(j2 & H2 & Hp2 & [->|Hlt])]; [by eauto|congruence|].
  apply (IH (S l) j2); [lia|done..].
Qed.

(** C11: every handler task ends and gives its permit back, and a teardown releases
    the tasks that wait for its connection.  In every infinite execution that is
    fair to a handler task, if its connection's channel has room again and again,
    or if the teardown of the connection gets past the abort of the writer (then a
    task that waits for room in the channel, however full, fails instead of waiting
    for ever), there is a moment at which the task has the outcome of its
    [queue_for], and with the next step it is gone and its connection has one
    permit more. *)
Theorem handler_tasks_end (run : nat -> Served (App:=App)) t j id : handlers_push self -> rtc step init (run 0%nat) ->
  (forall i, step (run i) (run (S i))) -> fair_to t run ->
  jobs (run 0%nat) !! t = Some j -> task_peer j = Some id ->
  (exists i k, peers (run i) !! id = Some k /\ is_over (at_reader k) = true)
  \/ (forall i, exists l, (i <= l)%nat /\ no_room id (world (run l)) = false) ->
  exists l k r, jobs (run l) !! t = Some (TReply id (QDone r)) /\ peers (run l) !! id = Some k
  /\ jobs (run (S l)) = delete t (jobs (run l)) /\ peers (run (S l)) = <[id := set_slots k (slots k + 1)]> (peers (run l)).
Proof.
  intros Hh Hr Hrun Hfair Hj Hp Hroom.
  destruct (tasks_come_to_end run t j id Hh Hr Hrun Hfair Hj Hp Hroom) as [l Hl].
  destruct (last_moment run t l j Hj Hl) as (i & _ & [j' Hi] & Hn).
  assert (Hnum : forall i, numbered (run i)).
  { intros i0. eapply served_reach_inv; [done| |apply (served_init_inv self ent a0 t0)].
    etransitivity; [exact Hr|]. apply run_reach; [done|lia]. }
  destruct (task_mono run t 0 i j id Hnum Hrun ltac:(lia) Hj Hp) as [[_ Hx]|(j1 & H1 & Hp1 & _)]; [congruence|].
  simplify_eq. destruct (task_ends _ _ _ _ _ (Hrun i) Hi Hp1 Hn) as (k & r & -> & Hk & Hps & Hjs). by exists i, k, r.
Qed.

(** *** Teardowns end *)

(** The deadline of a teardown is at most a grace period away. *)
Definition in_time (f : Served (App:=App)) : Prop :=
  forall id k r d, peers f !! id = Some k -> at_reader k = RGrace r d -> d <= clock f + SERVER_CLOSE_GRACE.

Lemma in_time_step f f' : step f f' -> in_time f -> in_time f'.
Proof.
  intros [l Hs] Hi.
  assert (Hkeep : forall w w' (ps : gmap string Peer) js js' n n' c i k k', ps !! i = Some k ->
    (forall r d, at_reader k' = RGrace r d -> at_reader k = RGrace r d \/ d = c + SERVER_CLOSE_GRACE) ->
    in_time (mkServed w ps js n c) -> in_time (mkServed w' (<[i := k']> ps) js' n' c)).
  { clear. intros w w' ps js js' n n' c i k k' Hk Hrd Hi id k0 r d. cbn [peers clock].
    intros [[<- <-]|[_ H0]]%lookup_insert_Some Hd; [|by eapply (Hi id k0)].
    destruct (Hrd _ _ Hd) as [Hd'| ->]; [by eapply (Hi i k)|lia]. }
  destruct Hs as [i peer now hello auth f1 f2 ses ctx w w' ps js n c Hid Hch Hset
    |i k0 rd wr w w' ps js n c Hk Hr|i k0 now next rd w w' ps js n c Hk Hrd Hr|i k0 packet w ps js n c Hk Hrd Hfree
    |i k0 m wr w w' ps js n c Hk Hwr Htk|i k0 w ps js n c Hk Hwr|i k0 m failure wr w w' ps js n c Hk Hwr Hso
    |t a k0 k' rep visit w w' ps js n c Htk Hp Hacc|t i k0 r w ps js n c Htk Hk| | |c' w ps js n c Hc|]; try exact Hi.
  - intros id k r d. cbn [peers clock]. intros [[<- <-]|[_ H0]]%lookup_insert_Some Hd; [done|by eapply (Hi id k)].
  - eapply Hkeep; [done| |done]. cbn [at_reader set_writer set_reader]. intros r d ->.
    destruct (at_reader k0) as [auth|p| |q|pl|pk|r0|r0|r0 d0|r0|r0|r0|]; cbn [reader_access] in Hr; try discriminate Hr.
    + destruct p as [| | | | |[]]; cbn in Hr; repeat case_match; simplify_eq.
    + destruct q as [| | |[]]; try discriminate Hr; destruct (queue_access self _ w) as [[[]]|]; discriminate Hr.
    + destruct (no_room i w); [done|]. destruct (send i (Pong pl) w) as [[] ?]; discriminate Hr.
    + injection Hr as _ Hd _ _. by right.
    + destruct wr, (at_writer k0); repeat case_bool_decide; discriminate Hr.
  - eapply Hkeep; [done| |done]. cbn. intros r d ->. destruct next as [| | |[]]; try discriminate Hr.
    cbn in Hr. destruct (inspect _ _ _ _ _ _ w) as [[[]| |]]; discriminate Hr.
  - eapply Hkeep; [done| |done]. by intros r d.
  - eapply Hkeep; [done| |done]. by left.
  - eapply Hkeep; [done| |done]. by left.
  - eapply Hkeep; [done| |done]. by left.
  - eapply Hkeep; [done| |done]. by left.
  - intros id k r d Hk Hd. specialize (Hi id k r d Hk Hd). cbn [clock] in *. lia.
Qed.

(** The next step of a teardown, after the time it waits for. *)
Lemma teardown_next id k w ps js n c : ps !! id = Some k -> (0 < phase (at_reader k) < 6)%nat ->
  in_time (mkServed w ps js n c) ->
  exists c' k' w', c <= c' /\ rtc step (mkServed w ps js n c) (mkServed w' (<[id := k']> ps) js n c')
  /\ (phase (at_reader k') < phase (at_reader k))%nat
  /\ c' <= (if decide (3 = phase (at_reader k))%nat then c + SERVER_CLOSE_GRACE else c).
Proof.
  intros Hk Hph Hi.
  assert (Hgo : forall c', c <= c' -> (exists rd wr w', reader_access self id (addr k) c' (at_reader k) (at_writer k) w =
    Some (rd, wr, w')) ->
    exists k' w', rtc step (mkServed w ps js n c) (mkServed w' (<[id := k']> ps) js n c') /\
      (phase (at_reader k') < phase (at_reader k))%nat).
  { intros c' Hc (rd & wr & w' & Hr). exists (set_writer (set_reader k rd) wr), w'. split.
    - eapply rtc_l; [eexists; by apply (VTick _ c')|]. apply rtc_once. eexists. by eapply VReader.
    - apply reader_access_phase in Hr as [_ Hr]. apply Hr. lia. }
  destruct (at_reader k) as [auth|p| |q|pl|pk|r|r|r d|r|r|r|] eqn:Hrd; cbn [phase] in *; try lia.
  - destruct (Hgo c) as (k' & w' & ? & ?); [lia|cbn; by eauto|]. exists c, k', w'. split_and!; [lia|done..|case_decide; lia].
  - destruct (Hgo c) as (k' & w' & ? & ?); [lia|cbn; by eauto|]. exists c, k', w'. split_and!; [lia|done..|case_decide; lia].
  - pose proof (Hi id k r d Hk Hrd) as Hd. cbn [clock] in Hd.
    destruct (Hgo (c `max` d)) as (k' & w' & ? & ?); [lia| |].
    { cbn. rewrite bool_decide_true by lia. destruct (at_writer k); by eauto. }
    exists (c `max` d), k', w'. unfold SERVER_CLOSE_GRACE in *. split_and!; [lia|done..|case_decide; lia].
  - destruct (Hgo c) as (k' & w' & ? & ?); [lia|cbn; by eauto|]. exists c, k', w'. split_and!; [lia|done..|case_decide; lia].
  - destruct (Hgo c) as (k' & w' & ? & ?); [lia|cbn; by eauto|]. exists c, k', w'. split_and!; [lia|done..|case_decide; lia].
Qed.

Lemma teardown_finishes id m : forall k w ps js n c, (phase (at_reader k) <= m)%nat -> (m <= 5)%nat -> ps !! id = Some k ->
  in_time (mkServed w ps js n c) ->
  exists w' k' c', rtc step (mkServed w ps js n c) (mkServed w' (<[id := k']> ps) js n c') /\ phase (at_reader k') = 0%nat
  /\ c' <= (if decide (3 <= phase (at_reader k))%nat then c + SERVER_CLOSE_GRACE else c).
Proof.
  assert (Hpos : 0 <= SERVER_CLOSE_GRACE) by done.
  induction m as [|m IH]; intros k w ps js n c Hph Hm Hk Hi.
  { exists w, k, c. rewrite insert_id by done. split_and!; [done|lia|]. case_decide; lia. }
  destruct (decide (phase (at_reader k) = 0)%nat) as [H0|H0].
  { exists w, k, c. rewrite insert_id by done. split_and!; [done|done|]. case_decide; lia. }
  destruct (teardown_next id k w ps js n c) as (c1 & k1 & w1 & Hc1 & Hr1 & Hp1 & Hb1); [done|lia|done|].
  assert (Hi1 : in_time (mkServed w1 (<[id := k1]> ps) js n c1)) by (clear -Hr1 Hi; induction Hr1; eauto using in_time_step).
  destruct (IH k1 w1 (<[id := k1]> ps) js n c1) as (w' & k' & c' & Hr2 & Hp2 & Hb2); [lia|lia|apply lookup_insert_eq|done|].
  rewrite insert_insert_eq in Hr2. exists w', k', c'. split_and!; [by etransitivity|done|].
  repeat case_decide; lia.
Qed.

(** C18: a teardown ends within its grace period, whatever the writer does.  Once
    the reader of a connection has begun its teardown, every step of the server
    leaves the teardown where it is or takes it closer to its end, and at every
    moment the teardown alone can go on to its end within [SERVER_CLOSE_GRACE],
    without any other task, also while the writer hangs in a write.  Then the
    connection is not in the client table and its channel is dead. *)
Theorem teardown_within_grace f id k : handlers_push self -> rtc step init f -> peers f !! id = Some k ->
  (phase (at_reader k) < 6)%nat ->
  (forall f', step f f' -> exists k', peers f' !! id = Some k'
     /\ (at_reader k' = at_reader k \/ (phase (at_reader k') < phase (at_reader k))%nat))
  /\ exists f' k' r c, rtc step f f' /\ clock f' <= clock f + SERVER_CLOSE_GRACE
     /\ peers f' = <[id := k']> (peers f) /\ jobs f' = jobs f
     /\ at_reader k' = RGone r /\ clients (state (world f')) !! id = None
     /\ channels (world f') !! id = Some c /\ receiver c = false.
Proof.
  intros Hh Hr Hk Hph. split.
  { intros f' Hs. destruct (phase_step _ _ _ _ Hs Hk) as (k' & Hk' & _ & Hor). eauto. }
  assert (Hi : in_time f).
  { clear -Hr. assert (H0 : in_time init) by (intros i k r d; cbn; by rewrite lookup_empty).
    revert H0. induction Hr; eauto using in_time_step. }
  destruct f as [w ps js n c]. cbn [world peers jobs clock] in *.
  destruct (teardown_finishes id 5 k w ps js n c) as (w' & k' & c' & Hr' & Hp' & Hc'); [lia|done..|].
  assert (Hk' : exists r, at_reader k' = RGone r) by (destruct (at_reader k'); try done; by eexists). destruct Hk' as [r Hrd].
  destruct (served_reach_inv self init _ Hh (transitivity Hr Hr') (served_init_inv self ent a0 t0)) as [[Ht Hj] _].
  cbn [world peers jobs] in *. destruct (proj2 (ti_channel _ _ Ht id)) as [ch Hch]; [rewrite lookup_insert_eq; by eauto|].
  exists (mkServed w' (<[id := k']> ps) js n c'), k', r, ch. cbn [world peers jobs clock]. split_and!; try done.
  - unfold SERVER_CLOSE_GRACE in *. case_decide; lia.
  - apply eq_None_not_Some. intros (k0 & Hk0 & Ho)%(ti_open _ _ Ht). rewrite lookup_insert_eq in Hk0. simplify_eq.
    by rewrite Hrd in Ho.
  - rewrite (ti_live _ _ Ht id k' ch) by (done || apply lookup_insert_eq).
    rewrite (ki_over _ _ _ Hj id k'); [done|apply lookup_insert_eq|]. by rewrite Hrd.
Qed.

(** *** A peer that does not read *)

(** The writer of the connection is at a write, its channel is full, its handler
    tasks, one per permit, wait for room in the channel and its reader waits for
    a permit. *)
Definition held_up (id : string) (f : Served (App:=App)) : Prop :=
  exists k packet m c, peers f !! id = Some k
  /\ at_reader k = RAcquire packet /\ slots k = 0 /\ at_writer k = WWriting m
  /\ channels (world f) !! id = Some c /\ receiver c = true /\ SERVER_OUTBOUND_QUEUE_CAPACITY <= blen (queue c)
  /\ forall t j, jobs f !! t = Some j -> task_peer j = Some id -> exists m', j = TReply id (QSend id m').

(** The socket of the connection accepts or fails the write. *)
Definition socket_answers (id : string) (f f' : Served (App:=App)) : Prop :=
  exists k m failure wr w', peers f !! id = Some k /\ at_writer k = WWriting m
  /\ writer_socket id m failure (world f) = (wr, w')
  /\ f' = mkServed w' (<[id := set_writer k wr]> (peers f)) (jobs f) (spawned f) (clock f).
Definition silent_step (id : string) (f f' : Served (App:=App)) : Prop := step f f' /\ ~ socket_answers id f f'.

(** Whatever the accesses of others do to the channel, they do not take from it. *)
Definition still_full (id : string) (w w' : W) : Prop :=
  forall c, channels w !! id = Some c -> receiver c = true -> SERVER_OUTBOUND_QUEUE_CAPACITY <= blen (queue c) ->
  exists c', channels w' !! id = Some c' /\ receiver c' = true /\ SERVER_OUTBOUND_QUEUE_CAPACITY <= blen (queue c').

Lemma grown_still_full id w w' : (forall key, option_Forall2 grown (channels w !! key) (channels w' !! key)) -> still_full id w w'.
Proof.
  intros Hg c Hc Hr Hq. specialize (Hg id). rewrite Hc in Hg. inversion Hg as [c0 c1 (ext & -> & _) Hc0 Hc1|]; subst.
  eexists. split_and!; [done|done|]. cbn [queue]. unfold blen in *. rewrite length_app. lia.
Qed.
Lemma same_still_full id w w' : channels w' !! id = channels w !! id -> still_full id w w'.
Proof. intros He c Hc Hr Hq. exists c. by rewrite He. Qed.
Lemma still_full_trans id w1 w2 w3 : still_full id w1 w2 -> still_full id w2 w3 -> still_full id w1 w3.
Proof. intros H1 H2 c Hc Hr Hq. destruct (H1 c Hc Hr Hq) as (c2 & ? & ? & ?). eauto. Qed.

(** A step that leaves the connection's reader, writer and tasks alone. *)
Lemma held_up_keep id w w' (ps ps' : gmap string Peer) js js' n n' c c' : ps' !! id = ps !! id -> still_full id w w' ->
  (forall t j, js' !! t = Some j -> task_peer j = Some id -> exists j0, js !! t = Some j0 /\ (j = j0 \/ task_peer j0 <> Some id)) ->
  (forall t j j', js !! t = Some j -> js' !! t = Some j' -> task_peer j' = task_peer j) ->
  held_up id (mkServed w ps js n c) -> held_up id (mkServed w' ps' js' n' c').
Proof.
  intros Hps Hw Hjs Hsame (k & pk & m & ch & Hk & Hrd & Hs & Hwr & Hch & Hrc & Hq & Hj). cbn [peers world jobs] in *.
  destruct (Hw ch Hch Hrc Hq) as (ch' & Hch' & Hrc' & Hq'). exists k, pk, m, ch'. cbn [peers world jobs]. rewrite Hps.
  split_and!; try done. intros t j Ht Hp. destruct (Hjs t j Ht Hp) as (j0 & H0 & [->|Hne]); [by eapply Hj|].
  by rewrite (Hsame _ _ _ H0 Ht) in Hp.
Qed.

(** The steps of another connection, and what becomes of the tasks. *)
Lemma held_up_peer id i k w w' (ps : gmap string Peer) js n c : id <> i -> still_full id w w' ->
  held_up id (mkServed w ps js n c) -> held_up id (mkServed w' (<[i := k]> ps) js n c).
Proof. intros Hne Hw. apply held_up_keep; [by rewrite lookup_insert_ne|done|eauto|congruence]. Qed.
Lemma held_up_spawn id j w (ps : gmap string Peer) js n c : task_peer j <> Some id -> js !! n = None ->
  held_up id (mkServed w ps js n c) -> held_up id (mkServed w ps (<[n := j]> js) (S n) c).
Proof.
  intros Hj Hn. apply held_up_keep; [done|by apply same_still_full| |].
  - intros t j' [[<- <-]|[_ H0]]%lookup_insert_Some Hp; [done|by eauto].
  - intros t j' j'' H1 [[<- <-]|[_ H0]]%lookup_insert_Some; congruence.
Qed.
Lemma held_up_free id t w (ps : gmap string Peer) js n c :
  held_up id (mkServed w ps js n c) -> held_up id (mkServed w ps (delete t js) n c).
Proof.
  apply held_up_keep; [done|by apply same_still_full| |].
  - intros t' j [_ H0]%lookup_delete_Some Hpj. by eauto.
  - intros t' j j' H1 [_ H0]%lookup_delete_Some. congruence.
Qed.
Lemma held_up_task id t j j' w w' (ps : gmap string Peer) js n c : js !! t = Some j -> task_peer j' = task_peer j ->
  task_peer j <> Some id -> still_full id w w' ->
  held_up id (mkServed w ps js n c) -> held_up id (mkServed w' ps (<[t := j']> js) n c).
Proof.
  intros Ht Hsame Hj Hw. apply held_up_keep; [done|done| |].
  - intros t' i [[<- <-]|[_ H0]]%lookup_insert_Some Hpj; [congruence|by eauto].
  - intros t' i i' H1 [[<- <-]|[_ H0]]%lookup_insert_Some; congruence.
Qed.

(** No access of another connection makes room. *)
Lemma still_full_drop id i w : id <> i -> still_full id w (drop_receiver i w).
Proof. intros Hne. apply same_still_full. cbn. by rewrite lookup_alter_ne. Qed.
Lemma still_full_grows id w w' : grows w w' -> still_full id w w'.
Proof. intros (_ & _ & Hg). by apply grown_still_full. Qed.
Lemma still_full_setup id i peer now hello auth f1 f2 w ses ctx w' : handlers_push self -> id <> i ->
  setup self i peer now hello auth f1 f2 w = (Ok (Some (ses, ctx)), w') -> still_full id w w'.
Proof.
  intros Hh Hne (w1 & timeout & (_ & _ & Hg) & ->)%setup_registers; [|done].
  apply (still_full_trans _ _ w1); [by apply grown_still_full|]. apply same_still_full. cbn. by rewrite lookup_insert_ne.
Qed.
Lemma still_full_reader id i a c rd0 wr0 w rd wr w' : handlers_push self -> id <> i ->
  reader_access self i a c rd0 wr0 w = Some (rd, wr, w') -> still_full id w w'.
Proof.
  intros Hh Hne [(r & _ & _ & _ & ->)|[(r & _ & _ & _ & ->)|(Hg & _)]]%reader_access_cases; [..|done].
  - by apply same_still_full.
  - by apply still_full_drop.
  - by apply still_full_grows.
Qed.
Lemma still_full_take id i c w m wr w' : id <> i -> writer_take i c w = Some (m, wr, w') -> still_full id w w'.
Proof.
  intros Hne (rest & _ & Hcase)%writer_take_cases.
  apply (still_full_trans _ _ (set_channels w (<[i:=mkChannel rest true]> (channels w)))).
  { apply same_still_full. cbn. by rewrite lookup_insert_ne. }
  destruct Hcase as [[_ Hg]|[_ (w2 & Hg & ->)]]; [by apply still_full_grows|].
  eapply still_full_trans; [by apply still_full_grows|by apply still_full_drop].
Qed.
Lemma still_full_socket id i m failure w wr w' : id <> i -> writer_socket i m failure w = (wr, w') -> still_full id w w'.
Proof.
  intros Hne (w1 & (_ & _ & Hg) & [[_ ->]|[_ ->]])%writer_socket_cases; [by apply grown_still_full|].
  apply (still_full_trans _ _ w1); [by apply grown_still_full|by apply still_full_drop].
Qed.

Lemma held_up_step id f f' : handlers_push self -> served_inv self f -> silent_step id f f' -> held_up id f -> held_up id f'.
Proof.
  intros Hh [_ Hnum%numbered_fresh] [[l Hs] Hno] Hheld.
  pose proof Hheld as (k0 & pk & m0 & ch & Hk0 & Hrd0 & Hs0 & Hwr0 & Hch & Hrc & Hq & Hj).
  destruct Hs as [i peer now hello auth f1 f2 ses ctx w w' ps js n c Hid Hchn Hset
    |i k rd wr w w' ps js n c Hk Hr|i k now next rd w w' ps js n c Hk Hrd Hr|i k packet w ps js n c Hk Hrd Hfree
    |i k m wr w w' ps js n c Hk Hwr Htk|i k w ps js n c Hk Hwr|i k m failure wr w w' ps js n c Hk Hwr Hso
    |t a k k' rep visit w w' ps js n c Htk Hp Hacc|t i k r w ps js n c Htk Hk|t r w ps js n c Htk
    |tgt name data atts w ps js n c|c' w ps js n c Hc|w w' ps js n c (Hst & Hchs & Haside)]; cbn [peers world jobs spawned] in *.
  - assert (id <> i) by congruence. apply (held_up_peer _ _ _ w); [done| |done]. by eapply still_full_setup.
  - assert (id <> i) by (intros <-; simplify_eq; by rewrite Hrd0 in Hr).
    apply (held_up_peer _ _ _ w); [done| |done]. by eapply still_full_reader.
  - assert (id <> i) by (intros <-; simplify_eq; congruence).
    apply (held_up_peer _ _ _ w); [done| |done]. by eapply still_full_grows, grows_receive.
  - assert (id <> i) by (intros <-; simplify_eq; lia).
    apply held_up_spawn; [cbn; congruence|done|]. by apply (held_up_peer _ _ _ w), Hheld; [|apply same_still_full].
  - assert (id <> i) by (intros <-; simplify_eq; congruence).
    apply (held_up_peer _ _ _ w); [done| |done]. by eapply still_full_take.
  - assert (id <> i) by (intros <-; simplify_eq; congruence).
    by apply (held_up_peer _ _ _ w), Hheld; [|apply same_still_full].
  - assert (id <> i) by (intros <-; destruct Hno; by exists k, m, failure, wr, w').
    apply (held_up_peer _ _ _ w); [done| |done]. by eapply still_full_socket.
  - eapply held_up_task; [done|by eapply task_access_peer| |by eapply still_full_grows, grows_task|done].
    intros Hpk. destruct (Hj t k Htk Hpk) as [m' ->]. cbn [task_access queue_access] in Hacc. unfold no_room in Hacc.
    rewrite Hch, Hrc, bool_decide_true in Hacc by done. discriminate Hacc.
  - assert (id <> i) by (intros <-; by destruct (Hj _ _ Htk eq_refl) as [m' [=]]).
    by apply held_up_free, (held_up_peer _ _ _ w), Hheld; [|apply same_still_full].
  - by apply held_up_free.
  - by apply held_up_spawn.
  - by apply (held_up_keep id w _ ps _ js js n n c c'); [|apply same_still_full|eauto|congruence|].
  - apply (held_up_keep id w _ ps _ js js n n c c); [done| |by eauto|congruence|done].
    apply same_still_full. by rewrite Hchs.
Qed.

(** C38: a peer that stops reading holds its connection for ever.  When the writer
    hangs in a write, the outbound channel is full, every permit is with a task
    that waits for room in it and the reader waits for a permit, nothing but an
    answer of the socket changes that: whatever the rest of the server does and
    however long it takes, no idle timeout, teardown or heartbeat comes, and the
    connection stays in the client table with its tasks and its permits. *)
Theorem silent_peer_holds_connection f f' id c : handlers_push self -> rtc step init f -> held_up id f ->
  rtc (silent_step id) f f' -> clock f' <= c ->
  held_up id f' /\ is_client f' id
  /\ exists f'', rtc (silent_step id) f' f'' /\ clock f'' = c /\ peers f'' = peers f' /\ jobs f'' = jobs f'.
Proof.
  intros Hh Hr Hheld Hrun Hc. pose proof (served_reach_inv self _ _ Hh Hr (served_init_inv self ent a0 t0)) as Hi.
  clear Hr. assert (Hend : held_up id f' /\ served_inv self f').
  { clear Hc. induction Hrun as [|f1 f2 f3 Hs _ IH]; [done|]. apply IH; [by eapply held_up_step|].
    destruct Hs as [[l Hs] _]. by eapply served_step_inv. }
  destruct Hend as [Hheld' [[Ht Hj] Hnum]]. pose proof Hheld' as (k & pk & m & ch & Hk & Hrd & _ & Hwr & _). split_and!; [done| |].
  - apply elem_of_dom, (ti_open _ _ Ht). exists k. by rewrite Hrd.
  - destruct f' as [w ps js n c0]. exists (mkServed w ps js n c). split_and!; try done. apply rtc_once. split.
    + eexists. by apply VTick.
    + intros (k' & m' & failure & wr & w' & Hk' & Hwr' & Hso & [= _ Hps _]). cbn [peers] in *. simplify_eq.
      assert (Heq : ps !! id = Some (set_writer k wr)) by (rewrite Hps; apply lookup_insert_eq).
      rewrite Hk in Heq. injection Heq as Heq. rewrite Heq in Hwr. cbn in Hwr. subst wr.
      apply writer_socket_cases in Hso as (w1 & _ & [[? _]|[? _]]); done.
Qed.

(** *** A packet that the writer cannot encode *)

(** The packet does not fit into a frame of the codec. *)
Definition oversized (c : FrameCodec) (packet : PacketEnvelope) : Prop :=
  exists text, to_writer (serialize (env_body packet)) = Ok text
  /\ saturating_sub (max_frame_bytes c) 5 < blen (composite_layout text (attachments (env_body packet))).

Lemma oversized_encode c packet e : oversized c packet -> exists err, encode c e packet = Err err.
Proof.
  intros (text & Ht & Hlt). rewrite encode_eq_spec. unfold encode_spec. rewrite Ht. cbn.
  rewrite bool_decide_true by done. eauto.
Qed.

(** The writer has stopped: nothing more leaves the queue or enters it. *)
Definition writer_over (id : string) (c : Channel) (ms : list Message) (f : Served (App:=App)) : Prop :=
  exists k, peers f !! id = Some k /\ at_writer k = WStopped /\ channels (world f) !! id = Some c /\ receiver c = false
  /\ wire_of id (world f) = ms.

Lemma grown_dead (w w' : W) id c : (forall key, option_Forall2 grown (channels w !! key) (channels w' !! key)) ->
  channels w !! id = Some c -> receiver c = false -> channels w' !! id = Some c.
Proof.
  intros Hg Hc Hr. specialize (Hg id). rewrite Hc in Hg. inversion Hg as [c0 c1 (ext & -> & Hd & _) Hc0 Hc1|]; subst.
  rewrite Hd by done. rewrite app_nil_r. by destruct c.
Qed.
Lemma drop_dead (w : W) i id c : channels w !! id = Some c -> receiver c = false -> channels (drop_receiver i w) !! id = Some c.
Proof.
  intros Hc Hr. cbn. destruct (decide (id = i)) as [->|Hne]; [|by rewrite lookup_alter_ne].
  rewrite lookup_alter_eq, Hc. destruct c. cbn in *. by subst.
Qed.

Lemma writer_over_peer id c ms w w' (ps : gmap string Peer) js js' n n' cl cl' i k k' : ps !! i = Some k ->
  (at_writer k = WStopped -> at_writer k' = WStopped) -> channels w' !! id = Some c -> wire_of id w' = ms ->
  writer_over id c ms (mkServed w ps js n cl) -> writer_over id c ms (mkServed w' (<[i := k']> ps) js' n' cl').
Proof.
  intros Hk Hst Hc Hm (k0 & Hk0 & Hw0 & _ & Hr & _). cbn in *. destruct (decide (id = i)) as [->|Hne].
  - exists k'. cbn. rewrite lookup_insert_eq. simplify_eq. auto.
  - exists k0. cbn. by rewrite lookup_insert_ne.
Qed.
(** Another connection's writer takes a message. *)
Lemma dead_take id i rc w m wr w' c : id <> i -> writer_take i rc w = Some (m, wr, w') ->
  channels w !! id = Some c -> receiver c = false -> channels w' !! id = Some c /\ wire_of id w' = wire_of id w.
Proof.
  intros Hne (rest & Hci & Hcase)%writer_take_cases Hc Hr.
  assert (Hc1 : channels (set_channels w (<[i:=mkChannel rest true]> (channels w))) !! id = Some c) by (cbn; by rewrite lookup_insert_ne).
  destruct Hcase as [[_ Hg]|[_ (w2 & Hg & ->)]]; (split; [|apply wire_of_same; cbn; by rewrite (proj1 (proj2 Hg))]).
  - by eapply grown_dead; [apply Hg|..].
  - apply drop_dead; [|done]. by eapply grown_dead; [apply Hg|..].
Qed.

Lemma writer_over_step id c ms f f' : handlers_push self -> step f f' -> writer_over id c ms f -> writer_over id c ms f'.
Proof.
  intros Hh [l Hs] Hover. pose proof Hover as (k0 & Hk0 & Hw0 & Hc0 & Hr0 & Hm0).
  destruct Hs as [i peer now hello auth f1 f2 ses ctx w w' ps js n cl Hid Hchn Hset
    |i k rd wr w w' ps js n cl Hk Hr|i k now next rd w w' ps js n cl Hk Hrd Hr|i k packet w ps js n cl Hk Hrd Hfree
    |i k m wr w w' ps js n cl Hk Hwr Htk|i k w ps js n cl Hk Hwr|i k m failure wr w w' ps js n cl Hk Hwr Hso
    |t a k k' rep visit w w' ps js n cl Htk Hp Hacc|t i k r w ps js n cl Htk Hk|t r w ps js n cl Htk
    |tgt name data atts w ps js n cl|cl' w ps js n cl Hcl|w w' ps js n cl (Hst & Hchs & Haside)]; cbn [peers world jobs] in *.
  - apply setup_registers in Hset as (w1 & timeout & Hg & ->); [|done]. assert (id <> i) by congruence.
    exists k0. cbn [peers world]. rewrite lookup_insert_ne by done. pose proof (wire_of_greets i id _ _ Hg ltac:(done)) as Hwire.
    destruct Hg as (_ & _ & Hg). split_and!; [done..| |done|].
    + cbn. rewrite lookup_insert_ne by done. by eapply grown_dead.
    + by rewrite <- Hm0, <- Hwire.
  - apply reader_access_cases in Hr as [(r & _ & _ & -> & ->)|[(r & _ & _ & -> & ->)|(Hg & Hkw & _)]]; [..|done].
    + by eapply writer_over_peer.
    + by eapply writer_over_peer; [done|done|apply drop_dead|..].
    + eapply writer_over_peer; [done| |eapply grown_dead; [apply Hg|done..]|by rewrite (wire_of_same id w) by apply Hg|done].
      cbn. intros Hst. destruct Hkw as [->| ->]; by rewrite Hst.
  - apply grows_receive in Hr as Hg. eapply writer_over_peer; [done..|eapply grown_dead; [apply Hg|done..]| |done].
    by rewrite (wire_of_same id w) by apply Hg.
  - by eapply writer_over_peer.
  - assert (id <> i) by (intros ->; congruence). edestruct dead_take as [Hc Hm]; [done..|].
    eapply writer_over_peer; [done|intros; congruence|done|congruence|done].
  - eapply writer_over_peer; try done. intros; congruence.
  - apply writer_socket_cases in Hso as (w1 & Hg & Hcase). assert (id <> i) by (intros ->; congruence).
    pose proof (wire_of_greets i id _ _ Hg ltac:(done)) as Hwire.
    assert (Hc1 : channels w1 !! id = Some c) by (by eapply grown_dead; [apply Hg|..]).
    destruct Hcase as [[-> ->]|[-> ->]]; eapply writer_over_peer; try done.
    + intros; congruence.
    + congruence.
    + by apply drop_dead.
    + rewrite <- Hm0, <- Hwire. done.
  - apply grows_task in Hacc as Hg; [|done]. exists k0. split_and!; [done..| |done|].
    + by eapply grown_dead; [apply Hg|..].
    + cbn [world]. by rewrite (wire_of_same id w) by apply Hg.
  - by eapply writer_over_peer.
  - by exists k0.
  - by exists k0.
  - by exists k0.
  - exists k0. cbn [peers world]. rewrite Hchs. split_and!; [done..|]. rewrite <- Hm0. apply Haside. eauto.
Qed.

Lemma oversized_stops f id k packet rest : handlers_push self ->
  peers f !! id = Some k -> at_writer k = WIdle -> oversized (session k) packet ->
  channels (world f) !! id = Some (mkChannel (Packet packet :: rest) true) ->
  exists f', step f f' /\ clients (state (world f')) = clients (state (world f))
  /\ forall f'', rtc step f' f'' -> exists k'', peers f'' !! id = Some k'' /\ at_writer k'' = WStopped
     /\ wire_of id (world f'') = wire_of id (world f)
     /\ channels (world f'') !! id = Some (mkChannel rest false).
Proof.
  intros Hh Hk Hwr Hov Hc. destruct f as [w ps js n cl]. cbn [world peers] in *.
  destruct (oversized_encode (session k) packet (entropy w (drawn w) CHACHA20_NONCE_LEN) Hov) as [err He].
  set (w1 := set_drawn (set_channels w (<[id := mkChannel rest true]> (channels w))) (S (drawn w))).
  assert (Htk : writer_take id (session k) w = Some (Packet packet, WStopped, drop_receiver id w1)).
  { unfold writer_take. rewrite Hc. unfold codec_encode. cbn. by rewrite He. }
  exists (mkServed (drop_receiver id w1) (<[id := take_message k (Packet packet) WStopped]> ps) js n cl). split_and!.
  - eexists. by eapply VTake.
  - done.
  - intros f'' Hr''. enough (writer_over id (mkChannel rest false) (wire_of id w) f'') as (k'' & ? & ? & ? & _ & ?) by eauto.
    assert (H0 : writer_over id (mkChannel rest false) (wire_of id w)
      (mkServed (drop_receiver id w1) (<[id := take_message k (Packet packet) WStopped]> ps) js n cl)).
    { exists (take_message k (Packet packet) WStopped). cbn [peers world]. rewrite lookup_insert_eq. split_and!; try done.
      cbn. by rewrite lookup_alter_eq, lookup_insert_eq. }
    revert H0. induction Hr'' as [|f1 f2 f3 Hs _ IH]; [done|]. intros H0. apply IH. by eapply writer_over_step.
Qed.

(** With key agreement a packet is queued as it is, whatever its size. *)
Lemma queued_unencoded id packet w entry q : is_ecdh self = true -> clients_wf w ->
  clients (state w) !! id = Some entry -> channels w !! id = Some (mkChannel q true) ->
  blen q < SERVER_OUTBOUND_QUEUE_CAPACITY ->
  let w' := set_channels w (<[id := mkChannel (q ++ [Packet packet]) true]> (channels w)) in
  rtc (queue_run self) (QLookup id packet, w) (QDone (Ok tt), w')
  /\ rtc push_run (PLookup (handle self) id packet, w) (PDone (Ok tt), w')
  /\ push_access (PIter (Packet packet)) (Some id) w = Some (Some (id, Packet packet, true), PIter (Packet packet), w')
  /\ push_access (PIter (Packet packet)) None w' = Some (None, PDone (Ok tt), w').
Proof.
  intros He Hwf Hcl Hc Hq w'. pose proof (Hwf _ _ Hcl) as Hs.
  assert (Htry : try_send id (Packet packet) w = (Ok tt, w')).
  { unfold try_send. rewrite Hc. cbn. unfold chan_try_send. cbn. by rewrite bool_decide_true. }
  assert (Hsend : send id (Packet packet) w = (Ok tt, w')) by (unfold send; by rewrite Hc).
  split_and!.
  - eapply queue_once; [cbn [queue_access]; rewrite Hcl, He, Hs; reflexivity|].
    eapply queue_once; [|apply rtc_refl]. cbn [queue_access]. unfold no_room. rewrite Hc. cbn.
    rewrite bool_decide_false by lia. by rewrite Hsend.
  - eapply (push_once _ None); [cbn [push_access]; rewrite Hcl; change (handle_is_ecdh (handle self)) with (is_ecdh self);
      rewrite He, Hs; reflexivity|].
    eapply (push_once _ None); [|apply rtc_refl]. cbn [push_access]. by rewrite Htry.
  - cbn [push_access]. by rewrite Hcl, Hs, Htry.
  - done.
Qed.

(** C39: one packet that does not fit into a frame ends the writer of every
    connection it reaches.  With key agreement, and room in the channel of a
    registered connection, [queue_for] and [send_event_to] (from the lookup of the
    connection) and the iteration of [broadcast_event] report success and queue
    the packet as it is, whatever its size.  When a writer then receives a packet
    that does not fit, it stops, although the connection stays in the client
    table: nothing of what was queued behind the packet, no later message,
    heartbeat or close is ever written. *)
Theorem oversized_packet_ends_writer id packet : handlers_push self -> is_ecdh self = true ->
  (forall w entry q, clients_wf w -> clients (state w) !! id = Some entry -> channels w !! id = Some (mkChannel q true) ->
     blen q < SERVER_OUTBOUND_QUEUE_CAPACITY ->
     let w' := set_channels w (<[id := mkChannel (q ++ [Packet packet]) true]> (channels w)) in
     rtc (queue_run self) (QLookup id packet, w) (QDone (Ok tt), w')
     /\ rtc push_run (PLookup (handle self) id packet, w) (PDone (Ok tt), w')
     /\ push_access (PIter (Packet packet)) (Some id) w = Some (Some (id, Packet packet, true), PIter (Packet packet), w')
     /\ push_access (PIter (Packet packet)) None w' = Some (None, PDone (Ok tt), w'))
  /\ (forall f k rest, peers f !! id = Some k -> at_writer k = WIdle -> oversized (session k) packet ->
     channels (world f) !! id = Some (mkChannel (Packet packet :: rest) true) ->
     exists f', step f f' /\ clients (state (world f')) = clients (state (world f))
     /\ forall f'', rtc step f' f'' -> exists k'', peers f'' !! id = Some k'' /\ at_writer k'' = WStopped
        /\ wire_of id (world f'') = wire_of id (world f)
        /\ channels (world f'') !! id = Some (mkChannel rest false)).
Proof.
  intros Hh He. split.
  - intros w entry q. by apply queued_unencoded.
  - intros f k rest. by apply oversized_stops.
Qed.
End Properties.


(** ** Instances *)
Section Schedule.
Context {J : SerdeJson} {C : Crypto} {X : X25519} {H : Sha256} {TX : ErrorTexts} {App : Type}.
Context (self : WscallServer (App:=App)).

(** A schedule, and then nothing. *)
Lemma schedule_run mvs (f : Served (App:=App)) : feasible self mvs f = true ->
  forall i, any_step self (after self (take i mvs) f) (after self (take (S i) mvs) f).
Proof.
  intros Hf i.
  assert (Hstay : forall g, any_step self g g) by (intros [w ps js n c]; eexists; by apply VTick).
  destruct (decide (i < length mvs)%nat) as [Hlt|Hge]; [|rewrite !take_ge by lia; apply Hstay].
  destruct (lookup_lt_is_Some_2 mvs i Hlt) as [mv Hmv]. rewrite (take_S_r _ _ _ Hmv).
  assert (Hs : is_Some (moves self (take i mvs ++ [mv]) f)).
  { rewrite <- (take_S_r _ _ _ Hmv). unfold feasible in Hf. rewrite <- (take_drop (S i) mvs), moves_app in Hf.
    destruct (moves self (take (S i) mvs) f); [by eexists|done]. }
  unfold after. destruct Hs as [[ls f2] Hm]. rewrite Hm. rewrite moves_app in Hm.
  destruct (moves self (take i mvs) f) as [[ls1 f1]|]; [|done]. cbn [moves] in Hm.
  destruct (move self mv f1) as [[l f3]|] eqn:Hmove; [|done]. injection Hm as _ <-. exists l. by eapply served_move_sound.
Qed.

(** [held_up], as a test. *)
Definition held_up_test (id : string) (f : Served (App:=App)) : bool :=
  match peers f !! id, channels (world f) !! id with
  | Some k, Some c =>
      match at_reader k, at_writer k with
      | RAcquire _, WWriting _ =>
          (slots k =? 0) && receiver c && (SERVER_OUTBOUND_QUEUE_CAPACITY <=? blen (queue c))
          && forallb (fun tj : nat * Task => match tj.2 with
                                | TReply i (QSend key _) => negb (bool_decide (i = id)) || bool_decide (key = id)
                                | j => negb (bool_decide (task_peer j = Some id))
                                end) (map_to_list (jobs f))
      | _, _ => false
      end
  | _, _ => false
  end.
Lemma held_up_tested id f : held_up_test id f = true -> held_up id f.
Proof.
  unfold held_up_test. destruct (peers f !! id) as [k|] eqn:Hk; [|done].
  destruct (channels (world f) !! id) as [c|] eqn:Hc; [|done].
  destruct (at_reader k) eqn:Hrd; try done. destruct (at_writer k) eqn:Hwr; try done.
  rewrite !andb_true_iff. intros [[[Hs Hr] Hq] Hj]. exists k, packet, m, c. split_and!; try done; [lia..|].
  intros t j Ht Hp. apply elem_of_map_to_list, list_elem_of_In in Ht. rewrite forallb_forall in Hj. specialize (Hj _ Ht).
  cbn in Hj. destruct j as [i p|i [i' p|key p|key m'|r]|p]; cbn in Hp; try discriminate Hp; try (injection Hp as ->);
  try (by rewrite bool_decide_true in Hj).
  rewrite bool_decide_true in Hj by done. cbn in Hj. apply bool_decide_eq_true_1 in Hj as ->. by exists m'.
Qed.

Definition oversized_test (c : FrameCodec) (packet : PacketEnvelope) : bool :=
  match to_writer (serialize (env_body packet)) with
  | Ok text => saturating_sub (max_frame_bytes c) 5 <? blen (composite_layout text (attachments (env_body packet)))
  | _ => false
  end.
Lemma oversized_tested c packet : oversized_test c packet = true -> oversized c packet.
Proof.
  unfold oversized_test. destruct (to_writer _) as [text|e|] eqn:Ht; [|done..]. intros Hlt. exists text. split; [done|lia].
Qed.
End Schedule.

#[local] Existing Instances bit_json xor_x25519 prefix_sha256 plain_texts.




(** A request whose handler task runs to its end. *)
Definition asked_state := small_run (opening "c1" ++ asking "c1").
Definition task_moves : list Move := answering 0 ++ [MReplied 0].
Definition task_run (i : nat) := after small_server (take i task_moves) asked_state.

Lemma handler_tasks_end_witness : exists l k r, jobs (task_run l) !! 0%nat = Some (TReply "c1" (QDone r))
  /\ peers (task_run l) !! "c1" = Some k
  /\ jobs (task_run (S l)) = delete 0%nat (jobs (task_run l))
  /\ peers (task_run (S l)) = <["c1" := set_slots k (slots k + 1)]> (peers (task_run l)).
Proof.
  assert (Hlast : forall i, (5 <= i)%nat -> task_run i = task_run 5).
  { intros i Hi. unfold task_run. by rewrite !take_ge by (cbn; lia). }
  assert (Hj : match jobs (task_run 0) !! 0%nat with Some j => bool_decide (task_peer j = Some "c1") | None => false end = true)
    by (vm_compute; reflexivity).
  destruct (jobs (task_run 0) !! 0%nat) as [j|] eqn:Hj0; [|discriminate Hj]. apply bool_decide_eq_true_1 in Hj.
  apply (handler_tasks_end small_server sample_entropy tt 0 task_run 0 j "c1" small_push).
  - unfold task_run, asked_state, small_run.
    etransitivity; [apply (after_reach small_server (opening "c1" ++ asking "c1"))|apply after_reach].
  - apply schedule_run. vm_compute. reflexivity.
  - intros i _. exists (5 `max` i)%nat. split; [lia|]. left. rewrite Hlast by lia. vm_compute. reflexivity.
  - exact Hj0.
  - exact Hj.
  - right. intros i. exists (5 `max` i)%nat. split; [lia|]. rewrite Hlast by lia. vm_compute. reflexivity.
Defined.

(** The peer has gone while the writer hangs in the write of the notice. *)
Definition leaving_state := small_run (opening "c1" ++ [MTake "c1"; MInput "c1" 0 EndOfStream]).
Definition phase_of (id : string) (f : Served (App:=unit)) : nat :=
  match peers f !! id with Some k => phase (at_reader k) | None => 7 end.

Lemma teardown_within_grace_witness : exists f, rtc (any_step small_server) leaving_state f
  /\ clock f <= 500000000 /\ clients (state (world f)) !! "c1" = None.
Proof.
  assert (Hp : phase_of "c1" leaving_state = 5%nat) by (vm_compute; reflexivity).
  unfold phase_of in Hp. destruct (peers leaving_state !! "c1") as [k|] eqn:Hk; [|discriminate Hp].
  destruct (teardown_within_grace small_server sample_entropy tt 0 leaving_state "c1" k small_push
    (after_reach _ _ _) Hk ltac:(rewrite Hp; lia)) as (_ & f & k' & r & c & Hr & Hc & _ & _ & _ & Hcl & _).
  exists f. split; [exact Hr|]. split; [exact Hc|exact Hcl].
Defined.

(** A peer that reads nothing after its setup, sends pings until the channel is
    full, and two requests. *)
Definition flood_moves : list Move :=
  opening "c1" ++ [MTake "c1"] ++ concat (replicate 256 [MInput "c1" 0 (Received (MPing [])); MRead "c1"])
  ++ asking "c1" ++ replicate 3 (MTask 0 None) ++ [MInput "c1" 0 (Received (MBinary echo_frame))].
Definition flooded_state := small_run flood_moves.

Lemma silent_peer_holds_connection_witness :
  held_up "c1" flooded_state /\ is_client flooded_state "c1"
  /\ exists f, rtc (silent_step small_server "c1") flooded_state f /\ clock f = secs 3600
       /\ peers f = peers flooded_state /\ jobs f = jobs flooded_state.
Proof.
  apply (silent_peer_holds_connection small_server sample_entropy tt 0 flooded_state flooded_state "c1" (secs 3600)
    small_push (after_reach _ _ _)).
  - apply held_up_tested. vm_compute. reflexivity.
  - apply rtc_refl.
  - vm_compute. discriminate.
Defined.

(** With key agreement and frames of at most 2000 bytes, a longer event is
    broadcast. *)
Definition small_ecdh_server : WscallServer (App:=unit) := server_with_max_frame_bytes (with_ecdh server_new) 2000.
Lemma small_ecdh_push : handlers_push small_ecdh_server.
Proof.
  intros w. split; [constructor|]. split; [apply map_Forall_empty|]. split; [apply map_Forall_empty|].
  split; [constructor|]. split; [constructor|by split].
Qed.
Definition long_event : object_map := {["text" := Str (bytes_str (replicate 400 x61))]}.
Definition ecdh_moves : list Move :=
  MSetup "c1" peer1 0 (Received (MBinary (replicate 32 x07))) EndOfStream :: replicate 5 (MRead "c1")
  ++ [MTake "c1"; MSocket "c1" None; MPush None "news" long_event]
  ++ [MTask 0 None; MTask 0 (Some "c1"); MTask 0 None].
Definition ecdh_state := after small_ecdh_server ecdh_moves (served_init small_ecdh_server sample_entropy tt 0).

(** Before the broadcast the channel is open and empty. *)
Definition ecdh_ready := after small_ecdh_server (take 8 ecdh_moves) (served_init small_ecdh_server sample_entropy tt 0).

Lemma oversized_packet_ends_writer_witness : exists k packet, peers ecdh_state !! "c1" = Some k
  /\ oversized (session k) packet
  /\ (exists w, rtc (queue_run small_ecdh_server) (QLookup "c1" packet, world ecdh_ready) (QDone (Ok tt), w))
  /\ exists f, any_step small_ecdh_server ecdh_state f
  /\ forall f', rtc (any_step small_ecdh_server) f f' ->
       wire_of "c1" (world f') = wire_of "c1" (world ecdh_state).
Proof.
  assert (Hst : match peers ecdh_state !! "c1", channels (world ecdh_state) !! "c1" with
    | Some k, Some (mkChannel (Packet packet :: _) true) =>
        match at_writer k with WIdle => oversized_test (session k) packet | _ => false end
    | _, _ => false end = true) by (vm_compute; reflexivity).
  destruct (peers ecdh_state !! "c1") as [k|] eqn:Hk; [|discriminate Hst].
  destruct (channels (world ecdh_state) !! "c1") as [[[|[|packet| |] rest] []]|] eqn:Hc; try discriminate Hst.
  destruct (at_writer k) eqn:Hw; try discriminate Hst.
  destruct (oversized_packet_ends_writer small_ecdh_server "c1" packet small_ecdh_push eq_refl) as [Hqueue Hstop].
  exists k, packet. split; [reflexivity|]. split; [exact (oversized_tested _ _ Hst)|]. split.
  - assert (Hready : match clients (state (world ecdh_ready)) !! "c1", channels (world ecdh_ready) !! "c1" with
      | Some _, Some (mkChannel [] true) => true | _, _ => false end = true) by (vm_compute; reflexivity).
    destruct (clients (state (world ecdh_ready)) !! "c1") as [entry|] eqn:He; [|discriminate Hready].
    destruct (channels (world ecdh_ready) !! "c1") as [[[|] []]|] eqn:Hc0; try discriminate Hready.
    destruct (Hqueue (world ecdh_ready) entry []) as [Hrun _]; [|exact He|exact Hc0|reflexivity|by eexists].
    exact (ti_wf _ _ (proj1 (proj1 (served_reach_inv small_ecdh_server _ _ small_ecdh_push (after_reach _ _ _)
      (served_init_inv small_ecdh_server sample_entropy tt 0))))).
  - destruct (Hstop ecdh_state k rest Hk Hw (oversized_tested _ _ Hst) Hc) as (f & Hs & _ & Hall).
    exists f. split; [exact Hs|]. intros f' Hr. destruct (Hall f' Hr) as (k' & _ & _ & Hwire & _). exact Hwire.
Defined.
