(* ===== verification/ServerDrain.v ===== *)
(** * The packets that a connection has accepted can always be handled

    With the accesses of [ServerThreads], where [send().await] waits for room: from
    every state the server reaches, the handler tasks and the writer of a
    connection alone can bring all its tasks to their end, provided that its socket
    accepts writes ([drains]).  [ServerFlow.silent_peer_holds_connection] is the
    other side: a socket that never answers holds the tasks for ever. *)

From S2P Require Import Prelude Utf8 Json Protocol Texts Attachment PacketJson Codec RateLimiter.
From S2P Require Import Validation ServerTypes ServerRuntime ServerSystem ServerThreads ServerFlow.
#[local] Open Scope Z_scope.

Section Drain.
Context {J : SerdeJson} {C : Crypto} {X : X25519} {H : Sha256} {TX : ErrorTexts} {App : Type}.
Abbreviation W := (World App).
Abbreviation St := (Served (App:=App)).
Context (self : WscallServer (App:=App)).
Context (ent : nat -> Z -> result string bytes) (a0 : App) (t0 : Z).
Implicit Types (w : W) (f g : St) (ps : gmap string Peer) (js : gmap nat Task).
Abbreviation step := (any_step self).
Abbreviation init := (served_init self ent a0 t0).

(** ** The steps of a connection's own tasks *)

(** Its handler tasks, the end of a handler task, its writer, whose socket accepts
    every write, and the start of the writer. *)
Inductive drain_step (id : string) : Label -> St -> St -> Prop :=
| DTask t j a rep j' w w' ps js n c :
    js !! t = Some j -> task_peer j = Some id -> addr <$> ps !! id = Some a ->
    task_access self a None j w = Some (rep, j', w') ->
    drain_step id ((fun r => (t, r)) <$> rep) (mkServed w ps js n c) (mkServed w' ps (<[t := j']> js) n c)
| DReplied t k r w ps js n c :
    js !! t = Some (TReply id (QDone r)) -> ps !! id = Some k ->
    drain_step id None (mkServed w ps js n c) (mkServed w (<[id := set_slots k (slots k + 1)]> ps) (delete t js) n c)
| DTake k m wr w w' ps js n c :
    ps !! id = Some k -> at_writer k = WIdle -> writer_take id (session k) w = Some (m, wr, w') ->
    drain_step id None (mkServed w ps js n c) (mkServed w' (<[id := take_message k m wr]> ps) js n c)
| DWrite k m wr w w' ps js n c :
    ps !! id = Some k -> at_writer k = WWriting m -> writer_socket id m None w = (wr, w') ->
    drain_step id None (mkServed w ps js n c) (mkServed w' (<[id := set_writer k wr]> ps) js n c)
| DSpawn k auth rd wr w w' ps js n c :
    ps !! id = Some k -> at_reader k = RConnected auth ->
    reader_access self id (addr k) c (RConnected auth) (at_writer k) w = Some (rd, wr, w') ->
    drain_step id None (mkServed w ps js n c) (mkServed w' (<[id := set_writer (set_reader k rd) wr]> ps) js n c).
Inductive drains (id : string) : list Label -> St -> St -> Prop :=
| DNil f : drains id [] f f
| DCons l ls f1 f2 f3 : drain_step id l f1 f2 -> drains id ls f2 f3 -> drains id (l :: ls) f1 f3.

Lemma drain_step_served id l f f' : drain_step id l f f' -> served_step self l f f'.
Proof.
  intros [t j a rep j' w w' ps js n c Hj Hp Ha Hacc|t k r w ps js n c Hj Hk|k m wr w w' ps js n c Hk Hwr Ht
    |k m wr w w' ps js n c Hk Hwr Hs|k auth rd wr w w' ps js n c Hk Hrd Hr].
  - eapply VTask; [done| |done]. by rewrite Hp.
  - by eapply VReplied.
  - by eapply VTake.
  - by eapply VSocket.
  - eapply VReader; [done|by rewrite Hrd].
Qed.
Lemma drains_reach id ls f f' : drains id ls f f' -> rtc step f f'.
Proof. induction 1 as [|l ls f1 f2 f3 Hs _ IH]; [done|]. eapply rtc_l; [|done]. exists l. by eapply drain_step_served. Qed.






(** ** Making room *)

(** The connection, with its permits, and its reader unless that was at its very
    start. *)
Definition same_peer (id : string) (k k' : Peer) : Prop :=
  addr k' = addr k /\ slots k' = slots k
  /\ (at_reader k' = at_reader k
      \/ (exists auth, at_reader k = RConnected auth) /\ at_reader k' = RNotice (notice_push self id)).
Lemma same_peer_keep id k k' : addr k' = addr k -> slots k' = slots k -> at_reader k' = at_reader k -> same_peer id k k'.
Proof. intros Ha Hs Hr. split; [done|]. split; [done|by left]. Qed.
#[local] Instance same_peer_preorder id : PreOrder (same_peer id).
Proof.
  split; [intros k; by apply same_peer_keep|]. intros k1 k2 k3 (Ha & Hs & Hr) (Ha' & Hs' & Hr').
  split; [congruence|]. split; [congruence|]. destruct Hr' as [Hr'|[[auth H2] Hr']].
  - rewrite Hr'. destruct Hr as [Hr|[Hc Hr]]; [by left|by right].
  - destruct Hr as [Hr|[Hc Hr]]; [|congruence]. right. split; [exists auth; congruence|done].
Qed.






(** ** A task comes to its end *)















End Drain.

(** ** Instances *)
#[local] Existing Instances bit_json xor_x25519 prefix_sha256 plain_texts.



