(* ===== verification/ClientTypes.v ===== *)
(** * Client-side types (crates/wscall-client/src/client_types.rs): the
    configuration and its builders, lifecycle payloads, errors. *)

From S2P Require Import Prelude Utf8 Json Protocol Texts Attachment PacketJson Codec.
#[local] Open Scope Z_scope.

Inductive ClientOutbound : Type :=
| CPacket (packet : PacketEnvelope)
| CPing (payload : bytes)
| CPong (payload : bytes)
| CClose.

Inductive ClientError : Type :=
| CWebSocket (e : string)
| CProtocol (e : ProtocolError)
| Disconnected
| ConnectionClosed (reason : string)
| IdleTimeout
| Timeout
| Remote (e : ErrorPayload)
| AuthFailed (e : ErrorPayload).

(** [Display] of [ClientError]. *)
Definition client_error_text {TX : ErrorTexts} (e : ClientError) : string :=
  match e with
  | CWebSocket e => "websocket error: " +:+ e
  | CProtocol e => "protocol error: " +:+ protocol_error_text e
  | Disconnected => "client disconnected"
  | ConnectionClosed reason => "connection closed: " +:+ reason
  | IdleTimeout => "connection idle timeout"
  | Timeout => "request timed out"
  | Remote e => "remote error: " +:+ error_payload_debug e
  | AuthFailed e => "authentication failed: " +:+ error_payload_debug e
  end.

Record ClientConnectionEvent : Type := mkClientConnectionEvent { ce_url : string }.

Record ClientDisconnectEvent : Type := mkClientDisconnectEvent {
  cd_url : string;
  cd_reason : string;
  cd_will_reconnect : bool;
  cd_retry_after : option Z;
}.

Record EventMessage : Type := mkEventMessage {
  em_event_id : Z;
  em_name : string;
  em_data : gmap string Value;
  em_attachments : list FileAttachment;
  em_metadata : Value;
}.

Section Config.
Context {C : Crypto}.

Record WscallClientConfig : Type := mkWscallClientConfig {
  cfg_codec : FrameCodec;
  cfg_default_encryption : EncryptionKind;
  auto_reconnect : bool;
  use_ecdh : bool;
  failover_urls : list string;
  credential : option string;
}.

(** [WscallClientConfig::default], [new] and [ecdh]. *)
Definition config_default : WscallClientConfig :=
  mkWscallClientConfig plaintext ChaCha20 true true [] None.
Definition config_plaintext : WscallClientConfig :=
  mkWscallClientConfig plaintext NoEncryption true false [] None.
Definition psk_chacha20 (key : bytes) : result ProtocolError WscallClientConfig :=
  c ← with_chacha20_key plaintext key; Ok (mkWscallClientConfig c ChaCha20 true false [] None).
Definition psk_aes256 (key : bytes) : result ProtocolError WscallClientConfig :=
  c ← with_aes256_key plaintext key; Ok (mkWscallClientConfig c Aes256 true false [] None).

Definition config_with_codec (c : WscallClientConfig) (codec : FrameCodec) : WscallClientConfig :=
  mkWscallClientConfig codec (cfg_default_encryption c) (auto_reconnect c) (use_ecdh c)
    (failover_urls c) (credential c).
Definition with_default_encryption (c : WscallClientConfig) (e : EncryptionKind) : WscallClientConfig :=
  mkWscallClientConfig (cfg_codec c) e (auto_reconnect c) (use_ecdh c) (failover_urls c) (credential c).
Definition with_auto_reconnect (c : WscallClientConfig) (enabled : bool) : WscallClientConfig :=
  mkWscallClientConfig (cfg_codec c) (cfg_default_encryption c) enabled (use_ecdh c)
    (failover_urls c) (credential c).
Definition with_use_ecdh (c : WscallClientConfig) (enabled : bool) : WscallClientConfig :=
  mkWscallClientConfig (cfg_codec c) (cfg_default_encryption c) (auto_reconnect c) enabled
    (failover_urls c) (credential c).
Definition with_failover_urls (c : WscallClientConfig) (urls : list string) : WscallClientConfig :=
  mkWscallClientConfig (cfg_codec c) (cfg_default_encryption c) (auto_reconnect c) (use_ecdh c)
    urls (credential c).
Definition with_failover_url (c : WscallClientConfig) (url : string) : WscallClientConfig :=
  with_failover_urls c (failover_urls c ++ [url]).
Definition with_credential (c : WscallClientConfig) (cred : string) : WscallClientConfig :=
  mkWscallClientConfig (cfg_codec c) (cfg_default_encryption c) (auto_reconnect c) (use_ecdh c)
    (failover_urls c) (Some cred).
End Config.
