(* ===== verification/ClientRuntime.v ===== *)
(** * The client runtime (crates/wscall-client/src/client_runtime.rs)

    The client's shared state is one record, [Client]: the pending-call tables,
    the outcome delivered to each waiting call, the outbound channel of each
    connection (named by its generation), flags and counters, the messages
    written to the socket and the application's state.  What the socket
    delivers, the outcome of socket writes, of connection attempts and of
    [getrandom] are arguments or part of the state. *)

From S2P Require Import Prelude Utf8 Json Protocol Texts Attachment PacketJson Codec RateLimiter.
From S2P Require Import Validation ServerTypes ServerRuntime ClientTypes.
#[local] Open Scope Z_scope.

Definition CLIENT_RECONNECT_BASE_DELAY_SECS : Z := 3.
Definition CLIENT_RECONNECT_MAX_DELAY_SECS : Z := 30.

Definition client_metadata : Value := Object {["client_name" := Str "rust-demo"]}.

(** An outbound channel of the client. *)
Record CChannel : Type := mkCChannel {
  cqueue : list ClientOutbound;
  creceiver : bool;
}.

Section Client.
Context {J : SerdeJson} {C : Crypto} {X : X25519} {H : Sha256} {TX : ErrorTexts} {App : Type}.

(** The outcome sent on the one-shot channel of a call. *)
Abbreviation Outcome := (result ClientError Value).

Record Client : Type := mkClient {
  last_url_idx : Z;
  writer : option Z;
  cchannels : gmap Z CChannel;
  pending_api : gset Z;
  pending_event : gset Z;
  api_outcomes : gmap Z Outcome;
  event_outcomes : gmap Z Outcome;
  is_connected : bool;
  shutdown : bool;
  connection_generation : Z;
  next_request_id : Z;
  cnext_event_id : Z;
  signalled : gmap Z ClientError;
  centropy : nat -> Z -> result string bytes;
  cdrawn : nat;
  cwire : list Message;
  capp : App;
}.

Definition on_flags (c : Client) (idx : Z) (wr : option Z) (ch : gmap Z CChannel)
    (conn down : bool) (gen : Z) (sig : gmap Z ClientError) : Client :=
  mkClient idx wr ch (pending_api c) (pending_event c) (api_outcomes c) (event_outcomes c)
    conn down gen (next_request_id c) (cnext_event_id c) sig (centropy c) (cdrawn c) (cwire c) (capp c).
Definition on_pending (c : Client) (pa pe : gset Z) (oa oe : gmap Z Outcome) (nr ne : Z) : Client :=
  mkClient (last_url_idx c) (writer c) (cchannels c) pa pe oa oe (is_connected c) (shutdown c)
    (connection_generation c) nr ne (signalled c) (centropy c) (cdrawn c) (cwire c) (capp c).
Definition on_io (c : Client) (n : nat) (wi : list Message) (a : App) : Client :=
  mkClient (last_url_idx c) (writer c) (cchannels c) (pending_api c) (pending_event c)
    (api_outcomes c) (event_outcomes c) (is_connected c) (shutdown c) (connection_generation c)
    (next_request_id c) (cnext_event_id c) (signalled c) (centropy c) n wi a.

Definition set_cchannels (c : Client) (ch : gmap Z CChannel) : Client :=
  on_flags c (last_url_idx c) (writer c) ch (is_connected c) (shutdown c)
    (connection_generation c) (signalled c).
Definition set_pending_api (c : Client) (p : gset Z) (o : gmap Z Outcome) : Client :=
  on_pending c p (pending_event c) o (event_outcomes c) (next_request_id c) (cnext_event_id c).
Definition set_pending_event (c : Client) (p : gset Z) (o : gmap Z Outcome) : Client :=
  on_pending c (pending_api c) p (api_outcomes c) o (next_request_id c) (cnext_event_id c).

Definition ClientEventHandler : Type := EventMessage -> M Client Empty_set Value.
Definition ClientConnectionHandler : Type := ClientConnectionEvent -> M Client Empty_set unit.
Definition ClientDisconnectHandler : Type := ClientDisconnectEvent -> M Client Empty_set unit.

(** The immutable part of [WscallClient] and the registered handlers. *)
Record WscallClient : Type := mkWscallClient {
  urls : list string;
  cconfig : WscallClientConfig;
  cevent_handlers : gmap string (list ClientEventHandler);
  connected_handlers : list ClientConnectionHandler;
  disconnected_handlers : list ClientDisconnectHandler;
}.

(** The state [WscallClient::connect] starts from, and the URL list. *)
Definition client_init (entropy : nat -> Z -> result string bytes) (a : App) : Client :=
  mkClient 0 None ∅ ∅ ∅ ∅ ∅ false false 0 0 0 ∅ entropy 0 [] a.
Definition client_new (url : string) (config : WscallClientConfig) : WscallClient :=
  mkWscallClient (url :: failover_urls config) config ∅ [] [].

Section Self.
Context (self : WscallClient).

Definition current_url (c : Client) : result Empty_set string := index (urls self) (last_url_idx c).

(** ** Registration of handlers *)
Definition on_event (name : string) (handler : ClientEventHandler) : WscallClient :=
  mkWscallClient (urls self) (cconfig self)
    (<[name := default [] (cevent_handlers self !! name) ++ [handler]]> (cevent_handlers self))
    (connected_handlers self) (disconnected_handlers self).

(** [on_connected]: the handler is kept, and invoked at once when connected. *)
Definition client_on_connected (handler : ClientConnectionHandler) :
    WscallClient * M Client Empty_set unit :=
  (mkWscallClient (urls self) (cconfig self) (cevent_handlers self)
     (connected_handlers self ++ [handler]) (disconnected_handlers self),
   c ← get;
   if is_connected c then
     url ← lift (current_url c);
     catch_unwind (E:=Empty_set) (handler (mkClientConnectionEvent url)) ;; mret tt
   else mret tt).

Definition client_on_disconnected (handler : ClientDisconnectHandler) : WscallClient :=
  mkWscallClient (urls self) (cconfig self) (cevent_handlers self)
    (connected_handlers self) (disconnected_handlers self ++ [handler]).

(** ** Sending *)

(** [mpsc::Sender::send(..).await] on the channel of a generation. *)
Definition csend (gen : Z) (m : ClientOutbound) : M Client unit unit :=
  fun c => match cchannels c !! gen with
           | Some ch =>
               if creceiver ch
               then (Ok tt, set_cchannels c (<[gen := mkCChannel (cqueue ch ++ [m]) true]> (cchannels c)))
               else (Err tt, c)
           | None => (Err tt, c)
           end.

Definition send_outbound (m : ClientOutbound) : M Client ClientError unit :=
  c ← get;
  match writer c with
  | None => lift (Err Disconnected)
  | Some gen => m_map_err (fun _ => Disconnected) (csend gen m)
  end.

(** ** Calls *)

(** [call] up to the wait: the id of the request in flight. *)
Definition call_begin (route : string) (params : Value) (atts : list FileAttachment) :
    M Client ClientError Z :=
  c ← get;
  if negb (is_connected c) then lift (Err Disconnected)
  else
    let request_id := wrap 64 (next_request_id c + 1) in
    modify (fun c => on_pending c ({[request_id]} ∪ pending_api c) (pending_event c)
      (delete request_id (api_outcomes c)) (event_outcomes c) request_id (cnext_event_id c)) ;;
    sent ← m_try (send_outbound (CPacket (with_encryption
             (ApiRequest request_id route params atts client_metadata)
             (cfg_default_encryption (cconfig self)))));
    match sent with
    | inl _ =>
        modify (fun c => set_pending_api c (pending_api c ∖ {[request_id]}) (api_outcomes c)) ;;
        lift (Err Disconnected)
    | inr _ => mret request_id
    end.

(** The end of the wait: the outcome when one was delivered, otherwise the
    timeout ([None] while the call is still waiting). *)
Definition call_poll (request_id : Z) (timed_out : bool) : Client -> option Outcome * Client :=
  fun c => match api_outcomes c !! request_id with
           | Some r => (Some r, c)
           | None =>
               if timed_out
               then (Some (Err Timeout), set_pending_api c (pending_api c ∖ {[request_id]}) (api_outcomes c))
               else (None, c)
           end.

(** [send_event], likewise. *)
Definition event_begin (name : string) (data : gmap string Value) (atts : list FileAttachment) :
    M Client ClientError Z :=
  c ← get;
  if negb (is_connected c) then lift (Err Disconnected)
  else
    let event_id := wrap 64 (cnext_event_id c + 1) in
    modify (fun c => on_pending c (pending_api c) ({[event_id]} ∪ pending_event c)
      (api_outcomes c) (delete event_id (event_outcomes c)) (next_request_id c) event_id) ;;
    sent ← m_try (send_outbound (CPacket (with_encryption
             (EventEmit event_id name data atts client_metadata true)
             (cfg_default_encryption (cconfig self)))));
    match sent with
    | inl _ =>
        modify (fun c => set_pending_event c (pending_event c ∖ {[event_id]}) (event_outcomes c)) ;;
        lift (Err Disconnected)
    | inr _ => mret event_id
    end.

Definition event_poll (event_id : Z) (timed_out : bool) : Client -> option Outcome * Client :=
  fun c => match event_outcomes c !! event_id with
           | Some r => (Some r, c)
           | None =>
               if timed_out
               then (Some (Err Timeout), set_pending_event c (pending_event c ∖ {[event_id]}) (event_outcomes c))
               else (None, c)
           end.

(** ** Inbound packets *)
Definition missing_remote_error : ErrorPayload :=
  mkErrorPayload "remote_error" "missing remote error" 500 None.

Definition remote_outcome (ok : bool) (v : Value) (error : option ErrorPayload) : Outcome :=
  if ok then Ok v else Err (Remote (default missing_remote_error error)).

(** The handlers of an event run; the receipt is the last one's. *)
Fixpoint run_event_handlers (hs : list ClientEventHandler) (e : EventMessage) (last : Value) :
    M Client Empty_set Value :=
  match hs with
  | [] => mret last
  | h :: hs => r ← h e; run_event_handlers hs e r
  end.

Definition handle_packet (packet : PacketEnvelope) : M Client Empty_set unit :=
  match env_body packet with
  | ApiResponse request_id ok _ data error _ =>
      modify (fun c =>
        if bool_decide (request_id ∈ pending_api c)
        then set_pending_api c (pending_api c ∖ {[request_id]})
               (<[request_id := remote_outcome ok data error]> (api_outcomes c))
        else c)
  | EventAck event_id ok receipt error =>
      modify (fun c =>
        if bool_decide (event_id ∈ pending_event c)
        then set_pending_event c (pending_event c ∖ {[event_id]})
               (<[event_id := remote_outcome ok receipt error]> (event_outcomes c))
        else c)
  | EventEmit event_id name data attachments metadata expect_ack =>
      receipt ← run_event_handlers (default [] (cevent_handlers self !! name))
                  (mkEventMessage event_id name data attachments metadata)
                  (Object {["handled" := Bool false]});
      if (expect_ack : bool) then
        ignore (send_outbound (CPacket (with_encryption (EventAck event_id true receipt None)
                  (cfg_default_encryption (cconfig self)))))
      else mret tt
  | ApiRequest _ _ _ _ _ | AuthRequest _ | AuthResponse _ _ _ => mret tt
  end.

(** ** Disconnection *)
Definition is_connection_generation_active (generation : Z) (c : Client) : bool :=
  bool_decide (connection_generation c = generation).

(** [reconnect_delay], in nanoseconds; [attempt] is a [u32]. *)
Definition reconnect_delay (attempt : Z) : Z :=
  let attempt := Z.max attempt 1 in
  let exponent := Z.min (attempt - 1) 6 in
  let seconds := Z.min (Z.min (CLIENT_RECONNECT_BASE_DELAY_SECS * Z.shiftl 1 exponent) (2 ^ 64 - 1))
                   CLIENT_RECONNECT_MAX_DELAY_SECS in
  secs seconds.

(** [reconnect_jitter]: [drawn] is the outcome of filling four bytes. *)
Definition from_le_bytes (bs : bytes) : Z :=
  match bs with [a; b; c; d] => from_be_bytes d c b a | _ => 0 end.
Definition reconnect_jitter (drawn : result string bytes) : Z :=
  let nanos := match drawn with Ok buf => from_le_bytes buf | _ => 0 end in
  let max_nanos := CLIENT_RECONNECT_BASE_DELAY_SECS * 1000000000 / 2 in
  nanos mod Z.max max_nanos 1.

(** [disconnect_reason]. *)
Definition cdisconnect_reason (e : ClientError) : string :=
  match e with
  | ConnectionClosed reason => reason
  | IdleTimeout => "idle timeout"
  | Disconnected => "disconnected"
  | other => client_error_text other
  end.

Fixpoint cnotify_all {Ev} (hs : list (Ev -> M Client Empty_set unit)) (e : Ev) : M Client Empty_set unit :=
  match hs with [] => mret tt | h :: hs => catch_unwind (E:=Empty_set) (h e) ;; cnotify_all hs e end.

Definition emit_connected : M Client Empty_set unit :=
  c ← get;
  url ← lift (current_url c);
  cnotify_all (connected_handlers self) (mkClientConnectionEvent url).
Definition emit_disconnected (e : ClientDisconnectEvent) : M Client Empty_set unit :=
  cnotify_all (disconnected_handlers self) e.

(** Every waiting call gets [Err(ConnectionClosed(reason))]. *)
Definition fail_pending (reason : string) (ids : gset Z) (o : gmap Z Outcome) : gmap Z Outcome :=
  set_fold (fun id o => <[id := Err (ConnectionClosed reason)]> o) o ids.

(** [handle_disconnect]; [signal] names the supervisor that waits, if any. *)
Definition handle_disconnect (generation : Z) (error : ClientError)
    (signal : option Z) : M Client Empty_set unit :=
  c ← get;
  if negb (is_connection_generation_active generation c) then mret tt
  else
    let reason := cdisconnect_reason error in
    if negb (is_connected c) then mret tt
    else
      modify (fun c => on_flags c (last_url_idx c) None (cchannels c) false (shutdown c)
        (connection_generation c) (signalled c)) ;;
      modify (fun c => set_pending_api c ∅ (fail_pending reason (pending_api c) (api_outcomes c))) ;;
      modify (fun c => set_pending_event c ∅ (fail_pending reason (pending_event c) (event_outcomes c))) ;;
      c ← get;
      url ← lift (current_url c);
      let again := negb (shutdown c) && auto_reconnect (cconfig self) in
      emit_disconnected (mkClientDisconnectEvent url reason again
        (if again then Some (reconnect_delay 1) else None)) ;;
      modify (fun c => match signal with
        | Some g => if bool_decide (is_Some (signalled c !! g)) then c
                    else on_flags c (last_url_idx c) (writer c) (cchannels c) (is_connected c)
                           (shutdown c) (connection_generation c) (<[g := error]> (signalled c))
        | None => c end).

(** [close]. *)
Definition close : M Client Empty_set unit :=
  modify (fun c => on_flags c (last_url_idx c) (writer c) (cchannels c) (is_connected c) true
    (connection_generation c) (signalled c)) ;;
  c ← get;
  match writer c with Some gen => ignore (csend gen CClose) | None => mret tt end ;;
  c ← get;
  handle_disconnect (connection_generation c) Disconnected None.

(** ** Establishing a connection *)

(** [socket.send(message).await]. *)
Definition cws_send (m : Message) (failure : option string) : M Client string unit :=
  fun c => match failure with
           | None => (Ok tt, on_io c (cdrawn c) (cwire c ++ [m]) (capp c))
           | Some e => (Err e, c)
           end.

(** The loop over the candidate URLs, from [offset] on; [attempt url] is the
    outcome of [connect_async].  Returns the index that answered, or the last
    error. *)
Fixpoint try_urls (attempt : string -> option string) (start count : Z) (offset : Z) (fuel : nat)
    (last_error : option ClientError) : result ClientError (Z + option ClientError) :=
  match fuel with
  | O => Ok (inr last_error)
  | S fuel =>
      let idx := (start + offset) mod count in
      url ← index (urls self) idx;
      match attempt url with
      | None => Ok (inl idx)
      | Some e => try_urls attempt start count (offset + 1) fuel (Some (CWebSocket e))
      end
  end.

Definition connect_any (attempt : string -> option string) : M Client ClientError unit :=
  c ← get;
  let count := blen (urls self) in
  found ← lift (try_urls attempt (last_url_idx c) count 0 (length (urls self)) None);
  match found with
  | inl idx =>
      modify (fun c => on_flags c idx (writer c) (cchannels c) (is_connected c) (shutdown c)
        (connection_generation c) (signalled c))
  | inr last_error =>
      lift (Err (default (ConnectionClosed "all server URLs unreachable") last_error))
  end.

(** The client half of the key exchange. *)
Definition client_handshake (next : Next) (failure : option string) : M Client ClientError FrameCodec :=
  if use_ecdh (cconfig self) then
    keypair ← (fun c => (map_err CProtocol (generate (centropy c (cdrawn c) ECDH_KEY_LEN)),
                         on_io c (S (cdrawn c)) (cwire c) (capp c)));
    m_map_err ConnectionClosed (cws_send (MBinary (public_bytes keypair)) failure) ;;
    server_public ← match next with
                    | Received (MBinary bs) => lift (map_err CProtocol (parse_peer_public bs))
                    | _ => lift (Err (ConnectionClosed
                             "ECDH handshake failed: no valid server public key"))
                    end;
    lift (map_err CProtocol (with_chacha20_key plaintext (derive_session_key keypair server_public)))
  else mret (cfg_codec (cconfig self)).

Definition client_encode (codec : FrameCodec) (p : PacketEnvelope) : M Client ProtocolError bytes :=
  fun c => (encode codec (centropy c (cdrawn c) CHACHA20_NONCE_LEN) p,
            on_io c (S (cdrawn c)) (cwire c) (capp c)).

(** The client half of the authentication phase. *)
Definition client_auth (codec : FrameCodec) (next : Next) (failure : option string) :
    M Client ClientError unit :=
  match credential (cconfig self) with
  | None => mret tt
  | Some cred =>
      encoded ← m_map_err CProtocol (client_encode codec (envelope_new (AuthRequest cred)));
      m_map_err ConnectionClosed (cws_send (MBinary encoded) failure) ;;
      response_frame ← match next with
                       | Received (MBinary bs) => mret bs
                       | _ => lift (Err (ConnectionClosed
                                "auth handshake failed: no valid server response"))
                       end;
      envelope ← lift (map_err CProtocol (decode codec response_frame));
      match env_body envelope with
      | AuthResponse true _ _ => mret tt
      | AuthResponse false _ (Some error) => lift (Err (AuthFailed error))
      | AuthResponse false _ None => lift (Err (ConnectionClosed "authentication rejected by server"))
      | _ => lift (Err (ConnectionClosed "auth handshake failed: unexpected response frame"))
      end
  end.

(** Reaching a server, the key exchange and authentication. *)
Definition negotiate (attempt : string -> option string) (hello auth : Next)
    (hello_failure auth_failure : option string) : M Client ClientError FrameCodec :=
  connect_any attempt ;;
  codec ← client_handshake hello hello_failure;
  client_auth codec auth auth_failure ;;
  mret codec.

(** [establish_connection]: the session codec of generation [generation]. *)
Definition establish_connection (generation : Z) (attempt : string -> option string)
    (hello auth : Next) (hello_failure auth_failure : option string) : M Client ClientError FrameCodec :=
  connect_any attempt ;;
  codec ← client_handshake hello hello_failure;
  client_auth codec auth auth_failure ;;
  modify (fun c => on_flags c (last_url_idx c) (Some generation)
    (<[generation := mkCChannel [] true]> (cchannels c)) true (shutdown c)
    (connection_generation c) (signalled c)) ;;
  infallible emit_connected ;;
  mret codec.

(** ** The tasks of a connection *)

(** What a task does next: go on, hand an event to a task of its own, end, or end
    with a disconnection. *)
Inductive Step : Type :=
| Go
| GoHandle (packet : PacketEnvelope)
| Quit
| Leave (e : ClientError).

Definition is_event_emit (b : PacketBody) : bool :=
  match b with EventEmit _ _ _ _ _ _ => true | _ => false end.

(** One iteration of the reader; an event is handed to a task of its own. *)
Definition client_reader_step (generation : Z) (codec : FrameCodec) (next : Next) :
    M Client Empty_set Step :=
  match next with
  | EndOfStream => mret (Leave (ConnectionClosed "reader loop stopped"))
  | TimedOut => mret (Leave IdleTimeout)
  | StreamError e => mret (Leave (ConnectionClosed e))
  | Received m =>
      match m with
      | MBinary bs =>
          match decode codec bs with
          | Ok packet =>
              if is_event_emit (env_body packet) then mret (GoHandle packet)
              else handle_packet packet ;; mret Go
          | Err _ => mret Go
          | Panic => lift Panic
          end
      | MClose => mret (Leave (ConnectionClosed "server closed connection"))
      | MPing payload =>
          sent ← m_try (csend generation (CPong payload));
          mret (match sent with
                | inl _ => Leave (ConnectionClosed "failed to queue pong response")
                | inr _ => Go end)
      | MPong _ | MText _ | MFrame => mret Go
      end
  end.

(** One iteration of the writer on the message it received. *)
Definition client_write (codec : FrameCodec) (m : ClientOutbound) (failure : option string) :
    M Client Empty_set Step :=
  let sent (msg : Message) :=
    r ← m_try (cws_send msg failure);
    mret (match r with inl e => Leave (ConnectionClosed e) | inr _ => Go end) in
  match m with
  | CPacket packet =>
      encoded ← m_try (client_encode codec packet);
      match encoded with inl _ => mret Go | inr frame => sent (MBinary frame) end
  | CPing payload => sent (MPing payload)
  | CPong payload => sent (MPong payload)
  | CClose =>
      ignore (cws_send MClose failure) ;; mret (Leave (ConnectionClosed "client closed"))
  end.

Definition client_writer_step (generation : Z) (codec : FrameCodec) (failure : option string) :
    M Client Empty_set Step :=
  c ← get;
  match cchannels c !! generation with
  | Some (mkCChannel (m :: rest) true) =>
      modify (fun c => set_cchannels c (<[generation := mkCChannel rest true]> (cchannels c))) ;;
      client_write codec m failure
  | _ => mret Go
  end.

(** One tick of the heartbeat task. *)
Definition client_heartbeat (generation : Z) : M Client Empty_set Step :=
  c ← get;
  if negb (is_connection_generation_active generation c) then mret Quit
  else
    sent ← m_try (csend generation (CPing []));
    mret (match sent with inl _ => Leave (ConnectionClosed "heartbeat stopped") | inr _ => Go end).

(** The end of a task: [Leave] reports the loss of the connection; [true] when
    the task is over. *)
Definition finish (generation : Z) (s : Step) :
    M Client Empty_set bool :=
  match s with
  | Go | GoHandle _ => mret false
  | Quit => mret true
  | Leave e => handle_disconnect generation e (Some generation) ;; mret true
  end.

(** The writer task owns the receiver of its channel and drops it at its end. *)
Definition drop_creceiver (generation : Z) (c : Client) : Client :=
  set_cchannels c (alter (fun ch => mkCChannel (cqueue ch) false) generation (cchannels c)).

Definition writer_task (generation : Z) (codec : FrameCodec)
    (failure : option string) : M Client Empty_set unit :=
  s ← client_writer_step generation codec failure;
  over ← finish generation s;
  if (over : bool) then modify (drop_creceiver generation) else mret tt.

(** [recv] yields nothing once every sender is gone. *)
Definition writer_stopped (generation : Z) : M Client Empty_set unit :=
  finish generation (Leave (ConnectionClosed "writer loop stopped")) ;;
  modify (drop_creceiver generation).

(** The reader task; the packet it hands to a task of its own, if any. *)
Definition reader_task (generation : Z) (codec : FrameCodec)
    (next : Next) : M Client Empty_set (option PacketEnvelope) :=
  s ← client_reader_step generation codec next;
  finish generation s ;;
  mret (match s with GoHandle packet => Some packet | _ => None end).

Definition heartbeat_task (generation : Z) : M Client Empty_set unit :=
  s ← client_heartbeat generation;
  finish generation s ;; mret tt.

(** ** The supervisor *)

(** What the supervisor does after an attempt or a disconnect. *)
Inductive Supervise : Type :=
| Retry (attempt : Z) (sleep : Z)
| GiveUp (report : option ClientError)
| Exit.

(** The head of the loop: the generation of the next attempt. *)
Definition begin_attempt : M Client Empty_set (option Z) :=
  c ← get;
  if shutdown c then mret None
  else
    let generation := wrap 64 (connection_generation c + 1) in
    modify (fun c => on_flags c (last_url_idx c) (writer c) (cchannels c) (is_connected c)
      (shutdown c) generation (signalled c)) ;;
    mret (Some generation).

(** The rest of the loop body: [established] is the outcome of the attempt (and,
    when it succeeded, the connection has since been lost), [waiting] whether
    [connect] still waits for the first outcome. *)
Definition after_attempt (established : option ClientError) (waiting : bool) (attempt : Z)
    (jitter : Z) (c : Client) : Supervise :=
  match established with
  | Some error =>
      if waiting then GiveUp (Some error)
      else if shutdown c then Exit
      else if negb (auto_reconnect (cconfig self)) then Exit
      else let attempt := Z.min (attempt + 1) (2 ^ 32 - 1) in
           Retry attempt (reconnect_delay attempt + jitter)
  | None =>
      if shutdown c then Exit
      else if negb (auto_reconnect (cconfig self)) then Exit
      else Retry 1 (reconnect_delay 1 + jitter)
  end.
End Self.
End Client.

(** ** Calls in flight *)
Section Calls.
Context {J : SerdeJson} {C : Crypto} {X : X25519} {H : Sha256} {TX : ErrorTexts} {App : Type}.
Abbreviation St := (Client (App:=App)).
Implicit Types (c : St) (self : WscallClient (App:=App)).

(** The fields the call tables live in. *)
Definition same_calls c c' : Prop :=
  pending_api c' = pending_api c /\ pending_event c' = pending_event c
  /\ api_outcomes c' = api_outcomes c /\ event_outcomes c' = event_outcomes c
  /\ next_request_id c' = next_request_id c /\ cnext_event_id c' = cnext_event_id c.

(** A handler that leaves the calls and the connection alone. *)
Definition handler_local {E A} (m : M St E A) : Prop :=
  forall c, same_calls c (m c).2 /\ writer (m c).2 = writer c
    /\ is_connected (m c).2 = is_connected c
    /\ connection_generation (m c).2 = connection_generation c.

(** The invariant of the call tables: ids in flight were issued by the counters
    and have no outcome yet. *)
Definition calls_wf c : Prop :=
  in_u 64 (next_request_id c) /\ in_u 64 (cnext_event_id c)
  /\ (forall i, i ∈ pending_api c -> 0 < i <= next_request_id c /\ api_outcomes c !! i = None)
  /\ (forall i, i ∈ pending_event c -> 0 < i <= cnext_event_id c /\ event_outcomes c !! i = None)
  /\ (forall i, is_Some (api_outcomes c !! i) -> 0 < i <= next_request_id c)
  /\ (forall i, is_Some (event_outcomes c !! i) -> 0 < i <= cnext_event_id c).

Lemma calls_wf_same c c' : same_calls c c' -> calls_wf c -> calls_wf c'.
Proof. intros (H1 & H2 & H3 & H4 & H5 & H6). unfold calls_wf. by rewrite H1, H2, H3, H4, H5, H6. Qed.

Lemma fail_pending_lookup reason (ids : gset Z) (o : gmap Z (result ClientError Value)) i :
  fail_pending reason ids o !! i =
  if bool_decide (i ∈ ids) then Some (Err (ConnectionClosed reason)) else o !! i.
Proof.
  pose (P (acc : gmap Z (result ClientError Value)) (Y : gset Z) :=
    forall i, acc !! i =
      if bool_decide (i ∈ Y) then Some (Err (ConnectionClosed reason)) else o !! i).
  revert i. change (P (fail_pending reason ids o) ids). unfold fail_pending.
  apply (set_fold_ind_L P); unfold P.
  - intros i. by rewrite bool_decide_false by set_solver.
  - intros x X' acc Hx IH i. destruct (decide (x = i)) as [->|Hne].
    + rewrite lookup_insert_eq. by rewrite bool_decide_true by set_solver.
    + rewrite lookup_insert_ne by done. rewrite IH. by do 2 case_bool_decide; set_solver.
Qed.

Lemma csend_calls gen m c : same_calls c (csend gen m c).2.
Proof. unfold csend. repeat case_match; by split_and!. Qed.

Lemma send_outbound_calls m c : same_calls c (send_outbound m c).2.
Proof.
  unfold send_outbound. unfold mbind, M_bind, get. destruct (writer c); [|by split_and!].
  unfold m_map_err. pose proof (csend_calls z m c) as Hs. by destruct (csend z m c).
Qed.

Lemma cnotify_local {Ev} (hs : list (Ev -> M St Empty_set unit)) e : 
  Forall (fun h => forall e, handler_local (h e)) hs -> handler_local (cnotify_all hs e).
Proof.
  induction 1 as [|h hs Hh _ IH]; intros c; cbn [cnotify_all]; [by split_and!|].
  unfold mbind, M_bind, catch_unwind. pose proof (Hh e c) as (H1 & H2 & H3 & H4).
  destruct (h e c) as [r c1]. cbn [snd] in *. destruct (IH c1) as (G1 & G2 & G3 & G4).
  rewrite <- H2, <- H3, <- H4. split_and!; [|done..].
  destruct H1 as (? & ? & ? & ? & ? & ?), G1 as (? & ? & ? & ? & ? & ?).
  split_and!; by etransitivity.
Qed.

Lemma cnotify_returns {Ev} (hs : list (Ev -> M St Empty_set unit)) e : forall c,
  (cnotify_all hs e c).1 = Ok tt.
Proof.
  induction hs as [|h hs IH]; intros c; cbn [cnotify_all]; [done|].
  unfold mbind, M_bind, catch_unwind. destruct (h e c) as [r c1]. apply IH.
Qed.

(** What [call_begin] does. *)
Lemma call_begin_cases self route params atts c :
  let rid := wrap 64 (next_request_id c + 1) in
  let c1 := on_pending c ({[rid]} ∪ pending_api c) (pending_event c)
              (delete rid (api_outcomes c)) (event_outcomes c) rid (cnext_event_id c) in
  let m := CPacket (with_encryption (ApiRequest rid route params atts client_metadata)
             (cfg_default_encryption (cconfig self))) in
  call_begin self route params atts c =
  if negb (is_connected c) then (Err Disconnected, c)
  else match send_outbound m c1 with
       | (Ok _, c2) => (Ok rid, c2)
       | (Err _, c2) =>
           (Err Disconnected, set_pending_api c2 (pending_api c2 ∖ {[rid]}) (api_outcomes c2))
       | (Panic, c2) => (Panic, c2)
       end.
Proof.
  cbv zeta. unfold call_begin. unfold mbind, M_bind, get. destruct (is_connected c); [|done].
  cbn [negb]. unfold modify, m_try. by destruct (send_outbound _ _) as [[[]|e|] c2].
Qed.

(** The handle-packet step on the tables. *)
Lemma response_wf self rid ok st v err meta e c :
  calls_wf c ->
  calls_wf (handle_packet self (with_encryption (ApiResponse rid ok st v err meta) e) c).2.
Proof.
  intros (Hr & He & Hpa & Hpe & Hoa & Hoe). cbn. case_bool_decide as Hin; [|by split_and!].
  split_and!; cbn; try done.
  - intros i [Hi Hne]%elem_of_difference. destruct (Hpa i Hi) as [Hb Ho].
    rewrite lookup_insert_ne by set_solver. done.
  - intros i [r Hi]. destruct (decide (rid = i)) as [<-|Hne]; [apply Hpa, Hin|].
    rewrite lookup_insert_ne in Hi by done. eauto.
Qed.

Lemma ack_wf self eid ok v err e c :
  calls_wf c -> calls_wf (handle_packet self (with_encryption (EventAck eid ok v err) e) c).2.
Proof.
  intros (Hr & He & Hpa & Hpe & Hoa & Hoe). cbn. case_bool_decide as Hin; [|by split_and!].
  split_and!; cbn; try done.
  - intros i [Hi Hne]%elem_of_difference. destruct (Hpe i Hi) as [Hb Ho].
    rewrite lookup_insert_ne by set_solver. done.
  - intros i [r Hi]. destruct (decide (eid = i)) as [<-|Hne]; [apply Hpe, Hin|].
    rewrite lookup_insert_ne in Hi by done. eauto.
Qed.

Lemma call_begin_wf self route params atts c :
  calls_wf c -> next_request_id c < 2 ^ 64 - 1 ->
  calls_wf (call_begin self route params atts c).2.
Proof.
  intros Hwf Hid. rewrite call_begin_cases. cbv zeta. destruct (is_connected c); cbn [negb]; [|done].
  destruct Hwf as (Hr & He & Hpa & Hpe & Hoa & Hoe). unfold in_u in Hr.
  rewrite wrap_small by lia. set (rid := next_request_id c + 1).
  set (c1 := on_pending _ _ _ _ _ _ _).
  assert (Hwf1 : calls_wf c1).
  { split_and!; cbn; unfold in_u; try done; try lia.
    - intros i [->%elem_of_singleton|Hi]%elem_of_union; [split; [unfold rid; lia|apply lookup_delete_eq]|].
      destruct (Hpa i Hi) as [Hb Ho]. split; [unfold rid; lia|].
      rewrite lookup_delete_ne by (unfold rid; lia). done.
    - intros i [r [Hne Hi]%lookup_delete_Some]. specialize (Hoa i (mk_is_Some _ _ Hi)). unfold rid. lia. }
  match goal with |- context [send_outbound ?m c1] =>
    pose proof (send_outbound_calls m c1) as Hs; destruct (send_outbound m c1) as [[[]|e|] c2] end;
    cbn [snd] in *; [by eapply calls_wf_same| |by eapply calls_wf_same].
  apply (calls_wf_same _ _ Hs) in Hwf1 as (Hr1 & He1 & Hpa1 & Hpe1 & Hoa1 & Hoe1).
  split_and!; cbn; try done. intros i [Hi _]%elem_of_difference. by apply Hpa1.
Qed.

(** The same for [event_begin]. *)
Lemma event_begin_cases self name data atts c :
  let eid := wrap 64 (cnext_event_id c + 1) in
  let c1 := on_pending c (pending_api c) ({[eid]} ∪ pending_event c) (api_outcomes c)
              (delete eid (event_outcomes c)) (next_request_id c) eid in
  let m := CPacket (with_encryption (EventEmit eid name data atts client_metadata true)
             (cfg_default_encryption (cconfig self))) in
  event_begin self name data atts c =
  if negb (is_connected c) then (Err Disconnected, c)
  else match send_outbound m c1 with
       | (Ok _, c2) => (Ok eid, c2)
       | (Err _, c2) =>
           (Err Disconnected, set_pending_event c2 (pending_event c2 ∖ {[eid]}) (event_outcomes c2))
       | (Panic, c2) => (Panic, c2)
       end.
Proof.
  cbv zeta. unfold event_begin. unfold mbind, M_bind, get. destruct (is_connected c); [|done].
  cbn [negb]. unfold modify, m_try. by destruct (send_outbound _ _) as [[[]|e|] c2].
Qed.

Lemma event_begin_wf self name data atts c :
  calls_wf c -> cnext_event_id c < 2 ^ 64 - 1 ->
  calls_wf (event_begin self name data atts c).2.
Proof.
  intros Hwf Hid. rewrite event_begin_cases. cbv zeta. destruct (is_connected c); cbn [negb]; [|done].
  destruct Hwf as (Hr & He & Hpa & Hpe & Hoa & Hoe). unfold in_u in He.
  rewrite wrap_small by lia. set (eid := cnext_event_id c + 1).
  set (c1 := on_pending _ _ _ _ _ _ _).
  assert (Hwf1 : calls_wf c1).
  { split_and!; cbn; unfold in_u; try done; try lia.
    - intros i [->%elem_of_singleton|Hi]%elem_of_union; [split; [unfold eid; lia|apply lookup_delete_eq]|].
      destruct (Hpe i Hi) as [Hb Ho]. split; [unfold eid; lia|].
      rewrite lookup_delete_ne by (unfold eid; lia). done.
    - intros i [r [Hne Hi]%lookup_delete_Some]. specialize (Hoe i (mk_is_Some _ _ Hi)). unfold eid. lia. }
  match goal with |- context [send_outbound ?m c1] =>
    pose proof (send_outbound_calls m c1) as Hs; destruct (send_outbound m c1) as [[[]|e|] c2] end;
    cbn [snd] in *; [by eapply calls_wf_same| |by eapply calls_wf_same].
  apply (calls_wf_same _ _ Hs) in Hwf1 as (Hr1 & He1 & Hpa1 & Hpe1 & Hoa1 & Hoe1).
  split_and!; cbn; try done. intros i [Hi _]%elem_of_difference. by apply Hpe1.
Qed.

Lemma handle_disconnect_cases self gen err sig c :
  handle_disconnect self gen err sig c =
  if negb (bool_decide (connection_generation c = gen) && is_connected c) then (Ok tt, c)
  else
    let reason := cdisconnect_reason err in
    let c1 := mkClient (last_url_idx c) None (cchannels c) ∅ ∅
                (fail_pending reason (pending_api c) (api_outcomes c))
                (fail_pending reason (pending_event c) (event_outcomes c))
                false (shutdown c) (connection_generation c) (next_request_id c) (cnext_event_id c)
                (signalled c) (centropy c) (cdrawn c) (cwire c) (capp c) in
    (url ← lift (current_url self c1);
     let again := negb (shutdown c) && auto_reconnect (cconfig self) in
     emit_disconnected self (mkClientDisconnectEvent url reason again
       (if again then Some (reconnect_delay 1) else None)) ;;
     modify (fun c => match sig with
       | Some g => if bool_decide (is_Some (signalled c !! g)) then c
                   else on_flags c (last_url_idx c) (writer c) (cchannels c) (is_connected c)
                          (shutdown c) (connection_generation c) (<[g := err]> (signalled c))
       | None => c end)) c1.
Proof.
  unfold handle_disconnect. unfold mbind at 1, M_bind at 1, get at 1.
  unfold is_connection_generation_active. case_bool_decide; [|done].
  by destruct (is_connected c).
Qed.

(** *** Properties *)

(** A response resolves its own call and nothing else.  A response whose id
    is in flight ends that call with the response's data or its remote error and
    leaves every other call waiting; a response whose id is not in flight (late,
    duplicate or forged) changes nothing at all. *)
Theorem response_resolves_own_call self rid ok st v err meta e c :
  let c' := (handle_packet self (with_encryption (ApiResponse rid ok st v err meta) e) c).2 in
  (rid ∉ pending_api c -> c' = c)
  /\ (rid ∈ pending_api c ->
       api_outcomes c' !! rid = Some (remote_outcome ok v err)
       /\ pending_api c' = pending_api c ∖ {[rid]}
       /\ (forall i, i <> rid -> api_outcomes c' !! i = api_outcomes c !! i)
       /\ pending_event c' = pending_event c /\ event_outcomes c' = event_outcomes c).
Proof.
  cbn. split.
  - intros Hn. by rewrite bool_decide_false.
  - intros Hin. rewrite bool_decide_true by done. cbn. split_and!; [apply lookup_insert_eq|done| |done..].
    intros i Hne. by rewrite lookup_insert_ne.
Qed.

(** A new call never collides.  While fewer than [2^64 - 1] requests have
    been issued, [call] uses an id that is neither in flight nor resolved; on
    success exactly that id is added to the calls in flight and the request is
    the last message of the connection's queue, on failure the tables are as
    before. *)
Theorem call_is_fresh self route params atts c :
  calls_wf c -> next_request_id c < 2 ^ 64 - 1 ->
  match call_begin self route params atts c with
  | (Ok rid, c') =>
      (rid ∉ pending_api c) /\ api_outcomes c !! rid = None
      /\ pending_api c' = {[rid]} ∪ pending_api c /\ next_request_id c' = rid
      /\ exists gen ch, writer c = Some gen /\ cchannels c !! gen = Some ch
           /\ cchannels c' !! gen = Some (mkCChannel (cqueue ch ++ [CPacket (with_encryption
                (ApiRequest rid route params atts client_metadata)
                (cfg_default_encryption (cconfig self)))]) true)
  | (Err e, c') => e = Disconnected /\ pending_api c' = pending_api c
  | (Panic, _) => False
  end.
Proof.
  intros (Hr & He & Hpa & Hpe & Hoa & Hoe) Hid. rewrite call_begin_cases. cbv zeta.
  destruct (is_connected c); cbn [negb]; [|done]. unfold in_u in Hr.
  rewrite wrap_small by lia. set (rid := next_request_id c + 1).
  assert (Hfresh : rid ∉ pending_api c) by (intros Hi%Hpa; unfold rid in Hi; lia).
  unfold send_outbound. unfold mbind, M_bind, get. cbn [writer on_pending].
  destruct (writer c) as [gen|] eqn:Hw; cbn [lift]; [|split; [done|]; cbn; set_solver].
  unfold m_map_err, csend. cbn [cchannels on_pending].
  destruct (cchannels c !! gen) as [ch|] eqn:Hch; cbn; [|split; [done|]; set_solver].
  destruct (creceiver ch); cbn; [|split; [done|]; set_solver].
  split_and!; [done| |done|done|].
  - destruct (api_outcomes c !! rid) eqn:Ho; [|done].
    assert (0 < rid <= next_request_id c) by (apply Hoa; eauto). unfold rid in *. lia.
  - exists gen, ch. split_and!; [done|done|]. apply lookup_insert_eq.
Qed.

(** No call is left hanging by a disconnect.  When the current connection is
    lost, every request and every event in flight ends with [ConnectionClosed]
    and the reason, outcomes delivered before are kept, nothing stays in flight
    and the client is disconnected; a notice from a task of an older connection,
    or a second notice for the same one, changes nothing. *)
Theorem disconnect_fails_pending self gen err sig c :
  Forall (fun h => forall e, handler_local (h e)) (disconnected_handlers self) ->
  0 <= last_url_idx c < blen (urls self) ->
  let '(r, c') := handle_disconnect self gen err sig c in
  r = Ok tt
  /\ ((connection_generation c <> gen \/ is_connected c = false) -> c' = c)
  /\ (connection_generation c = gen -> is_connected c = true ->
       pending_api c' = ∅ /\ pending_event c' = ∅ /\ is_connected c' = false /\ writer c' = None
       /\ (forall i, api_outcomes c' !! i = if bool_decide (i ∈ pending_api c)
             then Some (Err (ConnectionClosed (cdisconnect_reason err)))
             else api_outcomes c !! i)
       /\ (forall i, event_outcomes c' !! i = if bool_decide (i ∈ pending_event c)
             then Some (Err (ConnectionClosed (cdisconnect_reason err)))
             else event_outcomes c !! i)).
Proof.
  intros Hh Hidx. rewrite handle_disconnect_cases.
  case_bool_decide as Hg; cbn [andb negb]; [|split_and!; [done|done|by intros]].
  destruct (is_connected c) eqn:Hconn; cbn [negb]; [|split_and!; [done|done|by intros]].
  set (reason := cdisconnect_reason err). cbv zeta. set (c1 := mkClient _ _ _ _ _ _ _ _ _ _ _ _ _ _ _ _ _).
  destruct (index_some (E:=Empty_set) (urls self) (last_url_idx c) Hidx) as [url Hurl].
  unfold current_url. change (last_url_idx c1) with (last_url_idx c). rewrite Hurl.
  unfold mbind, M_bind, lift.
  match goal with |- context [emit_disconnected self ?ev c1] =>
    pose proof (cnotify_local (disconnected_handlers self) ev Hh c1) as (Hs & Hw & Hc & _);
    pose proof (cnotify_returns (disconnected_handlers self) ev c1) as Hr;
    unfold emit_disconnected; destruct (cnotify_all (disconnected_handlers self) ev c1) as [r c2] end.
  cbn [fst snd] in *. subst r. unfold modify. split_and!; [done|by intros [?|?]|].
  intros _ _. destruct Hs as (Ha & Hb & Hd & He & _ & _).
  set (c3 := match sig with Some _ => _ | None => _ end).
  assert (H3 : pending_api c3 = pending_api c2 /\ pending_event c3 = pending_event c2
    /\ is_connected c3 = is_connected c2 /\ writer c3 = writer c2
    /\ api_outcomes c3 = api_outcomes c2 /\ event_outcomes c3 = event_outcomes c2).
  { unfold c3. destruct sig as [g|]; [case_bool_decide|]; done. }
  destruct H3 as (-> & -> & -> & -> & -> & ->). rewrite Ha, Hb, Hd, He, Hw, Hc.
  split_and!; try done; intros i; apply fail_pending_lookup.
Qed.
End Calls.

(** ** Reconnection *)
Section Reconnect.
Context {J : SerdeJson} {C : Crypto} {X : X25519} {H : Sha256} {TX : ErrorTexts} {App : Type}.

(** Reconnection backs off and stays bounded.  The delay before attempt [n]
    doubles from 3 s (3, 6, 12, 24) and is 30 s from the fifth attempt on; it
    never decreases, and with jitter a client sleeps between 3 s and 31.5 s. *)
Theorem reconnect_backoff n jit :
  1 <= n < 2 ^ 32 ->
  reconnect_delay n = secs (if n <=? 4 then 3 * 2 ^ (n - 1) else 30)
  /\ (forall m, 1 <= m <= n -> reconnect_delay m <= reconnect_delay n)
  /\ secs 3 <= reconnect_delay n + reconnect_jitter jit < secs 31 + 500000000.
Proof.
  intros Hn.
  assert (Hd : forall n, 1 <= n -> reconnect_delay n = secs (if n <=? 4 then 3 * 2 ^ (n - 1) else 30)).
  { clear. intros n Hn. unfold reconnect_delay, CLIENT_RECONNECT_BASE_DELAY_SECS,
      CLIENT_RECONNECT_MAX_DELAY_SECS. rewrite Z.max_l by lia.
    assert (n = 1 \/ n = 2 \/ n = 3 \/ n = 4 \/ n = 5 \/ n = 6 \/ 7 <= n)
      as [->|[->|[->|[->|[->|[->|H7]]]]]] by lia; try reflexivity.
    replace (Z.min (n - 1) 6) with 6 by lia. replace (n <=? 4) with false by lia. reflexivity. }
  assert (Hj : 0 <= reconnect_jitter jit < 1500000000).
  { unfold reconnect_jitter. apply Z.mod_pos_bound. reflexivity. }
  assert (Hr : forall n, 1 <= n -> 3 <= (if n <=? 4 then 3 * 2 ^ (n - 1) else 30) <= 30).
  { clear. intros n Hn. destruct (Z.leb_spec n 4); [|lia].
    assert (n = 1 \/ n = 2 \/ n = 3 \/ n = 4) as [->|[->|[->| ->]]] by lia; cbn; lia. }
  split_and!; [apply Hd; lia| | |].
  - intros m Hm. rewrite !Hd by lia. unfold secs. apply Z.mul_le_mono_nonneg_r; [lia|].
    specialize (Hr m ltac:(lia)). destruct (Z.leb_spec n 4).
    + replace (m <=? 4) with true by lia. apply Z.mul_le_mono_nonneg_l; [lia|].
      apply Z.pow_le_mono_r; lia.
    + lia.
  - rewrite Hd by lia. specialize (Hr n ltac:(lia)). unfold secs. lia.
  - rewrite Hd by lia. specialize (Hr n ltac:(lia)). unfold secs. lia.
Qed.

(** ** Failover *)

Lemma try_urls_spec (self : WscallClient (App:=App)) attempt start fuel : forall offset last,
  0 <= start -> 0 <= offset -> 0 < blen (urls self) ->
  match try_urls self attempt start (blen (urls self)) offset fuel last with
  | Ok (inl idx) =>
      exists k, 0 <= k < Z.of_nat fuel /\ idx = (start + offset + k) mod blen (urls self)
        /\ (exists url, urls self !! Z.to_nat idx = Some url /\ attempt url = None)
        /\ (forall j, 0 <= j < k -> exists url,
              urls self !! Z.to_nat ((start + offset + j) mod blen (urls self)) = Some url
              /\ attempt url <> None)
  | Ok (inr _) =>
      forall j, 0 <= j < Z.of_nat fuel -> exists url,
        urls self !! Z.to_nat ((start + offset + j) mod blen (urls self)) = Some url
        /\ attempt url <> None
  | _ => False
  end.
Proof.
  induction fuel as [|fuel IH]; intros offset last Hs Ho Hlen; cbn [try_urls]; [lia|].
  pose proof (Z.mod_pos_bound (start + offset) (blen (urls self)) Hlen) as Hb.
  destruct (index_some (E:=ClientError) (urls self) _ Hb) as [url Hurl].
  assert (Hl : urls self !! Z.to_nat ((start + offset) mod blen (urls self)) = Some url).
  { unfold index in Hurl. rewrite bool_decide_true in Hurl by lia.
    unfold expect in Hurl. by case_match; simplify_eq. }
  rewrite Hurl. msimpl. destruct (attempt url) as [e|] eqn:Ha.
  2: { exists 0. rewrite Z.add_0_r. split_and!; [lia|lia|done|eauto|lia]. }
  specialize (IH (offset + 1) (Some (CWebSocket e)) Hs ltac:(lia) Hlen).
  assert (Hhead : exists url, urls self !! Z.to_nat ((start + offset + 0) mod blen (urls self)) = Some url
      /\ attempt url <> None) by (rewrite Z.add_0_r; exists url; split; [done|congruence]).
  destruct (try_urls _ _ _ _ _ _ _) as [[idx|l]|e'|]; [| |done|done].
  - destruct IH as (k & Hk & -> & Hok & Hbad). exists (k + 1).
    replace (start + offset + (k + 1)) with (start + (offset + 1) + k) by lia.
    split_and!; [lia|lia|done|done|]. intros j Hj. destruct (decide (j = 0)) as [->|]; [done|].
    replace (start + offset + j) with (start + (offset + 1) + (j - 1)) by lia. apply Hbad. lia.
  - intros j Hj. destruct (decide (j = 0)) as [->|]; [done|].
    replace (start + offset + j) with (start + (offset + 1) + (j - 1)) by lia. apply IH. lia.
Qed.

(** Failover.  A connection attempt tries the candidate URLs in cyclic order
    from the last one that worked and takes the first that answers, remembering
    it as the next starting point; it fails only when every candidate refused.
    The remembered index stays a valid one, and the attempt never panics. *)
Theorem failover_order (self : WscallClient (App:=App)) attempt (c : Client (App:=App)) :
  0 <= last_url_idx c < blen (urls self) ->
  match connect_any self attempt c with
  | (Ok _, c') =>
      0 <= last_url_idx c' < blen (urls self)
      /\ (exists url, urls self !! Z.to_nat (last_url_idx c') = Some url /\ attempt url = None)
      /\ exists k, 0 <= k < blen (urls self)
           /\ last_url_idx c' = (last_url_idx c + k) mod blen (urls self)
           /\ forall j, 0 <= j < k -> exists url,
                urls self !! Z.to_nat ((last_url_idx c + j) mod blen (urls self)) = Some url
                /\ attempt url <> None
  | (Err _, c') => c' = c /\ Forall (fun url => attempt url <> None) (urls self)
  | (Panic, _) => False
  end.
Proof.
  intros Hidx. unfold connect_any. unfold mbind, M_bind, get, lift.
  pose proof (try_urls_spec self attempt (last_url_idx c) (length (urls self)) 0 None
    ltac:(lia) ltac:(lia) ltac:(lia)) as Hs.
  destruct (try_urls _ _ _ _ _ _ _) as [[idx|l]|e|]; [| |done|done].
  - destruct Hs as (k & Hk & -> & Hok & Hbad). rewrite Z.add_0_r in *. cbn.
    split_and!; [apply Z.mod_pos_bound; lia|apply Z.mod_pos_bound; lia|done|].
    exists k. split_and!; [lia|unfold blen; lia|done|done].
  - split; [done|]. apply Forall_lookup_2. intros i url Hi.
    assert (Hil : (i < length (urls self))%nat) by (by eapply lookup_lt_Some).
    set (n := blen (urls self)) in *.
    destruct (Hs ((Z.of_nat i - last_url_idx c) mod n)) as (url' & Hu & Ha).
    { pose proof (Z.mod_pos_bound (Z.of_nat i - last_url_idx c) n ltac:(lia)). unfold n, blen in *. lia. }
    rewrite Z.add_0_r, Z.add_mod_idemp_r in Hu by lia.
    replace (last_url_idx c + (Z.of_nat i - last_url_idx c)) with (Z.of_nat i) in Hu by lia.
    rewrite Z.mod_small, Nat2Z.id in Hu by (unfold n, blen; lia). by simplify_eq.
Qed.
End Reconnect.

(** ** Instances *)
Section Sample.
#[local] Existing Instances bit_json xor_x25519 prefix_sha256 plain_texts.

Definition sample_client : WscallClient (App:=unit) :=
  client_new "ws://a/socket" (with_failover_url config_plaintext "ws://b/socket").
Definition sample_start : Client (App:=unit) := client_init sample_entropy tt.
(** Only the second server answers. *)
Definition reach_b (url : string) : option string :=
  if bool_decide (url = "ws://b/socket") then None else Some "refused".
(** Connected as generation 1, and then with a call in flight. *)
Definition sample_connected : Client (App:=unit) :=
  (establish_connection sample_client 1 reach_b EndOfStream EndOfStream None None
     (begin_attempt sample_start).2).2.
Definition sample_called : Client (App:=unit) :=
  (call_begin sample_client "echo" Null [] sample_connected).2.

Lemma sample_connected_wf : calls_wf sample_connected.
Proof.
  unfold calls_wf, in_u. cbn. split_and!; try lia; [set_solver..| |]; intros i [? ?]; done.
Qed.
Lemma sample_called_wf : calls_wf sample_called.
Proof. apply call_begin_wf; [exact sample_connected_wf|reflexivity]. Qed.

Lemma call_is_fresh_witness :
  exists rid c, call_begin sample_client "echo" Null [] sample_called = (Ok rid, c)
    /\ (rid ∉ pending_api sample_called) /\ api_outcomes sample_called !! rid = None.
Proof.
  pose proof (call_is_fresh sample_client "echo" Null [] sample_called sample_called_wf eq_refl) as Hc.
  destruct (call_begin sample_client "echo" Null [] sample_called) as [[rid|e|] c] eqn:Hr.
  - exists rid, c. destruct Hc as (H1 & H2 & _). split; [reflexivity|]. split; [exact H1|exact H2].
  - discriminate Hr.
  - destruct Hc.
Defined.

Lemma disconnect_fails_pending_witness :
  let '(r, c) := handle_disconnect sample_client 1 IdleTimeout None sample_called in
  r = Ok tt /\ pending_api c = ∅.
Proof.
  pose proof (disconnect_fails_pending sample_client 1 IdleTimeout None sample_called
    (List.Forall_nil _) ltac:(split; [vm_compute; discriminate|reflexivity])) as Hd.
  destruct (handle_disconnect _ _ _ _ _) as [r c]. destruct Hd as (Hr & _ & Hp).
  split; [exact Hr|]. apply Hp; reflexivity.
Defined.

Lemma reconnect_backoff_witness : reconnect_delay 3 = secs 12.
Proof. exact (proj1 (reconnect_backoff 3 (Err "no entropy") ltac:(lia))). Defined.

Lemma failover_order_witness :
  exists r c, connect_any sample_client reach_b sample_start = (Ok r, c)
    /\ 0 <= last_url_idx c < blen (urls sample_client).
Proof.
  pose proof (failover_order sample_client reach_b sample_start ltac:(split; [vm_compute; discriminate|reflexivity])) as Hf.
  destruct (connect_any sample_client reach_b sample_start) as [[r|e|] c] eqn:Hr.
  - exists r, c. split; [reflexivity|]. exact (proj1 Hf).
  - discriminate Hr.
  - destruct Hf.
Defined.
End Sample.
