(* ===== verification/ClientSystem.v ===== *)
(** * The client as a transition system

    The operations of [ClientRuntime] interleaved: calls, events and their
    timeouts, the reader, writer and heartbeat tasks of any connection (also of
    one that has been replaced), event-handler tasks, [close] and the
    supervisor's connection attempts, in any order.  The invariant of the call
    tables and the fate of every call are proved by induction on the trace. *)

From S2P Require Import Prelude Utf8 Json Protocol Texts Attachment PacketJson Codec RateLimiter.
From S2P Require Import Validation ServerTypes ServerRuntime ClientTypes ClientRuntime.
#[local] Open Scope Z_scope.

(** What a step reveals: nothing, or which wait it ended by a timeout. *)
Inductive Label : Type :=
| Tau
| CallTimeout (request_id : Z)
| EventTimeout (event_id : Z).

Definition poll_label {R} (l : Label) (r : option (result ClientError R)) : Label :=
  match r with Some (Err Timeout) => l | _ => Tau end.

Section System.
Context {J : SerdeJson} {C : Crypto} {X : X25519} {H : Sha256} {TX : ErrorTexts} {App : Type}.
Abbreviation St := (Client (App:=App)).
Context (self : WscallClient (App:=App)).
Implicit Types (c : St) (l : Label).

Inductive step : Label -> St -> St -> Prop :=
| StepCall route params atts c :
    step Tau c (call_begin self route params atts c).2
| StepCallWait id timed_out c :
    step (poll_label (CallTimeout id) (call_poll id timed_out c).1) c (call_poll id timed_out c).2
| StepEvent name data atts c :
    step Tau c (event_begin self name data atts c).2
| StepEventWait id timed_out c :
    step (poll_label (EventTimeout id) (event_poll id timed_out c).1) c (event_poll id timed_out c).2
| StepRead gen codec next c :
    step Tau c (reader_task self gen codec next c).2
| StepHandle packet c :
    is_event_emit (env_body packet) = true -> step Tau c (handle_packet self packet c).2
| StepWrite gen codec failure c :
    step Tau c (writer_task self gen codec failure c).2
| StepWriterStopped gen c :
    step Tau c (writer_stopped self gen c).2
| StepBeat gen c :
    step Tau c (heartbeat_task self gen c).2
| StepClose c :
    step Tau c (close self c).2
| StepBegin c :
    step Tau c (begin_attempt c).2
| StepEstablish attempt hello auth f1 f2 c :
    step Tau c (establish_connection self (connection_generation c) attempt hello auth f1 f2 c).2.

Inductive trace : list Label -> St -> St -> Prop :=
| TraceNil c : trace [] c c
| TraceCons l ls c1 c2 c3 : step l c1 c2 -> trace ls c2 c3 -> trace (l :: ls) c1 c3.

(** Application handlers that do not touch the call tables themselves (a
    handler that uses the client does so in steps of its own). *)
Definition leaves_calls {E A} (m : M St E A) : Prop := forall c, preserves (same_calls c) m.
Definition handlers_quiet : Prop :=
  map_Forall (fun _ hs => Forall (fun h => forall e, leaves_calls (h e)) hs) (cevent_handlers self)
  /\ Forall (fun h => forall e, leaves_calls (h e)) (connected_handlers self)
  /\ Forall (fun h => forall e, leaves_calls (h e)) (disconnected_handlers self).

(** A wait is accounted for: still in flight, answered, or timed out. *)
Definition accounted (pending : gset Z) (outcomes : gmap Z (result ClientError Value))
    (timed_out : Prop) (i : Z) : Prop :=
  i ∈ pending \/ is_Some (outcomes !! i) \/ timed_out.

(** A change that issues no id: it keeps the invariant and every outcome, and
    loses no wait but the one the label names. *)
Definition settles (ls : list Label) c c' : Prop :=
  calls_wf c ->
  calls_wf c'
  /\ next_request_id c' = next_request_id c /\ cnext_event_id c' = cnext_event_id c
  /\ (forall i r, api_outcomes c !! i = Some r -> api_outcomes c' !! i = Some r)
  /\ (forall i r, event_outcomes c !! i = Some r -> event_outcomes c' !! i = Some r)
  /\ (forall i, i ∈ pending_api c ->
        accounted (pending_api c') (api_outcomes c') (CallTimeout i ∈ ls) i)
  /\ (forall i, i ∈ pending_event c ->
        accounted (pending_event c') (event_outcomes c') (EventTimeout i ∈ ls) i).

Lemma same_calls_refl c : same_calls c c.
Proof. by split_and!. Qed.
Lemma same_calls_trans c1 c2 c3 : same_calls c1 c2 -> same_calls c2 c3 -> same_calls c1 c3.
Proof.
  intros (? & ? & ? & ? & ? & ?) (? & ? & ? & ? & ? & ?). split_and!; by etransitivity.
Qed.

Lemma same_settles ls c c' : same_calls c c' -> settles ls c c'.
Proof.
  intros Hs Hwf. pose proof (calls_wf_same _ _ Hs Hwf). destruct Hs as (Ha & Hb & Hc & Hd & He & Hf).
  unfold settles, accounted. rewrite Ha, Hb, Hc, Hd, He, Hf. by split_and!; auto.
Qed.

Lemma leaves_run {E A} (m : M St E A) c : leaves_calls m -> same_calls c (m c).2.
Proof. intros Hm. apply (Hm c), same_calls_refl. Qed.
Lemma leaves_step {E A} (m : M St E A) : (forall c, same_calls c (m c).2) -> leaves_calls m.
Proof. intros Hm c0 c Hc. eapply same_calls_trans; [exact Hc|apply Hm]. Qed.

(** The primitive effects of the client on its channels and socket. *)
Lemma leaves_csend gen m c0 : preserves (same_calls c0) (csend gen m).
Proof. apply leaves_step. intros c. apply csend_calls. Qed.
Lemma leaves_send_outbound m c0 : preserves (same_calls c0) (send_outbound m).
Proof. apply leaves_step. intros c. apply send_outbound_calls. Qed.
Lemma leaves_cws_send m f c0 : preserves (same_calls c0) (cws_send m f).
Proof. apply leaves_step. intros c. unfold cws_send. by destruct f; split_and!. Qed.
Lemma leaves_client_encode codec p c0 : preserves (same_calls c0) (client_encode codec p).
Proof. apply leaves_step. intros c. by split_and!. Qed.
End System.

#[export] Hint Resolve leaves_csend leaves_send_outbound leaves_cws_send leaves_client_encode
  : preserves.

(** A computation whose effects are on other fields than the call tables. *)
Ltac quiet :=
  intros ?; preserve;
  try (apply leaves_step; intros ?; cbn; repeat case_match; by split_and!).

Section Fate.
Context {J : SerdeJson} {C : Crypto} {X : X25519} {H : Sha256} {TX : ErrorTexts} {App : Type}.
Abbreviation St := (Client (App:=App)).
Context (self : WscallClient (App:=App)).
Implicit Types (c : St) (l : Label).

Lemma leaves_cnotify {Ev} (hs : list (Ev -> M St Empty_set unit)) e :
  Forall (fun h => forall e, leaves_calls (h e)) hs -> leaves_calls (cnotify_all hs e).
Proof.
  intros Hs c0. induction Hs as [|h hs Hh _ IH]; cbn [cnotify_all]; [preserve|].
  apply preserves_bind; [apply preserves_catch, Hh|done].
Qed.

Lemma leaves_run_event_handlers hs (e : EventMessage) : forall r,
  Forall (fun h => forall e, leaves_calls (h e)) hs ->
  leaves_calls (run_event_handlers (App:=App) hs e r).
Proof.
  intros r Hs c0. revert r. induction Hs as [|h hs Hh _ IH]; intros r; cbn [run_event_handlers];
    [preserve|]. apply preserves_bind; [apply Hh|done].
Qed.

Lemma settles_trans ls c1 c2 c3 : settles [] c1 c2 -> settles ls c2 c3 -> settles ls c1 c3.
Proof.
  intros HA HB Hwf. destruct (HA Hwf) as (A1 & A2 & A3 & A4 & A5 & A6 & A7).
  destruct (HB A1) as (B1 & B2 & B3 & B4 & B5 & B6 & B7).
  split_and!; [done|congruence|congruence|by auto|by auto| |].
  - intros i Hi. destruct (A6 i Hi) as [Hp|[[r Ho]|Ht]];
      [by apply B6|right; left; eauto|by apply not_elem_of_nil in Ht].
  - intros i Hi. destruct (A7 i Hi) as [Hp|[[r Ho]|Ht]];
      [by apply B7|right; left; eauto|by apply not_elem_of_nil in Ht].
Qed.

(** Computations that settle. *)
Definition settling {E A} (m : M St E A) : Prop := forall c, settles [] c (m c).2.

Lemma quiet_settling {E A} (m : M St E A) : leaves_calls m -> settling m.
Proof. intros Hm c. by apply same_settles, leaves_run. Qed.

Lemma settling_bind {E A B} (m : M St E A) (f : A -> M St E B) :
  settling m -> (forall a, settling (f a)) -> settling (m ≫= f).
Proof.
  intros Hm Hf c. unfold mbind, M_bind. pose proof (Hm c) as Hc.
  destruct (m c) as [[a|e|] c1]; cbn [snd] in *; [|done..]. eapply settles_trans; [done|apply Hf].
Qed.

(** Failing every wait. *)
Lemma fail_all_settles reason c wr ch conn :
  settles [] c (mkClient (last_url_idx c) wr ch ∅ ∅
    (fail_pending reason (pending_api c) (api_outcomes c))
    (fail_pending reason (pending_event c) (event_outcomes c))
    conn (shutdown c) (connection_generation c) (next_request_id c) (cnext_event_id c)
    (signalled c) (centropy c) (cdrawn c) (cwire c) (capp c)).
Proof.
  intros (Hr & He & Hpa & Hpe & Hoa & Hoe).
  assert (Hlook : forall (p : gset Z) o i, fail_pending reason p o !! i =
    if bool_decide (i ∈ p) then Some (Err (ConnectionClosed reason)) else o !! i)
    by (intros; apply fail_pending_lookup).
  split; [unfold calls_wf; cbn; split_and!; [done|done|set_solver|set_solver| |]|].
  - intros i. rewrite Hlook. case_bool_decide as Hi; [intros _; by apply Hpa|apply Hoa].
  - intros i. rewrite Hlook. case_bool_decide as Hi; [intros _; by apply Hpe|apply Hoe].
  - cbn. split_and!; [done|done| | | |]; intros i; rewrite ?Hlook.
    + intros r Hi. rewrite bool_decide_false; [done|]. intros [_ Hn]%Hpa. congruence.
    + intros r Hi. rewrite bool_decide_false; [done|]. intros [_ Hn]%Hpe. congruence.
    + intros Hi. right. left. rewrite Hlook, bool_decide_true by done. eauto.
    + intros Hi. right. left. rewrite Hlook, bool_decide_true by done. eauto.
Qed.

Lemma handle_disconnect_settling gen err sig :
  handlers_quiet self -> settling (handle_disconnect self gen err sig).
Proof.
  intros (_ & _ & Hd) c. rewrite handle_disconnect_cases.
  destruct (negb _); [by apply same_settles, same_calls_refl|]. cbv zeta.
  eapply settles_trans; [apply fail_all_settles|]. apply quiet_settling.
  quiet; by apply leaves_cnotify.
Qed.

(** One wait of a table answered. *)
Lemma answered_accounted (p : gset Z) (o : gmap Z (result ClientError Value)) (P : Prop) rid r i :
  i ∈ p -> accounted (p ∖ {[rid]}) (<[rid := r]> o) P i.
Proof.
  intros Hi. destruct (decide (i = rid)) as [->|Hne].
  - right. left. rewrite lookup_insert_eq. eauto.
  - left. set_solver.
Qed.

Lemma answered_stable (p : gset Z) (o : gmap Z (result ClientError Value)) rid r i v :
  (forall i, i ∈ p -> o !! i = None) -> rid ∈ p -> o !! i = Some v -> <[rid := r]> o !! i = Some v.
Proof.
  intros Hp Hin Hi. rewrite lookup_insert_ne; [done|]. intros ->. rewrite (Hp _ Hin) in Hi. done.
Qed.

(** A response or acknowledgement ends the wait it names, an event runs its
    handlers; the other packets do nothing. *)
Lemma handle_packet_settling packet :
  handlers_quiet self -> settling (handle_packet self packet).
Proof.
  intros (Hev & _ & _). destruct packet as [mt en body]. unfold handle_packet. cbn [env_body].
  destruct body as [| rid ok st v err m |i nm d at' m x|eid ok rc err| |];
    [apply quiet_settling; quiet| | | |apply quiet_settling; quiet..].
  - intros c Hwf. pose proof (response_wf self rid ok st v err m en c Hwf) as Hw.
    destruct Hwf as (_ & _ & Hpa & _). cbn in *. case_bool_decide as Hin.
    2: { apply same_settles; [apply same_calls_refl|done]. }
    split; [exact Hw|]. cbn. split_and!; try done.
    + intros i r. apply (answered_stable (pending_api c)); [naive_solver|done].
    + intros i. apply answered_accounted.
    + intros i Hi. by left.
  - apply quiet_settling. intros c0. apply preserves_bind; [|intros v; preserve].
    apply leaves_run_event_handlers.
    destruct (cevent_handlers self !! nm) as [hs|] eqn:Hl; [exact (Hev _ _ Hl)|constructor].
  - intros c Hwf. pose proof (ack_wf self eid ok rc err en c Hwf) as Hw.
    destruct Hwf as (_ & _ & _ & Hpe & _). cbn in *. case_bool_decide as Hin.
    2: { apply same_settles; [apply same_calls_refl|done]. }
    split; [exact Hw|]. cbn. split_and!; try done.
    + intros i r. apply (answered_stable (pending_event c)); [naive_solver|done].
    + intros i Hi. by left.
    + intros i. apply answered_accounted.
Qed.

Lemma finish_settling gen s : handlers_quiet self -> settling (finish self gen s).
Proof.
  intros Hq. destruct s; cbn [finish]; [apply quiet_settling; quiet..|]. apply settling_bind.
  - by apply handle_disconnect_settling.
  - intros _. apply quiet_settling. quiet.
Qed.

Lemma reader_settling gen codec next :
  handlers_quiet self -> settling (reader_task self gen codec next).
Proof.
  intros Hq. apply settling_bind.
  - destruct next as [| |e|[bs|t|p|p| |]]; cbn [client_reader_step];
      try (apply quiet_settling; solve [quiet]).
    destruct (decode codec bs) as [packet|e|];
      [|apply quiet_settling; quiet..].
    destruct (is_event_emit _); [apply quiet_settling; quiet|].
    apply settling_bind; [by apply handle_packet_settling|]. intros _. apply quiet_settling. quiet.
  - intros s. apply settling_bind; [by apply finish_settling|]. intros _. apply quiet_settling. quiet.
Qed.

Lemma drop_creceiver_quiet gen c : same_calls c (drop_creceiver gen c).
Proof. by split_and!. Qed.

Lemma writer_settling gen codec failure :
  handlers_quiet self -> settling (writer_task self gen codec failure).
Proof.
  intros Hq. apply settling_bind.
  - apply quiet_settling. unfold client_writer_step, client_write. quiet.
  - intros s. apply settling_bind; [by apply finish_settling|]. intros over.
    apply quiet_settling. destruct over; [|quiet]. apply leaves_step, drop_creceiver_quiet.
Qed.

Lemma writer_stopped_settling gen :
  handlers_quiet self -> settling (writer_stopped self gen).
Proof.
  intros Hq. apply settling_bind; [by apply finish_settling|]. intros _.
  apply quiet_settling, leaves_step, drop_creceiver_quiet.
Qed.

Lemma heartbeat_settling gen :
  handlers_quiet self -> settling (heartbeat_task self gen).
Proof.
  intros Hq. apply settling_bind.
  - apply quiet_settling. unfold client_heartbeat. quiet.
  - intros s. apply settling_bind; [by apply finish_settling|]. intros _. apply quiet_settling. quiet.
Qed.

Lemma close_settling : handlers_quiet self -> settling (close self).
Proof.
  intros Hq. unfold close. do 4 (apply settling_bind; [apply quiet_settling; quiet|intros ?]).
  by apply handle_disconnect_settling.
Qed.

Lemma begin_attempt_settling : settling (begin_attempt (App:=App)).
Proof. apply quiet_settling. unfold begin_attempt. quiet. Qed.

Lemma establish_settling gen attempt hello auth f1 f2 :
  handlers_quiet self -> settling (establish_connection self gen attempt hello auth f1 f2).
Proof.
  intros (_ & Hc & _). apply quiet_settling.
  unfold establish_connection, connect_any, client_handshake, client_auth. 
  assert (He : leaves_calls (emit_connected self)) by (unfold emit_connected; quiet; by apply leaves_cnotify).
  quiet.
Qed.

(** The change of one step: like [settles], but at most one id is issued. *)
Definition keeps (ls : list Label) c c' : Prop :=
  calls_wf c -> next_request_id c < 2 ^ 64 - 1 -> cnext_event_id c < 2 ^ 64 - 1 ->
  calls_wf c'
  /\ next_request_id c' <= next_request_id c + 1 /\ cnext_event_id c' <= cnext_event_id c + 1
  /\ (forall i r, api_outcomes c !! i = Some r -> api_outcomes c' !! i = Some r)
  /\ (forall i r, event_outcomes c !! i = Some r -> event_outcomes c' !! i = Some r)
  /\ (forall i, i ∈ pending_api c ->
        accounted (pending_api c') (api_outcomes c') (CallTimeout i ∈ ls) i)
  /\ (forall i, i ∈ pending_event c ->
        accounted (pending_event c') (event_outcomes c') (EventTimeout i ∈ ls) i).

Lemma settles_keeps ls c c' : settles ls c c' -> keeps ls c c'.
Proof.
  intros Hs Hwf _ _. destruct (Hs Hwf) as (H1 & H2 & H3 & H4). split_and!; [done|lia|lia|apply H4..].
Qed.

(** A new request: its id is fresh, so nothing that was there is lost. *)
Lemma call_keeps route params atts c : keeps [Tau] c (call_begin self route params atts c).2.
Proof.
  intros Hwf Hr He. pose proof (call_begin_wf self route params atts c Hwf Hr) as Hw.
  revert Hw. rewrite call_begin_cases. cbv zeta.
  destruct Hwf as ([Hr0 _] & _ & Hpa & _ & Hoa & _). rewrite wrap_small by lia.
  assert (Hfresh : forall i, i ∈ pending_api c -> i <> next_request_id c + 1)
    by (intros i Hi; destruct (Hpa i Hi); lia).
  assert (Hout : forall i r, api_outcomes c !! i = Some r ->
            delete (next_request_id c + 1) (api_outcomes c) !! i = Some r).
  { intros i r Hi. rewrite lookup_delete_ne; [done|]. specialize (Hoa i (mk_is_Some _ _ Hi)). lia. }
  destruct (is_connected c); cbn [negb]; intros Hw.
  2: { split_and!; [done|cbn; lia|cbn; lia|done|done|by left|by left]. }
  match goal with |- context [send_outbound ?m ?c1] =>
    pose proof (send_outbound_calls m c1) as Hs; destruct (send_outbound m c1) as [[[]|e|] c2] end;
    (split; [exact Hw|]); cbn in *; destruct Hs as (Ha & Hb & Hc & Hd & Hf & Hg);
    rewrite ?Ha, ?Hb, ?Hc, ?Hd, ?Hf, ?Hg; cbn.
  all: split_and!; [lia|lia|exact Hout|done| |by left].
  - intros i Hi. left. set_solver.
  - intros i Hi. left. specialize (Hfresh i Hi). set_solver.
  - intros i Hi. left. set_solver.
Qed.

Lemma event_keeps name data atts c : keeps [Tau] c (event_begin self name data atts c).2.
Proof.
  intros Hwf Hr He. pose proof (event_begin_wf self name data atts c Hwf He) as Hw.
  revert Hw. rewrite event_begin_cases. cbv zeta.
  destruct Hwf as (_ & [He0 _] & _ & Hpe & _ & Hoe). rewrite wrap_small by lia.
  assert (Hfresh : forall i, i ∈ pending_event c -> i <> cnext_event_id c + 1)
    by (intros i Hi; destruct (Hpe i Hi); lia).
  assert (Hout : forall i r, event_outcomes c !! i = Some r ->
            delete (cnext_event_id c + 1) (event_outcomes c) !! i = Some r).
  { intros i r Hi. rewrite lookup_delete_ne; [done|]. specialize (Hoe i (mk_is_Some _ _ Hi)). lia. }
  destruct (is_connected c); cbn [negb]; intros Hw.
  2: { split_and!; [done|cbn; lia|cbn; lia|done|done|by left|by left]. }
  match goal with |- context [send_outbound ?m ?c1] =>
    pose proof (send_outbound_calls m c1) as Hs; destruct (send_outbound m c1) as [[[]|e|] c2] end;
    (split; [exact Hw|]); cbn in *; destruct Hs as (Ha & Hb & Hc & Hd & Hf & Hg);
    rewrite ?Ha, ?Hb, ?Hc, ?Hd, ?Hf, ?Hg; cbn.
  all: split_and!; [lia|lia|done|exact Hout|by left|].
  - intros i Hi. left. set_solver.
  - intros i Hi. left. specialize (Hfresh i Hi). set_solver.
  - intros i Hi. left. set_solver.
Qed.

(** A wait that times out leaves its table. *)
Lemma call_wait_settles id t c :
  settles [poll_label (CallTimeout id) (call_poll id t c).1] c (call_poll id t c).2.
Proof.
  unfold call_poll. destruct (api_outcomes c !! id) as [r|] eqn:Ho; [by apply same_settles, same_calls_refl|].
  destruct t; [|by apply same_settles, same_calls_refl]. cbn [fst snd poll_label].
  intros (Hr & He & Hpa & Hpe & Hoa & Hoe).
  split; [unfold calls_wf; cbn; split_and!; try done; set_solver|]. cbn.
  split_and!; try done; [|by left]. intros i Hi. destruct (decide (i = id)) as [->|Hne].
  - right. right. set_solver.
  - left. set_solver.
Qed.

Lemma event_wait_settles id t c :
  settles [poll_label (EventTimeout id) (event_poll id t c).1] c (event_poll id t c).2.
Proof.
  unfold event_poll. destruct (event_outcomes c !! id) as [r|] eqn:Ho; [by apply same_settles, same_calls_refl|].
  destruct t; [|by apply same_settles, same_calls_refl]. cbn [fst snd poll_label].
  intros (Hr & He & Hpa & Hpe & Hoa & Hoe).
  split; [unfold calls_wf; cbn; split_and!; try done; set_solver|]. cbn.
  split_and!; try done; [by left|]. intros i Hi. destruct (decide (i = id)) as [->|Hne].
  - right. right. set_solver.
  - left. set_solver.
Qed.

Lemma settling_keeps {E A} (m : M St E A) c ls : settling m -> keeps ls c (m c).2.
Proof.
  intros Hm Hwf Hr He. destruct (settles_keeps [] c (m c).2 (Hm c) Hwf Hr He) as (H1 & H2 & H3 & H4 & H5 & H6 & H7).
  split_and!; try done.
  - intros i Hi. destruct (H6 i Hi) as [?|[?|?%not_elem_of_nil]]; [by left|by right; left|done].
  - intros i Hi. destruct (H7 i Hi) as [?|[?|?%not_elem_of_nil]]; [by left|by right; left|done].
Qed.

Lemma step_keeps l c c' : handlers_quiet self -> step self l c c' -> keeps [l] c c'.
Proof.
  intros Hq [].
  - apply call_keeps.
  - apply settles_keeps, call_wait_settles.
  - apply event_keeps.
  - apply settles_keeps, event_wait_settles.
  - by apply settling_keeps, reader_settling.
  - by apply settling_keeps, handle_packet_settling.
  - by apply settling_keeps, writer_settling.
  - by apply settling_keeps, writer_stopped_settling.
  - by apply settling_keeps, heartbeat_settling.
  - by apply settling_keeps, close_settling.
  - apply settling_keeps, begin_attempt_settling.
  - by apply settling_keeps, establish_settling.
Qed.

(** *** Properties *)

Lemma trace_keeps ls c c' : handlers_quiet self -> trace self ls c c' ->
  calls_wf c ->
  next_request_id c + Z.of_nat (length ls) < 2 ^ 64 ->
  cnext_event_id c + Z.of_nat (length ls) < 2 ^ 64 ->
  calls_wf c'
  /\ next_request_id c' <= next_request_id c + Z.of_nat (length ls)
  /\ cnext_event_id c' <= cnext_event_id c + Z.of_nat (length ls)
  /\ (forall i r, api_outcomes c !! i = Some r -> api_outcomes c' !! i = Some r)
  /\ (forall i r, event_outcomes c !! i = Some r -> event_outcomes c' !! i = Some r)
  /\ (forall i, i ∈ pending_api c ->
        accounted (pending_api c') (api_outcomes c') (CallTimeout i ∈ ls) i)
  /\ (forall i, i ∈ pending_event c ->
        accounted (pending_event c') (event_outcomes c') (EventTimeout i ∈ ls) i).
Proof.
  intros Hq. induction 1 as [c|l ls c1 c2 c3 Hstep _ IH]; intros Hwf Hr He.
  - split_and!; try done; try lia; by left.
  - cbn [length] in *. destruct (step_keeps _ _ _ Hq Hstep Hwf) as (H1 & H2 & H3 & H4 & H5 & H6 & H7); [lia..|].
    destruct IH as (G1 & G2 & G3 & G4 & G5 & G6 & G7); [done|lia..|].
    split_and!; [done|lia|lia|by auto|by auto| |].
    + intros i Hi. destruct (H6 i Hi) as [Hp|[[r Ho]|Ht]]; [|right; left; eauto|right; right; set_solver].
      destruct (G6 i Hp) as [?|[?|?]]; [by left|by right; left|right; right; set_solver].
    + intros i Hi. destruct (H7 i Hi) as [Hp|[[r Ho]|Ht]]; [|right; left; eauto|right; right; set_solver].
      destruct (G7 i Hp) as [?|[?|?]]; [by left|by right; left|right; right; set_solver].
Qed.

(** The call tables stay consistent.  Whatever the interleaving of calls,
    events, timeouts, tasks of current and replaced connections, [close] and
    reconnection attempts, in every state a client reaches (within [2^64 - 1]
    steps) each id in flight was issued by its counter and has no outcome yet,
    and outcomes exist only for ids that were issued. *)
Theorem call_tables_invariant entropy a ls c :
  handlers_quiet self ->
  trace self ls (client_init entropy a) c ->
  Z.of_nat (length ls) < 2 ^ 64 ->
  calls_wf c.
Proof.
  intros Hq Ht Hlen. refine (proj1 (trace_keeps _ _ _ Hq Ht _ _ _)); cbn; [|lia..].
  unfold calls_wf, in_u. cbn. split_and!; try lia; [set_solver..| |]; intros i [? ?]; done.
Qed.

(** C7: every call is settled once and none is lost.  Between two states of a
    run, the outcome a call has received never changes, and a call (or event)
    that was in flight is in flight still, has received its outcome, or was
    given up by a timeout recorded in between; disconnection, reconnection,
    late tasks of old connections and [close] lose none. *)
Theorem calls_settle_once ls c c' :
  handlers_quiet self ->
  trace self ls c c' ->
  calls_wf c ->
  next_request_id c + Z.of_nat (length ls) < 2 ^ 64 ->
  cnext_event_id c + Z.of_nat (length ls) < 2 ^ 64 ->
  (forall i r, api_outcomes c !! i = Some r -> api_outcomes c' !! i = Some r)
  /\ (forall i r, event_outcomes c !! i = Some r -> event_outcomes c' !! i = Some r)
  /\ (forall i, i ∈ pending_api c ->
        i ∈ pending_api c' \/ is_Some (api_outcomes c' !! i) \/ CallTimeout i ∈ ls)
  /\ (forall i, i ∈ pending_event c ->
        i ∈ pending_event c' \/ is_Some (event_outcomes c' !! i) \/ EventTimeout i ∈ ls).
Proof.
  intros Hq Ht Hwf Hr He. by destruct (trace_keeps _ _ _ Hq Ht Hwf Hr He) as (_ & _ & _ & ?).
Qed.
End Fate.

(** ** Instances *)
Section Sample.
#[local] Existing Instances bit_json plain_texts.

Definition sample_timed_out : Client (App:=unit) := (call_poll 1 true sample_called).2.

Lemma sample_quiet : handlers_quiet sample_client.
Proof. split_and!; [intros ? ? Hl; done|constructor..]. Qed.

Abbreviation sample_trace := (trace (J:=bit_json) (X:=xor_x25519) (H:=prefix_sha256) (TX:=plain_texts)
  sample_client).

Lemma sample_run_1 : sample_trace [Tau; Tau; Tau] sample_start sample_called.
Proof.
  eapply TraceCons; [apply StepBegin|].
  eapply TraceCons; [apply (StepEstablish _ reach_b EndOfStream EndOfStream None None)|].
  eapply TraceCons; [apply (StepCall _ "echo" Null [])|]. apply TraceNil.
Qed.
Lemma sample_run_2 : sample_trace [CallTimeout 1] sample_called sample_timed_out.
Proof. refine (TraceCons _ _ _ _ _ _ (StepCallWait _ 1 true sample_called) (TraceNil _ _)). Qed.

Lemma call_tables_invariant_witness : pending_api sample_called = {[1]} /\ calls_wf sample_called.
Proof.
  split; [reflexivity|].
  apply (call_tables_invariant (J:=bit_json) (X:=xor_x25519) (H:=prefix_sha256) (TX:=plain_texts) sample_client
    sample_entropy tt [Tau; Tau; Tau] sample_called sample_quiet sample_run_1).
  reflexivity.
Defined.

Lemma calls_settle_once_witness :
  (1 ∈ pending_api sample_timed_out) \/ is_Some (api_outcomes sample_timed_out !! 1)
  \/ CallTimeout 1 ∈ [CallTimeout 1].
Proof.
  refine (proj1 (proj2 (proj2 (calls_settle_once (J:=bit_json) (X:=xor_x25519) (H:=prefix_sha256) (TX:=plain_texts)
    sample_client [CallTimeout 1] sample_called sample_timed_out sample_quiet sample_run_2
    _ _ _))) 1 _).
  - exact sample_called_wf.
  - reflexivity.
  - reflexivity.
  - set_solver.
Defined.
End Sample.
