(* ===== verification/ClientThreads.v ===== *)
(** * The client at the granularity of its atomic operations

    [ClientRuntime] takes [call], [send_event] and [handle_disconnect] as one
    step each.  Here they are what the code executes: sequences of atomic
    accesses to shared state (flag, counter, table, writer cell, channel,
    one-shot sender), and any number of calls, responses, a teardown, [close] and
    the supervisor interleave between any two of them.

    - [Pc]: where a thread inside [call] or [send_event] stands;
    - [held]: senders taken out of a table (by a response or by a teardown) whose
      outcome is about to be sent;
    - [Disc]: where [handle_disconnect] stands.  Its generation check and the swap
      of the connected flag are one step: there is no suspension point between
      them and a new generation starts only after the backoff;
    - [Sup]: where the supervisor stands.  Its wait ends when the teardown has
      sent the signal, or, with [shutdown] set, when the tasks have dropped it. *)

From S2P Require Import Prelude Utf8 Json Protocol Texts Attachment PacketJson Codec RateLimiter.
From S2P Require Import Validation ServerTypes ServerRuntime ClientTypes ClientRuntime.
From Stdlib Require Import Relation_Operators Wellfounded.
#[local] Open Scope Z_scope.

(** The two tables: requests and events. *)
Inductive Kind : Type := KApi | KEvent.
#[export] Instance Kind_eq_dec : EqDecision Kind.
Proof. solve_decision. Defined.

Inductive Request : Type :=
| ReqCall (route : string) (params : Value) (atts : list FileAttachment)
| ReqEvent (name : string) (data : gmap string Value) (atts : list FileAttachment).

Definition kind_of (r : Request) : Kind :=
  match r with ReqCall _ _ _ => KApi | ReqEvent _ _ _ => KEvent end.

(** The program counter of a thread inside [call] or [send_event].  [gen] is the
    connection whose writer the thread loaded. *)
Inductive Pc : Type :=
| PCheck (r : Request)
| PDraw (r : Request)
| PInsert (r : Request) (id : Z)
| PLoad (r : Request) (id : Z)
| PSend (r : Request) (id gen : Z)
| PCancel (k : Kind) (id : Z)
| PWait (k : Kind) (id gen : Z)
| PExpired (k : Kind) (id : Z)
| PReturned (res : result ClientError Value).

(** Where [handle_disconnect] stands; [sig] is the supervisor's signal, absent
    when [close] runs it. *)
Inductive Disc : Type :=
| DIdle
| DClear (reason : string) (err : ClientError) (sig : option Z)
| DKeys (k : Kind) (reason : string) (err : ClientError) (sig : option Z)
| DDrain (k : Kind) (keys : list Z) (reason : string) (err : ClientError) (sig : option Z)
| DEmit (reason : string) (err : ClientError) (sig : option Z)
| DSignal (err : ClientError) (sig : option Z).

Inductive Sup : Type :=
| SupSleep
| SupAttempt (waiting : bool) (gen : Z)
| SupStore (gen : Z)
| SupConnect (gen : Z)
| SupAnnounce (gen : Z)
| SupAwait (gen : Z)
| SupDone.

Section Threads.
Context {J : SerdeJson} {C : Crypto} {X : X25519} {H : Sha256} {TX : ErrorTexts} {App : Type}.
Abbreviation St := (Client (App:=App)).
Abbreviation Outcome := (result ClientError Value).
Context (self : WscallClient (App:=App)).
Implicit Types (c : St) (k : Kind).

(** ** The tables by kind *)
Definition table k c : gset Z := match k with KApi => pending_api c | KEvent => pending_event c end.
Definition outs k c : gmap Z Outcome :=
  match k with KApi => api_outcomes c | KEvent => event_outcomes c end.
Definition counter k c : Z := match k with KApi => next_request_id c | KEvent => cnext_event_id c end.
Definition set_table k c (p : gset Z) (o : gmap Z Outcome) : St :=
  match k with KApi => set_pending_api c p o | KEvent => set_pending_event c p o end.
Definition set_counter k c (n : Z) : St :=
  match k with
  | KApi => on_pending c (pending_api c) (pending_event c) (api_outcomes c) (event_outcomes c) n
              (cnext_event_id c)
  | KEvent => on_pending c (pending_api c) (pending_event c) (api_outcomes c) (event_outcomes c)
                (next_request_id c) n
  end.
Definition set_conn c (wr : option Z) (conn : bool) : St :=
  on_flags c (last_url_idx c) wr (cchannels c) conn (shutdown c) (connection_generation c) (signalled c).

Definition packet_of (r : Request) (id : Z) : PacketEnvelope :=
  with_encryption
    (match r with
     | ReqCall route params atts => ApiRequest id route params atts client_metadata
     | ReqEvent name data atts => EventEmit id name data atts client_metadata true
     end) (cfg_default_encryption (cconfig self)).

(** ** A thread inside [call] or [send_event] *)
Definition CLIENT_OUTBOUND_QUEUE_CAPACITY : Z := 256.

(** The bounded channel of a connection is open and full: [send] waits. *)
Definition stalled (gen : Z) c : bool :=
  match cchannels c !! gen with
  | Some ch => creceiver ch && bool_decide (CLIENT_OUTBOUND_QUEUE_CAPACITY <= blen (cqueue ch))
  | None => false
  end.

(** The next atomic operation; [None] when the thread has to wait or is done. *)
Definition advance (pc : Pc) c : option (Pc * St) :=
  match pc with
  | PCheck r => Some (if is_connected c then PDraw r else PReturned (Err Disconnected), c)
  | PDraw r =>
      let id := wrap 64 (counter (kind_of r) c + 1) in
      Some (PInsert r id, set_counter (kind_of r) c id)
  | PInsert r id =>
      let k := kind_of r in
      Some (PLoad r id, set_table k c ({[id]} ∪ table k c) (delete id (outs k c)))
  | PLoad r id =>
      Some (match writer c with Some gen => PSend r id gen | None => PCancel (kind_of r) id end, c)
  | PSend r id gen =>
      if stalled gen c then None
      else
        let '(sent, c) := csend gen (CPacket (packet_of r id)) c in
        Some (match sent with Ok _ => PWait (kind_of r) id gen | _ => PCancel (kind_of r) id end, c)
  | PCancel k id =>
      Some (PReturned (Err Disconnected), set_table k c (table k c ∖ {[id]}) (outs k c))
  | PWait k id _ => match outs k c !! id with Some r => Some (PReturned r, c) | None => None end
  | PExpired k id =>
      Some (PReturned (Err Timeout), set_table k c (table k c ∖ {[id]}) (outs k c))
  | PReturned _ => None
  end.

(** The timer of a wait fires; an outcome that is already there wins. *)
Definition expire (pc : Pc) c : option Pc :=
  match pc with
  | PWait k id _ => match outs k c !! id with None => Some (PExpired k id) | Some _ => None end
  | _ => None
  end.

(** ** Responses *)
Definition response_of (b : PacketBody) : option (Kind * Z * Outcome) :=
  match b with
  | ApiResponse id ok _ data error _ => Some (KApi, id, remote_outcome ok data error)
  | EventAck id ok receipt error => Some (KEvent, id, remote_outcome ok receipt error)
  | _ => None
  end.

(** [remove] hands the sender of a waiting call over. *)
Definition take_sender (e : Kind * Z * Outcome) (c : St) (hd : list (Kind * Z * Outcome)) :
    St * list (Kind * Z * Outcome) :=
  let '(k, id, _) := e in
  if bool_decide (id ∈ table k c)
  then (set_table k c (table k c ∖ {[id]}) (outs k c), hd ++ [e]) else (c, hd).

(** [tx.send(outcome)]. *)
Definition deliver (e : Kind * Z * Outcome) c : St :=
  let '(k, id, o) := e in set_table k c (table k c) (<[id := o]> (outs k c)).

(** ** [handle_disconnect] *)
Definition disc_begin (gen : Z) (err : ClientError) (sig : option Z) (d : Disc) c : Disc * St :=
  if is_connection_generation_active gen c && is_connected c
  then (DClear (cdisconnect_reason err) err sig, set_conn c (writer c) false)
  else (d, c).

Definition disc_step (d : Disc) c (hd : list (Kind * Z * Outcome)) :
    option (Disc * St * list (Kind * Z * Outcome)) :=
  match d with
  | DIdle => None
  | DClear reason err sig => Some (DKeys KApi reason err sig, set_conn c None (is_connected c), hd)
  | DKeys k reason err sig => Some (DDrain k (elements (table k c)) reason err sig, c, hd)
  | DDrain KApi [] reason err sig => Some (DKeys KEvent reason err sig, c, hd)
  | DDrain KEvent [] reason err sig => Some (DEmit reason err sig, c, hd)
  | DDrain k (id :: keys) reason err sig =>
      let '(c, hd) := take_sender (k, id, Err (ConnectionClosed reason)) c hd in
      Some (DDrain k keys reason err sig, c, hd)
  | DEmit reason err sig =>
      let again := negb (shutdown c) && auto_reconnect (cconfig self) in
      Some (DSignal err sig,
            ((url ← lift (current_url self c);
              emit_disconnected self (mkClientDisconnectEvent url reason again
                (if again then Some (reconnect_delay 1) else None))) c).2, hd)
  | DSignal err sig =>
      Some (DIdle,
            match sig with
            | Some g => if bool_decide (is_Some (signalled c !! g)) then c
                        else on_flags c (last_url_idx c) (writer c) (cchannels c) (is_connected c)
                               (shutdown c) (connection_generation c) (<[g := err]> (signalled c))
            | None => c
            end, hd)
  end.

(** ** The supervisor *)

Definition sup_step (negotiated : bool) (s : Sup) c : Sup * St :=
  match s with
  | SupSleep =>
      if shutdown c then (SupDone, c)
      else
        let gen := wrap 64 (connection_generation c + 1) in
        (SupAttempt false gen, on_flags c (last_url_idx c) (writer c) (cchannels c) (is_connected c)
           (shutdown c) gen (signalled c))
  | SupAttempt waiting gen =>
      (if negotiated then SupStore gen
       else if waiting then SupDone
       else if shutdown c then SupDone
       else if auto_reconnect (cconfig self) then SupSleep else SupDone, c)
  | SupStore gen =>
      (SupConnect gen, on_flags c (last_url_idx c) (Some gen)
         (<[gen := mkCChannel [] true]> (cchannels c)) (is_connected c) (shutdown c)
         (connection_generation c) (signalled c))
  | SupConnect gen => (SupAnnounce gen, set_conn c (writer c) true)
  | SupAnnounce gen => (SupAwait gen, (emit_connected self c).2)
  | SupAwait gen =>
      if shutdown c then (SupDone, c)
      else if bool_decide (is_Some (signalled c !! gen)) then
        (if auto_reconnect (cconfig self) then SupSleep else SupDone, c)
      else (s, c)
  | SupDone => (SupDone, c)
  end.

(** ** The interleaving *)
Record Fine : Type := mkFine {
  base : St;
  threads : gmap nat Pc;
  held : list (Kind * Z * Outcome);
  disc : Disc;
  sup : Sup;
}.

(** Work of the reader, writer and heartbeat tasks and of the application on
    channels, socket, entropy and the application's own state. *)
Definition io_only c c' : Prop :=
  exists ch n wi a, c' = on_io (set_cchannels c ch) n wi a.

Inductive fine_step : Fine -> Fine -> Prop :=
| FEnter t r c ths hd d s :
    ths !! t = None -> fine_step (mkFine c ths hd d s) (mkFine c (<[t := PCheck r]> ths) hd d s)
| FAdvance t pc pc' c c' ths hd d s :
    ths !! t = Some pc -> advance pc c = Some (pc', c') ->
    fine_step (mkFine c ths hd d s) (mkFine c' (<[t := pc']> ths) hd d s)
| FExpire t pc pc' c ths hd d s :
    ths !! t = Some pc -> expire pc c = Some pc' ->
    fine_step (mkFine c ths hd d s) (mkFine c (<[t := pc']> ths) hd d s)
| FResponse b e c c' ths hd hd' d s :
    response_of b = Some e -> take_sender e c hd = (c', hd') ->
    fine_step (mkFine c ths hd d s) (mkFine c' ths hd' d s)
| FDeliver e hd1 hd2 c ths d s :
    fine_step (mkFine c ths (hd1 ++ e :: hd2) d s) (mkFine (deliver e c) ths (hd1 ++ hd2) d s)
| FTaskEnds gen err c c' ths hd d d' s :
    disc_begin gen err (Some gen) d c = (d', c') ->
    fine_step (mkFine c ths hd d s) (mkFine c' ths hd d' s)
| FCloseEnds gen c c' ths hd d d' s :
    shutdown c = true -> disc_begin gen Disconnected None d c = (d', c') ->
    fine_step (mkFine c ths hd d s) (mkFine c' ths hd d' s)
| FDisc c c' ths hd hd' d d' s :
    disc_step d c hd = Some (d', c', hd') ->
    fine_step (mkFine c ths hd d s) (mkFine c' ths hd' d' s)
| FShutdown c ths hd d s :
    fine_step (mkFine c ths hd d s)
      (mkFine (on_flags c (last_url_idx c) (writer c) (cchannels c) (is_connected c) true
                 (connection_generation c) (signalled c)) ths hd d s)
| FNegotiate attempt hello auth f1 f2 r c c' c'' ths hd d w g s' :
    negotiate self attempt hello auth f1 f2 c = (r, c') ->
    sup_step (match r with Ok _ => true | _ => false end) (SupAttempt w g) c' = (s', c'') ->
    fine_step (mkFine c ths hd d (SupAttempt w g)) (mkFine c'' ths hd d s')
| FSup c c' ths hd d s s' :
    (forall w g, s <> SupAttempt w g) -> sup_step true s c = (s', c') ->
    fine_step (mkFine c ths hd d s) (mkFine c' ths hd d s')
| FIo c c' ths hd d s :
    io_only c c' -> fine_step (mkFine c ths hd d s) (mkFine c' ths hd d s).

(** The state after [connect] has spawned the supervisor, whose first attempt
    has generation 1. *)
Definition fine_init (entropy : nat -> Z -> result string bytes) (a : App) : Fine :=
  mkFine (begin_attempt (client_init entropy a)).2 ∅ [] DIdle (SupAttempt true 1).
End Threads.

Arguments Fine {App}.

(** ** The tables, the threads and the senders in hand *)

(** The id a thread has drawn and not given up. *)
Definition owner (pc : Pc) : option (Kind * Z) :=
  match pc with
  | PInsert r id | PLoad r id | PSend r id _ => Some (kind_of r, id)
  | PCancel k id | PWait k id _ | PExpired k id => Some (k, id)
  | _ => None
  end.
(** Drawn, and its sender not in the table yet. *)
Definition fresh (pc : Pc) : option (Kind * Z) :=
  match pc with PInsert r id => Some (kind_of r, id) | _ => None end.
(** In the table, or answered. *)
Definition awaiting (pc : Pc) : option (Kind * Z) :=
  match pc with
  | PLoad r id | PSend r id _ => Some (kind_of r, id)
  | PWait k id _ => Some (k, id)
  | _ => None
  end.
(** Past the load of the writer, with the connection it belongs to. *)
Definition sent (pc : Pc) : option (Kind * Z * Z) :=
  match pc with
  | PSend r id g => Some (kind_of r, id, g)
  | PWait k id g => Some (k, id, g)
  | _ => None
  end.

Section Calls.
Context {J : SerdeJson} {C : Crypto} {X : X25519} {H : Sha256} {TX : ErrorTexts} {App : Type}.
Abbreviation St := (Client (App:=App)).
Abbreviation Outcome := (result ClientError Value).
Implicit Types (c : St) (k : Kind) (ths : gmap nat Pc) (hd : list (Kind * Z * Outcome)).

Definition hand hd : list (Kind * Z) := map fst hd.

Lemma table_set k k' c p o : table k (set_table k' c p o) = if decide (k = k') then p else table k c.
Proof. by destruct k, k'. Qed.
Lemma outs_set k k' c p o : outs k (set_table k' c p o) = if decide (k = k') then o else outs k c.
Proof. by destruct k, k'. Qed.
Lemma counter_set k k' c p o : counter k (set_table k' c p o) = counter k c.
Proof. by destruct k, k'. Qed.
Lemma writer_set k c p o : writer (set_table k c p o) = writer c.
Proof. by destruct k. Qed.

(** The invariant of the tables: the sender of a drawn id is with its thread, in
    the table, in hand or used, and in only one of these places; an id belongs
    to one thread. *)
Record calls_inv c ths hd : Prop := {
  ci_range k : 0 <= counter k c;
  ci_table k id : id ∈ table k c ->
    0 < id <= counter k c /\ outs k c !! id = None /\ ((k, id) ∉ hand hd);
  ci_hand k id : (k, id) ∈ hand hd -> 0 < id <= counter k c /\ outs k c !! id = None;
  ci_nodup : NoDup (hand hd);
  ci_outs k id : is_Some (outs k c !! id) -> 0 < id <= counter k c;
  ci_owner t pc k id : ths !! t = Some pc -> owner pc = Some (k, id) -> 0 < id <= counter k c;
  ci_unique t1 t2 pc1 pc2 o : ths !! t1 = Some pc1 -> ths !! t2 = Some pc2 ->
    owner pc1 = Some o -> owner pc2 = Some o -> t1 = t2;
  ci_fresh t pc k id : ths !! t = Some pc -> fresh pc = Some (k, id) ->
    (id ∉ table k c) /\ ((k, id) ∉ hand hd) /\ outs k c !! id = None;
  ci_await t pc k id : ths !! t = Some pc -> awaiting pc = Some (k, id) ->
    id ∈ table k c \/ (k, id) ∈ hand hd \/ is_Some (outs k c !! id);
}.

Lemma fresh_owner pc o : fresh pc = Some o -> owner pc = Some o.
Proof. by destruct pc. Qed.
Lemma awaiting_owner pc o : awaiting pc = Some o -> owner pc = Some o.
Proof. by destruct pc. Qed.
Lemma sent_awaiting pc k id g : sent pc = Some (k, id, g) -> awaiting pc = Some (k, id).
Proof. destruct pc; cbn; congruence. Qed.

Lemma calls_inv_same c c' ths hd : same_calls c c' -> calls_inv c ths hd -> calls_inv c' ths hd.
Proof.
  intros (Ha & Hb & Hc & Hd & He & Hf) Hi.
  assert (Ht : forall k, table k c' = table k c) by (by intros []).
  assert (Ho : forall k, outs k c' = outs k c) by (by intros []).
  assert (Hn : forall k, counter k c' = counter k c) by (by intros []).
  destruct Hi. split; intros *; rewrite ?Ht, ?Ho, ?Hn; eauto.
Qed.

(** A thread moves on without touching the tables. *)
Lemma calls_inv_thread c ths hd t pc' :
  calls_inv c ths hd ->
  fresh pc' = None ->
  (owner pc' = None \/ exists pc, ths !! t = Some pc /\ owner pc' = owner pc) ->
  (awaiting pc' = None \/ exists pc, ths !! t = Some pc /\ awaiting pc' = awaiting pc) ->
  calls_inv c (<[t := pc']> ths) hd.
Proof.
  intros [] Hf Ho Ha. split; try done.
  - intros t1 pc k id [[<- <-]|[Hne Hl]]%lookup_insert_Some Hown; [|eauto].
    destruct Ho as [Ho|(pc & Hpc & Ho)]; [congruence|]. rewrite Ho in Hown. eauto.
  - assert (Hback : forall t1 pc1 o, <[t := pc']> ths !! t1 = Some pc1 -> owner pc1 = Some o ->
      exists pc, ths !! t1 = Some pc /\ owner pc = Some o).
    { intros t1 pc1 o [[<- <-]|[Hne Hl]]%lookup_insert_Some Hown; [|eauto].
      destruct Ho as [Ho|(pc & Hpc & Ho)]; [congruence|]. exists pc. by rewrite <- Ho. }
    intros t1 t2 pc1 pc2 o H1 H2 O1 O2.
    destruct (Hback _ _ _ H1 O1) as (p1 & ? & ?), (Hback _ _ _ H2 O2) as (p2 & ? & ?). eauto.
  - intros t1 pc k id [[<- <-]|[Hne Hl]]%lookup_insert_Some Hfr; [congruence|eauto].
  - intros t1 pc k id [[<- <-]|[Hne Hl]]%lookup_insert_Some Haw; [|eauto].
    destruct Ha as [Ha|(pc & Hpc & Ha)]; [congruence|]. rewrite Ha in Haw. eauto.
Qed.

Lemma counter_draw k k' c n : counter k (set_counter k' c n) = if decide (k = k') then n else counter k c.
Proof. by destruct k, k'. Qed.
Lemma table_draw k k' c n : table k (set_counter k' c n) = table k c.
Proof. by destruct k, k'. Qed.
Lemma outs_draw k k' c n : outs k (set_counter k' c n) = outs k c.
Proof. by destruct k, k'. Qed.

(** A thread draws an id: it is new to all places. *)
Lemma calls_inv_draw c ths hd t r :
  calls_inv c ths hd -> ths !! t = Some (PDraw r) ->
  let id := counter (kind_of r) c + 1 in
  calls_inv (set_counter (kind_of r) c id) (<[t := PInsert r id]> ths) hd.
Proof.
  intros [Hr Ht Hh Hn Ho Hw Hu Hf Ha] Hpc. cbv zeta. set (k0 := kind_of r).
  assert (Hgrow : forall k, counter k c <= counter k (set_counter k0 c (counter k0 c + 1))).
  { intros k. rewrite counter_draw. destruct (decide (k = k0)) as [->|]; lia. }
  split.
  - intros k. specialize (Hr k). specialize (Hgrow k). lia.
  - intros k id. rewrite table_draw, outs_draw. intros (? & ? & ?)%Ht. specialize (Hgrow k). split_and!; [lia|lia|done|done].
  - intros k id. rewrite outs_draw. intros [? ?]%Hh. specialize (Hgrow k). split; [lia|done].
  - done.
  - intros k id. rewrite outs_draw. intros ?%Ho. specialize (Hgrow k). lia.
  - intros t1 pc k id [[<- <-]|[Hne Hl]]%lookup_insert_Some Hown.
    + injection Hown as <- <-. rewrite counter_draw, decide_True by done. specialize (Hr k0). fold k0. lia.
    + specialize (Hw _ _ _ _ Hl Hown). specialize (Hgrow k). lia.
  - assert (Hnew : forall t1 pc1, ths !! t1 = Some pc1 -> owner pc1 <> Some (k0, counter k0 c + 1)).
    { intros t1 pc1 Hl Hown. specialize (Hw _ _ _ _ Hl Hown). lia. }
    intros t1 t2 pc1 pc2 o [[<- <-]|[Hne1 H1]]%lookup_insert_Some
      [[<- <-]|[Hne2 H2]]%lookup_insert_Some O1 O2; [done|..|by eauto].
    + injection O1 as <-. by apply Hnew in H2.
    + injection O2 as <-. by apply Hnew in H1.
  - intros t1 pc k id [[<- <-]|[Hne Hl]]%lookup_insert_Some Hfr.
    + injection Hfr as <- <-. rewrite table_draw, outs_draw. fold k0. split_and!.
      * intros (? & _)%Ht. lia.
      * intros (? & _)%Hh. lia.
      * destruct (outs k0 c !! _) eqn:E; [|done]. specialize (Ho k0 _ (mk_is_Some _ _ E)). lia.
    + rewrite table_draw, outs_draw. eauto.
  - intros t1 pc k id [[<- <-]|[Hne Hl]]%lookup_insert_Some Haw; [done|].
    rewrite table_draw, outs_draw. eauto.
Qed.

(** A change of one entry of one table, seen from the other entries. *)
Lemma outs_delete_None k (c : St) id : outs k c !! id = None -> delete id (outs k c) = outs k c.
Proof. apply delete_id. Qed.

(** The sender goes into the table. *)
Lemma calls_inv_insert c ths hd t r id :
  calls_inv c ths hd -> ths !! t = Some (PInsert r id) ->
  let k := kind_of r in
  calls_inv (set_table k c ({[id]} ∪ table k c) (delete id (outs k c))) (<[t := PLoad r id]> ths) hd.
Proof.
  intros [Hr Ht Hh Hn Ho Hw Hu Hf Ha] Hpc. cbv zeta. set (k0 := kind_of r).
  destruct (Hf t _ k0 id Hpc eq_refl) as (Hft & Hfh & Hfo).
  pose proof (Hw t _ k0 id Hpc eq_refl) as Hid. rewrite outs_delete_None by done.
  assert (Houts : forall k, outs k (set_table k0 c ({[id]} ∪ table k0 c) (outs k0 c)) = outs k c).
  { intros k. rewrite outs_set. by destruct (decide (k = k0)) as [->|]. }
  assert (Htab : forall k i, i ∈ table k (set_table k0 c ({[id]} ∪ table k0 c) (outs k0 c))
    <-> i ∈ table k c \/ (k, i) = (k0, id)).
  { intros k i. rewrite table_set. destruct (decide (k = k0)) as [->|Hne]; [set_solver|].
    split; [by left|]. intros [?|[=]]; [done|congruence]. }
  split; intros *; rewrite ?counter_set, ?Houts; try done.
  - intros [Hi|[= -> ->]]%Htab; [by apply Ht|done].
  - apply Hh.
  - apply Ho.
  - intros [[<- <-]|[Hne Hl]]%lookup_insert_Some Hown; [by injection Hown as <- <-|by eauto].
  - intros [[<- <-]|[Hne1 H1]]%lookup_insert_Some [[<- <-]|[Hne2 H2]]%lookup_insert_Some O1 O2;
      [done|by eapply (Hu _ _ (PInsert r id))|by eapply (Hu _ _ _ (PInsert r id))|by eauto].
  - intros [[<- <-]|[Hne Hl]]%lookup_insert_Some Hfr; [done|].
    destruct (Hf _ _ _ _ Hl Hfr) as (? & ? & ?). split_and!; [|done|done].
    intros [?|[= -> ->]]%Htab; [done|]. apply Hne. symmetry.
    by eapply (Hu _ _ _ (PInsert r id)); [..|apply fresh_owner|].
  - intros [[<- <-]|[Hne Hl]]%lookup_insert_Some Haw.
    + injection Haw as <- <-. left. apply Htab. by right.
    + destruct (Ha _ _ _ _ Hl Haw) as [?|?]; [left; apply Htab; by left|by right].
Qed.

(** A thread gives its id up and removes it from the table. *)
Lemma calls_inv_remove c ths hd t pc res k id :
  calls_inv c ths hd -> ths !! t = Some pc -> owner pc = Some (k, id) ->
  calls_inv (set_table k c (table k c ∖ {[id]}) (outs k c)) (<[t := PReturned res]> ths) hd.
Proof.
  intros Hi Hpc Hown.
  pose proof (calls_inv_thread c ths hd t (PReturned res) Hi eq_refl (or_introl eq_refl)
    (or_introl eq_refl)) as [Hr Ht Hh Hn Ho Hw Hu Hf Ha].
  assert (Hother : forall t1 pc1, <[t := PReturned res]> ths !! t1 = Some pc1 -> owner pc1 <> Some (k, id)).
  { intros t1 pc1 [[<- <-]|[Hne Hl]]%lookup_insert_Some; [done|]. intros Ho1.
    apply Hne. symmetry. by eapply (ci_unique _ _ _ Hi). }
  assert (Houts : forall k', outs k' (set_table k c (table k c ∖ {[id]}) (outs k c)) = outs k' c).
  { intros k'. rewrite outs_set. by destruct (decide (k' = k)) as [->|]. }
  assert (Htab : forall k' i, i ∈ table k' (set_table k c (table k c ∖ {[id]}) (outs k c))
    <-> i ∈ table k' c /\ (k', i) <> (k, id)).
  { intros k' i. rewrite table_set. destruct (decide (k' = k)) as [->|Hne].
    - rewrite elem_of_difference, elem_of_singleton. split; intros [? Hx]; (split; [done|]); congruence.
    - split; [|by intros [? _]]. split; [done|congruence]. }
  split; intros *; rewrite ?counter_set, ?Houts; eauto.
  - intros [Hi' _]%Htab. by apply Ht.
  - intros Hl Hfr. destruct (Hf _ _ _ _ Hl Hfr) as (? & ? & ?). split_and!; [|done|done].
    by intros [? _]%Htab.
  - intros Hl Haw. destruct (Ha _ _ _ _ Hl Haw) as [?|?]; [left|by right].
    apply Htab. split; [done|]. intros [= -> ->]. by eapply Hother, awaiting_owner.
Qed.

(** A sender moves from its table into the hand of who removed it. *)
Lemma calls_inv_take e c c' ths hd hd' :
  calls_inv c ths hd -> take_sender e c hd = (c', hd') -> calls_inv c' ths hd'.
Proof.
  destruct e as [[k id] o]. unfold take_sender. case_bool_decide as Hin; [|by intros ? [= <- <-]].
  intros [Hr Ht Hh Hn Ho Hw Hu Hf Ha] [= <- <-].
  destruct (Ht _ _ Hin) as (Hid & Hnone & Hnh).
  assert (Hhand : forall x, x ∈ hand (hd ++ [(k, id, o)]) <-> x ∈ hand hd \/ x = (k, id)).
  { intros x. unfold hand. rewrite map_app. cbn. set_solver. }
  assert (Houts : forall k', outs k' (set_table k c (table k c ∖ {[id]}) (outs k c)) = outs k' c).
  { intros k'. rewrite outs_set. by destruct (decide (k' = k)) as [->|]. }
  assert (Htab : forall k' i, i ∈ table k' (set_table k c (table k c ∖ {[id]}) (outs k c))
    <-> i ∈ table k' c /\ (k', i) <> (k, id)).
  { intros k' i. rewrite table_set. destruct (decide (k' = k)) as [->|Hne].
    - rewrite elem_of_difference, elem_of_singleton. split; intros [? Hx]; (split; [done|]); congruence.
    - split; [|by intros [? _]]. split; [done|congruence]. }
  split; intros *; rewrite ?counter_set, ?Houts; eauto.
  - intros [Hi Hne]%Htab. destruct (Ht _ _ Hi) as (? & ? & ?). split_and!; [lia|lia|done|].
    by intros [?|?]%Hhand.
  - intros [?|[= -> ->]]%Hhand; [by apply Hh|done].
  - unfold hand. rewrite map_app. apply list.NoDup_app. split_and!; [done| |apply NoDup_singleton].
    intros x Hx ->%list_elem_of_singleton. by apply Hnh.
  - intros Hl Hfr. destruct (Hf _ _ _ _ Hl Hfr) as (Hx & ? & ?). split_and!; [| |done].
    + by intros [? _]%Htab.
    + intros [?|[= -> ->]]%Hhand; [done|]. by apply Hx.
  - intros Hl Haw. destruct (Ha _ _ _ _ Hl Haw) as [Hi|[Hi|?]]; [|right; left; apply Hhand; by left|by auto].
    destruct (decide ((k0, id0) = (k, id))) as [Heq|Hne].
    + right. left. apply Hhand. by right.
    + left. by apply Htab.
Qed.

(** A sender in hand is used. *)
Lemma calls_inv_deliver e c ths hd1 hd2 :
  calls_inv c ths (hd1 ++ e :: hd2) -> calls_inv (deliver e c) ths (hd1 ++ hd2).
Proof.
  destruct e as [[k id] o]. unfold deliver. intros [Hr Ht Hh Hn Ho Hw Hu Hf Ha].
  assert (Hhand : forall x, x ∈ hand (hd1 ++ (k, id, o) :: hd2) <-> x = (k, id) \/ x ∈ hand (hd1 ++ hd2)).
  { intros x. unfold hand. rewrite !map_app. cbn. set_solver. }
  assert (Hnot : (k, id) ∉ hand (hd1 ++ hd2)).
  { unfold hand in *. rewrite !map_app in *. cbn [map fst] in Hn. apply list.NoDup_app in Hn as (_ & Hd & Hn2).
    apply list.NoDup_cons in Hn2 as [Hn2 _]. intros [Hx|Hx]%elem_of_app; [|done].
    apply (Hd _ Hx). apply list_elem_of_here. }
  assert (Hmine : 0 < id <= counter k c /\ outs k c !! id = None) by (apply Hh, Hhand; by left).
  assert (Htab : forall k', table k' (set_table k c (table k c) (<[id := o]> (outs k c))) = table k' c).
  { intros k'. rewrite table_set. by destruct (decide (k' = k)) as [->|]. }
  assert (Houts : forall k' i, outs k' (set_table k c (table k c) (<[id := o]> (outs k c))) !! i
    = if decide ((k', i) = (k, id)) then Some o else outs k' c !! i).
  { intros k' i. rewrite outs_set. destruct (decide (k' = k)) as [->|Hne].
    - destruct (decide (id = i)) as [->|Hne]; [by rewrite lookup_insert_eq, decide_True|].
      rewrite lookup_insert_ne, decide_False by congruence. done.
    - by rewrite decide_False by congruence. }
  split; intros *; rewrite ?counter_set, ?Htab, ?Houts; eauto.
  - intros Hi. destruct (Ht _ _ Hi) as (? & ? & Hx). split_and!; [lia|lia| |].
    + rewrite decide_False; [done|]. intros Heq. apply Hx, Hhand. by left.
    + intros ?. apply Hx, Hhand. by right.
  - intros Hi. destruct (Hh k0 id0) as [? ?]; [apply Hhand; by right|]. split; [done|].
    rewrite decide_False; [done|]. by intros [= -> ->].
  - unfold hand in *. rewrite map_app in *. cbn [map fst] in Hn.
    apply list.NoDup_app in Hn as (? & Hd & [_ ?]%list.NoDup_cons). apply list.NoDup_app. split_and!; [done| |done].
    intros x Hx1 Hx2. apply (Hd _ Hx1). by apply list_elem_of_further.
  - case_decide as Heq; [|apply Ho]. intros _. injection Heq as -> ->. apply Hmine.
  - intros Hl Hfr. destruct (Hf _ _ _ _ Hl Hfr) as (? & Hx & ?). split_and!; [done| |].
    + intros ?. apply Hx, Hhand. by right.
    + rewrite decide_False; [done|]. intros Heq. apply Hx, Hhand. by left.
  - intros Hl Haw. destruct (Ha _ _ _ _ Hl Haw) as [?|[Hi%Hhand|?]]; [by left| |].
    + destruct Hi as [Heq|Hi]; [|by auto]. right. right. rewrite decide_True by done. eauto.
    + right. right. by case_decide; [eauto|].
Qed.

(** A thread's own step. *)
Lemma calls_inv_advance self c c' ths hd t pc pc' :
  (forall k, counter k c < 2 ^ 64 - 1) ->
  calls_inv c ths hd -> ths !! t = Some pc -> advance self pc c = Some (pc', c') ->
  calls_inv c' (<[t := pc']> ths) hd.
Proof.
  intros Hlt Hi Hpc. destruct pc as [r|r|r id|r id|r id gen|k id|k id|k id|res]; cbn [advance].
  - intros [= <- <-]. destruct (is_connected c); by apply calls_inv_thread; auto.
  - intros [= <- <-]. specialize (Hlt (kind_of r)). pose proof (ci_range _ _ _ Hi (kind_of r)).
    rewrite wrap_small by lia. by apply calls_inv_draw.
  - intros [= <- <-]. by apply calls_inv_insert.
  - intros [= <- <-]. destruct (writer c); apply calls_inv_thread; eauto 10.
  - destruct (stalled gen c); [done|]. pose proof (csend_calls gen (CPacket (packet_of self r id)) c) as Hs.
    destruct (csend gen _ c) as [res c1]. intros [= <- <-].
    apply (calls_inv_same c); [done|]. destruct res; apply calls_inv_thread; eauto 10.
  - intros [= <- <-]. by eapply calls_inv_remove.
  - destruct (outs k c !! id); [|done]. intros [= <- <-]. apply calls_inv_thread; auto.
  - intros [= <- <-]. by eapply calls_inv_remove.
  - done.
Qed.
End Calls.

(** ** The connection, its teardown and the supervisor *)
Section Connection.
Context {J : SerdeJson} {C : Crypto} {X : X25519} {H : Sha256} {TX : ErrorTexts} {App : Type}.
Abbreviation St := (Client (App:=App)).
Abbreviation Outcome := (result ClientError Value).
Context (self : WscallClient (App:=App)).
Implicit Types (c : St) (k : Kind) (ths : gmap nat Pc) (hd : list (Kind * Z * Outcome)).

(** Changes outside the call tables and the control fields. *)
Definition same_control c c' : Prop :=
  same_calls c c' /\ writer c' = writer c /\ is_connected c' = is_connected c
  /\ shutdown c' = shutdown c /\ connection_generation c' = connection_generation c
  /\ signalled c' = signalled c.

Lemma same_control_trans c1 c2 c3 : same_control c1 c2 -> same_control c2 c3 -> same_control c1 c3.
Proof.
  intros ((? & ? & ? & ? & ? & ?) & ? & ? & ? & ? & ?) ((? & ? & ? & ? & ? & ?) & ? & ? & ? & ? & ?).
  repeat split; by etransitivity.
Qed.
Lemma io_control c c' : io_only c c' -> same_control c c'.
Proof. intros (ch & n & wi & a & ->). by repeat split. Qed.
Lemma csend_control gen m c : same_control c (csend gen m c).2.
Proof. unfold csend. repeat case_match; by repeat split. Qed.

(** Lifecycle handlers that work on the application's state only. *)
Definition inert {E A} (m : M St E A) : Prop := forall c, same_control c (m c).2.
Definition handlers_inert : Prop :=
  Forall (fun h => forall e, inert (h e)) (connected_handlers self)
  /\ Forall (fun h => forall e, inert (h e)) (disconnected_handlers self).

Lemma inert_step {E A} (m : M St E A) c0 : inert m -> preserves (same_control c0) m.
Proof. intros Hm c Hc. eapply same_control_trans; [done|apply Hm]. Qed.
Lemma inert_run {E A} (m : M St E A) : (forall c0, preserves (same_control c0) m) -> inert m.
Proof. intros Hm c. apply (Hm c). by repeat split. Qed.

Lemma inert_notify {Ev} (hs : list (Ev -> M St Empty_set unit)) e :
  Forall (fun h => forall e, inert (h e)) hs -> inert (cnotify_all hs e).
Proof.
  intros Hs. apply inert_run. intros c0. induction Hs as [|h hs Hh _ IH]; cbn [cnotify_all]; [preserve|].
  apply preserves_bind; [apply preserves_catch, inert_step, Hh|done].
Qed.

Lemma emit_connected_inert : handlers_inert -> inert (emit_connected self).
Proof.
  intros [Hc _]. apply inert_run. intros c0. unfold emit_connected. preserve.
  by apply inert_step, inert_notify.
Qed.
Lemma emit_disconnected_inert e : handlers_inert -> inert (emit_disconnected self e).
Proof. intros [_ Hd]. by apply inert_notify. Qed.

Lemma negotiate_inert attempt hello auth f1 f2 : inert (negotiate self attempt hello auth f1 f2).
Proof.
  apply inert_run. intros c0.
  assert (Hio : forall E A (m : M St E A), (forall c, same_control c (m c).2) -> preserves (same_control c0) m)
    by (intros; by apply inert_step).
  unfold negotiate, connect_any, client_handshake, client_auth. preserve;
    try (apply preserves_map_err); apply Hio; intros c; unfold cws_send, client_encode, modify; cbn;
    repeat case_match; by repeat split.
Qed.

(** Whether [d] is going to take the sender of [id] out of the table. *)
Definition will_drain (d : Disc) k (id : Z) : Prop :=
  match d with
  | DClear _ _ _ | DKeys KApi _ _ _ => True
  | DKeys KEvent _ _ _ => k = KEvent
  | DDrain KApi keys _ _ _ => k = KEvent \/ id ∈ keys
  | DDrain KEvent keys _ _ _ => k = KEvent /\ id ∈ keys
  | _ => False
  end.

(** A call that got hold of a writer is covered: the writer is still there, or
    the teardown that took it away has still to drain the call. *)
Definition covered c ths (d : Disc) : Prop :=
  forall t pc k id g, ths !! t = Some pc -> sent pc = Some (k, id, g) -> id ∈ table k c ->
    writer c = Some g \/ will_drain d k id.

Definition sig_of (d : Disc) : option (option Z) :=
  match d with
  | DIdle => None
  | DClear _ _ s | DKeys _ _ _ s | DDrain _ _ _ _ s | DEmit _ _ s | DSignal _ s => Some s
  end.

(** The teardown has emptied the writer cell. *)
Definition cleared (d : Disc) : bool := match d with DIdle | DClear _ _ _ => false | _ => true end.

(** At most one teardown at a time, never while connected; the supervisor goes on
    only when it is over, and fills an empty writer cell. *)
Record conn_inv c (d : Disc) (s : Sup) : Prop := {
  cn_connected : is_connected c = true -> d = DIdle;
  cn_offline : match s with
    | SupSleep | SupAttempt _ _ | SupStore _ | SupConnect _ => is_connected c = false /\ d = DIdle
    | _ => True end;
  cn_gen : match s with
    | SupAttempt _ g | SupStore g | SupConnect g => g = connection_generation c
        /\ signalled c !! g = None
    | SupAnnounce g | SupAwait g => g = connection_generation c
    | _ => True end;
  cn_signal g : is_Some (signalled c !! g) -> g <= connection_generation c;
  cn_now : is_Some (signalled c !! connection_generation c) ->
    is_connected c = false /\ d = DIdle /\ writer c = None;
  cn_cleared : cleared d = true -> writer c = None;
  cn_empty : match s with
    | SupSleep | SupAttempt _ _ | SupStore _ => writer c = None
    | _ => True end;
  cn_sig sg : sig_of d = Some sg -> match sg with Some g => g = connection_generation c | None => shutdown c = true end;
}.

Record fine_inv (n : Z) (f : Fine (App:=App)) : Prop := {
  fi_calls : calls_inv (base f) (threads f) (held f);
  fi_covered : covered (base f) (threads f) (disc f);
  fi_conn : conn_inv (base f) (disc f) (sup f);
  fi_counter k : counter k (base f) <= n;
  fi_gen : 0 <= connection_generation (base f) <= n + 1;
}.

Lemma conn_inv_same c c' d s : same_control c c' -> conn_inv c d s -> conn_inv c' d s.
Proof.
  intros (_ & Hw & Hc & Hs & Hg & Hsg) []. by split; rewrite ?Hw, ?Hc, ?Hs, ?Hg, ?Hsg.
Qed.
Lemma covered_same c c' ths d : same_control c c' -> covered c ths d -> covered c' ths d.
Proof.
  intros ((Ha & Hb & _) & Hw & _) Hc t pc k id g Hl Hs. rewrite Hw.
  assert (table k c' = table k c) as -> by (by destruct k). eauto.
Qed.
Lemma counter_same k c c' : same_calls c c' -> counter k c' = counter k c.
Proof. intros (_ & _ & _ & _ & ? & ?). by destruct k. Qed.

Lemma fine_inv_same n c c' ths hd d s :
  same_control c c' -> fine_inv n (mkFine c ths hd d s) -> fine_inv n (mkFine c' ths hd d s).
Proof.
  intros Hs []. cbn [base threads held disc sup] in *. pose proof Hs as (Hcalls & _ & _ & _ & Hg & _).
  split; cbn [base threads held disc sup].
  - by eapply calls_inv_same.
  - by eapply covered_same.
  - by eapply conn_inv_same.
  - intros k. by rewrite (counter_same k c c').
  - by rewrite Hg.
Qed.

(** *** The tables under a step *)

(** A call past the load was covered before, and neither its cover nor its
    teardown has gone. *)
Lemma covered_step c c' ths ths' d d' :
  covered c ths d ->
  (forall t pc k id g, ths' !! t = Some pc -> sent pc = Some (k, id, g) -> id ∈ table k c' ->
     writer c' = Some g \/ will_drain d' k id \/
     ((exists t0 pc0, ths !! t0 = Some pc0 /\ sent pc0 = Some (k, id, g)) /\ id ∈ table k c /\
      writer c' = writer c /\ (will_drain d k id -> will_drain d' k id))) ->
  covered c' ths' d'.
Proof.
  intros Hc Hs t pc k id g Hl Hsent Hin.
  destruct (Hs _ _ _ _ _ Hl Hsent Hin) as [?|[?|((t0 & pc0 & Hl0 & Hs0) & Hin0 & -> & Hd)]]; [by left|by right|].
  destruct (Hc _ _ _ _ _ Hl0 Hs0 Hin0); auto.
Qed.

(** Threads, senders and tables move; writer and teardown stay. *)
Lemma covered_moves c c' ths ths' d :
  covered c ths d -> writer c' = writer c ->
  (forall t pc k id g, ths' !! t = Some pc -> sent pc = Some (k, id, g) -> id ∈ table k c' ->
     writer c = Some g \/
     ((exists t0 pc0, ths !! t0 = Some pc0 /\ sent pc0 = Some (k, id, g)) /\ id ∈ table k c)) ->
  covered c' ths' d.
Proof.
  intros Hc Hw Hs. apply (covered_step c c' ths ths' d d Hc). intros t pc k id g Hl Hsent Hin.
  rewrite Hw. destruct (Hs _ _ _ _ _ Hl Hsent Hin) as [?|[? ?]]; [by left|]. right. right. by split_and!.
Qed.

Lemma table_remove k k' c i id :
  i ∈ table k (set_table k' c (table k' c ∖ {[id]}) (outs k' c)) -> i ∈ table k c.
Proof. rewrite table_set. destruct (decide (k = k')) as [->|]; set_solver. Qed.

Lemma table_calls k c c' : same_calls c c' -> table k c' = table k c.
Proof. intros (? & ? & _). by destruct k. Qed.

Lemma writer_draw k c n : writer (set_counter k c n) = writer c.
Proof. by destruct k. Qed.

Lemma covered_advance c c' ths hd d t pc pc' :
  calls_inv c ths hd -> covered c ths d -> ths !! t = Some pc -> advance self pc c = Some (pc', c') ->
  covered c' (<[t := pc']> ths) d.
Proof.
  intros Hi Hcov Hpc Hadv.
  assert (Hw : writer c' = writer c /\ forall k id g t1 pc1, ths !! t1 = Some pc1 -> t1 <> t ->
    sent pc1 = Some (k, id, g) -> id ∈ table k c' -> id ∈ table k c).
  { destruct pc as [r|r|r id|r id|r id gen|k id|k id|k id|res]; cbn [advance] in Hadv;
      try (injection Hadv as <- <-).
    - by destruct (is_connected c).
    - split; [apply writer_draw|]. intros *. by rewrite table_draw.
    - split; [apply writer_set|]. intros k i g t1 pc1 Hl Hne Hs. rewrite table_set.
      destruct (decide (k = kind_of r)) as [->|]; [|done]. intros [->%elem_of_singleton|?]%elem_of_union; [|done].
      destruct Hne. by eapply (ci_unique _ _ _ Hi); [..|eapply awaiting_owner, sent_awaiting|].
    - done.
    - destruct (stalled gen c); [done|].
      pose proof (csend_control gen (CPacket (packet_of self r id)) c) as (Hs & ? & _).
      destruct (csend gen _ c) as [res c1]. injection Hadv as <- <-. split; [done|].
      intros *. by rewrite (table_calls _ _ _ Hs).
    - split; [apply writer_set|]. intros *. intros _ _ _. apply table_remove.
    - destruct (outs k c !! id); [|done]. by injection Hadv as <- <-.
    - split; [apply writer_set|]. intros *. intros _ _ _. apply table_remove.
    - done. }
  destruct Hw as [Hw Ht]. apply (covered_moves c c' ths); [done|done|].
  intros t1 pc1 k id g [[<- <-]|[Hne Hl]]%lookup_insert_Some Hs Hin; [|right; split; eauto].
  destruct pc as [r|r|r i|r i|r i gen|k0 i|k0 i|k0 i|res]; cbn [advance] in Hadv;
    try (injection Hadv as <- <-); try done.
  - by destruct (is_connected c).
  - destruct (writer c) eqn:E; [left; cbn in Hs; congruence|done].
  - destruct (stalled gen c); [done|]. right. split; [exists t, (PSend r i gen); split; [done|]|].
    + destruct (csend gen _ c) as [[] ?]; by injection Hadv as <- <-.
    + pose proof (csend_control gen (CPacket (packet_of self r i)) c) as (Hsc & _).
      destruct (csend gen _ c) as [res c1]. injection Hadv as <- <-. by rewrite <- (table_calls k _ _ Hsc).
  - destruct (outs k0 c !! i); [|done]. by injection Hadv as <- <-.
Qed.

Lemma covered_expire c ths d t pc pc' :
  covered c ths d -> expire pc c = Some pc' -> covered c (<[t := pc']> ths) d.
Proof.
  intros Hcov He. destruct pc; try done. cbn in He. destruct (outs _ _ !! _); [done|]. injection He as <-.
  apply (covered_moves c _ ths); [done|done|].
  intros t1 pc1 k' id' g' [[<- <-]|[Hne Hl]]%lookup_insert_Some Hs Hin; [done|]. right. split; eauto.
Qed.

Lemma covered_take e c c' ths hd hd' d :
  covered c ths d -> take_sender e c hd = (c', hd') -> covered c' ths d.
Proof.
  destruct e as [[k id] o]. unfold take_sender. case_bool_decide; [|by intros ? [= <- <-]].
  intros Hcov [= <- <-]. apply (covered_moves c _ ths); [done|apply writer_set|].
  intros t pc k' i g Hl Hs Hin%table_remove. right. split; eauto.
Qed.

Lemma covered_deliver e c ths d : covered c ths d -> covered (deliver e c) ths d.
Proof.
  destruct e as [[k id] o]. intros Hcov. apply (covered_moves c _ ths); [done|apply writer_set|].
  intros t pc k' i g Hl Hs. cbn [deliver]. rewrite table_set. intros Hin. right. split; [eauto|].
  by destruct (decide (k' = k)) as [->|].
Qed.

(** *** The teardown *)
Lemma take_sender_gone e c c' hd hd' :
  take_sender e c hd = (c', hd') -> (e.1.2 ∉ table e.1.1 c').
Proof.
  destruct e as [[k id] o]. unfold take_sender. cbn [fst snd]. case_bool_decide; intros [= <- <-]; [|done].
  rewrite table_set, decide_True by done. set_solver.
Qed.
Lemma take_sender_control e c c' hd hd' :
  take_sender e c hd = (c', hd') ->
  writer c' = writer c /\ is_connected c' = is_connected c /\ shutdown c' = shutdown c
  /\ connection_generation c' = connection_generation c /\ signalled c' = signalled c
  /\ forall k, counter k c' = counter k c.
Proof.
  destruct e as [[k id] o]. unfold take_sender. case_bool_decide; intros [= <- <-]; [|done].
  split_and!; [by destruct k..|]. intros k'. apply counter_set.
Qed.

Lemma emit_teardown_control c reason again ra : handlers_inert ->
  same_control c ((url ← lift (current_url self c);
    emit_disconnected self (mkClientDisconnectEvent url reason again ra)) c).2.
Proof.
  intros Hh. apply (inert_run (url ← lift (current_url self c); _)). intros c0. preserve.
  by apply inert_step, emit_disconnected_inert.
Qed.

(** The teardown takes out every call it is to drain before it stops covering
    it. *)
Lemma covered_disc c c' ths hd hd' d d' : handlers_inert ->
  covered c ths d -> disc_step self d c hd = Some (d', c', hd') -> covered c' ths d'.
Proof.
  intros Hh Hcov Hd.
  assert (Hmove : same_calls c c' -> writer c' = writer c ->
    (forall k id, id ∈ table k c -> will_drain d k id -> will_drain d' k id) -> covered c' ths d').
  { intros Hs Hwr Hw. apply (covered_step c c' ths ths d d'); [done|]. intros t pc k id g Hl Hsent Hin.
    rewrite (table_calls _ _ _ Hs) in Hin. right. right. split_and!; eauto. }
  destruct d as [|reason err sig|k reason err sig|k keys reason err sig|reason err sig|err sig];
    cbn [disc_step] in Hd; try done.
  - injection Hd as <- <- <-. intros t pc k id g _ _ _. by right.
  - injection Hd as <- <- <-. apply Hmove; [by repeat split|done|]. intros k' id Hin.
    destruct k, k'; cbn; rewrite ?elem_of_elements; naive_solver.
  - destruct keys as [|i keys].
    { destruct k; injection Hd as <- <- <-; (apply Hmove; [by repeat split|done|]);
      intros k' id _; cbn; rewrite ?elem_of_nil; naive_solver. }
    assert (exists c1 hd1, take_sender (k, i, Err (ConnectionClosed reason)) c hd = (c1, hd1)
      /\ c' = c1 /\ d' = DDrain k keys reason err sig) as (c1 & hd1 & Ht & -> & ->).
    { destruct k; destruct (take_sender _ c hd) as [c1 hd1]; injection Hd as <- <- <-; eauto. }
    pose proof (take_sender_gone _ _ _ _ _ Ht) as Hgone. cbn [fst snd] in Hgone.
    pose proof (covered_take _ _ _ _ _ _ _ Hcov Ht) as Hcov'.
    apply (covered_step c1 c1 ths ths _ _ Hcov'). intros t pc k' id g Hl Hs Hin. right. right.
    split_and!; [by eauto|done|done|]. destruct k; cbn; rewrite elem_of_cons.
    + intros [?|[->|?]]; [by left| |by right]. destruct k'; [done|by left].
    + intros [-> [->|?]]; done.
  - injection Hd as <- <- <-. match goal with |- covered (snd ?m) _ _ =>
      assert (same_control c m.2) as (? & ? & _) by (by apply emit_teardown_control) end.
    by apply Hmove.
  - injection Hd as <- <- <-. apply Hmove; [..|done]; destruct sig; (try case_bool_decide); by repeat split.
Qed.

Lemma conn_inv_begin gen err sig c c' d d' s :
  (sig = Some gen \/ sig = None /\ shutdown c = true) ->
  conn_inv c d s -> disc_begin gen err sig d c = (d', c') -> conn_inv c' d' s.
Proof.
  intros Hsig Hi. unfold disc_begin, is_connection_generation_active.
  destruct (bool_decide _ && is_connected c) eqn:E; intros [= <- <-]; [|done].
  apply andb_true_iff in E as [Hg%bool_decide_eq_true Hc]. destruct Hi as [Ha Hb Hd He Hf Hcl Hem Hgg].
  split; cbn; try done.
  - destruct s; naive_solver congruence.
  - intros [? _]%Hf. congruence.
  - intros sg [= <-]. destruct Hsig as [->|[-> ?]]; congruence.
Qed.

Lemma conn_inv_disc c c' hd hd' d d' s : handlers_inert ->
  conn_inv c d s -> disc_step self d c hd = Some (d', c', hd') -> conn_inv c' d' s.
Proof.
  intros Hh Hi Hd.
  assert (Hoff : is_connected c = false).
  { destruct (is_connected c) eqn:E; [|done]. by rewrite (cn_connected _ _ _ Hi E) in Hd. }
  assert (Hmove : forall c1 d1, is_connected c1 = false -> shutdown c1 = shutdown c ->
    connection_generation c1 = connection_generation c -> signalled c1 = signalled c ->
    sig_of d1 = sig_of d -> (writer c1 = writer c /\ cleared d1 = cleared d \/ writer c1 = None) ->
    conn_inv c1 d1 s).
  { intros c1 d1 E1 E2 E3 E4 E5 E6.
    assert (d <> DIdle) by (by intros ->).
    destruct Hi as [Ha Hb Hc He Hf Hcl Hem Hg]. split; rewrite ?E1, ?E2, ?E3, ?E4, ?E5; try done.
    - destruct s; naive_solver.
    - intros (_ & ? & _)%Hf. done.
    - destruct E6 as [[-> ->]|?]; done.
    - destruct E6 as [[-> _]|?]; [done|]. by destruct s. }
  destruct d as [|reason err sig|k reason err sig|k keys reason err sig|reason err sig|err sig];
    cbn [disc_step] in Hd; try done.
  - injection Hd as <- <- <-. apply Hmove; auto.
  - injection Hd as <- <- <-. apply Hmove; auto.
  - destruct keys as [|i keys]; [destruct k; injection Hd as <- <- <-; apply Hmove; auto|].
    destruct k; destruct (take_sender _ c hd) as [c1 hd1] eqn:Ht; injection Hd as <- <- <-;
      apply take_sender_control in Ht as (? & ? & ? & ? & ? & _); apply Hmove; first [done|congruence|by left].
  - injection Hd as <- <- <-. match goal with |- conn_inv (snd ?m) _ _ =>
      assert (same_control c m.2) as (_ & ? & ? & ? & ? & ?) by (by apply emit_teardown_control) end.
    apply Hmove; first [done|congruence|by left].
  - injection Hd as <- <- <-. destruct Hi as [Ha Hb Hc He Hf Hcl Hem Hg].
    assert (Hidle : conn_inv c DIdle s).
    { split; try done; [by destruct s; naive_solver|]. intros (_ & ? & _)%Hf. done. }
    destruct sig as [g|]; [|done]. case_bool_decide; [done|].
    specialize (Hg _ eq_refl). cbn in Hg. subst g.
    destruct Hidle. split; cbn; try done; [by destruct s; try done; destruct Hb| |by auto].
    intros g. rewrite lookup_insert_is_Some. intros [<-|[_ ?]]; [done|by apply He].
Qed.

(** *** The supervisor *)
Lemma sup_step_calls neg g c c' s' : handlers_inert -> sup_step self neg g c = (s', c') -> same_calls c c'.
Proof.
  intros Hh. destruct g; cbn [sup_step]; repeat case_match; intros [= <- <-]; try by repeat split.
  apply emit_connected_inert, Hh.
Qed.

Lemma covered_sup neg g c c' s' ths d : handlers_inert -> conn_inv c d g ->
  sup_step self neg g c = (s', c') -> covered c ths d -> covered c' ths d.
Proof.
  intros Hh Hi Hs Hcov t pc k id g1 Hl Hsent. rewrite (table_calls _ _ _ (sup_step_calls _ _ _ _ _ Hh Hs)).
  intros Hin. destruct (Hcov _ _ _ _ _ Hl Hsent Hin) as [Hw|]; [left|by right].
  destruct g; cbn [sup_step] in Hs; repeat case_match; injection Hs as <- <-; try done.
  - pose proof (cn_empty _ _ _ Hi). cbn in *. congruence.
  - by destruct (emit_connected_inert Hh c) as (_ & -> & _).
Qed.

Lemma conn_inv_done c d s : conn_inv c d s -> conn_inv c d SupDone.
Proof. intros []. by split. Qed.

Lemma conn_inv_sup neg c c' d s s' : handlers_inert ->
  0 <= connection_generation c < 2 ^ 64 - 1 ->
  conn_inv c d s -> sup_step self neg s c = (s', c') -> conn_inv c' d s'.
Proof.
  intros Hh Hlt Hi. pose proof Hi as Hi0. pose proof (conn_inv_done _ _ _ Hi) as Hdone.
  destruct Hi as [Ha Hb Hc He Hf Hcl Hem Hg]. destruct s as [|w g|g|g|g|g|]; cbn [sup_step] in *.
  - case_match; [by intros [= <- <-]|]. rewrite wrap_small by lia. intros [= <- <-].
    destruct Hb as [Hb ->].
    assert (Hnone : signalled c !! (connection_generation c + 1) = None).
    { apply eq_None_not_Some. intros Hx%He. lia. }
    split; cbn; try done. intros g Hx%He. lia.
  - destruct Hc as [-> Hn]. destruct Hb as [Hb ->].
    repeat case_match; intros [= <- <-]; by split.
  - destruct Hc as [-> Hn]. destruct Hb as [Hb ->]. intros [= <- <-]. split; cbn; try done.
    rewrite Hn. by intros [? ?].
  - destruct Hc as [-> Hn]. destruct Hb as [Hb ->]. intros [= <- <-]. split; cbn; try done.
    rewrite Hn. by intros [? ?].
  - subst g. intros [= <- <-]. eapply conn_inv_same; [by apply emit_connected_inert|]. by split.
  - subst g. case_match; [by intros [= <- <-]|]. case_bool_decide as Hs; [|by intros [= <- <-]].
    destruct (auto_reconnect _); intros [= <- <-]; [|done]. destruct Hdone. destruct (Hf Hs) as (? & ? & ?). by split.
  - by intros [= <- <-].
Qed.

Lemma sup_step_counter neg g c c' s' k : handlers_inert -> sup_step self neg g c = (s', c') ->
  counter k c' = counter k c.
Proof. intros Hh Hs. by eapply counter_same, sup_step_calls. Qed.

Lemma sup_step_gen neg g c c' s' : handlers_inert -> 0 <= connection_generation c < 2 ^ 64 - 1 ->
  sup_step self neg g c = (s', c') ->
  connection_generation c <= connection_generation c' <= connection_generation c + 1.
Proof.
  intros Hh Hlt. destruct g; cbn [sup_step]; repeat case_match; intros [= <- <-]; cbn; try lia.
  - rewrite wrap_small by lia. lia.
  - destruct (emit_connected_inert Hh c) as (_ & _ & _ & _ & -> & _). lia.
Qed.

(** *** The invariant under every step *)
Lemma advance_control pc c pc' c' : advance self pc c = Some (pc', c') ->
  writer c' = writer c /\ is_connected c' = is_connected c /\ shutdown c' = shutdown c
  /\ connection_generation c' = connection_generation c /\ signalled c' = signalled c.
Proof.
  destruct pc as [r|r|r id|r id|r id gen|k id|k id|k id|res]; cbn [advance].
  5: { destruct (stalled gen c); [done|]. pose proof (csend_control gen (CPacket (packet_of self r id)) c) as (_ & ? & ? & ? & ? & ?).
       destruct (csend gen _ c) as [res c1]. by intros [= <- <-]. }
  6: destruct (outs k c !! id).
  all: intros [= <- <-]; try destruct r; try destruct k; done.
Qed.

Lemma advance_counter pc c pc' c' k : (forall k, 0 <= counter k c < 2 ^ 64 - 1) ->
  advance self pc c = Some (pc', c') -> counter k c' <= counter k c + 1.
Proof.
  intros Hlt. pose proof (Hlt k). destruct pc as [r|r|r id|r id|r id gen|k0 id|k0 id|k0 id|res]; cbn [advance].
  2: { intros [= <- <-]. rewrite counter_draw. specialize (Hlt (kind_of r)). rewrite wrap_small by lia.
       case_decide as Heq; [subst k|]; lia. }
  4: { destruct (stalled gen c); [done|]. pose proof (csend_control gen (CPacket (packet_of self r id)) c) as (Hs & _).
       destruct (csend gen _ c) as [res c1]. intros [= <- <-]. pose proof (counter_same k _ _ Hs) as Hk. cbn [snd] in Hk. lia. }
  5: destruct (outs k0 c !! id).
  all: intros [= <- <-]; rewrite ?counter_set; lia.
Qed.

Lemma conn_inv_fields c c' d s : writer c' = writer c -> is_connected c' = is_connected c -> shutdown c' = shutdown c ->
  connection_generation c' = connection_generation c -> signalled c' = signalled c ->
  conn_inv c d s -> conn_inv c' d s.
Proof. intros E0 E1 E2 E3 E4 []. by split; rewrite ?E0, ?E1, ?E2, ?E3, ?E4. Qed.

Lemma calls_inv_disc c c' ths hd hd' d d' : handlers_inert ->
  calls_inv c ths hd -> disc_step self d c hd = Some (d', c', hd') ->
  calls_inv c' ths hd' /\ (forall k, counter k c' = counter k c)
  /\ connection_generation c' = connection_generation c.
Proof.
  intros Hh Hi Hd. destruct d as [|reason err sig|k reason err sig|k keys reason err sig|reason err sig|err sig];
    cbn [disc_step] in Hd; try done.
  - injection Hd as <- <- <-. split_and!; [apply (calls_inv_same c); [by repeat split|done]|by intros []|done].
  - by injection Hd as <- <- <-.
  - destruct keys as [|i keys]; [by destruct k; injection Hd as <- <- <-|].
    destruct k; destruct (take_sender _ c hd) as [c1 hd1] eqn:Ht; injection Hd as <- <- <-;
      (split; [by eapply calls_inv_take|]); by apply take_sender_control in Ht as (_ & _ & _ & ? & _ & ?).
  - injection Hd as <- <- <-. match goal with |- context [snd ?m] =>
      assert (same_control c m.2) as (Hs & _ & _ & _ & ? & _) by (by apply emit_teardown_control) end.
    split_and!; [by eapply calls_inv_same| |done]. intros k. by apply counter_same.
  - injection Hd as <- <- <-. destruct sig; [case_bool_decide|];
      (split_and!; [apply (calls_inv_same c); [by repeat split|done]|by intros []|done]).
Qed.

(** What a step may do to the counters. *)
Definition slow c c' : Prop :=
  (forall k, counter k c' <= counter k c + 1)
  /\ connection_generation c <= connection_generation c' <= connection_generation c + 1.

Lemma slow_same c c' : (forall k, counter k c' = counter k c) ->
  connection_generation c' = connection_generation c -> slow c c'.
Proof. intros Hk Hg. split; [intros k; rewrite Hk|]; lia. Qed.

Lemma fine_inv_next n f f' : fine_inv n f ->
  calls_inv (base f') (threads f') (held f') -> covered (base f') (threads f') (disc f') ->
  conn_inv (base f') (disc f') (sup f') -> slow (base f) (base f') -> fine_inv (n + 1) f'.
Proof.
  intros [_ _ _ Hcnt Hgen] ? ? ? [Hk Hg]. split; [done..| |lia].
  intros k. specialize (Hk k). specialize (Hcnt k). lia.
Qed.

Lemma disc_begin_calls gen err sig d d' c c' : disc_begin gen err sig d c = (d', c') ->
  same_calls c c' /\ connection_generation c' = connection_generation c.
Proof. unfold disc_begin. case_match; intros [= <- <-]; by repeat split. Qed.

Lemma covered_begin gen err sig d d' c c' ths :
  covered c ths d -> disc_begin gen err sig d c = (d', c') -> covered c' ths d'.
Proof. unfold disc_begin. case_match; intros Hc [= <- <-]; [|done]. intros *. by right. Qed.

Lemma fine_inv_begin n gen err sig c c' ths hd d d' s : 
  (sig = Some gen \/ sig = None /\ shutdown c = true) ->
  fine_inv n (mkFine c ths hd d s) -> disc_begin gen err sig d c = (d', c') ->
  fine_inv (n + 1) (mkFine c' ths hd d' s).
Proof.
  intros Hsig Hi Hd. pose proof (disc_begin_calls _ _ _ _ _ _ _ Hd) as [Hc Hg].
  eapply fine_inv_next; [done|cbn..]; destruct Hi as [Ha Hb Hconn _ _].
  - by eapply calls_inv_same.
  - by eapply covered_begin.
  - by eapply conn_inv_begin.
  - apply slow_same; [|done]. intros k. by apply counter_same.
Qed.

Lemma fine_inv_sup n neg c c' ths hd d s s' : handlers_inert -> 0 <= n < 2 ^ 64 - 2 ->
  fine_inv n (mkFine c ths hd d s) -> sup_step self neg s c = (s', c') ->
  fine_inv (n + 1) (mkFine c' ths hd d s').
Proof.
  intros Hh Hn Hi Hs. eapply fine_inv_next; [done|cbn..]; destruct Hi as [Ha Hb Hc _ Hg]; cbn in *.
  - eapply calls_inv_same; [by eapply sup_step_calls|done].
  - by eapply covered_sup.
  - eapply conn_inv_sup; [done| |done..]. lia.
  - split; [intros k; erewrite sup_step_counter by done; lia|].
    eapply sup_step_gen; [done| |done]. lia.
Qed.

Lemma fine_inv_disc n c c' ths hd hd' d d' s : handlers_inert -> fine_inv n (mkFine c ths hd d s) ->
  disc_step self d c hd = Some (d', c', hd') -> fine_inv (n + 1) (mkFine c' ths hd' d' s).
Proof.
  intros Hh Hi Hd. eapply fine_inv_next; [done|cbn..]; destruct Hi as [Ha Hb Hconn _ _]; cbn in *.
  - by eapply calls_inv_disc.
  - by eapply covered_disc.
  - by eapply conn_inv_disc.
  - eapply calls_inv_disc in Hd as (_ & ? & ?); [|done..]. by apply slow_same.
Qed.
Lemma fine_inv_io n c c' ths hd d s : io_only c c' -> fine_inv n (mkFine c ths hd d s) ->
  fine_inv (n + 1) (mkFine c' ths hd d s).
Proof.
  intros Hio%io_control Hi. eapply fine_inv_next; [done|cbn..]; destruct Hi as [Ha Hb Hconn _ _]; cbn in *.
  - by eapply calls_inv_same; [apply Hio|].
  - by eapply covered_same; [apply Hio|..].
  - by eapply conn_inv_same; [apply Hio|..].
  - destruct Hio as (? & _ & _ & _ & ? & _). apply slow_same; [|done]. intros k. by apply counter_same.
Qed.

(** Every step keeps the invariant; [n] bounds the number of steps taken, so that
    no counter wraps around. *)
Lemma fine_step_inv n f f' : handlers_inert -> 0 <= n < 2 ^ 64 - 2 ->
  fine_inv n f -> fine_step self f f' -> fine_inv (n + 1) f'.
Proof.
  intros Hh Hn Hi Hstep. pose proof Hi as [Hcalls Hcov Hconn Hcnt Hgen].
  assert (Hrng : forall k, 0 <= counter k (base f) < 2 ^ 64 - 1).
  { intros k. pose proof (ci_range _ _ _ Hcalls k). specialize (Hcnt k). lia. }
  destruct Hstep as [t r c ths hd d s Hl|t pc pc' c c' ths hd d s Hl Ha|t pc pc' c ths hd d s Hl Ha
    |b e c c' ths hd hd' d s Hb Ht|e hd1 hd2 c ths d s|gen err c c' ths hd d d' s Hd
    |gen c c' ths hd d d' s Hsd Hd|c c' ths hd hd' d d' s Hd|c ths hd d s
    |attempt hello auth f1 f2 r c c' c'' ths hd d w g s' Hneg Hs|c c' ths hd d s s' Hne Hs|c c' ths hd d s Hio].
  6: by eapply fine_inv_begin; [left|..].
  6: by eapply fine_inv_begin; [right|..].
  6: by eapply fine_inv_disc.
  7: { eapply fine_inv_sup; [done|done| |done]. eapply fine_inv_same; [|done].
       pose proof (negotiate_inert attempt hello auth f1 f2 c) as Hin. by rewrite Hneg in Hin. }
  7: by eapply fine_inv_sup.
  7: by eapply fine_inv_io.
  all: (eapply fine_inv_next; [exact Hi|..]); cbn [base threads held disc sup] in *.
  - by apply calls_inv_thread; auto.
  - intros t1 pc k id g [[<- <-]|[_ ?]]%lookup_insert_Some; [done|eauto].
  - done.
  - by apply slow_same.
  - eapply calls_inv_advance; [|done..]. intros k. apply Hrng.
  - by eapply covered_advance.
  - apply advance_control in Ha as (? & ? & ? & ? & ?). by eapply conn_inv_fields.
  - split; [|apply advance_control in Ha as (_ & _ & _ & -> & _); lia].
    intros k. by eapply advance_counter.
  - destruct pc; try done. cbn in Ha. destruct (outs _ _ !! _); [done|]. injection Ha as <-.
    apply calls_inv_thread; eauto 10.
  - by eapply covered_expire.
  - done.
  - by apply slow_same.
  - by eapply calls_inv_take.
  - by eapply covered_take.
  - apply take_sender_control in Ht as (? & ? & ? & ? & ? & _). by eapply conn_inv_fields.
  - apply take_sender_control in Ht as (_ & _ & _ & ? & _ & ?). by apply slow_same.
  - by apply calls_inv_deliver.
  - by apply covered_deliver.
  - destruct e as [[k0 id] o]. apply (conn_inv_fields c); [by destruct k0..|done].
  - destruct e as [[[] id] o]; (apply slow_same; [by intros []|done]).
  - apply (calls_inv_same c); [by repeat split|done].
  - exact Hcov.
  - destruct Hconn as [? ? ? ? ? ? ? Hsig]. split; try done. intros sg Hsg. cbn. specialize (Hsig sg Hsg). by case_match.
  - apply slow_same; [by intros []|done].
Qed.
End Connection.

(** ** Executions *)
Section Executions.
Context {J : SerdeJson} {C : Crypto} {X : X25519} {H : Sha256} {TX : ErrorTexts} {App : Type}.
Abbreviation St := (Client (App:=App)).
Abbreviation Outcome := (result ClientError Value).
Context (self : WscallClient (App:=App)).
Context (entropy : nat -> Z -> result string bytes) (app0 : App).
Implicit Types (c : St) (k : Kind) (f : Fine (App:=App)).

Abbreviation step := (fine_step self).
Abbreviation init := (fine_init entropy app0).

Lemma fine_init_inv : fine_inv 0 init.
Proof.
  split; cbn.
  - split; cbn.
    + by intros [].
    + by intros [] id Hin; apply elem_of_empty in Hin.
    + by intros k id Hin%elem_of_nil.
    + constructor.
    + intros k id [? Hx]. change (outs k _) with (outs k (client_init entropy app0)) in Hx.
      by destruct k; cbn in Hx; apply lookup_empty_Some in Hx.
    + intros *. by rewrite lookup_empty.
    + intros *. by rewrite lookup_empty.
    + intros *. by rewrite lookup_empty.
    + intros *. by rewrite lookup_empty.
  - intros t pc k id g. by rewrite lookup_empty.
  - split; try done; cbn.
    + intros g [? Hx]. change (signalled _) with (signalled (client_init entropy app0)) in Hx.
      cbn in Hx. by apply lookup_empty_Some in Hx.
  - by intros [].
  - done.
Qed.

Lemma fine_trace_inv n f : handlers_inert self -> Z.of_nat n < 2 ^ 64 - 2 ->
  nsteps step n init f -> fine_inv (Z.of_nat n) f.
Proof.
  intros Hh Hn Hr. remember init as f0 eqn:E. assert (Hi : fine_inv 0 f0) by (subst; apply fine_init_inv).
  clear E. change 0 with (Z.of_nat 0) in Hi. revert Hi.
  enough (forall m, Z.of_nat (m + n) < 2 ^ 64 - 2 -> fine_inv (Z.of_nat m) f0 -> fine_inv (Z.of_nat (m + n)) f) as Hall.
  { intros Hi. apply (Hall 0%nat); [cbn; lia|done]. }
  clear Hn. induction Hr as [|n f1 f2 f3 Hs Hr IH]; intros m Hm Hi; [by rewrite Nat.add_0_r|].
  replace (m + S n)%nat with (S m + n)%nat by lia. apply IH; [lia|].
  rewrite Nat2Z.inj_succ. unfold Z.succ. eapply fine_step_inv; [done| |done|done]. lia.
Qed.

(** A delivered outcome stays. *)
Lemma outs_remove k k' c p : outs k (set_table k' c p (outs k' c)) = outs k c.
Proof. rewrite outs_set. by destruct (decide (k = k')) as [->|]. Qed.

Lemma outs_take e c c' hd hd' k : take_sender e c hd = (c', hd') -> outs k c' = outs k c.
Proof.
  destruct e as [[k0 i] o]. unfold take_sender. case_bool_decide; intros [= <- <-]; [|done]. apply outs_remove.
Qed.

Lemma outs_calls k c c' : same_calls c c' -> outs k c' = outs k c.
Proof. intros (_ & _ & ? & ? & _). by destruct k. Qed.

Lemma outs_advance pc c pc' c' ths hd t k id o : calls_inv c ths hd -> ths !! t = Some pc ->
  advance self pc c = Some (pc', c') -> outs k c !! id = Some o -> outs k c' !! id = Some o.
Proof.
  intros Hi Hl Ha Ho. destruct pc as [r|r|r i|r i|r i gen|k0 i|k0 i gen|k0 i|res]; cbn [advance] in Ha;
    try (injection Ha as <- <-); rewrite ?outs_draw, ?outs_remove; try done.
  - destruct (ci_fresh _ _ _ Hi _ _ _ _ Hl eq_refl) as (_ & _ & Hn).
    by rewrite delete_id, outs_remove.
  - destruct (stalled gen c); [done|]. pose proof (csend_calls gen (CPacket (packet_of self r i)) c) as Hs.
    destruct (csend gen _ c) as [res c1]. injection Ha as <- <-.
    pose proof (outs_calls k _ _ Hs) as Hk. cbn [snd] in Hk. by rewrite Hk.
  - destruct (outs k0 c !! i); [|done]. by injection Ha as <- <-.
Qed.

Lemma outs_disc d c hd d' c' hd' k : handlers_inert self -> disc_step self d c hd = Some (d', c', hd') ->
  outs k c' = outs k c.
Proof.
  intros Hh Hd. destruct d as [|reason err sig|k0 reason err sig|k0 keys reason err sig|reason err sig|err sig];
    cbn [disc_step] in Hd; try done.
  - injection Hd as <- <- <-. by destruct k.
  - by injection Hd as <- <- <-.
  - destruct keys as [|i keys]; [by destruct k0; injection Hd as <- <- <-|].
    destruct k0; destruct (take_sender _ c hd) as [c1 hd1] eqn:Ht; injection Hd as <- <- <-; by eapply outs_take.
  - injection Hd as <- <- <-. apply outs_calls. by apply emit_teardown_control.
  - injection Hd as <- <- <-. destruct sig; [case_bool_decide|]; by destruct k.
Qed.

Lemma outs_step n f f' k id o : handlers_inert self -> fine_inv n f -> step f f' ->
  outs k (base f) !! id = Some o -> outs k (base f') !! id = Some o.
Proof.
  intros Hh [Hcalls Hcov Hconn Hcnt Hgen] Hstep Ho.
  assert (Hsame : forall c', same_calls (base f) c' -> outs k c' !! id = Some o).
  { intros c' (_ & _ & Ha & Hb & _). destruct k; cbn in *; congruence. }
  destruct Hstep as [t r c ths hd d s Hl|t pc pc' c c' ths hd d s Hl Ha|t pc pc' c ths hd d s Hl Ha
    |b e c c' ths hd hd' d s Hb Ht|e hd1 hd2 c ths d s|gen err c c' ths hd d d' s Hd
    |gen c c' ths hd d d' s Hsd Hd|c c' ths hd hd' d d' s Hd|c ths hd d s
    |attempt hello auth f1 f2 r c c' c'' ths hd d w g s' Hneg Hs|c c' ths hd d s s' Hne Hs|c c' ths hd d s Hio];
    cbn [base threads held disc sup] in *; try done.
  - by eapply outs_advance.
  - by erewrite outs_take.
  - destruct e as [[k0 i] o0]. cbn [deliver]. rewrite outs_set. destruct (decide (k = k0)) as [->|]; [|done].
    rewrite lookup_insert_ne; [done|]. intros <-.
    destruct (ci_hand _ _ _ Hcalls k0 i) as [_ Hx]; [|congruence].
    unfold hand. rewrite map_app. cbn. set_solver.
  - apply Hsame. by apply disc_begin_calls in Hd as [? _].
  - apply Hsame. by apply disc_begin_calls in Hd as [? _].
  - by erewrite outs_disc.
  - pose proof (negotiate_inert self attempt hello auth f1 f2 c) as [Hn _]. rewrite Hneg in Hn. cbn [snd] in Hn.
    rewrite (outs_calls k _ _ (sup_step_calls _ _ _ _ _ _ Hh Hs)). by rewrite (outs_calls k _ _ Hn).
  - apply Hsame. by eapply sup_step_calls.
  - apply Hsame. by apply io_control.
Qed.
(** C4: no call is stranded by a lost connection.  In every interleaving of calls,
    responses, teardowns, [close] and the supervisor: a call that loaded the
    writer of a connection which is no longer the current one, and whose teardown
    is over, has its outcome or is about to be sent it; it does not wait for its
    timeout.  The sender is inserted before the writer is loaded, and the writer
    is cleared before the tables are drained. *)
Theorem no_stranded_call n f t pc k id g :
  handlers_inert self -> Z.of_nat n < 2 ^ 64 - 2 -> nsteps step n init f ->
  threads f !! t = Some pc -> sent pc = Some (k, id, g) ->
  writer (base f) <> Some g -> disc f = DIdle ->
  (k, id) ∈ hand (held f) \/ is_Some (outs k (base f) !! id).
Proof.
  intros Hh Hn Hr Hl Hs Hw Hd. destruct (fine_trace_inv n f Hh Hn Hr) as [Hcalls Hcov _ _ _].
  destruct (ci_await _ _ _ Hcalls _ _ _ _ Hl (sent_awaiting _ _ _ _ Hs)) as [Hin|?]; [|done].
  destruct (Hcov _ _ _ _ _ Hl Hs Hin) as [?|Hdr]; [done|]. by rewrite Hd in Hdr.
Qed.

(** C21: an outcome is final under every interleaving.  Once an outcome has been sent
    to a call it never changes, whatever responses, teardowns and further calls
    follow, and a call that waits for it returns exactly it. *)
Theorem outcome_is_final n m f f' k id o :
  handlers_inert self -> Z.of_nat (n + m) < 2 ^ 64 - 2 -> nsteps step n init f -> nsteps step m f f' ->
  outs k (base f) !! id = Some o ->
  outs k (base f') !! id = Some o
  /\ forall g, advance self (PWait k id g) (base f') = Some (PReturned o, base f').
Proof.
  intros Hh Hn Hr Hr' Ho. assert (Ho' : outs k (base f') !! id = Some o).
  { revert n Hn Hr Ho. induction Hr' as [|m f1 f2 f3 Hs Hr' IH]; intros n Hn Hr Ho; [done|].
    apply (IH (S n)).
    - lia.
    - by eapply nsteps_r.
    - eapply outs_step; [done| |done|done]. eapply fine_trace_inv; [done| |done]. lia. }
  split; [done|]. intros g. cbn. by rewrite Ho'.
Qed.

(** *** Progress of a call *)
Definition rank (pc : Pc) : nat :=
  match pc with
  | PCheck _ => 7 | PDraw _ => 6 | PInsert _ _ => 5 | PLoad _ _ => 4 | PSend _ _ _ => 3
  | PWait _ _ _ => 2 | PCancel _ _ | PExpired _ _ => 1 | PReturned _ => 0
  end.

(** A thread that is not waiting for room in the outbound queue. *)
Definition ready (pc : Pc) (c : St) : bool :=
  match pc with PSend _ _ g => negb (stalled g c) | _ => true end.

Lemma advance_rank pc c pc' c' : advance self pc c = Some (pc', c') -> (rank pc' < rank pc)%nat.
Proof.
  destruct pc as [r|r|r i|r i|r i gen|k0 i|k0 i gen|k0 i|res]; cbn [advance];
    try (intros [= <- <-]; repeat case_match; cbn; lia).
  - destruct (stalled gen c); [done|]. destruct (csend gen _ c) as [[] ?]; intros [= <- <-]; cbn; lia.
  - case_match; intros [= <- <-]; cbn; lia.
Qed.
Lemma expire_rank pc c pc' : expire pc c = Some pc' -> (rank pc' < rank pc)%nat.
Proof. destruct pc; try done. cbn. case_match; intros [= <-]. cbn. lia. Qed.

(** Nobody moves a thread but itself. *)
Lemma thread_step f f' t pc : step f f' -> threads f !! t = Some pc ->
  exists pc', threads f' !! t = Some pc' /\ (pc' = pc \/ (rank pc' < rank pc)%nat).
Proof.
  intros Hs Hl. destruct Hs as [t' r c ths hd d s Hl'|t' pc0 pc' c c' ths hd d s Hl' Ha|t' pc0 pc' c ths hd d s Hl' Ha
    | | | | | | | | |]; cbn [threads] in *; try by eauto.
  - exists pc. rewrite lookup_insert_ne by congruence. auto.
  - destruct (decide (t' = t)) as [->|]; [|exists pc; rewrite lookup_insert_ne by done; auto].
    simplify_eq. exists pc'. rewrite lookup_insert_eq. split; [done|right]. by eapply advance_rank.
  - destruct (decide (t' = t)) as [->|]; [|exists pc; rewrite lookup_insert_ne by done; auto].
    simplify_eq. exists pc'. rewrite lookup_insert_eq. split; [done|right]. by eapply expire_rank.
Qed.

(** A ready thread that has not returned has a step of its own: the next
    operation, or its timer. *)
Lemma thread_enabled f t pc : threads f !! t = Some pc -> ready pc (base f) = true ->
  (exists res, pc = PReturned res) \/
  exists f' pc', step f f' /\ threads f' !! t = Some pc' /\ (rank pc' < rank pc)%nat.
Proof.
  destruct f as [c ths hd d s]. cbn [threads base]. intros Hl Hrd.
  destruct (advance self pc c) as [[pc' c']|] eqn:Ha.
  { right. exists (mkFine c' (<[t := pc']> ths) hd d s), pc'. split_and!; [by eapply FAdvance| |by eapply advance_rank].
    apply lookup_insert_eq. }
  destruct (expire pc c) as [pc'|] eqn:He.
  { right. exists (mkFine c (<[t := pc']> ths) hd d s), pc'. split_and!; [by eapply FExpire| |by eapply expire_rank].
    apply lookup_insert_eq. }
  left. destruct pc; cbn in Ha, He, Hrd; try done; [| |by eauto].
  - destruct (stalled gen c); [done|]. by destruct (csend gen _ c).
  - by destruct (outs _ _ !! _).
Qed.

(** An infinite execution that is fair to thread [t]: when, until it has returned,
    [t] can move again and again, it moves (or has returned). *)
Definition returned (t : nat) f : Prop := exists res, threads f !! t = Some (PReturned res).
Definition can_move (t : nat) f : Prop := exists f', step f f' /\ threads f' !! t <> threads f !! t.
Definition ready_at (t : nat) f : Prop := exists pc, threads f !! t = Some pc /\ ready pc (base f) = true.
Definition fair_to (t : nat) (run : nat -> Fine (App:=App)) : Prop :=
  forall i, (forall j, (i <= j)%nat -> exists l, (j <= l)%nat /\ (can_move t (run l) \/ returned t (run l))) ->
  exists j, (i <= j)%nat /\ (returned t (run j) \/ threads (run (S j)) !! t <> threads (run j) !! t).

Lemma ready_moves t f : ready_at t f -> can_move t f \/ returned t f.
Proof.
  intros (pc & Hl & Hr). destruct (thread_enabled f t pc Hl Hr) as [[res ->]|(f' & pc' & Hs & Hl' & Hlt)].
  - right. by exists res.
  - left. exists f'. split; [done|]. rewrite Hl, Hl'. intros [= ->]. lia.
Qed.

Lemma thread_rank_mono (run : nat -> Fine (App:=App)) t i j pc :
  (forall i, step (run i) (run (S i))) -> (i <= j)%nat -> threads (run i) !! t = Some pc ->
  exists pc', threads (run j) !! t = Some pc' /\ (rank pc' <= rank pc)%nat.
Proof.
  intros Hrun Hle Hl. induction Hle as [|j Hle (pc1 & H1 & Hr1)]; [by eauto|].
  destruct (thread_step _ _ _ _ (Hrun j) H1) as (pc2 & H2 & [->|?]); [by eauto|]. exists pc2. split; [done|lia].
Qed.

(** The moments at which the thread makes a step of its own. *)
Definition moves_at (t : nat) (run : nat -> Fine (App:=App)) (i : nat) : Prop :=
  threads (run (S i)) !! t <> threads (run i) !! t.
Definition rank_at (t : nat) f : nat := match threads f !! t with Some pc => rank pc | None => 0 end.

Lemma rank_at_mono (run : nat -> Fine (App:=App)) t i j : (forall i, step (run i) (run (S i))) -> (i <= j)%nat ->
  is_Some (threads (run i) !! t) -> (rank_at t (run j) <= rank_at t (run i))%nat.
Proof.
  intros Hrun Hle [pc Hl]. destruct (thread_rank_mono run t i j pc Hrun Hle Hl) as (pc' & Hl' & Hr).
  unfold rank_at. by rewrite Hl, Hl'.
Qed.
Lemma moves_lower (run : nat -> Fine (App:=App)) t i : (forall i, step (run i) (run (S i))) ->
  is_Some (threads (run i) !! t) -> moves_at t run i -> (rank_at t (run (S i)) < rank_at t (run i))%nat.
Proof.
  intros Hrun [pc Hl] Hm. destruct (thread_step _ _ _ _ (Hrun i) Hl) as (pc' & Hl' & [->|Hlt]); [congruence|].
  unfold rank_at. by rewrite Hl, Hl'.
Qed.

(** Each step has a rank of its own, so there are no more steps than ranks. *)
Lemma own_steps_bounded (run : nat -> Fine (App:=App)) t pc moments : (forall i, step (run i) (run (S i))) ->
  threads (run 0%nat) !! t = Some pc -> NoDup moments -> Forall (moves_at t run) moments ->
  (length moments <= rank pc)%nat.
Proof.
  intros Hrun Hl Hnd Hm. rewrite list.Forall_forall in Hm.
  assert (Hsome : forall i, is_Some (threads (run i) !! t)).
  { intros i. destruct (thread_rank_mono run t 0 i pc Hrun ltac:(lia) Hl) as (pc' & H' & _). by exists pc'. }
  assert (Hlt : forall i j, i ∈ moments -> (i < j)%nat -> (rank_at t (run j) < rank_at t (run i))%nat).
  { intros i j Hi Hij. pose proof (moves_lower run t i Hrun (Hsome i) (Hm i Hi)).
    pose proof (rank_at_mono run t (S i) j Hrun Hij (Hsome _)). lia. }
  rewrite <- (length_map (fun i => rank_at t (run i))), <- (length_seq (rank pc) 1).
  apply List.NoDup_incl_length.
  - apply NoDup_ListNoDup. apply NoDup_fmap_2_strong; [|done]. intros i j Hi Hj He.
    destruct (Nat.lt_trichotomy i j) as [Hij|[Hij|Hij]]; [|done|].
    + specialize (Hlt i j Hi Hij). lia.
    + specialize (Hlt j i Hj Hij). lia.
  - intros n (i & <- & Hi%list_elem_of_In)%in_map_iff. apply in_seq.
    pose proof (moves_lower run t i Hrun (Hsome i) (Hm i Hi)).
    pose proof (rank_at_mono run t 0 i Hrun ltac:(lia) (Hsome _)) as Hr0. unfold rank_at at 2 in Hr0. rewrite Hl in Hr0. lia.
Qed.

Lemma call_comes_to_end (run : nat -> Fine (App:=App)) t pc :
  (forall i, step (run i) (run (S i))) -> threads (run 0%nat) !! t = Some pc ->
  fair_to t run -> (forall i, exists j, (i <= j)%nat /\ ready_at t (run j)) ->
  exists j res, threads (run j) !! t = Some (PReturned res).
Proof.
  intros Hrun Hl Hfair Hready. enough (forall n i pc, (rank pc <= n)%nat -> threads (run i) !! t = Some pc ->
    exists j res, threads (run j) !! t = Some (PReturned res)) as Hall by (by eapply (Hall _ 0%nat)).
  clear pc Hl. induction n as [|n IH]; intros i pc Hr Hl.
  { destruct pc; cbn in Hr; try lia. by eauto. }
  destruct (Hfair i) as (j & Hj & [[res Hret]|Hmove]).
  { intros j _. destruct (Hready j) as (l & ? & ?%ready_moves). by exists l. }
  { by eauto. }
  destruct (thread_rank_mono run t i j pc Hrun Hj Hl) as (pc1 & H1 & Hr1).
  destruct (thread_step _ _ _ _ (Hrun j) H1) as (pc2 & H2 & [->|Hlt]); [congruence|].
  apply (IH (S j) pc2); [lia|done].
Qed.
Lemma returned_stays (run : nat -> Fine (App:=App)) t j l res : (forall i, step (run i) (run (S i))) -> (j <= l)%nat ->
  threads (run j) !! t = Some (PReturned res) -> threads (run l) !! t = Some (PReturned res).
Proof.
  intros Hrun Hle Hj. induction Hle as [|l _ IH]; [done|].
  destruct (thread_step _ _ _ _ (Hrun l) IH) as (pc & Hl & [->|Hlt]); [done|cbn in Hlt; lia].
Qed.

(** C6: every call returns.  In every infinite execution that is fair to the thread
    of a call (or of an event), and in which its send is not held up for ever by a
    full outbound queue, the call returns and its outcome stays.  Whatever the
    other threads do, at no more than seven moments of the execution does the
    thread make a step. *)
Theorem call_returns (run : nat -> Fine (App:=App)) t pc :
  (forall i, step (run i) (run (S i))) -> threads (run 0%nat) !! t = Some pc ->
  fair_to t run -> (forall i, exists j, (i <= j)%nat /\ ready_at t (run j)) ->
  (exists j res, forall l, (j <= l)%nat -> threads (run l) !! t = Some (PReturned res))
  /\ forall moments, NoDup moments -> Forall (moves_at t run) moments -> (length moments <= 7)%nat.
Proof.
  intros Hrun Hl Hfair Hready. split.
  - destruct (call_comes_to_end run t pc Hrun Hl Hfair Hready) as (j & res & Hj). exists j, res.
    intros l Hle. by eapply returned_stays.
  - intros moments Hnd Hm. pose proof (own_steps_bounded run t pc moments Hrun Hl Hnd Hm). destruct pc; cbn in *; lia.
Qed.

(** *** The end of a teardown *)
Definition phase (d : Disc) : nat * nat :=
  match d with
  | DIdle => (0, 0) | DSignal _ _ => (1, 0) | DEmit _ _ _ => (2, 0)
  | DDrain KEvent keys _ _ _ => (3, length keys) | DKeys KEvent _ _ _ => (4, 0)
  | DDrain KApi keys _ _ _ => (5, length keys) | DKeys KApi _ _ _ => (6, 0)
  | DClear _ _ _ => (7, 0)
  end%nat.
Definition disc_lt (d' d : Disc) : Prop := slexprod nat nat lt lt (phase d') (phase d).

Lemma disc_lt_wf : well_founded disc_lt.
Proof. apply (wf_inverse_image Disc (nat * nat)), wf_slexprod; apply Nat.lt_wf_0. Qed.

Lemma disc_step_lt d c hd d' c' hd' : disc_step self d c hd = Some (d', c', hd') -> disc_lt d' d.
Proof.
  destruct d as [|reason err sig|[] reason err sig|[] [|i keys] reason err sig|reason err sig|err sig];
    cbn [disc_step]; try done; try (destruct (take_sender _ c hd)); intros [= <- <- <-];
    first [apply left_slex; cbn; lia|apply right_slex; cbn; lia].
Qed.

Lemma disc_step_enabled d c hd : d <> DIdle -> exists d' c' hd', disc_step self d c hd = Some (d', c', hd').
Proof.
  intros Hd. destruct d as [|reason err sig|k reason err sig|[] [|i keys] reason err sig|reason err sig|err sig];
    [done|..]; cbn [disc_step]; try (destruct (take_sender _ c hd)); by eauto.
Qed.

(** A second teardown does not start while one runs. *)
Lemma disc_changes n f f' : fine_inv n f -> step f f' -> disc f <> DIdle ->
  disc f' = disc f \/ disc_lt (disc f') (disc f).
Proof.
  intros [_ _ Hconn _ _] Hs Hd.
  assert (Hoff : is_connected (base f) = false).
  { destruct (is_connected (base f)) eqn:E; [|done]. by destruct Hd; apply (cn_connected _ _ _ Hconn). }
  destruct Hs; cbn [base disc] in *; try (by left); [..|right; by eapply disc_step_lt];
    match goal with Hb : disc_begin _ _ _ _ _ = _ |- _ =>
      unfold disc_begin in Hb; rewrite Hoff, andb_false_r in Hb; injection Hb as <- <- end; by left.
Qed.

Lemma teardown_runs f : disc f <> DIdle -> exists f', rtc step f f' /\ disc f' = DIdle
  /\ threads f' = threads f /\ sup f' = sup f
  /\ forall g, sig_of (disc f) = Some (Some g) -> is_Some (signalled (base f') !! g).
Proof.
  destruct f as [c ths hd d s]. cbn [disc threads sup]. revert c hd.
  induction d as [d IH] using (well_founded_induction disc_lt_wf). intros c hd Hd.
  destruct (disc_step_enabled d c hd Hd) as (d' & c' & hd' & Hs).
  assert (Hstep : step (mkFine c ths hd d s) (mkFine c' ths hd' d' s)) by (by apply FDisc).
  destruct (decide (phase d' = (0, 0)%nat)) as [Hz|Hz].
  - assert (d' = DIdle) as -> by (by destruct d' as [| |[]|[]| |]).
    exists (mkFine c' ths hd' DIdle s). split_and!; [by apply rtc_once|done..|].
    intros g Hsig. destruct d as [| |[]|[] [|]| |err' sig]; cbn [disc_step] in Hs; try done;
      try (by destruct (take_sender _ c hd)).
    injection Hsig as ->. injection Hs as <- <-. cbn [base]. case_bool_decide; [done|]. cbn. rewrite lookup_insert_eq. eauto.
  - assert (d' <> DIdle) by (by intros ->).
    destruct (IH d' (disc_step_lt _ _ _ _ _ _ Hs) c' hd') as (f' & Hr & Hd' & Ht & Hsu & Hsig); [done|].
    exists f'. split_and!; [by eapply rtc_l|done..|]. intros g Hg. apply Hsig. rewrite <- Hg.
    destruct d as [| |[]|[] [|]| |]; cbn [disc_step] in Hs; try (destruct (take_sender _ c hd)); by simplify_eq.
Qed.

(** C20: a teardown ends and wakes the supervisor.  A teardown in progress is never
    restarted or set back by other threads: each step leaves it or takes it
    closer to its end, in a well-founded order; it can always take its next step,
    its steps alone bring it to its end, and at the end of the teardown of a
    connection its supervisor has been signalled. *)
Theorem teardown_terminates n f : handlers_inert self -> Z.of_nat n < 2 ^ 64 - 2 -> nsteps step n init f ->
  disc f <> DIdle ->
  well_founded disc_lt
  /\ (forall f', step f f' -> disc f' = disc f \/ disc_lt (disc f') (disc f))
  /\ (exists f', step f f' /\ disc_lt (disc f') (disc f))
  /\ exists f', rtc step f f' /\ disc f' = DIdle /\ threads f' = threads f /\ sup f' = sup f
     /\ forall g, sig_of (disc f) = Some (Some g) -> is_Some (signalled (base f') !! g).
Proof.
  intros Hh Hn Hr Hd. split_and!.
  - apply disc_lt_wf.
  - intros f' Hs. by eapply disc_changes; [by eapply fine_trace_inv|..].
  - destruct f as [c ths hd d s]. destruct (disc_step_enabled d c hd Hd) as (d' & c' & hd' & Hs).
    exists (mkFine c' ths hd' d' s). split; [by apply FDisc|by eapply disc_step_lt].
  - destruct (teardown_runs f Hd) as (f' & ? & ? & ? & ? & Hg). by exists f'.
Qed.
End Executions.

(** ** The operations of [ClientRuntime] as executions *)
Section Atomic.
Context {J : SerdeJson} {C : Crypto} {X : X25519} {H : Sha256} {TX : ErrorTexts} {App : Type}.
Abbreviation St := (Client (App:=App)).
Context (self : WscallClient (App:=App)).
Implicit Types (c : St) (k : Kind) (ths : gmap nat Pc).
Abbreviation step := (fine_step self).

(** A thread on its own, until it returns or has to wait. *)
Fixpoint run_thread (fuel : nat) (pc : Pc) c : Pc * St :=
  match fuel with
  | O => (pc, c)
  | S fuel => match advance self pc c with
              | Some (pc', c') => run_thread fuel pc' c'
              | None => (pc, c)
              end
  end.

Lemma run_thread_steps fuel pc c ths hd d s t :
  rtc step (mkFine c (<[t := pc]> ths) hd d s)
    (mkFine (run_thread fuel pc c).2 (<[t := (run_thread fuel pc c).1]> ths) hd d s).
Proof.
  revert pc c. induction fuel as [|n IH]; intros pc c; [done|]. cbn [run_thread].
  destruct (advance self pc c) as [[pc' c']|] eqn:E; [|done]. eapply rtc_l; [|apply IH].
  rewrite <- (insert_insert_eq ths t pc' pc).
  by eapply FAdvance; [apply lookup_insert_eq|].
Qed.

Definition request_begin (r : Request) : M St ClientError Z :=
  match r with
  | ReqCall route params atts => call_begin self route params atts
  | ReqEvent name data atts => event_begin self name data atts
  end.

Lemma run_thread_begin r c : (forall g, writer c = Some g -> stalled g c = false) ->
  run_thread 7 (PCheck r) c =
    match request_begin r c with
    | (Ok id, c') => (PWait (kind_of r) id (default 0 (writer c)), c')
    | (Err e, c') => (PReturned (Err e), c')
    | (Panic, c') => (PReturned Panic, c')
    end.
Proof.
  intros Hst. destruct r as [route params atts|name data atts]; cbn [request_begin];
    unfold call_begin, event_begin, mbind, M_bind, get, lift; cbn [run_thread advance];
    destruct (is_connected c) eqn:Hc; cbn [negb]; try done; cbn [run_thread advance kind_of];
    unfold modify, m_try, send_outbound, mbind, M_bind, get, lift, m_map_err.
  all: cbn -[csend wrap stalled]; destruct (writer c) as [g|] eqn:Hw; cbn -[csend wrap stalled]; [|done].
  all: change (stalled g _) with (stalled g c); rewrite (Hst g eq_refl); unfold csend; cbn -[wrap];
    destruct (cchannels c !! g) as [ch|]; [destruct (creceiver ch)|]; cbn -[wrap]; try done.
  all: by rewrite lookup_delete_eq.
Qed.

(** A response, and its outcome sent at once. *)
Lemma take_deliver k id o c ths d s :
  id ∈ table k c ->
  take_sender (k, id, o) c [] = (set_table k c (table k c ∖ {[id]}) (outs k c), [(k, id, o)])
  /\ step (mkFine (set_table k c (table k c ∖ {[id]}) (outs k c)) ths [(k, id, o)] d s)
       (mkFine (set_table k c (table k c ∖ {[id]}) (<[id := o]> (outs k c))) ths [] d s).
Proof.
  intros Hin. split; [cbn; by rewrite bool_decide_true|].
  assert (Hd : set_table k c (table k c ∖ {[id]}) (<[id := o]> (outs k c))
    = deliver (k, id, o) (set_table k c (table k c ∖ {[id]}) (outs k c))) by (by destruct k).
  rewrite Hd. apply (FDeliver self (k, id, o) [] []).
Qed.

Lemma response_runs p c ths d s : is_Some (response_of (env_body p)) ->
  rtc step (mkFine c ths [] d s) (mkFine (handle_packet self p c).2 ths [] d s).
Proof.
  intros [[[k id] o] He].
  assert (Hout : (handle_packet self p c).2 = if bool_decide (id ∈ table k c)
    then set_table k c (table k c ∖ {[id]}) (<[id := o]> (outs k c)) else c).
  { unfold handle_packet. destruct (env_body p); try done; by injection He as <- <- <-. }
  rewrite Hout. case_bool_decide as Hin.
  - destruct (take_deliver k id o c ths d s Hin) as [Ht Hs]. eapply rtc_l; [by eapply FResponse|]. by apply rtc_once.
  - eapply rtc_once, FResponse; [done|]. cbn. by rewrite bool_decide_false.
Qed.

Definition drained (k : Kind) (reason : string) (ids : gset Z) c : St :=
  set_table k c (table k c ∖ ids) (fail_pending reason (table k c ∩ ids) (outs k c)).
Definition after_drain (k : Kind) (reason : string) (err : ClientError) (sig : option Z) : Disc :=
  match k with KApi => DKeys KEvent reason err sig | KEvent => DEmit reason err sig end.

Lemma drained_cons k reason id ids c :
  drained k reason ids (drained k reason {[id]} c) = drained k reason ({[id]} ∪ ids) c.
Proof.
  unfold drained. rewrite table_set, outs_set, !decide_True by done.
  assert (Hc : forall p1 o1 p2 o2 p3 o3, p2 = p3 -> o2 = o3 ->
    set_table k (set_table k c p1 o1) p2 o2 = set_table k c p3 o3) by (by destruct k; intros; subst).
  apply Hc; [set_solver|]. apply map_eq. intros i. rewrite !fail_pending_lookup.
  repeat case_bool_decide; set_solver.
Qed.

Lemma drain_runs k keys reason err sig c ths s :
  rtc step (mkFine c ths [] (DDrain k keys reason err sig) s)
    (mkFine (drained k reason (list_to_set keys) c) ths [] (after_drain k reason err sig) s).
Proof.
  revert c. induction keys as [|id keys IH]; intros c.
  - assert (drained k reason (list_to_set []) c = c) as ->.
    { unfold drained. assert (table k c ∖ list_to_set [] = table k c) as -> by set_solver.
      assert (table k c ∩ list_to_set [] = ∅) as -> by set_solver. by destruct k, c. }
    apply rtc_once, FDisc. by destruct k.
  - cbn [list_to_set]. rewrite <- drained_cons.
    assert (Hstep : rtc step (mkFine c ths [] (DDrain k (id :: keys) reason err sig) s)
      (mkFine (drained k reason {[id]} c) ths [] (DDrain k keys reason err sig) s)).
    { destruct (decide (id ∈ table k c)) as [Hin|Hin].
      - destruct (take_deliver k id (Err (ConnectionClosed reason)) c ths (DDrain k keys reason err sig) s Hin) as [Ht Hs].
        eapply rtc_l; [apply FDisc; destruct k; cbn [disc_step]; by rewrite Ht|].
        assert (drained k reason {[id]} c
          = set_table k c (table k c ∖ {[id]}) (<[id := Err (ConnectionClosed reason)]> (outs k c))) as ->.
        { unfold drained. f_equal. assert (table k c ∩ {[id]} = {[id]}) as -> by set_solver.
          unfold fail_pending. by rewrite set_fold_singleton. }
        by apply rtc_once.
      - assert (drained k reason {[id]} c = c) as ->.
        { unfold drained. assert (table k c ∖ {[id]} = table k c) as -> by set_solver.
          assert (table k c ∩ {[id]} = ∅) as -> by set_solver. by destruct k, c. }
        apply rtc_once, FDisc. destruct k; cbn; by rewrite bool_decide_false. }
    by etransitivity.
Qed.

(** From the swap of the flag to the signal, with no other thread in between. *)
Lemma teardown_alone gen err sig c ths s : 0 <= last_url_idx c < blen (urls self) ->
  rtc step (mkFine (disc_begin gen err sig DIdle c).2 ths [] (disc_begin gen err sig DIdle c).1 s)
    (mkFine (handle_disconnect self gen err sig c).2 ths [] DIdle s).
Proof.
  intros Hidx. rewrite handle_disconnect_cases. unfold disc_begin, is_connection_generation_active.
  destruct (bool_decide _ && is_connected c) eqn:E; cbn [negb fst snd]; [|done].
  set (reason := cdisconnect_reason err). cbv zeta.
  set (c1 := mkClient _ _ _ _ _ _ _ _ _ _ _ _ _ _ _ _ _).
  eapply rtc_l; [by apply FDisc|]. eapply rtc_l; [by apply FDisc|]. etransitivity; [apply drain_runs|].
  cbn [after_drain]. eapply rtc_l; [by apply FDisc|]. etransitivity; [apply drain_runs|].
  cbn [after_drain]. match goal with |- rtc _ (mkFine ?c2 _ _ _ _) _ => assert (c2 = c1) as -> end.
  { unfold drained. cbn. rewrite !list_to_set_elements_L. by repeat rewrite ?difference_diag_L, ?intersection_idemp_L. }
  eapply rtc_l; [by apply FDisc|]. apply rtc_once. apply FDisc. cbn [disc_step]. f_equal. f_equal. f_equal.
  unfold current_url. change (last_url_idx c1) with (last_url_idx c).
  destruct (index_some (E:=Empty_set) (urls self) (last_url_idx c) Hidx) as [url ->].
  unfold mbind, M_bind, lift, emit_disconnected. change (shutdown c1) with (shutdown c).
  match goal with |- context [cnotify_all ?hs ?ev c1] =>
    pose proof (cnotify_returns hs ev c1) as Hr; destruct (cnotify_all hs ev c1) as [r c2] end.
  cbn [fst snd] in *. by subst r.
Qed.

Lemma io_channels c ch : io_only c (set_cchannels c ch).
Proof. exists ch, (cdrawn c), (cwire c), (capp c). by destruct c. Qed.
Lemma io_refl c : io_only c c.
Proof. exists (cchannels c), (cdrawn c), (cwire c), (capp c). by destruct c. Qed.
Lemma csend_io gen m c : io_only c (csend gen m c).2.
Proof. unfold csend. repeat case_match; first [apply io_refl|apply io_channels]. Qed.

(** The close message goes into the queue if there is one. *)
Lemma close_message c : exists c', io_only c c' /\
  (match writer c with Some gen => ignore (csend gen CClose) | None => mret tt end) c
  = (Ok tt : result Empty_set unit, c').
Proof.
  destruct (writer c) as [g|]; [|exists c; split; [apply io_refl|done]].
  exists (csend g CClose c).2. split; [apply csend_io|]. unfold ignore, csend. by repeat case_match.
Qed.

Lemma io_flags c c' : io_only c c' -> last_url_idx c' = last_url_idx c /\ shutdown c' = shutdown c.
Proof. by intros (ch & n & wi & a & ->). Qed.

(** [close]: the flag, the close message, the teardown. *)
Lemma close_runs c ths s : 0 <= last_url_idx c < blen (urls self) ->
  rtc step (mkFine c ths [] DIdle s) (mkFine (close self c).2 ths [] DIdle s).
Proof.
  intros Hidx. unfold close. unfold mbind at 1, M_bind at 1, modify at 1.
  set (c1 := on_flags c _ _ _ _ true _ _). eapply rtc_l; [apply FShutdown|]. fold c1.
  unfold mbind, M_bind, get. destruct (close_message c1) as (c2 & Hio & Hmsg).
  unfold mret, M_ret, ignore in *. rewrite Hmsg.
  eapply rtc_l; [by apply FIo|]. apply io_flags in Hio as [Hi Hsd].
  eapply rtc_l; [eapply FCloseEnds; [by rewrite Hsd|apply surjective_pairing]|].
  apply teardown_alone. by rewrite Hi.
Qed.

(** C22: the operations of the client refine to its atomic accesses.  Run without
    interruption, the accesses of a [call] or [send_event] amount to
    [call_begin]/[event_begin] and leave the thread waiting or returned
    accordingly; those of a response, of a teardown and of [close] amount to
    [handle_packet], [handle_disconnect] and [close]: each operation of the coarse
    model is an execution of the interleaved one. *)
Theorem operations_refine c ths s t r p gen err :
  0 <= last_url_idx c < blen (urls self) ->
  (forall g, writer c = Some g -> stalled g c = false) ->
  ths !! t = None -> is_Some (response_of (env_body p)) ->
  (let '(res, c') := request_begin r c in
   rtc step (mkFine c ths [] DIdle s)
     (mkFine c' (<[t := match res with
                        | Ok id => PWait (kind_of r) id (default 0 (writer c))
                        | Err e => PReturned (Err e)
                        | Panic => PReturned Panic
                        end]> ths) [] DIdle s))
  /\ rtc step (mkFine c ths [] DIdle s) (mkFine (handle_packet self p c).2 ths [] DIdle s)
  /\ rtc step (mkFine c ths [] DIdle s)
       (mkFine (handle_disconnect self gen err (Some gen) c).2 ths [] DIdle s)
  /\ rtc step (mkFine c ths [] DIdle s) (mkFine (close self c).2 ths [] DIdle s).
Proof.
  intros Hidx Hst Hl Hp. split_and!.
  - pose proof (run_thread_steps 7 (PCheck r) c ths [] DIdle s t) as Hrun.
    rewrite (run_thread_begin r c Hst) in Hrun. destruct (request_begin r c) as [res c'].
    eapply rtc_l; [by apply (FEnter self t r)|]. by destruct res.
  - by apply response_runs.
  - eapply rtc_l; [eapply FTaskEnds, surjective_pairing|]. by apply teardown_alone.
  - by apply close_runs.
Qed.

(** C40: [close] does not stop a connection attempt that is under way.  When [close]
    runs (and returns) while the supervisor is still reaching a server, and the
    attempt then succeeds, the client ends up connected, with a writer, after
    [close]; nothing tears the connection down. *)
Theorem close_misses_attempt c ths w g attempt hello auth f1 f2 codec c' :
  is_connected c = false ->
  negotiate self attempt hello auth f1 f2 (close self c).2 = (Ok codec, c') ->
  exists f', rtc (fine_step self) (mkFine c ths [] DIdle (SupAttempt w g)) f'
    /\ shutdown (base f') = true /\ is_connected (base f') = true /\ writer (base f') = Some g
    /\ disc f' = DIdle /\ sup f' = SupAnnounce g.
Proof.
  intros Hc Hneg. set (c0 := (close self c).2) in *.
  assert (Hclose : rtc step (mkFine c ths [] DIdle (SupAttempt w g)) (mkFine c0 ths [] DIdle (SupAttempt w g))
    /\ shutdown c0 = true).
  { unfold c0, close. unfold mbind, M_bind, modify, get.
    set (c1 := on_flags c _ _ _ _ true _ _). destruct (close_message c1) as (c2 & Hio & Hmsg).
    unfold mret, M_ret, ignore in *. rewrite Hmsg, handle_disconnect_cases.
    assert (is_connected c2 = false) as -> by (destruct Hio as (? & ? & ? & ? & ->); done).
    rewrite andb_false_r. cbn [negb snd]. pose proof (io_flags _ _ Hio) as [_ Hsd].
    split; [|by rewrite Hsd]. eapply rtc_l; [apply FShutdown|]. apply rtc_once. by apply FIo. }
  destruct Hclose as [Hrun Hsd].
  pose proof (negotiate_inert self attempt hello auth f1 f2 c0) as Hin. rewrite Hneg in Hin. cbn [snd] in Hin.
  destruct Hin as (_ & _ & _ & Hsd' & _).
  eexists. split; [etransitivity; [exact Hrun|]|].
  - eapply rtc_l; [by eapply FNegotiate|]. cbn [sup_step].
    eapply rtc_l; [by apply FSup|]. cbn [sup_step]. apply rtc_once. by apply FSup.
  - cbn. by rewrite Hsd', Hsd.
Qed.
End Atomic.

(** ** Instances *)
Section Sample.
#[local] Existing Instances bit_json xor_x25519 prefix_sha256 plain_texts.

Abbreviation sample_step := (fine_step sample_client).
Abbreviation sample_init := (fine_init sample_entropy tt).

Lemma sample_inert : handlers_inert sample_client.
Proof. split; constructor. Qed.

(** One step of a concrete execution, with the state it reaches evaluated. *)
Ltac run_step tac :=
  eapply nsteps_l; [tac|];
  match goal with |- nsteps _ _ ?f _ => let f' := eval vm_compute in f in change f with f' end.

(** The client connects, a call starts and waits, and a task reports the
    connection lost. *)
Ltac run_until_lost :=
  run_step ltac:(eapply (FNegotiate _ reach_b EndOfStream EndOfStream None None); reflexivity);
  do 2 run_step ltac:(apply FSup; [discriminate|reflexivity]);
  run_step ltac:(apply (FEnter _ 0 (ReqCall "echo" Null [])); reflexivity);
  do 5 run_step ltac:(eapply (FAdvance _ 0); reflexivity);
  run_step ltac:(eapply (FTaskEnds _ 1 IdleTimeout); reflexivity).

(** A call is waiting when its connection is lost ... *)
Lemma sample_torn_run : exists f, nsteps sample_step 10 sample_init f
  /\ threads f !! 0%nat = Some (PWait KApi 1 1)
  /\ disc f = DClear "idle timeout" IdleTimeout (Some 1).
Proof.
  eexists. split.
  - run_until_lost. apply nsteps_O.
  - split_and!; reflexivity.
Qed.

(** ... the teardown runs to its end before anything is delivered, and then the
    outcome is delivered and the call returns. *)
Lemma sample_lost_run : exists f f', nsteps sample_step 18 sample_init f
  /\ threads f !! 0%nat = Some (PWait KApi 1 1) /\ writer (base f) = None /\ disc f = DIdle
  /\ sample_step f f' /\ outs KApi (base f') !! 1 = Some (Err (ConnectionClosed "idle timeout")).
Proof.
  eexists _, _. split.
  - run_until_lost.
    do 8 run_step ltac:(apply FDisc; reflexivity). apply nsteps_O.
  - split_and!; [reflexivity..|apply (FDeliver _ _ [] [])|reflexivity].
Qed.

Lemma no_stranded_call_witness : exists f, nsteps sample_step 18 sample_init f
  /\ ((KApi, 1) ∈ hand (held f) \/ is_Some (outs KApi (base f) !! 1)).
Proof.
  destruct sample_lost_run as (f & _ & Hr & Ht & Hw & Hd & _). exists f. split; [exact Hr|].
  refine (no_stranded_call sample_client sample_entropy tt 18 f 0 _ KApi 1 1 sample_inert
    eq_refl Hr Ht eq_refl _ Hd).
  rewrite Hw. discriminate.
Defined.

Lemma outcome_is_final_witness : exists f f', nsteps sample_step 19 sample_init f /\ nsteps sample_step 1 f f'
  /\ outs KApi (base f') !! 1 = Some (Err (ConnectionClosed "idle timeout")).
Proof.
  destruct sample_lost_run as (f0 & f & Hr & _ & _ & _ & Hs & Ho).
  assert (Hidle : sample_step f f).
  { destruct f as [c ths hd d s]. apply FIo, io_refl. }
  exists f, f. pose proof (nsteps_r _ _ _ _ Hr Hs) as Hr'. pose proof (nsteps_once _ _ Hidle) as H1.
  split; [exact Hr'|]. split; [exact H1|].
  refine (proj1 (outcome_is_final sample_client sample_entropy tt 19 1 f f KApi 1 _ sample_inert
    eq_refl Hr' H1 Ho)).
Defined.

Lemma teardown_terminates_witness : exists f f', nsteps sample_step 10 sample_init f
  /\ rtc sample_step f f' /\ disc f' = DIdle.
Proof.
  destruct sample_torn_run as (f & Hr & _ & Hd).
  destruct (teardown_terminates sample_client sample_entropy tt 10 f sample_inert eq_refl Hr)
    as (_ & _ & _ & f' & Hr' & Hd' & _).
  - rewrite Hd. discriminate.
  - exists f, f'. split; [exact Hr|]. split; [exact Hr'|exact Hd'].
Defined.

(** A thread that runs alone: its next operation, or else its timer. *)
Definition alone (f : Fine (App:=unit)) : Fine (App:=unit) :=
  match threads f !! 0%nat with
  | Some pc =>
      match advance sample_client pc (base f), expire pc (base f) with
      | Some (pc', c'), _ => mkFine c' (<[0%nat := pc']> (threads f)) (held f) (disc f) (sup f)
      | None, Some pc' => mkFine (base f) (<[0%nat := pc']> (threads f)) (held f) (disc f) (sup f)
      | None, None => f
      end
  | None => f
  end.
Lemma own_turn_step f : sample_step f (alone f).
Proof.
  destruct f as [c ths hd d s]. unfold alone. cbn [threads base held disc sup]. destruct (ths !! 0%nat) as [pc|] eqn:Hl.
  - destruct (advance sample_client pc c) as [[pc' c']|] eqn:Ha; [by eapply FAdvance|].
    destruct (expire pc c) as [pc'|] eqn:He; [by eapply FExpire|]. apply FIo, io_refl.
  - apply FIo, io_refl.
Qed.

(** A call over an open connection that is never answered: it is sent, it waits,
    and its timer ends it, in seven steps. *)
Definition sample_call : Fine (App:=unit) :=
  mkFine sample_connected {[0%nat := PCheck (ReqCall "echo" Null [])]} [] DIdle (SupAwait 1).
Definition sample_call_run (i : nat) : Fine (App:=unit) := Nat.iter (i `min` 7) alone sample_call.

Lemma call_returns_witness :
  (exists j res, forall l, (j <= l)%nat -> threads (sample_call_run l) !! 0%nat = Some (PReturned res))
  /\ threads (sample_call_run 4) !! 0%nat = Some (PSend (ReqCall "echo" Null []) 1 1)
  /\ threads (sample_call_run 5) !! 0%nat = Some (PWait KApi 1 1)
  /\ threads (sample_call_run 7) !! 0%nat = Some (PReturned (Err Timeout)).
Proof.
  assert (Hend : forall i, (7 <= i)%nat -> sample_call_run i = sample_call_run 7).
  { intros i Hi. unfold sample_call_run. by rewrite Nat.min_r by lia. }
  assert (Hret : threads (sample_call_run 7) !! 0%nat = Some (PReturned (Err Timeout))) by (vm_compute; reflexivity).
  split; [|split; [vm_compute; reflexivity|split; [vm_compute; reflexivity|exact Hret]]].
  refine (proj1 (call_returns sample_client sample_call_run 0 _ _ eq_refl _ _)).
  - intros i. destruct (decide (i < 7)%nat) as [Hi|Hi].
    + unfold sample_call_run. rewrite !Nat.min_l by lia. apply own_turn_step.
    + rewrite !(Hend i), (Hend (S i)) by lia. destruct (sample_call_run 7). apply FIo, io_refl.
  - intros i _. exists (7 `max` i)%nat. split; [lia|]. left. exists (Err Timeout). by rewrite Hend by lia.
  - intros i. exists (7 `max` i)%nat. split; [lia|]. exists (PReturned (Err Timeout)). by rewrite Hend by lia.
Defined.

Lemma operations_refine_witness :
  rtc sample_step (mkFine sample_called ∅ [] DIdle (SupAwait 1))
    (mkFine (handle_disconnect sample_client 1 IdleTimeout (Some 1) sample_called).2 ∅ [] DIdle
       (SupAwait 1)).
Proof.
  refine (proj1 (proj2 (proj2 (operations_refine sample_client sample_called ∅ (SupAwait 1) 0
    (ReqCall "echo" Null []) (envelope_new (EventAck 1 true Null None)) 1 IdleTimeout _ _ _ _)))).
  - split; [vm_compute; discriminate|reflexivity].
  - intros g [= <-]. vm_compute. reflexivity.
  - reflexivity.
  - eexists. reflexivity.
Defined.

Lemma close_misses_attempt_witness : exists f',
  rtc sample_step (mkFine (begin_attempt sample_start).2 ∅ [] DIdle (SupAttempt true 1)) f'
  /\ shutdown (base f') = true /\ is_connected (base f') = true.
Proof.
  destruct (close_misses_attempt sample_client (begin_attempt sample_start).2 ∅ true 1
    reach_b EndOfStream EndOfStream None None _ _ eq_refl eq_refl) as (f' & Hr & Hs & Hc & _).
  exists f'. split; [exact Hr|]. split; [exact Hs|exact Hc].
Defined.
End Sample.
