(* ===== verification/ClientConnect.v ===== *)
(** * Connecting, and the life of the supervisor

    [WscallClient::connect] with its deprecated variants, and the whole loop of
    [run_connection_supervisor] over a script of connection attempts: what
    [connect] returns, how long the supervisor sleeps between attempts, and when
    it stops. *)

From S2P Require Import Prelude Utf8 Json Protocol Texts Attachment PacketJson Codec RateLimiter.
From S2P Require Import Validation ServerTypes ServerRuntime ClientTypes ClientRuntime.
#[local] Open Scope Z_scope.

Section Connect.
Context {J : SerdeJson} {C : Crypto} {X : X25519} {H : Sha256} {TX : ErrorTexts} {App : Type}.
Abbreviation St := (Client (App:=App)).
Implicit Types (c : St) (self : WscallClient (App:=App)).

(** One turn of the loop: the outcomes of the attempt's I/O, what the rest of the
    client does until the connection is lost ([r_life], after a success) and
    during the sleep ([r_rest]), and the four bytes drawn for the jitter. *)
Record Round : Type := mkRound {
  r_attempt : string -> option string;
  r_hello : Next;
  r_auth : Next;
  r_hello_failure : option string;
  r_auth_failure : option string;
  r_life : St -> St;
  r_rest : St -> St;
  r_drawn : result string bytes;
}.

(** What the supervisor has done: what it told [connect], each attempt with its
    success and the sleep that followed it (none when it stopped there), and
    whether it has returned. *)
Record Supervised : Type := mkSupervised {
  sv_ready : option (result ClientError unit);
  sv_log : list (bool * option Z);
  sv_ended : bool;
}.

Definition sv_cons (ok : bool) (d : option Z) (ready : option (result ClientError unit))
    (s : Supervised) : Supervised :=
  mkSupervised (match ready with Some r => Some r | None => sv_ready s end) ((ok, d) :: sv_log s)
    (sv_ended s).

(** [establish_connection] with the I/O of the round. *)
Definition round_establish self (generation : Z) (r : Round) : M St ClientError FrameCodec :=
  establish_connection self generation (r_attempt r) (r_hello r) (r_auth r) (r_hello_failure r)
    (r_auth_failure r).

(** [run_connection_supervisor]: [waiting] while [ready_tx] has not been used,
    [attempt] is [reconnect_attempt]. *)
Fixpoint supervise self (rounds : list Round) (waiting : bool) (attempt : Z) c : Supervised * St :=
  match rounds with
  | [] => (mkSupervised None [] false, c)
  | r :: rounds =>
      match begin_attempt c with
      | (Ok (Some generation), c) =>
          match round_establish self generation r c with
          | (Panic, c) => (mkSupervised None [(false, None)] true, c)
          | (res, c) =>
              let c := match res with Ok _ => r_life r c | _ => c end in
              let ok := match res with Ok _ => true | _ => false end in
              let established := match res with Err e => Some e | _ => None end in
              let ready := if waiting && ok then Some (Ok tt) else None in
              match after_attempt self established waiting attempt (reconnect_jitter (r_drawn r)) c with
              | Retry attempt d =>
                  let '(s, c) := supervise self rounds false attempt (r_rest r c) in
                  (sv_cons ok (Some d) ready s, c)
              | GiveUp report => (mkSupervised (Err <$> report) [(ok, None)] true, c)
              | Exit => (mkSupervised ready [(ok, None)] true, c)
              end
          end
      | (_, c) => (mkSupervised None [] true, c)
      end
  end.

(** [WscallClient::connect]: [None] while no attempt has finished. *)
Definition client_connect (url : string) (config : WscallClientConfig) (rounds : list Round)
    (entropy : nat -> Z -> result string bytes) (a : App) :
    option (result ClientError (WscallClient (App:=App))) * Supervised * St :=
  let client := client_new url config in
  let '(s, c) := supervise client rounds true 0 (client_init entropy a) in
  (match sv_ready s with
   | Some (Ok _) => Some (Ok client)
   | Some (Err e) => Some (Err e)
   | Some Panic => Some Panic
   | None =>
       if sv_ended s then Some (Err (ConnectionClosed "connection setup task stopped unexpectedly")) else None
   end, s, c).

(** The deprecated entry points. *)
Definition connect_plaintext url := client_connect url config_plaintext.
Definition connect_with_auto_reconnect url (auto_reconnect : bool) :=
  client_connect url (with_auto_reconnect config_plaintext auto_reconnect).
Definition connect_with_ecdh url := client_connect url config_default.
Definition connect_with_chacha20 url (key : bytes) :=
  config ← psk_chacha20 key; Ok (client_connect url config) : result ProtocolError _.
Definition connect_with_aes256 url (key : bytes) :=
  config ← psk_aes256 key; Ok (client_connect url config) : result ProtocolError _.

(** ** What [connect] returns *)

(** C32: [connect] reports the first attempt.  It returns the client when the first
    attempt succeeds and that attempt's error when it fails, whatever would have
    happened later; after a failure the supervisor has stopped: no retry, no
    sleep, and no connection attempt goes on in the background. *)
Theorem connect_reports_first_attempt url config r rounds entropy a :
  let self := client_new url config in
  let est := round_establish self 1 r (begin_attempt (client_init entropy a)).2 in
  (client_connect url config (r :: rounds) entropy a).1.1
    = Some (match est.1 with
            | Ok _ => Ok self
            | Err e => Err e
            | Panic => Err (ConnectionClosed "connection setup task stopped unexpectedly")
            end)
  /\ (forall e, est.1 = Err e ->
        (client_connect url config (r :: rounds) entropy a).1.2 = mkSupervised (Some (Err e)) [(false, None)] true
        /\ (client_connect url config (r :: rounds) entropy a).2 = est.2).
Proof.
  cbv zeta. unfold client_connect. cbn [supervise]. set (c0 := (begin_attempt (client_init entropy a)).2).
  change (begin_attempt (client_init entropy a)) with (Ok (Some 1) : result Empty_set (option Z), c0).
  cbv iota beta. destruct (round_establish _ 1 r c0) as [[codec|e|] c]; cbn [fst snd].
  - cbn [after_attempt andb]. repeat case_match; simplify_eq; cbn; by split.
  - cbn. split; [done|]. by intros ? [= <-].
  - by split.
Qed.

(** ** How long the supervisor sleeps *)

(** [reconnect_attempt] after the rounds of [log]. *)
Fixpoint streak (log : list (bool * option Z)) (attempt : Z) : Z :=
  match log with
  | [] => attempt
  | (ok, _) :: log => streak log (if ok then 1 else attempt + 1)
  end.

Lemma streak_pos log a : 0 <= a -> log <> [] -> 1 <= streak log a.
Proof.
  revert a. induction log as [|[ok d] log IH]; intros a Ha Hne; [done|]. cbn [streak].
  destruct log as [|e log]; [destruct ok; cbn; lia|]. apply IH; [destruct ok; lia|done].
Qed.

(** The saturation of the counter is invisible: the delay is at its cap long before. *)
Lemma reconnect_delay_saturated n : reconnect_delay (Z.min n (2 ^ 32 - 1)) = reconnect_delay n.
Proof.
  unfold reconnect_delay. replace (Z.min (Z.max (Z.min n (2 ^ 32 - 1)) 1 - 1) 6) with (Z.min (Z.max n 1 - 1) 6) by lia.
  done.
Qed.

Lemma supervise_sleeps self rounds waiting a c i ok d : 0 <= a ->
  sv_log (supervise self rounds waiting (Z.min a (2 ^ 32 - 1)) c).1 !! i = Some (ok, Some d) ->
  exists r, rounds !! i = Some r
    /\ d = reconnect_delay (streak (take (S i) (sv_log (supervise self rounds waiting (Z.min a (2 ^ 32 - 1)) c).1)) a)
            + reconnect_jitter (r_drawn r).
Proof.
  revert waiting a c i. induction rounds as [|r rounds IH]; intros waiting a c i Ha; [done|].
  cbn [supervise]. destruct (begin_attempt c) as [[[gen|]|e|] c1]; [|done..].
  destruct (round_establish self gen r c1) as [[codec|e|] c2]; [| |by destruct i as [|[]]].
  - specialize (IH false 1 (r_rest r (r_life r c2)) (pred i) ltac:(lia)).
    change (Z.min 1 (2 ^ 32 - 1)) with 1 in IH. cbn [after_attempt].
    destruct (shutdown _); [by destruct i as [|[]]|]. destruct (auto_reconnect _); [|by destruct i as [|[]]]. cbn [negb].
    destruct (supervise self rounds false 1 _) as [s c3]. cbn [fst sv_log sv_cons] in *.
    destruct i as [|i]; [|exact IH]. intros [= <- <-]. exists r. split; [done|]. reflexivity.
  - specialize (IH false (a + 1) (r_rest r c2) (pred i) ltac:(lia)).
    replace (Z.min (a + 1) (2 ^ 32 - 1)) with (Z.min (Z.min a (2 ^ 32 - 1) + 1) (2 ^ 32 - 1)) in IH by lia.
    cbn [after_attempt]. destruct waiting; [by destruct i as [|[]]|].
    destruct (shutdown _); [by destruct i as [|[]]|]. destruct (auto_reconnect _); [|by destruct i as [|[]]]. cbn [negb].
    destruct (supervise self rounds false _ _) as [s c3]. cbn [fst sv_log sv_cons] in *.
    destruct i as [|i]; [|exact IH].
    intros [= <- <-]. exists r. split; [done|]. cbn [take streak].
    replace (Z.min (Z.min a (2 ^ 32 - 1) + 1) (2 ^ 32 - 1)) with (Z.min (a + 1) (2 ^ 32 - 1)) by lia.
    by rewrite reconnect_delay_saturated.
Qed.

(** It sleeps after every attempt but the last. *)
Lemma supervise_stops self rounds waiting attempt c i ok :
  sv_log (supervise self rounds waiting attempt c).1 !! i = Some (ok, None) ->
  sv_ended (supervise self rounds waiting attempt c).1 = true
  /\ S i = length (sv_log (supervise self rounds waiting attempt c).1).
Proof.
  revert waiting attempt c i. induction rounds as [|r rounds IH]; intros waiting attempt c i; [done|].
  cbn [supervise]. destruct (begin_attempt c) as [[[gen|]|e|] c1]; [|done..].
  destruct (round_establish self gen r c1) as [[codec|e|] c2]; [| |by destruct i as [|[]]];
    cbn [after_attempt]; repeat case_match; try (by destruct i as [|[]]); simplify_eq;
    (destruct i as [|i]; [done|]); cbn [fst sv_log sv_cons sv_ended length];
    match goal with Hs : supervise self rounds false ?n ?c0 = (?s, _) |- _ =>
      specialize (IH false n c0 i); rewrite Hs in IH end;
    cbn [fst] in IH; intros Hl; destruct (IH Hl) as [? <-]; done.
Qed.

Lemma supervise_once self rounds waiting attempt c : auto_reconnect (cconfig self) = false ->
  (length (sv_log (supervise self rounds waiting attempt c).1) <= 1)%nat.
Proof.
  intros Hauto. destruct rounds as [|r rounds]; [cbn; lia|]. cbn [supervise].
  destruct (begin_attempt c) as [[[gen|]|e|] c1]; cbn; try lia.
  destruct (round_establish self gen r c1) as [[codec|e|] c2]; cbn; [..|lia];
    rewrite Hauto; cbn; repeat case_match; simplify_eq; cbn; lia.
Qed.

(** C31: the supervisor backs off.  Over any sequence of attempts, successes and
    losses, the sleep after an attempt is the delay for the number of failures
    since the last success, plus one, with the jitter drawn for it: 3 s after a
    connection that worked, then 6, 12, 24 and 30 s, and the counter starts over
    with each success.  Every sleep is between 3 s and 31.5 s; the supervisor
    sleeps after each attempt except one after which it stops, and without
    [auto_reconnect] it makes one attempt only. *)
Theorem supervisor_backoff self rounds c :
  let log := sv_log (supervise self rounds true 0 c).1 in
  (forall i ok d, log !! i = Some (ok, Some d) ->
     secs 3 <= d < secs 31 + 500000000
     /\ exists r, rounds !! i = Some r
          /\ d = reconnect_delay (streak (take (S i) log) 0) + reconnect_jitter (r_drawn r))
  /\ (forall i ok, log !! i = Some (ok, None) ->
        sv_ended (supervise self rounds true 0 c).1 = true /\ S i = length log)
  /\ (auto_reconnect (cconfig self) = false -> (length log <= 1)%nat).
Proof.
  cbv zeta. split_and!; [|apply supervise_stops|apply supervise_once].
  intros i ok d Hl. destruct (supervise_sleeps self rounds true 0 c i ok d ltac:(lia) Hl) as (r & Hr & ->).
  change (Z.min 0 (2 ^ 32 - 1)) with 0. split; [|by exists r].
  rewrite <- reconnect_delay_saturated. apply reconnect_backoff.
  assert (1 <= streak (take (S i) (sv_log (supervise self rounds true 0 c).1)) 0); [|lia].
  apply streak_pos; [lia|]. by destruct (sv_log _).
Qed.
End Connect.

(** ** Instances *)
Section Sample.
#[local] Existing Instances bit_json xor_x25519 prefix_sha256 plain_texts.

(** Two successes with a failed attempt in between, then [close]. *)
Definition sample_rounds : list (Round (App:=unit)) :=
  [mkRound reach_b EndOfStream EndOfStream None None (fun c => c) (fun c => c) (Ok [x01; x00; x00; x00]);
   mkRound (fun _ => Some "down") EndOfStream EndOfStream None None (fun c => c) (fun c => c) (Err "none");
   mkRound reach_b EndOfStream EndOfStream None None (fun c => (close sample_client c).2)
     (fun c => c) (Err "none")].

Lemma supervisor_backoff_witness :
  sv_log (supervise sample_client sample_rounds true 0 sample_start).1
    = [(true, Some (secs 3 + 1)); (false, Some (secs 6)); (true, None)]
  /\ secs 3 <= secs 6 < secs 31 + 500000000.
Proof.
  assert (Hl : sv_log (supervise sample_client sample_rounds true 0 sample_start).1
    = [(true, Some (secs 3 + 1)); (false, Some (secs 6)); (true, None)]) by (vm_compute; reflexivity).
  split; [exact Hl|].
  refine (proj1 (proj1 (supervisor_backoff sample_client sample_rounds sample_start) 1%nat false (secs 6) _)).
  rewrite Hl. reflexivity.
Defined.
End Sample.
