(* ===== verification/Demo.v ===== *)
(** * The demo server and client

    [examples/demo_server.rs]: the parameters of its routes, its handlers, the
    exception handler and the assembly of the server; the application's state is
    the chat history.  [examples/demo_client.rs] and [examples/quick_start.rs] as
    the requests they send.

    What [derive(Deserialize)] and [derive(Validate)] generate, the compiled
    regex and the e-mail check are parameters; [DemoLaws] states what the derive of
    [Validate] promises for the declared attributes. *)

From S2P Require Import Prelude Utf8 Json Protocol Texts Attachment PacketJson Codec RateLimiter.
From S2P Require Import Validation ServerTypes ServerRuntime ClientTypes ClientRuntime.
#[local] Open Scope Z_scope.

Definition DEMO_CHACHA20_KEY : bytes := repeat x42 32.

(** [json!({ "k": v, ... })]. *)
Definition json_object (l : list (string * Value)) : Value := Object (list_to_map l).

(** [Value::as_str], and [Value::get] with a key. *)
Definition as_str (v : Value) : option string := match v with Str s => Some s | _ => None end.
Definition value_get (v : Value) (key : string) : option Value :=
  match v with Object m => m !! key | _ => None end.
(** An [Option<serde_json::Value>] in a response. *)
Definition opt_value (o : option Value) : Value := default Null o.

(** ** Parameters of the routes *)
Record EchoParams : Type := mkEchoParams { ep_message : string; ep_sample_file : option Value }.
Record TypedEchoParams : Type := mkTypedEchoParams { tp_message : string; tp_sample_file : option Value }.
Record RegisterUserParams : Type := mkRegisterUserParams {
  rp_display_name : string;
  rp_username : string;
  rp_email : string;
  rp_age : Z;
  rp_login_count : Z;
}.

#[export] Instance validate_EchoParams : ValidateParams EchoParams := fun p =>
  if bool_decide (trim (chars (ep_message p)) = []) then Err (bad_request "message cannot be empty") else Ok tt.

(** The generated code, the regex engine and the e-mail check. *)
Class DemoDerives : Type := {
  de_echo :: DeserializeOwned EchoParams;
  de_typed :: DeserializeOwned TypedEchoParams;
  de_register :: DeserializeOwned RegisterUserParams;
  va_typed :: Validate TypedEchoParams;
  va_register :: Validate RegisterUserParams;
  regex_is_match : string -> string -> bool;
  is_email : string -> bool;
}.

(** [wscall_regex_validator!(validate_username, ...)]. *)
Definition validate_username {D : DemoDerives} : string -> result ValidationError unit :=
  regex_validator (regex_is_match "^[a-zA-Z][a-zA-Z0-9_]{2,15}$") "^[a-zA-Z][a-zA-Z0-9_]{2,15}$"
    "invalid_username".

(** The [#[validate(...)]] attributes of a structure. *)
Definition typed_echo_checks (p : TypedEchoParams) : bool := is_ok (not_blank (tp_message p)).
Definition register_checks {D : DemoDerives} (p : RegisterUserParams) : bool :=
  is_ok (not_blank (rp_display_name p)) && is_ok (validate_username (rp_username p))
  && is_email (rp_email p) && is_ok (positive_int (rp_age p)) && is_ok (non_negative_int (rp_login_count p)).

(** [validate] succeeds exactly when every declared check does, and fails with an
    error value otherwise. *)
Class DemoLaws (D : DemoDerives) : Prop := {
  typed_echo_validates p : if typed_echo_checks p then validate p = Ok tt else exists e, validate p = Err e;
  register_validates p : if register_checks p then validate p = Ok tt else exists e, validate p = Err e;
}.

(** ** The demo server *)
Section Demo.
Context {J : SerdeJson} {C : Crypto} {X : X25519} {H : Sha256} {TX : ErrorTexts} {D : DemoDerives}.
(** The application's state: the chat history. *)
Abbreviation W := (World (list Value)).
Abbreviation Server := (WscallServer (App:=list Value)).

Definition demo_filter (ctx : ApiContext) : M W ApiError ApiContext :=
  if bool_decide (trim (chars (ac_route ctx)) = [])
  then lift (Err (bad_request "route cannot be empty")) else mret ctx.

Definition demo_exception_details (exception : ExceptionContext) : Value :=
  json_object [("target", Str (xc_target exception));
               ("request_id", match xc_request_id exception with Some id => num id | None => Null end);
               ("connection_id", Str (xc_connection_id exception))].
Definition demo_exception (exception : ExceptionContext) : M W Empty_set ErrorPayload :=
  let details := demo_exception_details exception in
  mret (if bool_decide (api_code (xc_error exception) = "not_found")
        then into_payload (with_details (xc_error exception) details)
        else into_payload (with_details (internal "server failed to process the message") details)).

(** [system.echo]. *)
Definition echo_handler (ctx : ApiContext) : M W ApiError Value :=
  typed ← lift (bind_and_validate (T:=EchoParams) ctx);
  message ← lift (require_param ctx "message");
  raw_message ← lift (ok_or (bad_request "message must be a string") (as_str message));
  mret (json_object
    [("route", Str (ac_route ctx)); ("params", ac_params ctx); ("message", Str raw_message);
     ("typed_message", Str (ep_message typed)); ("sample_file", opt_value (ep_sample_file typed));
     ("attachments", Array (attachment_summaries ctx))]).

(** [system.echo.bound]. *)
Definition echo_bound_handler (ctx : ApiContext) (params : EchoParams) : M W ApiError Value :=
  mret (json_object
    [("route", Str (ac_route ctx)); ("typed_message", Str (ep_message params));
     ("sample_file", opt_value (ep_sample_file params))]).

(** [system.echo.typed]. *)
Definition echo_typed_handler (ctx : ApiContext) (params : TypedEchoParams) : M W ApiError Value :=
  mret (json_object
    [("route", Str (ac_route ctx)); ("message", Str (tp_message params));
     ("sample_file", opt_value (tp_sample_file params)); ("request_id", num (ac_request_id ctx))]).

(** [user.register]. *)
Definition register_handler (_ : ApiContext) (params : RegisterUserParams) : M W ApiError Value :=
  mret (json_object
    [("accepted", Bool true); ("display_name", Str (rp_display_name params));
     ("username", Str (rp_username params)); ("email", Str (rp_email params)); ("age", num (rp_age params));
     ("login_count", num (rp_login_count params))]).

(** [files.inspect]. *)
Definition inspect_handler (ctx : ApiContext) : M W ApiError Value :=
  mret (json_object
    [("params", ac_params ctx);
     ("files", Array (map (fun a => json_object
        [("id", Str (att_id a)); ("name", Str (att_name a)); ("content_type", Str (att_content_type a));
         ("size", Num (PosInt (att_size a)))]) (ac_attachments ctx)))]).

(** [chat.history]. *)
Definition history_handler (_ : ApiContext) : M W ApiError Value :=
  w ← get; mret (json_object [("messages", Array (app w))]).

(** [chat.message]: the record, stored and then broadcast. *)
Definition chat_record (metadata : Value) (data : object_map) (connection_id : string) : object_map :=
  list_to_map
    [("from", Str (default "anonymous" (value_get metadata "client_name" ≫= as_str)));
     ("message", Str (default "" (data !! "message" ≫= as_str)));
     ("connection_id", Str connection_id)].
Definition chat_handler (ctx : EventContext) : M W ApiError Value :=
  let record := chat_record (ec_metadata ctx) (ec_data ctx) (ec_connection_id ctx) in
  modify (fun w => set_app w (app w ++ [Object record])) ;;
  broadcast_event (ec_server ctx) "chat.message" record [] ;;
  mret (json_object [("stored", Bool true); ("echo", Object record)]).

(** The limiter of [--rate-limit]. *)
Definition demo_limiter : RateLimiter :=
  limiter_ban_duration
    (limiter_ip
      (limiter_connection limiter_new
        (config_max_bytes (config_max_messages (config_new (secs 1)) 50) (1024 * 1024)))
      (config_max_bytes (config_max_messages (config_new (secs 10)) 200) (5 * 1024 * 1024)))
    (secs 30).

(** The handlers of [main], registered on a server. *)
Definition demo_routes (s : Server) : Server :=
  let s := on_connected s (fun _ => mret tt) in
  let s := on_disconnected s (fun _ => mret tt) in
  let s := filter s demo_filter in
  let s := set_exception_handler s demo_exception in
  let s := route s "system.echo" echo_handler in
  let s := typed_route s "system.echo.bound" echo_bound_handler in
  let s := validated_route s "system.echo.typed" echo_typed_handler in
  let s := validated_route s "user.register" register_handler in
  let s := route s "files.inspect" inspect_handler in
  let s := route s "chat.history" history_handler in
  event_handler s "chat.message" chat_handler.

Definition demo_server (use_ecdh use_rate_limit : bool) : result ProtocolError Server :=
  s ← (if use_ecdh then Ok (with_ecdh server_new)
       else server_with_chacha20_key server_new DEMO_CHACHA20_KEY);
  let s := if use_rate_limit then with_rate_limiter s demo_limiter else s in
  Ok (demo_routes s).

(** ** Serving *)

(** A request or an event of a connection. *)
Definition DemoInput : Type := string * option SocketAddr * (ApiRequestInput + EventEmitInput).

Definition demo_step (s : Server) (i : DemoInput) : M W ServerError PacketEnvelope :=
  match i with
  | (conn, peer, inl req) => run_api_request s conn peer req
  | (conn, peer, inr ev) => run_event s conn peer ev
  end.
Fixpoint demo_run (s : Server) (inputs : list DemoInput) (w : W) : W :=
  match inputs with [] => w | i :: inputs => demo_run s inputs (demo_step s i w).2 end.

(** The records of the chat events among the inputs. *)
Definition chat_log (inputs : list DemoInput) : list Value :=
  omap (fun i : DemoInput => match i with
    | (conn, _, inr ev) =>
        if bool_decide (in_name ev = "chat.message")
        then Some (Object (chat_record (in_event_metadata ev) (in_data ev) conn)) else None
    | _ => None
    end) inputs.

(** ** Lemmas *)
Lemma demo_server_shape ecdh rl s : demo_server ecdh rl = Ok s ->
  exists base, s = demo_routes base /\ routes base = ∅ /\ filters base = [] /\ event_handlers base = ∅.
Proof.
  unfold demo_server, server_with_chacha20_key. destruct ecdh; [|destruct (with_chacha20_key _ _)]; msimpl;
    intros [= <-]; eexists; (split; [reflexivity|]); by destruct rl.
Qed.

(** The history is [a]. *)
Definition history_is (a : list Value) (w : W) : Prop := app w = a.

Lemma history_try_send a key m : preserves (history_is a) (try_send key m).
Proof. intros w Hw. unfold try_send. by case_match. Qed.
Lemma history_fresh_event_id a : preserves (history_is a) fresh_event_id.
Proof. by intros w. Qed.
Lemma history_codec_encode a c p : preserves (history_is a) (codec_encode c p).
Proof. by intros w. Qed.
#[local] Hint Resolve history_try_send history_fresh_event_id history_codec_encode : preserves.
Lemma history_send_to_all a entries m : preserves (history_is a) (send_to_all entries m).
Proof. induction entries as [|[id e] entries IH]; cbn [send_to_all]; preserve. Qed.
#[local] Hint Resolve history_send_to_all : preserves.
Lemma history_broadcast a h name data atts : preserves (history_is a) (broadcast_event h name data atts).
Proof. unfold broadcast_event. preserve. Qed.

(** The world and the outcome are those of a pure computation. *)
Definition quiet {E A} (m : M W E A) : Prop := forall w, (m w).2 = w.
Lemma quiet_history {E A} a (m : M W E A) : quiet m -> preserves (history_is a) m.
Proof. intros Hm w Hw. by rewrite Hm. Qed.
Lemma quiet_ret {E A} (x : A) : quiet (mret (M:=M W E) x).
Proof. by intros w. Qed.
Lemma quiet_lift {E A} (r : result E A) : quiet (lift r).
Proof. by intros w. Qed.
Lemma quiet_bind {E A B} (m : M W E A) (f : A -> M W E B) :
  quiet m -> (forall a, quiet (f a)) -> quiet (m ≫= f).
Proof.
  intros Hm Hf w. specialize (Hm w). unfold mbind, M_bind.
  destruct (m w) as [[x|e|] w']; cbn in Hm; subst w'; [apply Hf|done|done].
Qed.

Lemma demo_routes_quiet base : routes base = ∅ ->
  map_Forall (fun _ h => forall ctx, quiet (h ctx)) (routes (demo_routes base)).
Proof.
  intros Hr. cbn. rewrite Hr. repeat apply map_Forall_insert_2; [..|apply map_Forall_empty];
    intros ctx; unfold echo_handler, history_handler, inspect_handler, echo_bound_handler,
      echo_typed_handler, register_handler; cbn;
    repeat first [apply quiet_ret | apply quiet_lift | (intros w; reflexivity) | apply quiet_bind; [|intros ?]].
Qed.

Lemma demo_error_quiet {E} base conn rid name err : quiet (api_error_packet (E:=E) (demo_routes base) conn rid name err).
Proof. by intros w. Qed.

Lemma demo_filters_quiet base ctx : filters base = [] -> quiet (run_filters (filters (demo_routes base)) ctx).
Proof.
  intros Hf w. cbn. rewrite Hf. cbn. unfold mbind, M_bind, demo_filter. by case_bool_decide.
Qed.

(** A request leaves the server as it was. *)
Lemma demo_api_quiet {E} base conn peer req : routes base = ∅ -> filters base = [] ->
  quiet (run_api_request (E:=E) (demo_routes base) conn peer req).
Proof.
  intros Hr Hf. unfold run_api_request. apply quiet_bind; [by intros w|intros w0]. cbv zeta. apply quiet_bind.
  - intros w. match goal with |- context [run_filters ?fs ?ctx] =>
      pose proof (demo_filters_quiet base ctx Hf w) as Hq end.
    unfold m_try. by destruct (run_filters _ _ w) as [[] ?].
  - intros [err|ctx]; [apply demo_error_quiet|].
    destruct (routes (demo_routes base) !! ac_route ctx) as [h|] eqn:Hl; [|apply demo_error_quiet].
    apply quiet_bind.
    + intros w. pose proof (demo_routes_quiet base Hr _ _ Hl ctx w) as Hq. unfold catch_unwind.
      by destruct (h ctx w) as [[] ?].
    + intros [d|e|]; [apply quiet_ret|apply demo_error_quiet..].
Qed.

Lemma bind_quiet {E A B} (m : M W E A) (f : A -> M W E B) w :
  (forall x, quiet (f x)) -> ((m ≫= f) w).2 = (m w).2.
Proof. intros Hf. unfold mbind, M_bind. destruct (m w) as [[x|e|] w']; [apply Hf|done|done]. Qed.

Lemma chat_handler_history a ctx w : history_is a w ->
  history_is (a ++ [Object (chat_record (ec_metadata ctx) (ec_data ctx) (ec_connection_id ctx))])
    (chat_handler ctx w).2.
Proof.
  intros Hw. unfold chat_handler. unfold mbind at 1, M_bind at 1, modify at 1.
  set (a' := a ++ _). assert (Hp : preserves (history_is a') (broadcast_event (ec_server ctx) "chat.message"
    (chat_record (ec_metadata ctx) (ec_data ctx) (ec_connection_id ctx)) [])) by apply history_broadcast.
  rewrite bind_quiet by (intros ?; apply quiet_ret). apply Hp. unfold history_is, a' in *. cbn. by rewrite Hw.
Qed.

Lemma demo_event_world {E} base conn peer ev w (h : EventHandler) :
  event_handlers (demo_routes base) !! in_name ev = Some h ->
  (run_event (E:=E) (demo_routes base) conn peer ev w).2
  = (h (mkEventContext conn peer (in_event_id ev) (in_name ev) (in_data ev) (in_event_attachments ev)
         (in_event_metadata ev) (handle (demo_routes base)) (lookup_auth_context conn w)) w).2.
Proof.
  intros Hh. unfold run_event. unfold mbind at 1, M_bind at 1, get at 1. cbv beta zeta iota.
  match goal with |- context [match ?o with _ => _ end] => assert (o = Some h) as -> by exact Hh end.
  rewrite bind_quiet by (intros [?|?|]; by intros ?). unfold catch_unwind. by destruct (h _ w).
Qed.

(** Only chat messages enter the history. *)
Lemma demo_step_history base i a w : routes base = ∅ -> filters base = [] -> event_handlers base = ∅ ->
  history_is a w -> history_is (a ++ chat_log [i]) (demo_step (demo_routes base) i w).2.
Proof.
  intros Hr Hf He Hw. destruct i as [[conn peer] [req|ev]]; cbn [demo_step].
  - rewrite demo_api_quiet by done. cbn. unfold history_is in *. by rewrite app_nil_r.
  - unfold chat_log. cbn [omap list_omap].
    assert (Hev : event_handlers (demo_routes base) = {["chat.message" := chat_handler]}) by (cbn; by rewrite He).
    case_bool_decide as Hname; cbn [omap list_omap].
    + erewrite demo_event_world by (rewrite Hev, Hname; apply lookup_singleton_eq).
      exact (chat_handler_history a _ w Hw).
    + unfold run_event. unfold mbind at 1, M_bind at 1, get at 1. cbv beta zeta iota.
      rewrite Hev, lookup_singleton_ne by done. unfold history_is in *. cbn. by rewrite app_nil_r.
Qed.

Lemma demo_run_history base inputs a w : routes base = ∅ -> filters base = [] -> event_handlers base = ∅ ->
  history_is a w -> history_is (a ++ chat_log inputs) (demo_run (demo_routes base) inputs w).
Proof.
  intros Hr Hf He. revert a w. induction inputs as [|i inputs IH]; intros a w Hw; cbn [demo_run].
  - unfold history_is in *. cbn. by rewrite app_nil_r.
  - change (chat_log (i :: inputs)) with (chat_log ([i] ++ inputs)). unfold chat_log at 1.
    rewrite omap_app, app_assoc. apply IH. by apply demo_step_history.
Qed.

(** C35: the chat history is exactly the chat.  After any sequence of requests and
    events on any connections of the demo server, the history is what it was
    before, followed by one record per [chat.message] event, in the order they
    were handled, with the sender's name, text and connection; nothing else adds
    to it or takes from it, and [chat.history] returns it and changes nothing. *)
Theorem chat_history_faithful ecdh rl s inputs w conn peer req :
  demo_server ecdh rl = Ok s -> in_route req = "chat.history" ->
  let w1 := demo_run s inputs w in
  app w1 = app w ++ chat_log inputs
  /\ run_api_request (E:=ServerError) s conn peer req w1
     = (Ok (with_encryption (ApiResponse (in_request_id req) true 200
              (json_object [("messages", Array (app w ++ chat_log inputs))]) None empty_object)
            (default_encryption s)), w1).
Proof.
  intros (base & -> & Hr & Hf & He)%demo_server_shape Hreq. cbv zeta.
  pose proof (demo_run_history base inputs (app w) w Hr Hf He eq_refl) as Hh. unfold history_is in Hh.
  split; [done|]. set (w1 := demo_run _ _ _) in *.
  assert (Hfilters : forall ctx, ac_route ctx = "chat.history" ->
    run_filters (filters (demo_routes base)) ctx w1 = (Ok ctx, w1)).
  { intros ctx Hc. cbn. rewrite Hf. cbn. unfold mbind, M_bind, demo_filter. rewrite Hc. reflexivity. }
  assert (Hroute : routes (demo_routes base) !! "chat.history" = Some history_handler) by (cbn; by rewrite Hr).
  unfold run_api_request. unfold mbind at 1, M_bind at 1, get at 1. cbv beta zeta iota.
  unfold m_try. unfold mbind at 1, M_bind at 1. rewrite Hfilters by done. cbn [ac_route]. rewrite Hreq, Hroute.
  unfold catch_unwind, history_handler, mbind, M_bind, get. cbn. by rewrite Hh.
Qed.

(** The demo's answer to a failing request: the exception handler hides the error. *)
Definition demo_refusal (rid : Z) (name conn : string) (status : Z) : PacketBody :=
  ApiResponse rid false status empty_object
    (Some (mkErrorPayload "internal_error" "server failed to process the message" 500
       (Some (json_object [("target", Str name); ("request_id", num rid); ("connection_id", Str conn)]))))
    empty_object.

Lemma demo_error_hidden {E} base conn rid name err w : api_code err <> "not_found" ->
  api_error_packet (E:=E) (demo_routes base) conn (Some rid) name err w
  = (Ok (with_encryption (demo_refusal rid name conn (api_status err)) (default_encryption (demo_routes base))), w).
Proof.
  intros Hc. unfold api_error_packet, map_exception. cbn [exception_handler demo_routes event_handler route
    validated_route typed_route set_exception_handler with_handlers]. unfold demo_exception. cbn [xc_error].
  by rewrite bool_decide_false.
Qed.

(** Registration accepts exactly valid users, and hides why it refuses.  A
    [user.register] request whose parameters deserialize and pass every declared
    check (display name, username pattern, e-mail, age, login count) is answered
    with status 200 and the user's fields; any other with a failure whose payload
    says [internal_error] with status 500 and carries no validation details,
    although the response's own status is 400.  The server is left as it was. *)
Theorem register_outcome {DL : DemoLaws D} ecdh rl s conn peer req w :
  demo_server ecdh rl = Ok s -> in_route req = "user.register" ->
  let rid := in_request_id req in
  run_api_request (E:=ServerError) s conn peer req w
  = (Ok (with_encryption
      (match from_value (T:=RegisterUserParams) (in_params req) with
       | Ok p =>
           if register_checks p
           then ApiResponse rid true 200
                  (json_object [("accepted", Bool true); ("display_name", Str (rp_display_name p));
                     ("username", Str (rp_username p)); ("email", Str (rp_email p)); ("age", num (rp_age p));
                     ("login_count", num (rp_login_count p))]) None empty_object
           else demo_refusal rid "user.register" conn 400
       | Err _ => demo_refusal rid "user.register" conn 400
       | Panic => demo_refusal rid "user.register" conn 500
       end) (default_encryption s)), w).
Proof.
  intros (base & -> & Hr & Hf & He)%demo_server_shape Hreq. cbv zeta.
  assert (Hfilters : forall ctx, ac_route ctx = "user.register" ->
    run_filters (filters (demo_routes base)) ctx w = (Ok ctx, w)).
  { intros ctx Hc. cbn. rewrite Hf. cbn. unfold mbind, M_bind, demo_filter. rewrite Hc. reflexivity. }
  unfold run_api_request. unfold mbind at 1, M_bind at 1, get at 1. cbv beta zeta iota.
  unfold m_try. unfold mbind at 1, M_bind at 1. rewrite Hfilters by done. cbn [ac_route]. rewrite Hreq.
  match goal with |- context [match ?o with Some _ => _ | None => _ end] =>
    assert (o = Some (fun ctx => let '(params, ctx) := bind_take (T:=RegisterUserParams) ctx in
      params ← lift (params ≫= fun params => map_err validation_failed (validate params) ≫= fun _ => Ok params);
      register_handler ctx params)) as -> by (cbn; by rewrite Hr) end.
  unfold bind_take, bind_value, catch_unwind. cbn [ac_params].
  destruct (from_value (in_params req)) as [p|t|]; [|run_M; by apply demo_error_hidden..].
  cbn [map_err mbind result_bind]. pose proof (register_validates p) as Hv.
  destruct (register_checks p); [rewrite Hv; run_M; reflexivity|].
  destruct Hv as [e ->]. run_M. by apply demo_error_hidden.
Qed.

(** ** The demo client *)

(** The requests and the event of [demo_client]'s [main], in its order. *)
Definition demo_client_calls : list (string * Value * list FileAttachment) :=
  [("system.echo",
    json_object [("message", Str "hello from Rust client"); ("sample_file", param_ref "note-1")],
    [inline_text "note-1" "hello.txt" "text/plain" "sample attachment from client"]);
   ("files.inspect", json_object [("avatar", param_ref "avatar-1")],
    [inline_bytes "avatar-1" "avatar.bin" "application/octet-stream" [x01; x02; x03; x04]]);
   ("chat.history", json_object [], [])].
Definition demo_client_event : string * object_map := ("chat.message", {["message" := Str "hello room"]}).

Definition demo_client_config (use_ecdh : bool) : result ProtocolError WscallClientConfig :=
  if use_ecdh then Ok config_default else psk_chacha20 DEMO_CHACHA20_KEY.

(** Its handlers for pushed events. *)
Definition demo_client_handlers {A} (self : WscallClient (App:=A)) : WscallClient (App:=A) :=
  let self := on_event self "system.notice" (fun _ => mret (json_object [("received", Bool true)])) in
  on_event self "chat.message" (fun event =>
    mret (json_object [("seen", Bool true); ("event_id", num (em_event_id event))])).

(** ** The quick start *)
Definition quick_server : WscallServer (App:=unit) :=
  route server_new "system.echo" (fun ctx =>
    mret (json_object [("route", Str (ac_route ctx)); ("params", ac_params ctx)])).
End Demo.

(** ** Instances *)
Section Sample.
#[local] Existing Instances bit_json xor_x25519 prefix_sha256 plain_texts.

(** Code a derive could generate. *)
Definition field (v : Value) (key : string) : result string string :=
  ok_or ("missing field `" +:+ key +:+ "`") (value_get v key ≫= as_str).
Definition int_field (v : Value) (key : string) : result string Z :=
  ok_or ("missing field `" +:+ key +:+ "`") (value_get v key ≫= as_u64).

Program Definition sample_derives : DemoDerives := {|
  de_echo := fun v => m ← field v "message"; Ok (mkEchoParams m (value_get v "sample_file"));
  de_typed := fun v => m ← field v "message"; Ok (mkTypedEchoParams m (value_get v "sample_file"));
  de_register := fun v =>
    d ← field v "display_name"; u ← field v "username"; e ← field v "email";
    a ← int_field v "age"; l ← int_field v "login_count"; Ok (mkRegisterUserParams d u e a l);
  va_typed := fun p => if is_ok (not_blank (tp_message p)) then Ok tt else Err (VErrors []);
  va_register := fun p =>
    if is_ok (not_blank (rp_display_name p)) && bool_decide (str_len (rp_username p) <= 16)
       && bool_decide (rp_email p <> "") && is_ok (positive_int (rp_age p))
       && is_ok (non_negative_int (rp_login_count p))
    then Ok tt else Err (VErrors []);
  regex_is_match := fun _ name => bool_decide (str_len name <= 16);
  is_email := fun e => bool_decide (e <> "");
|}.
#[local] Existing Instance sample_derives.

Lemma sample_derives_laws : DemoLaws sample_derives.
Proof.
  split.
  - intros p. unfold typed_echo_checks, validate. cbn. destruct (is_ok _); eauto.
  - intros p. unfold register_checks, validate, validate_username, regex_validator. cbn.
    destruct (bool_decide (str_len (rp_username p) <= 16)); cbn; (case_match; [done|eauto]).
Qed.

(** The requests of the demo client, in its order, on one connection. *)
Definition sample_demo : WscallServer (App:=list Value) :=
  match demo_server true false with Ok s => s | _ => server_new end.
Definition demo_world : World (list Value) := mkWorld state_new ∅ None sample_entropy 0 [] [].
Definition demo_request (id : Z) (name : string) (params : Value) (atts : list FileAttachment) : ApiRequestInput :=
  mkApiRequestInput id name params atts client_metadata.
Definition demo_session : list DemoInput :=
  map (fun '(name, params, atts) => ("c1", None, inl (demo_request 1 name params atts))) (take 2 demo_client_calls)
  ++ [("c1", None, inr (mkEventEmitInput 1 demo_client_event.1 demo_client_event.2 [] client_metadata))].

Lemma chat_history_faithful_witness :
  (run_api_request (E:=ServerError) sample_demo "c1" None (demo_request 3 "chat.history" (json_object []) [])
     (demo_run sample_demo demo_session demo_world)).1
  = Ok (with_encryption (ApiResponse 3 true 200
      (json_object [("messages", Array [Object (chat_record client_metadata {["message" := Str "hello room"]} "c1")])])
      None empty_object) ChaCha20).
Proof.
  rewrite (proj2 (chat_history_faithful true false sample_demo demo_session demo_world "c1" None
    (demo_request 3 "chat.history" (json_object []) []) eq_refl eq_refl)).
  reflexivity.
Defined.

(** A user of age 0. *)
Definition bad_registration : ApiRequestInput :=
  demo_request 7 "user.register" (json_object [("display_name", Str "Ann"); ("username", Str "ann1");
    ("email", Str "a@b"); ("age", num 0); ("login_count", num 3)]) [].

Lemma register_outcome_witness :
  (run_api_request (E:=ServerError) sample_demo "c1" None bad_registration demo_world).1
  = Ok (with_encryption (demo_refusal 7 "user.register" "c1" 400) ChaCha20).
Proof.
  rewrite (register_outcome (DL:=sample_derives_laws) true false sample_demo "c1" None bad_registration demo_world eq_refl eq_refl).
  vm_compute. reflexivity.
Defined.
End Sample.
