(* ===== verification/System.v ===== *)
(** * Client and server together

    The two runtimes joined through what they write to the socket: the key
    agreement that opens a session, and a whole call, from [WscallClient::call]
    through both codecs, the server's reader, filters, route handler and writer,
    back to the client's reader and the outcome the caller receives. *)

From S2P Require Import Prelude Utf8 Json Protocol Texts Attachment PacketJson Codec RateLimiter.
From S2P Require Import Validation ServerTypes ServerRuntime ClientTypes ClientRuntime.
#[local] Open Scope Z_scope.

(** ** The session key *)
Section Handshake.
Context {J : SerdeJson} {C : Crypto} {X : X25519} {H : Sha256} {TX : ErrorTexts} {A B : Type}.
Context {CL : CryptoLaws C} {XL : X25519Laws X} {HL : Sha256Laws H}.

(** A codec ready to encrypt with ChaCha20-Poly1305. *)
Definition session_ready (k : FrameCodec) : Prop := codec_keyed k /\ wire_encryption k = ChaCha20.

Lemma session_key_codec (key : bytes) :
  blen key = 32 -> exists k, with_chacha20_key plaintext key = Ok k
    /\ session_ready k.
Proof.
  intros Hk. unfold with_chacha20_key, expect.
  destruct (aead_new _ chacha_laws key Hk) as [cipher ->].
  eexists. split; [reflexivity|]. split; [by exists cipher|reflexivity].
Qed.

(** C17: a session key is agreed.  When both sides draw a 32-byte secret, the
    client's half of the handshake, given the message the server writes, and the
    server's half, given the message the client writes, both succeed with the
    same ChaCha20 codec, ready to encrypt; each has written exactly its public
    key. *)
Theorem handshake_agreement (self : WscallClient (App:=A)) (c : Client (App:=A))
    (conn : string) (w : World B) ec es :
  use_ecdh (cconfig self) = true ->
  centropy c (cdrawn c) ECDH_KEY_LEN = Ok ec -> blen ec = ECDH_KEY_LEN ->
  entropy w (drawn w) ECDH_KEY_LEN = Ok es -> blen es = ECDH_KEY_LEN ->
  exists client_pub server_pub k c' w',
    client_handshake self (Received (MBinary server_pub)) None c = (Ok k, c')
    /\ cwire c' = cwire c ++ [MBinary client_pub]
    /\ perform_ecdh_handshake conn (Received (MBinary client_pub)) None w = (Ok k, w')
    /\ wire w' = wire w ++ [(conn, MBinary server_pub)]
    /\ session_ready k.
Proof.
  intros Hecdh Hc Hlc Hs Hls.
  set (kc := mkEcdhKeypair (secret_from ec) (public_of (secret_from ec))).
  set (ks := mkEcdhKeypair (secret_from es) (public_of (secret_from es))).
  exists (public_bytes kc), (public_bytes ks).
  assert (Hparse : forall e, blen e = ECDH_KEY_LEN ->
    let p := public_to_bytes (public_of (secret_from e)) in parse_peer_public p = Ok p).
  { intros e He. cbv zeta. unfold parse_peer_public.
    by rewrite bool_decide_false by (rewrite length_public_to_bytes by done; lia). }
  assert (Hkey : derive_session_key kc (public_bytes ks) = derive_session_key ks (public_bytes kc)).
  { unfold derive_session_key, public_bytes. cbn. by rewrite !public_from_to_bytes, dh_comm. }
  destruct (session_key_codec (derive_session_key ks (public_bytes kc))) as (k & Hk & Hready).
  { unfold derive_session_key, derive_session_key_of. apply length_sha256. }
  exists k. do 2 eexists. split_and!; [| |..|done].
  - unfold client_handshake. rewrite Hecdh. unfold mbind, M_bind, m_map_err, lift, cws_send.
    rewrite Hc. unfold generate. msimpl. fold kc. unfold public_bytes at 1. cbn [public ks].
    rewrite (Hparse es Hls). cbn [map_err].
    change (public_to_bytes (public_of (secret_from es))) with (public_bytes ks).
    rewrite Hkey, Hk. reflexivity.
  - reflexivity.
  - unfold perform_ecdh_handshake, ws_send. unfold mbind, M_bind, lift.
    rewrite Hs. unfold generate. msimpl. fold ks. unfold public_bytes at 1. cbn [public kc].
    rewrite (Hparse ec Hlc). cbn [map_err].
    change (public_to_bytes (public_of (secret_from ec))) with (public_bytes kc).
    rewrite Hk. reflexivity.
  - reflexivity.
Qed.
End Handshake.

(** ** A whole call *)

(** The last message written, when it is a binary one. *)
Definition last_frame (ms : list Message) : option bytes :=
  match rev ms with MBinary f :: _ => Some f | _ => None end.
(** What a connection's socket was given. *)
Definition socket_of {B} (conn : string) (w : World B) : list Message :=
  map snd (base.filter (fun m => m.1 = conn) (wire w)).

Lemma socket_of_written {B} conn m (w w' : World B) :
  wire w' = wire w ++ [(conn, m)] -> socket_of conn w' = socket_of conn w ++ [m].
Proof.
  intros Hw. unfold socket_of. by rewrite Hw, list.filter_app, map_app, list.filter_cons_True.
Qed.

Lemma last_frame_written f ms : last_frame (ms ++ [MBinary f]) = Some f.
Proof. unfold last_frame. by rewrite rev_unit. Qed.

Section Call.
Context {J : SerdeJson} {C : Crypto} {X : X25519} {H : Sha256} {TX : ErrorTexts} {A B : Type}.
Context {JL : SerdeJsonLaws J} {CL : CryptoLaws C}.
Context (self : WscallClient (App:=A))
        (s : WscallServer (App:=B)) (conn : string) (peer : SocketAddr).

(** Codecs with the same keys and wire mode; their limits may differ. *)
Definition same_keys (k k' : FrameCodec) : Prop := k' = with_max_frame_bytes k (max_frame_bytes k').

(** What one side encodes, the other decodes, if the frame is within its limit. *)
Lemma decode_across k k' nonce body e frame :
  blen nonce = 12 -> 0 <= max_frame_bytes k <= 2 ^ 32 -> body_ok body -> same_keys k k' ->
  encode k (Ok nonce) (with_encryption body e) = Ok frame -> blen frame <= max_frame_bytes k' ->
  decode k' frame = Ok {| env_message_type := message_type body;
                          env_encryption := wire_encryption k; env_body := norm_body body |}
  /\ header_ok (max_frame_bytes k') frame.
Proof.
  intros Hn Hm [Hb Hcount] Hk He Hf.
  assert (Hd : decode k frame = Ok {| env_message_type := message_type body;
             env_encryption := wire_encryption k; env_body := norm_body body |}).
  { rewrite (decode_encode k (Ok nonce) (with_encryption body e) frame);
      cbn [env_body env_message_type with_encryption]; [|naive_solver|done..].
    do 2 f_equal. pose proof (blen_nonneg (attachments body)).
    rewrite Z.mod_small, take_ge by (unfold blen in *; lia). by destruct body. }
  apply decode_inv in Hd as (payload & comp & -> & _ & Hp & Ho & Hc & Hmt & _).
  cbn [env_message_type env_body] in *. rewrite blen_frame_layout in Hf. split.
  - rewrite decode_frame_layout by lia. rewrite Hk.
    change (open_payload (with_max_frame_bytes k _) payload) with (open_payload k payload).
    rewrite Ho. msimpl. rewrite Hc. msimpl. rewrite Hmt. by rewrite bool_decide_false by naive_solver.
  - eexists (message_type_u8 _ :: payload). unfold frame_layout. rewrite blen_cons.
    pose proof (blen_nonneg payload). split_and!; [done|lia..].
Qed.

(** One call over an open connection: the client sends, the server reads, runs
    the handler task and writes, the client reads. *)
Definition exchange (gen : Z) (cc sc : FrameCodec) (now : Z) (route : string) (params : Value)
    (atts : list FileAttachment) (c : Client (App:=A)) (w : World B) :
    option (result ClientError Value) :=
  match call_begin self route params atts c with
  | (Ok rid, c1) =>
      let c2 := (writer_task self gen cc None c1).2 in
      request ← last_frame (cwire c2);
      match reader_step s conn peer sc now (Received (MBinary request)) w with
      | (Ok (SpawnHandler packet), w1) =>
          let w2 := (process_packet s conn (Some peer) packet w1).2 in
          let w3 := writer_step conn sc None w2 in
          response ← last_frame (socket_of conn w3);
          let c3 := (reader_task self gen cc (Received (MBinary response)) c2).2 in
          (call_poll rid false c3).1
      | _ => None
      end
  | _ => None
  end.

(** The client's half up to the socket. *)
Lemma call_written gen cc route params atts c nonce frame :
  let rid := next_request_id c + 1 in
  let body := ApiRequest rid route params atts client_metadata in
  calls_wf c -> next_request_id c < 2 ^ 64 - 1 -> is_connected c = true -> writer c = Some gen ->
  cchannels c !! gen = Some (mkCChannel [] true) ->
  centropy c (cdrawn c) CHACHA20_NONCE_LEN = Ok nonce ->
  encode cc (Ok nonce) (with_encryption body (cfg_default_encryption (cconfig self))) = Ok frame ->
  exists c1, call_begin self route params atts c = (Ok rid, c1)
    /\ let c2 := (writer_task self gen cc None c1).2 in
       cwire c2 = cwire c ++ [MBinary frame] /\ rid ∈ pending_api c2.
Proof.
  cbv zeta. intros ([Hr _] & _) Hid Hconn Hw Hch Hn He.
  rewrite call_begin_cases. cbv zeta. rewrite wrap_small by lia. rewrite Hconn. cbn [negb].
  unfold send_outbound. unfold mbind, M_bind, get. cbn [writer on_pending]. rewrite Hw.
  unfold m_map_err, csend. cbn [cchannels on_pending]. rewrite Hch. cbn [creceiver cqueue]. rewrite app_nil_l.
  eexists. split; [reflexivity|].
  unfold writer_task, client_writer_step. unfold mbind, M_bind, get.
  cbn [cchannels set_cchannels on_flags on_pending]. rewrite lookup_insert_eq.
  unfold modify, client_write. unfold mbind, M_bind, m_try, client_encode.
  cbn [centropy cdrawn set_cchannels on_flags on_pending]. rewrite Hn, He. cbn.
  split; [done|set_solver].
Qed.

(** The server's half up to the handler task. *)
Lemma request_read sc now frame env v w w1 :
  header_ok (server_max_frame_bytes s) frame -> decode sc frame = Ok env ->
  is_data_message (env_body env) = true ->
  check_limiter (E:=ServerError) conn (fst peer) (blen frame) now w = (Ok v, w1) ->
  v = None \/ v = Some Allowed ->
  reader_step s conn peer sc now (Received (MBinary frame)) w = (Ok (SpawnHandler env), w1).
Proof.
  intros Hh Hd Hdata Hl Hv. cbn [reader_step].
  destruct (on_binary_header s conn peer sc now frame w) as [-> _]; [|done].
  unfold mbind, M_bind, lift. rewrite Hd. cbn [map_err]. rewrite Hdata, Hl.
  by destruct Hv as [->| ->].
Qed.

(** The handler task and the writer. *)
Lemma response_written sc packet rid route params atts metadata resp w1 w2 entry nonce frame :
  env_body packet = ApiRequest rid route params atts metadata ->
  run_api_request s conn (Some peer) (mkApiRequestInput rid route params atts metadata) w1
    = (Ok (E:=ServerError) resp, w2) ->
  clients (state w2) !! conn = Some entry -> sender entry = conn ->
  channels w2 !! conn = Some (mkChannel [] true) ->
  entropy w2 (drawn w2) CHACHA20_NONCE_LEN = Ok nonce ->
  encode (if is_ecdh s then sc else codec s) (Ok nonce) resp = Ok frame ->
  wire (writer_step conn sc None (process_packet s conn (Some peer) packet w1).2)
  = wire w2 ++ [(conn, MBinary frame)].
Proof.
  intros Hb Hrun Hcl Hs Hch Hn He. unfold process_packet. rewrite Hb.
  unfold mbind, M_bind. rewrite Hrun. unfold queue_for. unfold mbind, M_bind, get.
  rewrite Hcl. unfold mret, M_ret. rewrite Hs. destruct (is_ecdh s).
  - unfold m_map_err, send. rewrite Hch. cbn [receiver queue]. rewrite app_nil_l. cbn [snd].
    unfold writer_step. cbn [channels set_channels]. rewrite lookup_insert_eq.
    unfold write_outbound. unfold mbind, M_bind, m_map_err, codec_encode.
    cbn [entropy drawn set_channels]. by rewrite Hn, He.
  - unfold m_map_err, codec_encode, send. rewrite Hn, He. cbn [channels set_drawn].
    rewrite Hch. cbn [receiver queue]. cbn [map_err]. rewrite app_nil_l. cbn [snd].
    unfold writer_step. cbn [channels set_channels]. by rewrite lookup_insert_eq.
Qed.

(** The client's half from the socket on. *)
Lemma response_delivered gen cc frame env rid ok st data err meta (c : Client (App:=A)) :
  decode cc frame = Ok env -> env_body env = ApiResponse rid ok st data err meta ->
  rid ∈ pending_api c ->
  (call_poll rid false (reader_task self gen cc (Received (MBinary frame)) c).2).1
  = Some (remote_outcome ok data err).
Proof.
  intros Hd Hb Hin. unfold reader_task, client_reader_step. unfold mbind, M_bind.
  rewrite Hd, Hb. unfold handle_packet. rewrite Hb. cbn.
  rewrite bool_decide_true by done. unfold call_poll. cbn. by rewrite lookup_insert_eq.
Qed.

(** A connection over which the client can call, and the server answer. *)
Definition client_ready (gen : Z) (c : Client (App:=A)) : Prop :=
  calls_wf c /\ next_request_id c < 2 ^ 64 - 1 /\ is_connected c = true
  /\ writer c = Some gen /\ cchannels c !! gen = Some (mkCChannel [] true).
Definition server_ready (w : World B) : Prop :=
  (exists entry, clients (state w) !! conn = Some entry /\ sender entry = conn)
  /\ channels w !! conn = Some (mkChannel [] true).

(** C2: a call returns what the route handler returned.  Over an open connection
    whose two ends hold the same keys (agreed or pre-shared, in any wire mode),
    when the request and the response are representable and within the limits
    and the rate limiter lets the request through, the caller of
    [WscallClient::call] receives exactly the outcome of running the request on
    the server: its data, or its remote error. *)
Theorem call_end_to_end gen cc sc now route params atts c w nonce1 frame1 v w1
    ok st data err meta e w2 nonce2 frame2 :
  let rid := next_request_id c + 1 in
  let request := ApiRequest rid route params atts client_metadata in
  let response := ApiResponse rid ok st data err meta in
  let ks := if is_ecdh s then sc else codec s in
  client_ready gen c ->
  same_keys cc sc -> same_keys ks cc -> max_frame_bytes sc = server_max_frame_bytes s ->
  0 <= max_frame_bytes cc <= 2 ^ 32 -> 0 <= max_frame_bytes ks <= 2 ^ 32 ->
  body_ok request -> body_ok response ->
  centropy c (cdrawn c) CHACHA20_NONCE_LEN = Ok nonce1 -> blen nonce1 = 12 ->
  encode cc (Ok nonce1) (with_encryption request (cfg_default_encryption (cconfig self))) = Ok frame1 ->
  blen frame1 <= max_frame_bytes sc ->
  check_limiter (E:=ServerError) conn (fst peer) (blen frame1) now w = (Ok v, w1) ->
  v = None \/ v = Some Allowed ->
  run_api_request s conn (Some peer) (mkApiRequestInput rid route params atts client_metadata) w1
    = (Ok (E:=ServerError) (with_encryption response e), w2) ->
  server_ready w2 ->
  entropy w2 (drawn w2) CHACHA20_NONCE_LEN = Ok nonce2 -> blen nonce2 = 12 ->
  encode ks (Ok nonce2) (with_encryption response e) = Ok frame2 ->
  blen frame2 <= max_frame_bytes cc ->
  exchange gen cc sc now route params atts c w
  = Some (remote_outcome ok data (norm_error <$> err)).
Proof.
  cbv zeta. intros (Hwf & Hid & Hconn & Hwr & Hch) Hk1 Hk2 Hmax Hm1 Hm2 Hreq Hresp Hn1 Hl1 He1 Hf1
    Hlim Hv Hrun ((entry & Hcl & Hs) & Hsch) Hn2 Hl2 He2 Hf2.
  destruct (call_written gen cc route params atts c nonce1 frame1 Hwf Hid Hconn Hwr Hch Hn1 He1)
    as (c1 & Hc1 & Hwire & Hpend).
  destruct (decode_across cc sc nonce1 _ _ _ Hl1 Hm1 Hreq Hk1 He1 Hf1) as [Hd1 Hh].
  destruct (decode_across _ cc nonce2 _ _ _ Hl2 Hm2 Hresp Hk2 He2 Hf2) as [Hd2 _].
  unfold exchange. rewrite Hc1. cbv zeta. rewrite Hwire, last_frame_written. cbn [mbind option_bind].
  erewrite request_read; [|by rewrite <- Hmax|exact Hd1|reflexivity|exact Hlim|exact Hv].
  cbn [norm_body env_body].
  rewrite (socket_of_written conn (MBinary frame2) w2), last_frame_written.
  - cbn [mbind option_bind]. by eapply response_delivered.
  - by apply (response_written sc _ (next_request_id c + 1) route params atts client_metadata
      (with_encryption (ApiResponse (next_request_id c + 1) ok st data err meta) e)
      w1 w2 entry nonce2 frame2).
Qed.
End Call.

(** ** Instances *)
Section Sample.
#[local] Existing Instances bit_json xor_x25519 prefix_sha256 plain_texts.

Lemma handshake_agreement_witness :
  exists client_pub server_pub k c w,
    client_handshake (client_new (App:=unit) "ws://a/socket" config_default)
      (Received (MBinary server_pub)) None (client_init sample_entropy tt) = (Ok k, c)
    /\ cwire c = [MBinary client_pub]
    /\ perform_ecdh_handshake "c1" (Received (MBinary client_pub)) None fresh_world = (Ok k, w)
    /\ wire w = [("c1", MBinary server_pub)]
    /\ session_ready k.
Proof.
  exact (handshake_agreement (CL:=tagged_crypto_laws) (XL:=xor_x25519_laws) (HL:=prefix_sha256_laws)
    (client_new (App:=unit) "ws://a/socket" config_default) (client_init sample_entropy tt)
    "c1" fresh_world (replicate 32 x09) (replicate 32 x09) eq_refl eq_refl eq_refl eq_refl eq_refl).
Defined.

(** A server and a client that share an AES-256 key; the server's limit is 4 KiB. *)
Definition shared_codec : FrameCodec :=
  {| aes256_cipher := Some (replicate 32 x07); chacha20_cipher := None;
     wire_encryption := Aes256; max_frame_bytes := DEFAULT_MAX_FRAME_BYTES |}.
Definition shared_server : WscallServer (App:=unit) :=
  server_with_max_frame_bytes
    (route (with_codec server_new shared_codec Aes256) "echo" (fun ctx => mret (ac_params ctx))) 4096.
Definition shared_client : WscallClient (App:=unit) :=
  client_new "ws://a/socket" (mkWscallClientConfig shared_codec Aes256 true false [] None).
Definition server_session : FrameCodec := with_max_frame_bytes shared_codec 4096.

Definition shared_request : PacketBody := ApiRequest 1 "echo" (Str "hi") [] client_metadata.
Definition shared_response : PacketBody := ApiResponse 1 true 200 (Str "hi") None empty_object.
Definition shared_frame (body : PacketBody) : bytes :=
  match encode shared_codec (Ok (replicate 12 x09)) (with_encryption body Aes256) with
  | Ok frame => frame | _ => [] end.

Lemma shared_request_ok : body_ok shared_request.
Proof.
  split; [split_and!|reflexivity].
  - cbn. unfold in_u. lia.
  - vm_compute. reflexivity.
  - constructor.
Qed.
Lemma shared_response_ok : body_ok shared_response.
Proof.
  split; [split_and!|reflexivity].
  - cbn. unfold in_u. split_and!; try lia. constructor.
  - vm_compute. reflexivity.
  - constructor.
Qed.

Lemma call_end_to_end_witness :
  exchange shared_client shared_server "c1" peer1 1 shared_codec server_session 0
    "echo" (Str "hi") [] sample_connected sample_world = Some (Ok (Str "hi")).
Proof.
  refine (call_end_to_end (JL:=bit_json_laws) (CL:=tagged_crypto_laws) shared_client
    shared_server "c1" peer1 1 shared_codec server_session 0 "echo" (Str "hi") [] sample_connected
    sample_world (replicate 12 x09) (shared_frame shared_request) None sample_world
    true 200 (Str "hi") None empty_object Aes256 sample_world (replicate 12 x09)
    (shared_frame shared_response) _ _ _ _ _ _ _ _ _ _ _ _ _ _ _ _ _ _ _ _).
  - split_and!; [exact sample_connected_wf|reflexivity..].
  - reflexivity.
  - reflexivity.
  - reflexivity.
  - split; vm_compute; discriminate.
  - split; vm_compute; discriminate.
  - exact shared_request_ok.
  - exact shared_response_ok.
  - reflexivity.
  - reflexivity.
  - vm_compute. reflexivity.
  - vm_compute. discriminate.
  - reflexivity.
  - left. reflexivity.
  - reflexivity.
  - split; [|reflexivity]. eexists. split; reflexivity.
  - reflexivity.
  - reflexivity.
  - vm_compute. reflexivity.
  - vm_compute. discriminate.
Defined.
End Sample.
