(* ===== verification/Session.v ===== *)
(** * A session: client, network and server under any schedule

    One connection of a [WscallClient] (generation [gen]) with a server
    (connection [conn]).  Between the client's calls, tasks and [close], the
    server's reader, permits, handler tasks and writer for this connection, the
    rest of the server, and the two directions of the socket, anything may happen
    in any order.  Frames travel as the bytes that [encode] produced.

    The requests the client made and those the server executed, with the outcomes,
    are recorded beside the state ([calls], [served]); the steps only add to them.

    The invariant ([joint_ok]) says where each request is: in the client's queue,
    in a frame, with the reader or a task of the server, or executed, and in one of
    these places only.  What each step keeps is proved for the server and the
    client apart ([world_ok], [client_inv]), from the closure lemmas of
    [preserves]. *)

From S2P Require Import Prelude Utf8 Json Protocol Texts Attachment PacketJson Codec RateLimiter.
From S2P Require Import Validation ServerTypes ServerRuntime ServerSystem ClientTypes ClientRuntime System.
#[local] Open Scope Z_scope.

(** What the client asked for. *)
Abbreviation Asked := (string * Value * list FileAttachment)%type.
(** The requests executed, with the outcome of [run_api_request]. *)
Abbreviation Served := (list (Z * result ServerError PacketEnvelope)).

Section Session.
Context {J : SerdeJson} {C : Crypto} {X : X25519} {H : Sha256} {TX : ErrorTexts} {A B : Type}.
Context {JL : SerdeJsonLaws J} {CL : CryptoLaws C}.
Abbreviation Cl := (Client (App:=A)).
Abbreviation W := (World B).
Context (self : WscallClient (App:=A)).
Context (s : WscallServer (App:=B)) (conn : string) (peer : SocketAddr).
Context (gen : Z) (cc sc : FrameCodec).
Implicit Types (c : Cl) (w : W) (calls : gmap Z Asked) (served : Served).

(** ** The parties *)
Record Joint : Type := mkJoint {
  client : Cl;
  link : Connection;
  world : W;
  up : list Message;
  down : list Message;
  calls : gmap Z Asked;
  served : Served;
}.

(** Both ends hold the same keys; without ECDH the server encodes with its own
    codec. *)
Definition codecs_agree : Prop :=
  same_keys cc sc /\ same_keys sc cc /\ (is_ecdh s = false -> same_keys (codec s) cc)
  /\ 0 <= max_frame_bytes cc <= 2 ^ 32 /\ 0 <= max_frame_bytes sc <= 2 ^ 32
  /\ 0 <= max_frame_bytes (codec s) <= 2 ^ 32.

(** ** Steps *)

(** What the handler task of a packet executes. *)
Definition computed (packet : PacketEnvelope) w : Served :=
  match env_body packet with
  | ApiRequest id route params atts md =>
      [(id, (run_api_request s conn (Some peer) (mkApiRequestInput id route params atts md) w).1)]
  | _ => []
  end.

(** What was written to this connection's socket. *)
Definition written (w w' : W) : list Message :=
  map snd (base.filter (fun m => m.1 = conn) (drop (length (wire w)) (wire w'))).

(** The rest of the server: the steps of its connections apart from those that
    have a client here, which [foreign] tells from them. *)
Inductive other_step (foreign : string -> Prop) : W -> W -> Prop :=
| OConnect conn' peer' now hello auth f1 f2 w :
    foreign conn' -> other_step foreign w (connect s conn' peer' now hello auth f1 f2 w).2
| ORead conn' peer' rc now next w :
    foreign conn' -> other_step foreign w (reader_step s conn' peer' rc now next w).2
| OTask conn' peer' packet w :
    foreign conn' -> other_step foreign w (process_packet s conn' peer' packet w).2
| OWrite conn' rc failure w : foreign conn' -> other_step foreign w (writer_step conn' rc failure w)
| OBeat conn' failure w : foreign conn' -> other_step foreign w (heartbeat conn' failure w)
| ONotice conn' w : other_step foreign w (send_notice s conn' w).2
| OBroadcast name data atts w : other_step foreign w (broadcast_event (handle s) name data atts w).2
| OSendTo conn' name data atts w : other_step foreign w (send_event_to (handle s) conn' name data atts w).2
| OClosing conn' w : other_step foreign w (begin_teardown conn' w).2
| OClosed conn' peer' r w : other_step foreign w (end_teardown s conn' peer' r w).2
| OCleanup now w : other_step foreign w (cleanup_tick now w).

(** The application's side of the client, and its event handlers. *)
Inductive app_step : Cl -> Cl -> Prop :=
| APoll id timed_out c : app_step c (call_poll id timed_out c).2
| AEvent name data atts c : app_step c (event_begin self name data atts c).2
| AEventPoll id timed_out c : app_step c (event_poll id timed_out c).2
| AHandle packet c : is_event_emit (env_body packet) = true -> app_step c (handle_packet self packet c).2
| AClose c : app_step c (close self c).2.

(** The tasks of the connection at both ends. *)
Inductive link_step : Joint -> Joint -> Prop :=
| LWrite failure c k w u d ca se :
    let c' := (writer_task self gen cc failure c).2 in
    link_step (mkJoint c k w u d ca se)
      (mkJoint c' k w (u ++ drop (length (cwire c)) (cwire c')) d ca se)
| LWriterEnds c k w u d ca se :
    link_step (mkJoint c k w u d ca se) (mkJoint (writer_stopped self gen c).2 k w u d ca se)
| LBeat c k w u d ca se :
    link_step (mkJoint c k w u d ca se) (mkJoint (heartbeat_task self gen c).2 k w u d ca se)
| LRead m c k w u d ca se :
    link_step (mkJoint c k w u (m :: d) ca se)
      (mkJoint (reader_task self gen cc (Received m) c).2 k w u d ca se)
| LLost next c k w u d ca se :
    (forall m, next <> Received m) ->
    link_step (mkJoint c k w u d ca se)
      (mkJoint (reader_task self gen cc next c).2 k w u d ca se)
| LServe m now c k w u d ca se :
    reader k = Reading ->
    link_step (mkJoint c k w (m :: u) d ca se)
      (mkJoint c (conn_read s conn peer sc now (Received m) k w).1
         (conn_read s conn peer sc now (Received m) k w).2 u d ca se)
| LAcquire c k w u d ca se :
    link_step (mkJoint c k w u d ca se) (mkJoint c (conn_acquire k) w u d ca se)
| LFinish i packet c k w u d ca se :
    tasks k !! i = Some packet ->
    link_step (mkJoint c k w u d ca se)
      (mkJoint c (conn_finish s conn peer i k w).1 (conn_finish s conn peer i k w).2 u d ca
         (se ++ computed packet w))
| LServerWrite failure c k w u d ca se :
    let w' := writer_step conn sc failure w in
    link_step (mkJoint c k w u d ca se) (mkJoint c k w' u (d ++ written w w') ca se)
| LServerBeat failure c k w u d ca se :
    let w' := heartbeat conn failure w in
    link_step (mkJoint c k w u d ca se) (mkJoint c k w' u (d ++ written w w') ca se).

Inductive joint_step : Joint -> Joint -> Prop :=
| JCall route params atts c k w u d ca se :
    (forall id, in_u 64 id -> body_ok (ApiRequest id route params atts client_metadata)) ->
    joint_step (mkJoint c k w u d ca se)
      (mkJoint (call_begin self route params atts c).2 k w u d
         (if is_connected c then <[wrap 64 (next_request_id c + 1) := (route, params, atts)]> ca else ca) se)
| JApp c c' k w u d ca se :
    app_step c c' -> joint_step (mkJoint c k w u d ca se) (mkJoint c' k w u d ca se)
| JLink j j' : link_step j j' -> joint_step j j'
| JOther w' c k w u d ca se :
    other_step (fun conn' => conn' <> conn) w w' ->
    joint_step (mkJoint c k w u d ca se) (mkJoint c k w' u d ca se).

(** ** What travels *)

(** A request as the server sees it is one the client made. *)
Definition request_ok calls (b : PacketBody) : Prop :=
  match b with
  | ApiRequest id route params atts md => calls !! id = Some (route, params, atts) /\ md = client_metadata
  | _ => True
  end.
Definition request_frame_ok calls (f : bytes) : Prop :=
  forall env, decode sc f = Ok env -> request_ok calls (env_body env).
Definition up_ok calls (m : Message) : Prop :=
  match m with MBinary f => request_frame_ok calls f | _ => True end.
(** A message in the client's queue. *)
Definition queued_ok calls (m : ClientOutbound) : Prop :=
  match m with
  | CPacket p =>
      env_message_type p = message_type (env_body p) /\ request_ok calls (env_body p)
      /\ match env_body p with
         | ApiRequest _ _ _ _ _ => body_ok (env_body p)
         | ApiResponse _ _ _ _ _ _ => False
         | _ => True
         end
  | _ => True
  end.

(** A response is for no request (a rejected frame), a rate-limit refusal, or one
    that a handler computed. *)
Definition busy_error : ErrorPayload := mkErrorPayload "service_busy" "rate limit exceeded" 503 None.
Definition response_ok served (b : PacketBody) : Prop :=
  match b with
  | ApiResponse id ok st data err md =>
      id = 0
      \/ (ok = false /\ err = Some busy_error)
      \/ exists p, (id, Ok p) ∈ served /\ norm_body (env_body p) = b
  | _ => True
  end.
Definition response_frame_ok served (f : bytes) : Prop :=
  forall env, decode cc f = Ok env -> response_ok served (env_body env).
Definition down_ok served (m : Message) : Prop :=
  match m with MBinary f => response_frame_ok served f | _ => True end.
(** A packet the server is going to encode. *)
Definition packet_ok served (p : PacketEnvelope) : Prop :=
  env_message_type p = message_type (env_body p)
  /\ match env_body p with
     | ApiResponse _ _ _ _ _ _ => body_ok (env_body p) /\ response_ok served (norm_body (env_body p))
     | ApiRequest _ _ _ _ _ => False
     | _ => True
     end.
Definition out_ok served (m : ServerOutbound) : Prop :=
  match m with
  | PreEncoded f => response_frame_ok served f
  | Packet p => packet_ok served p
  | _ => True
  end.

(** The calls are representable, and so are the responses to representable
    requests. *)
Definition calls_fit calls : Prop :=
  map_Forall (fun id (q : Asked) => body_ok (ApiRequest id q.1.1 q.1.2 q.2 client_metadata)) calls.
Definition answered id (q : Asked) (r : result ServerError PacketEnvelope) : Prop :=
  exists w, (run_api_request s conn (Some peer) (mkApiRequestInput id q.1.1 q.1.2 q.2 client_metadata) w).1 = r.
Definition responses_fit : Prop :=
  forall id (q : Asked) p, body_ok (ApiRequest id q.1.1 q.1.2 q.2 client_metadata) -> answered id q (Ok p) ->
    body_ok (env_body p).

(** *** Frames keep their type, and what is representable keeps its content *)
Lemma decode_type k k' nonce p f env :
  (forall bs, nonce = Ok bs -> blen bs = 12) -> 0 <= max_frame_bytes k <= 2 ^ 32 ->
  encode k nonce p = Ok f -> decode k' f = Ok env -> message_type (env_body env) = env_message_type p.
Proof.
  intros Hn Hm He (payload & comp & Hf & _ & _ & _ & _ & -> & _)%decode_inv.
  apply encode_inv in He as (text & payload' & _ & -> & _); [|done|lia].
  unfold frame_layout in Hf. injection Hf as _ _ _ _ Hmt _.
  apply (f_equal message_type_try_from) in Hmt. rewrite !message_type_try_from_u8 in Hmt. congruence.
Qed.

Lemma frame_layout_inj mt mt' pl pl' : frame_layout mt pl = frame_layout mt' pl' -> pl = pl'.
Proof. unfold frame_layout. by intros [=]. Qed.

Lemma decode_content k k' nonce body e f env :
  (forall bs, nonce = Ok bs -> blen bs = 12) -> 0 <= max_frame_bytes k <= 2 ^ 32 -> same_keys k k' ->
  body_ok body -> encode k nonce (with_encryption body e) = Ok f -> decode k' f = Ok env ->
  env_body env = norm_body body.
Proof.
  intros Hn Hm Hk [Hb Hcount] He (payload & comp & -> & _ & _ & Ho & Hc & _ & _)%decode_inv.
  assert (Hd : decode k (frame_layout (env_message_type env) payload)
    = Ok {| env_message_type := message_type body; env_encryption := wire_encryption k; env_body := norm_body body |}).
  { rewrite (decode_encode k nonce (with_encryption body e) _ Hn Hm Hb eq_refl He).
    cbn [env_body env_message_type with_encryption]. do 2 f_equal. pose proof (blen_nonneg (attachments body)).
    rewrite Z.mod_small, take_ge by (unfold blen in *; lia). by destruct body. }
  apply decode_inv in Hd as (payload' & comp' & Hf & _ & _ & Ho' & Hc' & _). cbn [env_body] in Hc'.
  apply frame_layout_inj in Hf as <-. rewrite Hk in Ho.
  change (open_payload (with_max_frame_bytes k _) payload) with (open_payload k payload) in Ho. congruence.
Qed.

(** The client's requests across the wire. *)
Lemma request_transit calls nonce p f :
  (forall bs, nonce = Ok bs -> blen bs = 12) -> codecs_agree ->
  queued_ok calls (CPacket p) -> encode cc nonce p = Ok f -> request_frame_ok calls f.
Proof.
  intros Hn (Hk & _ & _ & Hm & _) (Hmt & Hreq & Hb) He env Hd.
  pose proof (decode_type cc sc nonce p f env Hn Hm He Hd) as Ht.
  destruct p as [mt enc body]. cbn [env_message_type env_body] in *. subst mt.
  destruct body; try done; try (destruct (env_body env); done).
  rewrite (decode_content cc sc nonce _ enc f env Hn Hm Hk Hb He Hd). cbn in *. destruct Hreq as [Hc ->]. by split.
Qed.

(** The server's packets, whichever of its codecs encodes them. *)
Lemma response_transit served k nonce p f :
  (forall bs, nonce = Ok bs -> blen bs = 12) -> 0 <= max_frame_bytes k <= 2 ^ 32 -> same_keys k cc ->
  packet_ok served p -> encode k nonce p = Ok f -> response_frame_ok served f.
Proof.
  intros Hn Hm Hk [Hmt Hb] He env Hd. pose proof (decode_type k cc nonce p f env Hn Hm He Hd) as Ht.
  destruct p as [mt enc body]. cbn [env_message_type env_body] in *. subst mt.
  destruct body; try done; try (destruct (env_body env); done).
  destruct Hb as [Hb Hr]. by rewrite (decode_content k cc nonce _ enc f env Hn Hm Hk Hb He Hd).
Qed.

(** ** The server's side *)
Section Server.
Context (Hag : codecs_agree).

Definition world_ok served w : Prop :=
  clients_wf w /\ entropy_ok w
  /\ forall ch, channels w !! conn = Some ch -> Forall (out_ok served) (queue ch).

Lemma entropy_nonce w n bs : entropy_ok w -> entropy w n CHACHA20_NONCE_LEN = Ok bs -> blen bs = 12.
Proof. intros He Hn. specialize (He n CHACHA20_NONCE_LEN ltac:(done)). rewrite Hn in He. exact He. Qed.

Lemma world_channels served w key ch : world_ok served w ->
  (key = conn -> Forall (out_ok served) (queue ch)) ->
  world_ok served (set_channels w (<[key := ch]> (channels w))).
Proof.
  intros (Hwf & He & Hq) Hch. split_and!; [done|done|]. cbn.
  intros ch' [[<- <-]|[_ Hl]]%lookup_insert_Some; [by apply Hch|by apply Hq].
Qed.

Lemma world_send served key m : (key = conn -> out_ok served m) -> preserves (world_ok served) (send (App:=B) key m).
Proof.
  intros Hm w Hw. unfold send. destruct (channels w !! key) as [ch|] eqn:Hl; [|done].
  destruct (receiver ch); [|done]. apply world_channels; [done|]. intros ->. cbn [queue].
  apply Forall_app. split; [by apply Hw|]. apply Forall_singleton. by apply Hm.
Qed.
Lemma world_try_send served key m : (key = conn -> out_ok served m) ->
  preserves (world_ok served) (try_send (App:=B) key m).
Proof.
  intros Hm w Hw. unfold try_send. destruct (channels w !! key) as [ch|] eqn:Hl; [|done]. cbn.
  unfold chan_try_send. destruct (_ && _); [|done]. apply world_channels; [done|]. intros ->. cbn [queue].
  apply Forall_app. split; [by apply Hw|]. apply Forall_singleton. by apply Hm.
Qed.

Lemma world_encode served k p : preserves (world_ok served) (codec_encode (App:=B) k p).
Proof. by intros w. Qed.

(** A frame the server encodes is in order. *)
Lemma encoded_ok served k p w f : world_ok served w -> packet_ok served p ->
  same_keys k cc -> 0 <= max_frame_bytes k <= 2 ^ 32 ->
  (codec_encode k p w).1 = Ok f -> response_frame_ok served f.
Proof.
  intros (_ & He & _) Hp Hk Hm Henc. eapply response_transit; [|done..|exact Henc].
  intros bs. by apply entropy_nonce.
Qed.

(** What is computed from the world in order is in order. *)
Lemma encoded_from served k p f :
  packet_ok served p -> same_keys k cc -> 0 <= max_frame_bytes k <= 2 ^ 32 ->
  (exists w, world_ok served w /\ (codec_encode (App:=B) k p w).1 = Ok f) -> response_frame_ok served f.
Proof. intros Hp Hk Hm (w & Hw & He). by eapply encoded_ok. Qed.

Lemma map_err_result {E F R} (f : E -> F) (m : M W E R) w a : (m_map_err f m w).1 = Ok a -> (m w).1 = Ok a.
Proof. unfold m_map_err. destruct (m w) as [[]]; cbn; congruence. Qed.

Lemma world_queue_for served conn' p : (conn' = conn -> packet_ok served p) ->
  preserves (world_ok served) (queue_for s conn' p).
Proof.
  intros Hp. unfold queue_for. apply preserves_bind_with; [preserve|]. intros w (w0 & Hw & [= ->]).
  destruct (clients (state w) !! conn') as [entry|] eqn:Hl; [|by intros w1 Hw1].
  assert (Hs : sender entry = conn') by (by apply (proj1 Hw)).
  apply preserves_bind_with; [preserve|]. intros key (_ & _ & [= <-]). rewrite Hs.
  destruct (is_ecdh s) eqn:Hecdh; [by apply preserves_map_err, world_send|].
  apply preserves_bind_with; [apply preserves_map_err, world_encode|].
  intros f (w1 & Hw1 & Hf). apply preserves_map_err, world_send. intros Hc.
  destruct Hag as (_ & _ & Hk & _ & _ & Hm). apply (encoded_from served (codec s) p); [by apply Hp|by apply Hk|exact Hm|].
  exists w1. split; [done|]. exact (map_err_result _ _ _ _ Hf).
Qed.

(** Pushes carry events. *)
Lemma push_ok served h id name data atts : packet_ok served (push_packet h id name data atts).
Proof. by split. Qed.
Lemma world_send_to_all served entries m : out_ok served m -> preserves (world_ok served) (send_to_all (App:=B) entries m).
Proof.
  intros Hm. induction entries as [|[id e] entries IH]; cbn [send_to_all]; [preserve|].
  apply preserves_bind; [|done]. by apply preserves_ignore, world_try_send.
Qed.
Lemma world_fresh served : preserves (world_ok served) (fresh_event_id (App:=B)).
Proof. by intros w. Qed.

(** An encoded push is in order. *)
Lemma pushed_ok served g id name data atts f : is_ecdh s = false ->
  (exists w, world_ok served w
     /\ (m_map_err (F:=ApiError) g (codec_encode (codec s) (push_packet (handle s) id name data atts)) w).1 = Ok f) ->
  response_frame_ok served f.
Proof.
  intros He (w & Hw & Hf%map_err_result). destruct Hag as (_ & _ & Hk & _ & _ & Hm).
  apply (encoded_from served (codec s) (push_packet (handle s) id name data atts)); [apply push_ok|by apply Hk|done|eauto].
Qed.

Lemma world_broadcast served name data atts : preserves (world_ok served) (broadcast_event (handle s) name data atts).
Proof.
  unfold broadcast_event. apply preserves_bind; [apply world_fresh|intros id]. cbv zeta.
  change (handle_is_ecdh (handle s)) with (is_ecdh s). change (handle_codec (handle s)) with (codec s).
  destruct (is_ecdh s) eqn:He.
  - apply preserves_bind; [preserve|]. intros w. apply world_send_to_all, push_ok.
  - apply preserves_bind_with; [apply preserves_map_err, world_encode|]. intros f Hf.
    apply preserves_bind; [preserve|]. intros w. apply world_send_to_all. by eapply pushed_ok.
Qed.

Lemma world_send_event_to served conn' name data atts :
  preserves (world_ok served) (send_event_to (handle s) conn' name data atts).
Proof.
  unfold send_event_to. apply preserves_bind; [apply world_fresh|intros id]. cbv zeta.
  apply preserves_bind; [preserve|intros w]. apply preserves_bind; [preserve|intros e].
  change (handle_is_ecdh (handle s)) with (is_ecdh s). change (handle_codec (handle s)) with (codec s).
  destruct (is_ecdh s) eqn:He.
  - apply preserves_map_err, world_try_send. intros _. apply push_ok.
  - apply preserves_bind_with; [apply preserves_map_err, world_encode|]. intros f Hf.
    apply preserves_map_err, world_try_send. intros _. by eapply pushed_ok.
Qed.

(** The world under the primitive effects. *)
Lemma world_same served w w' :
  state w' = state w -> channels w' = channels w -> entropy w' = entropy w -> world_ok served w -> world_ok served w'.
Proof. unfold world_ok, clients_wf, entropy_ok. by intros -> -> ->. Qed.
Lemma world_limiter {E} served key ip len now : preserves (world_ok served) (check_limiter (App:=B) (E:=E) key ip len now).
Proof. intros w Hw. unfold check_limiter. repeat case_match; by apply (world_same _ w). Qed.
Lemma world_refuse_banned served peer' now : preserves (world_ok served) (refuse_banned (App:=B) peer' now).
Proof. intros w Hw. unfold refuse_banned. repeat case_match; by apply (world_same _ w). Qed.
Lemma world_ws_send served key m f : preserves (world_ok served) (ws_send (App:=B) key m f).
Proof. intros w Hw. destruct f; [done|]. by apply (world_same _ w). Qed.
Lemma world_drop_receiver served key w : world_ok served w -> world_ok served (drop_receiver key w).
Proof.
  intros (Hwf & He & Hq). split_and!; [done|done|]. cbn. intros ch Hl. destruct (decide (key = conn)) as [->|Hne].
  - rewrite lookup_alter_eq in Hl. destruct (channels w !! conn) as [c|] eqn:Hc; [|done].
    injection Hl as <-. cbn [queue]. by apply Hq.
  - rewrite lookup_alter_ne in Hl by done. by apply Hq.
Qed.
Lemma world_register served conn' t a : preserves (world_ok served) (register (App:=B) conn' t a).
Proof.
  intros w (Hwf & He & Hq). split_and!; [|done|].
  - intros id e Hl. cbn in Hl. apply lookup_insert_Some in Hl as [[<- <-]|[_ Hl]]; [done|by apply Hwf].
  - intros ch. cbn. intros [[_ <-]|[_ Hl]]%lookup_insert_Some; [constructor|by apply Hq].
Qed.

#[local] Hint Resolve world_limiter world_refuse_banned world_ws_send world_encode world_fresh world_register
  world_broadcast world_send_event_to : preserves.

(** *** The rest of the server *)
Section Others.
Context (served : Served) (Hh : handlers_keep s (world_ok served)).

Lemma world_process_other conn' peer' p : conn' <> conn -> preserves (world_ok served) (process_packet s conn' peer' p).
Proof.
  intros Hne. unfold process_packet. destruct (env_body p); [ |preserve| |preserve..].
  - apply preserves_bind; [by apply keeps_run_api_request|]. intros r. by apply world_queue_for.
  - apply preserves_bind; [by apply keeps_run_event|]. intros r. by apply world_queue_for.
Qed.

Lemma world_reader_other conn' peer' rc now next :
  conn' <> conn -> preserves (world_ok served) (reader_step s conn' peer' rc now next).
Proof.
  intros Hne. pose proof (fun p => world_queue_for served conn' p (fun e => False_ind _ (Hne e))) as Hq.
  pose proof (fun peer' p => world_process_other conn' peer' p Hne) as Hp.
  pose proof (fun m => world_send served conn' m (fun e => False_ind _ (Hne e))) as Hs.
  unfold reader_step, on_binary, reject_frame, refuse. preserve.
Qed.

Lemma world_connect conn' peer' now hello auth f1 f2 :
  preserves (world_ok served) (connect s conn' peer' now hello auth f1 f2).
Proof.
  destruct Hh as (_ & _ & _ & Hc & _ & _ & Ha). unfold connect.
  assert (Hkey : preserves (world_ok served) (session_codec s conn' hello f1)).
  { unfold session_codec, perform_ecdh_handshake. preserve; intros w Hw; by apply (world_same _ w). }
  assert (Hauth : forall k : FrameCodec, preserves (world_ok served) (auth_phase s conn' peer' k auth f2)).
  { intros k. unfold auth_phase. destruct (auth_handler s) as [h|]; [|preserve].
    do 3 (apply preserves_bind; [preserve|intros ?]).
    apply preserves_bind; [apply preserves_catch, Ha|intros ?]. preserve. }
  assert (Hn : forall t, preserves (world_ok served) (notify_connected s conn' (Some peer') t))
    by (intros t; by apply keeps_notify).
  preserve.
Qed.

Lemma world_writer_other conn' rc f w : conn' <> conn -> world_ok served w -> world_ok served (writer_step conn' rc f w).
Proof.
  intros Hne Hw. unfold writer_step. destruct (channels w !! conn') as [[[|m rest] []]|]; try done.
  assert (Hp : preserves (world_ok served) (write_outbound conn' rc m f)) by (unfold write_outbound; preserve).
  specialize (Hp _ (world_channels served w conn' (mkChannel rest true) Hw (fun e => False_ind _ (Hne e)))).
  destruct (write_outbound _ _ _ _ _) as [[[]|e|] w']; by try apply world_drop_receiver.
Qed.

Lemma world_heartbeat conn' f w : world_ok served w -> world_ok served (heartbeat conn' f w).
Proof.
  intros Hw. unfold heartbeat. pose proof (world_ws_send served conn' (MPing []) f w Hw) as Hp.
  destruct (channels w !! conn') as [[q []]|]; [|exact Hw|exact Hw].
  destruct (ws_send _ _ _ _) as [[]]; by try apply world_drop_receiver.
Qed.

Lemma world_begin_teardown conn' : preserves (world_ok served) (begin_teardown (App:=B) conn').
Proof.
  unfold begin_teardown. apply preserves_bind; [|intros _; by apply preserves_ignore, world_try_send].
  intros w (Hwf & He & Hq). split_and!; [|done|done].
  intros id e Hl. cbn in Hl. apply lookup_delete_Some in Hl as [_ Hl]. by apply Hwf.
Qed.
Lemma world_end_teardown conn' peer' r : preserves (world_ok served) (end_teardown s conn' peer' r).
Proof.
  destruct Hh as (_ & _ & _ & _ & Hd & _). unfold end_teardown. apply preserves_bind.
  - intros w. apply world_drop_receiver.
  - intros _. by apply keeps_notify.
Qed.

Lemma other_step_ok (foreign : string -> Prop) w w' : (forall conn', foreign conn' -> conn' <> conn) ->
  other_step foreign w w' -> world_ok served w -> world_ok served w'.
Proof.
  intros Hf [] Hw.
  - by apply world_connect.
  - apply world_reader_other; auto.
  - apply world_process_other; auto.
  - apply world_writer_other; auto.
  - by apply world_heartbeat.
  - unfold send_notice. by apply preserves_map_err; auto with preserves.
  - by apply world_broadcast.
  - by apply world_send_event_to.
  - by apply world_begin_teardown.
  - by apply world_end_teardown.
  - eapply world_same; [..|exact Hw]; done.
Qed.
End Others.

(** *** This connection *)

(** The error packets of the reader are representable. *)
Lemma error_response_ok id st code msg :
  in_u 64 id -> in_u 16 st -> ascii_str code -> ascii_str msg ->
  body_ok (ApiResponse id false st empty_object (Some (mkErrorPayload code msg st None)) empty_object).
Proof.
  intros Hid Hst Hc%ascii_valid Hm%ascii_valid. split; [|done]. split_and!; [by split_and!; [..|constructor]| |constructor].
  unfold ser_exact. rewrite !andb_true_iff. split_and!; [vm_compute; reflexivity| |vm_compute; reflexivity].
  cbn [serialize ser_value entries_value].
  assert (Hu : forall (b n : Z), 0 <= b <= 64 -> in_u b n -> json_exact (Num (PosInt n)) = true).
  { intros b n Hb [H0 H1]. pose proof (Z.pow_le_mono_r 2 b 64). cbn. lia. }
  repeat (apply json_exact_insert; [|reflexivity|]); try reflexivity; try exact Hc; try exact Hm; first [by apply (Hu 64)|by apply (Hu 16)].
Qed.
Lemma frame_error_ok served code msg e :
  ascii_str code -> ascii_str msg -> packet_ok served (frame_error_packet 0 code msg e).
Proof. intros Hc Hm. split; [done|]. split; [|by left]. by apply error_response_ok. Qed.
Lemma busy_ok served id e : in_u 64 id -> packet_ok served (service_busy_packet id e).
Proof.
  intros Hid. split; [done|]. split; [|by right; left].
  apply error_response_ok; [done|by unfold in_u| |]; by repeat constructor.
Qed.

(** A request is answered with its own id. *)
Lemma answer_shape id q p : answered id q (Ok p) ->
  exists ok st data err md, p = with_encryption (ApiResponse id ok st data err md) (default_encryption s).
Proof.
  intros (w & Hw). unfold run_api_request in Hw. cbn [in_request_id in_route in_params in_attachments in_metadata] in Hw.
  assert (He : forall conn' route err w p, (api_error_packet (E:=ServerError) s conn' (Some id) route err w).1 = Ok p ->
    exists ok st data err md, p = with_encryption (ApiResponse id ok st data err md) (default_encryption s)).
  { intros conn' route err w1 p1. unfold api_error_packet. unfold mbind, M_bind.
    destruct (map_exception _ _ w1) as [[pl|e|] w2]; cbn; [|done|done]. intros [= <-]. eauto 10. }
  revert Hw. unfold mbind at 1, M_bind at 1, get at 1. unfold mbind at 1, M_bind at 1, m_try at 1.
  destruct (run_filters _ _ _) as [[ctx|err|] w1]; [|by apply He|done].
  destruct (routes s !! ac_route ctx) as [h|]; [|by apply He].
  unfold mbind at 1, M_bind at 1, catch_unwind. destruct (h ctx w1) as [[d|err|] w2]; [|by apply He..].
  intros [= <-]. eauto 10.
Qed.

(** An event is acknowledged. *)
Lemma ack_ok served ev w p : (run_event (E:=ServerError) s conn (Some peer) ev w).1 = Ok p -> packet_ok served p.
Proof.
  unfold run_event. unfold mbind at 1, M_bind at 1, get at 1. destruct (event_handlers s !! in_name ev) as [h|].
  2: { by intros [= <-]. }
  unfold mbind at 1, M_bind at 1, catch_unwind. destruct (h _ w) as [[d|err|] w1]; [by intros [= <-]| |];
    unfold mbind, M_bind; destruct (map_exception _ _ w1) as [[]]; cbn; try done; by intros [= <-].
Qed.

Lemma out_mono served served' m : served ⊆ served' -> out_ok served m -> out_ok served' m.
Proof.
  intros Hs.
  assert (Hr : forall b, response_ok served b -> response_ok served' b).
  { intros []; try done. intros [?|[?|(p & Hp & ?)]]; [by left|by right; left|]. right; right. exists p. split; [by apply Hs|done]. }
  destruct m as [f|p| |]; cbn; [|intros [Hm Hb]|done..].
  - intros Hf env Hd. by apply Hr, Hf.
  - split; [done|]. destruct (env_body p); try done. destruct Hb as [Hb Hd]. split; [done|by apply Hr].
Qed.
Lemma world_mono served served' w : served ⊆ served' -> world_ok served w -> world_ok served' w.
Proof.
  intros Hs (Hwf & He & Hq). split_and!; [done|done|]. intros ch Hl.
  eapply list.Forall_impl; [by apply Hq|]. intros m. by apply out_mono.
Qed.

Section Own.
Context (Hh : forall served, handlers_keep s (world_ok served)) (Hfit : responses_fit).

(** A handler task adds the response it computed. *)
Lemma world_process_own calls served p w :
  calls_fit calls -> request_ok calls (env_body p) -> world_ok served w ->
  world_ok (served ++ computed p w) (process_packet s conn (Some peer) p w).2.
Proof.
  intros Hc Hr Hw. unfold process_packet, computed.
  destruct (env_body p) as [id route params atts md| |id name data atts md ack| | |]; rewrite ?app_nil_r; try exact Hw.
  - destruct Hr as [Hr ->]. pose proof (Hc _ _ Hr) as Hb. cbn [fst snd] in Hb.
    pose proof (keeps_run_api_request s _ (Hh served) (E:=ServerError) conn (Some peer)
      (mkApiRequestInput id route params atts client_metadata) w Hw) as Hw1.
    pose proof (ex_intro _ w eq_refl : answered id (route, params, atts) _) as Ha. cbn [fst snd] in Ha.
    unfold mbind, M_bind. destruct (run_api_request _ _ _ _ w) as [r w1]; cbn [fst snd] in *.
    apply (world_mono _ (served ++ [(id, r)])) in Hw1; [|intros x Hx; apply elem_of_app; by left].
    destruct r as [p1|e|]; [|done|done]. destruct (answer_shape id (route, params, atts) p1 Ha) as (ok & st & d & err & m & Hp1).
    apply world_queue_for; [|done]. intros _. pose proof (Hfit id (route, params, atts) p1 Hb Ha) as Hp.
    subst p1. split; [done|]. split; [done|]. right; right. eexists.
    split; [apply elem_of_app; right; by apply list_elem_of_singleton|reflexivity].
  - unfold mbind, M_bind.
    pose proof (keeps_run_event s _ (Hh served) (E:=ServerError) conn (Some peer) (mkEventEmitInput id name data atts md) w Hw) as Hw1.
    destruct (run_event _ _ _ _ w) as [[p1|e|] w1] eqn:Hrun; cbn [fst snd] in *; [|done|done].
    apply world_queue_for; [|done]. intros _. apply (ack_ok _ (mkEventEmitInput id name data atts md) w). by rewrite Hrun.
Qed.

(** The reader answers what it refuses. *)
Lemma world_reject served code msg :
  ascii_str code -> ascii_str msg -> preserves (world_ok served) (reject_frame s conn code msg).
Proof.
  intros Hc Hm. unfold reject_frame. apply preserves_bind; [|preserve].
  apply preserves_ignore, world_queue_for. intros _. by apply frame_error_ok.
Qed.
Lemma world_refuse calls served b :
  calls_fit calls -> request_ok calls b -> preserves (world_ok served) (refuse s conn b).
Proof.
  intros Hc Hr. unfold refuse. destruct b; try preserve; apply preserves_ignore, world_queue_for; intros _.
  - destruct Hr as [Hr _]. pose proof (Hc _ _ Hr) as [[Hid _] _]. by apply busy_ok.
  - done.
Qed.
Lemma world_reader_own calls served now m :
  calls_fit calls -> up_ok calls m -> preserves (world_ok served) (reader_step s conn peer sc now (Received m)).
Proof.
  intros Hc Hm. unfold reader_step. pose proof (fun m Hm => world_send served conn m (fun _ => Hm)) as Hs.
  destruct m as [f| |payload| | |]; [|preserve..].
  unfold on_binary. case_match; [apply world_reject; by repeat constructor|].
  do 4 (apply preserves_bind; [preserve|intros ?]). cbv zeta. case_match.
  { apply world_reject; [by repeat constructor|].
    repeat first [apply ascii_app|apply ascii_pretty|by repeat constructor]. }
  case_match.
  { apply world_reject; [by repeat constructor|].
    repeat first [apply ascii_app|apply ascii_pretty|by repeat constructor]. }
  apply preserves_bind_with; [preserve|]. intros env (w0 & _ & Hd).
  assert (Hr : request_ok calls (env_body env)).
  { apply Hm. cbn in Hd. destruct (decode sc f); cbn in Hd; congruence. }
  pose proof (world_refuse calls served (env_body env) Hc Hr) as Href.
  destruct (is_data_message (env_body env)) eqn:Hdata; [preserve|].
  assert (Hp : preserves (world_ok served) (process_packet s conn (Some peer) env)).
  { unfold process_packet. destruct (env_body env); try done; preserve. }
  preserve.
Qed.

(** What is handed to a task was decoded from the message. *)
Lemma reader_spawns now m w w' p :
  reader_step s conn peer sc now (Received m) w = (Ok (SpawnHandler p), w') ->
  exists f, m = MBinary f /\ decode sc f = Ok p.
Proof.
  unfold reader_step. destruct m as [f| | |payload| |]; try done.
  2: { unfold mbind, M_bind. by destruct (m_try _ w) as [[[]|e|] w1]. }
  intros Hs. exists f. split; [done|]. revert Hs. unfold on_binary.
  assert (Hrej : forall code msg w1, reject_frame s conn code msg w1 <> (Ok (SpawnHandler p), w')).
  { intros code msg w1. unfold reject_frame, mbind, M_bind. by destruct (ignore _ w1) as [[]]. }
  case_match; [by intros ?%Hrej|].
  do 4 (unfold mbind at 1, M_bind at 1, lift at 1; destruct (index f _) as [?b|?e|]; [|done|done]).
  cbv zeta. case_match; [by intros ?%Hrej|]. case_match; [by intros ?%Hrej|].
  unfold mbind at 1, M_bind at 1, lift at 1. destruct (decode sc f) as [env|e|]; cbn [map_err]; [|done|done].
  unfold mbind at 1, M_bind at 1.
  match goal with |- context [match ?x with (_, _) => _ end = _] => destruct x as [[v|e|] w1] end; [|done|done].
  destruct v as [[]|]; unfold mbind, M_bind.
  all: repeat match goal with
       | |- context [match ?x with (_, _) => _ end = _] => destruct x as [[?v|?e|] ?w2]
       | |- context [if ?x then _ else _] => destruct x
       end; unfold mret, M_ret; cbn; congruence.
Qed.

(** *** What the writer puts on the wire *)
Definition puts w w' (ms : list Message) : Prop := wire w' = wire w ++ map (pair conn) ms.

Lemma written_puts w w' ms : puts w w' ms -> written w w' = ms.
Proof.
  unfold puts, written. intros ->. rewrite drop_app_length.
  induction ms as [|m ms IH]; [done|]. cbn [map]. by rewrite list.filter_cons_True, map_cons, IH.
Qed.
Lemma ws_send_puts m f w : exists ms, puts w (ws_send (App:=B) conn m f w).2 ms /\ (ms = [] \/ ms = [m]).
Proof. destruct f; [exists []|exists [m]]; split; try (by left); try (by right); [|done]. unfold puts. cbn. by rewrite app_nil_r. Qed.

Lemma down_one served m ms : down_ok served m -> ms = [] \/ ms = [m] -> Forall (down_ok served) ms.
Proof. intros Hm [->| ->]; by repeat constructor. Qed.

Lemma write_outbound_puts served m f w : world_ok served w -> out_ok served m ->
  exists ms, puts w (write_outbound conn sc m f w).2 ms /\ Forall (down_ok served) ms.
Proof.
  intros Hw Hm. destruct m as [fr|p|payload|]; cbn [write_outbound].
  - destruct (ws_send_puts (MBinary fr) f w) as (ms & Hp & Hms). exists ms.
    split; [|by eapply down_one; [|exact Hms]]. revert Hp. unfold mbind, M_bind. by destruct (ws_send _ _ _ w) as [[[]|e|] w1].
  - unfold mbind at 1, M_bind at 1, m_map_err. pose proof (encoded_ok served sc p w) as He.
    destruct (codec_encode sc p w) as [[fr|e|] w1] eqn:Hc; cbn [map_err fst] in *;
      [|exists []; injection Hc as _ <-; unfold puts; by rewrite app_nil_r..].
    destruct Hag as (_ & Hk & _ & _ & Hmax & _). specialize (He fr Hw Hm Hk Hmax eq_refl).
    destruct (ws_send_puts (MBinary fr) f w1) as (ms & Hp & Hms). exists ms.
    split; [|by eapply down_one; [|exact Hms]]. injection Hc as _ <-.
    revert Hp. unfold mbind, M_bind. by destruct (ws_send _ _ _ (set_drawn w _)) as [[[]|e|] w2].
  - destruct (ws_send_puts (MPong payload) f w) as (ms & Hp & Hms). exists ms.
    split; [|by eapply down_one; [|exact Hms]]. revert Hp. unfold mbind, M_bind. by destruct (ws_send _ _ _ w) as [[[]|e|] w1].
  - destruct (ws_send_puts MClose f w) as (ms & Hp & Hms). exists ms.
    split; [|by eapply down_one; [|exact Hms]]. revert Hp. unfold mbind, M_bind, ignore. by destruct (ws_send _ _ _ w) as [[[]|e|] w1].
Qed.

Lemma world_writer_own served f w : world_ok served w ->
  world_ok served (writer_step conn sc f w) /\ Forall (down_ok served) (written w (writer_step conn sc f w)).
Proof.
  intros Hw. unfold writer_step.
  assert (H0 : world_ok served w /\ Forall (down_ok served) (written w w)).
  { split; [done|]. rewrite (written_puts w w []); [constructor|]. unfold puts. by rewrite app_nil_r. }
  destruct (channels w !! conn) as [[[|m rest] []]|] eqn:Hc; try done. clear H0.
  pose proof (proj2 (proj2 Hw) _ Hc) as Hq. cbn [queue] in Hq. inversion_clear Hq as [|? ? Hm Hrest].
  set (w0 := set_channels w (<[conn := mkChannel rest true]> (channels w))).
  assert (Hw0 : world_ok served w0) by (by apply world_channels).
  assert (Hp : preserves (world_ok served) (write_outbound conn sc m f)) by (unfold write_outbound; preserve).
  specialize (Hp _ Hw0). destruct (write_outbound_puts served m f w0 Hw0 Hm) as (ms & Hms & Hd).
  destruct (write_outbound _ _ _ _ _) as [[[]|e|] w']; cbn [fst snd] in *;
    (split; [by try apply world_drop_receiver|by rewrite (written_puts w _ ms)]).
Qed.

Lemma world_heartbeat_own served f w : world_ok served w -> Forall (down_ok served) (written w (heartbeat conn f w)).
Proof.
  intros Hw. assert (H0 : Forall (down_ok served) (written w w)).
  { rewrite (written_puts w w []); [constructor|]. unfold puts. by rewrite app_nil_r. }
  unfold heartbeat. destruct (channels w !! conn) as [[q []]|]; try done.
  destruct (ws_send_puts (MPing []) f w) as (ms & Hp & Hms).
  assert (Hd : Forall (down_ok served) ms) by (by eapply down_one; [|exact Hms]).
  destruct (ws_send _ _ _ _) as [[] w']; cbn [snd] in *; by rewrite (written_puts w _ ms).
Qed.
End Own.
End Server.

(** ** The client's side *)

(** What the caller makes of a response. *)
Definition answer p : option (result ClientError Value) :=
  match norm_body (env_body p) with
  | ApiResponse _ ok _ data err _ => Some (remote_outcome ok data err)
  | _ => None
  end.
(** The outcomes a call can get: the connection ended, the rate limiter refused
    it, or the response computed for its id. *)
Definition outcome_ok served id (r : result ClientError Value) : Prop :=
  (exists reason, r = Err (ConnectionClosed reason))
  \/ r = Err (Remote busy_error)
  \/ exists p, (id, Ok p) ∈ served /\ answer p = Some r.

(** The ids of requests. *)
Definition req_ids (b : PacketBody) : list Z := match b with ApiRequest id _ _ _ _ => [id] | _ => [] end.
Definition queued_ids (m : ClientOutbound) : list Z := match m with CPacket p => req_ids (env_body p) | _ => [] end.
Definition frame_ids (m : Message) : list Z :=
  match m with
  | MBinary f => match decode sc f with Ok env => req_ids (env_body env) | _ => [] end
  | _ => []
  end.
Definition client_queue c : list ClientOutbound := match cchannels c !! gen with Some ch => cqueue ch | None => [] end.

Definition client_ok calls served c : Prop :=
  (forall n bs, centropy c n CHACHA20_NONCE_LEN = Ok bs -> blen bs = 12)
  /\ (forall id, is_Some (calls !! id) -> 0 < id <= next_request_id c)
  /\ Forall (queued_ok calls) (client_queue c)
  /\ (forall id r, is_Some (calls !! id) -> api_outcomes c !! id = Some r -> outcome_ok served id r).
(** In order, and with this counter, these requests in the queue and this on the
    wire. *)
Definition client_inv calls served (n : Z) (ids : list Z) (ws : list Message) c : Prop :=
  client_ok calls served c /\ next_request_id c = n /\ concat (map queued_ids (client_queue c)) = ids /\ cwire c = ws.

(** The application's handlers keep a property. *)
Definition client_handlers_keep (P : Cl -> Prop) : Prop :=
  map_Forall (fun _ hs => Forall (fun h => forall e, preserves P (h e)) hs) (cevent_handlers self)
  /\ Forall (fun h => forall e, preserves P (h e)) (disconnected_handlers self).

(** Handlers that keep a property, run one after the other. *)
Lemma keep_event_handlers (Q : Cl -> Prop) hs e last :
  Forall (fun h => forall e, preserves Q (h e)) hs -> preserves Q (run_event_handlers hs e last).
Proof.
  intros Hs. revert last. induction Hs as [|h hs Hh _ IH]; intros last; cbn [run_event_handlers]; [preserve|].
  apply preserves_bind; [apply Hh|done].
Qed.
Lemma keep_notify (Q : Cl -> Prop) {Ev} (hs : list (Ev -> M Cl Empty_set unit)) e :
  Forall (fun h => forall e, preserves Q (h e)) hs -> preserves Q (cnotify_all hs e).
Proof.
  induction 1 as [|h hs Hh _ IH]; cbn [cnotify_all]; [preserve|].
  apply preserves_bind; [by apply preserves_catch|done].
Qed.

Section ClientSide.
Context (calls : gmap Z Asked) (served : Served) (n : Z) (ids : list Z) (ws : list Message).
Abbreviation P := (client_inv calls served n ids ws).
Context (Hk : client_handlers_keep P).

Lemma keep_same c c' :
  centropy c' = centropy c -> next_request_id c' = next_request_id c -> client_queue c' = client_queue c ->
  api_outcomes c' = api_outcomes c -> cwire c' = cwire c -> P c -> P c'.
Proof. unfold client_inv, client_ok. by intros -> -> -> -> ->. Qed.

Lemma keep_outcomes c p o :
  (forall id r, is_Some (calls !! id) -> o !! id = Some r -> outcome_ok served id r) -> P c -> P (set_pending_api c p o).
Proof. intros Ho ((He & Hr & Hq & _) & Hn & Hids & Hw). by split_and!. Qed.

(** Nothing but calls queues requests. *)
Lemma keep_csend g m : queued_ok calls m -> queued_ids m = [] -> preserves P (csend g m).
Proof.
  intros Hm Hi c Hc. unfold csend. destruct (cchannels c !! g) as [ch|] eqn:Hl; [|done].
  destruct (creceiver ch); [|done]. cbn [snd]. destruct (decide (g = gen)) as [->|Hne].
  - destruct Hc as ((He & Hr & Hq & Ho) & Hn & Hids & Hw).
    assert (Hcq : client_queue (set_cchannels c (<[gen := mkCChannel (cqueue ch ++ [m]) true]> (cchannels c)))
      = client_queue c ++ [m]) by (unfold client_queue; cbn; by rewrite lookup_insert_eq, Hl).
    split_and!; try done; [split_and!; try done|]; rewrite Hcq.
    + apply Forall_app. split; [done|]. by apply Forall_singleton.
    + rewrite map_app, concat_app, Hids. cbn. by rewrite Hi, !app_nil_r.
  - eapply keep_same; [..|exact Hc]; try done. unfold client_queue. cbn. by rewrite lookup_insert_ne.
Qed.
Lemma keep_send_outbound m : queued_ok calls m -> queued_ids m = [] -> preserves P (send_outbound m).
Proof.
  intros Hm Hi. unfold send_outbound. apply preserves_bind; [preserve|]. intros c0.
  destruct (writer c0); [|preserve]. by apply preserves_map_err, keep_csend.
Qed.

(** A packet from the server; a response must be in order when it is for a call
    made here. *)
Definition heard_ok (b : PacketBody) : Prop :=
  match b with
  | ApiResponse id _ _ _ _ _ => is_Some (calls !! id) -> response_ok served b
  | _ => True
  end.
Definition heard_frame_ok (k : FrameCodec) (m : Message) : Prop :=
  match m with MBinary f => forall env, decode k f = Ok env -> heard_ok (env_body env) | _ => True end.
Lemma down_heard m : down_ok served m -> heard_frame_ok cc m.
Proof. destruct m as [f| | | | |]; try done. intros Hf env He. specialize (Hf env He). destruct (env_body env); try done. by intros _. Qed.

Lemma keep_handle_packet p : heard_ok (env_body p) -> preserves P (handle_packet self p).
Proof.
  intros Hr. unfold handle_packet. destruct (env_body p) as [|id ok st d err md|id name d atts md ack|id ok v err| |]; try solve [preserve].
  - intros c Hc. cbn. case_bool_decide; [|done]. apply keep_outcomes; [|done].
    destruct Hc as ((_ & Hrange & _ & Ho) & _). intros id' r Hs [[<- <-]|[_ Hl]]%lookup_insert_Some; [|by eapply Ho].
    destruct (Hr Hs) as [->|[[-> ->]|(q & Hq & Hb)]].
    + apply Hrange in Hs. lia.
    + by right; left.
    + right; right. exists q. split; [done|]. unfold answer. by rewrite Hb.
  - apply preserves_bind; [apply keep_event_handlers|].
    + destruct (cevent_handlers self !! name) as [hs|] eqn:Hl; [|constructor]. by apply (proj1 Hk name).
    + intros r. destruct ack; [|preserve]. by apply preserves_ignore, keep_send_outbound.
  - intros c Hc. cbn. case_bool_decide; [|done]. by eapply keep_same.
Qed.

(** The loss of the connection. *)
Lemma keep_handle_disconnect g err sig : preserves P (handle_disconnect self g err sig).
Proof.
  unfold handle_disconnect. apply preserves_bind; [preserve|intros c0]. case_match; [preserve|]. cbv zeta.
  case_match; [preserve|].
  repeat (apply preserves_bind; [|intros ?]); try solve [preserve].
  - intros c Hc. by eapply keep_same.
  - intros c Hc. apply keep_outcomes; [|done]. intros id r Hs. rewrite fail_pending_lookup.
    case_bool_decide; [intros [= <-]; left; eauto|]. destruct Hc as ((_ & _ & _ & Ho) & _). by apply Ho.
  - intros c Hc. by eapply keep_same.
  - by apply keep_notify, (proj2 Hk).
  - intros c Hc. cbn. repeat case_match; try done; by eapply keep_same.
Qed.
Lemma keep_finish g st : preserves P (finish self g st).
Proof.
  destruct st; cbn [finish]; [preserve..|]. apply preserves_bind; [apply keep_handle_disconnect|preserve].
Qed.

(** The tasks. *)
Lemma keep_reader_task g k next :
  (forall m, next = Received m -> heard_frame_ok k m) -> preserves P (reader_task self g k next).
Proof.
  intros Hd. unfold reader_task. apply preserves_bind; [|intros st; apply preserves_bind; [apply keep_finish|preserve]].
  unfold client_reader_step. destruct next as [| | |[f|text|payload|payload| |]]; try solve [preserve].
  - destruct (decode k f) as [p|e|] eqn:He; try solve [preserve]. case_match; [preserve|].
    apply preserves_bind; [|preserve]. apply keep_handle_packet. by apply (Hd _ eq_refl).
  - apply preserves_bind; [by apply preserves_try, keep_csend|preserve].
Qed.
Lemma keep_heartbeat g : preserves P (heartbeat_task self g).
Proof.
  unfold heartbeat_task, client_heartbeat. apply preserves_bind.
  - apply preserves_bind; [preserve|intros c0]. case_match; [preserve|].
    apply preserves_bind; [by apply preserves_try, keep_csend|preserve].
  - intros st. apply preserves_bind; [apply keep_finish|preserve].
Qed.

Lemma keep_drop_creceiver g c : P c -> P (drop_creceiver g c).
Proof.
  intros Hc. eapply keep_same; [..|exact Hc]; try done. unfold client_queue. cbn. destruct (decide (g = gen)) as [->|Hne].
  - rewrite lookup_alter_eq. by destruct (cchannels c !! gen).
  - by rewrite lookup_alter_ne.
Qed.
Lemma keep_writer_stopped g : preserves P (writer_stopped self g).
Proof. unfold writer_stopped. apply preserves_bind; [apply keep_finish|]. intros _ c. apply keep_drop_creceiver. Qed.

(** The application's side. *)
Lemma keep_call_poll id timed_out c : P c -> P (call_poll id timed_out c).2.
Proof.
  intros Hc. unfold call_poll. by repeat case_match.
Qed.
Lemma keep_event_poll id timed_out c : P c -> P (event_poll id timed_out c).2.
Proof. intros Hc. unfold event_poll. by repeat case_match. Qed.
Lemma keep_event_begin name data atts : preserves P (event_begin self name data atts).
Proof.
  unfold event_begin. apply preserves_bind; [preserve|intros c0]. case_match; [preserve|]. cbv zeta.
  apply preserves_bind; [intros c Hc; by eapply keep_same|intros _].
  apply preserves_bind; [by apply preserves_try, keep_send_outbound|intros r]. destruct r; [|preserve].
  apply preserves_bind; [intros c1 Hc; by eapply keep_same|preserve].
Qed.
Lemma keep_close : preserves P (close self).
Proof.
  unfold close. apply preserves_bind; [intros c Hc; by eapply keep_same|intros _].
  apply preserves_bind; [preserve|intros c0]. apply preserves_bind; [|intros _].
  - destruct (writer c0); [by apply preserves_ignore, keep_csend|preserve].
  - apply preserves_bind; [preserve|]. intros c1. apply keep_handle_disconnect.
Qed.

Lemma app_step_keeps c c' : app_step c c' -> P c -> P c'.
Proof.
  intros [id t c0|name data atts c0|id t c0|p c0 Hp|c0] Hc.
  - by apply keep_call_poll.
  - by eapply keep_event_begin.
  - by apply keep_event_poll.
  - eapply keep_handle_packet; [|exact Hc]. by destruct (env_body p).
  - by eapply keep_close.
Qed.
End ClientSide.

(** *** A call *)
Lemma queued_mono calls calls' m : calls ⊆ calls' -> queued_ok calls m -> queued_ok calls' m.
Proof.
  intros Hs. destruct m as [p| | |]; cbn; try done. intros (Hm & Hr & Hb). split_and!; [done| |done].
  destruct (env_body p); try done. destruct Hr as [Hr ->]. split; [by eapply lookup_weaken|done].
Qed.

Lemma call_inv calls served n ids ws route params atts c :
  client_inv calls served n ids ws c -> 0 <= n -> n + 1 < 2 ^ 64 -> is_connected c = true ->
  body_ok (ApiRequest (n + 1) route params atts client_metadata) ->
  let calls' := <[n + 1 := (route, params, atts)]> calls in
  exists extra, (extra = [] \/ extra = [n + 1])
    /\ client_inv calls' served (n + 1) (ids ++ extra) ws (call_begin self route params atts c).2.
Proof.
  intros ((He & Hr & Hq & Ho) & Hn & Hids & Hws) H0 Hlt Hconn Hb. cbv zeta.
  assert (Hnew : calls !! (n + 1) = None).
  { destruct (calls !! (n + 1)) eqn:Hl; [|done]. specialize (Hr (n + 1) ltac:(eauto)). lia. }
  rewrite call_begin_cases. cbv zeta. rewrite Hn, wrap_small, Hconn by lia. cbn [negb].
  set (m := CPacket _). set (c1 := on_pending _ _ _ _ _ _ _).
  assert (Hok : forall c', centropy c' = centropy c -> next_request_id c' = n + 1 ->
    api_outcomes c' = delete (n + 1) (api_outcomes c) -> cwire c' = cwire c ->
    forall extra, client_queue c' = client_queue c ++ extra -> extra = [] \/ extra = [m] ->
    client_inv (<[n + 1 := (route, params, atts)]> calls) served (n + 1) (ids ++ concat (map queued_ids extra)) ws c').
  { intros c' E1 E2 E3 E4 extra E5 Hx. split_and!; [|done| |by rewrite E4].
    - unfold client_ok. rewrite E1, E2, E3, E5. split_and!; [done| | |].
      + intros id [<-|[_ Hi%Hr]]%lookup_insert_is_Some; lia.
      + apply Forall_app. split.
        * eapply list.Forall_impl; [exact Hq|]. intros m'. apply queued_mono. by apply insert_subseteq.
        * destruct Hx as [->| ->]; [constructor|]. apply Forall_singleton. split_and!; [done| |done].
          split; [apply lookup_insert_eq|done].
      + intros id r Hi [Hne Hl]%lookup_delete_Some. apply lookup_insert_is_Some in Hi as [?|[_ Hi]]; [done|]. by apply Ho.
    - by rewrite E5, map_app, concat_app, Hids. }
  unfold send_outbound. unfold mbind, M_bind, get. change (writer c1) with (writer c).
  assert (H1 : exists extra, (extra = [] \/ extra = [n + 1]) /\
    client_inv (<[n + 1 := (route, params, atts)]> calls) served (n + 1) (ids ++ extra) ws
      (set_pending_api c1 (pending_api c1 ∖ {[n + 1]}) (api_outcomes c1))).
  { exists []. split; [by left|]. refine (Hok _ _ _ _ _ [] _ _); [done..|by rewrite app_nil_r|by left]. }
  destruct (writer c) as [g|]; [|exact H1].
  unfold m_map_err, csend. change (cchannels c1) with (cchannels c).
  destruct (cchannels c !! g) as [ch|] eqn:Hl; [|exact H1]. destruct (creceiver ch); [|exact H1]. cbn [map_err snd].
  destruct (decide (g = gen)) as [->|Hne].
  - exists [n + 1]. split; [by right|]. refine (Hok _ _ _ _ _ [m] _ _); [done..| |by right].
    unfold client_queue. cbn. by rewrite lookup_insert_eq, Hl.
  - exists []. split; [by left|]. refine (Hok _ _ _ _ _ [] _ _); [done..| |by left].
    unfold client_queue. cbn. by rewrite lookup_insert_ne, app_nil_r.
Qed.

(** *** The writer *)

(** A frame carries the request that was encoded, or none. *)
Lemma frame_ids_transit calls nonce p f :
  (forall bs, nonce = Ok bs -> blen bs = 12) -> codecs_agree ->
  queued_ok calls (CPacket p) -> encode cc nonce p = Ok f -> frame_ids (MBinary f) ⊆+ req_ids (env_body p).
Proof.
  intros Hn (Hk & _ & _ & Hm & _) (Hmt & Hreq & Hb) He. cbn [frame_ids].
  destruct (decode sc f) as [env|e|] eqn:Hd; [|apply submseteq_nil_l..].
  pose proof (decode_type cc sc nonce p f env Hn Hm He Hd) as Ht.
  destruct p as [mt enc body]. cbn [env_message_type env_body] in *. subst mt.
  destruct body; try (destruct (env_body env); done).
  by rewrite (decode_content cc sc nonce _ enc f env Hn Hm Hk Hb He Hd).
Qed.

(** What one message of the queue becomes. *)
Lemma client_write_inv calls served n ids ws m failure c :
  codecs_agree -> queued_ok calls m -> client_inv calls served n ids ws c ->
  exists ms, client_inv calls served n ids (ws ++ ms) (client_write cc m failure c).2
    /\ Forall (up_ok calls) ms /\ concat (map frame_ids ms) ⊆+ queued_ids m.
Proof.
  intros Hag Hm Hc.
  assert (Hsend : forall msg c1, client_inv calls served n ids ws c1 -> up_ok calls msg -> frame_ids msg ⊆+ queued_ids m ->
    exists ms, client_inv calls served n ids (ws ++ ms) (cws_send msg failure c1).2
      /\ Forall (up_ok calls) ms /\ concat (map frame_ids ms) ⊆+ queued_ids m).
  { intros msg c1 (Hok & Hn & Hids & Hws) Hu Hf. destruct failure.
    - exists []. rewrite app_nil_r. split_and!; [done|constructor|apply submseteq_nil_l].
    - exists [msg]. split_and!; [|by apply Forall_singleton|by rewrite map_cons, concat_cons, app_nil_r].
      split_and!; [done..|]. cbn. by rewrite Hws. }
  assert (Hid : forall msg c1, client_inv calls served n ids ws c1 -> up_ok calls msg -> frame_ids msg ⊆+ queued_ids m ->
    exists ms, client_inv calls served n ids (ws ++ ms)
      ((r ← m_try (cws_send msg failure);
        mret (match r with inl e => Leave (ConnectionClosed e) | inr _ => Go end) : M Cl Empty_set Step) c1).2
      /\ Forall (up_ok calls) ms /\ concat (map frame_ids ms) ⊆+ queued_ids m).
  { intros msg c1 H1 H2 H3. specialize (Hsend msg c1 H1 H2 H3). revert Hsend. unfold mbind, M_bind, m_try.
    by destruct (cws_send msg failure c1) as [[]]. }
  destruct m as [p|payload|payload|]; cbn [client_write].
  - unfold mbind at 1, M_bind at 1, m_try at 1, client_encode.
    set (c1 := on_io c (S (cdrawn c)) (cwire c) (capp c)).
    assert (Hc1 : client_inv calls served n ids ws c1) by exact Hc.
    assert (Hn : forall bs, centropy c (cdrawn c) CHACHA20_NONCE_LEN = Ok bs -> blen bs = 12).
    { destruct Hc as ((He & _) & _). intros bs. apply He. }
    destruct (encode cc _ p) as [f|e|] eqn:He.
    + apply Hid; [done| |by eapply frame_ids_transit]. by eapply request_transit.
    + exists []. rewrite app_nil_r. split_and!; [done|constructor|apply submseteq_nil_l].
    + exists []. rewrite app_nil_r. split_and!; [done|constructor|apply submseteq_nil_l].
  - by apply Hid.
  - by apply Hid.
  - specialize (Hsend MClose c Hc I ltac:(done)). revert Hsend. unfold mbind, M_bind, ignore.
    by destruct (cws_send _ _ _) as [[]].
Qed.

Lemma writer_inv calls served n ids ws failure c :
  codecs_agree -> (forall ids ws, client_handlers_keep (client_inv calls served n ids ws)) ->
  client_inv calls served n ids ws c ->
  exists ms ids', client_inv calls served n ids' (ws ++ ms) (writer_task self gen cc failure c).2
    /\ Forall (up_ok calls) ms /\ concat (map frame_ids ms) ++ ids' ⊆+ ids.
Proof.
  intros Hag Hk Hc. unfold writer_task.
  assert (Hstep : exists ms ids', client_inv calls served n ids' (ws ++ ms) (client_writer_step gen cc failure c).2
    /\ Forall (up_ok calls) ms /\ concat (map frame_ids ms) ++ ids' ⊆+ ids).
  { assert (H0 : exists ms ids', client_inv calls served n ids' (ws ++ ms) c
      /\ Forall (up_ok calls) ms /\ concat (map frame_ids ms) ++ ids' ⊆+ ids).
    { exists [], ids. rewrite app_nil_r. split_and!; [done|constructor|done]. }
    unfold client_writer_step. unfold mbind at 1, M_bind at 1, get at 1.
    destruct (cchannels c !! gen) as [[[|m rest] []]|] eqn:Hl; try exact H0. clear H0.
    unfold mbind, M_bind, modify. set (c1 := set_cchannels c _).
    destruct Hc as ((He & Hr & Hq & Ho) & Hn & Hids & Hws).
    assert (Hcq : client_queue c = m :: rest) by (unfold client_queue; by rewrite Hl).
    assert (Hcq1 : client_queue c1 = rest) by (unfold client_queue, c1; cbn; by rewrite lookup_insert_eq).
    rewrite Hcq in Hq, Hids. inversion_clear Hq as [|? ? Hm Hrest]. rewrite map_cons, concat_cons in Hids.
    assert (Hc1 : client_inv calls served n (concat (map queued_ids rest)) ws c1).
    { split_and!; [|done|by rewrite Hcq1|done]. split_and!; [done|done|by rewrite Hcq1|done]. }
    destruct (client_write_inv _ _ _ _ _ _ failure _ Hag Hm Hc1) as (ms & H1 & H2 & H3).
    exists ms, (concat (map queued_ids rest)). split_and!; [done|done|]. rewrite <- Hids. by apply submseteq_skips_r. }
  destruct Hstep as (ms & ids' & Hs & Hu & Hsub). exists ms, ids'. split_and!; [|done|done].
  unfold mbind at 1, M_bind at 1. destruct (client_writer_step gen cc failure c) as [[st|e|] c1]; cbn [snd] in *; [|done|done].
  enough (Hp : preserves (client_inv calls served n ids' (ws ++ ms))
    (over ← finish self gen st; if (over : bool) then modify (drop_creceiver gen) else mret tt)) by (by apply Hp).
  apply preserves_bind; [by apply keep_finish|]. intros over. destruct over; [|preserve].
  intros c2. apply keep_drop_creceiver.
Qed.

(** ** The session *)

(** Where the requests are: in the client's queue, on the wire, with the reader or
    a task of the server, or computed. *)
Definition link_ids (k : Connection) : list Z := concat (map (fun p => req_ids (env_body p)) (tasks k ++ acquiring k)).
Definition whereabouts (j : Joint) : list Z :=
  concat (map queued_ids (client_queue (client j))) ++ concat (map frame_ids (up j))
  ++ link_ids (link j) ++ map fst (served j).

Record joint_ok (j : Joint) : Prop := {
  jk_calls : calls_fit (calls j);
  jk_client : client_ok (calls j) (served j) (client j);
  jk_counter : 0 <= next_request_id (client j);
  jk_up : Forall (up_ok (calls j)) (up j);
  jk_world : world_ok (served j) (world j);
  jk_down : Forall (down_ok (served j)) (down j);
  jk_tasks : Forall (fun p => request_ok (calls j) (env_body p)) (tasks (link j) ++ acquiring (link j));
  jk_nodup : NoDup (whereabouts j);
  jk_known : Forall (fun id => is_Some (calls j !! id)) (whereabouts j);
  jk_served id r : (id, r) ∈ served j -> exists q, calls j !! id = Some q /\ answered id q r;
}.

Lemma submseteq_nodup {T} (l1 l2 : list T) : l1 ⊆+ l2 -> NoDup l2 -> NoDup l1.
Proof. intros (l & ->)%submseteq_Permutation. by intros (? & _)%list.NoDup_app. Qed.
Lemma submseteq_forall {T} (Q : T -> Prop) (l1 l2 : list T) : l1 ⊆+ l2 -> Forall Q l2 -> Forall Q l1.
Proof. intros (l & ->)%submseteq_Permutation. by intros (? & _)%Forall_app. Qed.

(** Requests only move on. *)
Lemma known_moves j l : l ⊆+ whereabouts j -> joint_ok j -> NoDup l /\ Forall (fun id => is_Some (calls j !! id)) l.
Proof. intros Hs []. split; [by eapply submseteq_nodup|by eapply submseteq_forall]. Qed.

(** A step of the client that makes no call. *)
Lemma joint_client c c' k w u u' d d' ca se :
  (forall n ids ws, client_inv ca se n ids ws c ->
     exists ids', client_inv ca se n ids' (cwire c') c'
       /\ concat (map frame_ids u') ++ ids' ⊆+ ids ++ concat (map frame_ids u)) ->
  (forall m, m ∈ u' -> up_ok ca m \/ m ∈ u) -> (forall m, m ∈ d' -> m ∈ d) ->
  joint_ok (mkJoint c k w u d ca se) ->
  joint_ok (mkJoint c' k w u' d' ca se) /\ next_request_id c' = next_request_id c.
Proof.
  intros Hinv Hu Hd Hj. pose proof Hj as [Hca Hcl Hcnt Hup Hw Hdown Ht Hn Hk Hs]. cbn [client link world up down calls served] in *.
  destruct (Hinv _ _ _ (conj Hcl (conj eq_refl (conj eq_refl eq_refl)))) as (ids' & (Hcl' & Hn' & Hids & _) & Hsub).
  split; [|done].
  destruct (known_moves (mkJoint c k w u d ca se) (whereabouts (mkJoint c' k w u' d' ca se))) as [Hn1 Hk1]; [|done|].
  - unfold whereabouts. cbn [client link world up down calls served]. rewrite Hids, !app_assoc.
    do 2 apply submseteq_skips_r. by rewrite (Permutation_app_comm ids').
  - split; cbn [client link world up down calls served]; try done.
    + by rewrite Hn'.
    + apply list.Forall_forall. intros m [?|?]%Hu; [done|]. by eapply list.Forall_forall in Hup.
    + apply list.Forall_forall. intros m ?%Hd. by eapply list.Forall_forall in Hdown.
Qed.

(** A step of the server that moves no request. *)
Lemma joint_world c k w w' u d d' ca se :
  (world_ok se w -> world_ok se w' /\ (forall m, m ∈ d' -> down_ok se m \/ m ∈ d)) ->
  joint_ok (mkJoint c k w u d ca se) -> joint_ok (mkJoint c k w' u d' ca se).
Proof.
  intros Hw []. cbn [client link world up down calls served] in *. destruct (Hw ltac:(done)) as [Hw' Hd].
  split; cbn [client link world up down calls served]; try done.
  apply list.Forall_forall. intros m [?|?]%Hd; [done|]. by eapply list.Forall_forall in jk_down0.
Qed.

Lemma outcome_mono se se' id r : se ⊆ se' -> outcome_ok se id r -> outcome_ok se' id r.
Proof. intros Hs [?|[?|(p & Hp & ?)]]; [by left|by right; left|]. right; right. exists p. split; [by apply Hs|done]. Qed.

(** A step of the reader or of a task of this connection. *)
Lemma joint_link c k k' w w' u u' d ca se extra :
  joint_ok (mkJoint c k w u d ca se) ->
  world_ok (se ++ extra) w' -> (forall m, m ∈ u' -> m ∈ u) ->
  Forall (fun p => request_ok ca (env_body p)) (tasks k' ++ acquiring k') ->
  concat (map frame_ids u') ++ link_ids k' ++ map fst extra ⊆+ concat (map frame_ids u) ++ link_ids k ->
  (forall id p, (id, p) ∈ extra -> exists q, ca !! id = Some q /\ answered id q p) ->
  joint_ok (mkJoint c k' w' u' d ca (se ++ extra)).
Proof.
  intros Hj Hw Hu Ht Hsub Hx.
  destruct (known_moves (mkJoint c k w u d ca se) (whereabouts (mkJoint c k' w' u' d ca (se ++ extra)))) as [Hn1 Hk1]; [|exact Hj|].
  - unfold whereabouts. cbn [client link world up down calls served]. apply submseteq_skips_l. rewrite map_app.
    rewrite (Permutation_app_comm (map fst se)), !app_assoc. apply submseteq_skips_r. by rewrite <- !app_assoc.
  - assert (Hse : se ⊆ se ++ extra) by (intros x Hin; apply elem_of_app; by left).
    destruct Hj. split; cbn [client link world up down calls served] in *; try done.
    + destruct jk_client0 as (He & Hr & Hq & Ho). split_and!; try done. intros id r Hi Hl.
      eapply outcome_mono; [done|]. by eapply Ho.
    + apply list.Forall_forall. intros m ?%Hu. by eapply list.Forall_forall in jk_up0.
    + eapply list.Forall_impl; [done|]. intros [f| | | | |]; try done. cbn. intros Hf.
      by apply (out_mono se (se ++ extra) (PreEncoded f)).
    + intros id p [Hin|Hin]%elem_of_app; [by apply jk_served0|by apply Hx].
Qed.

(** A call. *)
Lemma request_mono ca ca' b : ca ⊆ ca' -> request_ok ca b -> request_ok ca' b.
Proof. intros Hs. destruct b; try done. intros [Hr ->]. split; [by eapply lookup_weaken|done]. Qed.

Lemma joint_call route params atts c k w u d ca se :
  (forall id, in_u 64 id -> body_ok (ApiRequest id route params atts client_metadata)) ->
  next_request_id c < 2 ^ 64 - 1 -> joint_ok (mkJoint c k w u d ca se) -> is_connected c = true ->
  joint_ok (mkJoint (call_begin self route params atts c).2 k w u d
    (<[next_request_id c + 1 := (route, params, atts)]> ca) se)
  /\ next_request_id (call_begin self route params atts c).2 = next_request_id c + 1.
Proof.
  intros Hfit Hlt Hj Hconn. pose proof Hj as [Hca Hcl Hcnt Hup Hw Hdown Ht Hn Hk Hs].
  cbn [client link world up down calls served] in *. set (n := next_request_id c) in *.
  assert (Hb : body_ok (ApiRequest (n + 1) route params atts client_metadata)) by (apply Hfit; unfold in_u; lia).
  assert (Hnew : ca !! (n + 1) = None).
  { destruct (ca !! (n + 1)) eqn:Hl; [|done]. destruct Hcl as (_ & Hr & _). specialize (Hr (n + 1) ltac:(eauto)). lia. }
  assert (Hsub : ca ⊆ <[n + 1 := (route, params, atts)]> ca) by (by apply insert_subseteq).
  destruct (call_inv ca se n _ _ route params atts c (conj Hcl (conj eq_refl (conj eq_refl eq_refl))) Hcnt ltac:(lia) Hconn Hb)
    as (extra & Hx & (Hcl' & Hn' & Hids & _)).
  split; [|done]. set (ca' := <[n + 1 := _]> ca) in *.
  assert (Hp : whereabouts (mkJoint (call_begin self route params atts c).2 k w u d ca' se)
    ≡ₚ extra ++ whereabouts (mkJoint c k w u d ca se)).
  { unfold whereabouts. cbn [client link world up down calls served]. rewrite Hids.
    by rewrite (Permutation_app_comm _ extra), <- !app_assoc. }
  split; cbn [client link world up down calls served]; try done.
  - apply map_Forall_insert_2; [exact Hb|done].
  - lia.
  - eapply list.Forall_impl; [done|]. intros [f| | | | |]; try done. cbn. intros Hf env Hd.
    eapply request_mono; [done|]. by apply Hf.
  - eapply list.Forall_impl; [done|]. cbn. intros p. by apply request_mono.
  - rewrite Hp. destruct Hx as [->| ->]; [done|]. apply list.NoDup_cons. split; [|done].
    intros Hin. eapply list.Forall_forall in Hk; [|done]. cbn in Hk. rewrite Hnew in Hk. by destruct Hk.
  - rewrite Hp. apply Forall_app. split.
    + destruct Hx as [->| ->]; [constructor|]. apply Forall_singleton. unfold ca'. rewrite lookup_insert_eq. eauto.
    + eapply list.Forall_impl; [done|]. cbn. intros id [q Hq]. exists q. by eapply lookup_weaken.
  - intros id p Hin. destruct (Hs id p Hin) as (q & Hq & Ha). exists q. split; [by eapply lookup_weaken|done].
Qed.

(** What is asked of the parties: the ends hold the same keys, the application's
    handlers disturb neither the requests nor the responses of others, and what
    the route handlers return is representable. *)
Definition session_sound : Prop :=
  codecs_agree
  /\ (forall served, handlers_keep s (world_ok served))
  /\ responses_fit
  /\ (forall calls served n ids ws, client_handlers_keep (client_inv calls served n ids ws)).

Lemma joint_client_quiet c c' k w u d d' ca se :
  (forall n ids ws, client_inv ca se n ids ws c -> client_inv ca se n ids ws c') -> (forall m, m ∈ d' -> m ∈ d) ->
  joint_ok (mkJoint c k w u d ca se) ->
  joint_ok (mkJoint c' k w u d' ca se) /\ next_request_id c' = next_request_id c.
Proof.
  intros Hinv Hd. apply joint_client; [|by right|done]. intros n ids ws Hc. exists ids. specialize (Hinv _ _ _ Hc).
  split; [|by rewrite Permutation_app_comm]. destruct Hinv as (? & ? & ? & <-). by split_and!.
Qed.

(** A frame that the server's reader takes. *)
Lemma joint_serve c k w m u d ca se now : session_sound -> reader k = Reading ->
  joint_ok (mkJoint c k w (m :: u) d ca se) ->
  joint_ok (mkJoint c (conn_read s conn peer sc now (Received m) k w).1
    (conn_read s conn peer sc now (Received m) k w).2 u d ca se).
Proof.
  intros (Hag & Hh & Hfit & Hck) Hr Hj. rewrite <- (app_nil_r se).
  pose proof Hj as [Hca _ _ Hup Hw _ Ht _ _ _]. cbn [client link world up down calls served] in *.
  inversion_clear Hup as [|? ? Hm Hu]. unfold conn_read. rewrite Hr.
  pose proof (world_reader_own Hag ca se now m Hca Hm w Hw) as Hw1.
  destruct (reader_step s conn peer sc now (Received m) w) as [r w1] eqn:Hstep. cbn [fst snd] in *.
  assert (Hacq : acquiring k = []) by (unfold acquiring; by rewrite Hr). rewrite Hacq, app_nil_r in Ht.
  assert (Hgo : forall st, (forall p, st <> Acquiring p) ->
    joint_ok (mkJoint c (mkConnection (permits k) (tasks k) st) w1 u d ca (se ++ []))).
  { intros st Hst. assert (Hn : acquiring (mkConnection (permits k) (tasks k) st) = [])
      by (unfold acquiring; cbn; destruct st; try done; by destruct (Hst packet)).
    eapply (joint_link c k); [exact Hj|by rewrite app_nil_r|set_solver|by rewrite Hn, app_nil_r| |by intros ? ? ?%elem_of_nil].
    unfold link_ids. rewrite Hn, Hacq. cbn [map fst tasks]. rewrite concat_cons, !app_nil_r, <- app_assoc.
    by apply submseteq_inserts_l. }
  destruct r as [[| |p]|e|]; cbn [reader_after]; try (by apply Hgo).
  apply (reader_spawns now) in Hstep as (f & -> & Hd).
  eapply (joint_link c k); [exact Hj|by rewrite app_nil_r|set_solver| | |by intros ? ? ?%elem_of_nil].
  - apply Forall_app. split; [done|]. apply Forall_singleton. by apply Hm.
  - unfold link_ids. rewrite Hacq. cbn [map fst tasks acquiring reader]. rewrite concat_cons, !map_app, !concat_app.
    cbn [frame_ids map concat]. rewrite Hd, !app_nil_r. rewrite (Permutation_app_comm (req_ids _)), <- !app_assoc.
    by rewrite (Permutation_app_comm (req_ids _)).
Qed.

(** A handler task that ends. *)
Lemma joint_finish c k w u d ca se i p : session_sound -> tasks k !! i = Some p ->
  joint_ok (mkJoint c k w u d ca se) ->
  joint_ok (mkJoint c (conn_finish s conn peer i k w).1 (conn_finish s conn peer i k w).2 u d ca (se ++ computed p w)).
Proof.
  intros (Hag & Hh & Hfit & Hck) Hi Hj. pose proof Hj as [Hca _ _ _ Hw _ Ht _ _ _]. cbn [client link world up down calls served] in *.
  unfold conn_finish. rewrite Hi. cbn [fst snd].
  assert (Hperm : tasks k ++ acquiring k ≡ₚ p :: delete i (tasks k) ++ acquiring k)
    by (by rewrite (delete_Permutation _ _ _ Hi) at 1).
  rewrite Hperm in Ht. inversion_clear Ht as [|? ? Hp Hrest].
  assert (Hc : forall id p', (id, p') ∈ computed p w -> req_ids (env_body p) = [id] /\ exists q, ca !! id = Some q /\ answered id q p').
  { unfold computed. destruct (env_body p) as [id route params atts md| | | | |]; try by intros ? ? ?%elem_of_nil.
    destruct Hp as [Hq ->]. intros id' p' [= -> ->]%list_elem_of_singleton. split; [done|]. exists (route, params, atts).
    split; [done|]. by exists w. }
  eapply (joint_link c k); [exact Hj|by eapply world_process_own|done|done| |intros id p' Hin; by apply Hc].
  apply submseteq_skips_l. unfold link_ids. cbn [tasks acquiring reader]. fold (acquiring k).
  change (acquiring (mkConnection (permits k + 1) (delete i (tasks k)) (reader k))) with (acquiring k).
  rewrite Hperm, map_cons, concat_cons. rewrite Permutation_app_comm. apply submseteq_skips_r.
  unfold computed in *. by destruct (env_body p).
Qed.

Lemma joint_writes c k w u d ca se failure : session_sound ->
  joint_ok (mkJoint c k w u d ca se) ->
  let c' := (writer_task self gen cc failure c).2 in
  joint_ok (mkJoint c' k w (u ++ drop (length (cwire c)) (cwire c')) d ca se)
  /\ next_request_id c' = next_request_id c.
Proof.
  intros (Hag & _ & _ & Hck) Hj. cbv zeta.
  pose proof Hj as [_ Hcl _ _ _ _ _ _ _ _]. cbn [client link world up down calls served] in *.
  destruct (writer_inv ca se _ _ _ failure c Hag (Hck ca se _) (conj Hcl (conj eq_refl (conj eq_refl eq_refl))))
    as (ms & ids' & Hc' & Hms & Hsub).
  assert (Hw : cwire (writer_task self gen cc failure c).2 = cwire c ++ ms) by apply Hc'.
  rewrite Hw, drop_app_length. eapply joint_client; [| |done|exact Hj].
  - intros n ids ws (_ & <- & <- & _). exists ids'. rewrite Hw. split; [done|].
    rewrite map_app, concat_app, <- app_assoc, (Permutation_app_comm _ (concat (map frame_ids u))).
    by apply submseteq_skips_l.
  - intros m [?|Hin]%elem_of_app; [by right|left]. by eapply list.Forall_forall in Hms.
Qed.

Lemma link_step_ok j j' : session_sound -> link_step j j' -> joint_ok j ->
  joint_ok j' /\ next_request_id (client j') = next_request_id (client j).
Proof.
  intros Hss Hs Hj. pose proof Hss as (Hag & Hh & Hfit & Hck).
  assert (Hq : forall c c' k w u d d' ca se,
    (forall n ids ws, client_handlers_keep (client_inv ca se n ids ws) -> client_inv ca se n ids ws c -> client_inv ca se n ids ws c') ->
    (forall m, m ∈ d' -> m ∈ d) -> joint_ok (mkJoint c k w u d ca se) ->
    joint_ok (mkJoint c' k w u d' ca se) /\ next_request_id c' = next_request_id c).
  { intros c c' k w u d d' ca se Hinv. apply joint_client_quiet. intros n ids ws. apply Hinv, Hck. }
  destruct Hs; cbn [client] in *.
  - by apply joint_writes.
  - eapply (Hq c); [|done|exact Hj]. intros n ids ws Hk. by apply keep_writer_stopped.
  - eapply (Hq c); [|done|exact Hj]. intros n ids ws Hk. by apply keep_heartbeat.
  - eapply (Hq c); [|intros ? ?; by right|exact Hj].
    intros n ids ws Hk. apply keep_reader_task; [done|]. intros m' [= <-]. apply down_heard.
    pose proof (jk_down _ Hj) as Hd. by inversion_clear Hd.
  - eapply (Hq c); [|done|exact Hj]. intros n ids ws Hk. apply keep_reader_task; [done|]. intros m Hm. naive_solver.
  - by split; [apply joint_serve|].
  - split; [|done]. pose proof Hj as [_ _ _ _ Hw _ Ht _ _ _]. cbn [client link world up down calls served] in *.
    assert (Hl : tasks (conn_acquire k) ++ acquiring (conn_acquire k) = tasks k ++ acquiring k).
    { unfold conn_acquire, acquiring. destruct (reader k) as [|p|r] eqn:Hr; rewrite ?Hr; try done.
      case_bool_decide; cbn; rewrite ?Hr, ?app_nil_r; done. }
    rewrite <- (app_nil_r se). eapply (joint_link c k); [exact Hj|by rewrite app_nil_r|done|by rewrite Hl| |by intros ? ? ?%elem_of_nil].
    unfold link_ids. by rewrite Hl, app_nil_r.
  - by split; [apply joint_finish|].
  - split; [|done]. eapply joint_world; [|exact Hj]. intros Hw. destruct (world_writer_own Hag se failure w Hw) as [H1 H2].
    split; [done|]. intros m [?|Hin]%elem_of_app; [by right|left]. by eapply list.Forall_forall in H2.
  - split; [|done]. eapply joint_world; [|exact Hj]. intros Hw. split; [by apply world_heartbeat|].
    pose proof (world_heartbeat_own se failure w Hw) as H2.
    intros m [?|Hin]%elem_of_app; [by right|left]. by eapply list.Forall_forall in H2.
Qed.

Lemma joint_step_ok j j' : session_sound -> joint_step j j' -> joint_ok j -> next_request_id (client j) < 2 ^ 64 - 1 ->
  joint_ok j' /\ next_request_id (client j') <= next_request_id (client j) + 1.
Proof.
  intros Hss Hs Hj Hlt. pose proof Hss as (Hag & Hh & Hfit & Hck).
  destruct Hs as [route params atts c k w u d ca se Hb|c c' k w u d ca se Ha|j j' Hs|w' c k w u d ca se Ho]; cbn [client] in *.
  - destruct (is_connected c) eqn:Hconn.
    + pose proof (jk_counter _ Hj). cbn [client] in *. rewrite wrap_small by lia.
      destruct (joint_call route params atts c k w u d ca se) as [? ->]; done.
    + rewrite call_begin_cases, Hconn. split; [exact Hj|cbn [negb snd]; lia].
  - destruct (joint_client_quiet c c' k w u d d ca se) as [H1 H2]; [|done|exact Hj|split; [exact H1|lia]].
    intros n ids ws. apply app_step_keeps; [apply Hck|done].
  - destruct (link_step_ok _ _ Hss Hs Hj) as [? ->]. split; [done|lia].
  - split; [|lia]. eapply joint_world; [|exact Hj]. intros Hw. split; [|by right].
    eapply other_step_ok; [done|done| |exact Ho|exact Hw]. done.
Qed.

Lemma joint_run_ok m j j' : session_sound -> nsteps joint_step m j j' -> joint_ok j ->
  next_request_id (client j) + Z.of_nat m < 2 ^ 64 -> joint_ok j'.
Proof.
  intros Hss Hr. induction Hr as [j|m j1 j2 j3 Hs _ IH]; intros Hj Hm; [done|].
  destruct (joint_step_ok _ _ Hss Hs Hj ltac:(lia)) as [Hj2 Hn]. apply IH; [done|lia].
Qed.

(** A new connection: nothing queued, nothing asked. *)
Definition session_start c w : Joint := mkJoint c (connection_new s) w [] [] ∅ [].
(** [getrandom] fills the client's buffers. *)
Definition client_entropy_ok c : Prop :=
  forall n bs, centropy c n CHACHA20_NONCE_LEN = Ok bs -> blen bs = 12.

Lemma joint_start c w : client_inv ∅ [] (next_request_id c) [] (cwire c) c -> 0 <= next_request_id c ->
  world_ok [] w -> joint_ok (session_start c w).
Proof.
  intros (Hc & _ & Hids & _) Hn Hw.
  assert (Hwh : whereabouts (session_start c w) = []) by (unfold whereabouts, session_start; cbn [client]; by rewrite Hids).
  split; try (rewrite Hwh; constructor); unfold session_start; cbn [client link world up down calls served]; try done; try (by constructor).
  by intros id p ?%elem_of_nil.
Qed.
Lemma session_start_ok c w :
  client_ready gen c -> client_entropy_ok c -> server_ready conn w -> clients_wf w -> entropy_ok w ->
  joint_ok (session_start c w).
Proof.
  intros (([Hr _] & _) & _ & _ & _ & Hch) He (_ & Hq) Hwf Hent. apply joint_start; [|apply Hr|].
  - assert (Hcq : client_queue c = []) by (unfold client_queue; by rewrite Hch).
    unfold client_inv, client_ok. rewrite Hcq. split_and!; try done; [by intros id [q Hl]|by intros id r [q Hl]].
  - split_and!; [done|done|]. intros ch. rewrite Hq. intros [= <-]. constructor.
Qed.

(** What calls and the server get of each other: each request is executed at most
    once, and only if it was made, with its own content; and a call gets a
    timeout, the end of the connection, the refusal of the rate limiter or the
    outcome of executing its own request. *)
Definition faithful (j : Joint) : Prop :=
  NoDup (map fst (served j))
  /\ (forall id x, (id, x) ∈ served j -> exists q, calls j !! id = Some q /\ answered id q x)
  /\ forall id q timed_out r, calls j !! id = Some q -> (call_poll id timed_out (client j)).1 = Some r ->
       r = Err Timeout
       \/ (exists reason, r = Err (ConnectionClosed reason))
       \/ r = Err (Remote busy_error)
       \/ exists p, (id, Ok p) ∈ served j /\ answered id q (Ok p) /\ answer p = Some r.

Lemma joint_faithful j : joint_ok j -> faithful j.
Proof.
  intros [_ Hcl _ _ _ _ _ Hn _ Hs]. split_and!; [|done|].
  - unfold whereabouts in Hn. by repeat apply list.NoDup_app in Hn as (_ & _ & Hn).
  - intros id q timed_out r Hq Hpoll. unfold call_poll in Hpoll.
    destruct (api_outcomes (client j) !! id) as [r'|] eqn:Hl.
    + injection Hpoll as ->. destruct Hcl as (_ & _ & _ & Ho).
      destruct (Ho id r ltac:(eauto) Hl) as [?|[?|(p & Hp & Ha)]]; [by right; left|by do 2 right; left|].
      do 3 right. exists p. destruct (Hs id (Ok p) Hp) as (q' & Hq' & Hans). by simplify_eq.
    + destruct timed_out; [|done]. injection Hpoll as <-. by left.
Qed.

(** No call gets another's answer, and none runs twice.  Over one connection,
    whatever the calls of the client, the order in which the tasks of both sides
    run, the rest of the server and the failures of the sockets: each request is
    executed at most once, and only if the client made it, with its own route,
    parameters and attachments; and what a call gets is a timeout, the end of the
    connection, the refusal of the rate limiter, or the outcome of executing its
    own request. *)
Theorem calls_answered_faithfully m c w j :
  session_sound -> client_ready gen c -> client_entropy_ok c ->
  server_ready conn w -> clients_wf w -> entropy_ok w ->
  nsteps joint_step m (session_start c w) j -> next_request_id c + Z.of_nat m < 2 ^ 64 ->
  NoDup (map fst (served j))
  /\ (forall id x, (id, x) ∈ served j -> exists q, calls j !! id = Some q /\ answered id q x)
  /\ forall id q timed_out r, calls j !! id = Some q -> (call_poll id timed_out (client j)).1 = Some r ->
       r = Err Timeout
       \/ (exists reason, r = Err (ConnectionClosed reason))
       \/ r = Err (Remote busy_error)
       \/ exists p, (id, Ok p) ∈ served j /\ answered id q (Ok p) /\ answer p = Some r.
Proof.
  intros Hss Hc Hce Hw Hwf He Hr Hm. apply joint_faithful.
  by apply (joint_run_ok _ _ _ Hss Hr (session_start_ok c w Hc Hce Hw Hwf He)).
Qed.
End Session.

(** ** Instances *)
Section Sample.
#[local] Existing Instances bit_json xor_x25519 prefix_sha256 plain_texts.

(** A server with one route, and the client of [shared_codec]. *)
Definition greeting_server : WscallServer (App:=unit) :=
  server_with_max_frame_bytes
    (route (with_codec server_new shared_codec Aes256) "greet" (fun _ => mret (Str "hi"))) 4096.

Lemma greeting_fits id : in_u 64 id -> body_ok (ApiResponse id true 200 (Str "hi") None empty_object).
Proof.
  intros Hid. split; [|done]. split_and!; [by split_and!; [..|constructor]| |constructor].
  unfold ser_exact. rewrite !andb_true_iff. split_and!; [vm_compute; reflexivity| |vm_compute; reflexivity].
  cbn [serialize ser_value entries_value]. destruct Hid.
  repeat (apply json_exact_insert; [|reflexivity|]); try reflexivity; cbn; lia.
Qed.
Lemma greet_fits id : in_u 64 id -> body_ok (ApiRequest id "greet" (Str "you") [] client_metadata).
Proof.
  intros Hid. split; [|done]. split_and!; [done| |constructor].
  unfold ser_exact. rewrite !andb_true_iff. split_and!; [vm_compute; reflexivity| |vm_compute; reflexivity].
  cbn [serialize ser_value entries_value]. destruct Hid.
  repeat (apply json_exact_insert; [|reflexivity|]); try reflexivity; cbn; lia.
Qed.

(** The same, whatever the encryption and whoever the client. *)
Definition greeting_with (e : EncryptionKind) (ecdh : bool) : WscallServer (App:=unit) :=
  let s := greeting_server in
  mkWscallServer (routes s) (filters s) (event_handlers s) (connection_handlers s) (disconnect_handlers s)
    (exception_handler s) (codec s) e ecdh (max_connections s) (max_in_flight s) (server_max_frame_bytes s)
    (rate_limiter s) (auth_handler s).
Lemma greeting_sound_with url cfg e ecdh conn peer gen cc sc : codecs_agree (greeting_with e ecdh) cc sc ->
  session_sound (client_new (App:=unit) url cfg) (greeting_with e ecdh) conn peer gen cc sc.
Proof.
  intros Hag. split; [exact Hag|split; [|split]].
  - intros served. refine (conj _ (conj _ (conj _ (conj _ (conj _ (conj I I)))))); cbn;
      [constructor| |apply map_Forall_empty|constructor..].
    apply map_Forall_insert_2; [|apply map_Forall_empty]. intros ctx w Hw. exact Hw.
  - intros id [[route params] atts] p [[Hid _] _] [w Hw]. cbn [fst snd] in *. revert Hw.
    unfold run_api_request. run_M. cbn.
    destruct (decide (route = "greet")) as [->|Hne].
    + rewrite lookup_insert_eq. intros [= <-]. by apply greeting_fits.
    + rewrite lookup_insert_ne, lookup_empty by done. intros [= <-]. apply error_response_ok; try done; by repeat constructor.
  - intros calls served n ids ws. split; [apply map_Forall_empty|constructor].
Qed.
Lemma greeting_sound_on conn peer gen cc sc : codecs_agree greeting_server cc sc ->
  session_sound shared_client greeting_server conn peer gen cc sc.
Proof. exact (greeting_sound_with _ _ Aes256 false conn peer gen cc sc). Qed.
Lemma greeting_agree : codecs_agree greeting_server shared_codec server_session.
Proof. split_and!; try reflexivity; vm_compute; discriminate. Qed.
Lemma greeting_sound :
  session_sound shared_client greeting_server "c1" peer1 1 shared_codec server_session.
Proof. apply greeting_sound_on, greeting_agree. Qed.

(** One call, all the way. *)
Definition greeting_request : bytes :=
  match encode shared_codec (Ok (replicate 12 x09))
    (with_encryption (ApiRequest 1 "greet" (Str "you") [] client_metadata) Aes256) with Ok f => f | _ => [] end.
Definition greeting_response : bytes :=
  match encode shared_codec (Ok (replicate 12 x09))
    (with_encryption (ApiResponse 1 true 200 (Str "hi") None empty_object) Aes256) with Ok f => f | _ => [] end.

Abbreviation step := (joint_step shared_client greeting_server "c1" peer1 1 shared_codec server_session).
Lemma greeting_run : exists j,
  nsteps step 7 (session_start greeting_server sample_connected sample_world) j
  /\ calls j !! 1 = Some ("greet", Str "you", []) /\ (call_poll 1 false (client j)).1 = Some (Ok (Str "hi")).
Proof.
  eexists. split.
  - eapply nsteps_l; [apply JCall with (route := "greet") (params := Str "you") (atts := []), greet_fits|].
    eapply nsteps_l; [apply JLink, LWrite with (failure := None)|]. cbv zeta.
    match goal with |- nsteps _ _ (mkJoint _ _ _ ?u _ _ _) _ => replace u with [MBinary greeting_request] by (vm_compute; reflexivity) end.
    eapply nsteps_l; [apply JLink, LServe with (now := 0); reflexivity|].
    eapply nsteps_l; [apply JLink, LAcquire|].
    eapply nsteps_l; [apply JLink, LFinish with (i := 0%nat); vm_compute; reflexivity|].
    eapply nsteps_l; [apply JLink, LServerWrite with (failure := None)|]. cbv zeta.
    match goal with |- nsteps _ _ (mkJoint _ _ _ _ ?d _ _) _ => replace d with [MBinary greeting_response] by (vm_compute; reflexivity) end.
    eapply nsteps_l; [apply JLink, LRead|]. apply nsteps_O.
  - split; vm_compute; reflexivity.
Qed.

Lemma calls_answered_faithfully_witness : exists (j : Joint (A:=unit) (B:=unit)) p,
  NoDup (map fst (served j)) /\ (1, Ok p) ∈ served j /\ answer p = Some (Ok (Str "hi"))
  /\ answered greeting_server "c1" peer1 1 ("greet", Str "you", []) (Ok p).
Proof.
  destruct greeting_run as (j & Hr & Hc & Hp).
  destruct (calls_answered_faithfully (JL:=bit_json_laws) shared_client greeting_server "c1" peer1 1
    shared_codec server_session 7 sample_connected sample_world j greeting_sound) as (Hn & _ & Ho).
  - split_and!; [exact sample_connected_wf|reflexivity..].
  - intros n bs. vm_compute. by intros [= <-].
  - split; [|reflexivity]. eexists. split; reflexivity.
  - exact sample_world_wf.
  - exact sample_entropy_ok.
  - exact Hr.
  - vm_compute. reflexivity.
  - destruct (Ho 1 _ false _ Hc Hp) as [H0|[[reason H0]|[H0|(p & Hin & Ha & Hans)]]]; [discriminate..|].
    exists j, p. split; [exact Hn|]. split; [exact Hin|]. split; [exact Hans|exact Ha].
Defined.
End Sample.
