(* ===== verification/Lifetime.v ===== *)
(** * The life of a client: connections that come and go

    A [WscallClient] over all its connections with a server.  Each connection
    (generation) has its own [Link]: the connection id and codecs agreed when it
    was established, the server's reader, permits and tasks for it, the two
    directions of its socket, the calls made over it and the requests the server
    executed for it.  The supervisor begins attempts, which fail or establish a
    new link; the tasks of any link, old ones included, the application, the rest
    of the server and the calls interleave in any order.

    Generations are fresh ([gens_ok]) since every attempt takes the next one, and
    the ends of a link agree on its codec ([established_agree]): the client and the
    server are configured alike and, in a key agreement, receive each other's key.
    The instance at the end agrees on keys twice.

    A link alone is a [Session]; [joint_ok] is kept for every link at once.  What
    happens elsewhere passes a link by: it leaves the link's queues alone and only
    settles calls that are not the link's ([passes], [world_passes]). *)

From S2P Require Import Prelude Utf8 Json Protocol Texts Attachment PacketJson Codec RateLimiter.
From S2P Require Import Validation ServerTypes ServerRuntime ServerSystem ClientTypes ClientRuntime System Session.
#[local] Open Scope Z_scope.

Section Lifetime.
Context {J : SerdeJson} {C : Crypto} {X : X25519} {H : Sha256} {TX : ErrorTexts} {A B : Type}.
Context {JL : SerdeJsonLaws J} {CL : CryptoLaws C} {XL : X25519Laws X}.
Abbreviation Cl := (Client (App:=A)).
Abbreviation W := (World B).
Context (self : WscallClient (App:=A)).
Context (s : WscallServer (App:=B)).
Implicit Types (c : Cl) (w : W).

(** ** Links *)
Record Link : Type := mkLink {
  l_conn : string;
  l_peer : SocketAddr;
  l_cc : FrameCodec;
  l_sc : FrameCodec;
  l_tasks : Connection;
  l_up : list Message;
  l_down : list Message;
  l_calls : gmap Z Asked;
  l_served : Served;
}.
Implicit Types (l : Link) (ls : gmap Z Link).

Definition joint_of l c w : Joint (A:=A) (B:=B) :=
  mkJoint c (l_tasks l) w (l_up l) (l_down l) (l_calls l) (l_served l).
Definition relink l (j : Joint (A:=A) (B:=B)) : Link :=
  mkLink (l_conn l) (l_peer l) (l_cc l) (l_sc l) (link j) (up j) (down j) (calls j) (served j).
Definition linked_call (id : Z) (q : Asked) l : Link :=
  mkLink (l_conn l) (l_peer l) (l_cc l) (l_sc l) (l_tasks l) (l_up l) (l_down l) (<[id := q]> (l_calls l)) (l_served l).
(** A link just established. *)
Definition new_link (conn : string) (peer : SocketAddr) (cc sc : FrameCodec) : Link :=
  mkLink conn peer cc sc (connection_new s) [] [] ∅ [].

(** [trying] while the supervisor is between the beginning and the end of an
    attempt. *)
Record Life : Type := mkLife {
  owner : Cl;
  server : W;
  links : gmap Z Link;
  trying : bool;
}.

(** A call is made over the connection whose writer has the queue. *)
Definition made (g : option Z) (id : Z) (q : Asked) ls : gmap Z Link :=
  match g with Some g => alter (linked_call id q) g ls | None => ls end.
(** The server's connections without a link here. *)
Definition unlinked ls (conn : string) : Prop := map_Forall (fun _ l => conn <> l_conn l) ls.

(** ** Steps *)

(** In a key agreement each side receives what the other has written in it. *)
Definition keys_exchanged (attempt : string -> option string) (hello : Next) (hf : option string)
    (conn : string) (peer : SocketAddr) (now : Z) (shello : Next) (shf : option string) c w : Prop :=
  let c1 := (connect_any self attempt c).2 in
  let c2 := (client_handshake self hello hf c1).2 in
  let w1 := (refuse_banned peer now w).2 in
  let w2 := (perform_ecdh_handshake conn shello shf w1).2 in
  exists m m', cwire c2 = cwire c1 ++ [m] /\ shello = Received m
    /\ wire w2 = wire w1 ++ [(conn, m')] /\ hello = Received m'.

Inductive life_step : Life -> Life -> Prop :=
| LifeLink g l c w ls b j :
    ls !! g = Some l ->
    link_step self s (l_conn l) (l_peer l) g (l_cc l) (l_sc l) (joint_of l c w) j ->
    life_step (mkLife c w ls b) (mkLife (client j) (world j) (<[g := relink l j]> ls) b)
| LifeApp c c' w ls b :
    app_step self c c' -> life_step (mkLife c w ls b) (mkLife c' w ls b)
| LifeCall route params atts c w ls b :
    (forall id, in_u 64 id -> body_ok (ApiRequest id route params atts client_metadata)) ->
    life_step (mkLife c w ls b)
      (mkLife (call_begin self route params atts c).2 w
         (if is_connected c then made (writer c) (wrap 64 (next_request_id c + 1)) (route, params, atts) ls else ls) b)
| LifeServer c w w' ls b :
    other_step s (unlinked ls) w w' -> life_step (mkLife c w ls b) (mkLife c w' ls b)
| LifeAttempt g c c' w ls :
    begin_attempt c = (Ok (Some g), c') -> life_step (mkLife c w ls false) (mkLife c' w ls true)
| LifeFails attempt hello auth hf af c w ls :
    (forall k, (establish_connection self (connection_generation c) attempt hello auth hf af c).1 <> Ok k) ->
    life_step (mkLife c w ls true)
      (mkLife (establish_connection self (connection_generation c) attempt hello auth hf af c).2 w ls false)
| LifeConnect attempt hello auth hf af conn peer now shello sauth shf saf cc ses c c' w w' ls :
    let g := connection_generation c in
    unlinked ls conn -> channels w !! conn = None ->
    establish_connection self g attempt hello auth hf af c = (Ok cc, c') ->
    connect s conn peer now shello sauth shf saf w = (Ok (Some ses), w') ->
    (is_ecdh s = true -> keys_exchanged attempt hello hf conn peer now shello shf c w) ->
    life_step (mkLife c w ls true) (mkLife c' w' (<[g := new_link conn peer cc (ses_codec ses)]> ls) false).

(** The two sides are configured alike: both with key agreement, or both with the
    same keys; and the limits of their codecs are usable. *)
Definition modes_agree : Prop :=
  use_ecdh (cconfig self) = is_ecdh s
  /\ (is_ecdh s = false -> same_keys (cfg_codec (cconfig self)) (codec s))
  /\ Forall (fun n => 0 <= n <= 2 ^ 32)
       [max_frame_bytes (cfg_codec (cconfig self)); max_frame_bytes (codec s); server_max_frame_bytes s].

(** A property that all handlers of the client keep. *)
Definition all_handlers_keep (P : Cl -> Prop) : Prop :=
  client_handlers_keep self P /\ Forall (fun h => forall e, preserves P (h e)) (connected_handlers self).

(** The requirements of [Session] on whatever connection the codecs agree; the
    client's handlers leave requests and generations alone. *)
Definition life_sound : Prop :=
  (forall conn peer g cc sc, codecs_agree s cc sc -> session_sound self s conn peer g cc sc)
  /\ (forall g calls served n ids ws, all_handlers_keep (client_inv g calls served n ids ws))
  /\ (forall n, all_handlers_keep (fun c => connection_generation c = n))
  /\ modes_agree.

(** ** What passes a link by *)

(** The client of a link, whatever the wire has been given. *)
Definition drifts g calls (served : Served) n ids c : Prop := exists ws, client_inv g calls served n ids ws c.

Lemma preserves_drifts {E R} g calls served n ids (m : M Cl E R) :
  (forall ws, preserves (client_inv g calls served n ids ws) m) -> preserves (drifts g calls served n ids) m.
Proof. intros Hm c (ws & Hc). exists ws. by apply Hm. Qed.

Lemma drifts_same g calls served n ids c c' :
  centropy c' = centropy c -> next_request_id c' = next_request_id c ->
  client_queue g c' = client_queue g c -> api_outcomes c' = api_outcomes c ->
  drifts g calls served n ids c -> drifts g calls served n ids c'.
Proof.
  intros E1 E2 E3 E4 (ws & (He & Hr & Hq & Ho) & Hn & Hi & _). exists (cwire c').
  unfold client_inv, client_ok. by rewrite E1, E2, E3, E4.
Qed.

(** From [c] to [c'] a link's side of the client keeps its order. *)
Definition passes g calls (served : Served) c c' : Prop :=
  forall n ids ws, client_inv g calls served n ids ws c ->
    exists n', n <= n' <= n + 1 /\ drifts g calls served n' ids c'.
(** And its side of the server, unless it is the connection that moved. *)
Definition world_passes (moved : option string) w w' : Prop :=
  forall conn cc sc served, codecs_agree s cc sc -> moved <> Some conn ->
    world_ok conn cc served w -> world_ok conn cc served w'.

Lemma drifts_passes g calls served c c' :
  (forall n ids, drifts g calls served n ids c -> drifts g calls served n ids c') -> passes g calls served c c'.
Proof. intros Hd n ids ws Hc. exists n. split; [lia|]. apply Hd. by exists ws. Qed.

Lemma joint_passes conn peer g cc sc c c' k w w' u d ca se :
  joint_ok s conn peer g cc sc (mkJoint c k w u d ca se) ->
  passes g ca se c c' -> (world_ok conn cc se w -> world_ok conn cc se w') ->
  joint_ok s conn peer g cc sc (mkJoint c' k w' u d ca se).
Proof.
  intros [Hca Hcl Hcnt Hup Hw Hdown Ht Hn Hk Hs] Hp Hw'. cbn [client link world up down calls served] in *.
  destruct (Hp _ _ _ (conj Hcl (conj eq_refl (conj eq_refl eq_refl)))) as (n' & Hle & ws & Hcl' & <- & Hids & _).
  split; unfold whereabouts in *; cbn [client link world up down calls served] in *; rewrite ?Hids; auto; lia.
Qed.

(** ** What holds without any link *)
Definition client_base c : Prop := client_entropy_ok c /\ 0 <= next_request_id c.
Definition world_base w : Prop := clients_wf w /\ entropy_ok w.

Lemma base_inv g c : client_base c -> client_queue g c = [] ->
  client_inv g ∅ [] (next_request_id c) [] (cwire c) c.
Proof.
  intros [He _] Hq. unfold client_inv, client_ok. rewrite Hq. split_and!; try done.
  - by intros id [q Hl].
  - by intros id r [q Hl].
Qed.
Lemma unused_queue g c : cchannels c !! g = None -> client_queue g c = [].
Proof. unfold client_queue. by intros ->. Qed.

(** What passes by every link that could be keeps the basis. *)
Lemma base_passes (bad : gset Z) c c' :
  (forall g, g ∉ bad -> passes g ∅ [] c c') -> client_base c ->
  client_base c' /\ next_request_id c' <= next_request_id c + 1.
Proof.
  intros Hp Hb. set (g := fresh (bad ∪ dom (cchannels c))).
  assert (Hg : g ∉ bad ∪ dom (cchannels c)) by apply is_fresh.
  destruct (Hp g ltac:(set_solver) _ _ _ (base_inv g c Hb (unused_queue g c ltac:(apply not_elem_of_dom; set_solver))))
    as (n' & Hle & ws & (He & _) & Hn & _).
  destruct Hb. split; [split; [exact He|lia]|lia].
Qed.

Lemma agree_self : modes_agree -> codecs_agree s (codec s) (codec s).
Proof.
  intros (_ & _ & Hm). rewrite !list.Forall_cons in Hm. destruct Hm as (_ & Hm & _ & _).
  assert (Hk : same_keys (codec s) (codec s)) by (unfold same_keys; by destruct (codec s)).
  by split_and!; try apply Hm.
Qed.
Lemma unlinked_world conn cc w : world_base w -> channels w !! conn = None -> world_ok conn cc [] w.
Proof. intros [Hc He] Hn. split_and!; [done|done|]. intros ch. by rewrite Hn. Qed.

Lemma base_world_passes moved w w' :
  life_sound -> world_passes moved w w' -> world_base w -> world_base w'.
Proof.
  intros (_ & _ & _ & Hm) Hp Hb.
  assert (Hf : exists conn, channels w !! conn = None /\ moved <> Some conn).
  { set (bad := (dom (channels w) ∪ (match moved with Some x => {[x]} | None => ∅ end) : gset string)).
    exists (fresh bad). pose proof (is_fresh bad) as Hb'. unfold bad in Hb' at 2.
    split; [apply not_elem_of_dom; set_solver|]. destruct moved; set_solver. }
  destruct Hf as (conn & Hd & Hc).
  destruct (Hp conn _ _ [] (agree_self Hm) Hc) as (? & ? & _); [by apply unlinked_world|done].
Qed.

(** ** The steps of a link, as seen by the others *)
Lemma handlers_kept g calls served n ids ws : life_sound -> client_handlers_keep self (client_inv g calls served n ids ws).
Proof. intros (_ & Hs & _). apply Hs. Qed.

Section Drift.
Context (Hs : life_sound) (g' : Z) (ca : gmap Z Asked) (se : Served) (n : Z) (ids : list Z).
Abbreviation D := (drifts g' ca se n ids).

Lemma drift_finish g st : preserves D (finish self g st).
Proof. apply preserves_drifts. intros ws. by apply keep_finish, handlers_kept. Qed.
Lemma drift_send m failure : preserves D (cws_send m failure).
Proof. intros c Hc. destruct failure; [done|]. by eapply drifts_same; [..|exact Hc]. Qed.
Lemma drift_encode k p : preserves D (client_encode k p).
Proof. intros c Hc. by eapply drifts_same; [..|exact Hc]. Qed.
Lemma drift_write k m failure : preserves D (client_write k m failure).
Proof.
  pose proof (fun m => drift_send m failure) as Hd. pose proof (drift_encode k) as He.
  unfold client_write. destruct m; preserve.
Qed.

(** The writer of another link. *)
Lemma drift_writer g k failure : g' <> g -> preserves D (writer_task self g k failure).
Proof.
  intros Hne. unfold writer_task, client_writer_step. apply preserves_bind; [apply preserves_bind; [preserve|intros c0]|intros st].
  - destruct (cchannels c0 !! g) as [[[|m rest] []]|]; try solve [preserve].
    apply preserves_bind; [|intros _; apply drift_write]. intros c Hc.
    eapply drifts_same; [..|exact Hc]; try done. unfold client_queue. cbn. by rewrite lookup_insert_ne.
  - apply preserves_bind; [apply drift_finish|]. intros over. destruct over; [|preserve].
    apply preserves_modify. intros c (ws & Hc). exists ws. by apply keep_drop_creceiver.
Qed.
End Drift.

Lemma link_calls conn peer g cc sc (j j' : Joint (A:=A) (B:=B)) :
  link_step self s conn peer g cc sc j j' -> calls j' = calls j.
Proof. by intros []. Qed.

Lemma link_client_passes conn peer g cc sc (j j' : Joint (A:=A) (B:=B)) g' ca se :
  life_sound -> link_step self s conn peer g cc sc j j' -> g' <> g ->
  (forall m, m ∈ down j -> heard_frame_ok ca se cc m) -> passes g' ca se (client j) (client j').
Proof.
  intros Hs Hj Hne Hd. apply drifts_passes. intros n ids Hc.
  assert (Hk : forall ws, client_handlers_keep self (client_inv g' ca se n ids ws)) by (intros ws; by apply handlers_kept).
  destruct Hj; cbn [client down] in *; try exact Hc.
  - by apply drift_writer.
  - revert Hc. apply preserves_drifts. intros ws. by apply keep_writer_stopped.
  - revert Hc. apply preserves_drifts. intros ws. by apply keep_heartbeat.
  - revert Hc. apply preserves_drifts. intros ws. apply keep_reader_task; [done|].
    intros m' [= <-]. apply Hd. by left.
  - revert Hc. apply preserves_drifts. intros ws. apply keep_reader_task; [done|]. naive_solver.
Qed.

Lemma world_passes_refl moved w : world_passes moved w w.
Proof. by intros conn cc sc served _ _. Qed.

(** Other connections, and what a step of the rest of the server moves. *)
Lemma other_world_passes (foreign : string -> Prop) conn w w' : life_sound ->
  (forall conn', foreign conn' -> conn' = conn) -> other_step s foreign w w' -> world_passes (Some conn) w w'.
Proof.
  intros (Hs & _) Hf Ho conn' cc sc served Hag Hne. eapply other_step_ok; [exact Hag| | |exact Ho].
  - destruct (Hs conn' (V4 0, 0) 0 cc sc Hag) as (_ & Hh & _). apply Hh.
  - intros x Hx ->. apply Hne. by rewrite (Hf _ Hx).
Qed.
Lemma other_step_moves (foreign : string -> Prop) w w' : other_step s foreign w w' ->
  exists conn, other_step s (fun x => x = conn /\ foreign x) w w'.
Proof. intros []; eexists; econstructor; eauto. Unshelve. all: exact "". Qed.

Lemma link_world_passes conn peer g cc sc (j j' : Joint (A:=A) (B:=B)) :
  life_sound -> link_step self s conn peer g cc sc j j' -> world_passes (Some conn) (world j) (world j').
Proof.
  intros Hs Hj.
  assert (Ho : world j' = world j \/ other_step s (eq conn) (world j) (world j')).
  { destruct Hj; cbn [world]; try (by left).
    - unfold conn_read. rewrite H0. right. destruct (reader_step _ _ _ _ _ _ _) eqn:Hr. cbn.
      change w0 with (r, w0).2. rewrite <- Hr. by apply ORead.
    - unfold conn_finish. rewrite H0. right. by apply OTask.
    - right. by apply OWrite.
    - right. by apply OBeat. }
  destruct Ho as [->|Ho]; [apply world_passes_refl|]. by apply (other_world_passes (eq conn)).
Qed.
(** ** Calls and the application *)
Lemma app_passes c c' g ca se : life_sound -> app_step self c c' -> passes g ca se c c'.
Proof.
  intros Hs Ha. apply drifts_passes. intros n ids (ws & Hc). exists ws.
  eapply app_step_keeps; [|exact Ha|exact Hc]. by apply handlers_kept.
Qed.

(** A call over another connection, or over none. *)
Lemma call_passes route params atts c g ca se :
  (is_connected c = true -> writer c <> Some g) -> next_request_id c < 2 ^ 64 - 1 -> 0 <= next_request_id c ->
  passes g ca se c (call_begin self route params atts c).2.
Proof.
  intros Hw Hlt H0 n ids ws ((He & Hr & Hq & Ho) & Hn & Hids & Hws). rewrite call_begin_cases. cbv zeta.
  destruct (is_connected c) eqn:Hconn; cbn [negb]; [|exists n; split; [lia|by exists ws]].
  specialize (Hw eq_refl). rewrite wrap_small by lia. exists (n + 1). split; [lia|]. exists ws.
  set (m := CPacket _). set (c1 := on_pending _ _ _ _ _ _ _).
  assert (Hok : forall c', centropy c' = centropy c -> next_request_id c' = next_request_id c + 1 ->
    api_outcomes c' = delete (next_request_id c + 1) (api_outcomes c) -> cwire c' = cwire c ->
    client_queue g c' = client_queue g c -> client_inv g ca se (n + 1) ids ws c').
  { intros c' E1 E2 E3 E4 E5. unfold client_inv, client_ok. rewrite E1, E2, E3, E4, E5. split_and!; try done; [| |lia].
    - intros id Hi%Hr. lia.
    - intros id r Hi [_ Hl]%lookup_delete_Some. by apply Ho. }
  unfold send_outbound. unfold mbind, M_bind, get. change (writer c1) with (writer c).
  destruct (writer c) as [g0|] eqn:Hwr; [|by apply Hok].
  unfold m_map_err, csend. change (cchannels c1) with (cchannels c).
  destruct (cchannels c !! g0) as [ch|] eqn:Hl; [|by apply Hok]. destruct (creceiver ch); [|by apply Hok].
  cbn [map_err snd]. apply Hok; try done. unfold client_queue. cbn. rewrite lookup_insert_ne; [done|congruence].
Qed.

(** ** Attempts and new connections *)
Lemma attempt_passes c g ca se : passes g ca se c (begin_attempt c).2.
Proof.
  apply drifts_passes. intros n ids Hd. unfold begin_attempt. unfold mbind, M_bind, get.
  destruct (shutdown c); [exact Hd|]. by eapply drifts_same; [..|exact Hd].
Qed.

Lemma establish_negotiate g attempt hello auth hf af c :
  establish_connection self g attempt hello auth hf af c
  = (k ← negotiate self attempt hello auth hf af;
     modify (fun c => on_flags c (last_url_idx c) (Some g)
       (<[g := mkCChannel [] true]> (cchannels c)) true (shutdown c) (connection_generation c) (signalled c)) ;;
     infallible (emit_connected self) ;;
     mret k) c.
Proof.
  unfold establish_connection, negotiate. unfold mbind, M_bind.
  destruct (connect_any _ _ c) as [[[]|e|] c1]; [|done..].
  destruct (client_handshake _ _ _ c1) as [[k|e|] c2]; [|done..].
  by destruct (client_auth _ _ _ _ c2) as [[[]|e|] c3].
Qed.

Lemma negotiate_preserves (P : Cl -> Prop) attempt hello auth hf af :
  (forall c idx, P c -> P (on_flags c idx (writer c) (cchannels c) (is_connected c) (shutdown c)
     (connection_generation c) (signalled c))) ->
  (forall c dr ws, P c -> P (on_io c dr ws (capp c))) ->
  preserves P (negotiate self attempt hello auth hf af).
Proof.
  intros Hf Hio.
  assert (Hsend : forall m f, preserves P (cws_send m f)) by (intros m f c Hc; destruct f; cbn; auto).
  assert (Henc : forall k p, preserves P (client_encode k p)) by (intros k p c Hc; cbn; auto).
  assert (Hm : forall idx, preserves P (modify (E:=ClientError) (fun c => on_flags c idx (writer c) (cchannels c)
    (is_connected c) (shutdown c) (connection_generation c) (signalled c)))) by (intros idx c Hc; cbn; auto).
  assert (Hg : preserves P (fun c => (map_err CProtocol (generate (centropy c (cdrawn c) ECDH_KEY_LEN)),
    on_io c (S (cdrawn c)) (cwire c) (capp c)))) by (intros c Hc; cbn; auto).
  unfold negotiate, connect_any, client_handshake, client_auth. preserve.
Qed.

Lemma negotiate_drifts g ca se n ids attempt hello auth hf af :
  preserves (drifts g ca se n ids) (negotiate self attempt hello auth hf af).
Proof. apply negotiate_preserves; intros; (eapply drifts_same; [..|eassumption]); done. Qed.
Lemma negotiate_base attempt hello auth hf af : preserves client_base (negotiate self attempt hello auth hf af).
Proof. by apply negotiate_preserves. Qed.

Lemma connected_drifts g ca se n ids : life_sound ->
  preserves (drifts g ca se n ids) (infallible (E:=ClientError) (emit_connected self)).
Proof.
  intros (_ & Hc & _). apply preserves_drifts. intros ws. apply preserves_infallible. unfold emit_connected.
  apply preserves_bind; [preserve|intros c0]. apply preserves_bind; [preserve|intros url]. apply keep_notify, Hc.
Qed.

Lemma establish_passes g' attempt hello auth hf af c g ca se : life_sound -> g <> g' ->
  passes g ca se c (establish_connection self g' attempt hello auth hf af c).2.
Proof.
  intros Hs Hne. apply drifts_passes. intros n ids Hc. rewrite establish_negotiate. revert c Hc.
  apply preserves_bind; [apply negotiate_drifts|intros k]. apply preserves_bind; [|intros _].
  - intros c Hc. eapply drifts_same; [..|exact Hc]; try done. unfold client_queue. cbn. by rewrite lookup_insert_ne.
  - apply preserves_bind; [by apply connected_drifts|preserve].
Qed.

(** The client's side of the link that is established. *)
Lemma establish_own g attempt hello auth hf af c k c' : life_sound -> client_base c ->
  establish_connection self g attempt hello auth hf af c = (Ok k, c') ->
  client_inv g ∅ [] (next_request_id c') [] (cwire c') c'.
Proof.
  intros Hs Hb. rewrite establish_negotiate. intros (k' & c1 & Hp & Hr)%M_bind_ok.
  apply (negotiate_base attempt hello auth hf af) in Hb. rewrite Hp in Hb. cbn [snd] in Hb.
  apply M_bind_ok in Hr as ([] & c2 & [= <-] & Hr). set (c2 := on_flags c1 _ _ _ _ _ _ _) in Hr.
  assert (Hc2 : drifts g ∅ [] (next_request_id c1) [] c2).
  { exists (cwire c2). apply (base_inv g c2); [exact Hb|]. unfold client_queue. cbn. by rewrite lookup_insert_eq. }
  apply (connected_drifts g) in Hc2; [|done]. apply M_bind_ok in Hr as ([] & c3 & He & [= _ <-]).
  rewrite He in Hc2. cbn [snd] in Hc2. destruct Hc2 as (ws & Hc & Hn & Hids & Hw). split_and!; try done; congruence.
Qed.
(** ** The invariant *)
Record life_ok c w ls : Prop := {
  lf_link g l : ls !! g = Some l -> codecs_agree s (l_cc l) (l_sc l)
    /\ joint_ok s (l_conn l) (l_peer l) g (l_cc l) (l_sc l) (joint_of l c w);
  lf_conns g g' l l' : ls !! g = Some l -> ls !! g' = Some l' -> l_conn l = l_conn l' -> g = g';
  lf_calls g g' l l' id : ls !! g = Some l -> ls !! g' = Some l' ->
    is_Some (l_calls l !! id) -> is_Some (l_calls l' !! id) -> g = g';
  lf_client : client_base c;
  lf_world : world_base w;
}.

(** A link that the step passes by. *)
Lemma link_passed c c' w w' ls g l moved :
  life_ok c w ls -> ls !! g = Some l -> passes g (l_calls l) (l_served l) c c' ->
  world_passes moved w w' -> moved <> Some (l_conn l) ->
  codecs_agree s (l_cc l) (l_sc l) /\ joint_ok s (l_conn l) (l_peer l) g (l_cc l) (l_sc l) (joint_of l c' w').
Proof.
  intros Hok Hl Hp Hw Hm. destruct (lf_link _ _ _ Hok g l Hl) as [Hag Hj]. split; [exact Hag|].
  eapply joint_passes; [exact Hj|exact Hp|]. by eapply Hw.
Qed.

(** A step that moves no link. *)
Lemma quiet_ok c c' w w' ls (bad : gset Z) moved : life_sound ->
  life_ok c w ls -> (forall g ca se, g ∉ bad -> passes g ca se c c') -> world_passes moved w w' ->
  (forall g l, ls !! g = Some l -> (g ∉ bad) /\ moved <> Some (l_conn l)) ->
  life_ok c' w' ls /\ next_request_id c' <= next_request_id c + 1.
Proof.
  intros Hs Hok Hp Hw Hb.
  destruct (base_passes bad c c') as [Hc Hn]; [by auto|apply (lf_client _ _ _ Hok)|]. split; [|exact Hn].
  split.
  - intros g l Hl. destruct (Hb g l Hl) as [Hg Hm]. by eapply link_passed; eauto.
  - apply (lf_conns _ _ _ Hok).
  - apply (lf_calls _ _ _ Hok).
  - exact Hc.
  - eapply base_world_passes; [exact Hs|exact Hw|]. apply (lf_world _ _ _ Hok).
Qed.

(** A step that moves, or makes, the link of generation [g]. *)
Lemma insert_ok c c' w w' ls g l' moved : life_sound ->
  life_ok c w ls ->
  codecs_agree s (l_cc l') (l_sc l') ->
  joint_ok s (l_conn l') (l_peer l') g (l_cc l') (l_sc l') (joint_of l' c' w') ->
  (forall g0 l0, g0 <> g -> ls !! g0 = Some l0 ->
    passes g0 (l_calls l0) (l_served l0) c c' /\ l_conn l0 <> l_conn l' /\ moved <> Some (l_conn l0)
    /\ forall id, is_Some (l_calls l0 !! id) -> is_Some (l_calls l' !! id) -> False) ->
  (forall g0, g0 <> g -> passes g0 ∅ [] c c') -> world_passes moved w w' ->
  life_ok c' w' (<[g := l']> ls) /\ next_request_id c' <= next_request_id c + 1.
Proof.
  intros Hs Hok Hag Hj Ho Hp Hw.
  destruct (base_passes {[g]} c c') as [Hc Hn]; [intros g0 Hg; apply Hp; set_solver|apply (lf_client _ _ _ Hok)|].
  split; [|exact Hn]. split.
  - intros g0 l0 [[<- <-]|[Hne Hl]]%lookup_insert_Some; [by split|].
    destruct (Ho g0 l0 ltac:(congruence) Hl) as (Hp0 & _ & Hm & _). by eapply link_passed; eauto.
  - intros g1 g2 l1 l2 [[<- <-]|[Hne1 Hl1]]%lookup_insert_Some [[<- <-]|[Hne2 Hl2]]%lookup_insert_Some Heq; try done.
    + destruct (Ho g2 l2 ltac:(congruence) Hl2) as (_ & Hd & _). congruence.
    + destruct (Ho g1 l1 ltac:(congruence) Hl1) as (_ & Hd & _). congruence.
    + by eapply (lf_conns _ _ _ Hok).
  - intros g1 g2 l1 l2 id [[<- <-]|[Hne1 Hl1]]%lookup_insert_Some [[<- <-]|[Hne2 Hl2]]%lookup_insert_Some H1 H2; try done.
    + destruct (Ho g2 l2 ltac:(congruence) Hl2) as (_ & _ & _ & Hd). by destruct (Hd id).
    + destruct (Ho g1 l1 ltac:(congruence) Hl1) as (_ & _ & _ & Hd). by destruct (Hd id).
    + by eapply (lf_calls _ _ _ Hok).
  - exact Hc.
  - eapply base_world_passes; [exact Hs|exact Hw|]. apply (lf_world _ _ _ Hok).
Qed.

(** ** Every step keeps it *)

(** A frame on its way to the client settles no call of another link. *)
Lemma heard_elsewhere c w ls g g0 l l0 m :
  life_ok c w ls -> ls !! g = Some l -> ls !! g0 = Some l0 -> g0 <> g -> m ∈ l_down l ->
  heard_frame_ok (l_calls l0) (l_served l0) (l_cc l) m.
Proof.
  intros Hok Hl Hl0 Hne Hm. destruct (lf_link _ _ _ Hok g l Hl) as [_ Hj].
  pose proof (jk_down _ _ _ _ _ _ _ Hj) as Hd. cbn [joint_of down served] in Hd.
  eapply list.Forall_forall in Hd; [|exact Hm]. destruct m as [f| | | | |]; try done.
  intros env He. specialize (Hd env He). destruct (env_body env) as [|id ok st d err md| | | |]; try done.
  intros Hi. destruct Hd as [->|[Hb|(p & Hp & _)]]; [by left|by right; left|].
  apply (jk_served _ _ _ _ _ _ _ Hj) in Hp as (q & Hq & _). destruct Hne.
  eapply (lf_calls _ _ _ Hok g0 g); [exact Hl0|exact Hl|exact Hi|]. cbn in Hq. eauto.
Qed.

Lemma life_link g l c w ls j : life_sound -> life_ok c w ls -> ls !! g = Some l ->
  link_step self s (l_conn l) (l_peer l) g (l_cc l) (l_sc l) (joint_of l c w) j ->
  life_ok (client j) (world j) (<[g := relink l j]> ls) /\ next_request_id (client j) <= next_request_id c + 1.
Proof.
  intros Hs Hok Hl Hj. destruct (lf_link _ _ _ Hok g l Hl) as [Hag Hjoint].
  destruct (link_step_ok self s _ _ _ _ _ _ _ (proj1 Hs _ _ _ _ _ Hag) Hj Hjoint) as [Hjoint' _].
  pose proof (link_calls _ _ _ _ _ _ _ Hj) as Hcalls. cbn [joint_of calls] in Hcalls.
  eapply (insert_ok c _ w _ ls g (relink l j) (Some (l_conn l))); try done.
  - by destruct j.
  - intros g0 l0 Hne Hl0. assert (Hd : l_conn l0 <> l_conn l) by (intros ?; destruct Hne; by eapply (lf_conns _ _ _ Hok)).
    split_and!; [|exact Hd|congruence|].
    + apply (link_client_passes _ _ _ _ _ _ _ _ _ _ Hs Hj Hne). intros m Hm. by eapply (heard_elsewhere c w ls g g0).
    + cbn [relink l_calls]. rewrite Hcalls. intros id H1 H2. destruct Hne. by eapply (lf_calls _ _ _ Hok).
  - intros g0 Hne. apply (link_client_passes _ _ _ _ _ _ _ _ _ _ Hs Hj Hne).
    intros [f| | | | |] _; try done. intros env _. destruct (env_body env); try done. by intros [q Hq].
  - by apply (link_world_passes _ _ _ _ _ _ _ Hs Hj).
Qed.
Lemma life_call route params atts c w ls : life_sound -> life_ok c w ls ->
  (forall id, in_u 64 id -> body_ok (ApiRequest id route params atts client_metadata)) ->
  next_request_id c < 2 ^ 64 - 1 ->
  let c' := (call_begin self route params atts c).2 in
  life_ok c' w
    (if is_connected c then made (writer c) (wrap 64 (next_request_id c + 1)) (route, params, atts) ls else ls)
  /\ next_request_id c' <= next_request_id c + 1.
Proof.
  intros Hs Hok Hfit Hlt. cbv zeta. pose proof (lf_client _ _ _ Hok) as [_ H0].
  set (id := wrap 64 (next_request_id c + 1)).
  assert (Hquiet : (is_connected c = true -> forall g, writer c = Some g -> ls !! g = None) ->
    life_ok (call_begin self route params atts c).2 w ls
    /\ next_request_id (call_begin self route params atts c).2 <= next_request_id c + 1).
  { intros Hno. set (bad := match writer c with Some g => if is_connected c then {[g]} else ∅ | None => ∅ end : gset Z).
    eapply (quiet_ok c _ w w ls bad None); [done|done| |apply world_passes_refl|].
    - intros g ca se Hg. apply call_passes; [|lia|lia]. intros Hc Hw. apply Hg. unfold bad. rewrite Hw, Hc. set_solver.
    - intros g l Hl. split; [|done]. unfold bad. destruct (writer c) as [g0|]; [|set_solver].
      destruct (is_connected c); [|set_solver]. intros ->%elem_of_singleton. specialize (Hno eq_refl g0 eq_refl). congruence. }
  destruct (is_connected c) eqn:Hc; [|apply Hquiet; done].
  destruct (writer c) as [g|] eqn:Hw; cbn [made]; [|apply Hquiet; done].
  destruct (ls !! g) as [l|] eqn:Hl.
  2: { rewrite alter_id by congruence. apply Hquiet. by intros _ g' [= <-]. }
  assert (Hid : id = next_request_id c + 1) by (unfold id; rewrite wrap_small; lia).
  destruct (lf_link _ _ _ Hok g l Hl) as [Hag Hj].
  destruct (joint_call self s _ _ _ _ _ route params atts c _ w _ _ _ _ Hfit Hlt Hj Hc) as [Hj' Hn'].
  replace (alter _ g ls) with (<[g := linked_call id (route, params, atts) l]> ls)
    by (apply map_eq; intros i; destruct (decide (i = g)) as [->|Hne];
        [by rewrite lookup_insert_eq, lookup_alter_eq, Hl|by rewrite lookup_insert_ne, lookup_alter_ne]).
  eapply (insert_ok c _ w w ls g (linked_call id (route, params, atts) l) None); try done.
  - cbn [linked_call l_conn l_peer l_cc l_sc]. rewrite Hid. exact Hj'.
  - intros g0 l0 Hne Hl0. split_and!; [|intros Hd; destruct Hne; by eapply (lf_conns _ _ _ Hok)|done|].
    + apply call_passes; [|lia|lia]. congruence.
    + intros id' Hi. cbn [linked_call l_calls]. intros [<-|[_ Hi']]%lookup_insert_is_Some.
      * destruct (lf_link _ _ _ Hok g0 l0 Hl0) as [_ Hj0]. destruct (jk_client _ _ _ _ _ _ _ Hj0) as (_ & Hr & _).
        apply Hr in Hi. cbn [joint_of client] in Hi. lia.
      * destruct Hne. by eapply (lf_calls _ _ _ Hok).
  - intros g0 Hne. apply call_passes; [|lia|lia]. congruence.
  - apply world_passes_refl.
Qed.

Lemma life_connect attempt hello auth hf af conn peer now shello sauth shf saf cc ses c c' w w' ls :
  let g := connection_generation c in
  life_sound -> life_ok c w ls -> unlinked ls conn -> channels w !! conn = None ->
  establish_connection self g attempt hello auth hf af c = (Ok cc, c') ->
  connect s conn peer now shello sauth shf saf w = (Ok (Some ses), w') ->
  codecs_agree s cc (ses_codec ses) ->
  life_ok c' w' (<[g := new_link conn peer cc (ses_codec ses)]> ls)
  /\ next_request_id c' <= next_request_id c + 1.
Proof.
  cbv zeta. set (g := connection_generation c). intros Hs Hok Hun Hnew He Hc Hag.
  assert (Hworld : world_passes None w w').
  { intros conn0 cc0 sc0 served0 Hag0 _ Hw0. replace w' with (connect s conn peer now shello sauth shf saf w).2 by (by rewrite Hc).
    apply world_connect; [|exact Hw0]. destruct (proj1 Hs conn0 peer 0 cc0 sc0 Hag0) as (_ & Hh & _). apply Hh. }
  assert (Hclient : forall g0 ca se, g0 <> g -> passes g0 ca se c c').
  { intros g0 ca se Hne. replace c' with (establish_connection self g attempt hello auth hf af c).2 by (by rewrite He).
    by apply establish_passes. }
  pose proof (lf_client _ _ _ Hok) as Hb. pose proof (lf_world _ _ _ Hok) as Hwb.
  eapply (insert_ok c c' w w' ls g (new_link conn peer cc (ses_codec ses)) None); try done.
  - apply (joint_start s conn peer g cc (ses_codec ses) c' w').
    + by eapply establish_own.
    + destruct (base_passes {[g]} c c') as [[_ ?] _]; [intros g0 Hg; apply Hclient; set_solver|done|done].
    + eapply Hworld; [exact Hag|done|]. by apply unlinked_world.
  - intros g0 l0 Hne Hl0. split_and!; [by apply Hclient| |done|by intros id _ [q Hq]].
    specialize (Hun g0 l0 Hl0). cbn in *. congruence.
  - intros g0. apply Hclient.
Qed.

(** ** The keys of a connection *)
Lemma same_keys_limit k n : same_keys k (with_max_frame_bytes k n).
Proof. by destruct k. Qed.
Lemma same_keys_sym k k' : same_keys k k' -> same_keys k' k.
Proof. unfold same_keys. intros ->. by destruct k. Qed.
Lemma same_keys_trans k1 k2 k3 : same_keys k1 k2 -> same_keys k2 k3 -> same_keys k1 k3.
Proof. unfold same_keys. intros -> ->. by destruct k1. Qed.

(** The two halves of a key agreement that succeed. *)
Lemma client_half hello hf c k : use_ecdh (cconfig self) = true -> (client_handshake self hello hf c).1 = Ok k ->
  exists sk peer_key, cwire (client_handshake self hello hf c).2 = cwire c ++ [MBinary (public_bytes (mkEcdhKeypair sk (public_of sk)))]
    /\ hello = Received (MBinary peer_key)
    /\ with_chacha20_key plaintext (derive_session_key (mkEcdhKeypair sk (public_of sk)) peer_key) = Ok k.
Proof.
  intros He. unfold client_handshake. rewrite He. unfold mbind, M_bind, m_map_err, lift.
  destruct (generate _) as [kp|e|] eqn:Hg; [|done..]. cbn [map_err].
  assert (Hkp : kp = mkEcdhKeypair (secret kp) (public_of (secret kp))).
  { unfold generate in Hg. destruct (map_err _ _) in Hg; [|done..]. by injection Hg as <-. }
  destruct hf as [e|]; [done|]. unfold cws_send. cbn [map_err].
  destruct hello as [| | |[bs| | | | |]]; try done. unfold parse_peer_public. case_bool_decide; [done|]. cbn [map_err].
  destruct (with_chacha20_key plaintext _) as [k'|e|] eqn:Hk; [|done..]. intros [= <-].
  exists (secret kp), bs. rewrite <- Hkp. by split_and!.
Qed.
Lemma server_half conn hello hf w k : (perform_ecdh_handshake conn hello hf w).1 = Ok k ->
  exists sk peer_key, wire (perform_ecdh_handshake conn hello hf w).2
      = wire w ++ [(conn, MBinary (public_bytes (mkEcdhKeypair sk (public_of sk))))]
    /\ hello = Received (MBinary peer_key)
    /\ with_chacha20_key plaintext (derive_session_key (mkEcdhKeypair sk (public_of sk)) peer_key) = Ok k.
Proof.
  unfold perform_ecdh_handshake. unfold mbind, M_bind, lift.
  destruct (generate _) as [kp|e|] eqn:Hg; [|done..]. cbn [map_err].
  assert (Hkp : kp = mkEcdhKeypair (secret kp) (public_of (secret kp))).
  { unfold generate in Hg. destruct (map_err _ _) in Hg; [|done..]. by injection Hg as <-. }
  destruct hello as [| | |[bs| | | | |]]; try done. unfold parse_peer_public. case_bool_decide; [done|]. cbn [map_err].
  destruct hf as [e|]; [done|]. unfold ws_send. cbv zeta.
  destruct (with_chacha20_key plaintext _) as [k'|e|] eqn:Hk; [|done..]. intros [= <-].
  exists (secret kp), bs. rewrite <- Hkp. by split_and!.
Qed.

(** What each side computes from the other's key is the same. *)
Lemma keys_agree sk sk' : 
  derive_session_key (mkEcdhKeypair sk (public_of sk)) (public_bytes (mkEcdhKeypair sk' (public_of sk')))
  = derive_session_key (mkEcdhKeypair sk' (public_of sk')) (public_bytes (mkEcdhKeypair sk (public_of sk))).
Proof. unfold derive_session_key, public_bytes. cbn. by rewrite !public_from_to_bytes, dh_comm. Qed.

(** The codec that [establish_connection] returns, and that of the session. *)
Lemma establish_codec g attempt hello auth hf af c k c' :
  establish_connection self g attempt hello auth hf af c = (Ok k, c') ->
  (client_handshake self hello hf (connect_any self attempt c).2).1 = Ok k.
Proof.
  rewrite establish_negotiate. unfold negotiate.
  intros (k' & c4 & ([] & c1 & -> & (k0 & c2 & Hk & ([] & c3 & _ & [= -> _])%M_bind_ok)%M_bind_ok)%M_bind_ok & Hr)%M_bind_ok.
  cbn [snd]. rewrite Hk. cbn [fst]. apply M_bind_ok in Hr as ([] & c5 & _ & ([] & c6 & _ & [= -> _])%M_bind_ok). done.
Qed.
Lemma connect_codec conn peer now hello auth hf af w ses w' :
  connect s conn peer now hello auth hf af w = (Ok (Some ses), w') ->
  (session_codec s conn hello hf (refuse_banned (App:=B) peer now w).2).1 = Ok (ses_codec ses).
Proof.
  unfold connect. intros (banned & w1 & -> & Hr)%M_bind_ok. cbn [snd]. destruct banned; [done|].
  apply M_bind_ok in Hr as (k & w2 & -> & ([t a] & w3 & _ & ([] & w4 & _ & ([] & w5 & _ & [= <- _])%M_bind_ok)%M_bind_ok)%M_bind_ok).
  done.
Qed.

(** The ends of a connection that is established agree on its codecs. *)
Lemma established_agree attempt g hello auth hf af conn peer now shello sauth shf saf cc ses c c' w w' : modes_agree ->
  establish_connection self g attempt hello auth hf af c = (Ok cc, c') ->
  connect s conn peer now shello sauth shf saf w = (Ok (Some ses), w') ->
  (is_ecdh s = true -> keys_exchanged attempt hello hf conn peer now shello shf c w) ->
  codecs_agree s cc (ses_codec ses).
Proof.
  intros (Hmode & Hkeys & Hlim) He%establish_codec Hc%connect_codec Hx. rewrite !list.Forall_cons in Hlim.
  destruct Hlim as (L1 & L2 & L3 & _). unfold session_codec in Hc. destruct (is_ecdh s) eqn:Hecdh.
  - destruct (Hx eq_refl) as (m & m' & Hm & -> & Hm' & ->).
    destruct (client_half _ _ _ _ Hmode He) as (sk & pk & Hw & [= Hpk] & Hk). rewrite Hw in Hm.
    apply List.app_inv_head in Hm as [= <-].
    destruct (perform_ecdh_handshake conn _ shf _) as [[k|e|] w2] eqn:Hp; unfold mbind, M_bind in Hc; rewrite Hp in Hc; [|done..].
    injection Hc as Hc. rewrite <- Hc.
    destruct (server_half conn (Received (MBinary (public_bytes (mkEcdhKeypair sk (public_of sk))))) shf
      (refuse_banned peer now w).2 k) as (sk' & pk' & Hw' & [= Hpk'] & Hk'); [by rewrite Hp|].
    rewrite Hp in Hw'. cbn [snd] in *. rewrite Hw' in Hm'. apply List.app_inv_head in Hm' as [= <-].
    injection Hpk as <-. subst pk'. rewrite keys_agree, Hk' in Hk. injection Hk as ->.
    assert (max_frame_bytes cc = DEFAULT_MAX_FRAME_BYTES) as Hmax.
    { unfold with_chacha20_key in Hk'. destruct (expect _) in Hk'; [|done..]. by injection Hk' as <-. }
    split_and!; try (intros ?; congruence); rewrite ?Hmax;
      first [apply same_keys_limit|apply same_keys_sym, same_keys_limit|cbn; unfold DEFAULT_MAX_FRAME_BYTES; lia].
  - unfold client_handshake in He. rewrite Hmode in He. injection He as <-. injection Hc as <-.
    specialize (Hkeys eq_refl). pose proof (same_keys_limit (codec s) (server_max_frame_bytes s)) as Hl.
    split_and!; try lia; cbn; try lia.
    + by eapply same_keys_trans.
    + by eapply same_keys_sym, same_keys_trans.
    + intros _. by apply same_keys_sym.
Qed.

(** ** Generations *)
Section Generation.
Context (n : Z).
Abbreviation G := (fun c : Cl => connection_generation c = n).
Context (Hs : life_sound).

(** Computations from the primitives that keep the generation. *)
Lemma gen_csend g m : preserves G (csend g m).
Proof. intros c Hc. unfold csend. by repeat case_match. Qed.
Lemma gen_encode k p : preserves G (client_encode k p).
Proof. by intros c Hc. Qed.
Lemma gen_ws_send m f : preserves G (cws_send m f).
Proof. intros c Hc. by destruct f. Qed.
#[local] Hint Resolve gen_csend gen_encode gen_ws_send : preserves.
Ltac keep_gen := repeat first
  [ solve [auto with preserves]
  | apply preserves_bind; [|intros ?]
  | apply preserves_modify; intros ? ?; repeat case_match; done
  | progress case_match ].

Lemma gen_send_outbound m : preserves G (send_outbound m).
Proof. unfold send_outbound. keep_gen. Qed.
#[local] Hint Resolve gen_send_outbound : preserves.
Lemma gen_call route params atts : preserves G (call_begin self route params atts).
Proof. unfold call_begin. keep_gen. Qed.
Lemma gen_event_begin name data atts : preserves G (event_begin self name data atts).
Proof. unfold event_begin. keep_gen. Qed.
Lemma gen_handle_packet p : preserves G (handle_packet self p).
Proof.
  destruct Hs as (_ & _ & Hg & _). destruct (Hg n) as [[He _] _]. unfold handle_packet.
  destruct (env_body p) as [| |id name d atts md ack| | |]; keep_gen.
  apply keep_event_handlers. destruct (cevent_handlers self !! name) as [hs|] eqn:Hl; [|constructor]. by apply (He name).
Qed.
Lemma gen_handle_disconnect g err sig : preserves G (handle_disconnect self g err sig).
Proof.
  destruct Hs as (_ & _ & Hg & _). destruct (Hg n) as [[_ Hd] _].
  assert (Hn : forall e, preserves G (emit_disconnected self e)) by (intros e; by apply keep_notify).
  unfold handle_disconnect. cbv zeta. keep_gen.
Qed.
#[local] Hint Resolve gen_handle_packet gen_handle_disconnect : preserves.
Lemma gen_finish g st : preserves G (finish self g st).
Proof. destruct st; cbn [finish]; keep_gen. Qed.
#[local] Hint Resolve gen_finish : preserves.
Lemma gen_reader_task g k next : preserves G (reader_task self g k next).
Proof. unfold reader_task, client_reader_step. keep_gen. Qed.
Lemma gen_writer_task g k f : preserves G (writer_task self g k f).
Proof.
  unfold writer_task, client_writer_step. keep_gen. unfold client_write. keep_gen.
Qed.
Lemma gen_writer_stopped g : preserves G (writer_stopped self g).
Proof. unfold writer_stopped. keep_gen. Qed.
Lemma gen_heartbeat g : preserves G (heartbeat_task self g).
Proof. unfold heartbeat_task, client_heartbeat. keep_gen. Qed.
Lemma gen_close : preserves G (close self).
Proof. unfold close. keep_gen. Qed.
Lemma gen_establish g attempt hello auth hf af : preserves G (establish_connection self g attempt hello auth hf af).
Proof.
  destruct Hs as (_ & _ & Hg & _). destruct (Hg n) as [_ Hc].
  assert (Hn : preserves G (emit_connected self)).
  { unfold emit_connected. keep_gen. by apply keep_notify. }
  assert (Hne : preserves G (negotiate self attempt hello auth hf af)) by (by apply negotiate_preserves).
  intros c. rewrite establish_negotiate. revert c.
  match goal with |- forall c, _ -> connection_generation (?m c).2 = _ => change (preserves G m) end.
  apply preserves_bind; [exact Hne|intros k]. keep_gen.
Qed.

Lemma gen_app c c' : app_step self c c' -> G c -> G c'.
Proof.
  intros [id t c0|name data atts c0|id t c0|p c0 _|c0] Hc.
  - unfold call_poll. by repeat case_match.
  - by apply gen_event_begin.
  - unfold event_poll. by repeat case_match.
  - by apply gen_handle_packet.
  - by apply gen_close.
Qed.
Lemma gen_link conn peer g cc sc (j j' : Joint (A:=A) (B:=B)) :
  link_step self s conn peer g cc sc j j' -> G (client j) -> G (client j').
Proof.
  intros [] Hc; cbn [client] in *; try exact Hc.
  - by apply gen_writer_task.
  - by apply gen_writer_stopped.
  - by apply gen_heartbeat.
  - by apply gen_reader_task.
  - by apply gen_reader_task.
Qed.
End Generation.

(** An attempt has a generation of its own. *)
Definition gens_ok (L : Life) : Prop :=
  0 <= connection_generation (owner L)
  /\ forall g, is_Some (links L !! g) -> g <= connection_generation (owner L)
       /\ (trying L = true -> g < connection_generation (owner L)).

Lemma life_step_gens L L' : life_sound -> life_step L L' -> gens_ok L -> connection_generation (owner L) < 2 ^ 64 - 1 ->
  gens_ok L' /\ connection_generation (owner L') <= connection_generation (owner L) + 1.
Proof.
  intros Hs Hstep [H0 Hg] Hlt. unfold gens_ok. destruct Hstep; cbn [owner links trying] in *.
  - assert (connection_generation (client j) = connection_generation c) as -> by exact (gen_link _ Hs _ _ _ _ _ _ _ H2 eq_refl).
    split; [|lia]. split; [done|]. intros g0 [<-|[_ Hi]]%lookup_insert_is_Some; [|by apply Hg].
    apply Hg. eauto.
  - assert (connection_generation c' = connection_generation c) as -> by exact (gen_app _ Hs _ _ H1 eq_refl). split; [done|lia].
  - assert (connection_generation (call_begin self route params atts c).2 = connection_generation c) as ->
    by exact (gen_call _ _ _ _ c eq_refl).
    split; [|lia]. split; [done|]. intros g Hi. apply Hg. destruct (is_connected c); [|done].
    unfold made in Hi. destruct (writer c); [|done]. by apply lookup_alter_is_Some in Hi.
  - split; [done|lia].
  - revert H1. unfold begin_attempt. unfold mbind, M_bind, get, modify. destruct (shutdown c); [done|].
    intros [= <- <-]. cbn. rewrite wrap_small by lia. split; [|lia]. split; [lia|].
    intros g Hi%Hg. lia.
  - rewrite (gen_establish (connection_generation c) Hs _ _ _ _ _ _ c eq_refl). split; [|lia]. split; [done|].
    intros g0 Hi. split; [by apply Hg|done].
  - pose proof (gen_establish (connection_generation c) Hs g attempt hello auth hf af c eq_refl) as He. rewrite H3 in He.
    cbn [snd] in He. rewrite He. split; [|lia]. split; [done|].
    intros g0 Hi. split; [|done]. apply lookup_insert_is_Some in Hi as [<-|[_ Hi]]; [done|by apply Hg].
Qed.

(** ** The whole life *)
Definition life_inv (L : Life) : Prop := life_ok (owner L) (server L) (links L) /\ gens_ok L.
(** Ids and generations left before their counters wrap. *)
Definition budget (L : Life) (m : Z) : Prop :=
  next_request_id (owner L) + m < 2 ^ 64 /\ connection_generation (owner L) + m < 2 ^ 64.

Lemma life_step_ok L L' : life_sound -> life_step L L' -> life_inv L -> next_request_id (owner L) < 2 ^ 64 - 1 ->
  life_ok (owner L') (server L') (links L') /\ next_request_id (owner L') <= next_request_id (owner L) + 1.
Proof.
  intros Hs Hstep [Hok [_ Hgen]] Hlt. destruct Hstep; cbn [owner server links trying] in *.
  - by apply (life_link g l c w ls j).
  - eapply (quiet_ok c c' w w ls ∅ None); [done|done| |apply world_passes_refl|by intros; split; [set_solver|]].
    intros g ca se _. by apply app_passes.
  - by apply life_call.
  - destruct (other_step_moves _ _ _ H0) as [conn Ho]. destruct (decide (map_Forall (fun _ l => conn <> l_conn l) ls)) as [Hun|Hun].
    + eapply (quiet_ok c c w w' ls ∅ (Some conn)); [done|done| | |].
      * intros g ca se _. apply drifts_passes. done.
      * eapply other_world_passes; [done| |exact Ho]. by intros x [-> _].
      * intros g l Hl. split; [set_solver|]. intros [= ->]. by apply (Hun g l Hl).
    + eapply (quiet_ok c c w w' ls ∅ None); [done|done| | |by intros; split; [set_solver|]].
      * intros g ca se _. apply drifts_passes. done.
      * intros conn0 cc sc served Hag _. eapply other_step_ok; [exact Hag| | |exact Ho].
        -- destruct (proj1 Hs conn0 (V4 0, 0) 0 cc sc Hag) as (_ & Hh & _). apply Hh.
        -- intros x [-> Hf]. by destruct Hun.
  - replace c' with (begin_attempt c).2 by (by rewrite H0).
    eapply (quiet_ok c _ w w ls ∅ None); [done|done| |apply world_passes_refl|by intros; split; [set_solver|]].
    intros g0 ca se _. apply attempt_passes.
  - eapply (quiet_ok c _ w w ls {[connection_generation c]} None); [done|done| |apply world_passes_refl|].
    + intros g ca se Hg. apply establish_passes; [done|set_solver].
    + intros g l Hl. split; [|done]. intros ->%elem_of_singleton. destruct (Hgen (connection_generation c)) as [_ Hl']; [eauto|].
      specialize (Hl' eq_refl). lia.
  - eapply life_connect; [done|done|done|done|done|done|]. eapply established_agree; [apply Hs|done..].
Qed.

Lemma life_run_ok m L L' : life_sound -> nsteps life_step m L L' -> life_inv L -> budget L (Z.of_nat m) -> life_inv L'.
Proof.
  intros Hs Hr. induction Hr as [L|m L1 L2 L3 Hst _ IH]; intros Hi [H1 H2]; [done|].
  destruct (life_step_ok _ _ Hs Hst Hi ltac:(lia)) as [Hok Hn].
  destruct (life_step_gens _ _ Hs Hst (proj2 Hi) ltac:(lia)) as [Hg Hn'].
  apply IH; [by split|]. unfold budget. lia.
Qed.

(** A client that has no connection yet. *)
Definition life_start c w : Life := mkLife c w ∅ false.
Lemma life_start_ok c w : client_base c -> 0 <= connection_generation c -> world_base w -> life_inv (life_start c w).
Proof.
  intros Hc Hg Hw. split; [split; cbn; try done; by intros ? ?|]. split; [done|]. cbn. by intros g [l Hl].
Qed.

(** C3: reconnecting mixes nothing up.  Over the whole life of a client and a server
    configured alike, with any number of connections lost, retried and established,
    and the tasks of old and new connections, the application and the server in any
    order: on every connection each request is executed at most once, and only if
    the client made it over that connection, with its own route, parameters and
    attachments; no request is executed on two connections; and what a call gets is
    a timeout, the end of a connection, the refusal of the rate limiter or the
    outcome of executing its own request on its own connection. *)
Theorem calls_faithful_across_reconnections m c w L :
  life_sound -> client_base c -> 0 <= connection_generation c -> world_base w ->
  nsteps life_step m (life_start c w) L -> budget (life_start c w) (Z.of_nat m) ->
  (forall g l, links L !! g = Some l -> faithful s (l_conn l) (l_peer l) (joint_of l (owner L) (server L)))
  /\ forall g g' l l' id r r', links L !! g = Some l -> links L !! g' = Some l' ->
       (id, r) ∈ l_served l -> (id, r') ∈ l_served l' -> g = g'.
Proof.
  intros Hs Hc Hg Hw Hr Hm. destruct (life_run_ok _ _ _ Hs Hr (life_start_ok c w Hc Hg Hw) Hm) as [Hok _]. split.
  - intros g l Hl. destruct (lf_link _ _ _ Hok g l Hl) as [_ Hj]. by eapply joint_faithful.
  - intros g g' l l' id r r' Hl Hl' Hi Hi'. destruct (lf_link _ _ _ Hok g l Hl) as [_ Hj], (lf_link _ _ _ Hok g' l' Hl') as [_ Hj'].
    apply (jk_served _ _ _ _ _ _ _ Hj) in Hi as (q & Hq & _). apply (jk_served _ _ _ _ _ _ _ Hj') in Hi' as (q' & Hq' & _).
    eapply (lf_calls _ _ _ Hok g g' l l' id Hl Hl'); [by exists q|by exists q'].
Qed.

(** ** Executing a schedule *)

(** A step of a link, and a call. *)
Inductive Move : Type :=
| Write (failure : option string)
| Lost
| Read
| Serve (now : Z)
| Acquire
| Finish (i : nat)
| Respond (failure : option string).
Inductive Turn : Type :=
| On (g : Z) (m : Move)
| Call (route : string) (params : Value).

Definition move (g : Z) (m : Move) l c w : option (Joint (A:=A) (B:=B)) :=
  let '(mkLink conn peer cc sc k u d ca se) := l in
  match m with
  | Write failure =>
      let c' := (writer_task self g cc failure c).2 in
      Some (mkJoint c' k w (u ++ drop (length (cwire c)) (cwire c')) d ca se)
  | Lost => Some (mkJoint (reader_task self g cc EndOfStream c).2 k w u d ca se)
  | Read =>
      match d with
      | m :: d => Some (mkJoint (reader_task self g cc (Received m) c).2 k w u d ca se)
      | [] => None
      end
  | Serve now =>
      match u, reader k with
      | m :: u, Reading =>
          Some (mkJoint c (conn_read s conn peer sc now (Received m) k w).1
                  (conn_read s conn peer sc now (Received m) k w).2 u d ca se)
      | _, _ => None
      end
  | Acquire => Some (mkJoint c (conn_acquire k) w u d ca se)
  | Finish i =>
      packet ← tasks k !! i;
      Some (mkJoint c (conn_finish s conn peer i k w).1 (conn_finish s conn peer i k w).2 u d ca
              (se ++ computed s conn peer packet w))
  | Respond failure =>
      let w' := writer_step conn sc failure w in
      Some (mkJoint c k w' u (d ++ written conn w w') ca se)
  end.

Definition turn (t : Turn) (L : Life) : option Life :=
  match t with
  | On g m =>
      l ← links L !! g;
      j ← move g m l (owner L) (server L);
      Some (mkLife (client j) (world j) (<[g := relink l j]> (links L)) (trying L))
  | Call route params =>
      let c := owner L in
      Some (mkLife (call_begin self route params [] c).2 (server L)
        (if is_connected c then made (writer c) (wrap 64 (next_request_id c + 1)) (route, params, []) (links L)
         else links L) (trying L))
  end.
Fixpoint play (ts : list Turn) (L : Life) : option Life :=
  match ts with [] => Some L | t :: ts => turn t L ≫= play ts end.

(** What the schedule calls with is representable. *)
Definition turn_fits (t : Turn) : Prop :=
  match t with
  | On _ _ => True
  | Call route params => forall id, in_u 64 id -> body_ok (ApiRequest id route params [] client_metadata)
  end.

Lemma life_move_sound g m l c w j : move g m l c w = Some j ->
  link_step self s (l_conn l) (l_peer l) g (l_cc l) (l_sc l) (joint_of l c w) j.
Proof.
  destruct l as [conn peer cc sc k u d ca se]. unfold joint_of. cbn [l_conn l_peer l_cc l_sc l_tasks l_up l_down l_calls l_served].
  destruct m; cbn [move].
  - intros [= <-]. apply LWrite.
  - intros [= <-]. by apply LLost.
  - destruct d as [|m d]; [done|]. intros [= <-]. apply LRead.
  - destruct u as [|m u]; [done|]. destruct (reader k) eqn:Hr; [|done..]. intros [= <-]. by apply LServe.
  - intros [= <-]. apply LAcquire.
  - intros (p & Hp & [= <-])%bind_Some. by apply LFinish.
  - intros [= <-]. apply LServerWrite.
Qed.

Lemma life_play_sound ts : forall L L', Forall turn_fits ts -> play ts L = Some L' -> nsteps life_step (length ts) L L'.
Proof.
  induction ts as [|t ts IH]; intros L L' Hf.
  - intros [= <-]. apply nsteps_O.
  - inversion_clear Hf. cbn [play]. intros (L1 & Ht & Hp)%bind_Some. eapply nsteps_l; [|by apply IH].
    destruct L as [c w ls b]. destruct t as [g m|route params]; cbn [turn owner server links] in Ht.
    + apply bind_Some in Ht as (l & Hl & (j & Hj%life_move_sound & [= <-])%bind_Some). by apply LifeLink.
    + injection Ht as <-. by apply LifeCall.
Qed.
End Lifetime.

(** ** Instances *)
Section Sample.
#[local] Existing Instances bit_json xor_x25519 prefix_sha256 plain_texts.
Abbreviation StepLife := (Life (A:=unit) (B:=unit)).

(** A client and a server that agree on their keys at every connection. *)
Definition keyed_client : WscallClient (App:=unit) := client_new "ws://a/socket" config_default.
Definition keyed_server : WscallServer (App:=unit) := with_ecdh greeting_server.

Lemma keyed_life_sound : life_sound keyed_client keyed_server.
Proof.
  split_and!.
  - intros conn peer g cc sc. exact (greeting_sound_with _ _ ChaCha20 true conn peer g cc sc).
  - intros g calls served n ids ws. split; [split; [by intros ? ? ?|constructor]|constructor].
  - intros n. split; [split; [by intros ? ? ?|constructor]|constructor].
  - split_and!; [reflexivity|discriminate|].
    repeat (constructor; [split; vm_compute; discriminate|]). constructor.
Qed.

Abbreviation step := (life_step keyed_client keyed_server).
Definition turns (ts : list Turn) (L : StepLife) : option StepLife :=
  play keyed_client keyed_server ts L.

(** A connection is made: no address refuses, neither end asks for credentials, and
    each receives the key that the other sends, the client's first. *)
Definition reached : string -> option string := fun _ => None.
Definition client_key (c : Client (App:=unit)) : Message :=
  default (MBinary []) (list.last (cwire (client_handshake keyed_client EndOfStream None (connect_any keyed_client reached c).2).2)).
Definition server_key (conn : string) (m : Message) (w : World unit) : Message :=
  default (MBinary []) (snd <$> list.last (wire (perform_ecdh_handshake conn (Received m) None (refuse_banned peer1 0 w).2).2)).
Definition client_side (m : Message) (c : Client (App:=unit)) : result ClientError FrameCodec * Client (App:=unit) :=
  establish_connection keyed_client (connection_generation c) reached (Received m) EndOfStream None None c.
Definition server_side (conn : string) (m : Message) (w : World unit) : result ServerError (option Session) * World unit :=
  connect keyed_server conn peer1 0 (Received m) EndOfStream None None w.
Definition connected (conn : string) (L : StepLife) : StepLife :=
  let c := (begin_attempt (owner L)).2 in
  let m := client_key c in
  let m' := server_key conn m (server L) in
  match client_side m' c, server_side conn m (server L) with
  | (Ok cc, c'), (Ok (Some ses), w) =>
      mkLife c' w (<[connection_generation c := new_link keyed_server conn peer1 cc (ses_codec ses)]> (links L)) false
  | _, _ => L
  end.

Lemma connected_steps conn (L : StepLife) : let c := (begin_attempt (owner L)).2 in
  let m := client_key c in let m' := server_key conn m (server L) in
  trying L = false -> (begin_attempt (owner L)).1 = Ok (Some (connection_generation c)) ->
  unlinked (links L) conn -> channels (server L) !! conn = None ->
  keys_exchanged keyed_client reached (Received m') None conn peer1 0 (Received m) None c (server L) ->
  (exists cc, (client_side m' c).1 = Ok cc) -> (exists ses, (server_side conn m (server L)).1 = Ok (Some ses)) ->
  nsteps step 2 L (connected conn L).
Proof.
  cbv zeta. destruct L as [c w ls b]. unfold connected. cbn [owner server links trying].
  intros -> Hb Hu Hn Hk He Hc.
  eapply nsteps_l; [eapply LifeAttempt; by rewrite <- Hb, <- surjective_pairing|]. apply nsteps_once.
  destruct (client_side _ _) as [[cc|?|] c'] eqn:Hcc; [|by destruct He..].
  destruct (server_side _ _ _) as [[[ses|]|?|] w'] eqn:Hses; [|by destruct Hc..].
  by eapply LifeConnect.
Qed.

(** A call is lost with its connection after the server executed it; the client
    connects again, the late response is ignored, and the second call is answered. *)
Definition life_1 : StepLife := connected "c1" (life_start (client_init sample_entropy tt) fresh_world).
Definition turns_1 : list Turn :=
  [Call "greet" (Str "you"); On 1 (Write None); On 1 (Serve 0); On 1 Acquire; On 1 (Finish 0); On 1 (Respond None); On 1 Lost].
Definition life_2 : StepLife := default life_1 (turns turns_1 life_1).
Definition life_3 : StepLife := connected "c2" life_2.
Definition turns_3 : list Turn :=
  [Call "greet" (Str "you"); On 1 Read; On 2 (Write None); On 2 (Serve 0); On 2 Acquire; On 2 (Finish 0);
   On 2 (Respond None); On 2 Read].
Definition life_4 : StepLife := default life_3 (turns turns_3 life_3).

Lemma turns_steps ts (L : StepLife) : Forall turn_fits ts -> bool_decide (is_Some (turns ts L)) = true ->
  nsteps step (length ts) L (default L (turns ts L)).
Proof. intros Hf [L' HL]%bool_decide_eq_true. rewrite HL. by eapply life_play_sound. Qed.

Ltac fits := constructor; [exact greet_fits|repeat (constructor; [exact I|]); constructor].
Ltac connects :=
  apply connected_steps; [vm_compute; reflexivity|vm_compute; reflexivity| |vm_compute; reflexivity| |eexists; vm_compute; reflexivity..];
  [apply (bool_decide_unpack _); vm_compute; reflexivity
  |eexists _, _; split_and!; [vm_compute; reflexivity|reflexivity|vm_compute; reflexivity|reflexivity]].
Lemma reconnect_run : nsteps step 19 (life_start (client_init sample_entropy tt) fresh_world) life_4.
Proof.
  apply (nsteps_trans 2 17 _ life_1).
  { connects. }
  apply (nsteps_trans 7 10 _ life_2).
  { apply (turns_steps turns_1); [fits|vm_compute; reflexivity]. }
  apply (nsteps_trans 2 8 _ life_3).
  { connects. }
  apply (turns_steps turns_3); [fits|vm_compute; reflexivity].
Qed.

Lemma reconnect_outcome : exists L : StepLife,
  nsteps step 19 (life_start (client_init sample_entropy tt) fresh_world) L
  /\ (l ← links L !! 1; Some (map fst (l_served l))) = Some [1]
  /\ (l ← links L !! 2; l_calls l !! 2) = Some ("greet", Str "you", [])
  /\ (call_poll 1 false (owner L)).1 = Some (Err (ConnectionClosed "reader loop stopped"))
  /\ (call_poll 2 false (owner L)).1 = Some (Ok (Str "hi")).
Proof. exists life_4. split; [exact reconnect_run|]. split_and!; vm_compute; reflexivity. Qed.

Lemma calls_faithful_across_reconnections_witness : exists (L : StepLife) l1 l2 p1 p2,
  links L !! 1 = Some l1 /\ links L !! 2 = Some l2
  /\ (1, p1) ∈ l_served l1 /\ (2, Ok p2) ∈ l_served l2 /\ answer p2 = Some (Ok (Str "hi"))
  /\ (call_poll 1 false (owner L)).1 = Some (Err (ConnectionClosed "reader loop stopped"))
  /\ (forall r, (1, r) ∈ l_served l2 -> False).
Proof.
  destruct reconnect_outcome as (L & Hr & (l1 & H1 & [= S1])%bind_Some & (l2 & H2 & C2)%bind_Some & P1 & P2).
  destruct (calls_faithful_across_reconnections (JL:=bit_json_laws) (XL:=xor_x25519_laws) keyed_client keyed_server
    19 (client_init sample_entropy tt) fresh_world L keyed_life_sound) as [Hf Hd].
  - split; [|done]. intros n bs. vm_compute. by intros [= <-].
  - vm_compute. discriminate.
  - split; [by intros id e|exact sample_entropy_ok].
  - exact Hr.
  - split; vm_compute; reflexivity.
  - destruct (l_served l1) as [|[id p1] [|]] eqn:Hl1; try done. injection S1 as ->.
    assert (Hin1 : (1, p1) ∈ l_served l1) by (rewrite Hl1; by left).
    destruct (Hf 2 l2 H2) as (_ & _ & Ho).
    destruct (Ho 2 _ false _ C2 P2) as [H0|[[reason H0]|[H0|(p & Hin & _ & Hans)]]]; [discriminate..|].
    exists L, l1, l2, p1, p. do 6 (split; [done|]).
    intros r Hin'. by specialize (Hd 1 2 l1 l2 1 p1 r H1 H2 Hin1 Hin').
Defined.
End Sample.
